(* ===== verification/_CoqProject ===== *)
-Q . S2P
Prelude.v
Go.v
BufQueue.v
Errors.v
Types.v
Sys.v
Kube.v
KubeExec.v
LineIO.v
HostConf.v
LiveMigration.v
Ownership.v
RestoreProofs.v
DumpProofs.v
ApiCore.v
ApiServer.v
ApiProofs.v
Isolation.v
Replies.v
Protocol.v
Progress.v
FwdSys.v
Fwd.v
FwdCopy.v
Binary64.v
Pause.v
Rate.v
FwdSvc.v
FwdSvcProofs.v
FwdWindow.v
FwdMove.v
FwdSpec.v
FwdOwn.v
FwdSafe.v
FwdLive.v
FwdLink.v
Logger.v
Proc.v
IfAddr.v
Main.v
Process.v
ProcLive.v
