(* ===== verification/Prelude.v ===== *)
(** * The container-cloudlet server, verified

    The program (src/server, in Go) runs on each host of a cloudlet.  It takes requests over
    TCP, deploys applications as Kubernetes pods, forwards the clients' connections to them,
    and moves a running application from one host to another: the destination drives the
    migration, the source dumps the pod's processes, and the destination's forwarding service
    is suspended, emptied, pointed at the restored pod and resumed.

    ** How the program is modelled

    A goroutine is a tree of effects ([Go.prog]): every call that leaves the code (network,
    Kubernetes, SSH, files, time, logs) and every access to memory shared with another
    goroutine is one effect, answered by the environment; a [for] loop is [Iter], a [go]
    statement [Go], a run-time panic [Panic].  [runs] gives the traces of one goroutine,
    [pstep] the interleavings of a pool of them over a shared state.  Theorems about one
    goroutine are about all its runs; theorems about a pool are about all reachable states.
    Both are proved with monitors ([respects]): a monitor's state is what a goroutine knows or
    owns, and [pool_sound] carries an invariant between the goroutines' states and the memory
    through every step.  Progress is the logic for what must happen: whoever waits does so,
    through others, for a goroutine that can move.

    ** The parts

    - Prelude: results, machine integers, strings, byte slices; Go: programs, pools, monitors.
    - Errors (errors.go), Types (types.go), LineIO (io.go and the scanner of bufio), BufQueue
      (bufque.go), Protocol (protocol.go), Logger (logger.go).
    - Sys: the effects of the handlers and what the callees promise.
    - Kube (kube.go), KubeExec (kube-exec.go, kube-portfwd.go), HostConf (hostconf.go, ssh.go).
    - LiveMigration (lm.go): [Restore] is [LM_Restore], [Dump] is [LM_DumpService].
    - ApiCore (api-core.go) and ApiServer (api-server.go): the handlers and the server.
    - FwdSys: the memory of a forwarding service and its forwarders, each access a step of its
      own; Fwd (fwd.go), FwdSvc (fwdsvc.go).
    - Proc: the effects of the process; IfAddr (ifaceaddr.go), Main (main.go); Process: the pool
      of the process.

    In ApiCore a call on a forwarding service is one effect ([EFwdSuspend] and the others);
    FwdLink starts the goroutines of a service where a request starts it and replaces the calls
    on services by the methods of FwdSvc, so that requests and the goroutines of all services
    run in one pool, with a memory for each service.  Main embeds the server's programs in those
    of the process ([Proc.sys]); there the calls on services are effects again.

    ** The theorems

    - Ownership, ApiProofs: nothing is closed twice and nothing but connections is left open by
      the server, its handlers and their goroutines; the only panic is the dereference of a
      nil forwarding service, and it can happen.  What each handler asks of the cluster.
      Process: the same for the whole process, from [main] on.
      ProcLive: nobody deadlocks on the process's mutexes and channels.
    - Isolation: requests touch the objects of their own application only, and the pods and
      services they ask for fit together.  Replies: what a client gets back.
    - RestoreProofs, DumpProofs: both sides of a migration follow its protocol, alone and
      together; the order of suspending, moving and resuming; what they release.
    - FwdCopy: each direction of a forwarder copies its bytes in order.  Rate: a limited
      forwarder keeps to its rate in any stretch of time, up to one buffer; Pause shows that a
      write and its pause take the time they should to two nanoseconds, from the rounding
      errors of the operations of [SpecFloat] in Binary64.
    - FwdWindow, FwdMove: the window of a migration, for a service alone and any number of
      migrations; FwdSpec: a service is an atomic service to its users; FwdLink: both for all
      services together with the server, whose requests start, move and remove them.
    - FwdOwn, FwdSafe: locks, channels, wait groups and connections of a service are used and
      given back correctly.  FwdLive: nobody waits forever in a service by the fault of its
      goroutines, with one migration; FwdSvcProofs: executions of the service that go wrong,
      among them a second migration that waits forever.
    - LineIO, BufQueue, Protocol, Kube, KubeExec, IfAddr, Logger, Main: the functional
      behaviour of these parts, on every path.

    ** Assumptions

    What is not under src is a parameter (JSON, YAML, UUIDs, pkg/errors, the predicates and the
    poller of client-go, package fmt's directives in a text used as a format) or an effect; what
    the theorems rely on is stated as a class of laws ([K8sLibOk], [PkgErrorsOk], [sane],
    [fwd_sane]) with an instance the witnesses use.

    ** Bounds and fuel

    Loops are not bounded: [Iter] runs as long as its body says.  Fuel occurs only in [interp]
    and in the schedules of [pool_path], which compute concrete executions for witnesses and
    for the theorems that an error can happen; running out of it gives a prefix of an
    execution, which the witnesses rule out by looking at its end.  Ports and the rsync rate
    are kept at their width; a forwarder's pause is computed in binary64 ([SpecFloat]).

    ** Not modelled

    Output at the levels Debug and Trace, and the times measured for it, in the handlers (the
    logger's own methods are in Logger).  A [*DeployResource] is its name, since an entry of the
    map is never replaced.  The count of dump iterations is unbounded.  An unrecovered panic
    ends its goroutine's trace; that it ends the process is not used.  The files of
    src/server/old are commented out from end to end; src/server/test, src/app and src/client
    are samples. *)
From Stdlib Require Export ZArith Lia Ascii.
From Stdlib Require Export Strings.Byte.
From stdpp Require Export base option strings pretty gmap list.

#[export] Set Default Goal Selector "!".

(** * Results of fallible calls *)

(** A Go function that returns [(T, error)] with a nil error, or an error. *)
Inductive result (A E : Type) : Type :=
| Ok (a : A)
| Err (e : E).
Arguments Ok {A E} a.
Arguments Err {A E} e.

Definition result_map {A B E : Type} (f : A → B) (r : result A E) : result B E :=
  match r with Ok a => Ok (f a) | Err e => Err e end.

Definition is_ok {A E : Type} (r : result A E) : bool :=
  match r with Ok _ => true | Err _ => false end.

(** * Machine integers *)

(** The value of a [w]-bit two's complement integer with the bits of [z]. *)
Definition wrap_signed (w : Z) (z : Z) : Z :=
  ((z + 2 ^ (w - 1)) mod 2 ^ w - 2 ^ (w - 1))%Z.

(** [int32(z)]: the conversion Go applies to the ports of a request. *)
Definition int32 (z : Z) : Z := wrap_signed 32 z.

(** The result of an operation on [int] (64 bits on the supported hosts). *)
Definition int64 (z : Z) : Z := wrap_signed 64 z.

Definition in_int32 (z : Z) : Prop := (- 2 ^ 31 ≤ z < 2 ^ 31)%Z.
Definition in_int64 (z : Z) : Prop := (- 2 ^ 63 ≤ z < 2 ^ 63)%Z.

(** * Strings *)

Definition newline : string := String (ascii_of_nat 10) EmptyString.
Definition dquote : string := String (ascii_of_nat 34) EmptyString.

(** [fmt.Sprintf] of an integer with the verb [%d]. *)
Definition itoa (z : Z) : string := pretty z.

(** [strings.Contains s sub]. *)
Fixpoint str_contains (sub s : string) : bool :=
  String.prefix sub s ||
  match s with
  | EmptyString => false
  | String _ s' => str_contains sub s'
  end.

(** * Lists *)

(** [l] without its first [x], if there is one. *)
Fixpoint take1 {A : Type} `{EqDecision A} (x : A) (l : list A) : option (list A) :=
  match l with
  | [] => None
  | y :: l => if decide (x = y) then Some l else cons y <$> take1 x l
  end.

Lemma take1_Permutation {A : Type} `{EqDecision A} (x : A) l l' :
  take1 x l = Some l' → l ≡ₚ x :: l'.
Proof.
  revert l'. induction l as [|y l IH]; intros l'; simpl; [done|].
  case_decide as Hy; [intros [= <-]; by subst|].
  destruct (take1 x l) as [l1|]; simpl; [|done]. intros [= <-].
  rewrite (IH l1 eq_refl). constructor.
Qed.

(** * Byte slices *)

(** [copy(dst, src)]: as many elements as both have; the rest of [dst] stays. *)
Definition go_copy {A : Type} (dst src : list A) : list A :=
  take (length dst) src ++ drop (length src) dst.

(** [make([]byte, n)]. *)
Definition make_bytes (n : nat) : list byte := replicate n x00.

(** * Lemmas the components share *)

Lemma int32_id z : in_int32 z → int32 z = z.
Proof. unfold in_int32, int32, wrap_signed. intros H. rewrite Z.mod_small; lia. Qed.

Lemma int64_id z : in_int64 z → int64 z = z.
Proof. unfold in_int64, int64, wrap_signed. intros H. rewrite Z.mod_small; lia. Qed.

Lemma int32_range z : in_int32 (int32 z).
Proof.
  unfold in_int32, int32, wrap_signed.
  pose proof (Z.mod_pos_bound (z + 2 ^ (32 - 1)) (2 ^ 32)). lia.
Qed.

Lemma int32_idemp z : int32 (int32 z) = int32 z.
Proof. apply int32_id, int32_range. Qed.

Lemma prefix_append s1 s2 : String.prefix s1 (s1 +:+ s2) = true.
Proof.
  induction s1 as [|a s1 IH]; [by destruct s2|].
  simpl. by destruct (ascii_dec a a).
Qed.

Lemma str_app_assoc (s1 s2 s3 : string) : (s1 +:+ s2) +:+ s3 = s1 +:+ (s2 +:+ s3).
Proof. induction s1 as [|a s1 IH]; [done|]. exact (f_equal (String a) IH). Qed.

Lemma str_contains_app sub s1 s2 : str_contains sub (s1 +:+ sub +:+ s2) = true.
Proof.
  induction s1 as [|a s1 IH].
  - change (EmptyString +:+ sub +:+ s2) with (sub +:+ s2).
    pose proof (prefix_append sub s2) as H.
    destruct (sub +:+ s2) as [|a s]; cbn [str_contains]; by rewrite H.
  - change (String a s1 +:+ sub +:+ s2) with (String a (s1 +:+ sub +:+ s2)).
    cbn [str_contains]. by rewrite IH, orb_true_r.
Qed.

Lemma Forall_snoc {A} (P : A → Prop) l x : Forall P (l ++ [x]) ↔ Forall P l ∧ P x.
Proof. by rewrite Forall_app, Forall_singleton. Qed.

Lemma omap_snoc {A B} (f : A → option B) l x :
  omap f (l ++ [x]) = omap f l ++ match f x with Some y => [y] | None => [] end.
Proof. rewrite omap_app. simpl. by destruct (f x). Qed.

Lemma go_copy_same {A} (dst src : list A) : length dst = length src → go_copy dst src = src.
Proof.
  intros H. unfold go_copy. rewrite H, firstn_all, drop_ge by lia. apply app_nil_r.
Qed.

Lemma length_go_copy {A} (dst src : list A) : length (go_copy dst src) = length dst.
Proof. unfold go_copy. rewrite length_app, length_take, length_drop. lia. Qed.

(** * Automation *)

Create HintDb cloudlet.
Create Rewrite HintDb cloudlet.
#[export] Hint Resolve int32_range int32_id int64_id : cloudlet.
#[export] Hint Rewrite @omap_snoc @omap_app @Forall_snoc int32_idemp : cloudlet.

(** Splits the conjunctions and existentials of the context. *)
Ltac inv_all :=
  repeat match goal with
  | H : _ ∧ _ |- _ => destruct H
  | H : ∃ _, _ |- _ => destruct H
  | H : False |- _ => destruct H
  | H : Some _ = Some _ |- _ => injection H as H
  | H : Ok _ = Ok _ |- _ => injection H as H
  | H : Err _ = Err _ |- _ => injection H as H
  end; subst.

(** Case analysis on the scrutinee of a match of the goal. *)
Ltac case_goal :=
  match goal with
  | |- context [match ?x with _ => _ end] => destruct x eqn:?
  end.
