(* ===== verification/Go.v ===== *)
(** Goroutines as trees of effects: the language the handlers of the server are
    translated into, its small-step semantics, a thread pool for interleavings,
    a runner for closed executions, and the logic of monitors the components'
    theorems are proved with. *)
From Stdlib Require Import FunctionalExtensionality.
From S2P Require Import Prelude.

(** * Programs *)

(** A piece of Go code with effects [E]: [E X] is the type of the calls that
    return an [X].  [Iter] is a [for] loop, [Go] is the [go] statement, and [Panic] a
    run-time panic, which no code of the server recovers from. *)
Inductive prog (E : Type → Type) (A : Type) : Type :=
| Ret (a : A)
| Vis (X : Type) (e : E X) (k : X → prog E A)
| Iter (S B : Type) (body : S → prog E (S + B)) (s : S) (k : B → prog E A)
| Go (c : prog E unit) (k : prog E A)
| Panic (msg : string).
Arguments Ret {E A} a.
Arguments Vis {E A X} e k.
Arguments Iter {E A S B} body s k.
Arguments Go {E A} c k.
Arguments Panic {E A} msg.

Fixpoint bind {E : Type → Type} {A B : Type} (p : prog E A) (f : A → prog E B)
  : prog E B :=
  match p with
  | Ret a => f a
  | Vis e k => Vis e (λ x, bind (k x) f)
  | Iter body s k => Iter body s (λ b, bind (k b) f)
  | Go c k => Go c (bind k f)
  | Panic msg => Panic msg
  end.

Definition call {E : Type → Type} {X : Type} (e : E X) : prog E X := Vis e Ret.

Definition go {E : Type → Type} (c : prog E unit) : prog E unit := Go c (Ret tt).

Definition loop {E : Type → Type} {S B : Type} (s : S) (body : S → prog E (S + B))
  : prog E B := Iter body s Ret.

Declare Scope go_scope.
Delimit Scope go_scope with go.
Notation "x <- p ;; q" := (bind p (λ x, q))
  (at level 100, p at next level, q at level 200, right associativity) : go_scope.
Notation "p ;; q" := (bind p (λ _, q))
  (at level 100, q at level 200, right associativity) : go_scope.
(** [if err != nil { return err }]: the rest runs on the value only. *)
Notation "x ?<- p ;; q" :=
  (bind p (λ r, match r with Ok x => q | Err e => Ret (Err e) end))
  (at level 100, p at next level, q at level 200, right associativity) : go_scope.
(** The same for a call whose only result is an error. *)
Notation "'try' p ;; q" :=
  (bind p (λ r, match r with None => q | Some e => Ret (Err e) end))
  (at level 100, p at next level, q at level 200, right associativity) : go_scope.
#[local] Open Scope go_scope.

(** A program of one part of the server in a larger one: [f] embeds its effects. *)
Fixpoint hoist {E F : Type → Type} (f : ∀ X, E X → F X) {A : Type} (p : prog E A) : prog F A :=
  match p with
  | Ret a => Ret a
  | Vis e k => Vis (f _ e) (λ x, hoist f (k x))
  | Iter body s k => Iter (λ s, hoist f (body s)) s (λ b, hoist f (k b))
  | Go c k => Go (hoist f c) (hoist f k)
  | Panic msg => Panic msg
  end.

(** [defer d]: [d] runs when the rest [p] of the function has returned, and may look at
    the (named) result.  Several defers nest, so they run last in, first out. *)
Definition defer_on {E : Type → Type} {A : Type} (d : A → prog E unit) (p : prog E A)
  : prog E A := a <- p ;; d a ;; Ret a.

Definition defer {E : Type → Type} {A : Type} (d : prog E unit) (p : prog E A)
  : prog E A := defer_on (λ _, d) p.

(** The goroutine has neither returned nor panicked. *)
Definition running {E : Type → Type} {A : Type} (p : prog E A) : bool :=
  match p with Ret _ | Panic _ => false | _ => true end.

(** * Steps of one goroutine *)

(** An effect together with the answer it got. *)
Inductive obs (E : Type → Type) : Type :=
| Obs (X : Type) (e : E X) (x : X).
Arguments Obs {E X} e x.

Inductive label (E : Type → Type) : Type :=
| LTau
| LVis (o : obs E)
| LSpawn (c : prog E unit).
Arguments LTau {E}.
Arguments LVis {E} o.
Arguments LSpawn {E} c.

Definition lstep {E : Type → Type} {A : Type} (p : prog E A) (l : label E)
  (p' : prog E A) : Prop :=
  match p with
  | Vis e k => ∃ x, l = LVis (Obs e x) ∧ p' = k x
  | Iter body s k =>
      l = LTau ∧
      p' = bind (body s) (λ r, match r with inl s' => Iter body s' k | inr b => k b end)
  | Go c k => l = LSpawn c ∧ p' = k
  | Ret _ | Panic _ => False
  end.

Definition label_obs {E : Type → Type} (l : label E) : list (obs E) :=
  match l with LVis o => [o] | _ => [] end.

(** [runs p tr p']: the goroutine [p] can come to [p'], with the effects and answers of
    [tr] in this order.  The answers are the environment's: any. *)
Inductive runs {E : Type → Type} {A : Type} : prog E A → list (obs E) → prog E A → Prop :=
| runs_nil p : runs p [] p
| runs_step p l p' tr p'' :
    lstep p l p' → runs p' tr p'' → runs p (label_obs l ++ tr) p''.

(** * A pool of goroutines over a shared state *)

Section pool.
Context {E : Type → Type} {S : Type} (h : S → obs E → S → Prop).

(** [h s o s']: in the shared state [s] the effect of [o] may answer what [o] says, and
    leaves [s'].  No [s'] for any answer: the effect blocks. *)
Inductive pstep : list (prog E unit) * S → list (prog E unit) * S → Prop :=
| pstep_tau ts s i p p' :
    ts !! i = Some p → lstep p LTau p' → pstep (ts, s) (<[i:=p']> ts, s)
| pstep_vis ts s s' i p o p' :
    ts !! i = Some p → lstep p (LVis o) p' → h s o s' →
    pstep (ts, s) (<[i:=p']> ts, s')
| pstep_spawn ts s i p c p' :
    ts !! i = Some p → lstep p (LSpawn c) p' → pstep (ts, s) (<[i:=p']> ts ++ [c], s).

End pool.

(** * Monitors *)

(** A monitor watches the effects of one goroutine.  [mon_step] refuses with [None];
    [mon_legal] is what the environment's answers are known to satisfy; a [go] statement
    splits the state between the new goroutine and the rest ([mon_split m mc mk]), and the
    new goroutine must end in [mon_final]; [mon_panic] says which panics are allowed. *)
Record monitor (E : Type → Type) (M : Type) : Type := Monitor {
  mon_step : M → obs E → option M;
  mon_legal : M → obs E → Prop;
  mon_split : M → M → M → Prop;
  mon_final : M → Prop;
  mon_panic : M → string → Prop
}.
Arguments Monitor {E M} _ _ _ _ _.
Arguments mon_step {E M} _ _ _.
Arguments mon_legal {E M} _ _ _.
Arguments mon_split {E M} _ _ _ _.
Arguments mon_final {E M} _ _.
Arguments mon_panic {E M} _ _ _.

(** [respects mon p m Q]: started when the monitor is in state [m], every effect of [p] is
    accepted whatever the environment answers, and when [p] returns [a] the monitor's state
    [m'] satisfies [Q m' a].  A loop needs an invariant of its variables and the monitor. *)
Fixpoint respects {E : Type → Type} {M A : Type} (mon : monitor E M) (p : prog E A)
  (m : M) (Q : M → A → Prop) : Prop :=
  match p with
  | Ret a => Q m a
  | Vis e k =>
      ∀ x, mon_legal mon m (Obs e x) →
        match mon_step mon m (Obs e x) with
        | Some m' => respects mon (k x) m' Q
        | None => False
        end
  | @Iter _ _ T B body s k =>
      ∃ I : T → M → Prop, I s m ∧
        ∀ s1 m1, I s1 m1 →
          respects mon (body s1) m1
            (λ m2 r, match r with
                     | inl s2 => I s2 m2
                     | inr b => respects mon (k b) m2 Q
                     end)
  | Go c k =>
      ∃ mc mk, mon_split mon m mc mk ∧
        respects mon c mc (λ m' _, mon_final mon m') ∧ respects mon k mk Q
  | Panic msg => mon_panic mon m msg
  end.

(** The monitor that refuses the effects outside [P]. *)
Definition guard {E : Type → Type} (P : obs E → bool) : monitor E unit := {|
  mon_step _ o := if P o then Some tt else None;
  mon_legal _ _ := True;
  mon_split _ _ _ := True;
  mon_final _ := True;
  mon_panic _ _ := True
|}.

(** [guarded P p]: the effects of [p] and of the goroutines it starts are in [P]. *)
Definition guarded {E : Type → Type} {A : Type} (P : obs E → bool) (p : prog E A) : Prop :=
  respects (guard P) p tt (λ _ _, True).

(** The state of the monitor after a trace. *)
Fixpoint mon_run {E : Type → Type} {M : Type} (mon : monitor E M) (m : M)
  (tr : list (obs E)) : option M :=
  match tr with
  | [] => Some m
  | o :: tr => m' ← mon_step mon m o; mon_run mon m' tr
  end.

(** Every answer of a trace is legal in the monitor's state it came in. *)
Fixpoint legal_run {E : Type → Type} {M : Type} (mon : monitor E M) (m : M)
  (tr : list (obs E)) : Prop :=
  match tr with
  | [] => True
  | o :: tr =>
      mon_legal mon m o ∧ ∀ m', mon_step mon m o = Some m' → legal_run mon m' tr
  end.

(** The monitor that accepts everything and collects what [f] picks from the trace.  A run
    that panics does not return, so its result says nothing and is not refused here. *)
Definition collector {E : Type → Type} {O : Type} (f : obs E → option O)
  (legal : obs E → Prop) : monitor E (list O) := {|
  mon_step l o := match f o with Some x => Some (l ++ [x]) | None => Some l end;
  mon_legal _ := legal;
  mon_split l lc lk := lc = [] ∧ lk = l;
  mon_final _ := True;
  mon_panic _ _ := True
|}.

(** A monitor of a part of a program, for the whole: [part] picks the effects of the part, and
    [polite] is what is known of the answers besides. *)
Definition lift_mon {E F : Type → Type} {M : Type} (part : obs F → option (obs E))
  (polite : obs F → Prop) (mon : monitor E M) : monitor F M := {|
  mon_step m o := match part o with Some o' => mon_step mon m o' | None => Some m end;
  mon_legal m o := polite o ∧ match part o with Some o' => mon_legal mon m o' | None => True end;
  mon_split := mon_split mon;
  mon_final := mon_final mon;
  mon_panic := mon_panic mon
|}.

(** The part's memory in the whole: the other effects leave it alone. *)
Definition lift_sem {E F : Type → Type} {S : Type} (part : obs F → option (obs E))
  (polite : obs F → Prop) (h : S → obs E → S → Prop) (s : S) (o : obs F) (s' : S) : Prop :=
  polite o ∧ match part o with Some o' => h s o' s' | None => s' = s end.

(** [uses P p]: whatever the answers, the effects of [p] (not of the goroutines it starts)
    satisfy [P]. *)
Fixpoint uses {E : Type → Type} {A : Type} (P : obs E → Prop) (p : prog E A) : Prop :=
  match p with
  | Ret _ | Panic _ => True
  | Vis e k => ∀ x, P (Obs e x) ∧ uses P (k x)
  | Iter body s k => (∀ s', uses P (body s')) ∧ ∀ b, uses P (k b)
  | Go _ k => uses P k
  end.

(** [everywhere P ok p]: the effects of [p] and of every goroutine it starts satisfy [P],
    and the messages they can panic with [ok]. *)
Fixpoint everywhere {E : Type → Type} {A : Type} (P : obs E → Prop) (ok : string → Prop)
  (p : prog E A) : Prop :=
  match p with
  | Ret _ => True
  | Vis e k => ∀ x, P (Obs e x) ∧ everywhere P ok (k x)
  | Iter body s k => (∀ s', everywhere P ok (body s')) ∧ ∀ b, everywhere P ok (k b)
  | Go c k => everywhere P ok c ∧ everywhere P ok k
  | Panic msg => ok msg
  end.

(** * Runner *)

(** Runs one goroutine against a machine that answers its effects; spawned goroutines are
    not run.  [fuel] bounds the number of effects and loop iterations; [inl] is a run that
    stopped there or at a refused effect. *)
Fixpoint interp {E : Type → Type} {S A : Type} (ans : S → ∀ X, E X → option (X * S))
  (fuel : nat) (s : S) (p : prog E A) : list (obs E) * S * prog E A :=
  match fuel with
  | 0 => ([], s, p)
  | Datatypes.S fuel =>
      match p with
      | Ret _ | Panic _ => ([], s, p)
      | @Vis _ _ X e k =>
          match ans s X e with
          | Some (x, s') =>
              let '(tr, s'', p') := interp ans fuel s' (k x) in (Obs e x :: tr, s'', p')
          | None => ([], s, p)
          end
      | Iter body i k =>
          interp ans fuel s
            (bind (body i) (λ r, match r with inl i' => Iter body i' k | inr b => k b end))
      | Go _ k => interp ans fuel s k
      end
  end.

(** A pool of goroutines under a machine, scheduled in turn: a goroutine that has ended, or
    whose effect the machine refuses, loses its turn. *)
Definition pool_turn {E : Type → Type} {S : Type} (ans : S → ∀ X, E X → option (X * S))
  (i : nat) (c : list (prog E unit) * S) : list (prog E unit) * S :=
  let '(ts, s) := c in
  match ts !! i with
  | Some (@Vis _ _ X e k) =>
      match ans s X e with
      | Some (x, s') => (<[i := k x]> ts, s')
      | None => c
      end
  | Some (Iter body j k) =>
      (<[i := bind (body j) (λ r, match r with inl j' => Iter body j' k | inr b => k b end)]> ts,
       s)
  | Some (Go c' k) => (<[i := k]> ts ++ [c'], s)
  | _ => c
  end.

Fixpoint pool_run {E : Type → Type} {S : Type} (ans : S → ∀ X, E X → option (X * S))
  (turns i : nat) (c : list (prog E unit) * S) : list (prog E unit) * S :=
  match turns with
  | 0 => c
  | Datatypes.S turns =>
      let i := if i <? length c.1 then i else 0 in
      pool_run ans turns (Datatypes.S i) (pool_turn ans i c)
  end.

(** The same under a given schedule. *)
Definition pool_path {E : Type → Type} {S : Type} (ans : S → ∀ X, E X → option (X * S))
  (schedule : list nat) (c : list (prog E unit) * S) : list (prog E unit) * S :=
  foldl (λ c i, pool_turn ans i c) c schedule.

(** * Laws *)

Section laws.
Context {E : Type → Type} {M : Type} (mon : monitor E M).

Lemma respects_mono {A} (p : prog E A) m (Q Q' : M → A → Prop) :
  respects mon p m Q → (∀ m' a, Q m' a → Q' m' a) → respects mon p m Q'.
Proof.
  revert m Q Q'. induction p as [A a|A X e k IH|A S B body IHb s k IHk|A c IHc k IHk|A msg];
    simpl; intros m Q Q' H HQ; auto.
  - intros x Hx. specialize (H x Hx). destruct (mon_step mon m (Obs e x)); eauto.
  - destruct H as (I & HI & H). exists I. split; [done|]. intros s1 m1 H1.
    eapply IHb; [by apply H|]. intros m2 [s2|b]; simpl; eauto.
  - destruct H as (mc & mk & Hm & Hc & Hk). exists mc, mk. eauto.
Qed.

Lemma respects_bind {A B} (p : prog E A) (f : A → prog E B) m (Q : M → B → Prop) :
  respects mon p m (λ m' a, respects mon (f a) m' Q) → respects mon (bind p f) m Q.
Proof.
  revert m. induction p as [A a|A X e k IH|A S B' body IHb s k IHk|A c IHc k IHk|A msg];
    simpl; intros m H; auto.
  - intros x Hx. specialize (H x Hx). destruct (mon_step mon m (Obs e x)); auto.
  - destruct H as (I & HI & H). exists I. split; [done|]. intros s1 m1 H1.
    eapply respects_mono; [by apply H|]. intros m2 [s2|b]; simpl; auto.
  - destruct H as (mc & mk & Hm & Hc & Hk). exists mc, mk. auto.
Qed.

Lemma respects_loop {A S} (I : S → M → Prop) s (body : S → prog E (S + A)) m
  (Q : M → A → Prop) :
  I s m →
  (∀ s1 m1, I s1 m1 →
     respects mon (body s1) m1
       (λ m2 r, match r with inl s2 => I s2 m2 | inr b => Q m2 b end)) →
  respects mon (loop s body) m Q.
Proof. intros HI H. exists I. auto. Qed.

(** One step preserves [respects], the monitor moving with the label. *)
Lemma respects_step {A} (p p' : prog E A) l m Q :
  respects mon p m Q → lstep p l p' →
  match l with
  | LTau => respects mon p' m Q
  | LVis o =>
      mon_legal mon m o → ∃ m', mon_step mon m o = Some m' ∧ respects mon p' m' Q
  | LSpawn c =>
      ∃ mc mk, mon_split mon m mc mk ∧
        respects mon c mc (λ m' _, mon_final mon m') ∧ respects mon p' mk Q
  end.
Proof.
  destruct p as [a|X e k|S B body s k|c k|msg]; simpl; intros H Hs; try done.
  - destruct Hs as (x & -> & ->). intros Hl. specialize (H x Hl).
    destruct (mon_step mon m (Obs e x)); [by eauto|done].
  - destruct Hs as (-> & ->). destruct H as (I & HI & H). apply respects_bind.
    eapply respects_mono; [by apply H|]. intros m2 [s2|b] Hr; [|done]. exists I. auto.
  - by destruct Hs as (-> & ->).
Qed.

Lemma mon_run_app m tr1 tr2 :
  mon_run mon m (tr1 ++ tr2) = (m' ← mon_run mon m tr1; mon_run mon m' tr2).
Proof.
  revert m. induction tr1 as [|o tr1 IH]; simpl; intros m; [done|].
  destruct (mon_step mon m o); simpl; auto.
Qed.

(** [go] statements leave the state of the goroutine that makes them alone. *)
Definition unsplit : Prop := ∀ m mc mk, mon_split mon m mc mk → mk = m.

(** Soundness of the logic for one goroutine: along every run the monitor accepts, and what
    is left to run still respects it. *)
Lemma respects_runs {A} (p p' : prog E A) tr m Q :
  unsplit → runs p tr p' → legal_run mon m tr → respects mon p m Q →
  ∃ m', mon_run mon m tr = Some m' ∧ respects mon p' m' Q.
Proof.
  intros Hu Hr. revert m. induction Hr as [p|p l p' tr p'' Hs Hr IH]; intros m Hl H.
  - by exists m.
  - pose proof (respects_step _ _ _ _ _ H Hs) as Hst. destruct l as [|o|c]; simpl in *.
    + auto.
    + destruct Hl as [Hl1 Hl2]. destruct (Hst Hl1) as (m' & Hm & H'). rewrite Hm. simpl. auto.
    + destruct Hst as (mc & mk & Hm & _ & H'). apply Hu in Hm as ->. auto.
Qed.

End laws.

(** Soundness for a pool of goroutines over a shared state: an invariant [compat] of the
    shared state and the monitors' states holds in every reachable pool, and every goroutine
    still respects the monitor from its state. *)
Section pool_laws.
Context {E : Type → Type} {M S : Type} (mon : monitor E M) (h : S → obs E → S → Prop).
Context (compat : S → list M → Prop).

Definition pool_inv (c : list (prog E unit) * S) : Prop :=
  ∃ ms, Forall2 (λ p m, respects mon p m (λ m' _, mon_final mon m')) c.1 ms ∧
        compat c.2 ms.

Hypothesis compat_legal : ∀ s ms i m o s',
  compat s ms → ms !! i = Some m → h s o s' → mon_legal mon m o.
Hypothesis compat_step : ∀ s ms i m o s' m',
  compat s ms → ms !! i = Some m → h s o s' → mon_step mon m o = Some m' →
  compat s' (<[i := m']> ms).
Hypothesis compat_split : ∀ s ms i m mc mk,
  compat s ms → ms !! i = Some m → mon_split mon m mc mk →
  compat s (<[i := mk]> ms ++ [mc]).

Lemma pstep_inv c c' : pool_inv c → pstep h c c' → pool_inv c'.
Proof.
  intros (ms & Hts & Hs) Hst.
  destruct Hst as [ts s i p p' Hi Hl|ts s s' i p o p' Hi Hl Hh|ts s i p c p' Hi Hl];
    simpl in *; destruct (Forall2_lookup_l _ _ _ _ _ Hts Hi) as (m & Hm & Hr);
    pose proof (respects_step _ _ _ _ _ _ Hr Hl) as Hstep; simpl in Hstep.
  - exists ms. split; [|done]. simpl. rewrite <-(list_insert_id ms i m Hm).
    by apply Forall2_insert.
  - destruct (Hstep (compat_legal _ _ _ _ _ _ Hs Hm Hh)) as (m' & Hm' & Hr').
    exists (<[i:=m']> ms). split; [by apply Forall2_insert|]. simpl. eauto.
  - destruct Hstep as (mc & mk & Hsp & Hc & Hk). exists (<[i:=mk]> ms ++ [mc]).
    split; [|simpl; eauto]. simpl. apply Forall2_app; [by apply Forall2_insert|].
    by apply Forall2_cons.
Qed.

Lemma pool_sound c c' : pool_inv c → rtc (pstep h) c c' → pool_inv c'.
Proof. intros Hc Hr. induction Hr; eauto using pstep_inv. Qed.

End pool_laws.

(** A monitor of a larger program that treats the embedded effects, goroutines and panics
    as a monitor of the part does. *)
Lemma respects_hoist {E F : Type → Type} {M A : Type} (f : ∀ X, E X → F X)
    (mon : monitor E M) (mon' : monitor F M) (p : prog E A) (m : M) (Q : M → A → Prop) :
  (∀ X (e : E X) x m, mon_step mon' m (Obs (f X e) x) = mon_step mon m (Obs e x)) →
  (∀ X (e : E X) x m, mon_legal mon' m (Obs (f X e) x) → mon_legal mon m (Obs e x)) →
  (∀ m mc mk, mon_split mon m mc mk → mon_split mon' m mc mk) →
  (∀ m, mon_final mon m → mon_final mon' m) →
  (∀ m msg, mon_panic mon m msg → mon_panic mon' m msg) →
  respects mon p m Q → respects mon' (hoist f p) m Q.
Proof.
  intros Hstep Hlegal Hsplit Hfinal Hpanic. revert m Q.
  induction p as [A a|A X e k IH|A S B body IHb s k IHk|A c IHc k IHk|A msg];
    simpl; intros m Q H; auto.
  - intros x Hx. specialize (H x (Hlegal _ _ _ _ Hx)). rewrite Hstep.
    destruct (mon_step mon m (Obs e x)); auto.
  - destruct H as (I & HI & H). exists I. split; [done|]. intros s1 m1 H1.
    eapply respects_mono; [by apply IHb, H|]. intros m2 [s2|b]; auto.
  - destruct H as (mc & mk & Hs & Hc & Hk). exists mc, mk. split; [auto|].
    split; [|auto]. eapply respects_mono; [by apply IHc|]. auto.
Qed.

(** What a monitor shows of a part, it shows of the whole. *)
Section lift_laws.
Context {E F : Type → Type} {M S : Type} (mon : monitor E M) (h : S → obs E → S → Prop).
Context (compat : S → list M → Prop) (part : obs F → option (obs E)) (polite : obs F → Prop).

Lemma lift_legal :
  (∀ s ms i m o s', compat s ms → ms !! i = Some m → h s o s' → mon_legal mon m o) →
  ∀ s ms i m o s', compat s ms → ms !! i = Some m → lift_sem part polite h s o s' →
    mon_legal (lift_mon part polite mon) m o.
Proof.
  intros Hl s ms i m o s' Hc Hi [Hp Hh]. split; [done|]. destruct (part o); [eauto|done].
Qed.

Lemma lift_step :
  (∀ s ms i m o s' m', compat s ms → ms !! i = Some m → h s o s' →
     mon_step mon m o = Some m' → compat s' (<[i := m']> ms)) →
  ∀ s ms i m o s' m', compat s ms → ms !! i = Some m → lift_sem part polite h s o s' →
    mon_step (lift_mon part polite mon) m o = Some m' → compat s' (<[i := m']> ms).
Proof.
  intros Hst s ms i m o s' m' Hc Hi [_ Hh]. simpl. destruct (part o); [eauto|].
  intros [= <-]. subst s'. by rewrite list_insert_id.
Qed.

(** A program of the part keeps the lifted rules. *)
Lemma lift_hoist {A} (f : ∀ X, E X → F X) (p : prog E A) m (Q : M → A → Prop) :
  (∀ X (e : E X) x, part (Obs (f X e) x) = Some (Obs e x)) →
  respects mon p m Q → respects (lift_mon part polite mon) (hoist f p) m Q.
Proof.
  intros Hf. apply respects_hoist; simpl; try done; intros X e x m'; rewrite Hf; [done|].
  by intros [_ ?].
Qed.

End lift_laws.

Section uses_laws.
Context {E : Type → Type} (P : obs E → Prop).

Lemma uses_bind {A B} (p : prog E A) (k : A → prog E B) :
  uses P p → (∀ a, uses P (k a)) → uses P (bind p k).
Proof.
  induction p as [A a|A X e f IH|A S C body IHb s f IHf|A c IHc f IHf|A msg];
    simpl; intros Hp Hk; auto.
  - intros x. destruct (Hp x). auto.
  - destruct Hp. auto.
Qed.

Lemma uses_mono {A} (P' : obs E → Prop) (p : prog E A) :
  uses P p → (∀ o, P o → P' o) → uses P' p.
Proof.
  induction p as [A a|A X e f IH|A S C body IHb s f IHf|A c IHc f IHf|A msg];
    simpl; intros Hp HP; auto.
  - intros x. destruct (Hp x). auto.
  - destruct Hp. auto.
Qed.

End uses_laws.

Section everywhere_laws.
Context {E : Type → Type} (P : obs E → Prop) (ok : string → Prop).

Lemma everywhere_bind {A B} (p : prog E A) (k : A → prog E B) :
  everywhere P ok p → (∀ a, everywhere P ok (k a)) → everywhere P ok (bind p k).
Proof.
  induction p as [A a|A X e f IH|A S C body IHb s f IHf|A c IHc f IHf|A msg];
    simpl; intros Hp Hk; auto.
  - intros x. destruct (Hp x). auto.
  - destruct Hp. auto.
  - destruct Hp. auto.
Qed.

Lemma everywhere_step {A} (p p' : prog E A) l :
  everywhere P ok p → lstep p l p' →
  everywhere P ok p' ∧ Forall P (label_obs l) ∧
  ∀ c, l = LSpawn c → everywhere P ok c.
Proof.
  destruct p as [a|X e k|S B body s k|c k|msg]; simpl; intros Hp Hs; try done.
  - destruct Hs as (x & -> & ->). destruct (Hp x). simpl. repeat constructor; naive_solver.
  - destruct Hs as (-> & ->), Hp as [Hb Hk]. simpl. split; [|naive_solver].
    apply everywhere_bind; [done|]. intros [s2|b]; simpl; auto.
  - destruct Hs as (-> & ->), Hp. simpl. repeat constructor; naive_solver.
Qed.

(** What holds everywhere holds of every step of every goroutine of a pool. *)
Lemma everywhere_pool {S} (h : S → obs E → S → Prop) c c' :
  Forall (everywhere P ok) c.1 → rtc (pstep h) c c' → Forall (everywhere P ok) c'.1.
Proof.
  intros Hc Hr. induction Hr as [c|c c1 c' Hst Hr IH]; [done|]. apply IH. clear IH Hr.
  destruct Hst as [ts s i p p' Hi Hl|ts s s' i p o p' Hi Hl Hh|ts s i p c p' Hi Hl];
    simpl in *; pose proof (Forall_lookup_1 _ _ _ _ Hc Hi) as Hp;
    destruct (everywhere_step _ _ _ Hp Hl) as (Hp' & _ & Hsp).
  - by apply Forall_insert.
  - by apply Forall_insert.
  - apply Forall_app_2; [by apply Forall_insert|]. by apply Forall_cons_2; [apply Hsp|].
Qed.

End everywhere_laws.

(** What the monitor does not look at leaves its state alone; the goroutines it starts get
    the empty state [zero]. *)
Lemma respects_idle {E : Type → Type} {M A : Type} (mon : monitor E M) (zero : M)
    (idle : M → Prop) (P : obs E → Prop) (ok : string → Prop) (p : prog E A) (m : M)
    (Q : M → A → Prop) :
  idle zero → mon_final mon zero →
  (∀ m, idle m → mon_split mon m zero m) →
  (∀ m o, idle m → P o → mon_step mon m o = Some m) →
  (∀ m msg, ok msg → mon_panic mon m msg) →
  everywhere P ok p → idle m → (∀ a, Q m a) → respects mon p m Q.
Proof.
  intros Hz Hfin Hsplit Hstep Hok. revert m Q.
  induction p as [A a|A X e k IH|A S B body IHb s k IHk|A c IHc k IHk|A msg];
    simpl; intros m Q Hp Hm HQ; auto.
  - intros x _. destruct (Hp x) as [He Hk]. rewrite Hstep by done. by apply IH.
  - destruct Hp as [Hb Hk]. exists (λ _ m', m' = m). split; [done|]. intros s1 m1 ->.
    apply IHb; [done..|]. intros [s2|b]; [done|]. by apply IHk.
  - destruct Hp as [Hc Hk]. exists zero, m. split; [by apply Hsplit|].
    split; [by apply IHc|by apply IHk].
Qed.

Section guard_laws.
Context {E : Type → Type} (P : obs E → bool).

Lemma guarded_bind {A B} (p : prog E A) (k : A → prog E B) :
  guarded P p → (∀ a, guarded P (k a)) → guarded P (bind p k).
Proof.
  intros Hp Hk. apply respects_bind. eapply respects_mono; [exact Hp|].
  intros [] a _. apply Hk.
Qed.

Lemma guarded_vis {A X} (e : E X) (k : X → prog E A) :
  (∀ x, P (Obs e x) = true) → (∀ x, guarded P (k x)) → guarded P (Vis e k).
Proof. intros He Hk x _. simpl. rewrite He. apply Hk. Qed.

Lemma guarded_iter {A S B} (body : S → prog E (S + B)) s (k : B → prog E A) :
  (∀ s, guarded P (body s)) → (∀ b, guarded P (k b)) → guarded P (Iter body s k).
Proof.
  intros Hb Hk. exists (λ _ _, True). split; [done|]. intros s1 [] _.
  eapply respects_mono; [apply Hb|]. intros [] [s2|b] _; [done|apply Hk].
Qed.

Lemma guarded_go {A} c (k : prog E A) : guarded P c → guarded P k → guarded P (Go c k).
Proof.
  intros Hc Hk. exists tt, tt. split; [done|]. split; [|exact Hk].
  eapply respects_mono; [exact Hc|done].
Qed.

(** No goroutine of a pool leaves [P]. *)
Lemma guarded_pool {S} (h : S → obs E → S → Prop) p s ts s' i q o q' :
  guarded P p → rtc (pstep h) ([p], s) (ts, s') →
  ts !! i = Some q → lstep q (LVis o) q' → P o = true.
Proof.
  intros Hp Hr Hi Hl.
  destruct (pool_sound (guard P) h (λ _ _, True)) with (c := ([p], s)) (c' := (ts, s'))
    as (ms & Hts & _); [done..| |done|].
  { exists [tt]. split; [|done]. constructor; [|constructor].
    eapply respects_mono; [exact Hp|done]. }
  destruct (Forall2_lookup_l _ _ _ _ _ Hts Hi) as ([] & _ & Hq).
  destruct (respects_step _ _ _ _ _ _ Hq Hl I) as (m' & Hm & _). simpl in Hm.
  by destruct (P o).
Qed.

End guard_laws.

(** * Sequences *)

Section sequences.
Context {E : Type → Type}.

Lemma bind_assoc {A B C} (p : prog E A) (f : A → prog E B) (g : B → prog E C) :
  bind (bind p f) g = bind p (λ a, bind (f a) g).
Proof.
  induction p as [A a|A X e k IH|A S D body IHb s k IHk|A c IHc k IHk|A msg]; simpl;
    f_equal; auto; apply functional_extensionality; auto.
Qed.

Lemma lstep_bind_inv {A B} (p : prog E A) (f : A → prog E B) l q :
  lstep (bind p f) l q →
  (∃ a, p = Ret a) ∨ ∃ p', lstep p l p' ∧ q = bind p' f.
Proof.
  destruct p as [a|X e k|S D body s k|c k|msg]; simpl; intros H; [by eauto|right..|done].
  - destruct H as (x & -> & ->). eauto.
  - destruct H as (-> & ->). eexists. split; [by split|]. rewrite bind_assoc. f_equal.
    apply functional_extensionality. by intros [s'|b].
  - destruct H as (-> & ->). eauto.
Qed.

(** A complete run of a sequence is a complete run of the first part, then one of the
    second. *)
Lemma runs_bind_inv {A B} (p : prog E A) (f : A → prog E B) tr b :
  runs (bind p f) tr (Ret b) →
  ∃ a tr1 tr2, tr = tr1 ++ tr2 ∧ runs p tr1 (Ret a) ∧ runs (f a) tr2 (Ret b).
Proof.
  remember (bind p f) as q eqn:Hq. remember (Ret b) as r eqn:Hr. intros H. revert p Hq.
  induction H as [q|q l q' tr r Hs H IH]; intros p ->; subst.
  - destruct p as [a|X e k|S D body s k|c k|msg]; try discriminate Hr.
    exists a, [], []. split; [done|]. split; apply runs_nil.
  - destruct (lstep_bind_inv _ _ _ _ Hs) as [[a ->]|(p' & Hs' & ->)].
    + exists a, [], (label_obs l ++ tr). split; [done|]. split; [constructor|].
      by econstructor.
    + destruct (IH eq_refl p' eq_refl) as (a & tr1 & tr2 & -> & H1 & H2).
      exists a, (label_obs l ++ tr1), tr2. rewrite app_assoc. split; [done|].
      split; [by econstructor|done].
Qed.

Lemma runs_vis_inv {A X} (e : E X) (k : X → prog E A) tr b :
  runs (Vis e k) tr (Ret b) →
  ∃ x tr', tr = Obs e x :: tr' ∧ runs (k x) tr' (Ret b).
Proof.
  intros H. remember (Vis e k) as p eqn:Hp. remember (Ret b) as r eqn:Hr.
  destruct H as [p|p l p' tr r Hs H]; subst; [discriminate Hr|].
  destruct Hs as (x & -> & ->). by exists x, tr.
Qed.

Lemma runs_ret_inv {A} (a b : A) (tr : list (obs E)) :
  runs (Ret a) tr (Ret b) → tr = [] ∧ a = b.
Proof.
  intros H. inversion H as [|? l p' tr' p'' Hs]; subst; [done|]. by destruct Hs.
Qed.

Lemma runs_go_inv {A} c (k : prog E A) tr a : runs (Go c k) tr (Ret a) → runs k tr (Ret a).
Proof. intros H. inversion H as [|? l p' tr' p'' Hs]; subst. by destruct Hs as [-> ->]. Qed.

Lemma runs_panic_inv {A} msg (a : A) (tr : list (obs E)) : ¬ runs (Panic msg) tr (Ret a).
Proof. intros H. inversion H as [|? l p' tr' p'' Hs]; subst. by destruct Hs. Qed.

End sequences.

(** * Collectors *)

Section collectors.
Context {E : Type → Type} {O : Type} (f : obs E → option O) (legal : obs E → Prop).

Lemma collector_run l tr : mon_run (collector f legal) l tr = Some (l ++ omap f tr).
Proof.
  revert l. induction tr as [|o tr IH]; simpl; intros l; [by rewrite app_nil_r|].
  destruct (f o); simpl; rewrite IH; [by rewrite <-app_assoc|done].
Qed.

Lemma collector_legal l tr : Forall legal tr → legal_run (collector f legal) l tr.
Proof. intros Htr. revert l. induction Htr; simpl; auto. Qed.

Lemma collector_unsplit : unsplit (collector f legal).
Proof. by intros m mc mk [_ ->]. Qed.

(** What a program that respects a collector leaves in the trace of a complete run. *)
Lemma collector_complete {A} (p : prog E A) tr a (Q : list O → A → Prop) :
  respects (collector f legal) p [] Q → runs p tr (Ret a) → Forall legal tr →
  Q (omap f tr) a.
Proof.
  intros H Hr Hl.
  destruct (respects_runs _ _ _ _ _ _ collector_unsplit Hr (collector_legal [] _ Hl) H)
    as (m & Hm & HQ).
  rewrite collector_run in Hm. by injection Hm as <-.
Qed.

(** [p] adds nothing to the collection, whatever [p] returns. *)
Definition silent {A} (p : prog E A) : Prop :=
  ∀ l, respects (collector f legal) p l (λ l' _, l' = l).

Lemma respects_silent {A B} (p : prog E A) (k : A → prog E B) l Q :
  silent p → (∀ a, respects (collector f legal) (k a) l Q) →
  respects (collector f legal) (bind p k) l Q.
Proof.
  intros Hp Hk. apply respects_bind. eapply respects_mono; [apply Hp|].
  intros l' a ->. apply Hk.
Qed.

Lemma respects_silent_tail {A} (p : prog E A) l (Q : list O → A → Prop) :
  silent p → (∀ a, Q l a) → respects (collector f legal) p l Q.
Proof. intros Hp HQ. eapply respects_mono; [apply Hp|]. by intros l' a ->. Qed.

(** What is silent leaves nothing in the collection of a complete run. *)
Lemma silent_runs {A} (p : prog E A) tr a :
  silent p → Forall legal tr → runs p tr (Ret a) → omap f tr = [].
Proof. intros Hp Hl Hr. by apply (collector_complete p tr a (λ l _, l = []) (Hp [])). Qed.

Lemma silent_loop {A S} s (body : S → prog E (S + A)) :
  (∀ s1, silent (body s1)) → silent (loop s body).
Proof.
  intros Hb l. apply (respects_loop _ (λ _ l', l' = l)); [done|].
  intros s1 l1 ->. eapply respects_mono; [apply Hb|]. by intros l' [s2|b] ->.
Qed.

(** A collector refuses nothing. *)
Lemma collector_any {A} (p : prog E A) l :
  respects (collector f legal) p l (λ _ _, True).
Proof.
  revert l. induction p as [A a|A X e k IH|A S B body IHb s k IHk|A c IHc k IHk|A msg];
    intros l; simpl; auto.
  - intros x _. destruct (f (Obs e x)); auto.
  - exists (λ _ _, True). split; [done|]. intros s1 m1 _.
    eapply respects_mono; [apply IHb|]. intros m2 [s2|b] _; auto.
  - exists [], l. auto.
Qed.

(** A program whose effects [f] does not pick is silent. *)
Lemma uses_silent {A} (P : obs E → Prop) (p : prog E A) :
  uses P p → (∀ o, P o → f o = None) → silent p.
Proof.
  intros Hp Hf. revert Hp.
  induction p as [A a|A X e k IH|A S B body IHb s k IHk|A c IHc k IHk|A msg];
    intros Hp l; simpl in *; auto.
  - intros x _. destruct (Hp x) as [He Hk]. simpl. rewrite (Hf _ He). by apply IH.
  - destruct Hp as [Hb Hk]. exists (λ _ l', l' = l). split; [done|].
    intros s1 m1 ->. eapply respects_mono; [by apply IHb|].
    intros m2 [s2|b] ->; [done|]. by apply IHk.
  - exists [], l. split; [done|]. split; [apply collector_any|]. by apply IHk.
Qed.

End collectors.
Arguments silent {E O} f legal {A} p.

Create HintDb silent.

(** What the runner computes is a run. *)
Lemma interp_runs {E : Type → Type} {S A} (ans : S → ∀ X, E X → option (X * S)) fuel s
  (p : prog E A) :
  runs p (interp ans fuel s p).1.1 (interp ans fuel s p).2.
Proof.
  revert s p. induction fuel as [|fuel IH]; intros s p; [by constructor|].
  destruct p as [a|X e k|T B body i k|c k|msg]; simpl; try by constructor.
  - destruct (ans s X e) as [[x s']|]; [|constructor].
    specialize (IH s' (k x)). destruct (interp ans fuel s' (k x)) as [[tr s''] p'].
    change (Obs e x :: tr) with (label_obs (LVis (Obs e x)) ++ tr).
    econstructor; [|exact IH]. simpl. eauto.
  - change (interp ans fuel s _).1.1 with (label_obs (@LTau E) ++
      (interp ans fuel s (bind (body i)
        (λ r, match r with inl i' => Iter body i' k | inr b => k b end))).1.1).
    econstructor; [|apply IH]. simpl. eauto.
  - change (interp ans fuel s k).1.1
      with (label_obs (LSpawn c) ++ (interp ans fuel s k).1.1).
    econstructor; [|apply IH]. simpl. eauto.
Qed.

Lemma interp_runs_to {E : Type → Type} {S A} (ans : S → ∀ X, E X → option (X * S)) fuel s
  (p q : prog E A) :
  (interp ans fuel s p).2 = q → runs p (interp ans fuel s p).1.1 q.
Proof. intros <-. apply interp_runs. Qed.

(** What the schedulers compute is reachable. *)
Lemma pool_turn_steps {E : Type → Type} {S} (ans : S → ∀ X, E X → option (X * S))
    (h : S → obs E → S → Prop) i c :
  (∀ s X (e : E X) x s', ans s X e = Some (x, s') → h s (Obs e x) s') →
  rtc (pstep h) c (pool_turn ans i c).
Proof.
  intros Hh. destruct c as [ts s]. simpl.
  destruct (ts !! i) as [[a|X e k|T B body j k|c k|msg]|] eqn:Hi; try done.
  - destruct (ans s X e) as [[x s']|] eqn:He; [|done]. apply rtc_once.
    eapply pstep_vis; [done| |by eauto]. by exists x.
  - apply rtc_once. by eapply pstep_tau.
  - apply rtc_once. by eapply pstep_spawn.
Qed.

Lemma pool_run_steps {E : Type → Type} {S} (ans : S → ∀ X, E X → option (X * S))
    (h : S → obs E → S → Prop) turns i c :
  (∀ s X (e : E X) x s', ans s X e = Some (x, s') → h s (Obs e x) s') →
  rtc (pstep h) c (pool_run ans turns i c).
Proof.
  intros Hh. revert i c. induction turns as [|turns IH]; intros i c; [done|]. simpl.
  generalize (if i <? length c.1 then i else 0). clear i. intros i.
  etrans; [|apply IH]. by apply pool_turn_steps.
Qed.

Lemma pool_path_steps {E : Type → Type} {S} (ans : S → ∀ X, E X → option (X * S))
    (h : S → obs E → S → Prop) schedule c :
  (∀ s X (e : E X) x s', ans s X e = Some (x, s') → h s (Obs e x) s') →
  rtc (pstep h) c (pool_path ans schedule c).
Proof.
  intros Hh. revert c. induction schedule as [|i l IH]; intros c; [done|]. simpl.
  etrans; [|apply IH]. by apply pool_turn_steps.
Qed.
