(* ===== verification/BufQueue.v ===== *)
(** Byte queues per (application, client): src/server/bufque.go.

    The sequential section refines the queue to the history of its operations; the
    concurrent one splits [remove] at the lock, as the code does, and shows which
    interleavings keep the bytes and which lose them. *)
From S2P Require Import Prelude.

(** * The queue *)

Record BufferQueueKey := mkKey { appId : string; clientId : string }.

#[export] Instance BufferQueueKey_eq_dec : EqDecision BufferQueueKey.
Proof. solve_decision. Defined.
#[export] Instance BufferQueueKey_countable : Countable BufferQueueKey.
Proof.
  refine (inj_countable' (λ k, (appId k, clientId k)) (λ '(a, c), mkKey a c) _).
  by intros [].
Defined.

Record BufferQueue := mkBQ { bufs : gmap BufferQueueKey (list byte) }.

Definition NewBufferQueue : BufferQueue := mkBQ ∅.

(** [p.bufs[key]]: the zero value (a nil slice) when the key is absent. *)
Definition buf_of (p : BufferQueue) (k : BufferQueueKey) : list byte :=
  default [] (bufs p !! k).

Definition add (app client : string) (b : list byte) (p : BufferQueue) : BufferQueue :=
  let key := mkKey app client in
  mkBQ (<[key := buf_of p key ++ b]> (bufs p)).

(** The part of [remove] before the lock: the result is allocated with the length the
    buffer has now. *)
Definition remove_make (app client : string) (p : BufferQueue) : list byte :=
  make_bytes (length (buf_of p (mkKey app client))).

(** The part of [remove] that holds the lock. *)
Definition remove_locked (app client : string) (ret : list byte) (p : BufferQueue)
  : list byte * BufferQueue :=
  let key := mkKey app client in
  (go_copy ret (buf_of p key), mkBQ (delete key (bufs p))).

Definition remove (app client : string) (p : BufferQueue) : list byte * BufferQueue :=
  remove_locked app client (remove_make app client p) p.

#[global] Arguments add : simpl never.
#[global] Arguments remove : simpl never.
#[global] Arguments remove_make : simpl never.

(** * Concurrent calls *)

(** What the goroutines that share the queue do, one atomic action each: [add] holds the
    lock throughout, [remove] reads the length first and takes the lock later. *)
Inductive action :=
| AAdd (app client : string) (b : list byte)
| ARemoveMake (tid : nat) (app client : string)
| ARemoveLocked (tid : nat).

(** The queue, the goroutines between the two parts of [remove], and what the finished
    calls of [remove] returned, oldest first. *)
Record shared := mkShared {
  queue : BufferQueue;
  inside : gmap nat (BufferQueueKey * list byte);
  returned : list (BufferQueueKey * list byte)
}.

Definition act (a : action) (s : shared) : option shared :=
  match a with
  | AAdd app client b => Some (mkShared (add app client b (queue s)) (inside s) (returned s))
  | ARemoveMake tid app client =>
      match inside s !! tid with
      | Some _ => None
      | None =>
          Some (mkShared (queue s)
            (<[tid := (mkKey app client, remove_make app client (queue s))]> (inside s))
            (returned s))
      end
  | ARemoveLocked tid =>
      match inside s !! tid with
      | None => None
      | Some (k, ret) =>
          let '(out, q) := remove_locked (appId k) (clientId k) ret (queue s) in
          Some (mkShared q (delete tid (inside s)) (returned s ++ [(k, out)]))
      end
  end.

Fixpoint acts (l : list action) (s : shared) : option shared :=
  match l with
  | [] => Some s
  | a :: l => s' ← act a s; acts l s'
  end.

(** * Specification: the history of a queue *)

Inductive op :=
| OpAdd (k : BufferQueueKey) (b : list byte)
| OpRemove (k : BufferQueueKey).

Definition run_op (o : op) (p : BufferQueue) : list byte * BufferQueue :=
  match o with
  | OpAdd k b => ([], add (appId k) (clientId k) b p)
  | OpRemove k => remove (appId k) (clientId k) p
  end.

Fixpoint run_ops (l : list op) (p : BufferQueue) : BufferQueue :=
  match l with
  | [] => p
  | o :: l => run_ops l (run_op o p).2
  end.

(** The bytes added under [k] and not yet removed, from the history, newest first. *)
Fixpoint pending (k : BufferQueueKey) (rev_hist : list op) : list byte :=
  match rev_hist with
  | [] => []
  | OpAdd k' b :: h => if decide (k' = k) then pending k h ++ b else pending k h
  | OpRemove k' :: h => if decide (k' = k) then [] else pending k h
  end.

(** * Lemmas *)

Lemma buf_of_add a c b p k :
  buf_of (add a c b p) k = if decide (mkKey a c = k) then buf_of p k ++ b else buf_of p k.
Proof.
  unfold buf_of, add; simpl. case_decide; subst.
  - by rewrite lookup_insert_eq.
  - by rewrite lookup_insert_ne.
Qed.

Lemma remove_atomic a c p :
  remove a c p = (buf_of p (mkKey a c), mkBQ (delete (mkKey a c) (bufs p))).
Proof.
  unfold remove, remove_locked, remove_make. f_equal.
  apply go_copy_same. unfold make_bytes. by rewrite length_replicate.
Qed.

Lemma buf_of_delete k k' p :
  buf_of (mkBQ (delete k' (bufs p))) k = if decide (k' = k) then [] else buf_of p k.
Proof.
  unfold buf_of; simpl. case_decide; subst.
  - by rewrite lookup_delete_eq.
  - by rewrite lookup_delete_ne.
Qed.

Lemma run_ops_app l1 l2 p : run_ops (l1 ++ l2) p = run_ops l2 (run_ops l1 p).
Proof. revert p. induction l1 as [|o l1 IH]; simpl; auto. Qed.

Lemma run_op_buf o p k :
  buf_of (run_op o p).2 k =
  match o with
  | OpAdd k' b => if decide (k' = k) then buf_of p k ++ b else buf_of p k
  | OpRemove k' => if decide (k' = k) then [] else buf_of p k
  end.
Proof.
  destruct o as [[a c] b|[a c]]; simpl.
  - apply buf_of_add.
  - apply buf_of_delete.
Qed.

Lemma run_ops_pending l p k :
  buf_of p k = [] → buf_of (run_ops l p) k = pending k (reverse l).
Proof.
  intros Hp. induction l as [|o l IH] using rev_ind; [done|].
  rewrite run_ops_app, reverse_snoc. cbn [run_ops]. rewrite run_op_buf, IH.
  by destruct o.
Qed.

(** ** Other goroutines between the two parts of [remove] *)

(** The action works on another key than [k], and is not one of the goroutine [tid]. *)
Definition spares (k : BufferQueueKey) (tid : nat) (a : action) : Prop :=
  match a with
  | AAdd app client _ => mkKey app client ≠ k
  | ARemoveMake t app client => t ≠ tid ∧ mkKey app client ≠ k
  | ARemoveLocked t => t ≠ tid
  end.

(** The goroutine [tid], alone on [k], has allocated [ret] and waits for the lock; the
    buffer of [k] is [b]. *)
Definition frozen (k : BufferQueueKey) (tid : nat) (ret b : list byte) (s : shared) : Prop :=
  buf_of (queue s) k = b ∧ inside s !! tid = Some (k, ret) ∧
  ∀ t k' ret', t ≠ tid → inside s !! t = Some (k', ret') → k' ≠ k.

Lemma acts_app l1 l2 s s' :
  acts (l1 ++ l2) s = Some s' → ∃ s1, acts l1 s = Some s1 ∧ acts l2 s1 = Some s'.
Proof.
  revert s. induction l1 as [|a l1 IH]; simpl; intros s H; [by exists s|].
  destruct (act a s) as [s1|]; [|done]. simpl in *. eauto.
Qed.

Lemma act_frozen k tid ret b a s s' :
  spares k tid a → frozen k tid ret b s → act a s = Some s' → frozen k tid ret b s'.
Proof.
  intros Ha (Hb & Ht & Ho) Hact. destruct a as [ap cl b'|t ap cl|t]; simpl in *.
  - injection Hact as <-. split; [|done]. simpl. by rewrite buf_of_add, decide_False.
  - destruct Ha as [Ha1 Ha2]. destruct (inside s !! t) eqn:E; [done|].
    injection Hact as <-. split; [done|]. simpl. split; [by rewrite lookup_insert_ne|].
    intros t' k' r Ht'. rewrite lookup_insert. case_decide; [|by eauto]. congruence.
  - destruct (inside s !! t) as [[k' r]|] eqn:E; [|done]. simpl in *.
    injection Hact as <-. simpl. split; [|split]; simpl.
    + rewrite buf_of_delete, decide_False; [done|]. destruct k'. eauto.
    + by rewrite lookup_delete_ne.
    + intros t' k'' r' Ht' Hl. apply lookup_delete_Some in Hl as [_ Hl]. eauto.
Qed.

Lemma acts_frozen k tid ret b l s s' :
  Forall (spares k tid) l → frozen k tid ret b s → acts l s = Some s' →
  frozen k tid ret b s'.
Proof.
  revert s. induction l as [|a l IH]; simpl; intros s Hl Hf Hs; [by injection Hs as <-|].
  apply Forall_cons_1 in Hl as [Ha Hl]. destruct (act a s) as [s1|] eqn:E; [|done].
  simpl in Hs. eauto using act_frozen.
Qed.

(** * Properties *)

(** C23.  Whatever calls of [add] and [remove] a queue has seen, [remove] returns exactly
    the bytes added under its key since the last [remove] of it, in the order of the
    calls, and it leaves nothing behind: a second [remove] returns no byte. *)
Theorem remove_returns_pending (hist : list op) (app client : string) :
  let p := run_ops hist NewBufferQueue in
  let '(out, p') := remove app client p in
  out = pending (mkKey app client) (reverse hist) ∧
  (remove app client p').1 = [] ∧
  (∀ k, k ≠ mkKey app client → buf_of p' k = pending k (reverse hist)).
Proof.
  cbv zeta. rewrite remove_atomic. cbv beta iota. split; [|split].
  - by apply run_ops_pending.
  - rewrite remove_atomic. simpl. rewrite buf_of_delete. by case_decide.
  - intros k Hk. rewrite buf_of_delete. case_decide; [congruence|].
    by apply run_ops_pending.
Qed.

(** The two parts of [remove] behave as one atomic step as long as no other goroutine
    works on the same key between them, whatever the others do on other keys: the call
    returns the whole buffer and removes it. *)
Theorem remove_undisturbed (app client : string) (tid : nat) (mid : list action)
    (s s' : shared) :
  let k := mkKey app client in
  inside s !! tid = None →
  (∀ t k' ret, inside s !! t = Some (k', ret) → k' ≠ k) →
  Forall (spares k tid) mid →
  acts (ARemoveMake tid app client :: mid ++ [ARemoveLocked tid]) s = Some s' →
  ∃ rs, returned s' = rs ++ [(k, buf_of (queue s) k)] ∧ buf_of (queue s') k = [].
Proof.
  cbv zeta. intros Hfree Hin Hmid. simpl. rewrite Hfree. simpl.
  set (s1 := mkShared _ _ _). intros Hacts.
  apply acts_app in Hacts as (s2 & Hacts & Hlast).
  assert (frozen (mkKey app client) tid (remove_make app client (queue s))
            (buf_of (queue s) (mkKey app client)) s2) as (Hbuf & Hlook & _).
  { eapply acts_frozen; [exact Hmid| |exact Hacts]. split; [|split]; simpl; [done| |].
    - by rewrite lookup_insert_eq.
    - intros t k' ret Ht. rewrite lookup_insert_ne by done. eauto. }
  simpl in Hlast. rewrite Hlook in Hlast. simpl in Hlast. injection Hlast as <-. simpl.
  rewrite Hbuf, buf_of_delete, decide_True by done. exists (returned s2). split; [|done].
  rewrite go_copy_same; [done|]. unfold remove_make, make_bytes. by rewrite length_replicate.
Qed.

Lemma remove_undisturbed_witness :
  ∃ s', acts (ARemoveMake 0 "app" "c1" :: [AAdd "app" "c2" [x02]] ++ [ARemoveLocked 0])
          (mkShared (add "app" "c1" [x01] NewBufferQueue) ∅ []) = Some s' ∧
  ∃ rs, returned s' = rs ++ [(mkKey "app" "c1", [x01])] ∧
        buf_of (queue s') (mkKey "app" "c1") = [].
Proof.
  eexists. split; [vm_compute; reflexivity|].
  apply (remove_undisturbed "app" "c1" 0 [AAdd "app" "c2" [x02]]
           (mkShared (add "app" "c1" [x01] NewBufferQueue) ∅ [])).
  - reflexivity.
  - intros t k' ret H. discriminate H.
  - constructor; [discriminate|constructor].
  - vm_compute. reflexivity.
Defined.

(** C24.  The lock of [remove] comes after the length is read: an [add] in between is
    lost, for every queue and all bytes.  The call returns the old bytes only, and the new
    ones are neither returned nor left in the queue. *)
Theorem remove_race_loses_bytes (p : BufferQueue) (app client : string) (b : list byte)
    (tid : nat) :
  let k := mkKey app client in
  acts [ARemoveMake tid app client; AAdd app client b; ARemoveLocked tid] (mkShared p ∅ []) =
  Some (mkShared (mkBQ (delete k (bufs p))) ∅ [(k, buf_of p k)]).
Proof.
  cbv zeta. simpl. rewrite lookup_empty. simpl. rewrite lookup_insert_eq. simpl.
  rewrite !delete_insert_eq, delete_empty. do 4 f_equal.
  rewrite buf_of_add, decide_True by done. unfold go_copy, remove_make, make_bytes.
  rewrite length_replicate, take_app_length, drop_ge; [apply app_nil_r|].
  rewrite length_replicate, length_app. lia.
Qed.
