(* ===== verification/Errors.v ===== *)
(** Go errors and the two predicates of src/server/errors.go. *)
From S2P Require Import Prelude.

(** A non-nil [error] value; [nil] is [None] of [option error].  [ENet] is a value that
    implements [net.Error]: [timeout] is what its [Timeout()] answers and [deadline] whether
    [errors.Is(err, os.ErrDeadlineExceeded)].  [EOpaque] is a value made by a package the
    repository imports; [kind] is what that package's own predicates look at. *)
Inductive error : Type :=
| EOF
| EText (s : string)
| ENet (s : string) (timeout deadline : bool)
| EOpaque (kind s : string).

#[export] Instance error_eq_dec : EqDecision error.
Proof. solve_decision. Defined.

(** [err.Error()]. *)
Definition Error (e : error) : string :=
  match e with
  | EOF => "EOF"
  | EText s | ENet s _ _ | EOpaque _ s => s
  end.

Definition IsClosedError (e : error) : bool :=
  let msg := "use of closed network connection" in
  str_contains msg (Error e).

Definition IsDeadlineExceeded (err : option error) : bool :=
  match err with
  | Some (ENet _ timeout deadline) =>
      if negb timeout then false else if negb deadline then false else true
  | _ => false
  end.

(** * github.com/pkg/errors *)

(** [errors.WithStack] of a non-nil error and [errors.New]; documented to keep the
    message. *)
Class PkgErrors := {
  WithStack : error → error;
  NewStackError : string → error
}.

Class PkgErrorsOk `{PkgErrors} : Prop := {
  WithStack_text e : Error (WithStack e) = Error e;
  NewStackError_text s : Error (NewStackError s) = s
}.

(** [errors.WithStack(err)] of an error that may be nil: documented to keep nil. *)
Definition WithStackOpt `{PkgErrors} (e : option error) : option error := WithStack <$> e.

(** * Lemmas *)

Lemma IsClosedError_WithStack `{PkgErrorsOk} e :
  IsClosedError (WithStack e) = IsClosedError e.
Proof. unfold IsClosedError. by rewrite WithStack_text. Qed.

(** The error of an operation on a closed connection, as package net words it, is
    recognised whatever the operation and the address. *)
Lemma IsClosedError_net op rest timeout deadline :
  IsClosedError (ENet (op +:+ "use of closed network connection" +:+ rest) timeout deadline)
  = true.
Proof. apply str_contains_app. Qed.

Lemma IsDeadlineExceeded_spec err :
  IsDeadlineExceeded err = true ↔ ∃ s, err = Some (ENet s true true).
Proof.
  destruct err as [[|s|s [] []|k s]|]; simpl; naive_solver.
Qed.
