(* ===== verification/Types.v ===== *)
(** Requests and responses: src/server/types.go.  Anonymous structs get a name of their
    own; [int] fields are integers, converted to 32 bits where the code converts. *)
From S2P Require Import Prelude.

Definition DeployTypeNew : string := "new".
Definition DeployTypeFwd : string := "fwd".
Definition DeployTypeLM : string := "lm".
Definition DeployTypeFwdLM : string := "fwdlm".

Record Port := mkPort { PortIn : Z; PortExt : Z }.

Record NewAppReq := mkNewAppReq {
  NewApp_Image : string;
  NewApp_Port : Port;
  NewApp_Env : gmap string string
}.

Record FwdReq := mkFwdReq { Fwd_SrcAddr : string; Fwd_Port : Port }.

Record LMReq := mkLMReq {
  LM_Image : string;
  LM_SrcAddr : string;
  LM_SrcName : string;
  LM_Port : Port;
  LM_DstAddr : string;
  LM_Env : gmap string string;
  LM_BwLimit : Z;
  LM_Iteration : Z
}.

Record FwdLMReq := mkFwdLMReq {
  FwdLM_Image : string;
  FwdLM_SrcAddr : string;
  FwdLM_SrcName : string;
  FwdLM_SrcPort : Z;
  FwdLM_Port : Port;
  FwdLM_DstAddr : string;
  FwdLM_Env : gmap string string;
  FwdLM_BwLimit : Z;
  FwdLM_Iteration : Z;
  FwdLM_DataRate : Z
}.

Record DeployReq := mkDeployReq {
  Deploy_Name : string;
  Deploy_Type : string;
  Deploy_NewApp : NewAppReq;
  Deploy_Fwd : FwdReq;
  Deploy_LM : LMReq;
  Deploy_FwdLM : FwdLMReq
}.

Record RemoveReq := mkRemoveReq { Remove_Name : string }.

Record RequestDumpStart := mkRequestDumpStart {
  DumpStart_Name : string;
  DumpStart_DstAddr : string;
  DumpStart_BwLimit : Z
}.

Record Request := mkRequest {
  Method : string;
  Deploy_ : DeployReq;
  Remove_ : RemoveReq;
  DumpStart_ : RequestDumpStart
}.

Record Response := mkResponse { Resp_Ok : bool; Resp_Msg : string }.

(** The zero values Go gives the fields a composite literal leaves out. *)
Definition zero_Port : Port := mkPort 0 0.
Definition zero_DeployReq : DeployReq :=
  mkDeployReq "" "" (mkNewAppReq "" zero_Port ∅) (mkFwdReq "" zero_Port)
    (mkLMReq "" "" "" zero_Port "" ∅ 0 0) (mkFwdLMReq "" "" "" 0 zero_Port "" ∅ 0 0 0).
Definition zero_Request : Request :=
  mkRequest "" zero_DeployReq (mkRemoveReq "") (mkRequestDumpStart "" "" 0).
