(* ===== verification/Sys.v ===== *)
(** The effects of the server: one constructor per call the handlers make into the Go
    runtime, the network, Kubernetes, SSH and the memory the goroutines share.  The answers
    belong to the environment; [sane] is what the documentation of the callees promises
    about them. *)
From S2P Require Import Prelude Go Errors Types.
#[local] Open Scope go_scope.

(** * Data that crosses the boundary *)

Inductive LogLevel := LError | LWarn | LInfo.

(** Pointers and handles the environment gives out. *)
Definition chan : Type := nat.
Definition errchan : Type := nat.
Definition var : Type := nat.
Definition conn : Type := nat.
Definition listener : Type := nat.
Definition svcref : Type := nat.
Definition sshconn : Type := nat.
Definition signer : Type := nat.
Definition portfwd : Type := nat.

(** [net.TCPAddr]: the IP in its text form ([] for none) and the port. *)
Record TCPAddr := mkTCPAddr { IP : string; PortOf : Z }.
#[export] Instance TCPAddr_eq_dec : EqDecision TCPAddr.
Proof. solve_decision. Defined.

(** The fields of client-go's types the server reads or writes. *)
Record RestConfig := mkRestConfig { Host : string }.
Inductive Clientset := AClientset.

Record Container := mkContainer {
  Cont_Name : string;
  Cont_Image : string;
  Cont_ImagePullPolicy : string;
  Cont_Command : list string;
  Cont_Args : list string;
  Cont_Ports : list Z;
  Cont_Env : list (string * string);
  Cont_Privileged : bool
}.

Record Pod := mkPod {
  Pod_Kind : string;
  Pod_APIVersion : string;
  Pod_Name : string;
  Pod_Labels : gmap string string;
  Pod_Containers : list Container;
  Pod_ShareProcessNamespace : bool;
  Pod_ImagePullSecrets : list string;
  Pod_RestartPolicy : string;
  Pod_Phase : string
}.

Record ServicePort := mkServicePort { SP_Name : string; SP_Protocol : string; SP_Port : Z }.

#[export] Instance ServicePort_eq_dec : EqDecision ServicePort.
Proof. solve_decision. Defined.

Record Service := mkService {
  Svc_Kind : string;
  Svc_APIVersion : string;
  Svc_Name : string;
  Svc_Labels : gmap string string;
  Svc_Type : string;
  Svc_Ports : list ServicePort;
  Svc_Selector : gmap string string;
  Svc_ClusterIP : string
}.

(** What [kubectl exec] is asked to do: the options of the exec subresource. *)
Record ExecRequest := mkExecRequest {
  Exec_Namespace : string;
  Exec_Pod : string;
  Exec_Container : string;
  Exec_Command : list string;
  Exec_Stdin : bool;
  Exec_Stdout : bool;
  Exec_Stderr : bool
}.

Record PortForwardSpec := mkPortForwardSpec {
  PF_Scheme : string;
  PF_Path : string;
  PF_Host : string;
  PF_Addresses : list string;
  PF_Ports : list string
}.

(** * The effects *)

Inductive sysE : Type → Type :=
(** [Logger] (the Error, Warn and Info levels) *)
| ELog (l : LogLevel) (msg : string) : sysE unit
(** channels that are only closed, and select on them *)
| EChanMake : sysE chan
| EChanClose (c : chan) : sysE bool
| EChanRecv (c : chan) : sysE unit
| ESelect2 (c1 c2 : chan) : sysE (option bool)
(** buffered channels of errors, and a channel that the port forwarder closes *)
| EErrChanMake : sysE errchan
| EReadyChanMake : sysE chan
| EErrChanSend (c : errchan) (e : error) : sysE unit
| ESelectReady (ready : chan) (errs : errchan) : sysE (option error)
(** a variable captured by several goroutines; time; the order of [range] over a map *)
| EVarNew (b : bool) : sysE var
| EVarGet (v : var) : sysE bool
| EVarSet (v : var) (b : bool) : sysE unit
| ESleep (ms : Z) : sysE unit
| EMapRange (m : gmap string string) : sysE (list (string * string))
(** files *)
| EReadFile (path : string) : sysE (result string error)
(** package net *)
| EListen (network addr : string) : sysE (result listener error)
| EListenTCP (network : string) (a : TCPAddr) : sysE (result listener error)
| EAccept (ln : listener) : sysE (result conn error)
| ELnClose (ln : listener) : sysE (option error)
| EResolveTCPAddr (network addr : string) : sysE (result TCPAddr error)
| EDial (network addr : string) : sysE (result conn error)
| EConnRead (c : conn) (cap : Z) : sysE (list byte * option error)
| EConnWrite (c : conn) (b : list byte) : sysE (Z * option error)
| EConnClose (c : conn) : sysE (option error)
| EConnRemoteAddr (c : conn) : sysE string
| EConnSetDeadline (c : conn) (secs : Z) : sysE (option error)
| EConnSetReadDeadline (c : conn) (secs : Z) : sysE (option error)
| EIOCopy (dst src : conn) : sysE (option error)
(** golang.org/x/crypto/ssh *)
| EParsePrivateKey (key : string) : sysE (result signer error)
| ESSHDial (network addr user : string) (key : signer) : sysE (result sshconn error)
| ESSHConnDial (c : sshconn) (network addr : string) : sysE (result conn error)
| ESSHConnClose (c : sshconn) : sysE (option error)
(** client-go *)
| EBuildConfig : sysE (result RestConfig error)
| ENewForConfig (cfg : RestConfig) : sysE (result Clientset error)
| EPodCreate (cs : Clientset) (namespace : string) (pod : Pod) : sysE (result Pod error)
| EPodGet (cs : Clientset) (namespace name : string) : sysE (result Pod error)
| EPodDelete (cs : Clientset) (namespace name : string) : sysE (option error)
| ESvcCreate (cs : Clientset) (namespace : string) (svc : Service) : sysE (result Service error)
| ESvcGet (cs : Clientset) (namespace name : string) : sysE (result Service error)
| ESvcDelete (cs : Clientset) (namespace name : string) : sysE (option error)
| ENewSPDYExecutor (cfg : RestConfig) (r : ExecRequest) : sysE (option error)
| EStream (r : ExecRequest) (stdin : option string) : sysE (string * option error)
| ERoundTripperFor (cfg : RestConfig) : sysE (option error)
| ENewOnAddresses (s : PortForwardSpec) (stop ready : chan) : sysE (result portfwd error)
| EForwardPorts (pf : portfwd) : sysE (option error)
(** the memory of [APICore]: the map of resources and their fields.  A
    [*DeployResource] is its name, since an entry is never replaced or deleted. *)
| EResLoadOrStore (name : string) : sysE unit
| EResLock (name : string) : sysE unit
| EResUnlock (name : string) : sysE unit
| EResGetFwdsvc (name : string) : sysE (option svcref)
| EResSetFwdsvc (name : string) (v : option svcref) : sysE unit
(** [ForwarderService]: starting its goroutines, and its methods *)
| EFwdStart (network : string) (ln : listener) (clientAddr serverAddr : TCPAddr)
    (isExtHost : bool) (dataRate : Z) : sysE svcref
| EFwdClose (s : svcref) : sysE bool
| EFwdSuspend (s : svcref) : sysE unit
| EFwdResume (s : svcref) : sysE unit
| EFwdCloseAll (s : svcref) : sysE unit
| EFwdChangeServerAddr (s : svcref) (a : TCPAddr) : sysE unit
| EFwdChangeDataRate (s : svcref) (n : Z) : sysE unit.

(** * Common sequences *)

(** The panic of a selector through a nil pointer. *)
Definition nil_dereference : string := "invalid memory address or nil pointer dereference".


Definition LogErrorE (e : error) : prog sysE unit := call (ELog LError (Error e)).
Definition LogError (s : string) : prog sysE unit := call (ELog LError s).
Definition LogWarn (s : string) : prog sysE unit := call (ELog LWarn s).
Definition LogInfo (s : string) : prog sysE unit := call (ELog LInfo s).

(** [close(c)]: panics when [c] is closed already. *)
Definition chan_close (c : chan) : prog sysE unit :=
  fresh <- call (EChanClose c);;
  if fresh : bool then Ret tt else Panic "close of closed channel".

(** A deferred or ignored [Close()]. *)
Definition ln_close (ln : listener) : prog sysE unit := _ <- call (ELnClose ln);; Ret tt.
Definition conn_close (c : conn) : prog sysE unit := _ <- call (EConnClose c);; Ret tt.

(** [errors.WithStack(err)] on the way out of a call. *)
Definition stacked `{PkgErrors} {A : Type} (p : prog sysE (result A error))
  : prog sysE (result A error) :=
  r <- p;; Ret (match r with Ok a => Ok a | Err e => Err (WithStack e) end).

Definition stacked_err `{PkgErrors} (p : prog sysE (option error))
  : prog sysE (option error) := r <- p;; Ret (WithStackOpt r).

(** * What the callees promise *)

(** io.Reader: at most [cap] bytes.  io.Writer: between 0 and all bytes, and an error when
    not all.  A range visits every entry of a map once, in some order. *)
Definition sane (o : obs sysE) : Prop :=
  match o with
  | @Obs _ X e x =>
      match e in sysE Y return Y → Prop with
      | EConnRead _ cap => λ r, (Z.of_nat (length r.1) ≤ cap)%Z
      | EConnWrite _ b => λ r,
          (0 ≤ r.1 ≤ Z.of_nat (length b))%Z ∧
          ((r.1 < Z.of_nat (length b))%Z → r.2 ≠ None)
      | EMapRange m => λ r, r ≡ₚ map_to_list m
      | _ => λ _, True
      end x
  end.

(** What holds of every answer, known or not. *)
Definition anything {E : Type → Type} (o : obs E) : Prop := True.

(** * A concrete environment, for closed executions *)

(** An environment in which every call succeeds and every stream is at its end. *)
Definition quiet {X : Type} (e : sysE X) : X :=
  match e in sysE Y return Y with
  | ELog _ _ => tt
  | EChanMake => 0
  | EChanClose _ => true
  | EChanRecv _ => tt
  | ESelect2 _ _ => Some true
  | EErrChanMake => 0
  | EReadyChanMake => 0
  | EErrChanSend _ _ => tt
  | ESelectReady _ _ => None
  | EVarNew _ => 0
  | EVarGet _ => true
  | EVarSet _ _ => tt
  | ESleep _ => tt
  | EMapRange m => map_to_list m
  | EReadFile _ => Ok EmptyString
  | EListen _ _ => Ok 0
  | EListenTCP _ _ => Ok 0
  | EAccept _ => Ok 0
  | ELnClose _ => None
  | EResolveTCPAddr _ addr => Ok (mkTCPAddr addr 0)
  | EDial _ _ => Ok 0
  | EConnRead _ _ => ([], Some EOF)
  | EConnWrite _ b => (Z.of_nat (length b), None)
  | EConnClose _ => None
  | EConnRemoteAddr _ => "10.0.0.9:40000"
  | EConnSetDeadline _ _ => None
  | EConnSetReadDeadline _ _ => None
  | EIOCopy _ _ => None
  | EParsePrivateKey _ => Ok 0
  | ESSHDial _ _ _ _ => Ok 0
  | ESSHConnDial _ _ _ => Ok 0
  | ESSHConnClose _ => None
  | EBuildConfig => Ok (mkRestConfig "https://192.168.0.12:8443")
  | ENewForConfig _ => Ok AClientset
  | EPodCreate _ _ pod => Ok pod
  | EPodGet _ _ name =>
      Ok (mkPod "Pod" "v1" name ∅ [] true [] "Never" "Running")
  | EPodDelete _ _ _ => None
  | ESvcCreate _ _ svc => Ok svc
  | ESvcGet _ _ name => Ok (mkService "Service" "v1" name ∅ "ClusterIP" [] ∅ "10.0.0.1")
  | ESvcDelete _ _ _ => None
  | ENewSPDYExecutor _ _ => None
  | EStream _ _ => (EmptyString, None)
  | ERoundTripperFor _ => None
  | ENewOnAddresses _ _ _ => Ok 0
  | EForwardPorts _ => None
  | EResLoadOrStore _ => tt
  | EResLock _ => tt
  | EResUnlock _ => tt
  | EResGetFwdsvc _ => None
  | EResSetFwdsvc _ _ => tt
  | EFwdStart _ _ _ _ _ _ => 0
  | EFwdClose _ => true
  | EFwdSuspend _ => tt
  | EFwdResume _ => tt
  | EFwdCloseAll _ => tt
  | EFwdChangeServerAddr _ _ => tt
  | EFwdChangeDataRate _ _ => tt
  end.

(** [quiet], except where [script] gives the [n]-th call another answer. *)
Definition machine (script : nat → ∀ X, sysE X → option X) (n : nat) (X : Type)
  (e : sysE X) : option (X * nat) :=
  Some (match script n X e with Some x => x | None => quiet e end, S n).

(** The trace, and the outcome, of a program run by [machine]. *)
Definition trace_of {A : Type} (script : nat → ∀ X, sysE X → option X) (fuel : nat)
  (p : prog sysE A) : list (obs sysE) := (interp (machine script) fuel 0 p).1.1.
Definition outcome_of {A : Type} (script : nat → ∀ X, sysE X → option X) (fuel : nat)
  (p : prog sysE A) : prog sysE A := (interp (machine script) fuel 0 p).2.

Definition no_script (n : nat) (X : Type) (e : sysE X) : option X := None.

(** * Lemmas *)

Lemma machine_runs {A} script fuel (p q : prog sysE A) :
  outcome_of script fuel p = q → runs p (trace_of script fuel p) q.
Proof. apply interp_runs_to. Qed.

Lemma anything_all {E : Type → Type} (tr : list (obs E)) : Forall anything tr.
Proof. by apply Forall_forall. Qed.

#[export] Hint Resolve anything_all : cloudlet.

(** * Kinds of effects *)

Inductive kind :=
| KLog | KChan | KErrChan | KVar | KTime | KRange | KFile | KListen | KAccept | KLnClose
| KResolve | KDial | KRead | KWrite | KConnClose | KAddr | KDeadline | KCopy | KSSH | KConfig
| KPod | KService | KExec | KPortFwd | KRes | KFwd.

#[export] Instance kind_eq_dec : EqDecision kind.
Proof. solve_decision. Defined.

Definition kind_of (o : obs sysE) : kind :=
  match o with
  | @Obs _ X e x =>
      match e with
      | ELog _ _ => KLog
      | EChanMake | EChanClose _ | EChanRecv _ | ESelect2 _ _ => KChan
      | EErrChanMake | EReadyChanMake | EErrChanSend _ _ | ESelectReady _ _ => KErrChan
      | EVarNew _ | EVarGet _ | EVarSet _ _ => KVar
      | ESleep _ => KTime
      | EMapRange _ => KRange
      | EReadFile _ => KFile
      | EListen _ _ | EListenTCP _ _ => KListen
      | EAccept _ => KAccept
      | ELnClose _ => KLnClose
      | EResolveTCPAddr _ _ => KResolve
      | EDial _ _ => KDial
      | EConnRead _ _ => KRead
      | EConnWrite _ _ => KWrite
      | EConnClose _ => KConnClose
      | EConnRemoteAddr _ => KAddr
      | EConnSetDeadline _ _ | EConnSetReadDeadline _ _ => KDeadline
      | EIOCopy _ _ => KCopy
      | EParsePrivateKey _ | ESSHDial _ _ _ _ | ESSHConnDial _ _ _ | ESSHConnClose _ => KSSH
      | EBuildConfig | ENewForConfig _ => KConfig
      | EPodCreate _ _ _ | EPodGet _ _ _ | EPodDelete _ _ _ => KPod
      | ESvcCreate _ _ _ | ESvcGet _ _ _ | ESvcDelete _ _ _ => KService
      | ENewSPDYExecutor _ _ | EStream _ _ => KExec
      | ERoundTripperFor _ | ENewOnAddresses _ _ _ | EForwardPorts _ => KPortFwd
      | EResLoadOrStore _ | EResLock _ | EResUnlock _ | EResGetFwdsvc _
      | EResSetFwdsvc _ _ => KRes
      | EFwdStart _ _ _ _ _ _ | EFwdClose _ | EFwdSuspend _ | EFwdResume _ | EFwdCloseAll _
      | EFwdChangeServerAddr _ _ | EFwdChangeDataRate _ _ => KFwd
      end
  end.

(** The effects of [p] are of the kinds [ks]. *)
Definition only {A : Type} (ks : list kind) (p : prog sysE A) : Prop :=
  uses (λ o, kind_of o ∈ ks) p.

(** Every effect of the kinds [ks] is ignored by the collector's function [f]. *)
Definition ignores {O : Type} (f : obs sysE → option O) (ks : list kind) : Prop :=
  ∀ o, kind_of o ∈ ks → f o = None.

Lemma only_silent {O A} (f : obs sysE → option O) legal ks (p : prog sysE A) :
  only ks p → ignores f ks → silent f legal p.
Proof. intros Hp Hf. by apply (uses_silent f legal _ p Hp). Qed.

Lemma only_bind {A B} ks (p : prog sysE A) (k : A → prog sysE B) :
  only ks p → (∀ a, only ks (k a)) → only ks (bind p k).
Proof. apply uses_bind. Qed.

Lemma only_sub {A} ks ks' (p : prog sysE A) : only ks p → ks ⊆ ks' → only ks' p.
Proof. intros Hp Hs. eapply uses_mono; [exact Hp|]. simpl. auto. Qed.

Lemma elem_of_kinds (k : kind) (ks : list kind) : bool_decide (k ∈ ks) = true → k ∈ ks.
Proof. apply bool_decide_eq_true. Qed.

Lemma not_elem_of_kinds (k : kind) (ks : list kind) :
  bool_decide (k ∈ ks) = false → k ∈ ks → False.
Proof. apply bool_decide_eq_false. Qed.

Lemma kinds_sub (ks ks' : list kind) : forallb (λ k, bool_decide (k ∈ ks')) ks = true → ks ⊆ ks'.
Proof.
  intros H k Hk. rewrite forallb_forall in H.
  apply (bool_decide_eq_true (k ∈ ks')), H. by apply list_elem_of_In.
Qed.

Create HintDb only.

(** Proves [only ks p] by going through [p]; parts with a lemma in [only] are skipped. *)
Ltac only_step :=
  match goal with
  | |- True => exact I
  | |- ∀ _, _ => intro
  | |- ?A ∧ ?B => split
  | |- kind_of _ ∈ _ => apply elem_of_kinds; vm_compute; reflexivity
  | |- _ ∈ _ => apply elem_of_kinds; vm_compute; reflexivity
  | |- uses _ (bind ?p _) => apply only_bind
  | |- only _ (bind ?p _) => apply only_bind
  | |- uses _ (match ?x with _ => _ end) => destruct x
  | |- only _ (match ?x with _ => _ end) => destruct x
  | |- only _ _ =>
      eapply only_sub; [solve [eauto with only nocore]|apply kinds_sub; vm_compute; reflexivity]
  | |- uses _ ?p =>
      eapply only_sub; [solve [eauto with only nocore]|apply kinds_sub; vm_compute; reflexivity]
  end.

Ltac solve_only :=
  repeat (
    unfold LogErrorE, LogError, LogWarn, LogInfo, stacked, stacked_err, ln_close,
      conn_close, chan_close, defer, defer_on;
    cbn [uses only bind call go loop fst snd];
    try only_step).

(** Discharges [ignores f ks] for closed [f] and [ks]. *)
Ltac solve_ignores :=
  let X := fresh in let e := fresh in let x := fresh in let H := fresh in
  intros [X e x] H; destruct e;
  first [ reflexivity
        | exfalso; revert H; apply not_elem_of_kinds; vm_compute; reflexivity ].

#[export] Hint Extern 5 (silent _ _ _) =>
  eapply only_silent; [solve [eauto with only nocore] | solve_ignores] : silent.

(** * Automation *)

(** One step of the symbolic execution of a program under a monitor: computes the next
    effect with the definitions of the list, skips the parts known to be silent, and
    splits on the answers. *)
Ltac run_step :=
  match goal with
  | |- True => exact I
  | |- respects (collector _ _) _ _ (λ _ _, True) => apply collector_any
  | |- ∀ _, _ => intro
  | |- respects _ (bind _ _) _ _ =>
      apply respects_silent; [solve [eauto with silent nocore]|intro]
  | |- respects _ (bind (bind _ _) _) _ _ => apply respects_bind
  | |- respects _ (bind (match ?x with _ => _ end) _) _ _ => destruct x eqn:?
  | |- respects _ (match ?x with _ => _ end) _ _ => destruct x eqn:?
  | |- respects (collector _ _) _ _ _ =>
      apply respects_silent_tail; [solve [eauto with silent nocore]|intro]
  | |- match ?e with _ => _ end =>
      match e with
      | match match ?y with _ => _ end with _ => _ end => destruct y eqn:?
      | match ?y with _ => _ end => destruct y eqn:?
      end
  | |- ?P ∧ _ => match P with context [@respects] => split end
  | |- True ∧ _ => split; [exact I|]
  | |- ∃ lc lk, (lc = [] ∧ lk = ?l) ∧ _ => exists [], l; split; [split; reflexivity|]
  end.

(** [run f]: executes the goal's program as far as it goes; [f] is the collector's
    function or anything else to compute with. *)
Tactic Notation "run" reference(f) :=
  repeat (
    unfold LogErrorE, LogError, LogWarn, LogInfo, stacked, stacked_err, ln_close,
      conn_close, chan_close, defer, defer_on;
    cbn [respects bind call go loop mon_step mon_legal mon_split mon_final mon_panic
         collector fst snd f];
    try run_step).

(** Goes past a call [p] with a known postcondition: [lem] proves [respects mon p m Q]. *)
Ltac unbind :=
  repeat match goal with |- respects _ (bind _ _) _ _ => apply respects_bind end.

Tactic Notation "after_bind" uconstr(lem) :=
  unbind; eapply respects_mono; [eapply lem|].
