(* ===== verification/Kube.v ===== *)
(** The Kubernetes operations: src/server/kube.go. *)
From S2P Require Import Prelude Go Errors Types Sys.
#[local] Open Scope go_scope.

Definition PollInterval : Z := 100.
Definition PodPending : string := "Pending".
Definition RestartPolicyNever : string := "Never".

(** k8s.io/apimachinery: the predicates on the errors of the API server, and the poller
    (interval and timeout in milliseconds). *)
Class K8sLib := {
  IsNotFound : error → bool;
  IsAlreadyExists : error → bool;
  PollImmediate : Z → Z → prog sysE (result bool error) → prog sysE (option error)
}.

(** What wait.PollImmediate documents: it evaluates the condition, at least once, until it
    says true (and then returns nil) or fails (and then returns an error), or the timeout is
    reached (and then returns an error); it makes no call of its own that the model tracks.
    Stated as a proof rule: [I] holds before each evaluation and after one that says
    false, [T] after one that says true, [F] after one that fails. *)
Class K8sLibOk `{K8sLib} : Prop := {
  not_both e : IsNotFound e = true → IsAlreadyExists e = false;
  PollImmediate_rule {M : Type} (mon : monitor sysE M) (I T F : M → Prop)
      (interval timeout : Z) (cond : prog sysE (result bool error)) (m : M) :
    I m →
    (∀ m1, I m1 → respects mon cond m1 (λ m2 r,
       match r with Ok true => T m2 | Ok false => I m2 | Err _ => F m2 end)) →
    respects mon (PollImmediate interval timeout cond) m (λ m2 r,
       match r with None => T m2 | Some _ => F m2 ∨ I m2 end)
}.

Section kube.
Context `{PkgErrors, K8sLib}.

Definition NewClient : prog sysE (result (Clientset * RestConfig) error) :=
  config ?<- call EBuildConfig;;
  clientset ?<- call (ENewForConfig config);;
  Ret (Ok (clientset, config)).

(** The pod object [CreatePod] sends; [envVars] in the order the map was ranged over. *)
Definition newPodObject (podName label containerName image : string) (containerPort : Z)
  (envVars : list (string * string)) (command args : list string) : Pod := {|
  Pod_Kind := "Pod";
  Pod_APIVersion := "v1";
  Pod_Name := podName;
  Pod_Labels := {["app" := label]};
  Pod_Containers := [{|
    Cont_Name := containerName;
    Cont_Image := image;
    Cont_ImagePullPolicy := "Always";
    Cont_Command := command;
    Cont_Args := args;
    Cont_Ports := [containerPort];
    Cont_Env := envVars;
    Cont_Privileged := true
  |}];
  Pod_ShareProcessNamespace := true;
  Pod_ImagePullSecrets := ["regcred"];
  Pod_RestartPolicy := RestartPolicyNever;
  Pod_Phase := ""
|}.

(** The triple [(pod, err, errStack)]: both errors are set or none. *)
Definition both {A : Type} (r : result A error) : result A (error * error) :=
  match r with Ok a => Ok a | Err e => Err (e, WithStack e) end.

Definition both_err (r : option error) : option (error * error) :=
  match r with None => None | Some e => Some (e, WithStack e) end.

Definition CreatePod (clientset : Clientset) (podName label containerName image : string)
  (containerPort : Z) (env : gmap string string) (command args : list string)
  : prog sysE (result Pod (error * error)) :=
  envVars <- call (EMapRange env);;
  let pod := newPodObject podName label containerName image containerPort envVars
               command args in
  r <- call (EPodCreate clientset "default" pod);;
  Ret (both r).

Definition GetPod (clientset : Clientset) (podName : string)
  : prog sysE (result Pod (error * error)) :=
  r <- call (EPodGet clientset "default" podName);;
  Ret (both r).

Definition DeletePod (clientset : Clientset) (podName : string)
  : prog sysE (option (error * error)) :=
  let namespace := "default" in
  r <- call (EPodDelete clientset namespace podName);;
  Ret (both_err r).

Definition IsPodReady (clientset : Clientset) (podName : string)
  : prog sysE (result bool error) :=
  r <- GetPod clientset podName;;
  match r with
  | Err (err, _) => Ret (Err err)
  | Ok pod =>
      let ans := negb (bool_decide (Pod_Phase pod = PodPending)) in
      Ret (Ok ans)
  end.

Definition WaitForPodReady (clientset : Clientset) (podName : string) (timeout : Z)
  : prog sysE (option error) :=
  let condFunc := IsPodReady clientset podName in
  PollImmediate PollInterval timeout condFunc.

Definition IsPodDeleted (clientset : Clientset) (podName : string)
  : prog sysE (result bool error) :=
  r <- GetPod clientset podName;;
  match r with
  | Err (err, _) => if IsNotFound err then Ret (Ok true) else Ret (Err err)
  | Ok _ => Ret (Ok false)
  end.

Definition WaitForPodDeleted (clientset : Clientset) (podName : string) (timeout : Z)
  : prog sysE (option error) :=
  let condFunc := IsPodDeleted clientset podName in
  PollImmediate PollInterval timeout condFunc.

Definition newServiceObject (serviceName label clusterIpName : string) (port : Z)
  : Service := {|
  Svc_Kind := "Service";
  Svc_APIVersion := "v1";
  Svc_Name := serviceName;
  Svc_Labels := {["app" := label]};
  Svc_Type := "ClusterIP";
  Svc_Ports := [mkServicePort clusterIpName "TCP" port];
  Svc_Selector := {["app" := label]};
  Svc_ClusterIP := ""
|}.

Definition CreateService (clientset : Clientset) (serviceName label clusterIpName : string)
  (port : Z) : prog sysE (result Service (error * error)) :=
  let service := newServiceObject serviceName label clusterIpName port in
  r <- call (ESvcCreate clientset "default" service);;
  Ret (both r).

Definition GetService (clientset : Clientset) (serviceName : string)
  : prog sysE (result Service (error * error)) :=
  r <- call (ESvcGet clientset "default" serviceName);;
  Ret (both r).

Definition DeleteService (clientset : Clientset) (serviceName : string)
  : prog sysE (option (error * error)) :=
  r <- call (ESvcDelete clientset "default" serviceName);;
  Ret (both_err r).

End kube.

(** * A reference instance of the library interface *)

(** The API server's reason codes as the [kind] of the error, and a poller that gives up
    after [timeout / interval] waits. *)
Module ReferenceK8s.

Definition poll (interval timeout : Z) (cond : prog sysE (result bool error))
  : prog sysE (option error) :=
  loop (Z.to_nat (timeout / interval)) (λ n,
    r <- cond;;
    match r with
    | Err e => Ret (inr (Some e))
    | Ok true => Ret (inr None)
    | Ok false =>
        match n with
        | 0 => Ret (inr (Some (EText "timed out waiting for the condition")))
        | S n => Ret (inl n)
        end
    end).

Definition has_kind (kind : string) (e : error) : bool :=
  match e with EOpaque k _ => bool_decide (k = kind) | _ => false end.

Definition lib : K8sLib := {|
  IsNotFound := has_kind "NotFound";
  IsAlreadyExists := has_kind "AlreadyExists";
  PollImmediate := poll
|}.

Definition pkg : PkgErrors := {| WithStack e := e; NewStackError := EText |}.

Lemma lib_ok : @K8sLibOk lib.
Proof.
  split.
  - intros [|s|s t d|k s]; simpl; try done. intros H.
    apply bool_decide_eq_true in H as ->. done.
  - intros M mon I T F interval timeout cond m Hm Hc.
    apply (respects_loop mon (λ _ m1, I m1)); [done|]. intros n m1 HI.
    apply respects_bind. eapply respects_mono; [by apply Hc|].
    intros m2 [[]|e]; simpl; auto. destruct n; simpl; auto.
Qed.

Lemma pkg_ok : @PkgErrorsOk pkg.
Proof. by split. Qed.

End ReferenceK8s.

(** * Effects *)

Section kube_effects.
Context `{PkgErrors, K8sLib}.

Lemma only_NewClient : only [KConfig] NewClient.
Proof. unfold NewClient. solve_only. Qed.

Lemma only_CreatePod cs pn l cn im port env cmd args :
  only [KRange; KPod] (CreatePod cs pn l cn im port env cmd args).
Proof. unfold CreatePod. solve_only. Qed.

Lemma only_DeletePod cs pn : only [KPod] (DeletePod cs pn).
Proof. unfold DeletePod. solve_only. Qed.

Lemma only_IsPodReady cs pn : only [KPod] (IsPodReady cs pn).
Proof. unfold IsPodReady, GetPod. solve_only. Qed.

Lemma only_IsPodDeleted cs pn : only [KPod] (IsPodDeleted cs pn).
Proof. unfold IsPodDeleted, GetPod. solve_only. Qed.

Lemma only_CreateService cs sn l cip port : only [KService] (CreateService cs sn l cip port).
Proof. unfold CreateService. solve_only. Qed.

Lemma only_GetService cs sn : only [KService] (GetService cs sn).
Proof. unfold GetService. solve_only. Qed.

Lemma only_DeleteService cs sn : only [KService] (DeleteService cs sn).
Proof. unfold DeleteService. solve_only. Qed.

End kube_effects.

#[export] Hint Resolve only_NewClient only_CreatePod only_DeletePod only_IsPodReady
  only_IsPodDeleted only_CreateService only_GetService only_DeleteService : only.

(** * Monitors *)

(** The answers to the reads of pods. *)
Definition pod_get (o : obs sysE) : option (result Pod error) :=
  match o with
  | @Obs _ X e x =>
      match e in sysE Y return Y → option (result Pod error) with
      | EPodGet _ _ _ => λ r, Some r
      | _ => λ _, None
      end x
  end.

(** The pods the server was asked to create. *)
Definition pod_created (o : obs sysE) : option Pod :=
  match o with
  | @Obs _ X e x => match e with EPodCreate _ _ pod => Some pod | _ => None end
  end.

Section kube_facts.
Context `{PkgErrors} `{K : K8sLib} `{K8sOk : !K8sLibOk}.

(** What a poller's condition saw last decides what the poller returns. *)
Lemma poll_last_get (cond : prog sysE (result bool error)) (interval timeout : Z)
    (good : result Pod error → bool) tr :
  (∀ l, respects (collector pod_get anything) cond l (λ l' r,
     ∃ a, l' = l ++ [a] ∧ (r = Ok true → good a = true))) →
  runs (PollImmediate interval timeout cond) tr (Ret None) →
  ∃ a, list.last (omap pod_get tr) = Some a ∧ good a = true.
Proof.
  intros Hc Hr.
  set (T := λ l : list (result Pod error), ∃ a, list.last l = Some a ∧ good a = true).
  eapply (collector_complete pod_get anything _ tr None
    (λ l r, match r with None => T l | Some _ => True ∨ True end)); [|exact Hr|auto with cloudlet].
  apply (PollImmediate_rule _ (λ _, True) T (λ _, True)); [done|]. intros l _.
  eapply respects_mono; [apply Hc|]. intros l' [[]|e] (a & -> & Ha); auto.
  exists a. rewrite last_snoc. auto.
Qed.

End kube_facts.

(** * Properties *)

Section kube_properties.
Context `{PkgErrors} `{K : K8sLib}.

(** C27.  [WaitForPodReady] returns nil only after the API server answered a read of the pod
    with a phase other than Pending, and that was the last read it made. *)
Theorem WaitForPodReady_sound (cs : Clientset) (podName : string) (timeout : Z)
    (tr : list (obs sysE)) :
  K8sLibOk →
  runs (WaitForPodReady cs podName timeout) tr (Ret None) →
  ∃ pod, list.last (omap pod_get tr) = Some (Ok pod) ∧ Pod_Phase pod ≠ PodPending.
Proof.
  intros HK Hr.
  eapply (poll_last_get _ _ _ (λ a, match a with
    | Ok pod => negb (bool_decide (Pod_Phase pod = PodPending)) | Err _ => false end)) in Hr
    as (a & Hl & Ha).
  - destruct a as [pod|e]; [|done]. exists pod. split; [done|]. by case_bool_decide.
  - intros l. simpl. intros [pod|e] _; simpl; eexists; (split; [reflexivity|]); congruence.
Qed.

(** C28.  [WaitForPodDeleted] returns nil only after the API server answered that the pod is
    not found. *)
Theorem WaitForPodDeleted_sound (cs : Clientset) (podName : string) (timeout : Z)
    (tr : list (obs sysE)) :
  K8sLibOk →
  runs (WaitForPodDeleted cs podName timeout) tr (Ret None) →
  ∃ e, list.last (omap pod_get tr) = Some (Err e) ∧ IsNotFound e = true.
Proof.
  intros HK Hr.
  eapply (poll_last_get _ _ _ (λ a, match a with
    | Ok pod => false | Err e => IsNotFound e end)) in Hr as (a & Hl & Ha).
  - destruct a as [pod|e]; [done|]. by exists e.
  - intros l. simpl. intros [pod|e] _; simpl.
    + eexists. split; [reflexivity|]. congruence.
    + destruct (IsNotFound e) eqn:E; simpl; eexists; (split; [reflexivity|]); congruence.
Qed.

End kube_properties.

(** The pod is pending when it is first read. *)
Definition pending_once (n : nat) (X : Type) (e : sysE X) : option X :=
  match n, e in sysE Y return option Y with
  | 0, EPodGet _ _ name => Some (Ok (mkPod "Pod" "v1" name ∅ [] true [] "Never" PodPending))
  | _, _ => None
  end.

(** The pod is there twice, then gone. *)
Definition gone_at_last (n : nat) (X : Type) (e : sysE X) : option X :=
  match e in sysE Y return option Y with
  | EPodGet _ _ _ =>
      if (2 <=? n)%nat then Some (Err (EOpaque "NotFound" "pods not found")) else None
  | _ => None
  end.

Definition ref_ready : prog sysE (option error) :=
  @WaitForPodReady ReferenceK8s.pkg ReferenceK8s.lib AClientset "app-pod" 30000.
Definition ref_deleted : prog sysE (option error) :=
  @WaitForPodDeleted ReferenceK8s.pkg ReferenceK8s.lib AClientset "app-pod" 30000.

Lemma WaitForPodReady_sound_witness :
  ∃ pod, list.last (omap pod_get (trace_of pending_once 60 ref_ready)) = Some (Ok pod) ∧
         Pod_Phase pod ≠ PodPending.
Proof.
  apply (@WaitForPodReady_sound ReferenceK8s.pkg ReferenceK8s.lib AClientset "app-pod" 30000
           _ ReferenceK8s.lib_ok).
  apply machine_runs. vm_compute. reflexivity.
Defined.

Lemma WaitForPodDeleted_sound_witness :
  ∃ e, list.last (omap pod_get (trace_of gone_at_last 60 ref_deleted)) = Some (Err e) ∧
       @IsNotFound ReferenceK8s.lib e = true.
Proof.
  apply (@WaitForPodDeleted_sound ReferenceK8s.pkg ReferenceK8s.lib AClientset "app-pod" 30000
           _ ReferenceK8s.lib_ok).
  apply machine_runs. vm_compute. reflexivity.
Defined.
