(* ===== verification/KubeExec.v ===== *)
(** Commands in pods and port forwarding: src/server/kube-exec.go and
    src/server/kube-portfwd.go. *)
From S2P Require Import Prelude Go Errors Types Sys.
#[local] Open Scope go_scope.

Section kube_exec.
Context `{PkgErrors}.

(** A writer is [true] when not nil.  What the command wrote to the stdout writer comes
    with the error. *)
Definition ExecutePod (clientset : Clientset) (config : RestConfig)
  (namespace podName containerName : string) (stdin : option string)
  (stdout stderr : bool) (commands : list string) : prog sysE (string * option error) :=
  let req := {|
    Exec_Namespace := namespace;
    Exec_Pod := podName;
    Exec_Container := containerName;
    Exec_Command := commands;
    Exec_Stdin := bool_decide (stdin ≠ None);
    Exec_Stdout := stdout;
    Exec_Stderr := stderr
  |} in
  err <- call (ENewSPDYExecutor config req);;
  match err with
  | Some err => Ret (EmptyString, Some (WithStack err))
  | None =>
      r <- call (EStream req stdin);;
      match r with
      | (out, Some err) => Ret (out, Some (WithStack err))
      | (out, None) => Ret (out, None)
      end
  end.

(** [cmd := []string{"/bin/sh", "-c", s}]. *)
Definition sh (s : string) : list string := ["/bin/sh"; "-c"; s].

Definition GetPodEnv (clientset : Clientset) (config : RestConfig)
  (namespace podName containerName : string) (stderr : bool) (env : string)
  : prog sysE (result string error) :=
  let cmd := sh ("echo ${" +:+ env +:+ "}") in
  r <- ExecutePod clientset config namespace podName containerName None true stderr cmd;;
  match r with
  | (_, Some err) => Ret (Err err)
  | (v, None) => Ret (Ok v)
  end.

Definition SetPodEnv (clientset : Clientset) (config : RestConfig)
  (namespace podName containerName : string) (stderr : bool) (env value : string)
  : prog sysE (option error) :=
  let cmd := sh ("export " +:+ env +:+ "=" +:+ value) in
  r <- ExecutePod clientset config namespace podName containerName None false stderr cmd;;
  match r with
  | (_, Some err) => Ret (Some err)
  | (_, None) => Ret None
  end.

Definition ReadPodFile (clientset : Clientset) (config : RestConfig)
  (namespace podName containerName : string) (stderr : bool) (path : string)
  : prog sysE (result string error) :=
  let cmd := sh ("cat " +:+ path) in
  r <- ExecutePod clientset config namespace podName containerName None true stderr cmd;;
  match r with
  | (_, Some err) => Ret (Err err)
  | (v, None) => Ret (Ok v)
  end.

Definition WritePodFile (clientset : Clientset) (config : RestConfig)
  (namespace podName containerName : string) (stderr : bool)
  (path content permission : string) : prog sysE (option error) :=
  let chmod := if bool_decide (permission = "") then ""
               else "&& chmod " +:+ permission +:+ " " +:+ path in
  let cmd := sh ("cat > " +:+ path +:+ " " +:+ chmod) in
  r <- ExecutePod clientset config namespace podName containerName (Some content) false
         stderr cmd;;
  match r with
  | (_, Some err) => Ret (Some err)
  | (_, None) => Ret None
  end.

(** * Port forwarding *)

(** [strings.TrimLeft s cutset]: drops leading characters while they are in [cutset]. *)
Fixpoint TrimLeft (s cutset : string) : string :=
  match s with
  | EmptyString => EmptyString
  | String a s' => if str_contains (String a EmptyString) cutset then TrimLeft s' cutset else s
  end.

Definition NewKubePortForward (config : RestConfig) (namespace podName : string)
  (localPort podPort : Z) (stopChan readyChan : chan)
  : prog sysE (result portfwd error) :=
  let path := "/api/v1/namespaces/" +:+ namespace +:+ "/pods/" +:+ podName
                +:+ "/portforward" in
  let host := TrimLeft (Host config) "htps:/" in
  let addrs := ["0.0.0.0"] in
  let ports := [itoa localPort +:+ ":" +:+ itoa podPort] in
  err <- call (ERoundTripperFor config);;
  match err with
  | Some err => Ret (Err (WithStack err))
  | None =>
      stacked (call (ENewOnAddresses (mkPortForwardSpec "https" path host addrs ports)
        stopChan readyChan))
  end.

Definition OpenKubePortForwardReady (config : RestConfig) (namespace podName : string)
  (localPort podPort : Z) (stopChan : chan) : prog sysE (option error) :=
  readyChan <- call EReadyChanMake;;
  errorChan <- call EErrChanMake;;
  r <- NewKubePortForward config namespace podName localPort podPort stopChan readyChan;;
  match r with
  | Err err => Ret (Some err)
  | Ok kubePortFwd =>
      go (err <- call (EForwardPorts kubePortFwd);;
          match err with
          | Some err => LogWarn (Error err);; call (EErrChanSend errorChan err)
          | None => Ret tt
          end);;
      r <- call (ESelectReady readyChan errorChan);;
      match r with
      | None => Ret None
      | Some err => Ret (Some err)
      end
  end.

End kube_exec.

(** * Lemmas *)

Section kube_exec_effects.
Context `{PkgErrors}.

Lemma only_ExecutePod cs cfg ns pod c stdin out err cmd :
  only [KExec] (ExecutePod cs cfg ns pod c stdin out err cmd).
Proof. unfold ExecutePod. solve_only. Qed.
#[local] Hint Resolve only_ExecutePod : only.

Lemma only_ReadPodFile cs cfg ns pod c err path :
  only [KExec] (ReadPodFile cs cfg ns pod c err path).
Proof. unfold ReadPodFile. solve_only. Qed.

Lemma only_WritePodFile cs cfg ns pod c err path content perm :
  only [KExec] (WritePodFile cs cfg ns pod c err path content perm).
Proof. unfold WritePodFile. solve_only. Qed.

Lemma only_NewKubePortForward cfg ns pod lp pp stop ready :
  only [KPortFwd] (NewKubePortForward cfg ns pod lp pp stop ready).
Proof. unfold NewKubePortForward. solve_only. Qed.
#[local] Hint Resolve only_NewKubePortForward : only.

Lemma only_OpenKubePortForwardReady cfg ns pod lp pp stop :
  only [KErrChan; KPortFwd] (OpenKubePortForwardReady cfg ns pod lp pp stop).
Proof. unfold OpenKubePortForwardReady. solve_only. Qed.

End kube_exec_effects.

#[export] Hint Resolve only_ExecutePod only_ReadPodFile only_WritePodFile
  only_NewKubePortForward only_OpenKubePortForwardReady : only.

Definition in_cutset (a : ascii) (cutset : string) : bool :=
  str_contains (String a EmptyString) cutset.

Lemma TrimLeft_app s cutset a t :
  TrimLeft s cutset = EmptyString → in_cutset a cutset = false →
  TrimLeft (s +:+ String a t) cutset = String a t.
Proof.
  intros Hs Ha. induction s as [|b s IH].
  - change (TrimLeft (String a t) cutset = String a t). cbn [TrimLeft].
    unfold in_cutset in Ha. by rewrite Ha.
  - change (String b s +:+ String a t) with (String b (s +:+ String a t)).
    cbn [TrimLeft] in *. destruct (str_contains (String b EmptyString) cutset); [auto|done].
Qed.

(** * Properties *)

(** The host of the port-forward URL is the host of the REST configuration without its
    scheme, for every host name or address that starts with none of the characters
    h, t, p, s, colon and slash. *)
Theorem portforward_host (scheme : string) (a : ascii) (t : string) :
  scheme ∈ ["http://"; "https://"] → in_cutset a "htps:/" = false →
  TrimLeft (scheme +:+ String a t) "htps:/" = String a t.
Proof.
  intros Hs Ha. apply TrimLeft_app; [|done].
  repeat (apply elem_of_cons in Hs as [->|Hs]; [done|]). by apply not_elem_of_nil in Hs.
Qed.

Lemma portforward_host_witness :
  "https://" ∈ ["http://"; "https://"] ∧
  TrimLeft ("https://" +:+ "192.168.0.12:8443") "htps:/" = "192.168.0.12:8443".
Proof.
  split; [by right; left|]. apply (portforward_host "https://" "1"%char "92.168.0.12:8443").
  - by right; left.
  - reflexivity.
Defined.


