(* ===== verification/LineIO.v ===== *)
(** Reading one line from a connection: src/server/io.go, on top of the scanner of package
    bufio. *)
From S2P Require Import Prelude Go Errors Types Sys.
#[local] Open Scope go_scope.

#[export] Instance byte_eq_dec : EqDecision byte := Byte.byte_eq_dec.

(** * bufio.ScanLines *)

Definition LF : byte := x0a.
Definition CR : byte := x0d.

Definition dropCR (data : list byte) : list byte :=
  match list.last data with
  | Some b => if decide (b = CR) then take (length data - 1) data else data
  | None => data
  end.

(** The bytes before the first line feed, if there is one. *)
Fixpoint before_LF (data : list byte) : option (list byte) :=
  match data with
  | [] => None
  | b :: data => if decide (b = LF) then Some [] else cons b <$> before_LF data
  end.

(** The token [bufio.ScanLines] finds in [data], if any. *)
Definition ScanLines (data : list byte) (atEOF : bool) : option (list byte) :=
  if atEOF && bool_decide (data = []) then None
  else match before_LF data with
       | Some line => Some (dropCR line)
       | None => if atEOF then Some (dropCR data) else None
       end.

(** * bufio.Scanner: the first call of Scan *)

Definition startBufSize : Z := 4096.
Definition MaxScanTokenSize : Z := 64 * 1024.
Definition maxConsecutiveEmptyReads : nat := 100.
Definition ErrTooLong : error := EText "bufio.Scanner: token too long".
Definition ErrNoProgress : error :=
  EText "multiple Read calls return no data or error".

(** The inner loop: reads until something, an error, or too many empty reads. *)
Definition scan_read (c : conn) (cap : Z) : prog sysE (list byte * option error) :=
  loop 0 (λ n,
    r <- call (EConnRead c cap);;
    match r with
    | (b, Some err) => Ret (inr (b, Some err))
    | (b, None) =>
        if decide (0 < length b) then Ret (inr (b, None))
        else if decide (maxConsecutiveEmptyReads < S n) then Ret (inr (b, Some ErrNoProgress))
        else Ret (inl (S n))
    end).

Definition grow (bufsz : Z) : Z :=
  let newSize := (if bufsz =? 0 then startBufSize else bufsz * 2)%Z in
  if (newSize >? MaxScanTokenSize)%Z then MaxScanTokenSize else newSize.

(** [s.buf[s.start:s.end]], [len(s.buf)] and [s.err]; [s.start] stays 0 in the first call.
    Result: the token, if Scan returned true, and [s.err]. *)
Definition Scan (c : conn) : prog sysE (option (list byte) * option error) :=
  loop ([], 0%Z, None) (λ '(data, bufsz, err),
    match (if bool_decide (data = []) && bool_decide (err = None) then None
           else ScanLines data (bool_decide (err ≠ None))) with
    | Some token => Ret (inr (Some token, err))
    | None =>
        match err with
        | Some err => Ret (inr (None, Some err))
        | None =>
            if ((Z.of_nat (length data) =? bufsz) && (bufsz >=? MaxScanTokenSize))%Z
            then Ret (inr (None, Some ErrTooLong))
            else
              let bufsz := if (Z.of_nat (length data) =? bufsz)%Z then grow bufsz else bufsz in
              r <- scan_read c (bufsz - Z.of_nat (length data))%Z;;
              Ret (inl (data ++ r.1, bufsz, r.2))
        end
    end).

(** [scan.Err()]: the end of the stream is not an error. *)
Definition Scanner_Err (err : option error) : option error :=
  if decide (err = Some EOF) then None else err.

Definition Readline (reader : conn) : prog sysE (result (list byte) error) :=
  s <- Scan reader;;
  match Scanner_Err s.2 with
  | Some err => Ret (Err err)
  | None =>
      match s.1 with
      | None => Ret (Err (EText "Empty message received"))
      | Some msg => Ret (Ok msg)
      end
  end.

(** * The reads of a trace *)

Definition read_of (o : obs sysE) : option (list byte * option error) :=
  match o with
  | @Obs _ X e x =>
      match e in sysE Y return Y → option (list byte * option error) with
      | EConnRead _ _ => λ r, Some r
      | _ => λ _, None
      end x
  end.

(** All bytes of a list of reads, in order. *)
Definition read_bytes (l : list (list byte * option error)) : list byte := concat l.*1.

(** * Lemmas *)

Lemma only_scan_read c cap : only [KRead] (scan_read c cap).
Proof. unfold scan_read. solve_only. Qed.
#[export] Hint Resolve only_scan_read : only.

Lemma only_Readline c : only [KRead] (Readline c).
Proof. unfold Readline, Scan. solve_only. Qed.
#[export] Hint Resolve only_Readline : only.

Lemma read_bytes_snoc l r : read_bytes (l ++ [r]) = read_bytes l ++ r.1.
Proof. unfold read_bytes. rewrite fmap_app, concat_app. simpl. by rewrite app_nil_r. Qed.

Lemma before_LF_None data : before_LF data = None ↔ LF ∉ data.
Proof.
  induction data as [|b data IH]; simpl; [split; [intros _; apply not_elem_of_nil|done]|].
  rewrite not_elem_of_cons. case_decide; [naive_solver|].
  destruct (before_LF data); naive_solver.
Qed.

Lemma before_LF_app data rest :
  LF ∉ data → before_LF (data ++ (LF :: rest)) = Some data.
Proof.
  induction data as [|b data IH]; simpl; [done|].
  rewrite not_elem_of_cons. intros [Hb Hd]. case_decide; [congruence|]. by rewrite IH.
Qed.

Lemma before_LF_Some data line :
  before_LF data = Some line → LF ∉ line ∧ ∃ rest, data = line ++ (LF :: rest).
Proof.
  revert line. induction data as [|b data IH]; simpl; intros line; [done|].
  case_decide as Hb.
  - intros [= <-]. subst. split; [apply not_elem_of_nil|]. by exists data.
  - destruct (before_LF data) as [l|]; simpl; [|done]. intros [= <-].
    destruct (IH l eq_refl) as (Hl & rest & ->). split; [|by exists rest].
    apply not_elem_of_cons. auto.
Qed.

Lemma dropCR_sub data : ∃ t, data = dropCR data ++ t ∧ (t = [] ∨ t = [CR]).
Proof.
  unfold dropCR. destruct (list.last data) as [b|] eqn:E; [|exists []; rewrite app_nil_r; auto].
  apply last_Some in E as (l & ->). case_decide as Hb; [|exists []; rewrite app_nil_r; auto].
  subst. exists [CR]. split; [|auto].
  by rewrite length_app, Nat.add_sub, take_app_length.
Qed.

(** The state of the scanner's loop, given the reads made so far. *)
Definition scan_inv (s : list byte * Z * option error)
  (reads : list (list byte * option error)) : Prop :=
  let '(data, bufsz, err) := s in
  data = read_bytes reads ∧
  (Z.of_nat (length data) ≤ bufsz ≤ MaxScanTokenSize)%Z ∧
  (err = Some EOF → ∃ b, list.last reads = Some (b, Some EOF)).

Lemma grow_bound bufsz :
  (0 ≤ bufsz ≤ MaxScanTokenSize)%Z → (bufsz ≤ grow bufsz ≤ MaxScanTokenSize)%Z.
Proof.
  unfold grow, startBufSize, MaxScanTokenSize. intros H.
  case_match; case_match; lia.
Qed.

(** The inner loop adds reads; the bytes it returns are theirs. *)
Lemma scan_read_spec c cap l (Q : list (list byte * option error) → list byte * option error → Prop) :
  (0 ≤ cap)%Z →
  (∀ l' b err, read_bytes l' = read_bytes l ++ b → (Z.of_nat (length b) ≤ cap)%Z →
     (err = Some EOF → ∃ b', list.last l' = Some (b', Some EOF)) → Q l' (b, err)) →
  respects (collector read_of sane) (scan_read c cap) l Q.
Proof.
  intros Hcap HQ. apply (respects_loop _ (λ _ l', read_bytes l' = read_bytes l)); [done|].
  intros n l1 Hl1. simpl. intros [b [err|]] Hsane; simpl in *.
  - apply HQ; [by rewrite read_bytes_snoc, Hl1|done|].
    intros [= ->]. exists b. by rewrite last_snoc.
  - case_decide as Hb; [|case_decide as Hn]; simpl.
    + apply HQ; [by rewrite read_bytes_snoc, Hl1|done|done].
    + apply HQ; [by rewrite read_bytes_snoc, Hl1|done|discriminate].
    + destruct b; simpl in Hb; [|lia]. rewrite read_bytes_snoc, Hl1. apply app_nil_r.
Qed.

(** What the scanner's answer means: [Some token] is the first line of what was read, or,
    at the end of the stream, all of it. *)
Definition scan_post (reads : list (list byte * option error))
  (r : option (list byte) * option error) : Prop :=
  match r with
  | (Some token, err) =>
      (Z.of_nat (length (read_bytes reads)) ≤ MaxScanTokenSize)%Z ∧
      ((∃ line, before_LF (read_bytes reads) = Some line ∧ token = dropCR line) ∨
       (before_LF (read_bytes reads) = None ∧ read_bytes reads ≠ [] ∧
        token = dropCR (read_bytes reads) ∧ err ≠ None ∧
        (err = Some EOF → ∃ b, list.last reads = Some (b, Some EOF))))
  | (None, err) => err ≠ None ∧ (err = Some EOF → read_bytes reads = [])
  end.

Lemma ScanLines_None data atEOF :
  ScanLines data atEOF = None → data = [] ∨ (before_LF data = None ∧ atEOF = false).
Proof.
  unfold ScanLines. destruct atEOF; simpl.
  - case_bool_decide; [by left|]. by destruct (before_LF data).
  - destruct (before_LF data); [done|auto].
Qed.

Lemma ScanLines_Some data atEOF token :
  ScanLines data atEOF = Some token →
  (∃ line, before_LF data = Some line ∧ token = dropCR line) ∨
  (before_LF data = None ∧ token = dropCR data ∧ atEOF = true ∧ data ≠ []).
Proof.
  unfold ScanLines. destruct atEOF; simpl.
  - case_bool_decide; [done|]. destruct (before_LF data); intros [= <-]; [left|right]; eauto.
  - destruct (before_LF data); intros [= <-]. left. eauto.
Qed.

Lemma Scan_spec c : respects (collector read_of sane) (Scan c) [] scan_post.
Proof.
  unfold Scan. apply (respects_loop _ scan_inv).
  { split; [done|]. split; [|done]. unfold MaxScanTokenSize. simpl. lia. }
  intros [[data bufsz] err] l (-> & Hb & Herr).
  set (tok := if bool_decide (read_bytes l = []) && bool_decide (err = None) then None
              else ScanLines (read_bytes l) (bool_decide (err ≠ None))).
  destruct tok as [token|] eqn:Htok; subst tok.
  - simpl. destruct (bool_decide _ && _); [done|].
    apply ScanLines_Some in Htok as [Hl|(Hn & -> & He & Hd)]; (split; [lia|auto]).
    right. apply bool_decide_eq_true in He. auto.
  - destruct err as [err|].
    + simpl. rewrite (bool_decide_eq_false_2 (Some err = None)), andb_false_r in Htok by done.
      apply ScanLines_None in Htok as [Hd|[_ Hf]].
      * done.
      * apply bool_decide_eq_false in Hf. by destruct Hf.
    + destruct (_ && (bufsz >=? _)%Z) eqn:Hfull.
      * done.
      * apply respects_bind.
        set (bufsz' := if (_ =? bufsz)%Z then _ else _).
        assert (Z.of_nat (length (read_bytes l)) ≤ bufsz' ≤ MaxScanTokenSize)%Z as Hb'.
        { subst bufsz'. destruct (Z.eqb_spec (Z.of_nat (length (read_bytes l))) bufsz); [|lia].
          pose proof (grow_bound bufsz). lia. }
        apply scan_read_spec; [lia|]. intros l' b err' Hl' Hlen Herr'. simpl.
        split; [by rewrite Hl'|]. rewrite length_app. split; [lia|done].
Qed.

(** * Properties *)

(** C21.  A line [Readline] returns is the first line of the bytes it read, however the
    connection cuts them into chunks, without its line ending; or, when the stream ends
    before a line feed, everything it read, which is then not empty.  It is never longer
    than bufio's limit. *)
Theorem Readline_line (c : conn) (tr : list (obs sysE)) (line : list byte) :
  Forall sane tr →
  runs (Readline c) tr (Ret (Ok line)) →
  let data := read_bytes (omap read_of tr) in
  (Z.of_nat (length line) ≤ MaxScanTokenSize)%Z ∧
  ((∃ l rest, data = l ++ (LF :: rest) ∧ LF ∉ l ∧ line = dropCR l) ∨
   (LF ∉ data ∧ data ≠ [] ∧ line = dropCR data ∧
    ∃ b, list.last (omap read_of tr) = Some (b, Some EOF))).
Proof.
  intros Hs Hr.
  eapply (collector_complete read_of sane _ tr (Ok line) (λ l r, match r with
    | Ok line => ∃ err, scan_post l (Some line, err) ∧ (err = None ∨ err = Some EOF)
    | Err _ => True end)) in Hr; [|unfold Readline; apply respects_bind|done].
  2:{ eapply respects_mono; [apply Scan_spec|]. intros l [tok err] Hp. unfold Scanner_Err.
      simpl fst. simpl snd. case_decide; [|destruct err]; try (destruct tok); simpl; eauto. }
  destruct Hr as (err & (Hlen & Hr) & Herr). cbv zeta.
  set (data := read_bytes (omap read_of tr)) in *.
  destruct Hr as [(l & Hl & ->)|(Hn & Hd & -> & He & Hlast)].
  - apply before_LF_Some in Hl as (Hl & rest & Hdata).
    destruct (dropCR_sub l) as (t & Ht & _). split; [|left; eauto].
    apply (f_equal length) in Ht, Hdata. rewrite length_app in *. simpl in *. lia.
  - destruct (dropCR_sub data) as (t & Ht & _). split.
    + apply (f_equal length) in Ht. rewrite length_app in Ht. lia.
    + right. apply before_LF_None in Hn. destruct Herr as [->|Herr]; [done|]. auto.
Qed.

(** A line that arrives in three reads. *)
Definition chunks (n : nat) (X : Type) (e : sysE X) : option X :=
  match n, e in sysE Y return option Y with
  | 0, EConnRead _ _ => Some ([x61; x62], None)
  | 1, EConnRead _ _ => Some ([x63; CR], None)
  | 2, EConnRead _ _ => Some ([LF; x64], None)
  | _, _ => None
  end.

Lemma Readline_line_witness :
  let data := read_bytes (omap read_of (trace_of chunks 60 (Readline 7))) in
  data = [x61; x62; x63; CR; LF; x64] ∧
  (Z.of_nat (length [x61; x62; x63]) ≤ MaxScanTokenSize)%Z ∧
  ((∃ l rest, data = l ++ (LF :: rest) ∧ LF ∉ l ∧ [x61; x62; x63] = dropCR l) ∨
   (LF ∉ data ∧ data ≠ [] ∧ [x61; x62; x63] = dropCR data ∧
    ∃ b, list.last (omap read_of (trace_of chunks 60 (Readline 7))) = Some (b, Some EOF))).
Proof.
  split; [vm_compute; reflexivity|].
  apply (Readline_line 7 (trace_of chunks 60 (Readline 7)) [x61; x62; x63]).
  - vm_compute. repeat constructor; discriminate.
  - apply machine_runs. vm_compute. reflexivity.
Defined.
