(* ===== verification/HostConf.v ===== *)
(** The host's configuration (src/server/hostconf.go) and the SSH client
    (src/server/ssh.go). *)
From S2P Require Import Prelude Go Errors Types Sys.
#[local] Open Scope go_scope.

Record HostConf := mkHostConf {
  HostNetworkInterface : string;
  SSHLocalServerAddr : string;
  SSHUser : string;
  SSHKeyPath : string
}.

Definition HostConfPath : string := "./hostconf.yaml".

(** gopkg.in/yaml.v2 on a configuration that starts as the zero value. *)
Class YamlLib := { UnmarshalHostConf : string → result HostConf error }.

Section hostconf.
Context `{PkgErrors, YamlLib}.

Definition LoadHostConfFrom (path : string) : prog sysE (result HostConf error) :=
  b ?<- stacked (call (EReadFile path));;
  match UnmarshalHostConf b with
  | Err err => Ret (Err (WithStack err))
  | Ok hostConf => Ret (Ok hostConf)
  end.

Definition LoadHostConf : prog sysE (result HostConf error) := LoadHostConfFrom HostConfPath.

End hostconf.

(** * SSH *)

(** [ssh.ClientConfig] is the user and the key; any host key is accepted. *)
Record SSHClient := mkSSHClient {
  localServerAddr : string;
  clientUser : string;
  clientKey : signer
}.

Section ssh.
Context `{PkgErrors}.

Definition NewSSHClient (hostConf : HostConf) : prog sysE (result SSHClient error) :=
  key ?<- stacked (call (EReadFile (SSHKeyPath hostConf)));;
  signer ?<- stacked (call (EParsePrivateKey key));;
  Ret (Ok (mkSSHClient (SSHLocalServerAddr hostConf) (SSHUser hostConf) signer)).

(** The two copiers and the closer of one tunnelled connection. *)
Definition tunnelRoute (sshClientConn : sshconn) (localConn : conn)
  (localAddr remoteAddr : string) (closeChan : chan) : prog sysE unit :=
  LogInfo ("Open SSH tunnel route: " +:+ localAddr +:+ " <--> " +:+ remoteAddr);;
  r <- call (ESSHConnDial sshClientConn "tcp" remoteAddr);;
  match r with
  | Err err => LogErrorE err
  | Ok remoteConn =>
      go (call (EChanRecv closeChan);;
          LogInfo ("Close SSH tunnel route: " +:+ localAddr +:+ " <--> " +:+ remoteAddr);;
          conn_close localConn;;
          conn_close remoteConn);;
      go (err <- call (EIOCopy remoteConn localConn);;
          match err with Some err => LogErrorE err | None => Ret tt end);;
      go (err <- call (EIOCopy localConn remoteConn);;
          match err with Some err => LogErrorE err | None => Ret tt end)
  end.

Definition tunnelListener (sshClientConn : sshconn) (ln : listener)
  (localAddr remoteAddr : string) (closeChan : chan) (listening : var) : prog sysE unit :=
  loop tt (λ _,
    l <- call (EVarGet listening);;
    if l : bool then
      r <- call (EAccept ln);;
      match r with
      | Err err =>
          if IsClosedError err then Ret (inr tt) else LogErrorE err;; Ret (inr tt)
      | Ok localConn =>
          go (tunnelRoute sshClientConn localConn localAddr remoteAddr closeChan);;
          Ret (inl tt)
      end
    else Ret (inr tt)).

Definition OpenTunnel (p : SSHClient) (localAddr remoteAddr : string) (closeChan : chan)
  : prog sysE (result unit error) :=
  sshClientConn ?<- stacked
    (call (ESSHDial "tcp" (localServerAddr p) (clientUser p) (clientKey p)));;
  LogInfo "Open SSH client";;
  go (call (EChanRecv closeChan);;
      LogInfo "Close SSH client";;
      _ <- call (ESSHConnClose sshClientConn);; Ret tt);;
  ln ?<- stacked (call (EListen "tcp" localAddr));;
  listening <- call (EVarNew true);;
  go (call (EChanRecv closeChan);;
      call (EVarSet listening false);;
      ln_close ln);;
  go (tunnelListener sshClientConn ln localAddr remoteAddr closeChan listening);;
  Ret (Ok tt).

End ssh.

(** * Lemmas *)

Section ssh_effects.
Context `{PkgErrors}.

Lemma only_NewSSHClient hc : only [KFile; KSSH] (NewSSHClient hc).
Proof. unfold NewSSHClient. solve_only. Qed.

Lemma only_OpenTunnel p la ra c : only [KSSH; KLog; KListen; KVar] (OpenTunnel p la ra c).
Proof. unfold OpenTunnel. solve_only. Qed.

End ssh_effects.

#[export] Hint Resolve only_NewSSHClient only_OpenTunnel : only.
