(* ===== verification/LiveMigration.v ===== *)
(** Live migration of a pod: src/server/lm.go.  [Restore] is the destination's side,
    [Dump] the source's. *)
From S2P Require Import Prelude Go Errors Types Sys LineIO HostConf Kube KubeExec.
#[local] Open Scope go_scope.

Definition LM_HostMsgPort : Z := 19999.
Definition LM_HostDataPort : Z := 19998.
Definition LM_HostResumeSigPort : Z := 19997.
Definition LM_PodRsyncPort : Z := 873.
Definition LM_DumpImagesDir : string := "/tmp/cloudlet-live-migration/images".
Definition LM_RsyncModuleName : string := "tmp".
Definition LM_RsyncModuleDirectory : string := "/tmp".
Definition LM_PostResumeScriptPath : string := "/tmp/cloudlet-live-migration.post-resume.sh".
Definition MainPidFilePath : string := "/MAIN_PID".

Definition LM_MsgReqPreDump : byte := x01.
Definition LM_MsgReqDump : byte := x02.
Definition LM_MsgRespOk : byte := x00.
Definition LM_MsgRespError : byte := xff.

Definition GetRestorePodCommand : list string * list string :=
  (["/bin/sh"; "-c"; "--"], ["while true; do sleep 60; done"]).

(** Package encoding/json on the request and response types. *)
Class JsonLib := {
  MarshalRequest : Request → result (list byte) error;
  UnmarshalRequest : list byte → result Request error;
  MarshalResponse : Response → result (list byte) error;
  UnmarshalResponse : list byte → result Response error
}.

(** A stand-in for the package in closed executions: enough of a codec for the fields the
    executions look at. *)
Module ReferenceJson.

Definition lib : JsonLib := {|
  MarshalRequest r := Ok (String.list_byte_of_string (Method r));
  UnmarshalRequest b :=
    Ok (mkRequest (String.string_of_list_byte b) zero_DeployReq (mkRemoveReq "")
          (mkRequestDumpStart "" "" 0));
  MarshalResponse r :=
    Ok ((if Resp_Ok r then x01 else x00) :: String.list_byte_of_string (Resp_Msg r));
  UnmarshalResponse b :=
    match b with
    | [] => Err (EText "unexpected end of JSON input")
    | c :: b => Ok (mkResponse (bool_decide (c = x01)) (String.string_of_list_byte b))
    end
|}.

(** An environment where every read of one byte gets the reply [OK], and every longer read
    the line [line]. *)
Definition replying (line : list byte) (n : nat) (X : Type) (e : sysE X) : option X :=
  match e in sysE Y return option Y with
  | EConnRead _ cap =>
      Some (if (cap =? 1)%Z then [LM_MsgRespOk] else line ++ [LF], None)
  | _ => None
  end.

End ReferenceJson.

(** A method call through a pointer that may be nil. *)
Definition on_ptr {A : Type} (p : option svcref) (f : svcref → prog sysE A) : prog sysE A :=
  match p with
  | Some s => f s
  | None => Panic nil_dereference
  end.

(** * The destination: LM_Restore *)

Module Restore.

Record LM_Restore := mkRestore {
  Clientset_ : Clientset;
  RestConfig_ : RestConfig;
  ThisAddr : string;
  DstNamespace : string;
  DstPodName : string;
  DstContainerName : string;
  SrcAddr : string;
  SrcAPIServerAddr : string;
  SrcName : string;
  Fwdsvc : option svcref;
  DstPodAddr : TCPAddr;
  BwLimit : Z;
  Iteration : Z
}.

Definition iterations (p : LM_Restore) : Z :=
  if (Iteration p >? 0)%Z then Iteration p
  else if (Iteration p =? 0)%Z then 1
  else 0.

Definition postResumeScript (p : LM_Restore) : string :=
  "#!/bin/sh" +:+ newline +:+
  "if test " +:+ dquote +:+ "$CRTOOLS_SCRIPT_ACTION" +:+ dquote +:+ " = " +:+ dquote
    +:+ "post-resume" +:+ dquote +:+ "; then echo Send resume signal; nc -vz "
    +:+ ThisAddr p +:+ " " +:+ itoa LM_HostResumeSigPort +:+ "; fi" +:+ newline.

Definition restoreCommand : string :=
  let actionScriptOpt := "--action-script " +:+ LM_PostResumeScriptPath in
  "unshare -p -m --fork --mount-proc" +:+
    " criu restore --images-dir " +:+ LM_DumpImagesDir +:+ "/final --shell-job --tcp-close "
    +:+ actionScriptOpt +:+ " &".

Section restore.
Context `{PkgErrors, JsonLib}.

(** The [Request] literal of [sendDumpStartRequest]. *)
Definition dumpStartRequest (p : LM_Restore) : Request :=
  mkRequest "_dumpStart" zero_DeployReq (mkRemoveReq "")
    (mkRequestDumpStart (SrcName p) (ThisAddr p) (BwLimit p)).

Definition sendDumpStartRequest (p : LM_Restore) : prog sysE (result Response error) :=
  let req := dumpStartRequest p in
  match MarshalRequest req with
  | Err err => Ret (Err (WithStack err))
  | Ok breq =>
      let breq := breq ++ [LF] in
      conn ?<- stacked (call (EDial "tcp" (SrcAPIServerAddr p)));;
      defer (conn_close conn) (
        w <- call (EConnWrite conn breq);;
        match w.2 with
        | Some err => Ret (Err (WithStack err))
        | None =>
            bresp ?<- stacked (Readline conn);;
            match UnmarshalResponse bresp with
            | Err err => Ret (Err (WithStack err))
            | Ok resp => Ret (Ok resp)
            end
        end)
  end.

Definition sendDumpServiceRequest (conn : conn) (req : byte)
  : prog sysE (result unit error) :=
  let reqbuf := [req] in
  w <- call (EConnWrite conn reqbuf);;
  match w.2 with
  | Some err => Ret (Err (WithStack err))
  | None =>
      r <- call (EConnRead conn 1);;
      match r with
      | ([], Some err) => Ret (Err (WithStack err))
      | ([], None) => Ret (Err (NewStackError "Read 0 bytes"))
      | (b :: _, _) =>
          if decide (b ≠ LM_MsgRespOk)
          then Ret (Err (EText "Dump service respond an error"))
          else Ret (Ok tt)
      end
  end.

(** The goroutine that waits for the post-resume script to connect. *)
Definition resumeListener (lnResume : listener) (resumeChan : chan) : prog sysE unit :=
  defer (chan_close resumeChan) (
    r <- call (EAccept lnResume);;
    match r with
    | Err err =>
        if IsClosedError err then LogWarn "[Restore] Resume signal listener close"
        else LogErrorE err
    | Ok conn =>
        LogInfo "[Restore] Resume signal accept";;
        defer (conn_close conn) (
          _ <- call (EConnSetDeadline conn 1);;
          _ <- call (EConnRead conn 1);;
          Ret tt)
    end).

(** [for itr := 0; itr < iteration; itr++]: the first error ends it. *)
Definition preDumps (conn : conn) (iteration : Z) : prog sysE (result unit error) :=
  loop 0%Z (λ itr,
    if (itr <? iteration)%Z then
      LogInfo ("[Restore] Send pre-dump request (" +:+ itoa (itr + 1) +:+ ")");;
      r <- sendDumpServiceRequest conn LM_MsgReqPreDump;;
      match r with
      | Err err => Ret (inr (Err err))
      | Ok _ => Ret (inl (itr + 1)%Z)
      end
    else Ret (inr (Ok tt))).

(** [for waitForResume]: until the resume signal or the timeout. *)
Definition waitForResume (resumeChan timeoutChan : chan) : prog sysE unit :=
  loop tt (λ _,
    s <- call (ESelect2 resumeChan timeoutChan);;
    match s with
    | Some true => Ret (inr tt)
    | Some false => LogWarn "[Restore] Waiting for resume timeout";; Ret (inr tt)
    | None => call (ESleep 10);; Ret (inl tt)
    end).

(** From the final dump request to the end of [exec]. *)
Definition finalPhase (p : LM_Restore) (conn : conn) (resumeChan : chan) (withFwd : bool)
  : prog sysE (result unit error) :=
  LogInfo "[Restore] Send final dump request";;
  _ ?<- sendDumpServiceRequest conn LM_MsgReqDump;;
  LogInfo "[Restore] Exec unshare criu restore";;
  timeoutChan <- call EChanMake;;
  go (defer (chan_close timeoutChan) (call (ESleep 5000)));;
  go (r <- ExecutePod (Clientset_ p) (RestConfig_ p) (DstNamespace p) (DstPodName p)
             (DstContainerName p) None true true (sh restoreCommand);;
      match r.2 with Some err => LogErrorE err | None => Ret tt end);;
  waitForResume resumeChan timeoutChan;;
  (if withFwd then
     LogInfo "[Restore] Change forwarding dst addr to the restored pod";;
     on_ptr (Fwdsvc p) (λ s, call (EFwdChangeServerAddr s (DstPodAddr p)));;
     on_ptr (Fwdsvc p) (λ s, call (EFwdChangeDataRate s 0))
   else Ret tt);;
  Ret (Ok tt).

Definition exec (p : LM_Restore) (withFwd : bool) : prog sysE (result unit error) :=
  defer_on (λ reterr, match reterr with
                      | Err _ => LogWarn "[Restore] Abort"
                      | Ok _ => LogInfo "[Restore] Complete"
                      end) (
    LogInfo "[Restore] Listen to resume signal";;
    let lnResumeAddr := ":" +:+ itoa LM_HostResumeSigPort in
    lnResume ?<- stacked (call (EListen "tcp" lnResumeAddr));;
    defer (ln_close lnResume) (
      resumeChan <- call EChanMake;;
      go (resumeListener lnResume resumeChan);;
      LogInfo "[Restore] Prepare post-resume script";;
      err <- WritePodFile (Clientset_ p) (RestConfig_ p) (DstNamespace p) (DstPodName p)
        (DstContainerName p) true LM_PostResumeScriptPath (postResumeScript p) "755";;
      match err with
      | Some err => Ret (Err err)
      | None =>
          LogInfo "[Restore] Exec rsync --daemon";;
          r <- ExecutePod (Clientset_ p) (RestConfig_ p) (DstNamespace p) (DstPodName p)
                 (DstContainerName p) None true true (sh "rsync --daemon");;
          match r.2 with
          | Some err => Ret (Err err)
          | None =>
              LogInfo "[Restore] Send DumpStart request";;
              resp ?<- sendDumpStartRequest p;;
              if negb (Resp_Ok resp)
              then Ret (Err (NewStackError ("DumpStart response error: " +:+ Resp_Msg resp)))
              else
                let dumpServiceAddr := SrcAddr p +:+ ":" +:+ itoa LM_HostMsgPort in
                conn ?<- call (EDial "tcp" dumpServiceAddr);;
                defer (conn_close conn) (
                  k8sPortFwdCloseChan <- call EChanMake;;
                  defer (chan_close k8sPortFwdCloseChan) (
                    LogInfo "[Restore] Open kube port-forward";;
                    err <- OpenKubePortForwardReady (RestConfig_ p) (DstNamespace p)
                      (DstPodName p) LM_HostDataPort LM_PodRsyncPort k8sPortFwdCloseChan;;
                    match err with
                    | Some err => Ret (Err err)
                    | None =>
                        _ ?<- preDumps conn (iterations p);;
                        if withFwd then
                          LogInfo "[Restore] Suspend forwarding service";;
                          on_ptr (Fwdsvc p) (λ s, call (EFwdSuspend s));;
                          defer (LogInfo "[Restore] Resume forwarding service";;
                                 on_ptr (Fwdsvc p) (λ s, call (EFwdResume s))) (
                            LogInfo "[Restore] Close all forwarding streams";;
                            on_ptr (Fwdsvc p) (λ s, call (EFwdCloseAll s));;
                            finalPhase p conn resumeChan withFwd)
                        else finalPhase p conn resumeChan withFwd
                    end))
          end
      end)).

Definition ExecLM (p : LM_Restore) : prog sysE (result unit error) := exec p false.
Definition ExecFwdLM (p : LM_Restore) : prog sysE (result unit error) := exec p true.

End restore.

(** ** Effects *)

Section restore_effects.
Context `{PkgErrors, JsonLib}.

Lemma only_sendDumpStartRequest p :
  only [KDial; KWrite; KRead; KConnClose] (sendDumpStartRequest p).
Proof. unfold sendDumpStartRequest. solve_only. Qed.

Lemma only_sendDumpServiceRequest c req :
  only [KWrite; KRead] (sendDumpServiceRequest c req).
Proof. unfold sendDumpServiceRequest. solve_only. Qed.
#[local] Hint Resolve only_sendDumpServiceRequest : only.

Lemma only_preDumps c n : only [KLog; KWrite; KRead] (preDumps c n).
Proof. unfold preDumps. solve_only. Qed.

Lemma only_waitForResume c1 c2 : only [KChan; KLog; KTime] (waitForResume c1 c2).
Proof. unfold waitForResume. solve_only. Qed.

End restore_effects.

#[export] Hint Resolve only_sendDumpStartRequest only_sendDumpServiceRequest only_preDumps
  only_waitForResume : only.

End Restore.

(** * The source: LM_DumpService *)

Module Dump.

Record LM_DumpService := mkDumpService {
  Clientset_ : Clientset;
  RestConfig_ : RestConfig;
  ThisAddr : string;
  Namespace : string;
  PodName : string;
  ContainerName : string;
  DstAddr : string;
  BwLimit : Z
}.

(** [strconv.Atoi]: an optional sign and decimal digits, in the range of [int]. *)
Definition digit (a : ascii) : option Z :=
  let n := Z.of_nat (nat_of_ascii a) in
  if ((48 <=? n) && (n <=? 57))%Z then Some (n - 48)%Z else None.

Fixpoint digits (acc : Z) (s : string) : option Z :=
  match s with
  | EmptyString => Some acc
  | String a s => d ← digit a; digits (acc * 10 + d)%Z s
  end.

Definition ErrSyntax : error := EText "invalid syntax".
Definition ErrRange : error := EText "value out of range".

Definition Atoi (s : string) : result Z error :=
  let unsigned (neg : bool) (s : string) :=
    match s with
    | EmptyString => Err ErrSyntax
    | _ => match digits 0 s with
           | None => Err ErrSyntax
           | Some n =>
               let n := if neg then (- n)%Z else n in
               if bool_decide (- 2 ^ 63 ≤ n < 2 ^ 63)%Z then Ok n else Err ErrRange
           end
    end in
  match s with
  | String "-" s => unsigned true s
  | String "+" s => unsigned false s
  | _ => unsigned false s
  end.

Section dump.
Context `{PkgErrors}.

Definition getMainPid (p : LM_DumpService) : prog sysE (result Z error) :=
  v ?<- ReadPodFile (Clientset_ p) (RestConfig_ p) (Namespace p) (PodName p)
    (ContainerName p) true MainPidFilePath;;
  match Atoi v with
  | Err err => Ret (Err (WithStack err))
  | Ok ans => Ret (Ok ans)
  end.

Definition getRsyncBandwidth (p : LM_DumpService) : Z :=
  if (BwLimit p <=? 0)%Z then 0%Z else int64 (BwLimit p * 122).

Definition rsyncBwOption (p : LM_DumpService) : string :=
  let rsyncBw := getRsyncBandwidth p in
  if (rsyncBw >? 0)%Z then "--bwlimit=" +:+ itoa rsyncBw else "".

Definition prevImagesDirOpt (itercnt : Z) : string :=
  if (itercnt >? 1)%Z then "--prev-images-dir ../" +:+ itoa (itercnt - 1) else "".

(** The shell command of a pre-dump request. *)
Definition preDumpCommand (p : LM_DumpService) (pid : Z) (rsyncBwOpt : string)
  (itercnt : Z) : string :=
  let imagesDir := LM_DumpImagesDir +:+ "/" +:+ itoa itercnt in
  "mkdir -p " +:+ LM_DumpImagesDir +:+ "/" +:+ itoa itercnt +:+
  " && criu pre-dump --tree " +:+ itoa pid +:+ " --images-dir " +:+ imagesDir +:+ " "
    +:+ prevImagesDirOpt itercnt +:+ " --tcp-close --shell-job" +:+
  " && rsync " +:+ rsyncBwOpt +:+ " -rlOt " +:+ LM_RsyncModuleDirectory +:+ "/ rsync://"
    +:+ ThisAddr p +:+ ":" +:+ itoa LM_HostDataPort +:+ "/" +:+ LM_RsyncModuleName.

(** The shell command of a final dump request. *)
Definition dumpCommand (p : LM_DumpService) (pid : Z) (itercnt : Z) : string :=
  let imagesDir := LM_DumpImagesDir +:+ "/final" in
  "mkdir -p " +:+ LM_DumpImagesDir +:+ "/final" +:+
  " && criu dump --tree " +:+ itoa pid +:+ " --images-dir " +:+ imagesDir +:+ " "
    +:+ prevImagesDirOpt itercnt +:+ " --tcp-close --shell-job --track-mem" +:+
  " && rsync -rlOt " +:+ LM_RsyncModuleDirectory +:+ "/ rsync://"
    +:+ ThisAddr p +:+ ":" +:+ itoa LM_HostDataPort +:+ "/" +:+ LM_RsyncModuleName.

(** [ExecutePod] of a dump command, and the reply it decides. *)
Definition runDump (p : LM_DumpService) (cmd : string) : prog sysE byte :=
  r <- ExecutePod (Clientset_ p) (RestConfig_ p) (Namespace p) (PodName p)
         (ContainerName p) None true true (sh cmd);;
  match r.2 with
  | Some err => LogErrorE err;; Ret LM_MsgRespError
  | None => Ret LM_MsgRespOk
  end.

(** [fmt.Sprintf] of a byte with the verb [%x]. *)
Definition hex_digit (n : Z) : string :=
  String (ascii_of_nat (Z.to_nat (if (n <? 10)%Z then n + 48 else n + 87))) EmptyString.

Definition hex (n : Z) : string :=
  if (n <? 16)%Z then hex_digit n else hex_digit (n / 16) +:+ hex_digit (n mod 16).

(** The reply to the request [req], the [itercnt]-th of the connection. *)
Definition handleRequest (p : LM_DumpService) (pid : Z) (rsyncBwOpt : string)
  (itercnt : Z) (req : byte) : prog sysE byte :=
  if decide (req = LM_MsgReqPreDump) then
    LogInfo "[Dump][svc] Exec mkdir && criu pre-dump && rsync";;
    (if bool_decide (rsyncBwOpt ≠ "")
     then LogInfo ("[Dump][svc] Rsync bandwidth: " +:+ itoa (getRsyncBandwidth p) +:+ " KiB/s")
     else Ret tt);;
    runDump p (preDumpCommand p pid rsyncBwOpt itercnt)
  else if decide (req = LM_MsgReqDump) then
    LogInfo "[Dump][svc] Exec mkdir && criu dump && rsync";;
    runDump p (dumpCommand p pid itercnt)
  else
    LogError ("[Dump][svc] Unexpected message: " +:+ hex (Z.of_N (Byte.to_N req)));;
    Ret LM_MsgRespError.

(** [for itercnt := 1; true; itercnt++] over the requests of one connection. *)
Definition serveConn (p : LM_DumpService) (pid : Z) (rsyncBwOpt : string) (conn : conn)
  : prog sysE unit :=
  loop 1%Z (λ itercnt,
    r <- call (EConnRead conn 1);;
    match r with
    | ([], Some err) =>
        (if decide (err = EOF) then LogInfo "[Dump][svc] Received EOF" else LogErrorE err);;
        Ret (inr tt)
    | ([], None) => LogErrorE (NewStackError "Read 0 bytes");; Ret (inr tt)
    | (req :: _, _) =>
        resp <- handleRequest p pid rsyncBwOpt itercnt req;;
        w <- call (EConnWrite conn [resp]);;
        match w.2 with
        | Some err => LogErrorE err;; Ret (inr tt)
        | None => Ret (inl (itercnt + 1)%Z)
        end
    end).

(** The goroutine [Start] leaves behind: one connection, then everything is closed. *)
Definition serve (p : LM_DumpService) (pid : Z) (rsyncBwOpt : string) (ln : listener)
  (sshCloseChan : chan) : prog sysE unit :=
  defer (chan_close sshCloseChan;; ln_close ln) (
    r <- call (EAccept ln);;
    match r with
    | Err err => LogErrorE err
    | Ok conn => defer (conn_close conn) (serveConn p pid rsyncBwOpt conn)
    end).

Definition on_error (d : prog sysE unit) (reterr : result unit error) : prog sysE unit :=
  match reterr with Err _ => d | Ok _ => Ret tt end.

(** [hostConf] is [TheAPICore.HostConf]. *)
Definition Start (hostConf : HostConf) (p : LM_DumpService)
  : prog sysE (result unit error) :=
  defer_on (λ reterr, match reterr with
                      | Err _ => LogWarn "[Dump] Abort"
                      | Ok _ => LogInfo "[Dump] Complete"
                      end) (
    let lnAddr := ":" +:+ itoa LM_HostMsgPort in
    lnTCPAddr ?<- call (EResolveTCPAddr "tcp" lnAddr);;
    LogInfo "[Dump] Open message listener";;
    ln ?<- call (EListenTCP "tcp" lnTCPAddr);;
    defer_on (on_error (ln_close ln)) (
      sshClient ?<- NewSSHClient hostConf;;
      let hostEndAddr := ThisAddr p +:+ ":" +:+ itoa LM_HostDataPort in
      let remoteEndAddr := DstAddr p +:+ ":" +:+ itoa LM_HostDataPort in
      sshCloseChan <- call EChanMake;;
      defer_on (on_error (chan_close sshCloseChan)) (
        LogInfo "[Dump] Open SSH tunnel";;
        _ ?<- OpenTunnel sshClient hostEndAddr remoteEndAddr sshCloseChan;;
        LogInfo "[Dump] Get main pid";;
        pid ?<- getMainPid p;;
        let rsyncBwOpt := rsyncBwOption p in
        go (serve p pid rsyncBwOpt ln sshCloseChan);;
        Ret (Ok tt)))).

End dump.

(** ** Effects *)

Section dump_effects.
Context `{PkgErrors}.

Lemma only_getMainPid p : only [KExec] (getMainPid p).
Proof. unfold getMainPid. solve_only. Qed.

Lemma only_handleRequest p pid bw n req : only [KLog; KExec] (handleRequest p pid bw n req).
Proof. unfold handleRequest, runDump. solve_only. Qed.
#[local] Hint Resolve only_handleRequest : only.

Lemma only_serveConn p pid bw c : only [KRead; KLog; KExec; KWrite] (serveConn p pid bw c).
Proof. unfold serveConn. solve_only. Qed.

End dump_effects.

#[export] Hint Resolve only_getMainPid only_handleRequest only_serveConn : only.

End Dump.
