(* ===== verification/Ownership.v ===== *)
(** Who has to close what: listeners, connections, SSH connections, channels, mutexes and
    forwarding services as handles that a goroutine owns from the call that opens them, may
    pass to a goroutine it starts, and must have given up when it ends.  The service in the
    [fwdsvc] field of a resource belongs to the field, and is the goroutine's while it holds
    the resource's mutex and has looked.  Goroutines that keep this discipline never close a
    channel or a service twice, whatever the interleaving, and leave nothing open. *)
From S2P Require Import Prelude Go Errors Types Sys Kube.

(** * Handles *)

Inductive handle :=
| HListener (ln : listener)
| HConn (c : conn)
| HSSH (c : sshconn)
| HChan (c : chan)
| HLock (name : string)
| HSvc (s : svcref).

#[export] Instance handle_eq_dec : EqDecision handle.
Proof. solve_decision. Defined.

Inductive own_op := OAcquire (h : handle) | ORelease (h : handle).

(** What a call opens and closes.  A forwarding service takes over the listener it is
    started with. *)
Definition own_ops (o : obs sysE) : list own_op :=
  match o with
  | @Obs _ X e x =>
      match e in sysE Y return Y → list own_op with
      | EListen _ _ | EListenTCP _ _ =>
          λ r, match r with Ok ln => [OAcquire (HListener ln)] | Err _ => [] end
      | EDial _ _ | EAccept _ | ESSHConnDial _ _ _ =>
          λ r, match r with Ok c => [OAcquire (HConn c)] | Err _ => [] end
      | ESSHDial _ _ _ _ =>
          λ r, match r with Ok c => [OAcquire (HSSH c)] | Err _ => [] end
      | EChanMake => λ c, [OAcquire (HChan c)]
      | EResLock name => λ _, [OAcquire (HLock name)]
      | EFwdStart _ ln _ _ _ _ => λ s, [ORelease (HListener ln); OAcquire (HSvc s)]
      | ELnClose ln => λ _, [ORelease (HListener ln)]
      | EConnClose c => λ _, [ORelease (HConn c)]
      | ESSHConnClose c => λ _, [ORelease (HSSH c)]
      | EChanClose c => λ _, [ORelease (HChan c)]
      | EFwdClose s => λ _, [ORelease (HSvc s)]
      | EResUnlock name => λ _, [ORelease (HLock name)]
      | _ => λ _, []
      end x
  end.

(** What a call does with the [fwdsvc] field of a resource. *)
Inductive slot_op :=
| SGet (name : string) (v : option svcref)
| SSet (name : string) (v : option svcref)
| SUnlock (name : string).

Definition slot_op_of (o : obs sysE) : option slot_op :=
  match o with
  | @Obs _ X e x =>
      match e in sysE Y return Y → option slot_op with
      | EResGetFwdsvc name => λ v, Some (SGet name v)
      | EResSetFwdsvc name v => λ _, Some (SSet name v)
      | EResUnlock name => λ _, Some (SUnlock name)
      | _ => λ _, None
      end x
  end.

(** [close] of a channel or a service, and whether it was open. *)
Definition closing_of (o : obs sysE) : option (handle * bool) :=
  match o with
  | @Obs _ X e x =>
      match e in sysE Y return Y → option (handle * bool) with
      | EChanClose c => λ fresh, Some (HChan c, fresh)
      | EFwdClose s => λ fresh, Some (HSvc s, fresh)
      | _ => λ _, None
      end x
  end.

(** [H] without (the first) [h]; [None] when it is not there. *)
Fixpoint release (h : handle) (H : list handle) : option (list handle) :=
  match H with
  | [] => None
  | h' :: H => if decide (h = h') then Some H else cons h' <$> release h H
  end.

Fixpoint apply_ops (ops : list own_op) (H : list handle) : option (list handle) :=
  match ops with
  | [] => Some H
  | OAcquire h :: ops => apply_ops ops (h :: H)
  | ORelease h :: ops => H' ← release h H; apply_ops ops H'
  end.

(** * The discipline *)

(** What a goroutine owns, and what it knows of the field of the resource it has locked: its
    name and value.  The value, if there is one, is among the handles it owns until it
    unlocks the resource. *)
Definition ostate : Type := list handle * option (string * option svcref).

Definition slot_step (so : option slot_op) (m : ostate) : option ostate :=
  let '(H, sl) := m in
  match so with
  | None => Some m
  | Some (SGet name v) =>
      match sl with
      | Some _ => Some m
      | None =>
          if decide (HLock name ∈ H)
          then Some (match v with Some s => HSvc s :: H | None => H end, Some (name, v))
          else Some m
      end
  | Some (SSet name v) =>
      match sl with
      | Some (n, _) => if decide (n = name) then Some (H, Some (name, v)) else None
      | None => None
      end
  | Some (SUnlock name) =>
      match sl with
      | Some (n, Some s) =>
          if decide (n = name) then H' ← release (HSvc s) H; Some (H', None) else None
      | Some (n, None) => if decide (n = name) then Some (H, None) else None
      | None => Some m
      end
  end.

Definition own_next (m : ostate) (o : obs sysE) : option ostate :=
  H ← apply_ops (own_ops o) m.1; slot_step (slot_op_of o) (H, m.2).

(** What others wait for, and the calls that wait: on a mutex, on a channel to be closed. *)
Definition duty (h : handle) : bool :=
  match h with HLock _ | HChan _ => true | _ => false end.

Definition waits (o : obs sysE) : bool :=
  match o with
  | @Obs _ X e x => match e with EResLock _ | EChanRecv _ => true | _ => false end
  end.

(** Who has a duty does not wait. *)
Definition own_step_of (m : ostate) (o : obs sysE) : option ostate :=
  if waits o && existsb duty m.1 then None else own_next m o.

Lemma own_step_next m o m' : own_step_of m o = Some m' → own_next m o = Some m'.
Proof. unfold own_step_of. by destruct (waits o && existsb duty m.1). Qed.

Fixpoint acquired (ops : list own_op) : list handle :=
  match ops with
  | [] => []
  | OAcquire h :: ops => h :: acquired ops
  | ORelease _ :: ops => acquired ops
  end.

(** What an answer may be: [close] of what is open succeeds. *)
Definition own_legal (m : ostate) (o : obs sysE) : Prop :=
  match closing_of o with Some (h, fresh) => h ∈ m.1 → fresh = true | None => True end.

(** The field a goroutine knows is one whose resource it has locked. *)
Definition slot_locked (m : ostate) : Prop :=
  match m.2 with Some (name, _) => HLock name ∈ m.1 | None => True end.

(** [leak] are the handles a goroutine may leave open when it ends, and [ok] the panics it
    may end with. *)
Definition owner (leak : handle → bool) (ok : string → Prop) : monitor sysE ostate := {|
  mon_step := own_step_of;
  mon_legal := own_legal;
  mon_split m mc mk :=
    m.1 ≡ₚ mc.1 ++ mk.1 ∧ mc.2 = None ∧ mk.2 = m.2 ∧ slot_locked mk;
  mon_final m := m.2 = None ∧ forallb leak m.1 = true;
  mon_panic _ := ok
|}.

Definition no_leak (h : handle) : bool := false.

(** * The shared state: what is open, and the fields of the resources *)

Definition shared_mem : Type := list handle * gmap string svcref.

Definition sem_op (opens : list handle) (op : own_op) : list handle :=
  match op with
  | OAcquire h => h :: opens
  | ORelease h => default opens (release h opens)
  end.

(** Opening answers with a fresh handle, closing removes it, locking waits for the mutex,
    receiving from a channel that is only ever closed waits for that. *)
Definition own_sem (s : shared_mem) (o : obs sysE) (s' : shared_mem) : Prop :=
  Forall (λ h, h ∉ s.1) (acquired (own_ops o)) ∧
  s'.1 = foldl sem_op s.1 (own_ops o) ∧
  match closing_of o with Some (h, fresh) => fresh = bool_decide (h ∈ s.1) | None => True end ∧
  match slot_op_of o with
  | Some (SGet name v) => v = s.2 !! name ∧ s'.2 = s.2
  | Some (SSet name v) => s'.2 = partial_alter (λ _, v) name s.2
  | _ => s'.2 = s.2
  end ∧
  match o with
  | @Obs _ X e x => match e with EChanRecv c => HChan c ∉ s.1 | _ => True end
  end.

(** A machine that keeps to [own_sem]: handles are numbered, a call that would block is
    refused, [script] answers the rest, and where it does not, every call succeeds. *)
Definition fresh (opens : list handle) : nat :=
  S (foldr (λ h n, match h with
                   | HListener m | HConn m | HSSH m | HChan m | HSvc m => m `max` n
                   | HLock _ => n
                   end) 0 opens).

Definition own_answer (script : ∀ X, sysE X → option X) (s : shared_mem) (X : Type)
  (e : sysE X) : option X :=
  let n := fresh s.1 in
  match e in sysE Y return option Y → option Y with
  | EListen _ _ | EListenTCP _ _ =>
      λ a, match a with Some (Err err) => Some (Err err) | _ => Some (Ok n) end
  | EDial _ _ | EAccept _ | ESSHConnDial _ _ _ =>
      λ a, match a with Some (Err err) => Some (Err err) | _ => Some (Ok n) end
  | ESSHDial _ _ _ _ =>
      λ a, match a with Some (Err err) => Some (Err err) | _ => Some (Ok n) end
  | EChanMake => λ _, Some n
  | EFwdStart _ _ _ _ _ _ => λ _, Some n
  | EResLock name => λ _, if decide (HLock name ∈ s.1) then None else Some tt
  | EChanClose c => λ _, Some (bool_decide (HChan c ∈ s.1))
  | EFwdClose v => λ _, Some (bool_decide (HSvc v ∈ s.1))
  | EResGetFwdsvc name => λ _, Some (s.2 !! name)
  | EChanRecv c => λ _, if decide (HChan c ∈ s.1) then None else Some tt
  | e => λ a, Some (match a with Some x => x | None => quiet e end)
  end (script X e).

Definition own_machine (script : ∀ X, sysE X → option X) (s : shared_mem) (X : Type)
  (e : sysE X) : option (X * shared_mem) :=
  x ← own_answer script s X e;
  let o := Obs e x in
  Some (x, (foldl sem_op s.1 (own_ops o),
            match slot_op_of o with
            | Some (SSet name v) => partial_alter (λ _, v) name s.2
            | _ => s.2
            end)).

(** * Laws *)

Lemma fresh_above opens h :
  h ∈ opens →
  match h with
  | HListener m | HConn m | HSSH m | HChan m | HSvc m => m < fresh opens
  | HLock _ => True
  end.
Proof.
  intros Hh. unfold fresh. induction Hh as [h opens|h h' opens Hh IH].
  - destruct h; simpl; lia.
  - destruct h, h'; simpl in *; lia.
Qed.

(** The machine is one of the environments [own_sem] describes. *)
Lemma own_machine_sem script s X (e : sysE X) x s' :
  own_machine script s X e = Some (x, s') → own_sem s (Obs e x) s'.
Proof.
  unfold own_machine, own_sem.
  destruct (own_answer script s X e) as [y|] eqn:E; simpl; [|done].
  intros Heq. simplify_eq. simpl.
  assert (Hf : ∀ h, h ∈ s.1 → match h with
    | HListener m | HConn m | HSSH m | HChan m | HSvc m => m ≠ fresh s.1
    | HLock _ => True end).
  { intros h Hh. pose proof (fresh_above _ _ Hh). destruct h; lia || done. }
  unfold own_answer in E. destruct e; simpl in *; repeat case_match; simplify_eq; simpl;
    repeat split; try done; try (constructor; [|constructor]); try done;
    intros Hin; exact (Hf _ Hin eq_refl).
Qed.

Lemma release_Permutation h H H' : release h H = Some H' → H ≡ₚ h :: H'.
Proof.
  revert H'. induction H as [|h' H IH]; intros H'; simpl; [done|].
  case_decide as Hh; [intros [= <-]; by subst|].
  destruct (release h H) as [H1|]; simpl; [|done]. intros [= <-].
  rewrite (IH H1 eq_refl). constructor.
Qed.

Lemma release_elem h H : h ∈ H → ∃ H', release h H = Some H'.
Proof.
  induction H as [|h' H IH]; [by intros ?%not_elem_of_nil|].
  intros Hh. simpl. case_decide as Hd; [by eexists|].
  apply elem_of_cons in Hh as [?|Hh]; [done|]. destruct (IH Hh) as [H' ->]. by eexists.
Qed.

(** The calls of one goroutine move what is open as the goroutine believes. *)
Lemma ops_sound ops opens H H' rest :
  NoDup opens → opens ≡ₚ H ++ rest → NoDup (acquired ops) →
  Forall (λ h, h ∉ opens) (acquired ops) → apply_ops ops H = Some H' →
  NoDup (foldl sem_op opens ops) ∧ foldl sem_op opens ops ≡ₚ H' ++ rest.
Proof.
  revert opens H. induction ops as [|[h|h] ops IH]; simpl; intros opens H Hnd Hp Hna Hf Hap.
  - by injection Hap as <-.
  - apply Forall_cons in Hf as [Hh Hf]. apply NoDup_cons in Hna as [Hha Hna].
    apply (IH _ (h :: H)); [by apply NoDup_cons_2|by rewrite Hp|done| |done].
    apply Forall_lookup. intros i h' Hi. rewrite Forall_lookup in Hf.
    apply not_elem_of_cons. split; [|by eapply Hf]. intros ->.
    by apply Hha, list_elem_of_lookup_2 with i.
  - destruct (release h H) as [H1|] eqn:Hr; [|done]. simpl in Hap.
    pose proof (release_Permutation _ _ _ Hr) as Hp1.
    destruct (release_elem h opens) as [o1 Ho1]; [rewrite Hp, Hp1; by left|].
    pose proof (release_Permutation _ _ _ Ho1) as Hp2. rewrite Ho1. simpl.
    assert (Hnd1 : NoDup (h :: o1)) by (by rewrite <-Hp2). apply NoDup_cons in Hnd1 as [_ Hnd1].
    apply (IH _ H1); [done| |done| |done].
    + apply (Permutation_cons_inv (a := h)). by rewrite <-Hp2, Hp, Hp1.
    + eapply Forall_impl; [exact Hf|]. intros h' Hh' Hin. apply Hh'. rewrite Hp2. by right.
Qed.

Lemma own_ops_NoDup o : NoDup (acquired (own_ops o)).
Proof.
  destruct o as [X e x]. destruct e; simpl; try constructor; try apply not_elem_of_nil;
    try constructor; destruct x; simpl; repeat constructor; apply not_elem_of_nil.
Qed.

Lemma apply_ops_keeps ops H H' h :
  apply_ops ops H = Some H' → h ∈ H → ORelease h ∉ ops → h ∈ H'.
Proof.
  revert H. induction ops as [|[h'|h'] ops IH]; simpl; intros H Hap Hh Hn.
  - by injection Hap as <-.
  - apply not_elem_of_cons in Hn as [_ Hn]. apply (IH _ Hap); [by right|done].
  - apply not_elem_of_cons in Hn as [Hd Hn].
    destruct (release h' H) as [H1|] eqn:Hr; [|done]. simpl in Hap.
    apply (IH _ Hap); [|done]. apply release_Permutation in Hr. rewrite Hr in Hh.
    apply elem_of_cons in Hh as [->|Hh]; [by destruct Hd|done].
Qed.

Lemma own_ops_lock o name :
  ORelease (HLock name) ∈ own_ops o → slot_op_of o = Some (SUnlock name).
Proof.
  destruct o as [X e x]. destruct e; simpl; try destruct x; simpl;
    rewrite ?elem_of_cons; intros Hin;
    repeat match goal with
    | H : _ ∨ _ |- _ => destruct H
    | H : _ ∈ [] |- _ => by apply not_elem_of_nil in H
    end; congruence.
Qed.

Lemma slot_ops_none o name v :
  slot_op_of o = Some (SGet name v) ∨ slot_op_of o = Some (SSet name v) → own_ops o = [].
Proof. destruct o as [X e x]. destruct e; simpl; intros []; congruence || done. Qed.

Lemma slot_unlock_ops o name :
  slot_op_of o = Some (SUnlock name) → own_ops o = [ORelease (HLock name)].
Proof. destruct o as [X e x]. destruct e; simpl; congruence. Qed.

(** * Soundness *)

Lemma concat_insert {A} (ls : list (list A)) i l :
  ls !! i = Some l →
  ∃ rest, concat ls ≡ₚ l ++ rest ∧ ∀ l', concat (<[i := l']> ls) ≡ₚ l' ++ rest.
Proof.
  intros Hi. exists (concat (take i ls) ++ concat (drop (S i) ls)).
  pose proof (lookup_lt_Some _ _ _ Hi).
  assert (Hc : ∀ x, concat (take i ls ++ x :: drop (S i) ls) ≡ₚ
                    x ++ concat (take i ls) ++ concat (drop (S i) ls)).
  { intros x. rewrite concat_app. simpl. apply Permutation_app_swap_app. }
  split; [|by intros l'; rewrite insert_take_drop, Hc].
  rewrite <-Hc. by rewrite (take_drop_middle ls i l Hi).
Qed.

Definition in_slots (F : gmap string svcref) : list handle := HSvc <$> (map_to_list F).*2.

Lemma in_slots_insert F name s :
  F !! name = None → in_slots (<[name := s]> F) ≡ₚ HSvc s :: in_slots F.
Proof. intros Hn. unfold in_slots. by rewrite (map_to_list_insert F name s Hn). Qed.

(** The goroutine [i] knows the value [v] of the field of [name]. *)
Definition knows (ms : list ostate) (i : nat) (name : string) (v : option svcref) : Prop :=
  ∃ m : ostate, ms !! i = Some m ∧ m.2 = Some (name, v).

(** The invariant: what is open is what the goroutines own and what is in the fields that no
    goroutine is working on ([F]), each handle once. *)
Record owned_by (s : shared_mem) (ms : list ostate) (F : gmap string svcref) : Prop := {
  ow_nodup : NoDup s.1;
  ow_open : s.1 ≡ₚ concat ms.*1 ++ in_slots F;
  ow_lock i name v : knows ms i name v → ∃ m : ostate, ms !! i = Some m ∧ HLock name ∈ m.1;
  ow_val i name v : knows ms i name v → s.2 !! name = v ∧ F !! name = None;
  ow_rest name : (∀ i v, ¬ knows ms i name v) → F !! name = s.2 !! name
}.

Definition owned (s : shared_mem) (ms : list ostate) : Prop := ∃ F, owned_by s ms F.

Lemma hs_lookup (ms : list ostate) i m : ms !! i = Some m → ms.*1 !! i = Some m.1.
Proof.
  revert i. induction ms as [|m' ms IH]; intros [|i]; simpl; [done..| |apply IH].
  by intros [= ->].
Qed.

Lemma owned_elem s ms i m h : owned s ms → ms !! i = Some m → h ∈ m.1 → h ∈ s.1.
Proof.
  intros (F & [Hnd Hs _ _ _]) Hi Hh. rewrite Hs. apply elem_of_app. left.
  destruct (concat_insert ms.*1 i m.1) as (rest & Hc & _).
  { by apply hs_lookup. }
  rewrite Hc. apply elem_of_app. by left.
Qed.

(** A mutex has one owner. *)
Lemma lock_unique s ms i j m m' name :
  owned s ms → ms !! i = Some m → ms !! j = Some m' →
  HLock name ∈ m.1 → HLock name ∈ m'.1 → i = j.
Proof.
  intros (F & [Hnd Hs _ _ _]) Hi Hj Hm Hm'. destruct (decide (i = j)) as [|Hij]; [done|].
  exfalso. destruct (concat_insert ms.*1 i m.1) as (rest & Hc & Hc').
  { by apply hs_lookup. }
  assert (Hr : HLock name ∈ rest).
  { destruct (concat_insert (<[i := []]> ms.*1) j m'.1) as (rest' & Hd & _).
    { rewrite list_lookup_insert_ne by done. by apply hs_lookup. }
    specialize (Hc' []). simpl in Hc'. rewrite <-Hc', Hd. apply elem_of_app. by left. }
  rewrite Hs, Hc, <-app_assoc in Hnd. apply NoDup_app in Hnd as (_ & Hd & _).
  apply (Hd _ Hm), elem_of_app. by left.
Qed.

Section owner_laws.
Context (leak : handle → bool) (ok : string → Prop).

Lemma owned_legal s ms i m o s' :
  owned s ms → ms !! i = Some m → own_sem s o s' → own_legal m o.
Proof.
  intros Ho Hi (_ & _ & Hc & _). pose proof (owned_elem s ms i m) as Hel. unfold own_legal.
  destruct (closing_of o) as [[h fr]|]; [|done]. subst. intros Hh.
  apply bool_decide_eq_true. eauto.
Qed.

Lemma knows_insert ms i m j name v :
  i < length ms → knows (<[i := m]> ms) j name v →
  (j = i ∧ m.2 = Some (name, v)) ∨ (j ≠ i ∧ knows ms j name v).
Proof.
  intros Hl (m1 & Hj & Hm). apply list_lookup_insert_Some in Hj as [(-> & -> & _)|[Hn Hj]].
  - by left.
  - right. split; [done|]. by exists m1.
Qed.

Lemma knows_insert_ne ms i m j name v :
  j ≠ i → knows ms j name v → knows (<[i := m]> ms) j name v.
Proof. intros Hn (m1 & Hj & Hm). exists m1. by rewrite list_lookup_insert_ne. Qed.

Lemma others_know_not s ms i m j name v :
  owned s ms → ms !! i = Some m → HLock name ∈ m.1 → j ≠ i → ¬ knows ms j name v.
Proof.
  intros Ho Hi Hm Hj Hk. pose proof Ho as (F & [_ _ Hl _ _]).
  destruct (Hl _ _ _ Hk) as (m' & Hj' & Hm'). by destruct Hj, (lock_unique s ms j i m' m name).
Qed.

(** How the invariant moves with a step of the goroutine [i]. *)
Lemma owned_update s ms F i m s' m' F' rest :
  owned_by s ms F → ms !! i = Some m →
  (∀ l, concat (<[i := l]> ms.*1) ≡ₚ l ++ rest) →
  NoDup s'.1 → s'.1 ≡ₚ m'.1 ++ rest ++ in_slots F' →
  (∀ name v, m'.2 = Some (name, v) →
     HLock name ∈ m'.1 ∧ s'.2 !! name = v ∧ F' !! name = None) →
  (∀ j name v, j ≠ i → knows ms j name v → s'.2 !! name = s.2 !! name ∧ F' !! name = None) →
  (∀ name, (∀ j v, j ≠ i → ¬ knows ms j name v) → (∀ v, m'.2 ≠ Some (name, v)) →
     F' !! name = s'.2 !! name) →
  owned s' (<[i := m']> ms).
Proof.
  intros [_ _ Hl Hv _] Hi Hrest Hnd Hp Hown Hoth Hfree. exists F'.
  pose proof (lookup_lt_Some _ _ _ Hi) as Hlen. split; [done| | | |].
  - rewrite list_fmap_insert, Hrest. by rewrite Hp, app_assoc.
  - intros j name v Hk. destruct (knows_insert _ _ _ _ _ _ Hlen Hk) as [[-> Hm]|[Hj Hk']].
    + exists m'. rewrite list_lookup_insert_eq by done. by destruct (Hown _ _ Hm).
    + destruct (Hl _ _ _ Hk') as (m1 & Hm1 & Hin). exists m1.
      by rewrite list_lookup_insert_ne.
  - intros j name v Hk. destruct (knows_insert _ _ _ _ _ _ Hlen Hk) as [[-> Hm]|[Hj Hk']].
    + by destruct (Hown _ _ Hm) as (_ & ? & ?).
    + destruct (Hoth _ _ _ Hj Hk') as [-> ?], (Hv _ _ _ Hk'). done.
  - intros name Hn. apply Hfree.
    + intros j v Hj Hk. by apply (Hn j v), knows_insert_ne.
    + intros v Hm. apply (Hn i v). exists m'. by rewrite list_lookup_insert_eq.
Qed.

Lemma owned_step s ms i m o s' m' :
  owned s ms → ms !! i = Some m → own_sem s o s' →
  mon_step (owner leak ok) m o = Some m' → owned s' (<[i := m']> ms).
Proof.
  intros Ho Hi (Hfresh & Hopen & _ & Hslot & _) Hst. pose proof Ho as (F & HF).
  pose proof (others_know_not s ms i m) as Hnot.
  destruct (concat_insert ms.*1 i m.1 (hs_lookup _ _ _ Hi)) as (rest & Hc & Hrest).
  apply own_step_next in Hst. unfold own_next in Hst.
  destruct (apply_ops (own_ops o) m.1) as [H1|] eqn:Hops; [|done]. simpl in Hst.
  assert (NoDup s'.1 ∧ s'.1 ≡ₚ H1 ++ rest ++ in_slots F) as [Hnd Hp].
  { rewrite Hopen. destruct HF as [Hnd Hp _ _ _].
    eapply ops_sound; [done| |apply own_ops_NoDup|done|done].
    by rewrite Hp, Hc, app_assoc. }
  assert (Hmine : ∀ name v, m.2 = Some (name, v) →
            HLock name ∈ m.1 ∧ s.2 !! name = v ∧ F !! name = None).
  { intros name v Hm. destruct HF as [_ _ Hl Hv _].
    assert (Hk : knows ms i name v) by (by exists m).
    destruct (Hl _ _ _ Hk) as (m1 & Hm1 & Hin). simplify_eq. split; [done|exact (Hv _ _ _ Hk)]. }
  assert (Hsame : m' = (H1, m.2) → s'.2 = s.2 →
            (∀ name, slot_op_of o = Some (SUnlock name) → m.2 = None) →
            owned s' (<[i := m']> ms)).
  { intros -> Hs2 Hul. apply (owned_update s ms F i m s' (H1, m.2) F rest HF Hi Hrest Hnd Hp);
      rewrite Hs2; simpl.
    - intros name v Hm. destruct (Hmine _ _ Hm) as (Hin & ? & ?). split; [|done].
      eapply apply_ops_keeps; [done..|]. intros Hr%own_ops_lock. by rewrite (Hul _ Hr) in Hm.
    - intros j name v _ Hk. split; [done|]. destruct HF as [_ _ _ Hv _]. by destruct (Hv _ _ _ Hk).
    - intros name Hn Hm. destruct HF as [_ _ _ _ Hr]. apply Hr. intros j v Hk.
      destruct (decide (j = i)) as [->|Hj]; [|by eapply Hn].
      destruct Hk as (m1 & Hm1 & Hk). simplify_eq. by eapply Hm. }
  destruct (slot_op_of o) as [[name v|name v|name]|] eqn:Eo; simpl in Hst.
  - assert (H1 = m.1) as ->.
    { rewrite (slot_ops_none o name v) in Hops by auto. by injection Hops as <-. }
    destruct Hslot as [-> Hs2].
    assert (Hkeep : Some (m.1, m.2) = Some m' → owned s' (<[i := m']> ms)).
    { intros [= <-]. by apply Hsame. }
    destruct (m.2) as [|] eqn:Em2; [by apply Hkeep|]. case_decide as Hin; [|by apply Hkeep].
    clear Hkeep Hsame. injection Hst as <-.
    assert (HFn : F !! name = s.2 !! name).
    { destruct HF as [_ _ _ _ Hr]. apply Hr. intros j v Hk.
      destruct (decide (j = i)) as [->|Hj]; [|by eapply Hnot].
      destruct Hk as (m1 & Hm1 & Hk). simplify_eq. }
    apply (owned_update s ms F i m s' _ (delete name F) rest HF Hi Hrest Hnd);
      rewrite ?Hs2; simpl.
    + rewrite Hp. destruct (s.2 !! name) as [sv|] eqn:Es.
      * rewrite <-(insert_delete_id F name sv) at 1 by done.
        rewrite in_slots_insert by apply lookup_delete_eq.
        simpl. rewrite app_assoc, <-Permutation_middle, <-app_assoc. done.
      * by rewrite delete_id.
    + intros name' v' [= <- <-]. split; [|by rewrite lookup_delete_eq].
      destruct (s.2 !! name); [by right|done].
    + intros j name' v' Hj Hk. split; [done|]. destruct HF as [_ _ _ Hv _].
      apply lookup_delete_None. right. by destruct (Hv _ _ _ Hk).
    + intros name' Hn Hm. rewrite lookup_delete_ne by (intros <-; by eapply Hm).
      destruct HF as [_ _ _ _ Hr]. apply Hr. intros j v' Hk.
      destruct (decide (j = i)) as [->|Hj]; [|by eapply Hn].
      destruct Hk as (m1 & Hm1 & Hk). simplify_eq.
  - assert (H1 = m.1) as ->.
    { rewrite (slot_ops_none o name v) in Hops by auto. by injection Hops as <-. }
    destruct (m.2) as [[n w]|] eqn:Em2; [|done]. case_decide as Hn; [|done]. subst n.
    injection Hst as <-. destruct (Hmine _ _ eq_refl) as (Hin & Hw & HFn).
    apply (owned_update s ms F i m s' (m.1, Some (name, v)) F rest HF Hi Hrest Hnd Hp);
      rewrite Hslot; simpl.
    + intros name' v' [= <- <-]. by rewrite lookup_partial_alter_eq.
    + intros j name' v' Hj Hk. destruct HF as [_ _ _ Hv _].
      split; [|by destruct (Hv _ _ _ Hk)].
      rewrite lookup_partial_alter_ne; [done|]. intros <-. by eapply Hnot.
    + intros name' Hn Hm. rewrite lookup_partial_alter_ne by (intros <-; by eapply Hm).
      destruct HF as [_ _ _ _ Hr]. apply Hr. intros j v' Hk.
      destruct (decide (j = i)) as [->|Hj]; [|by eapply Hn].
      destruct Hk as (m1 & Hm1 & Hk). simplify_eq. by eapply Hm.
  - destruct (m.2) as [[n w]|] eqn:Em2; [|injection Hst as <-; by apply Hsame].
    destruct (Hmine _ _ eq_refl) as (Hin & Hw & HFn). clear Hsame.
    assert (Hfr : ∀ (m' : ostate) F', s'.1 ≡ₚ m'.1 ++ rest ++ in_slots F' → m'.2 = None →
              F' !! n = w → (∀ n', n' ≠ n → F' !! n' = F !! n') →
              owned s' (<[i := m']> ms)).
    { intros m1 F' Hp' Hm1 Hw' HF'.
      apply (owned_update s ms F i m s' m1 F' rest HF Hi Hrest Hnd Hp'); rewrite Hslot.
      - by rewrite Hm1.
      - intros j name' v' Hj Hk. split; [done|].
        rewrite HF'; [destruct HF as [_ _ _ Hv _]; by destruct (Hv _ _ _ Hk)|].
        intros ->. by eapply Hnot.
      - intros name' Hn _. destruct (decide (name' = n)) as [->|Hd]; [by rewrite Hw'|].
        rewrite HF' by done. destruct HF as [_ _ _ _ Hr]. apply Hr. intros j v' Hk.
        destruct (decide (j = i)) as [->|Hj]; [|by eapply Hn].
        destruct Hk as (m2 & Hm2 & Hk). simplify_eq. }
    destruct w as [sv|]; (case_decide; [|done]); subst n.
    + destruct (release (HSvc sv) H1) as [H2|] eqn:Hr; [|done]. injection Hst as <-.
      apply (Hfr _ (<[name := sv]> F)); simpl; [|done|apply lookup_insert_eq|].
      * rewrite in_slots_insert by done. rewrite Hp. apply release_Permutation in Hr.
        rewrite Hr. simpl. rewrite !app_assoc. apply Permutation_middle.
      * intros n' Hn'. by rewrite lookup_insert_ne.
    + injection Hst as <-. by apply (Hfr _ F).
  - injection Hst as <-. by apply Hsame.
Qed.

Lemma owned_split s ms i m mc mk :
  owned s ms → ms !! i = Some m → mon_split (owner leak ok) m mc mk →
  owned s (<[i := mk]> ms ++ [mc]).
Proof.
  intros (F & [Hnd Hp Hl Hv Hr]) Hi (Hsp & Hmc & Hmk & Hlk). exists F.
  pose proof (lookup_lt_Some _ _ _ Hi) as Hlen.
  destruct (concat_insert ms.*1 i m.1 (hs_lookup _ _ _ Hi)) as (rest & Hc & Hrest).
  assert (Hk : ∀ j name v, knows (<[i := mk]> ms ++ [mc]) j name v ↔ knows ms j name v).
  { intros j name v. split.
    - intros (m1 & Hj & Hm1). apply lookup_app_Some in Hj as [Hj|[_ Hj]].
      + apply list_lookup_insert_Some in Hj as [(<- & <- & _)|[_ Hj]];
          [exists m|exists m1]; by rewrite <-?Hmk.
      + apply list_lookup_singleton_Some in Hj as [_ <-]. by rewrite Hmc in Hm1.
    - intros (m1 & Hj & Hm1). destruct (decide (i = j)) as [<-|Hn].
      + exists mk. simplify_eq. rewrite lookup_app_l by by rewrite length_insert.
        by rewrite list_lookup_insert_eq, Hmk.
      + exists m1. split; [|done]. apply lookup_app_l_Some. by rewrite list_lookup_insert_ne. }
  split; [done| | | |].
  - rewrite fmap_app, list_fmap_insert, concat_app, Hrest. simpl.
    rewrite Hp, Hc, Hsp, app_nil_r. rewrite <-!app_assoc.
    rewrite (app_assoc mk.1 rest). rewrite (Permutation_app_comm mc.1).
    rewrite <-!app_assoc. do 2 apply Permutation_app_head. apply Permutation_app_comm.
  - intros j name v Hkj. apply Hk in Hkj. destruct (Hl _ _ _ Hkj) as (m1 & Hm1 & Hin).
    destruct (decide (i = j)) as [<-|Hn].
    + exists mk. rewrite lookup_app_l by by rewrite length_insert.
      rewrite list_lookup_insert_eq by done. split; [done|].
      destruct Hkj as (m2 & Hm2 & Hk2). simplify_eq. unfold slot_locked in Hlk.
      by rewrite Hmk, Hk2 in Hlk.
    + exists m1. split; [|done]. apply lookup_app_l_Some. by rewrite list_lookup_insert_ne.
  - intros j name v Hkj. apply (Hv j), Hk, Hkj.
  - intros name Hn. apply Hr. intros j v Hkj. by apply (Hn j v), Hk.
Qed.

(** What is left of a pool whose goroutines keep the discipline, whatever else they do. *)
Lemma owned_done {E : Type → Type} (mon : monitor E ostate) (ts : list (prog E unit)) ms
    opens slots :
  (∀ m, mon_final mon m → m.2 = None ∧ forallb leak m.1 = true) →
  (∀ m msg, mon_panic mon m msg → ok msg) →
  Forall2 (λ p m, respects mon p m (λ m' _, mon_final mon m')) ts ms →
  owned (opens, slots) ms →
  (∀ msg, Panic msg ∈ ts → ok msg) ∧
  (Forall (λ t, t = Ret tt) ts →
   ∃ leaked, opens ≡ₚ leaked ++ in_slots slots ∧ Forall (λ h, leak h = true) leaked).
Proof.
  intros Hfinal Hpanic Hts (F & [Hnd Hopens _ Hv Hrest]). simpl in *. split.
  - intros msg Hm. apply list_elem_of_lookup in Hm as [i Hi].
    destruct (Forall2_lookup_l _ _ _ _ _ Hts Hi) as (m & _ & Hm). by apply (Hpanic m).
  - intros Hall. rewrite Forall_lookup in Hall.
    assert (Hfin : ∀ i m, ms !! i = Some m → m.2 = None ∧ forallb leak m.1 = true).
    { intros i m Hi. destruct (Forall2_lookup_r _ _ _ _ _ Hts Hi) as (t & Ht & Hr').
      rewrite (Hall _ _ Ht) in Hr'. by apply Hfinal. }
    exists (concat ms.*1). split.
    + rewrite Hopens. f_equiv. unfold in_slots. replace F with slots; [done|].
      apply map_eq. intros name. symmetry. apply Hrest. intros i v (m & Hm & Hk).
      destruct (Hfin _ _ Hm). congruence.
    + apply Forall_concat, Forall_fmap, Forall_lookup. intros i m Hi.
      destruct (Hfin _ _ Hi) as [_ Hl]. apply Forall_lookup. intros j h Hh. simpl in *.
      rewrite forallb_forall in Hl. apply Hl, list_elem_of_In.
      by eapply list_elem_of_lookup_2.
Qed.

(** One goroutine with its handles. *)
Lemma owned_first H : NoDup H → owned (H, ∅) [(H, None)].
Proof.
  intros HH. exists ∅. split; simpl; [done|by rewrite !app_nil_r| | |done];
    intros i name v (m & Hm & Hk); apply list_lookup_singleton_Some in Hm as [_ <-]; done.
Qed.

(** The pool theorem for the discipline. *)
Lemma owner_sound (p : prog sysE unit) H ts opens slots :
  NoDup H →
  respects (owner leak ok) p (H, None) (λ m _, mon_final (owner leak ok) m) →
  rtc (pstep own_sem) ([p], (H, ∅)) (ts, (opens, slots)) →
  (∀ msg, Panic msg ∈ ts → ok msg) ∧
  (Forall (λ t, t = Ret tt) ts →
   ∃ leaked, opens ≡ₚ leaked ++ in_slots slots ∧ Forall (λ h, leak h = true) leaked).
Proof.
  intros HH Hp Hr.
  destruct (pool_sound (owner leak ok) own_sem owned owned_legal owned_step owned_split
              ([p], (H, ∅)) (ts, (opens, slots))) as (ms & Hts & Hms); [|done|].
  { exists [(H, None)]. split; [by repeat constructor|by apply owned_first]. }
  by apply (owned_done (owner leak ok) ts ms).
Qed.

End owner_laws.

Lemma Forall_no_leak opens : Forall (λ h, no_leak h = true) opens → opens = [].
Proof. destruct opens as [|h l]; [done|]. intros H. by apply Forall_cons in H as [? _]. Qed.

(** * Programs that open and close nothing *)

(** No effect of [p], or of a goroutine it starts, opens or closes anything or waits for
    other goroutines, and there is no panic. *)
Definition calm {A : Type} (p : prog sysE A) : Prop :=
  everywhere (λ o, own_ops o = [] ∧ slot_op_of o = None ∧ waits o = false) (λ _, False) p.

Lemma calm_bind {A B} (p : prog sysE A) (k : A → prog sysE B) :
  calm p → (∀ a, calm (k a)) → calm (bind p k).
Proof. apply everywhere_bind. Qed.

Create HintDb calm.

(** Proves [calm p]; parts with a lemma in [calm] are skipped. *)
Ltac solve_calm :=
  repeat (
    unfold LogErrorE, LogError, LogWarn, LogInfo, stacked, stacked_err, defer, defer_on;
    cbn [calm everywhere bind call go loop fst snd];
    match goal with
    | |- True => exact I
    | |- own_ops _ = [] => reflexivity
    | |- slot_op_of _ = None => reflexivity
    | |- waits _ = false => reflexivity
    | |- ∀ _, _ => intro
    | |- ?A ∧ ?B => split
    | |- calm _ => solve [eauto with calm nocore]
    | |- everywhere _ _ ?p => change (calm p)
    | |- calm (bind _ _) => apply calm_bind
    | |- calm (match ?x with _ => _ end) => destruct x
    end).

Lemma slot_locked_cons h H sl : slot_locked (H, sl) → slot_locked (h :: H, sl).
Proof. unfold slot_locked. simpl. destruct sl as [[name v]|]; [by right|done]. Qed.

Section owner_rules.
Context (leak : handle → bool) (ok : string → Prop).

Lemma calm_step m o :
  own_ops o = [] → slot_op_of o = None → waits o = false → own_step_of m o = Some m.
Proof. unfold own_step_of, own_next. intros -> -> ->. by destruct m. Qed.

Lemma own_calm {A} (p : prog sysE A) m (Q : ostate → A → Prop) :
  calm p → slot_locked m → (∀ a, Q m a) → respects (owner leak ok) p m Q.
Proof.
  revert m Q. unfold calm.
  induction p as [A a|A X e f IH|A S C body IHb s f IHf|A c IHc f IHf|A msg];
    intros m Q Hp Hlk HQ;
    cbn [everywhere respects mon_step mon_legal mon_split mon_final owner] in *;
    [by apply HQ| | | |done].
  - intros x _. destruct (Hp x) as [(He & He' & Hw) Hf]. rewrite (calm_step _ _ He He' Hw).
    by apply IH.
  - destruct Hp as [Hb Hf]. exists (λ _ m', m' = m). split; [done|]. intros s1 m1 ->.
    apply IHb; [done..|]. intros [s2|b]; [done|]. by apply IHf.
  - destruct Hp as [Hc Hf]. exists ([], None), m. split; [done|]. split; [|by apply IHf].
    by apply IHc.
Qed.

Lemma own_calm_bind {A B} (p : prog sysE A) (k : A → prog sysE B) m Q :
  calm p → slot_locked m → (∀ a, respects (owner leak ok) (k a) m Q) →
  respects (owner leak ok) (bind p k) m Q.
Proof. intros Hp Hl Hk. by apply respects_bind, own_calm. Qed.

Lemma own_chan_close c H H' sl (Q : ostate → () → Prop) :
  release (HChan c) H = Some H' → Q (H', sl) tt →
  respects (owner leak ok) (chan_close c) (H, sl) Q.
Proof.
  intros Hr HQ. simpl. intros x Hx. unfold own_legal, own_step_of, own_next. simpl in *. rewrite Hr. simpl.
  rewrite Hx; [done|]. apply release_Permutation in Hr. rewrite Hr. by left.
Qed.

Lemma own_chan_close_bind {A} c H H' sl (k : () → prog sysE A) Q :
  release (HChan c) H = Some H' → respects (owner leak ok) (k tt) (H', sl) Q →
  respects (owner leak ok) (bind (chan_close c) k) (H, sl) Q.
Proof. intros Hr Hk. by eapply respects_bind, own_chan_close. Qed.

Lemma own_poll `{K8sLibOk} interval timeout cond m (Q : ostate → option error → Prop) :
  calm cond → slot_locked m → (∀ r, Q m r) →
  respects (owner leak ok) (PollImmediate interval timeout cond) m Q.
Proof.
  intros Hc Hl HQ. eapply respects_mono;
    [apply (PollImmediate_rule _ (λ m', m' = m) (λ m', m' = m) (λ m', m' = m)); [done|]|].
  - intros m1 ->. apply own_calm; [done..|]. by intros [[]|].
  - intros m' [e|]; [intros [->| ->]|intros ->]; apply HQ.
Qed.

End owner_rules.

(** * Frame *)

(** What a goroutine owns besides, and does not touch. *)
Definition framed (R : list handle) (m : ostate) : ostate := (m.1 ++ R, m.2).

Lemma release_app h H H' R : release h H = Some H' → release h (H ++ R) = Some (H' ++ R).
Proof.
  revert H'. induction H as [|h' H IH]; intros H'; simpl; [done|].
  case_decide; [by intros [= <-]|]. destruct (release h H) as [H1|]; simpl; [|done].
  intros [= <-]. by rewrite (IH H1).
Qed.

Lemma apply_ops_app ops H H' R :
  apply_ops ops H = Some H' → apply_ops ops (H ++ R) = Some (H' ++ R).
Proof.
  revert H. induction ops as [|[h|h] ops IH]; simpl; intros H.
  - by intros [= <-].
  - apply (IH (h :: H)).
  - destruct (release h H) as [H1|] eqn:Hr; simpl; [|done].
    rewrite (release_app _ _ _ _ Hr). simpl. apply IH.
Qed.

Lemma slot_step_framed R so m m' :
  (∀ name, HLock name ∉ R) →
  slot_step so m = Some m' → slot_step so (framed R m) = Some (framed R m').
Proof.
  intros HR. unfold slot_step, framed. destruct m as [H sl]. simpl.
  destruct so as [[name v|name v|name]|]; [| | |by intros [= <-]].
  - destruct sl as [|]; [by intros [= <-]|]. case_decide as Hd.
    + intros [= <-]. rewrite decide_True by (apply elem_of_app; by left). by destruct v.
    + intros [= <-]. rewrite decide_False; [done|]. intros [?|?]%elem_of_app; [done|].
      by eapply HR.
  - destruct sl as [[n w]|]; [|done]. case_decide; [by intros [= <-]|done].
  - destruct sl as [[n [sv|]]|]; [| |by intros [= <-]]; (case_decide; [|done]);
      [|by intros [= <-]].
    destruct (release (HSvc sv) H) as [H1|] eqn:Hr; simpl; [|done]. intros [= <-].
    by rewrite (release_app _ _ _ _ Hr).
Qed.

(** Nobody waits for what is in [R]. *)
Definition idle_handles (R : list handle) : Prop := existsb duty R = false.

Lemma idle_no_lock R : idle_handles R → ∀ name, HLock name ∉ R.
Proof.
  unfold idle_handles. intros HR name Hin. apply list_elem_of_In in Hin.
  assert (existsb duty R = true) as Ht by (apply existsb_exists; by exists (HLock name)).
  congruence.
Qed.

Lemma own_step_framed R o m m' :
  idle_handles R →
  own_step_of m o = Some m' → own_step_of (framed R m) o = Some (framed R m').
Proof.
  intros HR. unfold own_step_of, own_next. simpl. rewrite existsb_app, HR, orb_false_r.
  destruct (waits o && existsb duty m.1); [done|]. destruct (apply_ops (own_ops o) m.1) as [H1|] eqn:Ho; [|done].
  simpl. rewrite (apply_ops_app _ _ _ _ Ho). simpl.
  intros Hs. apply (slot_step_framed R _ (H1, m.2)); [by apply idle_no_lock|done].
Qed.

Lemma own_legal_framed R o m : own_legal (framed R m) o → own_legal m o.
Proof.
  unfold own_legal, framed. simpl. intros Hc.
  destruct (closing_of o) as [[h fr]|]; [|done]. intros Hh. apply Hc, elem_of_app. by left.
Qed.

Lemma owner_frame leak ok R {A} (p : prog sysE A) m (Q : ostate → A → Prop) :
  idle_handles R →
  respects (owner leak ok) p m (λ m' a, Q (framed R m') a) →
  respects (owner leak ok) p (framed R m) Q.
Proof.
  intros HR. revert m Q.
  induction p as [A a|A X e f IH|A S C body IHb s f IHf|A c IHc f IHf|A msg];
    intros m Q Hp; [exact Hp| | | |exact Hp];
    cbn [respects mon_step mon_legal mon_split owner] in *.
  - intros x Hx%own_legal_framed. specialize (Hp x Hx).
    destruct (own_step_of m (Obs e x)) as [m1|] eqn:Hs; [|done].
    rewrite (own_step_framed R _ _ _ HR Hs). by apply IH.
  - destruct Hp as (I & HI & Hp). exists (λ t m', ∃ m1, m' = framed R m1 ∧ I t m1).
    split; [by exists m|]. intros t ? (m1 & -> & Hm1). apply IHb.
    eapply respects_mono; [by apply Hp|]. intros m2 [t2|b]; [by exists m2|].
    apply IHf.
  - destruct Hp as (mc & mk & (Hs & Hmc & Hmk & Hl) & Hc & Hk). exists mc, (framed R mk).
    split; [|split; [exact Hc|by apply IHf]].
    split; [by simpl; rewrite Hs, app_assoc|]. split; [done|]. split; [done|].
    unfold slot_locked, framed in *. simpl. destruct mk.2 as [[name v]|]; [|done].
    apply elem_of_app. by left.
Qed.

(** Computes [release h H] when [h] is in the list [H]. *)
Ltac solve_release :=
  cbn [release];
  repeat (first [ rewrite decide_True by reflexivity
                | rewrite decide_False by congruence ]; cbn [fmap option_fmap option_map]);
  reflexivity.

(** A field that is known is locked. *)
Ltac solve_locked :=
  first [ exact I | assumption | by repeat apply slot_locked_cons
        | unfold slot_locked; cbn [fst snd]; first [exact I | assumption | set_solver] ].

(** One step under the ownership monitor. *)
Ltac own_step :=
  match goal with
  | |- True => exact I
  | |- true = true => reflexivity
  | |- context [(?m.1, ?m.2)] => rewrite <-(surjective_pairing m)
  | |- None = None => reflexivity
  | |- None = None ∧ _ => split; [reflexivity|]
  | |- respects _ (bind (chan_close _) _) _ _ => eapply own_chan_close_bind; [solve_release|]
  | |- respects _ (chan_close _) _ _ => eapply own_chan_close; [solve_release|]
  | |- ∀ x, own_legal _ _ → _ => intros ? _
  | |- respects _ (bind _ _) _ _ =>
      apply own_calm_bind; [solve [eauto with calm nocore]|solve_locked|intro]
  | |- respects _ (bind (bind _ _) _) _ _ => apply respects_bind
  | |- respects _ (bind (match ?x with _ => _ end) _) _ _ => destruct x eqn:?
  | |- respects _ (match ?x with _ => _ end) _ _ => destruct x eqn:?
  | |- context [release ?h ?H] =>
      let r := fresh in
      evar (r : list handle); let r' := eval unfold r in r in
      replace (release h H) with (Some r') by (symmetry; solve_release); subst r
  | |- context [decide (?x = ?x)] => rewrite (decide_True (P := x = x)) by reflexivity
  | |- context [decide (?h ∈ ?H)] => rewrite (decide_True (P := h ∈ H)) by set_solver
  | |- match match match ?y with _ => _ end with _ => _ end with _ => _ end => destruct y eqn:?
  | |- match match ?y with _ => _ end with _ => _ end => destruct y eqn:?
  | |- match apply_ops (match ?y with _ => _ end) _ ≫= _ with _ => _ end => destruct y eqn:?
  | |- respects _ _ _ _ =>
      apply own_calm; [solve [eauto with calm nocore]|solve_locked|intro]
  end.

Ltac own :=
  repeat (
    unfold LogErrorE, LogError, LogWarn, LogInfo, stacked, stacked_err, ln_close,
      conn_close, defer, defer_on;
    cbn [respects bind call go loop mon_step mon_legal mon_split mon_final mon_panic
         owner own_step_of own_next waits duty existsb andb orb own_ops slot_op_of slot_step apply_ops mbind option_bind
         fst snd forallb];
    try own_step).

(** A [go] statement: [Hc] goes to the new goroutine, [Hk] stays. *)
Ltac own_go Hc Hk :=
  exists (Hc, None), (Hk, None);
  split;
  [ split;
    [ cbn [fst]; first [reflexivity | simpl; solve_Permutation | apply Permutation_app_comm]
    | repeat split ]
  | split ].

Ltac own_go_locked Hc Hk sl :=
  exists (Hc, None), (Hk, sl);
  split;
  [ split;
    [ cbn [fst]; first [reflexivity | simpl; solve_Permutation | apply Permutation_app_comm]
    | split; [reflexivity|split; [reflexivity|solve_locked]] ]
  | split ].
