(* ===== verification/RestoreProofs.v ===== *)
(** What [LM_Restore.exec] does, in every run: the forwarding window, the protocol with
    the dump service, and the release of what it opens. *)
From S2P Require Import Prelude Go Errors Types Sys LineIO HostConf Kube KubeExec.
From S2P Require Import LiveMigration Ownership.
Import Restore.
#[local] Open Scope go_scope.

(** * The calls on a ForwarderService *)

Inductive fwd_op :=
| FStart (clientAddr serverAddr : TCPAddr) (isExtHost : bool) (dataRate : Z) (s : svcref)
| FSuspend (s : svcref)
| FCloseAll (s : svcref)
| FChangeServerAddr (s : svcref) (a : TCPAddr)
| FChangeDataRate (s : svcref) (n : Z)
| FResume (s : svcref)
| FClose (s : svcref).

Definition fwd_op_of (o : obs sysE) : option fwd_op :=
  match o with
  | @Obs _ X e x =>
      match e in sysE Y return Y → option fwd_op with
      | EFwdStart _ _ ca sa ext dr => λ s, Some (FStart ca sa ext dr s)
      | EFwdSuspend s => λ _, Some (FSuspend s)
      | EFwdCloseAll s => λ _, Some (FCloseAll s)
      | EFwdChangeServerAddr s a => λ _, Some (FChangeServerAddr s a)
      | EFwdChangeDataRate s n => λ _, Some (FChangeDataRate s n)
      | EFwdResume s => λ _, Some (FResume s)
      | EFwdClose s => λ _, Some (FClose s)
      | _ => λ _, None
      end x
  end.

(** * Writes to connections *)

Definition write_of (o : obs sysE) : option (conn * list byte) :=
  match o with
  | @Obs _ X e x => match e with EConnWrite c b => Some (c, b) | _ => None end
  end.

Section restore_lemmas.
Context `{PkgErrors, JsonLib}.

Lemma finalPhase_fwd legal p conn rc s l :
  Fwdsvc p = Some s →
  respects (collector fwd_op_of legal) (finalPhase p conn rc true) l (λ l' r,
    match r with
    | Ok _ => l' = l ++ [FChangeServerAddr s (DstPodAddr p); FChangeDataRate s 0]
    | Err _ => l' = l
    end).
Proof.
  intros Hs. unfold finalPhase, on_ptr. rewrite Hs. run fwd_op_of;
    by rewrite <- ?app_assoc.
Qed.

Lemma exec_fwd legal p s :
  Fwdsvc p = Some s →
  respects (collector fwd_op_of legal) (exec p true) [] (λ l r,
    match r with
    | Ok _ => l = [FSuspend s; FCloseAll s; FChangeServerAddr s (DstPodAddr p);
                   FChangeDataRate s 0; FResume s]
    | Err _ => l = [] ∨ l = [FSuspend s; FCloseAll s; FResume s]
    end).
Proof.
  intros Hs. unfold exec, resumeListener, on_ptr. rewrite Hs. run fwd_op_of; auto.
  eapply respects_bind, respects_mono; [by apply finalPhase_fwd|].
  intros l' [r|e] ->; run fwd_op_of; auto.
Qed.

Lemma exec_nofwd legal p :
  respects (collector fwd_op_of legal) (exec p false) [] (λ l _, l = []).
Proof. unfold exec, finalPhase. run fwd_op_of; auto. Qed.

(** ** Writes *)

Lemma sendDumpServiceRequest_writes legal c req l :
  respects (collector write_of legal) (sendDumpServiceRequest c req) l
    (λ l' _, l' = l ++ [(c, [req])]).
Proof. unfold sendDumpServiceRequest. run write_of; done. Qed.

Lemma replicate_snoc {A} (x : A) itr :
  (0 ≤ itr)%Z → replicate (Z.to_nat itr) x ++ [x] = replicate (Z.to_nat (itr + 1)) x.
Proof. intros. by rewrite Z2Nat.inj_add, replicate_add by lia. Qed.

Lemma preDumps_writes legal c n l :
  respects (collector write_of legal) (preDumps c n) l (λ l' r,
    ∃ k, k ≤ Z.to_nat n ∧ l' = l ++ replicate k (c, [LM_MsgReqPreDump]) ∧
         (is_ok r = true → k = Z.to_nat n)).
Proof.
  apply (respects_loop _ (λ itr l', (0 ≤ itr)%Z ∧ Z.to_nat itr ≤ Z.to_nat n ∧
    l' = l ++ replicate (Z.to_nat itr) (c, [LM_MsgReqPreDump]))).
  { split; [done|]. split; [lia|]. by rewrite app_nil_r. }
  intros itr l1 (Hitr & Hle & ->). destruct (Z.ltb_spec itr n) as [Hn|Hn].
  - run write_of. apply respects_bind.
    eapply respects_mono; [apply sendDumpServiceRequest_writes|].
    intros l' r ->. rewrite <-app_assoc, replicate_snoc by lia.
    destruct r; cbn [respects].
    + split; [lia|]. split; [lia|done].
    + exists (Z.to_nat (itr + 1)). split; [lia|]. done.
  - cbn [respects]. exists (Z.to_nat itr). split; [done|]. split; [done|]. lia.
Qed.

Lemma sendDumpStartRequest_writes legal p breq l :
  MarshalRequest (dumpStartRequest p) = Ok breq →
  respects (collector write_of legal) (sendDumpStartRequest p) l (λ l' r,
    (l' = l ∧ is_ok r = false) ∨ ∃ c, l' = l ++ [(c, breq ++ [LF])]).
Proof.
  intros Hm. unfold sendDumpStartRequest. rewrite Hm. run write_of; eauto.
Qed.

(** What [exec] asks to be written, if nothing fails: the request for the dump service, to
    the source's API server, then the pre-dump requests and the final one, to the dump
    service. *)
Definition protocol_writes (p : LM_Restore) (breq : list byte) (api svc : conn)
  : list (conn * list byte) :=
  (api, breq ++ [LF]) ::
    replicate (Z.to_nat (iterations p)) (svc, [LM_MsgReqPreDump]) ++ [(svc, [LM_MsgReqDump])].

Lemma finalPhase_writes legal p c rc withFwd l :
  respects (collector write_of legal) (finalPhase p c rc withFwd) l
    (λ l' _, l' = l ++ [(c, [LM_MsgReqDump])]).
Proof.
  unfold finalPhase, on_ptr. run write_of. apply respects_bind.
  eapply respects_mono; [apply sendDumpServiceRequest_writes|].
  intros l' r ->. run write_of; done.
Qed.

Lemma protocol_prefix p breq api svc k :
  k ≤ Z.to_nat (iterations p) →
  (api, breq ++ [LF]) :: replicate k (svc, [LM_MsgReqPreDump])
    `prefix_of` protocol_writes p breq api svc.
Proof.
  intros Hk. apply prefix_cons, prefix_app_r.
  exists (replicate (Z.to_nat (iterations p) - k) (svc, [LM_MsgReqPreDump])).
  rewrite <-replicate_add. f_equal. lia.
Qed.

Lemma exec_writes legal p withFwd breq :
  MarshalRequest (dumpStartRequest p) = Ok breq →
  respects (collector write_of legal) (exec p withFwd) [] (λ l r,
    ∃ api svc, l `prefix_of` protocol_writes p breq api svc ∧
               (is_ok r = true → l = protocol_writes p breq api svc)).
Proof.
  intros Hm. unfold exec, resumeListener, on_ptr. run write_of;
    try (exists 0, 0; split; [apply prefix_nil|done]).
  after_bind sendDumpStartRequest_writes; [done|].
  intros l [resp|e] [[-> Hf]|[api ->]]; [done| | |];
    run write_of; try (exists 0, 0; split; [apply prefix_nil|done]);
    try (exists api, 0; split; [by apply (protocol_prefix _ _ _ _ 0); lia|done]).
  rename a2 into svc. apply respects_bind.
  eapply respects_mono; [apply preDumps_writes|].
  intros l [u|e] (k & Hk & -> & Hok); run write_of;
    try (exists api, svc; split; [by apply protocol_prefix|done]).
  all: after_bind finalPhase_writes;
    intros l r ->; specialize (Hok eq_refl); subst k; run write_of; by exists api, svc.
Qed.

(** ** Ownership *)

Lemma calm_ExecutePod cs cfg ns pod c stdin out err cmd :
  calm (ExecutePod cs cfg ns pod c stdin out err cmd).
Proof. unfold ExecutePod. solve_calm. Qed.
#[local] Hint Resolve calm_ExecutePod : calm.

Lemma calm_WritePodFile cs cfg ns pod c err path content perm :
  calm (WritePodFile cs cfg ns pod c err path content perm).
Proof. unfold WritePodFile. solve_calm. Qed.

Lemma calm_Readline c : calm (Readline c).
Proof. unfold Readline, Scan, scan_read. solve_calm. Qed.

Lemma calm_sendDumpServiceRequest c req : calm (sendDumpServiceRequest c req).
Proof. unfold sendDumpServiceRequest. solve_calm. Qed.
#[local] Hint Resolve calm_WritePodFile calm_Readline calm_sendDumpServiceRequest : calm.

Lemma calm_preDumps c n : calm (preDumps c n).
Proof. unfold preDumps. solve_calm. Qed.

Lemma calm_waitForResume c1 c2 : calm (waitForResume c1 c2).
Proof. unfold waitForResume. solve_calm. Qed.
#[local] Hint Resolve calm_preDumps calm_waitForResume : calm.

Lemma sendDumpStartRequest_owns leak ok p H1 sl
    (Q : ostate → result Response error → Prop) :
  slot_locked (H1, sl) → (∀ r, Q (H1, sl) r) →
  respects (owner leak ok) (sendDumpStartRequest p) (H1, sl) Q.
Proof.
  intros Hl HQ.   unfold sendDumpStartRequest. own; apply HQ.
Qed.

(** The forwarding service [exec] needs is there. *)
Definition has_service (p : LM_Restore) (withFwd : bool) : Prop :=
  withFwd = false ∨ Fwdsvc p ≠ None.

(** It is, or the missing one may be noticed. *)
Definition may_panic (ok : string → Prop) (p : LM_Restore) (withFwd : bool) : Prop :=
  has_service p withFwd ∨ ok nil_dereference.

Lemma finalPhase_owns leak ok p c rc withFwd H1 sl (Q : ostate → result unit error → Prop) :
  may_panic ok p withFwd → slot_locked (H1, sl) → (∀ r, Q (H1, sl) r) →
  respects (owner leak ok) (finalPhase p c rc withFwd) (H1, sl) Q.
Proof.
  intros Hs Hl HQ. unfold finalPhase, on_ptr. own; [|apply HQ].
  own_go_locked [HChan x1] H1 sl; own.
  own_go_locked (@nil handle) H1 sl; own; try apply HQ.
  by destruct Hs as [[|]|].
Qed.

Lemma resumeListener_owns leak ok ln c :
  respects (owner leak ok) (resumeListener ln c) ([HChan c], None)
    (λ m _, mon_final (owner leak ok) m).
Proof. unfold resumeListener. own; done. Qed.

Lemma calm_OpenKubePortForwardReady cfg ns pod lp pp stop :
  calm (OpenKubePortForwardReady cfg ns pod lp pp stop).
Proof. unfold OpenKubePortForwardReady, NewKubePortForward. solve_calm. Qed.
#[local] Hint Resolve calm_OpenKubePortForwardReady : calm.

Lemma exec_owns leak ok p withFwd H1 sl (Q : ostate → result unit error → Prop) :
  may_panic ok p withFwd → slot_locked (H1, sl) → (∀ r, Q (H1, sl) r) →
  respects (owner leak ok) (exec p withFwd) (H1, sl) Q.
Proof.
  intros Hs Hl HQ.
  unfold exec, on_ptr. own; try apply HQ.
  own_go_locked [HChan x1] (HListener a :: H1) sl; [apply resumeListener_owns|].
  own; try apply HQ.
  unbind. apply sendDumpStartRequest_owns; [solve_locked|].
  intros [resp|e]; own; try apply HQ.
  all: try (by destruct Hs as [[|]|]).
  all: unbind; apply finalPhase_owns; [done|solve_locked|]; intros r; own; apply HQ.
Qed.

End restore_lemmas.
#[export] Hint Resolve calm_ExecutePod calm_WritePodFile calm_Readline
  calm_sendDumpServiceRequest calm_preDumps calm_waitForResume
  calm_OpenKubePortForwardReady : calm.

(** * Time *)

(** A machine with a clock, in milliseconds: the resume signal is ready from [ready] on (if
    it ever comes), the timeout from [deadline] on, and when both are, [coin] picks. *)
Definition clock_machine (ready : option Z) (deadline : Z) (coin : Z → bool) (now : Z)
  (X : Type) (e : sysE X) : option (X * Z) :=
  match e in sysE Y return option (Y * Z) with
  | ESelect2 _ _ =>
      let resumed := match ready with Some t => (t <=? now)%Z | None => false end in
      let expired := (deadline <=? now)%Z in
      Some (match resumed, expired with
            | true, true => Some (coin now)
            | true, false => Some true
            | false, true => Some false
            | false, false => None
            end, now)
  | ESleep ms => Some (tt, (now + ms)%Z)
  | e => Some (quiet e, now)
  end.

(** The steps [waitForResume] is given to wait for [ms] milliseconds. *)
Definition wait_fuel (ms : Z) : nat := 3 * Z.to_nat (ms / 10 + 1) + 4.

(** The first moment, from [now] in steps of 10 ms, that is not before [t]. *)
Lemma waitForResume_clock rc tc ready deadline coin n now :
  (deadline - now ≤ 10 * Z.of_nat n)%Z →
  let run := interp (clock_machine ready deadline coin) (3 * n + 4) now
               (waitForResume rc tc) in
  run.2 = Ret tt ∧ (now ≤ run.1.2)%Z ∧ (run.1.2 < Z.max (now + 1) (deadline + 10))%Z ∧
  (∀ t, ready = Some t → run.1.2 < Z.max (now + 1) (t + 10))%Z.
Proof.
  revert now. induction n as [|n IH]; intros now Hn; cbv zeta.
  - assert ((deadline <=? now)%Z = true) as Hd by lia.
    simpl. rewrite Hd. destruct ready as [t|]; [destruct (Z.leb_spec t now)|];
      simpl; [destruct (coin now)| |]; simpl; (split; [done|]); (split; [lia|]);
      (split; [lia|]); intros t' [= <-]; lia.
  - replace (3 * S n + 4) with (S (S (S (3 * n + 4)))) by lia.
    set (fuel := 3 * n + 4) in *. simpl.
    assert (∃ k, fuel = S k) as [k Hk] by (exists (3 * n + 3); lia).
    destruct ready as [t|]; [destruct (Z.leb_spec t now)|];
      destruct (Z.leb_spec deadline now); simpl; try destruct (coin now); simpl;
      try (rewrite Hk; simpl; (split; [done|]); (split; [lia|]); (split; [lia|]);
           intros t' [= <-]; lia).
    all: specialize (IH (now + 10)%Z ltac:(lia)); cbv zeta in IH; unfold waitForResume, loop in IH;
      destruct (interp _ fuel _ _) as [[tr s'] p']; simpl in *;
      destruct IH as (-> & IH1 & IH2 & IH3); (split; [done|]); (split; [lia|]);
      (split; [lia|]); intros t' Ht'; specialize (IH3 _ Ht');
      first [discriminate Ht' | injection Ht' as ->; lia].
Qed.

(** * An execution *)

(** A migration of the application [app] whose source is 10.0.0.2. *)
Definition example_restore (svc : option svcref) : LM_Restore := {|
  Clientset_ := AClientset;
  RestConfig_ := mkRestConfig "https://192.168.0.12:8443";
  ThisAddr := "10.0.0.1";
  DstNamespace := "default";
  DstPodName := "app-pod";
  DstContainerName := "app-c";
  SrcAddr := "10.0.0.2";
  SrcAPIServerAddr := "10.0.0.2:9999";
  SrcName := "app";
  Fwdsvc := svc;
  DstPodAddr := mkTCPAddr "10.96.0.7" 8888;
  BwLimit := 0;
  Iteration := 2
|}.

Abbreviation ref_exec := (@exec ReferenceK8s.pkg ReferenceJson.lib).
Abbreviation ref_trace := (trace_of (ReferenceJson.replying [x01]) 300).

Lemma ref_exec_runs withFwd :
  runs (ref_exec (example_restore (Some 5)) withFwd)
    (ref_trace (ref_exec (example_restore (Some 5)) withFwd)) (Ret (Ok tt)).
Proof. apply machine_runs. destruct withFwd; vm_compute; reflexivity. Qed.

(** * Properties *)



(** [ExecLM] leaves every forwarding service alone. *)
Theorem ExecLM_no_forwarding `{PkgErrors, JsonLib} (p : LM_Restore) (tr : list (obs sysE))
    (res : result unit error) :
  runs (ExecLM p) tr (Ret res) → omap fwd_op_of tr = [].
Proof.
  intros Hr.
  exact (collector_complete _ anything _ _ _ _ (exec_nofwd anything p) Hr (anything_all _)).
Qed.

Lemma ExecLM_no_forwarding_witness :
  omap fwd_op_of (ref_trace (ref_exec (example_restore (Some 5)) false)) = [].
Proof.
  apply (@ExecLM_no_forwarding ReferenceK8s.pkg ReferenceJson.lib (example_restore (Some 5)) _
           (Ok tt)).
  apply (ref_exec_runs false).
Defined.

(** C10.  The migration protocol as the destination speaks it.  What a run of [exec] asks to
    be written is always the first part of this sequence, and all of it when it returns nil:
    the request for the dump service to the source's API server, then as many pre-dump
    requests as configured (1 by default, none for a negative number) and one final dump
    request, all on one connection to the dump service. *)
Theorem exec_protocol `{PkgErrors, JsonLib} (p : LM_Restore) (withFwd : bool)
    (breq : list byte) (tr : list (obs sysE)) (res : result unit error) :
  MarshalRequest (dumpStartRequest p) = Ok breq →
  runs (exec p withFwd) tr (Ret res) →
  ∃ api svc,
    omap write_of tr `prefix_of` protocol_writes p breq api svc ∧
    (is_ok res = true → omap write_of tr = protocol_writes p breq api svc).
Proof.
  intros Hm Hr.
  exact (collector_complete _ anything _ _ _ _ (exec_writes anything p withFwd breq Hm) Hr
           (anything_all _)).
Qed.

Lemma exec_protocol_witness :
  ∃ api svc,
    omap write_of (ref_trace (ref_exec (example_restore (Some 5)) true))
      `prefix_of` protocol_writes (example_restore (Some 5))
                    (String.list_byte_of_string "_dumpStart") api svc ∧
    (is_ok (E := error) (Ok tt) = true →
     omap write_of (ref_trace (ref_exec (example_restore (Some 5)) true)) =
     protocol_writes (example_restore (Some 5)) (String.list_byte_of_string "_dumpStart") api svc).
Proof.
  apply (@exec_protocol ReferenceK8s.pkg ReferenceJson.lib (example_restore (Some 5)) true _ _
           (Ok tt)).
  - reflexivity.
  - apply (ref_exec_runs true).
Defined.

(** C14.  [exec] together with every goroutine it starts, in any interleaving: no channel is
    ever closed twice (nor is there any other panic), and when all of them have ended, every
    listener, connection and channel they opened is closed: what is left open is the services
    in the fields of the resources. *)
Theorem exec_releases `{PkgErrors, JsonLib} (p : LM_Restore) (withFwd : bool)
    (ts : list (prog sysE unit)) (mem : shared_mem) :
  has_service p withFwd →
  rtc (pstep own_sem) ([exec p withFwd;; Ret tt], ([], ∅)) (ts, mem) →
  (∀ msg, Panic msg ∉ ts) ∧
  (Forall (λ t, t = Ret tt) ts → mem.1 ≡ₚ in_slots mem.2).
Proof.
  intros Hs Hr. destruct mem as [opens slots].
  assert (Hown : respects (owner no_leak (λ _, False)) (exec p withFwd;; Ret tt) ([], None)
                   (λ m _, mon_final (owner no_leak (λ _, False)) m)).
  { unbind. apply exec_owns; [by left|done|done]. }
  destruct (owner_sound _ _ _ _ _ _ _ (NoDup_nil_2) Hown Hr) as [Hp Hl].
  split; [intros msg Hm; by apply Hp in Hm|]. intros Hall.
  destruct (Hl Hall) as (leaked & -> & Hleak). by rewrite (Forall_no_leak leaked).
Qed.

Definition ref_pool : list (prog sysE unit) * shared_mem :=
  pool_run (own_machine (ReferenceJson.replying [x01] 0)) 300 0
    ([ref_exec (example_restore (Some 5)) true;; Ret tt], ([], ∅)).

Lemma exec_releases_witness :
  length ref_pool.1 = 5 ∧ ref_pool.2.1 ≡ₚ in_slots ref_pool.2.2.
Proof.
  split; [vm_compute; reflexivity|].
  apply (@exec_releases ReferenceK8s.pkg ReferenceJson.lib (example_restore (Some 5)) true
           ref_pool.1).
  - right. discriminate.
  - rewrite <-surjective_pairing. apply pool_run_steps, own_machine_sem.
  - vm_compute. repeat constructor.
Defined.

(** C22.  The wait for the restored process always ends: at the latest 10 ms after the 5 s
    timeout, and at the latest 10 ms after the resume signal. *)
Theorem waitForResume_terminates (rc tc : chan) (ready : option Z) (coin : Z → bool)
    (now : Z) :
  let run := interp (clock_machine ready (now + 5000) coin) (wait_fuel 5000) now
               (waitForResume rc tc) in
  run.2 = Ret tt ∧ (run.1.2 < now + 5010)%Z ∧
  (∀ t, ready = Some t → run.1.2 < Z.max (now + 1) (t + 10))%Z.
Proof.
  assert (10 * Z.of_nat (Z.to_nat (5000 / 10 + 1)) = 5010)%Z as Hn by reflexivity.
  pose proof (waitForResume_clock rc tc ready (now + 5000) coin (Z.to_nat (5000 / 10 + 1)) now
                ltac:(lia)) as Hw.
  cbv zeta in *. unfold wait_fuel. destruct Hw as (H1 & H2 & H3 & H4).
  split; [exact H1|]. split; [|exact H4]. eapply Z.lt_le_trans; [exact H3|]. lia.
Qed.
