(* ===== verification/DumpProofs.v ===== *)
(** What the dump service does with the requests of one connection, how it and the
    destination of the migration fit together, and who closes what it opens. *)
From S2P Require Import Prelude Go Errors Types Sys LineIO HostConf Kube KubeExec.
From S2P Require Import LiveMigration Ownership RestoreProofs.
Import Dump.
#[local] Open Scope go_scope.

(** * Rounds of request, command and reply *)

Inductive dump_ev :=
| DReq (req : byte)
| DNew (r : ExecRequest) (ok : bool)
| DRun (r : ExecRequest) (ok : bool)
| DResp (c : conn) (resp : list byte).

Definition dump_ev_of (o : obs sysE) : option dump_ev :=
  match o with
  | @Obs _ X e x =>
      match e in sysE Y return Y → option dump_ev with
      | EConnRead _ _ => λ r, match r.1 with req :: _ => Some (DReq req) | [] => None end
      | ENewSPDYExecutor _ r => λ err, Some (DNew r (bool_decide (err = None)))
      | EStream r _ => λ out, Some (DRun r (bool_decide (out.2 = None)))
      | EConnWrite c b => λ _, Some (DResp c b)
      | _ => λ _, None
      end x
  end.

(** The shell command a request is served with, if it is one the service knows. *)
Definition commandFor (p : LM_DumpService) (pid : Z) (bw : string) (itercnt : Z) (req : byte)
  : option string :=
  if decide (req = LM_MsgReqPreDump) then Some (preDumpCommand p pid bw itercnt)
  else if decide (req = LM_MsgReqDump) then Some (dumpCommand p pid itercnt)
  else None.

(** A command run in the container of the application, with both outputs and no input. *)
Definition inContainer (p : LM_DumpService) (cmd : string) : ExecRequest :=
  mkExecRequest (Namespace p) (PodName p) (ContainerName p) (sh cmd) false true true.

Inductive outcome := NoExecutor | Failed | Done.

(** A command and the reply it decides: OK exactly when it was run without an error. *)
Definition served (p : LM_DumpService) (cmd : string) (c : conn) (out : outcome)
  : list dump_ev :=
  let r := inContainer p cmd in
  match out with
  | NoExecutor => [DNew r false; DResp c [LM_MsgRespError]]
  | Failed => [DNew r true; DRun r false; DResp c [LM_MsgRespError]]
  | Done => [DNew r true; DRun r true; DResp c [LM_MsgRespOk]]
  end.

(** One request: its command, run at most once, and one reply. *)
Definition round (p : LM_DumpService) (pid : Z) (bw : string) (c : conn) (itercnt : Z)
  (req : byte) (out : outcome) : list dump_ev :=
  DReq req ::
  match commandFor p pid bw itercnt req with
  | None => [DResp c [LM_MsgRespError]]
  | Some cmd => served p cmd c out
  end.

(** The service of the requests [qs], from the [itercnt]-th on. *)
Fixpoint rounds (p : LM_DumpService) (pid : Z) (bw : string) (c : conn) (itercnt : Z)
  (qs : list (byte * outcome)) : list dump_ev :=
  match qs with
  | [] => []
  | (req, out) :: qs => round p pid bw c itercnt req out ++ rounds p pid bw c (itercnt + 1) qs
  end.

Definition request_of (e : dump_ev) : option byte :=
  match e with DReq req => Some req | _ => None end.

Definition command_of (e : dump_ev) : option (list string) :=
  match e with DNew r _ => Some (Exec_Command r) | _ => None end.

Definition reply_of (e : dump_ev) : option (list byte) :=
  match e with DResp _ b => Some b | _ => None end.

Section dump_lemmas.
Context `{PkgErrors}.

Lemma rounds_app p pid bw c n qs1 qs2 :
  rounds p pid bw c n (qs1 ++ qs2) =
  rounds p pid bw c n qs1 ++ rounds p pid bw c (n + Z.of_nat (length qs1)) qs2.
Proof.
  revert n. induction qs1 as [|[req out] qs1 IH]; intros n; cbn [rounds app length].
  - by rewrite Z.add_0_r.
  - rewrite IH, <-app_assoc. do 3 f_equal. lia.
Qed.

Lemma runDump_served legal p cmd l :
  respects (collector dump_ev_of legal) (runDump p cmd) l (λ l' resp,
    ∃ out, ∀ c, l' ++ [DResp c [resp]] = l ++ served p cmd c out).
Proof.
  unfold runDump, ExecutePod. run dump_ev_of; simpl in *; simplify_eq;
    [exists NoExecutor|exists Failed|exists Done]; intros c; by rewrite <- ?app_assoc.
Qed.

Lemma handleRequest_round legal p pid bw n req l :
  respects (collector dump_ev_of legal) (handleRequest p pid bw n req) (l ++ [DReq req])
    (λ l' resp, ∃ out, ∀ c, l' ++ [DResp c [resp]] = l ++ round p pid bw c n req out).
Proof.
  unfold handleRequest, round, commandFor. case_decide; [|case_decide].
  - run dump_ev_of; eapply respects_mono; try apply runDump_served;
      intros l' resp [out Hout]; exists out; intros c; by rewrite Hout, <-app_assoc.
  - run dump_ev_of. eapply respects_mono; [apply runDump_served|].
    intros l' resp [out Hout]. exists out. intros c. by rewrite Hout, <-app_assoc.
  - run dump_ev_of. exists Done. intros c. by rewrite <-app_assoc.
Qed.

Lemma serveConn_collects legal p pid bw c :
  respects (collector dump_ev_of legal) (serveConn p pid bw c) []
    (λ l _, ∃ qs, l = rounds p pid bw c 1 qs).
Proof.
  unfold serveConn.
  apply (respects_loop _ (λ n l, ∃ qs, l = rounds p pid bw c 1 qs ∧
                                       n = (1 + Z.of_nat (length qs))%Z)).
  { by exists []. }
  intros n l (qs & -> & ->). run dump_ev_of; simpl in *; simplify_eq; try by eexists.
  unbind. eapply respects_mono; [apply handleRequest_round|]. intros l' resp [out Hout].
  run dump_ev_of; (exists (qs ++ [(b, out)]); rewrite Hout, rounds_app; cbn [rounds];
    rewrite app_nil_r); [done|]. split; [done|]. rewrite length_app. simpl. lia.
Qed.

End dump_lemmas.

(** * Numbers *)

Lemma digits_pretty x s :
  ∃ k, ∀ acc, digits acc (pretty_N_go x s) = digits (acc * 10 ^ Z.of_nat k + Z.of_N x) s.
Proof.
  revert s. induction (N.lt_wf_0 x) as [x _ IH]; intros s.
  destruct (decide (x = 0)%N) as [->|Hx].
  { exists 0. intros acc. rewrite pretty_N_go_0. f_equal. lia. }
  destruct (IH (x `div` 10)%N ltac:(apply N.div_lt; lia)
              (String (pretty_N_char (x `mod` 10)) s)) as [k Hk].
  exists (S k). intros acc. rewrite pretty_N_go_step, Hk by lia. cbn [digits].
  assert (digit (pretty_N_char (x `mod` 10)) = Some (Z.of_N (x `mod` 10))) as ->.
  { pose proof (N.mod_lt x 10 ltac:(lia)) as Hm. revert Hm.
    generalize (x `mod` 10)%N. intros d Hm.
    assert (d = 0 ∨ d = 1 ∨ d = 2 ∨ d = 3 ∨ d = 4 ∨ d = 5 ∨ d = 6 ∨ d = 7 ∨ d = 8 ∨ d = 9)%N
      as Hd by lia.
    repeat destruct Hd as [->|Hd]; try reflexivity. by subst. }
  simpl mbind. f_equal. rewrite Nat2Z.inj_succ, Z.pow_succ_r by lia.
  rewrite N2Z.inj_div, N2Z.inj_mod.
  pose proof (Z.div_mod (Z.of_N x) (Z.of_N 10) ltac:(lia)). lia.
Qed.

Lemma digits_itoa (x : N) : digits 0 (pretty x) = Some (Z.of_N x).
Proof.
  unfold pretty, pretty_N. case_decide as Hx; [by rewrite Hx|].
  destruct (digits_pretty x "") as [k ->]. simpl. f_equal; lia.
Qed.

Lemma digits_snoc acc s a n :
  digits acc s = Some n → digits acc (s +:+ String a EmptyString) =
  (d ← digit a; Some (n * 10 + d)%Z).
Proof.
  revert acc. induction s as [|b s IH]; simpl; intros acc.
  - intros [= ->]. by destruct (digit a).
  - destruct (digit b); simpl; [apply IH|done].
Qed.

Lemma digits_None_snoc acc s a : digits acc s = None → digits acc (s +:+ String a EmptyString) = None.
Proof.
  revert acc. induction s as [|b s IH]; simpl; intros acc; [done|].
  destruct (digit b); simpl; [apply IH|done].
Qed.

(** [Atoi] of a text without sign. *)
Lemma Atoi_unsigned a s :
  is_Some (digit a) →
  Atoi (String a s) =
  match digits 0 (String a s) with
  | None => Err ErrSyntax
  | Some n => if bool_decide (- 2 ^ 63 ≤ n < 2 ^ 63)%Z then Ok n else Err ErrRange
  end.
Proof.
  intros Ha. destruct a as [[] [] [] [] [] [] [] []];
    first [reflexivity | by destruct Ha].
Qed.

Lemma digits_nonempty (x : N) : ∃ a s, pretty x = String a s ∧ is_Some (digit a).
Proof.
  pose proof (digits_itoa x) as Hd. destruct (pretty x) as [|a s] eqn:E.
  - exfalso. assert (x = 0%N) as -> by (injection Hd; lia). discriminate E.
  - exists a, s. split; [done|]. simpl in Hd. by destruct (digit a).
Qed.

Lemma pretty_Z_cases (z : Z) :
  (0 ≤ z)%Z ∧ itoa z = pretty (Z.to_N z) ∨
  (z < 0)%Z ∧ itoa z = String "-" (pretty (Z.to_N (- z))).
Proof. destruct z as [|p|p]; [left|left|right]; (split; [lia|reflexivity]). Qed.

Lemma Atoi_minus s :
  s ≠ EmptyString →
  Atoi (String "-" s) =
  match digits 0 s with
  | None => Err ErrSyntax
  | Some n => if bool_decide (- 2 ^ 63 ≤ - n < 2 ^ 63)%Z then Ok (- n)%Z else Err ErrRange
  end.
Proof. by destruct s. Qed.

Lemma Atoi_itoa_ok z : in_int64 z → Atoi (itoa z) = Ok z.
Proof.
  intros Hz. unfold in_int64 in Hz. destruct (pretty_Z_cases z) as [[Hs ->]|[Hs ->]].
  - destruct (digits_nonempty (Z.to_N z)) as (a & s & E & Ha).
    pose proof (digits_itoa (Z.to_N z)) as Hd. rewrite E in *.
    rewrite Atoi_unsigned, Hd, Z2N.id by done. by rewrite bool_decide_eq_true_2.
  - destruct (digits_nonempty (Z.to_N (- z))) as (a & s & E & Ha).
    pose proof (digits_itoa (Z.to_N (- z))) as Hd. rewrite E in *.
    rewrite Atoi_minus, Hd, Z2N.id, Z.opp_involutive by (done || lia).
    by rewrite bool_decide_eq_true_2.
Qed.

Lemma Atoi_itoa_newline z : Atoi (itoa z +:+ newline) = Err ErrSyntax.
Proof.
  assert (Hd : ∀ n : N, digits 0 (pretty n +:+ newline) = None).
  { intros n. unfold newline. by rewrite (digits_snoc _ _ _ _ (digits_itoa n)). }
  destruct (pretty_Z_cases z) as [[Hs ->]|[Hs ->]].
  - destruct (digits_nonempty (Z.to_N z)) as (a & s & E & Ha).
    specialize (Hd (Z.to_N z)). rewrite E in *.
    change (String a s +:+ newline) with (String a (s +:+ newline)) in *.
    by rewrite Atoi_unsigned, Hd by done.
  - specialize (Hd (Z.to_N (- z))).
    change (String "-" (pretty (Z.to_N (- z))) +:+ newline)
      with (String "-" (pretty (Z.to_N (- z)) +:+ newline)).
    rewrite Atoi_minus, Hd; [done|]. by destruct (pretty (Z.to_N (- z))).
Qed.

(** * Ownership *)

Section dump_owns.
Context `{PkgErrors}.

(** A tunnelled connection stays open when its other end cannot be dialled. *)
Definition conns_leak (h : handle) : bool := match h with HConn _ => true | _ => false end.

Lemma tunnelRoute_owns ok sc lc la ra c :
  respects (owner conns_leak ok) (tunnelRoute sc lc la ra c) ([HConn lc], None)
    (λ m _, mon_final (owner conns_leak ok) m).
Proof.
  unfold tunnelRoute. own; [|done].
  own_go [HConn lc; HConn a] (@nil handle); own.
  own_go (@nil handle) (@nil handle); own.
  own_go (@nil handle) (@nil handle); own.
Qed.

Lemma tunnelListener_owns ok sc ln la ra c v :
  respects (owner conns_leak ok) (tunnelListener sc ln la ra c v) ([], None)
    (λ m _, mon_final (owner conns_leak ok) m).
Proof.
  unfold tunnelListener. exists (λ _ m, m = ([], None)). split; [done|]. intros [] m ->.
  own; try done.
  own_go [HConn a] (@nil handle); [apply tunnelRoute_owns|own; done].
Qed.

Lemma OpenTunnel_owns ok p la ra c H1 sl (Q : ostate → result unit error → Prop) :
  slot_locked (H1, sl) → (∀ r, Q (H1, sl) r) →
  respects (owner conns_leak ok) (OpenTunnel p la ra c) (H1, sl) Q.
Proof.
  intros Hl HQ. unfold OpenTunnel. own; try apply HQ.
  own_go_locked [HSSH a] H1 sl; own; [|apply HQ].
  own_go_locked [HListener a0] H1 sl; own.
  own_go_locked (@nil handle) H1 sl; own; [apply tunnelListener_owns|apply HQ].
Qed.

Lemma calm_NewSSHClient hc : calm (NewSSHClient hc).
Proof. unfold NewSSHClient. solve_calm. Qed.

Lemma calm_getMainPid p : calm (getMainPid p).
Proof. unfold getMainPid, ReadPodFile. solve_calm. Qed.

Lemma calm_serveConn p pid bw c : calm (serveConn p pid bw c).
Proof. unfold serveConn, handleRequest, runDump. solve_calm. Qed.
#[local] Hint Resolve calm_NewSSHClient calm_getMainPid calm_serveConn : calm.

Lemma serve_owns ok p pid bw ln c :
  respects (owner conns_leak ok) (serve p pid bw ln c) ([HChan c; HListener ln], None)
    (λ m _, mon_final (owner conns_leak ok) m).
Proof. unfold serve. own; done. Qed.

Lemma Start_owns ok hc p H1 sl (Q : ostate → result unit error → Prop) :
  slot_locked (H1, sl) → (∀ r, Q (H1, sl) r) →
  respects (owner conns_leak ok) (Start hc p) (H1, sl) Q.
Proof.
  intros Hl HQ. unfold Start, on_error. own; try apply HQ.
  unbind. apply OpenTunnel_owns; [solve_locked|]. intros [u|e]; own; try apply HQ.
  own_go_locked [HChan x2; HListener a0] H1 sl; [apply serve_owns|own; apply HQ].
Qed.

End dump_owns.

(** * From requests to commands *)

(** The commands of the requests [reqs], from the [itercnt]-th on. *)
Fixpoint commandsFor (p : LM_DumpService) (pid : Z) (bw : string) (itercnt : Z)
  (reqs : list byte) : list (list string) :=
  match reqs with
  | [] => []
  | req :: reqs =>
      match commandFor p pid bw itercnt req with
      | Some cmd => [sh cmd]
      | None => []
      end ++ commandsFor p pid bw (itercnt + 1) reqs
  end.

Lemma rounds_requests p pid bw c n qs : omap request_of (rounds p pid bw c n qs) = qs.*1.
Proof.
  revert n. induction qs as [|[req out] qs IH]; intros n; [done|].
  cbn [rounds fmap list_fmap]. rewrite omap_app, IH. unfold round, served.
  by destruct (commandFor _ _ _ _ _); [destruct out|].
Qed.

Lemma rounds_commands p pid bw c n qs :
  omap command_of (rounds p pid bw c n qs) = commandsFor p pid bw n qs.*1.
Proof.
  revert n. induction qs as [|[req out] qs IH]; intros n; [done|].
  cbn [rounds fmap list_fmap commandsFor]. rewrite omap_app, IH. unfold round, served. simpl.
  by destruct (commandFor _ _ _ _ _); [destruct out|].
Qed.

Lemma rounds_replies p pid bw c n qs :
  length (omap reply_of (rounds p pid bw c n qs)) = length qs.
Proof.
  revert n. induction qs as [|[req out] qs IH]; intros n; [done|].
  cbn [rounds length]. rewrite omap_app, length_app, IH. unfold round, served.
  by destruct (commandFor _ _ _ _ _); [destruct out|].
Qed.

Lemma commandsFor_migration p pid bw n k :
  commandsFor p pid bw n (replicate k LM_MsgReqPreDump ++ [LM_MsgReqDump]) =
  ((λ i, sh (preDumpCommand p pid bw i)) <$> seqZ n (Z.of_nat k)) ++
  [sh (dumpCommand p pid (n + Z.of_nat k))].
Proof.
  revert n. induction k as [|k IH]; intros n.
  - simpl. by rewrite Z.add_0_r.
  - cbn [replicate app commandsFor]. rewrite IH, (seqZ_cons n) by lia.
    replace (Z.pred (Z.of_nat (S k))) with (Z.of_nat k) by lia.
    replace (n + 1 + Z.of_nat k)%Z with (n + Z.of_nat (S k))%Z by lia.
    replace (Z.succ n) with (n + 1)%Z by lia. done.
Qed.

Lemma protocol_bytes p breq api svc :
  concat (tail (protocol_writes p breq api svc)).*2 =
  replicate (Z.to_nat (Restore.iterations p)) LM_MsgReqPreDump ++ [LM_MsgReqDump].
Proof.
  unfold protocol_writes. cbn [tail]. rewrite fmap_app, concat_app. f_equal.
  induction (Z.to_nat _) as [|k IH]; [done|]. simpl. f_equal. exact IH.
Qed.

(** * Properties *)

Definition example_dump : LM_DumpService := {|
  Clientset_ := AClientset;
  RestConfig_ := mkRestConfig "https://192.168.0.12:8443";
  ThisAddr := "10.0.0.2";
  Namespace := "default";
  PodName := "app-pod";
  ContainerName := "app-c";
  DstAddr := "10.0.0.1";
  BwLimit := 8
|}.

(** The requests of a migration with two pre-dumps, then the end of the stream. *)
Definition three_requests (n : nat) (X : Type) (e : sysE X) : option X :=
  match e in sysE Y return option Y with
  | EConnRead _ _ =>
      match n with
      | 0 | 6 => Some ([LM_MsgReqPreDump], None)
      | 12 => Some ([LM_MsgReqDump], None)
      | _ => None
      end
  | _ => None
  end.

Abbreviation ref_serve :=
  (@serveConn ReferenceK8s.pkg example_dump 42 "--bwlimit=976" 7).

Lemma ref_serve_runs : runs ref_serve (trace_of three_requests 60 ref_serve) (Ret tt).
Proof. apply machine_runs. vm_compute. reflexivity. Qed.



(** What a dump of the process [pid] into the directory [dir] asks of the shell: the image
    is taken on top of the one in [parent], if any, and the images are sent to the
    destination's end of the tunnel. *)
Definition criu (p : LM_DumpService) (pid : Z) (verb dir : string) (parent : option Z)
    (flags rsyncOpt : string) : string :=
  let prev := match parent with Some i => "--prev-images-dir ../" +:+ itoa i | None => "" end in
  "mkdir -p " +:+ LM_DumpImagesDir +:+ "/" +:+ dir +:+
  " && criu " +:+ verb +:+ " --tree " +:+ itoa pid +:+ " --images-dir " +:+ LM_DumpImagesDir
    +:+ "/" +:+ dir +:+ " " +:+ prev +:+ " --tcp-close --shell-job" +:+ flags +:+
  " && rsync " +:+ rsyncOpt +:+ "-rlOt " +:+ LM_RsyncModuleDirectory +:+ "/ rsync://"
    +:+ ThisAddr p +:+ ":" +:+ itoa LM_HostDataPort +:+ "/" +:+ LM_RsyncModuleName.

Lemma app_blank (s t : string) : (s +:+ " ") +:+ t = s +:+ String " " t.
Proof. induction s as [|a s IH]; [done|]. exact (f_equal (String a) IH). Qed.

Lemma preDumpCommand_criu p pid bw i :
  (1 ≤ i)%Z →
  preDumpCommand p pid bw i =
  criu p pid "pre-dump" (itoa i) (if (i =? 1)%Z then None else Some (i - 1)%Z) "" (bw +:+ " ").
Proof.
  intros Hi. unfold preDumpCommand, criu, prevImagesDirOpt.
  destruct (Z.eqb_spec i 1) as [->|Hn];
    [|destruct (Z.gtb_spec i 1); [|lia]]; by rewrite app_blank.
Qed.

Lemma dumpCommand_criu p pid n :
  (0 ≤ n)%Z →
  dumpCommand p pid (1 + n) =
  criu p pid "dump" "final" (if (n =? 0)%Z then None else Some n) " --track-mem" "".
Proof.
  intros Hn. unfold dumpCommand, criu, prevImagesDirOpt.
  destruct (Z.eqb_spec n 0) as [->|Hz]; [done|].
  destruct (Z.gtb_spec (1 + n) 1); [|lia].
  by replace (1 + n - 1)%Z with n by lia.
Qed.

(** C9.  The two ends of a migration.  If the destination's [exec] succeeds and the bytes
    the dump service reads are the ones [exec] wrote to it, the commands run in the source's
    container are: the pre-dumps 1 to n, each into its own directory with the previous one
    as parent, then the final dump with the n-th as parent; nothing else. *)
Theorem migration_commands `{PkgErrors, JsonLib} (p : Restore.LM_Restore) (withFwd : bool)
    (breq : list byte) (d : LM_DumpService) (pid : Z) (bw : string) (c : conn)
    (tr tr' : list (obs sysE)) :
  MarshalRequest (Restore.dumpStartRequest p) = Ok breq →
  runs (Restore.exec p withFwd) tr (Ret (Ok tt)) →
  runs (serveConn d pid bw c) tr' (Ret tt) →
  omap request_of (omap dump_ev_of tr') = concat (tail (omap write_of tr)).*2 →
  let n := Z.max 0 (Restore.iterations p) in
  omap command_of (omap dump_ev_of tr') =
  ((λ i, sh (criu d pid "pre-dump" (itoa i) (if (i =? 1)%Z then None else Some (i - 1)%Z) ""
               (bw +:+ " "))) <$> seqZ 1 n) ++
  [sh (criu d pid "dump" "final" (if (n =? 0)%Z then None else Some n) " --track-mem" "")].
Proof.
  intros Hm Hr Hr' Hq. cbv zeta.
  destruct (collector_complete _ anything _ _ _ _ (exec_writes anything p withFwd breq Hm) Hr
              (anything_all _)) as (api & svc & _ & Hw).
  destruct (collector_complete _ anything _ _ _ _ (serveConn_collects anything d pid bw c) Hr'
              (anything_all _)) as [qs Hqs].
  rewrite Hw, protocol_bytes in Hq by done. rewrite Hqs in *.
  rewrite rounds_requests in Hq. rewrite rounds_commands, Hq, commandsFor_migration.
  replace (Z.of_nat (Z.to_nat (Restore.iterations p))) with (Z.max 0 (Restore.iterations p))
    by lia.
  rewrite dumpCommand_criu by lia. f_equal. apply list_fmap_ext. intros k i Hk.
  apply lookup_seqZ in Hk as [-> ?]. rewrite preDumpCommand_criu by lia. done.
Qed.

Lemma migration_commands_witness :
  omap command_of (omap dump_ev_of (trace_of three_requests 60 ref_serve)) =
  [sh (criu example_dump 42 "pre-dump" "1" None "" "--bwlimit=976 ");
   sh (criu example_dump 42 "pre-dump" "2" (Some 1%Z) "" "--bwlimit=976 ");
   sh (criu example_dump 42 "dump" "final" (Some 2%Z) " --track-mem" "")].
Proof.
  apply (@migration_commands ReferenceK8s.pkg ReferenceJson.lib (example_restore (Some 5)) true
           (String.list_byte_of_string "_dumpStart") example_dump 42 "--bwlimit=976" 7
           (ref_trace (ref_exec (example_restore (Some 5)) true))).
  - reflexivity.
  - apply (ref_exec_runs true).
  - apply ref_serve_runs.
  - vm_compute. reflexivity.
Defined.


(** [cat] prints the pid without a line feed, and the tunnel is not used. *)
Definition pid_script (X : Type) (e : sysE X) : option X :=
  match e in sysE Y return option Y with
  | EStream _ _ => Some ("42", None)
  | EVarGet _ => Some false
  | _ => None
  end.

Definition ref_start : list (prog sysE unit) * shared_mem :=
  pool_run (own_machine pid_script) 200 0
    ([@Start ReferenceK8s.pkg (mkHostConf "eth0" "127.0.0.1:22" "root" "id") example_dump;;
      Ret tt], ([], ∅)).


(** C26.  The rsync limit, in KiB/s, never lets more through than the configured rate in
    Mbit/s, and wastes less than 0.06% of it; no limit is set exactly when none is asked for.
    The product does not overflow for any rate below 2^63 / 122. *)
Theorem getRsyncBandwidth_bounds (p : LM_DumpService) :
  (BwLimit p * 122 < 2 ^ 63)%Z →
  (getRsyncBandwidth p = 0 ↔ BwLimit p ≤ 0)%Z ∧
  ((0 < BwLimit p)%Z →
   (getRsyncBandwidth p * 1024 ≤ BwLimit p * 125000 ∧
    BwLimit p * 125000 * 9994 ≤ getRsyncBandwidth p * 1024 * 10000)%Z).
Proof.
  intros Hb. unfold getRsyncBandwidth. destruct (Z.leb_spec (BwLimit p) 0); [lia|].
  rewrite int64_id by (unfold in_int64; lia). lia.
Qed.

Lemma getRsyncBandwidth_bounds_witness :
  (getRsyncBandwidth example_dump = 0 ↔ BwLimit example_dump ≤ 0)%Z ∧
  ((0 < BwLimit example_dump)%Z →
   (getRsyncBandwidth example_dump * 1024 ≤ BwLimit example_dump * 125000 ∧
    BwLimit example_dump * 125000 * 9994 ≤ getRsyncBandwidth example_dump * 1024 * 10000)%Z).
Proof. apply (getRsyncBandwidth_bounds example_dump). reflexivity. Defined.


