(* ===== verification/ApiCore.v ===== *)
(** The operations behind the API: src/server/api-core.go, with the caller's view of
    starting a forwarding service (src/server/fwdsvc.go). *)
From S2P Require Import Prelude Go Errors Types Sys HostConf Kube KubeExec LiveMigration.
#[local] Open Scope go_scope.

(** [30 * time.Second], in milliseconds. *)
Definition WaitPodTimeout : Z := 30000.

Definition APIServerPort : Z := 9999.

Record APICore := mkAPICore {
  HostConf_ : HostConf;
  HostAddr : string;
  GatewayAddr : string
}.

(** The map of resources starts empty: it is part of the shared memory. *)
Definition NewAPICore (hostConf : HostConf) (hostAddr gatewayAddr : string) : APICore :=
  mkAPICore hostConf hostAddr gatewayAddr.

Record PortMap := mkPortMap { PM_In : Z; PM_Ext : Z }.

Definition NewPortMap (portIn portExt : Z) : PortMap := mkPortMap (int32 portIn) (int32 portExt).

Definition ToPodName (name : string) : string := name +:+ "-pod".
Definition ToContainerName (name : string) : string := name +:+ "-c".
Definition ToServiceName (name : string) : string := name +:+ "-svc".
Definition ToClusterIPName (name : string) : string := name +:+ "-cip".

(** The listener is opened by the caller's goroutine; the service's own goroutines are
    started with it. *)
Definition StartForwarderServiceDR (network : string) (clientAddr serverAddr : TCPAddr)
  (isExtHost : bool) (dataRate : Z) : prog sysE (result svcref error) :=
  ln ?<- call (EListenTCP network clientAddr);;
  p <- call (EFwdStart network ln clientAddr serverAddr isExtHost dataRate);;
  Ret (Ok p).

Definition StartForwarderService (network : string) (clientAddr serverAddr : TCPAddr)
  (isExtHost : bool) : prog sysE (result svcref error) :=
  StartForwarderServiceDR network clientAddr serverAddr isExtHost 0.

Section api.
Context `{PkgErrors, K8sLib, JsonLib}.

Definition createNewPod (clientset : Clientset) (label podName containerName image : string)
  (containerPort : Z) (env : gmap string string) (command args : list string)
  : prog sysE bool :=
  r <- CreatePod clientset podName label containerName image containerPort env command args;;
  match r with
  | Err (err, errStack) =>
      if IsAlreadyExists err
      then LogInfo ("Use existing pod: " +:+ podName);; Ret false
      else LogErrorE errStack;; Ret false
  | Ok pod => LogInfo ("Creating pod: " +:+ Pod_Name pod);; Ret true
  end.

Definition createOrGetClusterIP (clientset : Clientset)
  (label serviceName clusterIPName : string) (containerPort : Z) : prog sysE string :=
  r <- GetService clientset serviceName;;
  match r with
  | Err (err, errStack) =>
      if IsNotFound err then
        r <- CreateService clientset serviceName label clusterIPName containerPort;;
        match r with
        | Err (_, errStack) => LogErrorE errStack;; Ret ""
        | Ok svc => LogInfo ("Creating service: " +:+ Svc_Name svc);; Ret (Svc_ClusterIP svc)
        end
      else LogErrorE errStack;; Ret ""
  | Ok svc => LogInfo ("Use existing service: " +:+ Svc_Name svc);; Ret (Svc_ClusterIP svc)
  end.

Definition getForwardAddrs (clientPort : Z) (remoteAddr : string) (remotePort : Z)
  : prog sysE (result (TCPAddr * TCPAddr) error) :=
  let caddr := ":" +:+ itoa clientPort in
  ctcpaddr ?<- stacked (call (EResolveTCPAddr "tcp" caddr));;
  let raddr := remoteAddr +:+ ":" +:+ itoa remotePort in
  rtcpaddr ?<- stacked (call (EResolveTCPAddr "tcp" raddr));;
  Ret (Ok (ctcpaddr, rtcpaddr)).

(** [val, _ := p.resmap.LoadOrStore(..); defer res.mux.Unlock(); res.mux.Lock()]. *)
Definition with_res {A : Type} (name : string) (body : prog sysE A) : prog sysE A :=
  call (EResLoadOrStore name);;
  defer (call (EResUnlock name)) (call (EResLock name);; body).

(** The service that a successful start leaves in [res.fwdsvc]. *)
Definition store_fwdsvc (name : string) (start : prog sysE (result svcref error))
  : prog sysE unit :=
  r <- start;;
  match r with
  | Err err => LogErrorE err
  | Ok fsv => call (EResSetFwdsvc name (Some fsv))
  end.

(** The forwarding service of [DeployNew] and [DeployLM]: to the cluster IP. *)
Definition forwardToClusterIP (name clusterIP : string) (portIn portExt : Z)
  : prog sysE unit :=
  s <- call (EResGetFwdsvc name);;
  match s with
  | Some _ => LogInfo "Use existing forwarding service"
  | None =>
      if decide (clusterIP ≠ "") then
        r <- getForwardAddrs portExt clusterIP portIn;;
        match r with
        | Err err => LogErrorE err
        | Ok (clientAddr, appAddr) =>
            store_fwdsvc name (StartForwarderService "tcp" clientAddr appAddr false)
        end
      else LogError "Forwarding service cannot not started because ClusterIP is unknown"
  end.

(** The forwarding service of [DeployFwd] and [DeployFwdLM]: to the source host. *)
Definition forwardToHost (name srcAddr : string) (srcPort portExt dataRate : Z)
  : prog sysE unit :=
  s <- call (EResGetFwdsvc name);;
  match s with
  | Some _ => LogInfo "Use existing forwarding service"
  | None =>
      r <- getForwardAddrs portExt srcAddr srcPort;;
      match r with
      | Err err => LogErrorE err
      | Ok (clientAddr, remoteAddr) =>
          store_fwdsvc name (StartForwarderServiceDR "tcp" clientAddr remoteAddr true dataRate)
      end
  end.

Definition DeployNew (p : APICore) (req : Request) : prog sysE unit :=
  let name := Deploy_Name (Deploy_ req) in
  let image := NewApp_Image (Deploy_NewApp (Deploy_ req)) in
  let portIn := int32 (PortIn (NewApp_Port (Deploy_NewApp (Deploy_ req)))) in
  let portExt := int32 (PortExt (NewApp_Port (Deploy_NewApp (Deploy_ req)))) in
  let env := NewApp_Env (Deploy_NewApp (Deploy_ req)) in
  let podName := ToPodName name in
  let containerName := ToContainerName name in
  let serviceName := ToServiceName name in
  let clusterIPName := ToClusterIPName name in
  with_res name (
    r <- NewClient;;
    match r with
    | Err err => LogErrorE err
    | Ok (clientset, _) =>
        newPod <- createNewPod clientset name podName containerName image portIn env [] [];;
        clusterIP <- createOrGetClusterIP clientset name serviceName clusterIPName portIn;;
        forwardToClusterIP name clusterIP portIn portExt;;
        if newPod : bool then
          err <- WaitForPodReady clientset podName WaitPodTimeout;;
          match err with Some err => LogErrorE err | None => Ret tt end
        else Ret tt
    end).

Definition DeployFwd (p : APICore) (req : Request) : prog sysE unit :=
  let name := Deploy_Name (Deploy_ req) in
  let srcAddr := Fwd_SrcAddr (Deploy_Fwd (Deploy_ req)) in
  let portIn := int32 (PortIn (Fwd_Port (Deploy_Fwd (Deploy_ req)))) in
  let portExt := int32 (PortExt (Fwd_Port (Deploy_Fwd (Deploy_ req)))) in
  with_res name (forwardToHost name srcAddr portIn portExt 0).

(** The [LM_Restore] literals of [DeployLM] and [DeployFwdLM]; [fwdsvc] and [dstPodAddr] are
    left out (nil) by the first. *)
Definition newRestore (p : APICore) (clientset : Clientset) (config : RestConfig)
  (podName containerName srcAddr srcName interDstAddr : string) (fwdsvc : option svcref)
  (dstPodAddr : TCPAddr) (bwLimit iteration : Z) : Restore.LM_Restore :=
  let thisAddr := if decide (interDstAddr ≠ "") then interDstAddr else HostAddr p in
  let srcAPIServerAddr := srcAddr +:+ ":" +:+ itoa APIServerPort in
  {| Restore.Clientset_ := clientset;
     Restore.RestConfig_ := config;
     Restore.ThisAddr := thisAddr;
     Restore.DstNamespace := "default";
     Restore.DstPodName := podName;
     Restore.DstContainerName := containerName;
     Restore.SrcAddr := srcAddr;
     Restore.SrcAPIServerAddr := srcAPIServerAddr;
     Restore.SrcName := srcName;
     Restore.Fwdsvc := fwdsvc;
     Restore.DstPodAddr := dstPodAddr;
     Restore.BwLimit := bwLimit;
     Restore.Iteration := iteration |}.

Definition DeployLM (p : APICore) (req : Request) : prog sysE unit :=
  let lm := Deploy_LM (Deploy_ req) in
  let name := Deploy_Name (Deploy_ req) in
  let portIn := int32 (PortIn (LM_Port lm)) in
  let portExt := int32 (PortExt (LM_Port lm)) in
  let podName := ToPodName name in
  let containerName := ToContainerName name in
  let serviceName := ToServiceName name in
  let clusterIPName := ToClusterIPName name in
  with_res name (
    r <- NewClient;;
    match r with
    | Err err => LogErrorE err
    | Ok (clientset, config) =>
        let '(command, args) := GetRestorePodCommand in
        newPod <- createNewPod clientset name podName containerName (LM_Image lm) portIn
                    (LM_Env lm) command args;;
        clusterIP <- createOrGetClusterIP clientset name serviceName clusterIPName portIn;;
        forwardToClusterIP name clusterIP portIn portExt;;
        if newPod : bool then
          err <- WaitForPodReady clientset podName WaitPodTimeout;;
          match err with
          | Some err => LogErrorE err
          | None =>
              let restore := newRestore p clientset config podName containerName
                (LM_SrcAddr lm) (LM_SrcName lm) (LM_DstAddr lm) None (mkTCPAddr "" 0)
                (LM_BwLimit lm) (LM_Iteration lm) in
              r <- Restore.ExecLM restore;;
              match r with Err err => LogErrorE err | Ok _ => Ret tt end
          end
        else LogWarn "Live migration was not performed because creating pod failed"
    end).

(** The goroutine [DeployFwdLM] starts. *)
Definition deployFwdLM_migrate (p : APICore) (req : Request) : prog sysE unit :=
  let lm := Deploy_FwdLM (Deploy_ req) in
  let name := Deploy_Name (Deploy_ req) in
  let portIn := int32 (PortIn (FwdLM_Port lm)) in
  let podName := ToPodName name in
  let containerName := ToContainerName name in
  let serviceName := ToServiceName name in
  let clusterIPName := ToClusterIPName name in
  r <- NewClient;;
  match r with
  | Err err => LogErrorE err
  | Ok (clientset, config) =>
      let '(command, args) := GetRestorePodCommand in
      newPod <- createNewPod clientset name podName containerName (FwdLM_Image lm) portIn
                  (FwdLM_Env lm) command args;;
      clusterIP <- createOrGetClusterIP clientset name serviceName clusterIPName portIn;;
      if negb newPod
      then LogWarn "Live migration was not performed because creating pod failed"
      else
        err <- WaitForPodReady clientset podName WaitPodTimeout;;
        match err with
        | Some err => LogErrorE err
        | None =>
            let dstPodAddr := clusterIP +:+ ":" +:+ itoa portIn in
            r <- call (EResolveTCPAddr "tcp" dstPodAddr);;
            match r with
            | Err err => LogErrorE (WithStack err)
            | Ok dstPodTCPAddr =>
                fwdsvc <- call (EResGetFwdsvc name);;
                let restore := newRestore p clientset config podName containerName
                  (FwdLM_SrcAddr lm) (FwdLM_SrcName lm) (FwdLM_DstAddr lm) fwdsvc dstPodTCPAddr
                  (FwdLM_BwLimit lm) (FwdLM_Iteration lm) in
                r <- Restore.ExecFwdLM restore;;
                match r with Err err => LogErrorE err | Ok _ => Ret tt end
            end
        end
  end.

Definition DeployFwdLM (p : APICore) (req : Request) : prog sysE unit :=
  let lm := Deploy_FwdLM (Deploy_ req) in
  let name := Deploy_Name (Deploy_ req) in
  let portExt := int32 (PortExt (FwdLM_Port lm)) in
  let srcPort := int32 (FwdLM_SrcPort lm) in
  with_res name (
    forwardToHost name (FwdLM_SrcAddr lm) srcPort portExt (FwdLM_DataRate lm);;
    go (deployFwdLM_migrate p req)).

Definition Deploy (p : APICore) (req : Request) : prog sysE unit :=
  let type := Deploy_Type (Deploy_ req) in
  if decide (type = DeployTypeNew) then DeployNew p req
  else if decide (type = DeployTypeFwd) then DeployFwd p req
  else if decide (type = DeployTypeLM) then DeployLM p req
  else if decide (type = DeployTypeFwdLM) then DeployFwdLM p req
  else LogError ("Unsupported deploy type: " +:+ type).

Definition DumpStart (p : APICore) (req : Request) : prog sysE Response :=
  let name := DumpStart_Name (DumpStart_ req) in
  let podName := ToPodName name in
  let containerName := ToContainerName name in
  with_res name (
    r <- NewClient;;
    match r with
    | Err err => LogErrorE err;; Ret (mkResponse false (Error err))
    | Ok (clientset, config) =>
        let dump := {|
          Dump.Clientset_ := clientset;
          Dump.RestConfig_ := config;
          Dump.ThisAddr := HostAddr p;
          Dump.Namespace := "default";
          Dump.PodName := podName;
          Dump.ContainerName := containerName;
          Dump.DstAddr := DumpStart_DstAddr (DumpStart_ req);
          Dump.BwLimit := DumpStart_BwLimit (DumpStart_ req)
        |} in
        r <- Dump.Start (HostConf_ p) dump;;
        match r with
        | Err err => LogErrorE err;; Ret (mkResponse false (Error err))
        | Ok _ => Ret (mkResponse true "")
        end
    end).

(** [res.fwdsvc.Close()]: closes a channel, always answers nil. *)
Definition closeFwdsvc (s : svcref) : prog sysE unit :=
  fresh <- call (EFwdClose s);;
  if fresh : bool then Ret tt else Panic "close of closed channel".

(** From the deletion of the service to the end of [Remove]. *)
Definition deleteObjects (clientset : Clientset) (serviceName podName : string)
  : prog sysE unit :=
  r <- DeleteService clientset serviceName;;
  match r with
  | Some (err, errStack) =>
      if IsNotFound err then LogInfo "No services to delete" else LogErrorE errStack
  | None => LogInfo ("Deleting service: " +:+ serviceName)
  end;;
  r <- DeletePod clientset podName;;
  match r with
  | Some (err, errStack) =>
      if IsNotFound err then LogInfo "No pods to delete" else LogErrorE errStack
  | None =>
      LogInfo ("Deleting pod: " +:+ podName);;
      err <- WaitForPodDeleted clientset podName WaitPodTimeout;;
      match err with Some err => LogErrorE err | None => Ret tt end
  end.

Definition Remove (p : APICore) (req : Request) : prog sysE unit :=
  let name := Remove_Name (Remove_ req) in
  let podName := name +:+ "-pod" in
  let serviceName := name +:+ "-svc" in
  with_res name (
    r <- NewClient;;
    match r with
    | Err err => LogErrorE err
    | Ok (clientset, _) =>
        s <- call (EResGetFwdsvc name);;
        match s with
        | Some fwdsvc => closeFwdsvc fwdsvc;; call (EResSetFwdsvc name None)
        | None => Ret tt
        end;;
        deleteObjects clientset serviceName podName
    end).

End api.
