(* ===== verification/ApiServer.v ===== *)
(** The API server: src/server/api-server.go. *)
From S2P Require Import Prelude Go Errors Types Sys LineIO HostConf Kube LiveMigration ApiCore.
#[local] Open Scope go_scope.

(** In seconds. *)
Definition RequestTimeout : Z := 30.

Section server.
Context `{PkgErrors, K8sLib, JsonLib}.

(** [p] is [TheAPICore]. *)
Definition doDeployReq (p : APICore) (req : Request) : prog sysE unit := Deploy p req.

Definition doRemoveReq (p : APICore) (req : Request) : prog sysE unit := Remove p req.

Definition doDumpStartReq (p : APICore) (req : Request) : prog sysE Response := DumpStart p req.

Definition doUnsupportedReq (req : Request) : prog sysE unit :=
  LogError ("Unsupported request method: " +:+ Method req).

(** The switch of [handleConnection]: the response, if the method has one. *)
Definition dispatch (p : APICore) (req : Request) : prog sysE (option Response) :=
  if decide (Method req = "deploy") then doDeployReq p req;; Ret None
  else if decide (Method req = "remove") then doRemoveReq p req;; Ret None
  else if decide (Method req = "_dumpStart") then
    resp <- doDumpStartReq p req;; Ret (Some resp)
  else doUnsupportedReq req;; Ret None.

(** What [handleConnection] does with the line it has read. *)
Definition respond (p : APICore) (conn : conn) (r : result (list byte) error)
  : prog sysE unit :=
  match r with
  | Err err => LogErrorE err
  | Ok b =>
      LogInfo ("Request: " +:+ String.string_of_list_byte b);;
      match UnmarshalRequest b with
      | Err err => LogErrorE err
      | Ok req =>
          resp <- dispatch p req;;
          match resp with
          | None => Ret tt
          | Some resp =>
              match MarshalResponse resp with
              | Err err => LogErrorE err
              | Ok b =>
                  w <- call (EConnWrite conn b);;
                  match w.2 with Some err => LogErrorE err | None => Ret tt end
              end
          end
      end
  end.

Definition handleConnection (p : APICore) (conn : conn) : prog sysE unit :=
  defer (addr <- call (EConnRemoteAddr conn);; LogInfo ("Close: " +:+ addr);;
         conn_close conn) (
    addr <- call (EConnRemoteAddr conn);;
    LogInfo ("Accept: " +:+ addr);;
    _ <- call (EConnSetReadDeadline conn RequestTimeout);;
    r <- Readline conn;;
    respond p conn r).

Definition StartAPIServer (p : APICore) (addr : string) (chanClose : chan) : prog sysE unit :=
  r <- call (EListen "tcp" addr);;
  match r with
  | Err err => Panic (Error err)
  | Ok ln =>
      open <- call (EVarNew true);;
      go (call (EChanRecv chanClose);;
          call (EVarSet open false);;
          ln_close ln);;
      loop tt (λ _,
        o <- call (EVarGet open);;
        if o : bool then
          r <- call (EAccept ln);;
          match r with
          | Err err =>
              if IsClosedError err
              then LogInfo "API server close";; Ret (inr tt)
              else LogErrorE err;; Ret (inl tt)
          | Ok conn => go (handleConnection p conn);; Ret (inl tt)
          end
        else Ret (inr tt))
  end.

End server.
