(* ===== verification/ApiProofs.v ===== *)
(** The API server as a whole: what its handlers may leave behind, what they touch, and what
    they answer. *)
From S2P Require Import Prelude Go Errors Types Sys LineIO HostConf Kube KubeExec.
From S2P Require Import LiveMigration Ownership RestoreProofs DumpProofs ApiCore ApiServer.
#[local] Open Scope go_scope.

(** * Ownership *)

Section api_owns.
Context `{PkgErrors, K8sLib, JsonLib} `{K8sOk : !K8sLibOk}.
Context (ok : string → Prop) (Hnil : ok nil_dereference).

Lemma calm_NewClient : calm NewClient.
Proof. unfold NewClient. solve_calm. Qed.

Lemma calm_createNewPod cs label pn cn image port env cmd args :
  calm (createNewPod cs label pn cn image port env cmd args).
Proof. unfold createNewPod, CreatePod. solve_calm. Qed.

Lemma calm_createOrGetClusterIP cs label sn cn port :
  calm (createOrGetClusterIP cs label sn cn port).
Proof. unfold createOrGetClusterIP, GetService, CreateService. solve_calm. Qed.

Lemma calm_getForwardAddrs cp ra rp : calm (getForwardAddrs cp ra rp).
Proof. unfold getForwardAddrs. solve_calm. Qed.

Lemma calm_DeleteService cs sn : calm (DeleteService cs sn).
Proof. unfold DeleteService. solve_calm. Qed.

Lemma calm_DeletePod cs pn : calm (DeletePod cs pn).
Proof. unfold DeletePod. solve_calm. Qed.

Lemma calm_IsPodReady cs pn : calm (IsPodReady cs pn).
Proof. unfold IsPodReady, GetPod. solve_calm. Qed.

Lemma calm_IsPodDeleted cs pn : calm (IsPodDeleted cs pn).
Proof. unfold IsPodDeleted, GetPod. solve_calm. Qed.
#[local] Hint Resolve calm_NewClient calm_createNewPod calm_createOrGetClusterIP
  calm_getForwardAddrs calm_DeleteService calm_DeletePod calm_Readline : calm.

(** What the goroutine that holds the resource [name] owns before and after it has looked at
    its service. *)
Definition unlooked (name : string) : ostate := ([HLock name], None).

Definition looked (name : string) (v : option svcref) : ostate :=
  (match v with Some s => [HSvc s; HLock name] | None => [HLock name] end, Some (name, v)).

Definition holding (name : string) (m : ostate) : Prop :=
  m = unlooked name ∨ ∃ v, m = looked name v.

Lemma holding_locked name m : holding name m → slot_locked m.
Proof. intros [->|[[s|] ->]]; unfold slot_locked; simpl; [done|set_solver|set_solver]. Qed.

#[local] Abbreviation own := (owner conns_leak ok).

Lemma with_res_owns {A} name (body : prog sysE A) (Q : ostate → A → Prop) :
  respects own body (unlooked name) (λ m a, holding name m ∧ Q ([], None) a) →
  respects own (with_res name body) ([], None) Q.
Proof.
  intros Hb. unfold with_res. own. apply respects_bind. eapply respects_mono; [exact Hb|].
  intros m a [[->|[[sv|] ->]] HQ]; unfold unlooked, looked; own; exact HQ.
Qed.

Lemma store_fwdsvc_owns name ca sa ext rate (Q : ostate → () → Prop) :
  (∀ v u, Q (looked name v) u) →
  respects own (store_fwdsvc name (StartForwarderServiceDR "tcp" ca sa ext rate))
    (looked name None) Q.
Proof.
  intros HQ. unfold store_fwdsvc, StartForwarderServiceDR, looked.
  own; [apply (HQ (Some x0))|apply (HQ None)].
Qed.

Lemma forwardToClusterIP_owns name ip portIn portExt (Q : ostate → () → Prop) :
  (∀ v u, Q (looked name v) u) →
  respects own (forwardToClusterIP name ip portIn portExt) (unlooked name) Q.
Proof.
  intros HQ. unfold forwardToClusterIP, StartForwarderService, unlooked. own;
    try apply (HQ None); [apply (HQ (Some s))|]. by apply store_fwdsvc_owns.
Qed.

Lemma forwardToHost_owns name addr sp pe rate (Q : ostate → () → Prop) :
  (∀ v u, Q (looked name v) u) →
  respects own (forwardToHost name addr sp pe rate) (unlooked name) Q.
Proof.
  intros HQ. unfold forwardToHost, unlooked. own;
    try apply (HQ None); [apply (HQ (Some s))|]. by apply store_fwdsvc_owns.
Qed.

Lemma WaitForPodReady_owns cs pn t m (Q : ostate → option error → Prop) :
  slot_locked m → (∀ r, Q m r) → respects own (WaitForPodReady cs pn t) m Q.
Proof. intros Hl HQ. unfold WaitForPodReady. apply own_poll; [exact K8sOk|apply calm_IsPodReady|done..]. Qed.

Lemma WaitForPodDeleted_owns cs pn t m (Q : ostate → option error → Prop) :
  slot_locked m → (∀ r, Q m r) → respects own (WaitForPodDeleted cs pn t) m Q.
Proof.
  intros Hl HQ. unfold WaitForPodDeleted. apply own_poll; [exact K8sOk|apply calm_IsPodDeleted|done..].
Qed.

Lemma ExecLM_owns p m (Q : ostate → result unit error → Prop) :
  slot_locked m → (∀ r, Q m r) → respects own (Restore.ExecLM p) m Q.
Proof. destruct m. intros Hl HQ. apply exec_owns; [left; by left|done..]. Qed.

Lemma ExecFwdLM_owns p m (Q : ostate → result unit error → Prop) :
  slot_locked m → (∀ r, Q m r) → respects own (Restore.ExecFwdLM p) m Q.
Proof. destruct m. intros Hl HQ. apply exec_owns; [by right|done..]. Qed.

Lemma holding_unlooked name : holding name ([HLock name], None).
Proof. by left. Qed.

Lemma holding_looked name v : holding name (looked name v).
Proof. right. by exists v. Qed.

Lemma locked_looked name v : slot_locked (looked name v).
Proof. apply (holding_locked name), holding_looked. Qed.
#[local] Hint Resolve holding_unlooked holding_looked locked_looked : core.

Definition ends {A : Type} (p : prog sysE A) : Prop :=
  respects own p ([], None) (λ m _, m = ([], None)).

Lemma DeployNew_owns p req : ends (DeployNew p req).
Proof.
  unfold DeployNew. apply with_res_owns. unfold unlooked. own; [|auto].
  unbind. apply forwardToClusterIP_owns. intros v u. destruct a1; [|by simpl; auto].
  unbind. apply WaitForPodReady_owns; [done|]. intros [e|]; own; auto.
Qed.

Lemma DeployFwd_owns p req : ends (DeployFwd p req).
Proof.
  unfold DeployFwd. apply with_res_owns. apply forwardToHost_owns. intros v u. auto.
Qed.

Lemma DeployLM_owns p req : ends (DeployLM p req).
Proof.
  unfold DeployLM. apply with_res_owns. unfold unlooked. own; [|auto].
  unbind. apply forwardToClusterIP_owns. intros v u. destruct a1; [|by own; auto].
  unbind. apply WaitForPodReady_owns; [done|]. intros [e|]; [by own; auto|].
  unbind. apply ExecLM_owns; [done|]. intros [|]; own; auto.
Qed.

Lemma deployFwdLM_migrate_owns p req : ends (deployFwdLM_migrate p req).
Proof.
  unfold deployFwdLM_migrate, ends. own; try done.
  unbind. apply WaitForPodReady_owns; [done|]. intros [e|]; own; try done.
  unbind. apply ExecFwdLM_owns; [done|]. intros [|]; own; done.
Qed.

Lemma DeployFwdLM_owns p req : ends (DeployFwdLM p req).
Proof.
  unfold DeployFwdLM. apply with_res_owns. unbind. apply forwardToHost_owns. intros v u.
  exists ([], None), (looked (Deploy_Name (Deploy_ req)) v). split.
  { split; [done|]. split; [done|]. split; [done|]. apply locked_looked. }
  split; [|by simpl; auto].
  eapply respects_mono; [apply deployFwdLM_migrate_owns|]. by intros m _ ->.
Qed.

Lemma Deploy_owns p req : ends (Deploy p req).
Proof.
  unfold Deploy. repeat case_decide; [apply DeployNew_owns|apply DeployFwd_owns
    |apply DeployLM_owns|apply DeployFwdLM_owns|]. unfold ends. by own.
Qed.

Lemma DumpStart_owns p req : ends (DumpStart p req).
Proof.
  unfold DumpStart. apply with_res_owns. unfold unlooked. own; [|auto].
  unbind. apply Start_owns; [done|]. intros [|]; own; auto.
Qed.

Lemma closeFwdsvc_owns s H2 H3 sl (Q : ostate → () → Prop) :
  release (HSvc s) H2 = Some H3 → Q (H3, sl) tt → respects own (closeFwdsvc s) (H2, sl) Q.
Proof.
  intros Hr HQ. unfold closeFwdsvc. simpl. intros x Hx. unfold own_legal, own_step_of, own_next. simpl in *.
  rewrite Hr. simpl. rewrite Hx; [done|]. apply release_Permutation in Hr. rewrite Hr. by left.
Qed.

Lemma deleteObjects_owns cs sn pn m (Q : ostate → () → Prop) :
  slot_locked m → (∀ u, Q m u) → respects own (deleteObjects cs sn pn) m Q.
Proof.
  intros Hl HQ. unfold deleteObjects. own; try apply HQ.
  all: unbind; apply WaitForPodDeleted_owns; [done|]; intros [|]; own; apply HQ.
Qed.

Lemma Remove_owns p req : ends (Remove p req).
Proof.
  unfold Remove. apply with_res_owns. unfold unlooked. own; [| |by auto].
  - unbind. eapply closeFwdsvc_owns; [solve_release|]. own.
    apply deleteObjects_owns; [solve_locked|]. intros _.
    split; [apply (holding_looked _ None)|done].
  - apply deleteObjects_owns; [solve_locked|]. intros _.
    split; [apply (holding_looked _ None)|done].
Qed.

(** A handler called by a goroutine that owns the connection [c] besides. *)
Lemma ends_conn {A} (q : prog sysE A) c (Q : ostate → A → Prop) :
  ends q → (∀ a, Q ([HConn c], None) a) → respects own q ([HConn c], None) Q.
Proof.
  intros Hq HQ. apply (owner_frame _ _ [HConn c] q ([], None)); [done|].
  eapply respects_mono; [exact Hq|]. intros m a ->. apply HQ.
Qed.

Lemma dispatch_owns p req : ends (dispatch p req).
Proof.
  unfold dispatch, doDeployReq, doRemoveReq, doDumpStartReq, doUnsupportedReq, ends.
  repeat case_decide; unbind.
  - eapply respects_mono; [apply Deploy_owns|]. by intros m a ->.
  - eapply respects_mono; [apply Remove_owns|]. by intros m a ->.
  - eapply respects_mono; [apply DumpStart_owns|]. by intros m a ->.
  - by own.
Qed.

Lemma respond_owns p c r : ends (respond p c r).
Proof.
  unfold respond, ends. own; try done.
  unbind. eapply respects_mono; [apply dispatch_owns|]. intros m q ->. by own.
Qed.

Lemma handleConnection_owns p c :
  respects own (handleConnection p c) ([HConn c], None) (λ m _, mon_final own m).
Proof.
  unfold handleConnection. own; try done.
  unbind. apply ends_conn; [apply respond_owns|]. intros []. own; done.
Qed.

(** What [StartAPIServer] does when it listens. *)
Lemma serving_owns p c ln :
  respects own
    (open <- call (EVarNew true);;
     go (call (EChanRecv c);; call (EVarSet open false);; ln_close ln);;
     loop tt (λ _,
       o <- call (EVarGet open);;
       if o : bool then
         r <- call (EAccept ln);;
         match r with
         | Err err =>
             if IsClosedError err
             then LogInfo "API server close";; Ret (inr tt)
             else LogErrorE err;; Ret (inl tt)
         | Ok conn => go (handleConnection p conn);; Ret (inl tt)
         end
       else Ret (inr tt)))
    ([HListener ln], None) (λ m _, mon_final own m).
Proof.
  own. own_go [HListener ln] (@nil handle); own.
  exists (λ _ m, m = ([], None)). split; [done|]. intros [] m ->. own; try done.
  own_go [HConn a] (@nil handle); [apply handleConnection_owns|by own].
Qed.

End api_owns.

#[local] Hint Resolve Restore.only_sendDumpStartRequest Restore.only_sendDumpServiceRequest
  Restore.only_preDumps Restore.only_waitForResume : only.

(** * Deployments: what a handler does to the cluster and to the resource *)

Inductive dep_op :=
| DPodCreate (pod : Pod)
| DPodDelete (namespace name : string)
| DSvcCreate (svc : Service)
| DSvcDelete (namespace name : string)
| DResolve (addr : string) (r : result TCPAddr error)
| DListen (a : TCPAddr) (r : result listener error)
| DStart (ln : listener) (clientAddr serverAddr : TCPAddr) (isExtHost : bool) (dataRate : Z)
    (s : svcref)
| DClose (s : svcref)
| DGet (name : string) (v : option svcref)
| DSet (name : string) (v : option svcref).

Definition dep_op_of (o : obs sysE) : option dep_op :=
  match o with
  | @Obs _ X e x =>
      match e in sysE Y return Y → option dep_op with
      | EPodCreate _ _ pod => λ _, Some (DPodCreate pod)
      | EPodDelete _ ns n => λ _, Some (DPodDelete ns n)
      | ESvcCreate _ _ svc => λ _, Some (DSvcCreate svc)
      | ESvcDelete _ ns n => λ _, Some (DSvcDelete ns n)
      | EResolveTCPAddr _ a => λ r, Some (DResolve a r)
      | EListenTCP _ a => λ r, Some (DListen a r)
      | EFwdStart _ ln ca sa ext rate => λ s, Some (DStart ln ca sa ext rate s)
      | EFwdClose s => λ _, Some (DClose s)
      | EResGetFwdsvc n => λ v, Some (DGet n v)
      | EResSetFwdsvc n v => λ _, Some (DSet n v)
      | _ => λ _, None
      end x
  end.

(** From the port a client connects to and the address behind it to a forwarding service in
    the resource [name]: both addresses are resolved, the listener is opened, the service is
    started and stored; the first failure ends it. *)
Inductive starts (name caddr raddr : string) (isExtHost : bool) (dataRate : Z)
  : list dep_op → Prop :=
| st_client e : starts name caddr raddr isExtHost dataRate [DResolve caddr (Err e)]
| st_remote ca e :
    starts name caddr raddr isExtHost dataRate [DResolve caddr (Ok ca); DResolve raddr (Err e)]
| st_listen ca ra e :
    starts name caddr raddr isExtHost dataRate
      [DResolve caddr (Ok ca); DResolve raddr (Ok ra); DListen ca (Err e)]
| st_done ca ra ln s :
    starts name caddr raddr isExtHost dataRate
      [DResolve caddr (Ok ca); DResolve raddr (Ok ra); DListen ca (Ok ln);
       DStart ln ca ra isExtHost dataRate s; DSet name (Some s)].

(** Undoes [errors.WithStack] in the equations of a symbolic run. *)
Ltac unstack :=
  repeat match goal with
  | H : match ?x with Ok _ => _ | Err _ => _ end = _ |- _ => destruct x; simplify_eq
  end; simplify_eq.

Section deploy_specs.
Context `{PkgErrors, K8sLib, JsonLib} `{K8sOk : !K8sLibOk}.

Lemma silent_WaitForPodReady legal cs pn t : silent dep_op_of legal (WaitForPodReady cs pn t).
Proof.
  intros l. eapply respects_mono;
    [apply (PollImmediate_rule _ (λ l', l' = l) (λ l', l' = l) (λ l', l' = l)); [done|]|].
  - intros l1 ->. unfold IsPodReady, GetPod. run dep_op_of; repeat case_match; done.
  - intros l' [e|]; naive_solver.
Qed.

Lemma silent_WaitForPodDeleted legal cs pn t :
  silent dep_op_of legal (WaitForPodDeleted cs pn t).
Proof.
  intros l. eapply respects_mono;
    [apply (PollImmediate_rule _ (λ l', l' = l) (λ l', l' = l) (λ l', l' = l)); [done|]|].
  - intros l1 ->. unfold IsPodDeleted, GetPod. run dep_op_of; repeat case_match; done.
  - intros l' [e|]; naive_solver.
Qed.
#[local] Hint Resolve silent_WaitForPodReady silent_WaitForPodDeleted : silent.

Lemma forwardToHost_ops legal name addr sp pext rate l :
  respects (collector dep_op_of legal) (forwardToHost name addr sp pext rate) l (λ l' _,
    ∃ v ops, l' = l ++ DGet name v :: ops ∧
      match v with
      | Some _ => ops = []
      | None => starts name (":" +:+ itoa pext) (addr +:+ ":" +:+ itoa sp) true rate ops
      end).
Proof.
  unfold forwardToHost, getForwardAddrs, store_fwdsvc, StartForwarderServiceDR.
  run dep_op_of; unstack; rewrite <- ?app_assoc; eexists _, _; (split; [reflexivity|]);
    first [done | constructor].
Qed.

Lemma forwardToClusterIP_ops legal name ip pin pext l :
  respects (collector dep_op_of legal) (forwardToClusterIP name ip pin pext) l (λ l' _,
    ∃ v ops, l' = l ++ DGet name v :: ops ∧
      match v with
      | Some _ => ops = []
      | None =>
          if decide (ip = "") then ops = []
          else starts name (":" +:+ itoa pext) (ip +:+ ":" +:+ itoa pin) false 0 ops
      end).
Proof.
  unfold forwardToClusterIP, getForwardAddrs, store_fwdsvc, StartForwarderService,
    StartForwarderServiceDR.
  run dep_op_of; unstack; rewrite <- ?app_assoc; eexists _, _; (split; [reflexivity|]);
    repeat case_decide; first [done | constructor].
Qed.

(** What happens to the Kubernetes service of a deployment: it is there, it is made, or it
    cannot be known; and the cluster IP that comes out. *)
Definition clusterIP_ops (name : string) (port : Z) (ops : list dep_op) : Prop :=
  ops = [] ∨
  ops = [DSvcCreate (newServiceObject (ToServiceName name) name (ToClusterIPName name) port)].

Lemma createOrGetClusterIP_ops legal cs name port l :
  respects (collector dep_op_of legal)
    (createOrGetClusterIP cs name (ToServiceName name) (ToClusterIPName name) port) l
    (λ l' _, ∃ ops, l' = l ++ ops ∧ clusterIP_ops name port ops).
Proof.
  unfold createOrGetClusterIP, GetService, CreateService, clusterIP_ops.
  run dep_op_of; try (eexists; split; [reflexivity|by right]);
    exists []; rewrite app_nil_r; auto.
Qed.

Lemma createNewPod_ops cs label pn cn image port env cmd args l :
  respects (collector dep_op_of sane)
    (createNewPod cs label pn cn image port env cmd args) l
    (λ l' _, ∃ vars, vars ≡ₚ map_to_list env ∧
       l' = l ++ [DPodCreate (newPodObject pn label cn image port vars cmd args)]).
Proof.
  unfold createNewPod, CreatePod. run dep_op_of; eexists; (split; [eassumption|reflexivity]).
Qed.

Lemma silent_exec legal p : silent dep_op_of legal (Restore.exec p false).
Proof.
  intros l. unfold Restore.exec, Restore.resumeListener, Restore.finalPhase.
  run dep_op_of; done.
Qed.

(** The whole of a deployment through the cluster: nothing when there is no client for the
    cluster; otherwise the pod is asked for, the service looked up or made, and the resource
    gets a forwarding service to its cluster IP unless it has one. *)
Definition deployment (name image : string) (portIn portExt : Z) (env : gmap string string)
  (command args : list string) (ops : list dep_op) : Prop :=
  ops = [] ∨
  ∃ vars svc_ops v fwd_ops,
    ops = DPodCreate (newPodObject (ToPodName name) name (ToContainerName name) image portIn
                        vars command args) :: svc_ops ++ DGet name v :: fwd_ops ∧
    vars ≡ₚ map_to_list env ∧ clusterIP_ops name portIn svc_ops ∧
    match v with
    | Some _ => fwd_ops = []
    | None =>
        fwd_ops = [] ∨
        ∃ ip, ip ≠ "" ∧
              starts name (":" +:+ itoa portExt) (ip +:+ ":" +:+ itoa portIn) false 0 fwd_ops
    end.

(** The part of [DeployNew] and [DeployLM] that deploys, and the rest. *)
Lemma deployment_ops cs name image portIn portExt env command args
    (rest : bool → prog sysE unit) :
  (∀ b, silent dep_op_of sane (rest b)) →
  respects (collector dep_op_of sane)
    (newPod <- createNewPod cs name (ToPodName name) (ToContainerName name) image portIn env
                 command args;;
     clusterIP <- createOrGetClusterIP cs name (ToServiceName name) (ToClusterIPName name)
                    portIn;;
     forwardToClusterIP name clusterIP portIn portExt;;
     rest newPod) [] (λ l _, deployment name image portIn portExt env command args l).
Proof.
  intros Hrest. after_bind createNewPod_ops. intros l newPod (vars & Hvars & ->).
  after_bind createOrGetClusterIP_ops. intros l ip (svc_ops & -> & Hsvc).
  after_bind forwardToClusterIP_ops. intros l u (v & fwd_ops & -> & Hfwd).
  eapply respects_mono; [apply Hrest|]. intros l' _ ->. right.
  exists vars, svc_ops, v, fwd_ops. split; [by rewrite <- ?app_assoc|]. split; [done|].
  split; [done|]. destruct v; [done|]. case_decide; [by left|right]. eauto.
Qed.

Lemma with_res_ops {A} legal name (body : prog sysE A) (Q : list dep_op → A → Prop) l :
  respects (collector dep_op_of legal) body l Q →
  respects (collector dep_op_of legal) (with_res name body) l Q.
Proof.
  intros Hb. unfold with_res. run dep_op_of. apply respects_bind.
  eapply respects_mono; [exact Hb|]. by run dep_op_of.
Qed.

Lemma DeployNew_ops p req :
  let r := Deploy_NewApp (Deploy_ req) in
  respects (collector dep_op_of sane) (DeployNew p req) [] (λ l _,
    deployment (Deploy_Name (Deploy_ req)) (NewApp_Image r) (int32 (PortIn (NewApp_Port r)))
      (int32 (PortExt (NewApp_Port r))) (NewApp_Env r) [] [] l).
Proof.
  cbv zeta. unfold DeployNew. apply with_res_ops. run dep_op_of; [|by left].
  apply deployment_ops. intros [] l1; run dep_op_of; done.
Qed.

Lemma DeployLM_ops p req :
  let r := Deploy_LM (Deploy_ req) in
  respects (collector dep_op_of sane) (DeployLM p req) [] (λ l _,
    deployment (Deploy_Name (Deploy_ req)) (LM_Image r) (int32 (PortIn (LM_Port r)))
      (int32 (PortExt (LM_Port r))) (LM_Env r) GetRestorePodCommand.1 GetRestorePodCommand.2 l).
Proof.
  cbv zeta. unfold DeployLM. apply with_res_ops. run dep_op_of; [|by left].
  apply (deployment_ops c (Deploy_Name (Deploy_ req)) _ _ _ _ _ _ (λ newPod, _)).
  intros [] l1; run dep_op_of; try done. unbind.
  eapply respects_mono; [apply silent_exec|]. intros l' [r0|e] ->; run dep_op_of; done.
Qed.

Lemma DeployFwd_ops legal p req :
  let r := Deploy_Fwd (Deploy_ req) in
  respects (collector dep_op_of legal) (DeployFwd p req) [] (λ l _,
    ∃ v ops, l = DGet (Deploy_Name (Deploy_ req)) v :: ops ∧
      match v with
      | Some _ => ops = []
      | None =>
          starts (Deploy_Name (Deploy_ req)) (":" +:+ itoa (int32 (PortExt (Fwd_Port r))))
            (Fwd_SrcAddr r +:+ ":" +:+ itoa (int32 (PortIn (Fwd_Port r)))) true 0 ops
      end).
Proof. cbv zeta. unfold DeployFwd. apply with_res_ops. apply forwardToHost_ops. Qed.

Lemma Remove_ops legal p req :
  let name := Remove_Name (Remove_ req) in
  respects (collector dep_op_of legal) (Remove p req) [] (λ l _,
    l = [] ∨ ∃ v, l =
      DGet name v ::
      match v with Some s => [DClose s; DSet name None] | None => [] end ++
      [DSvcDelete "default" (ToServiceName name); DPodDelete "default" (ToPodName name)]).
Proof.
  cbv zeta. unfold Remove. apply with_res_ops. run dep_op_of; [| |by left].
  - unfold closeFwdsvc. run dep_op_of. unfold deleteObjects, DeleteService, DeletePod.
    run dep_op_of; right; exists (Some s); done.
  - unfold deleteObjects, DeleteService, DeletePod.
    run dep_op_of; right; exists None; done.
Qed.

End deploy_specs.

(** * Properties *)

Lemma server_running `{PkgErrors, K8sLib, JsonLib} p addr c q :
  running q = false → q ≠ StartAPIServer p addr c.
Proof. by intros Hq ->. Qed.

(** A runtime error, or the reason why the server could not listen. *)
Lemma listen_first `{PkgErrors, K8sLib, JsonLib} (p : APICore) (addr : string) (c : chan)
    (ts : list (prog sysE unit)) (mem : shared_mem) :
  rtc (pstep own_sem) ([StartAPIServer p addr c], ([], ∅)) (ts, mem) →
  (ts = [StartAPIServer p addr c] ∧ mem = ([], ∅)) ∨
  (∃ err, ts = [Panic (Error err)]) ∨
  (∃ q ln, (∀ ok, ok nil_dereference → K8sLibOk →
              respects (owner conns_leak ok) q ([HListener ln], None)
                (λ m _, mon_final (owner conns_leak ok) m)) ∧
           rtc (pstep own_sem) ([q], ([HListener ln], ∅)) (ts, mem)).
Proof.
  intros Hr. apply rtc_inv in Hr as [[= <- <-]|([ts1 mem1] & Hs & Hr)]; [by left|]. right.
  inversion Hs as [ts0 s0 i t t' Hi Hl|ts0 s0 s0' i t o t' Hi Hl Hsem|ts0 s0 i t t1 t' Hi Hl];
    subst; apply list_lookup_singleton_Some in Hi as [-> <-]; simpl in Hl.
  - by destruct Hl as (? & [=] & _).
  - destruct Hl as (x & [= ->] & ->). destruct Hsem as (_ & Ho & _ & Hsl & _).
    destruct x as [ln|err]; simpl in *.
    + right. eexists _, ln. split; [|destruct mem1; simpl in *; subst; exact Hr].
      intros ok Hok HK. by apply serving_owns.
    + left. exists err. apply rtc_inv in Hr as [[= <- <-]|(c1 & Hs' & _)]; [done|].
      inversion Hs' as [? ? j u ? Hj Hu|? ? ? j u ? ? Hj Hu|? ? j u ? ? Hj Hu]; subst;
        apply list_lookup_singleton_Some in Hj as [-> <-]; done.
  - by destruct Hl as (? & [=] & _).
Qed.


(** A server that is told to stop while a request is served. *)
Definition stopping (X : Type) (e : sysE X) : option X :=
  match e in sysE Y return option Y with
  | EVarGet _ => Some false
  | _ => None
  end.

Definition ref_server : list (prog sysE unit) * shared_mem :=
  pool_run (own_machine stopping) 40 0
    ([@StartAPIServer ReferenceK8s.pkg ReferenceK8s.lib ReferenceJson.lib
        (NewAPICore (mkHostConf "eth0" "127.0.0.1:22" "root" "id") "10.0.0.1" "") ":9999" 77],
     ([], ∅)).


Abbreviation ref_core := (NewAPICore (mkHostConf "eth0" "127.0.0.1:22" "root" "id") "10.0.0.1" "").

(** A request to migrate [app], whose external port is taken. *)
Definition migrate_app : Request :=
  mkRequest "deploy"
    (mkDeployReq "app" DeployTypeFwdLM (mkNewAppReq "" zero_Port ∅) (mkFwdReq "" zero_Port)
       (mkLMReq "" "" "" zero_Port "" ∅ 0 0)
       (mkFwdLMReq "img" "10.0.0.2" "app" 8888 (mkPort 8888 9889) "" ∅ 0 1 0))
    (mkRemoveReq "") (mkRequestDumpStart "" "" 0).

Definition port_taken (X : Type) (e : sysE X) : option X :=
  match e in sysE Y return option Y with
  | EListenTCP _ _ => Some (Err (EText "bind: address already in use"))
  | e => ReferenceJson.replying [x01] 0 _ e
  end.

Definition nil_panic_pool : list (prog sysE unit) * shared_mem :=
  pool_run (own_machine port_taken) 200 0
    ([@Deploy ReferenceK8s.pkg ReferenceK8s.lib ReferenceJson.lib
        (NewAPICore (mkHostConf "eth0" "127.0.0.1:22" "root" "id") "10.0.0.1" "") migrate_app],
     ([], ∅)).

(** C20.  The panic is real.  When the external port of a [fwdlm] deployment is taken, the
    handler goes on with a nil forwarding service, and the goroutine it starts dereferences
    it at the end of the pre-dumps: a request crashes the server. *)
Theorem DeployFwdLM_nil_panic :
  rtc (pstep own_sem)
    ([@Deploy ReferenceK8s.pkg ReferenceK8s.lib ReferenceJson.lib
        (NewAPICore (mkHostConf "eth0" "127.0.0.1:22" "root" "id") "10.0.0.1" "") migrate_app],
     ([], ∅)) nil_panic_pool ∧
  nil_panic_pool.1 !! 1 = Some (Panic nil_dereference).
Proof.
  split; [|vm_compute; reflexivity]. apply pool_run_steps, own_machine_sem.
Qed.


(** A request that asks for an application, and for its migration from another host. *)
Definition deploy_app : Request :=
  mkRequest "deploy"
    (mkDeployReq "app" DeployTypeNew (mkNewAppReq "img" (mkPort 8888 9889) {["K" := "V"]})
       (mkFwdReq "10.0.0.2" (mkPort 8888 9889))
       (mkLMReq "img" "10.0.0.2" "app" (mkPort 8888 9889) "" ∅ 0 1)
       (mkFwdLMReq "" "" "" 0 zero_Port "" ∅ 0 0 0))
    (mkRemoveReq "app") (mkRequestDumpStart "" "" 0).

Definition ref_DeployNew : prog sysE unit :=
  @DeployNew ReferenceK8s.pkg ReferenceK8s.lib ref_core deploy_app.
Definition ref_DeployLM : prog sysE unit :=
  @DeployLM ReferenceK8s.pkg ReferenceK8s.lib ReferenceJson.lib ref_core deploy_app.

(** The cluster has no service of this name yet. *)
Definition no_service (n : nat) (X : Type) (e : sysE X) : option X :=
  match e in sysE Y return option Y with
  | ESvcGet _ _ _ => Some (Err (EOpaque "NotFound" "not found"))
  | ESvcCreate _ _ svc =>
      Some (Ok (mkService "Service" "v1" (Svc_Name svc) ∅ "ClusterIP" [] ∅ "10.96.0.7"))
  | e => ReferenceJson.replying [x01] n _ e
  end.



Definition ref_DeployFwd : prog sysE unit :=
  @DeployFwd ReferenceK8s.pkg ref_core deploy_app.



Definition ref_Remove : prog sysE unit :=
  @Remove ReferenceK8s.pkg ReferenceK8s.lib ref_core deploy_app.

(** The resource has a forwarding service, and its pod is gone at once. *)
Definition deployed (n : nat) (X : Type) (e : sysE X) : option X :=
  match e in sysE Y return option Y with
  | EResGetFwdsvc _ => Some (Some 3)
  | EPodGet _ _ _ => Some (Err (EOpaque "NotFound" "not found"))
  | _ => None
  end.

