(* ===== verification/Isolation.v ===== *)
(** Requests about one application leave the others alone: every effect a request has on
    the cluster or on the server's resources, its own or of a goroutine it starts, names
    that application. *)
From S2P Require Import Prelude Go Errors Types Sys LineIO HostConf Kube KubeExec.
From S2P Require Import LiveMigration Ownership ApiCore ApiServer.
#[local] Open Scope go_scope.

(** The application a request is about. *)
Definition subject (req : Request) : string :=
  if decide (Method req = "deploy") then Deploy_Name (Deploy_ req)
  else if decide (Method req = "remove") then Remove_Name (Remove_ req)
  else DumpStart_Name (DumpStart_ req).

Definition portforward_path (podName : string) : string :=
  "/api/v1/namespaces/" +:+ "default" +:+ "/pods/" +:+ podName +:+ "/portforward".

(** The port of the application inside its pod, as a request that deploys one gives it. *)
Definition inner_port (req : Request) : Z :=
  let d := Deploy_ req in
  int32 (PortIn (
    if decide (Deploy_Type d = DeployTypeNew) then NewApp_Port (Deploy_NewApp d)
    else if decide (Deploy_Type d = DeployTypeLM) then LM_Port (Deploy_LM d)
    else FwdLM_Port (Deploy_FwdLM d))).

(** The effect concerns the pod, the container, the service or the resource of [name], or
    none; a pod created listens on [port] in its one container, a service created offers it. *)
Definition concerns (name : string) (port : Z) (o : obs sysE) : bool :=
  match o with
  | @Obs _ X e x =>
      match e with
      | EPodCreate _ ns pod =>
          bool_decide (ns = "default" ∧ Pod_Name pod = ToPodName name ∧
                       Cont_Name <$> Pod_Containers pod = [ToContainerName name] ∧
                       Cont_Ports <$> Pod_Containers pod = [[port]] ∧
                       Pod_Labels pod = {["app" := name]})
      | EPodGet _ ns n | EPodDelete _ ns n =>
          bool_decide (ns = "default" ∧ n = ToPodName name)
      | ESvcCreate _ ns svc =>
          bool_decide (ns = "default" ∧ Svc_Name svc = ToServiceName name ∧
                       Svc_Selector svc = {["app" := name]} ∧
                       Svc_Ports svc = [mkServicePort (ToClusterIPName name) "TCP" port])
      | ESvcGet _ ns n | ESvcDelete _ ns n =>
          bool_decide (ns = "default" ∧ n = ToServiceName name)
      | ENewSPDYExecutor _ r | EStream r _ =>
          bool_decide (Exec_Namespace r = "default" ∧ Exec_Pod r = ToPodName name ∧
                       Exec_Container r = ToContainerName name)
      | ENewOnAddresses s _ _ => bool_decide (PF_Path s = portforward_path (ToPodName name))
      | EResLoadOrStore n | EResLock n | EResUnlock n | EResGetFwdsvc n
      | EResSetFwdsvc n _ => bool_decide (n = name)
      | _ => true
      end
  end.

(** The methods by which a migration moves a forwarding service, and the service. *)
Definition moved_service (o : obs sysE) : option svcref :=
  match o with
  | @Obs _ X e x =>
      match e with
      | EFwdSuspend s | EFwdResume s | EFwdCloseAll s | EFwdChangeServerAddr s _
      | EFwdChangeDataRate s _ => Some s
      | _ => None
      end
  end.

(** The effect starts a forwarding service. *)
Definition starts_service (o : obs sysE) : bool :=
  match o with @Obs _ X e x => match e with EFwdStart _ _ _ _ _ _ => true | _ => false end end.

(** The effect concerns [name], moves only services of [may], and starts one only if [start]
    says so. *)
Definition allowed (name : string) (port : Z) (start : bool) (may : svcref → bool)
    (o : obs sysE) : bool :=
  concerns name port o && from_option may true (moved_service o) &&
  (start || negb (starts_service o)).

(** The request asks for a migration of a forwarding service. *)
Definition migrates (req : Request) : bool :=
  bool_decide (Method req = "deploy" ∧ Deploy_Type (Deploy_ req) = DeployTypeFwdLM).

Create HintDb guarded discriminated.
#[export] Hint Constants Opaque : guarded.
#[export] Hint Resolve eq_refl : guarded.

Lemma allowed_decide name port start may o P `{!Decision P} :
  concerns name port o = bool_decide P → moved_service o = None → starts_service o = false → P →
  allowed name port start may o = true.
Proof.
  intros Hc Hm Hs HP. unfold allowed. rewrite Hc, Hm, Hs, bool_decide_eq_true_2 by done.
  by destruct start.
Qed.

Lemma allowed_other name port start may o :
  concerns name port o = true → moved_service o = None → starts_service o = false →
  allowed name port start may o = true.
Proof. intros Hc Hm Hs. unfold allowed. rewrite Hc, Hm, Hs. by destruct start. Qed.

Lemma allowed_move name port start may o s :
  concerns name port o = true → moved_service o = Some s → starts_service o = false →
  may s = true → allowed name port start may o = true.
Proof. intros Hc Hm Hs Hmay. unfold allowed. rewrite Hc, Hm, Hs. simpl. rewrite Hmay. by destruct start. Qed.

Ltac solve_guarded :=
  repeat (
    unfold LogErrorE, LogError, LogWarn, LogInfo, stacked, stacked_err, ln_close, conn_close,
      chan_close, defer, defer_on, call, go, loop;
    cbn [bind fst snd];
    match goal with
    | |- ∀ _, _ => intro
    | |- allowed _ _ _ _ _ = true =>
        first [reflexivity
              | match goal with H : ?b = true |- _ => is_var b; unfold allowed; by rewrite H end
              | apply allowed_other; [reflexivity|reflexivity|reflexivity]
              | eapply allowed_decide; [reflexivity|reflexivity|reflexivity|by repeat split]
              | eapply allowed_move; [reflexivity|reflexivity|reflexivity|solve [eauto]]]
    | |- guarded _ (Ret _) => exact I
    | |- guarded _ (Panic _) => exact I
    | |- guarded _ (Vis _ _) => apply guarded_vis
    | |- guarded _ (Iter _ _ _) => apply guarded_iter
    | |- guarded _ (Go _ _) => apply guarded_go
    | |- guarded _ _ => solve [eauto with guarded nocore]
    | |- guarded _ (bind _ _) => apply guarded_bind
    | |- guarded _ (match ?x with _ => _ end) => destruct x eqn:?
    end).

Section isolation.
Context `{PkgErrors, K8sLib, JsonLib} `{K8sOk : !K8sLibOk}.
Context (name : string) (port : Z) (start : bool) (may : svcref → bool).
#[local] Abbreviation ours := (guarded (allowed name port start may)).

Lemma guarded_poll interval timeout cond :
  ours cond → ours (PollImmediate interval timeout cond).
Proof.
  intros Hc. eapply respects_mono;
    [apply (PollImmediate_rule _ (λ _, True) (λ _, True) (λ _, True)); [done|]|done].
  intros [] _. eapply respects_mono; [exact Hc|]. by intros [] [[]|] _.
Qed.

(** ** Commands in the pod *)

Lemma ours_ExecutePod cs cfg stdin out err cmd :
  ours (ExecutePod cs cfg "default" (ToPodName name) (ToContainerName name) stdin out err cmd).
Proof. unfold ExecutePod. solve_guarded. Qed.
#[local] Hint Resolve ours_ExecutePod : guarded.

Lemma ours_ReadPodFile cs cfg err path :
  ours (ReadPodFile cs cfg "default" (ToPodName name) (ToContainerName name) err path).
Proof. unfold ReadPodFile. solve_guarded. Qed.

Lemma ours_WritePodFile cs cfg err path content perm :
  ours (WritePodFile cs cfg "default" (ToPodName name) (ToContainerName name) err path
          content perm).
Proof. unfold WritePodFile. solve_guarded. Qed.

Lemma ours_OpenKubePortForwardReady cfg lp pp stop :
  ours (OpenKubePortForwardReady cfg "default" (ToPodName name) lp pp stop).
Proof. unfold OpenKubePortForwardReady, NewKubePortForward. solve_guarded. Qed.

Lemma ours_Readline c : ours (Readline c).
Proof. unfold Readline, Scan, scan_read. solve_guarded. Qed.
#[local] Hint Resolve ours_ReadPodFile ours_WritePodFile ours_OpenKubePortForwardReady
  ours_Readline : guarded.

(** ** Migration *)

Lemma ours_sendDumpStartRequest p : ours (Restore.sendDumpStartRequest p).
Proof. unfold Restore.sendDumpStartRequest. solve_guarded. Qed.

Lemma ours_sendDumpServiceRequest c r : ours (Restore.sendDumpServiceRequest c r).
Proof. unfold Restore.sendDumpServiceRequest. solve_guarded. Qed.
#[local] Hint Resolve ours_sendDumpServiceRequest : guarded.

Lemma ours_preDumps c n : ours (Restore.preDumps c n).
Proof. unfold Restore.preDumps. solve_guarded. Qed.

Lemma ours_waitForResume c1 c2 : ours (Restore.waitForResume c1 c2).
Proof. unfold Restore.waitForResume. solve_guarded. Qed.

Lemma ours_resumeListener ln c : ours (Restore.resumeListener ln c).
Proof. unfold Restore.resumeListener. solve_guarded. Qed.
#[local] Hint Resolve ours_sendDumpStartRequest ours_preDumps ours_waitForResume
  ours_resumeListener : guarded.

(** The restore is into the pod of [name]. *)
Definition restores_here (p : Restore.LM_Restore) : Prop :=
  Restore.DstNamespace p = "default" ∧ Restore.DstPodName p = ToPodName name ∧
  Restore.DstContainerName p = ToContainerName name.

(** Only services of [may] are moved. *)
Definition moves_only (p : Restore.LM_Restore) (withFwd : bool) : Prop :=
  withFwd = true → ∀ s, Restore.Fwdsvc p = Some s → may s = true.

Lemma ours_finalPhase p c rc withFwd :
  restores_here p → moves_only p withFwd → ours (Restore.finalPhase p c rc withFwd).
Proof.
  intros (Hns & Hpod & Hc) Hm. red in Hm.
  unfold Restore.finalPhase, on_ptr.
  rewrite Hns, Hpod, Hc. solve_guarded.
Qed.
#[local] Hint Resolve ours_finalPhase : guarded.

Lemma ours_exec p withFwd :
  restores_here p → moves_only p withFwd → ours (Restore.exec p withFwd).
Proof.
  intros Hp Hm. red in Hm. pose proof Hp as (Hns & Hpod & Hc). unfold Restore.exec, on_ptr.
  rewrite Hns, Hpod, Hc. solve_guarded.
Qed.

(** The dump service is the one of the pod of [name]. *)
Definition dumps_here (p : Dump.LM_DumpService) : Prop :=
  Dump.Namespace p = "default" ∧ Dump.PodName p = ToPodName name ∧
  Dump.ContainerName p = ToContainerName name.

Lemma ours_OpenTunnel p la ra c : ours (OpenTunnel p la ra c).
Proof. unfold OpenTunnel, tunnelListener, tunnelRoute. solve_guarded. Qed.

Lemma ours_NewSSHClient hc : ours (NewSSHClient hc).
Proof. unfold NewSSHClient. solve_guarded. Qed.

Lemma ours_serve p pid bw ln c : dumps_here p → ours (Dump.serve p pid bw ln c).
Proof.
  intros (Hns & Hpod & Hc).
  unfold Dump.serve, Dump.serveConn, Dump.handleRequest, Dump.runDump.
  rewrite Hns, Hpod, Hc. solve_guarded.
Qed.
#[local] Hint Resolve ours_OpenTunnel ours_NewSSHClient ours_serve : guarded.

Lemma ours_Start hc p : dumps_here p → ours (Dump.Start hc p).
Proof.
  intros Hp. pose proof Hp as (Hns & Hpod & Hc).
  unfold Dump.Start, Dump.on_error, Dump.getMainPid. rewrite Hns, Hpod, Hc. solve_guarded.
Qed.

(** ** The handlers *)

Lemma ours_NewClient : ours NewClient.
Proof. unfold NewClient. solve_guarded. Qed.

Lemma ours_createNewPod cs image env cmd args :
  ours (createNewPod cs name (ToPodName name) (ToContainerName name) image port env cmd args).
Proof. unfold createNewPod, CreatePod. solve_guarded. Qed.

Lemma ours_createOrGetClusterIP cs :
  ours (createOrGetClusterIP cs name (ToServiceName name) (ToClusterIPName name) port).
Proof. unfold createOrGetClusterIP, GetService, CreateService. solve_guarded. Qed.

Lemma ours_getForwardAddrs cp ra rp : ours (getForwardAddrs cp ra rp).
Proof. unfold getForwardAddrs. solve_guarded. Qed.
#[local] Hint Resolve ours_NewClient ours_createNewPod ours_createOrGetClusterIP
  ours_getForwardAddrs : guarded.

Lemma ours_forwardToClusterIP ip pin pext :
  start = true → ours (forwardToClusterIP name ip pin pext).
Proof.
  intros Hstart.
  unfold forwardToClusterIP, store_fwdsvc, StartForwarderService, StartForwarderServiceDR.
  solve_guarded.
Qed.

Lemma ours_forwardToHost addr sp pext rate :
  start = true → ours (forwardToHost name addr sp pext rate).
Proof.
  intros Hstart. unfold forwardToHost, store_fwdsvc, StartForwarderServiceDR. solve_guarded.
Qed.

Lemma ours_with_res {A} (body : prog sysE A) : ours body → ours (with_res name body).
Proof. intros Hb. unfold with_res. solve_guarded. Qed.

Lemma ours_WaitForPodReady cs t : ours (WaitForPodReady cs (ToPodName name) t).
Proof. apply guarded_poll. unfold IsPodReady, GetPod. solve_guarded. Qed.

Lemma ours_WaitForPodDeleted cs t : ours (WaitForPodDeleted cs (ToPodName name) t).
Proof. apply guarded_poll. unfold IsPodDeleted, GetPod. solve_guarded. Qed.
#[local] Hint Resolve ours_forwardToClusterIP ours_forwardToHost ours_WaitForPodReady
  ours_WaitForPodDeleted : guarded.

Lemma restores_newRestore p cs cfg sa sn da fs dst bw it :
  restores_here (newRestore p cs cfg (ToPodName name) (ToContainerName name) sa sn da fs dst
                   bw it).
Proof. done. Qed.

Lemma ours_ExecLM p : restores_here p → ours (Restore.ExecLM p).
Proof. intros Hp. by apply ours_exec. Qed.

Lemma ours_ExecFwdLM p :
  restores_here p → (∀ s, may s = true) → ours (Restore.ExecFwdLM p).
Proof. intros Hp Hm. apply ours_exec; [done|]. intros _ s _. apply Hm. Qed.
#[local] Hint Resolve restores_newRestore ours_ExecLM ours_ExecFwdLM ours_Start : guarded.

End isolation.

#[export] Hint Resolve ours_NewClient ours_createNewPod ours_createOrGetClusterIP
  ours_forwardToClusterIP ours_forwardToHost ours_WaitForPodReady ours_WaitForPodDeleted
  ours_Readline ours_ExecutePod ours_WritePodFile ours_OpenKubePortForwardReady
  ours_sendDumpServiceRequest ours_sendDumpStartRequest ours_preDumps ours_waitForResume
  ours_resumeListener restores_newRestore ours_ExecLM ours_ExecFwdLM ours_Start : guarded.

Section isolation_api.
Context `{PkgErrors, K8sLib, JsonLib} `{K8sOk : !K8sLibOk}.
Context (may : svcref → bool).
#[local] Abbreviation ours name port := (guarded (allowed name port true may)).

Lemma ours_DeployNew p req :
  ours (Deploy_Name (Deploy_ req)) (int32 (PortIn (NewApp_Port (Deploy_NewApp (Deploy_ req)))))
    (DeployNew p req).
Proof. unfold DeployNew. apply ours_with_res. solve_guarded. Qed.

Lemma ours_DeployFwd p req port :
  ours (Deploy_Name (Deploy_ req)) port (DeployFwd p req).
Proof. unfold DeployFwd. apply ours_with_res. solve_guarded. Qed.

Lemma ours_DeployLM p req :
  ours (Deploy_Name (Deploy_ req)) (int32 (PortIn (LM_Port (Deploy_LM (Deploy_ req)))))
    (DeployLM p req).
Proof. unfold DeployLM. apply ours_with_res. solve_guarded. Qed.

Lemma ours_DeployFwdLM p req :
  (∀ s, may s = true) → ours (Deploy_Name (Deploy_ req)) (int32 (PortIn (FwdLM_Port (Deploy_FwdLM (Deploy_ req)))))
    (DeployFwdLM p req).
Proof.
  intros Hm. unfold DeployFwdLM, deployFwdLM_migrate. apply ours_with_res. solve_guarded.
Qed.

Lemma ours_Deploy p req :
  (Deploy_Type (Deploy_ req) = DeployTypeFwdLM → ∀ s, may s = true) →
  ours (Deploy_Name (Deploy_ req)) (inner_port req) (Deploy p req).
Proof.
  intros Hm. unfold Deploy, inner_port.
  repeat case_decide; try congruence;
    match goal with
    | |- guarded _ (DeployNew _ _) => apply ours_DeployNew
    | |- guarded _ (DeployFwd _ _) => apply ours_DeployFwd
    | |- guarded _ (DeployLM _ _) => apply ours_DeployLM
    | |- guarded _ (DeployFwdLM _ _) => by apply ours_DeployFwdLM, Hm
    | |- _ => solve_guarded
    end.
Qed.

Lemma ours_DumpStart p req port :
  ours (DumpStart_Name (DumpStart_ req)) port (DumpStart p req).
Proof.
  unfold DumpStart. apply ours_with_res. solve_guarded. apply ours_Start. done.
Qed.

Lemma ours_Remove p req port : ours (Remove_Name (Remove_ req)) port (Remove p req).
Proof.
  unfold Remove, deleteObjects, closeFwdsvc, DeleteService, DeletePod.
  change (Remove_Name (Remove_ req) +:+ "-pod") with (ToPodName (Remove_Name (Remove_ req))).
  apply ours_with_res. solve_guarded.
Qed.

Lemma ours_dispatch p req :
  (migrates req = true → ∀ s, may s = true) → ours (subject req) (inner_port req) (dispatch p req).
Proof.
  intros Hm.
  unfold dispatch, doDeployReq, doRemoveReq, doDumpStartReq, doUnsupportedReq, subject.
  case_decide.
  { apply guarded_bind; [apply ours_Deploy|done]. intros Ht. apply Hm.
    by apply bool_decide_eq_true. }
  case_decide; [apply guarded_bind; [apply ours_Remove|done]|].
  case_decide; [apply guarded_bind; [apply ours_DumpStart|done]|]. solve_guarded.
Qed.

End isolation_api.

(** Serving the request, the server can reach a state in which [o] is the next effect of one of
    the request's goroutines, whatever the resources were at its start. *)
Definition does `{PkgErrors, K8sLib, JsonLib} (p : APICore) (req : Request) (o : obs sysE)
  : Prop :=
  ∃ (mem0 mem : shared_mem) ts i q q',
    rtc (pstep own_sem) ([dispatch p req;; Ret tt], mem0) (ts, mem) ∧
    ts !! i = Some q ∧ lstep q (LVis o) q'.

Lemma does_allowed `{PkgErrors, K8sLib, JsonLib} p req o :
  K8sLibOk → does p req o → allowed (subject req) (inner_port req) true (λ _, true) o = true.
Proof.
  intros HK (mem0 & mem & ts & i & q & q' & Hr & Hi & Hl).
  eapply (guarded_pool _ own_sem); [|done..].
  apply guarded_bind; [by apply ours_dispatch|done].
Qed.

Lemma singleton_map_le (k a b : string) : {[k := a]} ⊆ ({[k := b]} : gmap string string) ↔ a = b.
Proof.
  split; [|by intros ->]. intros Hs. apply map_singleton_subseteq_l in Hs.
  rewrite lookup_singleton_eq in Hs. congruence.
Qed.

(** * Properties *)

(** C11.  Isolation.  Whatever a request asks, in every state the server can reach serving it
    (the goroutines it starts included), the next effect of any goroutine on a pod, a
    container, a Kubernetes service or a resource of the server is on the one of the
    request's own application, in the namespace [default]; the objects created carry its
    name as their label and selector. *)
Theorem requests_isolated `{PkgErrors, K8sLib, JsonLib} (p : APICore) (req : Request)
    (o : obs sysE) :
  K8sLibOk → does p req o → concerns (subject req) (inner_port req) o = true.
Proof. intros HK Hd%does_allowed; [|done]. by apply andb_prop in Hd as [[? _]%andb_prop _]. Qed.

Definition ref_remove : Request :=
  mkRequest "remove" zero_DeployReq (mkRemoveReq "app") (mkRequestDumpStart "" "" 0).

Definition ref_core : APICore :=
  NewAPICore (mkHostConf "eth0" "127.0.0.1:22" "root" "id") "10.0.0.1" "".

(** No service of the application is there yet. *)
Definition no_service (X : Type) (e : sysE X) : option X :=
  match e with
  | ESvcGet _ _ _ => Some (Err (EOpaque "NotFound" "services not found"))
  | _ => None
  end.

(** The server about to make its [n]-th effect of the request. *)
Definition ref_after (req : Request) (n : nat) : list (prog sysE unit) * shared_mem :=
  pool_run (own_machine no_service) n 0
    ([@dispatch ReferenceK8s.pkg ReferenceK8s.lib ReferenceJson.lib ref_core req;; Ret tt],
     ([], ∅)).

Definition ref_does : Request → obs sysE → Prop :=
  @does ReferenceK8s.pkg ReferenceK8s.lib ReferenceJson.lib ref_core.

Definition next_effect (req : Request) (n : nat) : option {X : Type & sysE X} :=
  match (ref_after req n).1 !! 0 with Some (Vis e _) => Some (existT _ e) | _ => None end.

Lemma ref_after_does req n p x :
  next_effect req n = Some p → ref_does req (Obs (projT2 p) x).
Proof.
  unfold next_effect. destruct ((ref_after req n).1 !! 0) as [[| X e k| | | ]|] eqn:Hq; [done| |done..].
  revert x. intros x [= <-].
  exists ([], ∅), (ref_after req n).2, (ref_after req n).1, 0, (Vis e k), (k x).
  split; [|split; [done|by exists x]].
  rewrite <-surjective_pairing. apply pool_run_steps, own_machine_sem.
Qed.

Lemma requests_isolated_witness :
  ref_does ref_remove (Obs (ESvcDelete AClientset "default" "app-svc") None) ∧
  concerns "app" (inner_port ref_remove)
    (Obs (ESvcDelete AClientset "default" "app-svc") None) = true.
Proof.
  assert (Hd : ref_does ref_remove (Obs (ESvcDelete AClientset "default" "app-svc") None)).
  { apply (ref_after_does ref_remove 5 (existT _ (ESvcDelete AClientset "default" "app-svc"))).
    vm_compute. reflexivity. }
  split; [exact Hd|].
  apply (@requests_isolated ReferenceK8s.pkg ReferenceK8s.lib ReferenceJson.lib ref_core
           ref_remove _ ReferenceK8s.lib_ok Hd).
Defined.

(** C12.  The objects of requests fit together.  A pod that one request asks for and a service
    that one asks for, the same or another, on this server or another: they are in the same
    namespace; the service selects the pod exactly when the requests are about the same
    application; the pod has one container and it listens on the port of its request, which
    is the one port the service offers, if the requests agree on it, and a 32-bit number. *)
Theorem services_fit_pods `{PkgErrors, K8sLib, JsonLib} (p p' : APICore) (req req' : Request)
    cs ns pod x cs' ns' svc x' :
  K8sLibOk →
  does p req (Obs (EPodCreate cs ns pod) x) → does p' req' (Obs (ESvcCreate cs' ns' svc) x') →
  ns = ns' ∧
  (Svc_Selector svc ⊆ Pod_Labels pod ↔ subject req = subject req') ∧
  Cont_Ports <$> Pod_Containers pod = [[inner_port req]] ∧
  SP_Port <$> Svc_Ports svc = [inner_port req'] ∧
  in_int32 (inner_port req).
Proof.
  intros HK Hpod%does_allowed%andb_prop Hsvc%does_allowed%andb_prop; [|done..].
  destruct Hpod as [[Hpod _]%andb_prop _], Hsvc as [[Hsvc _]%andb_prop _].
  apply bool_decide_eq_true in Hpod as (-> & _ & _ & Hc & Hl).
  apply bool_decide_eq_true in Hsvc as (-> & _ & Hs & Hp).
  rewrite Hl, Hs, Hc, Hp, singleton_map_le.
  repeat split; try done; by apply int32_range.
Qed.

Definition ref_new : Request :=
  mkRequest "deploy"
    (mkDeployReq "app" DeployTypeNew (mkNewAppReq "image" (mkPort 8080 80) ∅)
       (Deploy_Fwd zero_DeployReq) (Deploy_LM zero_DeployReq) (Deploy_FwdLM zero_DeployReq))
    (mkRemoveReq "") (mkRequestDumpStart "" "" 0).

Definition ref_lm : Request :=
  mkRequest "deploy"
    (mkDeployReq "app" DeployTypeLM (Deploy_NewApp zero_DeployReq)
       (Deploy_Fwd zero_DeployReq)
       (mkLMReq "image" "10.0.0.2" "" (mkPort (2 ^ 32 + 8080) 80) "" ∅ 0 0)
       (Deploy_FwdLM zero_DeployReq))
    (mkRemoveReq "") (mkRequestDumpStart "" "" 0).

(** The pod one request asks for and the service another does, whose port exceeds 32 bits. *)
Lemma services_fit_pods_witness :
  ∃ pod svc,
    ref_does ref_new (Obs (EPodCreate AClientset "default" pod) (Ok pod)) ∧
    ref_does ref_lm (Obs (ESvcCreate AClientset "default" svc) (Ok svc)) ∧
    Svc_Selector svc ⊆ Pod_Labels pod ∧ Cont_Ports <$> Pod_Containers pod = [[8080%Z]] ∧
    SP_Port <$> Svc_Ports svc = [8080%Z].
Proof.
  eassert (Hpod : ref_does ref_new (Obs (EPodCreate AClientset "default" ?[pod]) (Ok ?pod))).
  { eapply (ref_after_does ref_new 5 (existT _ (EPodCreate AClientset "default" _))).
    vm_compute. reflexivity. }
  eassert (Hsvc : ref_does ref_lm (Obs (ESvcCreate AClientset "default" ?[svc]) (Ok ?svc))).
  { eapply (ref_after_does ref_lm 8 (existT _ (ESvcCreate AClientset "default" _))).
    vm_compute. reflexivity. }
  destruct (@services_fit_pods ReferenceK8s.pkg ReferenceK8s.lib ReferenceJson.lib ref_core
              ref_core ref_new ref_lm _ _ _ _ _ _ _ _ ReferenceK8s.lib_ok Hpod Hsvc)
    as (_ & Hs & Hc & Hp & _).
  eexists _, _. split; [exact Hpod|]. split; [exact Hsvc|].
  split; [by apply Hs|]. split; [exact Hc|exact Hp].
Defined.
