(* ===== verification/Replies.v ===== *)
(** What a client of the API server gets back: the bytes the server writes to the client's
    connection, and when it closes it. *)
From S2P Require Import Prelude Go Errors Types Sys LineIO HostConf Kube KubeExec.
From S2P Require Import LiveMigration ApiCore ApiServer.
#[local] Open Scope go_scope.

(** What the server does to the connection [c] of its client. *)
Inductive conn_op := OWrite (b : list byte) | OClose.

Definition conn_op_of (c : conn) (o : obs sysE) : option conn_op :=
  match o with
  | @Obs _ X e x =>
      match e with
      | EConnWrite c' b => if decide (c' = c) then Some (OWrite b) else None
      | EConnClose c' => if decide (c' = c) then Some OClose else None
      | _ => None
      end
  end.

(** The runtime gives out [c] to nobody else while it is open. *)
Definition others_get_others (c : conn) (o : obs sysE) : Prop :=
  match o with
  | @Obs _ X e x =>
      match e in sysE Y return Y → Prop with
      | EDial _ _ | ESSHConnDial _ _ _ | EAccept _ => λ r, r ≠ Ok c
      | _ => λ _, True
      end x
  end.

(** The response to a request on the connection. *)
Definition answer `{JsonLib} (resp : Response) : list conn_op :=
  match MarshalResponse resp with Ok b => [OWrite b] | Err _ => [] end.

#[local] Hint Resolve Restore.only_waitForResume Dump.only_getMainPid : only.

Section silence.
Context `{PkgErrors, K8sLib, JsonLib} `{K8sOk : !K8sLibOk} (c : conn).

Abbreviation quiet_on := (silent (conn_op_of c) (others_get_others c)).

(** A write to [c] contradicts where the connection came from. *)
Ltac hush :=
  run conn_op_of; try done; exfalso;
  repeat match goal with
  | H : match ?x with Ok _ => _ | Err _ => _ end = _ |- _ => destruct x; simplify_eq
  end;
  simpl in *; congruence.

(** A connection the server dialled is not [c]. *)
#[local] Hint Extern 1 (_ ≠ c) => intros ->; simpl in *; congruence : silent.

Lemma quiet_sendDumpStartRequest p : quiet_on (Restore.sendDumpStartRequest p).
Proof. intros l. unfold Restore.sendDumpStartRequest. hush. Qed.

Lemma quiet_sendDumpServiceRequest c' req :
  c' ≠ c → quiet_on (Restore.sendDumpServiceRequest c' req).
Proof. intros Hc l. unfold Restore.sendDumpServiceRequest. hush. Qed.
#[local] Hint Resolve quiet_sendDumpStartRequest quiet_sendDumpServiceRequest : silent.

Lemma quiet_preDumps c' n : c' ≠ c → quiet_on (Restore.preDumps c' n).
Proof. intros Hc. apply silent_loop. intros i l. hush. Qed.
#[local] Hint Resolve quiet_preDumps : silent.

Lemma quiet_finalPhase p c' rc fwd : c' ≠ c → quiet_on (Restore.finalPhase p c' rc fwd).
Proof. intros Hc l. unfold Restore.finalPhase, on_ptr. hush. Qed.
#[local] Hint Resolve quiet_finalPhase : silent.

Lemma quiet_exec p fwd : quiet_on (Restore.exec p fwd).
Proof. intros l. unfold Restore.exec, on_ptr. hush. Qed.

#[local] Hint Resolve quiet_exec : silent.

Lemma quiet_poll interval timeout cond :
  quiet_on cond → quiet_on (PollImmediate interval timeout cond).
Proof.
  intros Hc l. eapply respects_mono;
    [apply (PollImmediate_rule _ (λ l', l' = l) (λ l', l' = l) (λ l', l' = l)); [done|]|].
  - intros l1 ->. eapply respects_mono; [apply Hc|]. intros l' [[]|e] ->; done.
  - intros l' [e|]; naive_solver.
Qed.

Lemma quiet_WaitForPodReady cs pn t : quiet_on (WaitForPodReady cs pn t).
Proof. apply quiet_poll. eauto with silent nocore. Qed.

Lemma quiet_WaitForPodDeleted cs pn t : quiet_on (WaitForPodDeleted cs pn t).
Proof. apply quiet_poll. eauto with silent nocore. Qed.
#[local] Hint Resolve quiet_WaitForPodReady quiet_WaitForPodDeleted : silent.

Lemma quiet_createNewPod cs l pn cn im port env cmd args :
  quiet_on (createNewPod cs l pn cn im port env cmd args).
Proof. intros l0. unfold createNewPod. hush. Qed.

Lemma quiet_createOrGetClusterIP cs l sn cip port :
  quiet_on (createOrGetClusterIP cs l sn cip port).
Proof. intros l0. unfold createOrGetClusterIP. hush. Qed.

Lemma quiet_forwardToClusterIP name ip pin pext : quiet_on (forwardToClusterIP name ip pin pext).
Proof.
  intros l. unfold forwardToClusterIP, store_fwdsvc, getForwardAddrs, StartForwarderService,
    StartForwarderServiceDR. hush.
Qed.

Lemma quiet_forwardToHost name addr sp pext rate : quiet_on (forwardToHost name addr sp pext rate).
Proof.
  intros l. unfold forwardToHost, store_fwdsvc, getForwardAddrs, StartForwarderServiceDR. hush.
Qed.
#[local] Hint Resolve quiet_createNewPod quiet_createOrGetClusterIP quiet_forwardToClusterIP
  quiet_forwardToHost : silent.

Lemma quiet_DeployNew p req : quiet_on (DeployNew p req).
Proof. intros l. unfold DeployNew, with_res. hush. Qed.

Lemma quiet_DeployFwd p req : quiet_on (DeployFwd p req).
Proof. intros l. unfold DeployFwd, with_res. hush. Qed.

Lemma quiet_DeployLM p req : quiet_on (DeployLM p req).
Proof. intros l. unfold DeployLM, with_res, Restore.ExecLM. hush. Qed.

Lemma quiet_DeployFwdLM p req : quiet_on (DeployFwdLM p req).
Proof. intros l. unfold DeployFwdLM, with_res. hush. Qed.

Lemma quiet_Remove p req : quiet_on (Remove p req).
Proof. intros l. unfold Remove, with_res, closeFwdsvc, deleteObjects. hush. Qed.
#[local] Hint Resolve quiet_DeployNew quiet_DeployFwd quiet_DeployLM quiet_DeployFwdLM
  quiet_Remove : silent.

Lemma quiet_Deploy p req : quiet_on (Deploy p req).
Proof. intros l. unfold Deploy. repeat case_decide; hush. Qed.

Lemma quiet_DumpStart p req : quiet_on (DumpStart p req).
Proof. intros l. unfold DumpStart, with_res, Dump.Start, Dump.on_error. hush. Qed.

End silence.

(** The request on a line. *)
Definition decoded `{JsonLib} (r : result (list byte) error) : option Request :=
  match r with
  | Ok b => match UnmarshalRequest b with Ok req => Some req | Err _ => None end
  | Err _ => None
  end.

(** What the server writes to its client between the line [r] and the close, and how it came
    to it in the run [post]. *)
Definition replied `{PkgErrors, K8sLib, JsonLib} (p : APICore) (r : result (list byte) error)
    (post : list (obs sysE)) (out : list conn_op) : Prop :=
  match decoded r with
  | Some req =>
      if decide (Method req = "_dumpStart") then
        ∃ tr1 tr2 tr3 resp, post = tr1 ++ tr2 ++ tr3 ∧
          runs (DumpStart p req) tr2 (Ret resp) ∧ out = answer resp
      else out = []
  | None => out = []
  end.

Section replies.
Context `{PkgErrors, K8sLib, JsonLib} `{K8sOk : !K8sLibOk} (p : APICore) (c : conn).

(** The handlers never touch the connection; only [DumpStart] has a response. *)
Lemma dispatch_runs req d resp :
  Forall (others_get_others c) d → runs (dispatch p req) d (Ret resp) →
  omap (conn_op_of c) d = [] ∧
  if decide (Method req = "_dumpStart") then
    ∃ d1 d2 r, d = d1 ++ d2 ∧ resp = Some r ∧ runs (DumpStart p req) d2 (Ret r)
  else resp = None.
Proof.
  intros Hl Hr. unfold dispatch, doDeployReq, doRemoveReq, doDumpStartReq, doUnsupportedReq in Hr.
  destruct (decide (Method req = "deploy")) as [Hm|_]; [|destruct (decide (Method req = "remove"))
    as [Hm|_]; [|destruct (decide (Method req = "_dumpStart"))]].
  all: apply runs_bind_inv in Hr as (a & d1 & d2 & -> & Hr & He);
    apply runs_ret_inv in He as [-> <-]; rewrite app_nil_r in *; split;
    [|try by rewrite decide_False by (rewrite Hm; done)].
  - by apply (silent_runs _ _ _ _ _ (quiet_Deploy c p req) Hl Hr).
  - by apply (silent_runs _ _ _ _ _ (quiet_Remove c p req) Hl Hr).
  - by apply (silent_runs _ _ _ _ _ (quiet_DumpStart c p req) Hl Hr).
  - by exists [], d1, a.
  - eapply silent_runs; [|exact Hl|exact Hr]. apply (only_silent _ _ [KLog]); [solve_only|solve_ignores].
  - done.
Qed.

(** After the line is read, up to the close. *)
Lemma respond_replied r post :
  Forall (others_get_others c) post →
  runs (respond p c r) post (Ret tt) →
  replied p r post (omap (conn_op_of c) post).
Proof.
  intros Hl Hr. unfold respond, replied, decoded in *. destruct r as [b|err]; simpl in *.
  2:{ apply runs_vis_inv in Hr as ([] & tr' & -> & Hr). by apply runs_ret_inv in Hr as [-> _]. }
  apply runs_vis_inv in Hr as ([] & tr' & -> & Hr). simpl.
  apply Forall_cons_1 in Hl as [_ Hl].
  destruct (UnmarshalRequest b) as [req|err].
  2:{ apply runs_vis_inv in Hr as ([] & tr1 & -> & Hr). by apply runs_ret_inv in Hr as [-> _]. }
  apply runs_bind_inv in Hr as (resp & d & tr1 & -> & Hd & Hr).
  apply Forall_app in Hl as [Hd' _]. rewrite omap_app.
  apply dispatch_runs in Hd as (Hout & Hd); [|done]. rewrite Hout. simpl.
  destruct (decide _) as [Hm|Hm].
  - destruct Hd as (d1 & d2 & r & -> & -> & Hd). eexists (_ :: d1), d2, tr1, r.
    split; [by rewrite <-app_assoc|]. split; [done|]. unfold answer.
    destruct (MarshalResponse r) as [b'|err].
    + apply runs_vis_inv in Hr as (w & tr2 & -> & Hr). simpl.
      rewrite decide_True by done. f_equal.
      destruct w as [n [err|]]; simpl in Hr.
      * apply runs_vis_inv in Hr as ([] & tr3 & -> & Hr). by apply runs_ret_inv in Hr as [-> _].
      * by apply runs_ret_inv in Hr as [-> _].
    + apply runs_vis_inv in Hr as ([] & tr2 & -> & Hr). by apply runs_ret_inv in Hr as [-> _].
  - subst resp. by apply runs_ret_inv in Hr as [-> _].
Qed.

Lemma handleConnection_run tr :
  Forall (others_get_others c) tr → runs (handleConnection p c) tr (Ret tt) →
  ∃ r pre line post last, tr = pre ++ line ++ post ++ last ∧
    runs (Readline c) line (Ret r) ∧ replied p r post (omap (conn_op_of c) post) ∧
    omap (conn_op_of c) tr = omap (conn_op_of c) post ++ [OClose].
Proof.
  intros Hl Hr. unfold handleConnection, defer, defer_on in Hr.
  apply runs_bind_inv in Hr as ([] & tr1 & last & -> & Hr & Hlast).
  apply runs_vis_inv in Hr as (a1 & tr2 & -> & Hr).
  apply runs_vis_inv in Hr as ([] & tr3 & -> & Hr).
  apply runs_vis_inv in Hr as (a2 & tr4 & -> & Hr).
  apply runs_bind_inv in Hr as (r & line & post & -> & Hline & Hpost).
  assert (Hlc : omap (conn_op_of c) last = [OClose]).
  { simpl in Hlast. apply runs_vis_inv in Hlast as (a3 & l1 & -> & Hlast).
    apply runs_vis_inv in Hlast as ([] & l2 & -> & Hlast).
    apply runs_vis_inv in Hlast as (a4 & l3 & -> & Hlast).
    apply runs_ret_inv in Hlast as [-> _]. simpl. by rewrite decide_True. }
  repeat first [rewrite Forall_app in Hl|rewrite Forall_cons in Hl]. destruct Hl as [(_ & _ & _ & Hl1 & Hl2) _].
  exists r, [Obs (EConnRemoteAddr c) a1; Obs (ELog LInfo ("Accept: " +:+ a1)) tt;
             Obs (EConnSetReadDeadline c RequestTimeout) a2], line, post, last.
  split; [simpl; by rewrite <-app_assoc|]. split; [done|]. split; [by apply respond_replied|].
  simpl. rewrite !omap_app, Hlc.
  rewrite (silent_runs (conn_op_of c) (others_get_others c) (Readline c) line r); [done| |done..].
  eapply only_silent; [apply only_Readline|solve_ignores].
Qed.

End replies.

(** * Property *)

(** C31.  A client's connection, in every run that returns: a line is read from it; then at
    most one message is written, the encoded response of [DumpStart] to the request on that
    line if its method is [_dumpStart], and none for the other methods and for what is not a
    request; then the connection is closed, once. *)
Theorem handleConnection_replies `{PkgErrors, K8sLib, JsonLib} (p : APICore) (c : conn)
    (tr : list (obs sysE)) :
  K8sLibOk → Forall (others_get_others c) tr →
  runs (handleConnection p c) tr (Ret tt) →
  ∃ r pre line post last, tr = pre ++ line ++ post ++ last ∧
    runs (Readline c) line (Ret r) ∧ replied p r post (omap (conn_op_of c) post) ∧
    omap (conn_op_of c) tr = omap (conn_op_of c) post ++ [OClose] ∧
    (length (omap (conn_op_of c) post) ≤ 1)%nat.
Proof.
  intros HK Hl Hr.
  destruct (handleConnection_run p c tr Hl Hr) as (r & pre & line & post & last & -> & H2).
  exists r, pre, line, post, last. split; [done|]. destruct H2 as (Hline & Hrep & Hout).
  split; [done|]. split; [done|]. split; [done|]. unfold replied, answer in Hrep.
  destruct (decoded r) as [req|]; [|by rewrite Hrep; simpl; lia].
  destruct (decide _); [|by rewrite Hrep; simpl; lia].
  destruct Hrep as (? & ? & ? & resp & _ & _ & ->).
  destruct (MarshalResponse resp); simpl; lia.
Qed.

(** A client that asks for a dump. *)
Definition asks_dump (n : nat) (X : Type) (e : sysE X) : option X :=
  match e in sysE Y return option Y with
  | EConnRead _ _ => Some (String.list_byte_of_string "_dumpStart" ++ [LF], None)
  | EStream _ _ => Some ("42", None)
  | _ => None
  end.

Definition ref_handle : prog sysE unit :=
  @handleConnection ReferenceK8s.pkg ReferenceK8s.lib ReferenceJson.lib
    (NewAPICore (mkHostConf "eth0" "127.0.0.1:22" "root" "id") "10.0.0.1" "") 7.

Lemma handleConnection_replies_witness :
  omap (conn_op_of 7) (trace_of asks_dump 60 ref_handle) = [OWrite [x01]; OClose] ∧
  ∃ r pre line post last, trace_of asks_dump 60 ref_handle = pre ++ line ++ post ++ last ∧
    runs (Readline 7) line (Ret r) ∧
    @replied ReferenceK8s.pkg ReferenceK8s.lib ReferenceJson.lib
      (NewAPICore (mkHostConf "eth0" "127.0.0.1:22" "root" "id") "10.0.0.1" "") r post
      (omap (conn_op_of 7) post) ∧
    omap (conn_op_of 7) (trace_of asks_dump 60 ref_handle) =
      omap (conn_op_of 7) post ++ [OClose] ∧
    (length (omap (conn_op_of 7) post) ≤ 1)%nat.
Proof.
  split; [vm_compute; reflexivity|].
  apply (@handleConnection_replies ReferenceK8s.pkg ReferenceK8s.lib ReferenceJson.lib
           (NewAPICore (mkHostConf "eth0" "127.0.0.1:22" "root" "id") "10.0.0.1" "") 7
           (trace_of asks_dump 60 ref_handle) ReferenceK8s.lib_ok).
  - vm_compute. repeat constructor; discriminate.
  - apply machine_runs. vm_compute. reflexivity.
Defined.
