(* ===== verification/Protocol.v ===== *)
(** The session header: src/server/protocol.go. *)
From S2P Require Import Prelude Go Errors Types Sys.
#[local] Open Scope go_scope.

(** * github.com/google/uuid *)

(** A [UUID] is an array of 16 bytes, its slice [id[:]] those bytes.  [FromBytes] is documented
    to copy a slice of 16 bytes and to fail for any other length. *)
Definition UUID : Type := list byte.

Class UuidLib := {
  FromBytes : list byte → result UUID error;
  UUID_String : UUID → string
}.

Class UuidOk `{UuidLib} : Prop := {
  FromBytes_16 b : length b = 16 → FromBytes b = Ok b;
  FromBytes_other b : length b ≠ 16 → ∃ e, FromBytes b = Err e
}.

(** * The header *)

Record ProtocolHeader := mkHeader { SessionId : UUID }.

(** The Go type of the field: [[16]byte]. *)
Definition header_wf (p : ProtocolHeader) : Prop := length (SessionId p) = 16.

Section protocol.
Context `{UuidLib}.

Definition ReadProtocolHeader (conn : conn) : prog sysE (result ProtocolHeader error) :=
  let buf := make_bytes 16 in
  r <- call (EConnRead conn 16);;
  match r with
  | (_, Some err) => Ret (Err err)
  | (b, None) =>
      let n := length b in
      let buf := go_copy buf b in
      if (n <? 16)%nat
      then Ret (Err (EText ("Insufficient session protocol header: " +:+ itoa (Z.of_nat n)
                            +:+ " byte")))
      else
        match FromBytes (take 16 buf) with
        | Err err => Ret (Err err)
        | Ok sessionId => Ret (Ok (mkHeader sessionId))
        end
  end.

Definition Bytes (p : ProtocolHeader) : list byte := [] ++ SessionId p.

Definition HeaderString (p : ProtocolHeader) : string :=
  "sessionId=" +:+ UUID_String (SessionId p).

End protocol.

(** A library that keeps its word. *)
Module ReferenceUuid.

Definition lib : UuidLib := {|
  FromBytes b := if decide (length b = 16) then Ok b else Err (EText "invalid UUID");
  UUID_String b := String.string_of_list_byte b
|}.

Lemma uuid_lib_ok : @UuidOk lib.
Proof.
  split; intros b Hb; simpl.
  - by rewrite decide_True.
  - rewrite decide_False by done. eauto.
Qed.

End ReferenceUuid.

(** * Properties *)

(** C32.  The header survives the connection exactly when it arrives whole: reading makes one
    read of at most 16 bytes, and yields the header [h] if and only if that read returned
    the 16 bytes of [h] without an error.  A header that the network has cut into pieces is
    refused, with the pieces left unread. *)
Theorem header_roundtrip `{UuidLib} (c : conn) (tr : list (obs sysE))
    (r : result ProtocolHeader error) :
  UuidOk → Forall sane tr →
  runs (ReadProtocolHeader c) tr (Ret r) →
  ∃ b e, tr = [Obs (EConnRead c 16) (b, e)] ∧
    ∀ h, r = Ok h ↔ e = None ∧ header_wf h ∧ b = Bytes h.
Proof.
  intros HU Hs Hr. unfold header_wf, Bytes.
  apply runs_vis_inv in Hr as ([b e] & tr' & -> & Hr). apply Forall_cons_1 in Hs as [Hs _].
  simpl in Hs. exists b, e. destruct e as [err|].
  { apply runs_ret_inv in Hr as [-> <-]. split; [done|]. intros h. naive_solver. }
  cbv zeta in Hr. destruct (Nat.ltb_spec (length b) 16) as [Hn|Hn].
  { apply runs_ret_inv in Hr as [-> <-]. split; [done|]. intros [id]. simpl.
    split; [done|]. intros (_ & Hid & ->). lia. }
  rewrite go_copy_same, FromBytes_16 in Hr.
  - apply runs_ret_inv in Hr as [-> <-]. split; [done|]. intros [id]. simpl.
    rewrite take_ge by lia. split; [|naive_solver]. intros [= ->]. repeat split. lia.
  - rewrite length_take. lia.
  - simpl. lia.
Qed.

Definition example_header : ProtocolHeader := mkHeader (replicate 16 x2a).

Definition ref_header : prog sysE (result ProtocolHeader error) :=
  @ReadProtocolHeader ReferenceUuid.lib 7.

Lemma header_roundtrip_witness :
  ∃ b e, [Obs (EConnRead 7 16) (@Bytes example_header, None)] = [Obs (EConnRead 7 16) (b, e)] ∧
    ∀ h, Ok example_header = (Ok h : result ProtocolHeader error) ↔
         e = None ∧ header_wf h ∧ b = Bytes h.
Proof.
  apply (@header_roundtrip ReferenceUuid.lib 7 _ _ ReferenceUuid.uuid_lib_ok).
  - repeat constructor; discriminate.
  - apply (runs_step _ (LVis (Obs (EConnRead 7 16) (Bytes example_header, None)))
             (Ret (Ok example_header)) []); [|constructor].
    eexists. split; [reflexivity|]. vm_compute. reflexivity.
Defined.
