(* ===== verification/Progress.v ===== *)
(** Progress of a pool of goroutines: who waits for whom, and a logic for showing that
    everybody who waits does so, through others, for somebody who can move. *)
From S2P Require Import Prelude Go.

(** * Steps of one goroutine of a pool *)

Section pool.
Context {E : Type → Type} {S : Type} (h : S → obs E → S → Prop).

Inductive gstep (i : nat) : list (prog E unit) * S → list (prog E unit) * S → Prop :=
| gstep_tau ts s p (p' : prog E unit) :
    ts !! i = Some p → lstep p LTau p' → gstep i (ts, s) (<[i:=p']> ts, s)
| gstep_vis ts s s' p o p' :
    ts !! i = Some p → lstep p (LVis o) p' → h s o s' → gstep i (ts, s) (<[i:=p']> ts, s')
| gstep_spawn ts s p c p' :
    ts !! i = Some p → lstep p (LSpawn c) p' → gstep i (ts, s) (<[i:=p']> ts ++ [c], s).

Lemma pstep_gstep c c' : pstep h c c' ↔ ∃ i, gstep i c c'.
Proof.
  split.
  - intros []; eexists; [by eapply gstep_tau|by eapply gstep_vis|by eapply gstep_spawn].
  - intros [i []]; [by eapply pstep_tau|by eapply pstep_vis|by eapply pstep_spawn].
Qed.

(** The goroutine [i] can take a step. *)
Definition can_move (c : list (prog E unit) * S) (i : nat) : Prop := ∃ c', gstep i c c'.

(** The goroutine [i] cannot move, and will not be able to until [j] has moved, whatever the
    others do. *)
Definition waits_for (c : list (prog E unit) * S) (i j : nat) : Prop :=
  ∀ c', rtc (λ c1 c2, ∃ k, k ≠ j ∧ gstep k c1 c2) c c' → ¬ can_move c' i.

(** No answer to the effect is possible. *)
Definition blocked (s : S) {X : Type} (e : E X) : Prop := ∀ x s', ¬ h s (Obs e x) s'.

(** A goroutine whose effect is blocked cannot move. *)
Lemma blocked_stays ts s i X (e : E X) (k : X → prog E unit) :
  ts !! i = Some (Vis e k) → blocked s e → ¬ can_move (ts, s) i.
Proof.
  intros Hi Hb [c' Hs]. inversion Hs as [? ? p p' Hp Hl|? ? s' p o p' Hp Hl Hh|? ? p c p' Hp Hl];
    subst; rewrite Hi in Hp; injection Hp as <-; destruct Hl as (x & Hx & _); try discriminate Hx.
  injection Hx as ->. by apply (Hb x s').
Qed.

End pool.

(** * Two monitors at once *)

Section both.
Context {E : Type → Type} {M1 M2 : Type} (mon1 : monitor E M1) (mon2 : monitor E M2).

Definition mon_both : monitor E (M1 * M2) := {|
  mon_step m o := m1 ← mon_step mon1 m.1 o; m2 ← mon_step mon2 m.2 o; Some (m1, m2);
  mon_legal m o := mon_legal mon1 m.1 o ∧ mon_legal mon2 m.2 o;
  mon_split m mc mk := mon_split mon1 m.1 mc.1 mk.1 ∧ mon_split mon2 m.2 mc.2 mk.2;
  mon_final m := mon_final mon1 m.1 ∧ mon_final mon2 m.2;
  mon_panic m msg := mon_panic mon1 m.1 msg ∧ mon_panic mon2 m.2 msg
|}.

Lemma both_step m o m' :
  mon_step mon_both m o = Some m' →
  mon_step mon1 m.1 o = Some m'.1 ∧ mon_step mon2 m.2 o = Some m'.2.
Proof.
  simpl. destruct (mon_step mon1 m.1 o) as [m1|]; simpl; [|done].
  destruct (mon_step mon2 m.2 o) as [m2|]; simpl; [|done]. by intros [= <-].
Qed.

Lemma respects_both {A} (p : prog E A) m1 m2 (Q1 : M1 → A → Prop) (Q2 : M2 → A → Prop)
    (Q : M1 * M2 → A → Prop) :
  respects mon1 p m1 Q1 → respects mon2 p m2 Q2 →
  (∀ m1 m2 a, Q1 m1 a → Q2 m2 a → Q (m1, m2) a) → respects mon_both p (m1, m2) Q.
Proof.
  revert m1 m2 Q1 Q2 Q.
  induction p as [A a|A X e k IH|A T B body IHb i k IHk|A c IHc k IHk|A msg];
    intros m1 m2 Q1 Q2 Q H1 H2 HQ; [by apply HQ| | | |done].
  - intros x [Hl1 Hl2]. specialize (H1 x Hl1). specialize (H2 x Hl2). simpl in *.
    destruct (mon_step mon1 m1 (Obs e x)); simpl; [|done].
    destruct (mon_step mon2 m2 (Obs e x)); simpl; [|done]. by eapply IH.
  - destruct H1 as (I1 & HI1 & H1), H2 as (I2 & HI2 & H2).
    exists (λ i m, I1 i m.1 ∧ I2 i m.2). split; [done|]. intros i1 [n1 n2] [Hi1 Hi2].
    eapply IHb; [by apply H1|by apply H2|]. intros n1' n2' [i'|b]; [done|]. intros Hb1 Hb2.
    by eapply IHk.
  - destruct H1 as (c1 & k1 & Hs1 & Hc1 & Hk1), H2 as (c2 & k2 & Hs2 & Hc2 & Hk2).
    exists (c1, c2), (k1, k2). split; [done|]. split; [by eapply IHc|by eapply IHk].
Qed.

Context {S : Type} (h : S → obs E → S → Prop).
Context (compat1 : S → list M1 → Prop) (compat2 : S → list M2 → Prop).

Definition compat_both (s : S) (ms : list (M1 * M2)) : Prop :=
  compat1 s ms.*1 ∧ compat2 s ms.*2.

Lemma both_lookup (ms : list (M1 * M2)) i m :
  ms !! i = Some m → ms.*1 !! i = Some m.1 ∧ ms.*2 !! i = Some m.2.
Proof. intros Hi. by rewrite !list_lookup_fmap, Hi. Qed.

Lemma both_compat_legal :
  (∀ s ms i m o s', compat1 s ms → ms !! i = Some m → h s o s' → mon_legal mon1 m o) →
  (∀ s ms i m o s', compat2 s ms → ms !! i = Some m → h s o s' → mon_legal mon2 m o) →
  ∀ s ms i m o s', compat_both s ms → ms !! i = Some m → h s o s' → mon_legal mon_both m o.
Proof. intros H1 H2 s ms i m o s' [] []%both_lookup Hh. split; eauto. Qed.

Lemma both_compat_step :
  (∀ s ms i m o s' m', compat1 s ms → ms !! i = Some m → h s o s' →
     mon_step mon1 m o = Some m' → compat1 s' (<[i := m']> ms)) →
  (∀ s ms i m o s' m', compat2 s ms → ms !! i = Some m → h s o s' →
     mon_step mon2 m o = Some m' → compat2 s' (<[i := m']> ms)) →
  ∀ s ms i m o s' m', compat_both s ms → ms !! i = Some m → h s o s' →
    mon_step mon_both m o = Some m' → compat_both s' (<[i := m']> ms).
Proof.
  intros H1 H2 s ms i m o s' m' [] []%both_lookup Hh []%both_step.
  split; rewrite list_fmap_insert; eauto.
Qed.

Lemma both_compat_split :
  (∀ s ms i m mc mk, compat1 s ms → ms !! i = Some m → mon_split mon1 m mc mk →
     compat1 s (<[i := mk]> ms ++ [mc])) →
  (∀ s ms i m mc mk, compat2 s ms → ms !! i = Some m → mon_split mon2 m mc mk →
     compat2 s (<[i := mk]> ms ++ [mc])) →
  ∀ s ms i m mc mk, compat_both s ms → ms !! i = Some m → mon_split mon_both m mc mk →
    compat_both s (<[i := mk]> ms ++ [mc]).
Proof.
  intros H1 H2 s ms i m mc mk [] []%both_lookup [].
  split; rewrite fmap_app, list_fmap_insert; eauto.
Qed.

End both.

(** * Everybody waits for somebody who can move *)

(** [holds m e n]: a goroutine whose monitor is in state [m] has a duty, of level [n], on
    which the effect [e] of others waits; [asks m e n]: in state [m], [e] waits on a duty of
    level [n].  A goroutine with duties may only wait on lower ones ([order]), so no circle
    of goroutines waits for one another; one that ends has done its duties, but for those that
    [lost] effects wait on. *)
Section progress.
Context {E : Type → Type} {M S : Type} (mon : monitor E M) (h : S → obs E → S → Prop).
Context (compat : S → list M → Prop).
Context (holds asks : M → ∀ X, E X → nat → Prop) (lost : ∀ X, E X → Prop).

(** The monitor lets a goroutine in state [m] ask for [e]. *)
Definition allowed (m : M) {X : Type} (e : E X) : Prop :=
  ∀ x, mon_legal mon m (Obs e x) → mon_step mon m (Obs e x) ≠ None.

Hypothesis compat_legal : ∀ s ms i m o s',
  compat s ms → ms !! i = Some m → h s o s' → mon_legal mon m o.
Hypothesis compat_step : ∀ s ms i m o s' m',
  compat s ms → ms !! i = Some m → h s o s' → mon_step mon m o = Some m' →
  compat s' (<[i := m']> ms).
Hypothesis compat_split : ∀ s ms i m mc mk,
  compat s ms → ms !! i = Some m → mon_split mon m mc mk →
  compat s (<[i := mk]> ms ++ [mc]).
Hypothesis progress : ∀ s ms i m X (e : E X),
  compat s ms → ms !! i = Some m → allowed m e →
  (∃ x s', h s (Obs e x) s') ∨
  blocked h s e ∧ ∃ j mj n, ms !! j = Some mj ∧ holds mj X e n ∧ asks m X e n.
Hypothesis order : ∀ m X (e : E X) n X' (e' : E X') n',
  holds m X e n → asks m X' e' n' → allowed m e' → n' < n.
Hypothesis stable : ∀ s ms i j m mj o s' m' X (e : E X) n,
  compat s ms → ms !! i = Some m → ms !! j = Some mj → i ≠ j → h s o s' →
  mon_step mon m o = Some m' → holds mj X e n → blocked h s e → blocked h s' e.
Hypothesis final : ∀ m X (e : E X) n, mon_final mon m → holds m X e n → lost X e.

(** The monitors' states of a pool. *)
Definition tracked (c : list (prog E unit) * S) (ms : list M) : Prop :=
  Forall2 (λ p m, respects mon p m (λ m' _, mon_final mon m')) c.1 ms ∧ compat c.2 ms.

(** What a step of one goroutine leaves to the others. *)
Lemma gstep_tracked k c c' ms :
  tracked c ms → gstep h k c c' →
  ∃ ms', tracked c' ms' ∧
    (∀ j m, j ≠ k → ms !! j = Some m → ms' !! j = Some m) ∧
    (∀ j p, j ≠ k → c.1 !! j = Some p → c'.1 !! j = Some p) ∧
    (∀ j m X (e : E X) n, j ≠ k → ms !! j = Some m → holds m X e n →
       blocked h c.2 e → blocked h c'.2 e).
Proof.
  intros [Hts Hs] Hst.
  destruct Hst as [ts s p p' Hi Hl|ts s s' p o p' Hi Hl Hh|ts s p c p' Hi Hl];
    simpl in *; destruct (Forall2_lookup_l _ _ _ _ _ Hts Hi) as (m & Hm & Hr);
    pose proof (respects_step _ _ _ _ _ _ Hr Hl) as Hstep; simpl in Hstep.
  - exists ms. split; [|split; [done|split; [|done]]].
    + split; [|done]. simpl. rewrite <-(list_insert_id ms k m Hm). by apply Forall2_insert.
    + intros j q Hj Hq. by rewrite list_lookup_insert_ne.
  - destruct (Hstep (compat_legal _ _ _ _ _ _ Hs Hm Hh)) as (m' & Hm' & Hr').
    exists (<[k:=m']> ms). split; [|split; [|split]].
    + split; [by apply Forall2_insert|]. simpl. eauto.
    + intros j q Hj Hq. by rewrite list_lookup_insert_ne.
    + intros j q Hj Hq. by rewrite list_lookup_insert_ne.
    + intros j mj X e n Hj Hmj Ho Hb. by eapply (stable s ms k j).
  - destruct Hstep as (mc & mk & Hsp & Hc & Hk). exists (<[k:=mk]> ms ++ [mc]).
    split; [|split; [|split; [|done]]].
    + split; [|simpl; eauto]. simpl. apply Forall2_app; [by apply Forall2_insert|].
      by apply Forall2_cons.
    + intros j q Hj Hq. apply lookup_app_l_Some. by rewrite list_lookup_insert_ne.
    + intros j q Hj Hq. apply lookup_app_l_Some. by rewrite list_lookup_insert_ne.
Qed.

(** A goroutine waits for the one that has the duty its effect waits on. *)
Lemma holder_waited c ms i j X (e : E X) k mj n :
  tracked c ms → c.1 !! i = Some (Vis e k) → blocked h c.2 e → ms !! j = Some mj →
  holds mj X e n → waits_for h c i j.
Proof.
  intros Ht Hi Hb Hj Hh c' Hr. revert ms Ht Hi Hb Hj. induction Hr as [[ts s]|c c1 c2 Hs _ IH];
    intros ms Ht Hi Hb Hj; [by eapply blocked_stays|].
  destruct Hs as (k' & Hk & Hs). destruct (gstep_tracked _ _ _ _ Ht Hs) as (ms' & Ht' & H1 & H2 & H3).
  assert (i ≠ k') as Hik.
  { intros ->. destruct c as [ts s]. eapply blocked_stays; [exact Hi|exact Hb|]. by exists c1. }
  eapply (IH ms'); [done|by apply H2|by eapply (H3 j)|by apply H1].
Qed.

(** The end of a chain of goroutines that wait for one another: one that can move, or one
    that waits on a duty that a goroutine has not done and will not do, since it has ended. *)
Definition resolved (c : list (prog E unit) * S) (i : nat) : Prop :=
  can_move h c i ∨
  ∃ X (e : E X) k j, c.1 !! i = Some (Vis e k) ∧ lost X e ∧ waits_for h c i j ∧
    c.1 !! j = Some (Ret tt).

Lemma holder_resolved c ms n i j X (e : E X) k mj :
  tracked c ms → (∀ msg, Panic msg ∉ c.1) → c.1 !! i = Some (Vis e k) → blocked h c.2 e →
  ms !! j = Some mj → holds mj X e n → ∃ j', rtc (waits_for h c) i j' ∧ resolved c j'.
Proof.
  intros Ht Hp. revert i j X e k mj. induction (lt_wf n) as [n _ IH].
  intros i j X e k mj Hi Hb Hj Hh. pose proof (holder_waited _ _ _ _ _ _ _ _ _ Ht Hi Hb Hj Hh) as Hw.
  destruct Ht as [Hts Hs]. destruct (Forall2_lookup_r _ _ _ _ _ Hts Hj) as (q & Hq & Hr).
  assert (Hjc : ∀ c', gstep h j c c' → ∃ j', rtc (waits_for h c) i j' ∧ resolved c j').
  { intros c' Hc'. exists j. split; [by apply rtc_once|]. left. by exists c'. }
  destruct c as [ts s]. simpl in *.
  destruct q as [[]|X' e' k'|T B body t k'|q k'|msg].
  - exists i. split; [done|]. right. exists X, e, k, j. split; [done|].
    split; [by eapply final|done].
  - assert (Ha : allowed mj e').
    { intros x Hx Hn. specialize (Hr x Hx). simpl in Hr. by rewrite Hn in Hr. }
    destruct (progress _ _ _ _ _ _ Hs Hj Ha) as [(x & s' & Hx)|(Hb' & j2 & m2 & n2 & Hj2 & Hh2 & Ha2)].
    + eapply Hjc. by eapply gstep_vis; [exact Hq|exists x|exact Hx].
    + destruct (IH n2 (order _ _ _ _ _ _ _ Hh Ha2 Ha) _ _ _ _ _ _ Hq Hb' Hj2 Hh2)
        as (j' & Hj' & Hr'). exists j'. split; [by eapply rtc_l|done].
  - eapply Hjc. by eapply gstep_tau; [exact Hq|].
  - eapply Hjc. by eapply gstep_spawn; [exact Hq|].
  - destruct (Hp msg). by eapply list_elem_of_lookup_2.
Qed.

(** Everybody who has not returned waits, through others, for somebody who can move. *)
Lemma nobody_stuck c ms i p :
  tracked c ms → (∀ msg, Panic msg ∉ c.1) → c.1 !! i = Some p → p ≠ Ret tt →
  ∃ j, rtc (waits_for h c) i j ∧ resolved c j.
Proof.
  intros Ht Hp Hi Hn. pose proof Ht as [Hts Hs]. destruct c as [ts s]. simpl in *.
  destruct (Forall2_lookup_l _ _ _ _ _ Hts Hi) as (m & Hm & Hr).
  assert (Hic : ∀ c', gstep h i (ts, s) c' → ∃ j, rtc (waits_for h (ts, s)) i j ∧ resolved (ts, s) j).
  { intros c' Hc'. exists i. split; [done|]. left. by exists c'. }
  destruct p as [[]|X e k|T B body t k|q k|msg].
  - done.
  - assert (Ha : allowed m e).
    { intros x Hx Hno. specialize (Hr x Hx). simpl in Hr. by rewrite Hno in Hr. }
    destruct (progress _ _ _ _ _ _ Hs Hm Ha) as [(x & s' & Hx)|(Hb & j & mj & n & Hj & Hh & _)].
    + eapply Hic. by eapply gstep_vis; [exact Hi|exists x|exact Hx].
    + by eapply (holder_resolved (ts, s)).
  - eapply Hic. by eapply gstep_tau; [exact Hi|].
  - eapply Hic. by eapply gstep_spawn; [exact Hi|].
  - destruct (Hp msg). by eapply list_elem_of_lookup_2.
Qed.

End progress.
