(* ===== verification/FwdSys.v ===== *)
(** The effects of the forwarding goroutines (src/server/fwd.go, src/server/fwdsvc.go) and
    the memory they share: the fields of the forwarders and of one forwarding service, each
    access a step of its own, with the mutexes, channels, wait groups and the condition
    variable that order them. *)
From S2P Require Import Prelude Go Errors Sys.

Abbreviation fref := nat.
Abbreviation wgref := nat.
Abbreviation elem := nat.

(** The two directions of a forwarder: index 0 and 1 of [muxs], [isUpClosed] and
    [isDownClosed]. *)
Inductive dir := Up | Down.
#[export] Instance dir_eq_dec : EqDecision dir.
Proof. solve_decision. Defined.

(** * Effects *)

Inductive fwdE : Type → Type :=
| FLog (l : LogLevel) (msg : string) : fwdE unit
(** a new [Forwarder], and the fields of one *)
| FNew : fwdE fref
| FGetClientConn (f : fref) : fwdE (option conn)
| FSetClientConn (f : fref) (c : conn) : fwdE unit
| FGetServerConn (f : fref) : fwdE (option conn)
| FSetServerConn (f : fref) (c : conn) : fwdE unit
| FGetDataRate (f : fref) : fwdE Z
| FSetDataRate (f : fref) (n : Z) : fwdE unit
| FGetIsClosed (f : fref) (d : dir) : fwdE bool
| FSetIsClosed (f : fref) (d : dir) : fwdE unit
| FMuxLock (f : fref) (d : dir) : fwdE unit
| FMuxUnlock (f : fref) (d : dir) : fwdE bool
| FHasEmergency (f : fref) : fwdE bool
| FMakeEmergency (f : fref) : fwdE unit
| FCloseEmergency (f : fref) : fwdE bool
| FPollEmergency (f : fref) : fwdE bool
| FCloseClosed (f : fref) : fwdE bool
| FRecvClosed (f : fref) : fwdE unit
(** [sync.WaitGroup] *)
| WNew : fwdE wgref
| WAdd (w : wgref) (n : nat) : fwdE unit
| WDone (w : wgref) : fwdE bool
| WWait (w : wgref) : fwdE unit
(** package net *)
| NResolveTCPAddr (network addr : string) : fwdE (result TCPAddr error)
| NDialTCP (network : string) (laddr : option TCPAddr) (raddr : TCPAddr)
    : fwdE (result conn error)
| NAcceptTCP (ln : listener) : fwdE (result conn error)
| NRead (c : conn) (cap : Z) : fwdE (list byte * option error)
| NWrite (c : conn) (b : list byte) : fwdE (Z * option error)
| NClose (c : conn) : fwdE (option error)
| NCloseRead (c : conn) : fwdE (option error)
| NSetLinger (c : conn) (sec : Z) : fwdE unit
| NLnSetDeadline (ln : listener) (ns : Z) : fwdE (option error)
| NLnClose (ln : listener) : fwdE (option error)
(** the clock, in nanoseconds *)
| TNow : fwdE Z
| TSleep (ns : Z) : fwdE unit
(** the fields of the [ForwarderService] *)
| SCondLock : fwdE unit
| SCondUnlock : fwdE bool
| SCondAdd : fwdE nat
| SCondWait (ticket : nat) : fwdE unit
| SCondBroadcast : fwdE unit
| SGetSuspended : fwdE bool
| SSetSuspended (b : bool) : fwdE unit
| SSendSuspend : fwdE unit
| SRecvSuspend : fwdE unit
| SCloseClose : fwdE bool
| SRecvClose : fwdE unit
| SGetServerAddr : fwdE TCPAddr
| SSetServerAddr (a : TCPAddr) : fwdE unit
| SGetDataRate : fwdE Z
| SSetDataRate (n : Z) : fwdE unit
| SFwdrsLock : fwdE unit
| SFwdrsUnlock : fwdE bool
| SPushBack (f : fref) : fwdE elem
| SRemove (e : elem) : fwdE unit
| SFront : fwdE (option (elem * fref))
| SNext (e : elem) : fwdE (option (elem * fref)).

(** * The shared memory *)

Record Forwarder := mkForwarder {
  clientConn : option conn;
  serverConn : option conn;
  mux0 : bool;
  mux1 : bool;
  isUpClosed : bool;
  isDownClosed : bool;
  chanClosed : bool;
  dataRate : Z;
  chanEmergencyClose : option bool
}.

(** [chanClosed] is whether the channel is closed, [chanEmergencyClose] too, or [None] for
    nil; the mutexes are whether they are held. *)
Definition mkNewForwarder : Forwarder :=
  mkForwarder None None false false false false false 0 None.

Record ForwarderService := mkService {
  serverAddr : TCPAddr;
  muxFwdrs : bool;
  fwdrs : list (elem * fref);
  nextElem : elem;
  condL : bool;
  waiting : list nat;
  nextTicket : nat;
  chanSuspend : bool;
  isSuspended : bool;
  chanClose : bool;
  svcDataRate : Z
}.

Record fmem := mkMem {
  heap : list Forwarder;
  wgs : list nat;
  opens : list conn;
  svc : ForwarderService
}.

(** A service that has just been started. *)
Definition newService (serverAddr : TCPAddr) (dataRate : Z) : ForwarderService :=
  mkService serverAddr false [] 0 false [] 0 false false false dataRate.

Definition init_mem (serverAddr : TCPAddr) (dataRate : Z) : fmem :=
  mkMem [] [] [] (newService serverAddr dataRate).

(** ** Field updates *)

Definition upd_client (c : conn) (x : Forwarder) : Forwarder :=
  mkForwarder (Some c) (serverConn x) (mux0 x) (mux1 x) (isUpClosed x) (isDownClosed x)
    (chanClosed x) (dataRate x) (chanEmergencyClose x).
Definition upd_server (c : conn) (x : Forwarder) : Forwarder :=
  mkForwarder (clientConn x) (Some c) (mux0 x) (mux1 x) (isUpClosed x) (isDownClosed x)
    (chanClosed x) (dataRate x) (chanEmergencyClose x).
Definition upd_mux (d : dir) (b : bool) (x : Forwarder) : Forwarder :=
  mkForwarder (clientConn x) (serverConn x) (match d with Up => b | Down => mux0 x end)
    (match d with Up => mux1 x | Down => b end)
    (isUpClosed x) (isDownClosed x) (chanClosed x) (dataRate x) (chanEmergencyClose x).
Definition upd_isClosed (d : dir) (x : Forwarder) : Forwarder :=
  mkForwarder (clientConn x) (serverConn x) (mux0 x) (mux1 x)
    (match d with Up => true | Down => isUpClosed x end)
    (match d with Up => isDownClosed x | Down => true end)
    (chanClosed x) (dataRate x) (chanEmergencyClose x).
Definition upd_closed (x : Forwarder) : Forwarder :=
  mkForwarder (clientConn x) (serverConn x) (mux0 x) (mux1 x) (isUpClosed x) (isDownClosed x)
    true (dataRate x) (chanEmergencyClose x).
Definition upd_rate (n : Z) (x : Forwarder) : Forwarder :=
  mkForwarder (clientConn x) (serverConn x) (mux0 x) (mux1 x) (isUpClosed x) (isDownClosed x)
    (chanClosed x) n (chanEmergencyClose x).
Definition upd_emergency (e : option bool) (x : Forwarder) : Forwarder :=
  mkForwarder (clientConn x) (serverConn x) (mux0 x) (mux1 x) (isUpClosed x) (isDownClosed x)
    (chanClosed x) (dataRate x) e.

Definition mux (d : dir) (x : Forwarder) : bool := match d with Up => mux0 x | Down => mux1 x end.
Definition isClosed (d : dir) (x : Forwarder) : bool :=
  match d with Up => isUpClosed x | Down => isDownClosed x end.

Definition set_heap (h : list Forwarder) (s : fmem) : fmem := mkMem h (wgs s) (opens s) (svc s).
Definition set_wgs (w : list nat) (s : fmem) : fmem := mkMem (heap s) w (opens s) (svc s).
Definition set_opens (o : list conn) (s : fmem) : fmem := mkMem (heap s) (wgs s) o (svc s).
Definition set_svc (p : ForwarderService) (s : fmem) : fmem :=
  mkMem (heap s) (wgs s) (opens s) p.

Definition upd_serverAddr (a : TCPAddr) (p : ForwarderService) : ForwarderService :=
  mkService a (muxFwdrs p) (fwdrs p) (nextElem p) (condL p) (waiting p) (nextTicket p)
    (chanSuspend p) (isSuspended p) (chanClose p) (svcDataRate p).
Definition upd_svcRate (n : Z) (p : ForwarderService) : ForwarderService :=
  mkService (serverAddr p) (muxFwdrs p) (fwdrs p) (nextElem p) (condL p) (waiting p)
    (nextTicket p) (chanSuspend p) (isSuspended p) (chanClose p) n.
Definition upd_muxFwdrs (b : bool) (p : ForwarderService) : ForwarderService :=
  mkService (serverAddr p) b (fwdrs p) (nextElem p) (condL p) (waiting p) (nextTicket p)
    (chanSuspend p) (isSuspended p) (chanClose p) (svcDataRate p).
Definition upd_fwdrs (l : list (elem * fref)) (n : elem) (p : ForwarderService)
  : ForwarderService :=
  mkService (serverAddr p) (muxFwdrs p) l n (condL p) (waiting p) (nextTicket p)
    (chanSuspend p) (isSuspended p) (chanClose p) (svcDataRate p).
Definition upd_cond (b : bool) (w : list nat) (n : nat) (p : ForwarderService)
  : ForwarderService :=
  mkService (serverAddr p) (muxFwdrs p) (fwdrs p) (nextElem p) b w n (chanSuspend p)
    (isSuspended p) (chanClose p) (svcDataRate p).
Definition upd_chanSuspend (b : bool) (p : ForwarderService) : ForwarderService :=
  mkService (serverAddr p) (muxFwdrs p) (fwdrs p) (nextElem p) (condL p) (waiting p)
    (nextTicket p) b (isSuspended p) (chanClose p) (svcDataRate p).
Definition upd_isSuspended (b : bool) (p : ForwarderService) : ForwarderService :=
  mkService (serverAddr p) (muxFwdrs p) (fwdrs p) (nextElem p) (condL p) (waiting p)
    (nextTicket p) (chanSuspend p) b (chanClose p) (svcDataRate p).
Definition upd_chanClose (p : ForwarderService) : ForwarderService :=
  mkService (serverAddr p) (muxFwdrs p) (fwdrs p) (nextElem p) (condL p) (waiting p)
    (nextTicket p) (chanSuspend p) (isSuspended p) true (svcDataRate p).

(** ** What the memory answers *)

(** The field of an existing forwarder: reading it, changing it. *)
Definition peek {X : Type} (f : fref) (s : fmem) (g : Forwarder → X) : option (X * fmem) :=
  x ← heap s !! f; Some (g x, s).
Definition poke {X : Type} (f : fref) (s : fmem) (a : X) (g : Forwarder → Forwarder)
  : option (X * fmem) :=
  x ← heap s !! f; Some (a, set_heap (<[f := g x]> (heap s)) s).
(** The same when the field is as [c] says; the goroutine waits when it is not. *)
Definition await {X : Type} (f : fref) (s : fmem) (c : Forwarder → bool) (a : X)
  (g : Forwarder → Forwarder) : option (X * fmem) :=
  x ← heap s !! f; if c x then Some (a, set_heap (<[f := g x]> (heap s)) s) else None.

(** The entry after [e] in the list of forwarders: none after the last, or when [e] has been
    removed. *)
Fixpoint next_of (e : elem) (l : list (elem * fref)) : option (elem * fref) :=
  match l with
  | [] => None
  | (e', _) :: l => if decide (e = e') then list.head l else next_of e l
  end.

(** The effects on the shared memory.  The outer [None] is an effect that the rest of the
    world answers; the inner one is an effect that waits. *)
Definition mem_do {X : Type} (s : fmem) (e : fwdE X) : option (option (X * fmem)) :=
  let p := svc s in
  match e in fwdE Y return option (option (Y * fmem)) with
  | FNew => Some (Some (length (heap s), set_heap (heap s ++ [mkNewForwarder]) s))
  | FGetClientConn f => Some (peek f s clientConn)
  | FSetClientConn f c => Some (poke f s tt (upd_client c))
  | FGetServerConn f => Some (peek f s serverConn)
  | FSetServerConn f c => Some (poke f s tt (upd_server c))
  | FGetDataRate f => Some (peek f s dataRate)
  | FSetDataRate f n => Some (poke f s tt (upd_rate n))
  | FGetIsClosed f d => Some (peek f s (isClosed d))
  | FSetIsClosed f d => Some (poke f s tt (upd_isClosed d))
  | FMuxLock f d => Some (await f s (λ x, negb (mux d x)) tt (upd_mux d true))
  | FMuxUnlock f d =>
      Some (x ← (heap s !! f);
            Some (mux d x, set_heap (<[f := upd_mux d false x]> (heap s)) s))
  | FHasEmergency f => Some (peek f s (λ x, bool_decide (is_Some (chanEmergencyClose x))))
  | FMakeEmergency f => Some (poke f s tt (upd_emergency (Some false)))
  | FCloseEmergency f =>
      Some (x ← (heap s !! f);
            Some (bool_decide (chanEmergencyClose x = Some false),
                  set_heap (<[f := upd_emergency (const true <$> chanEmergencyClose x) x]>
                              (heap s)) s))
  | FPollEmergency f => Some (peek f s (λ x, bool_decide (chanEmergencyClose x = Some true)))
  | FCloseClosed f =>
      Some (x ← (heap s !! f);
            Some (negb (chanClosed x), set_heap (<[f := upd_closed x]> (heap s)) s))
  | FRecvClosed f => Some (await f s chanClosed tt id)
  | WNew => Some (Some (length (wgs s), set_wgs (wgs s ++ [0]) s))
  | WAdd w n => Some (m ← (wgs s !! w); Some (tt, set_wgs (<[w := n + m]> (wgs s)) s))
  | WDone w =>
      Some (m ← (wgs s !! w); Some (0 <? m, set_wgs (<[w := pred m]> (wgs s)) s))
  | WWait w => Some (m ← (wgs s !! w); if 0 <? m then None else Some (tt, s))
  | SCondLock =>
      Some (if condL p then None
            else Some (tt, set_svc (upd_cond true (waiting p) (nextTicket p) p) s))
  | SCondUnlock =>
      Some (Some (condL p, set_svc (upd_cond false (waiting p) (nextTicket p) p) s))
  | SCondAdd =>
      Some (Some (nextTicket p,
        set_svc (upd_cond (condL p) (nextTicket p :: waiting p) (S (nextTicket p)) p) s))
  | SCondWait t => Some (if decide (t ∈ waiting p) then None else Some (tt, s))
  | SCondBroadcast => Some (Some (tt, set_svc (upd_cond (condL p) [] (nextTicket p) p) s))
  | SGetSuspended => Some (Some (isSuspended p, s))
  | SSetSuspended b => Some (Some (tt, set_svc (upd_isSuspended b p) s))
  | SSendSuspend =>
      Some (if chanSuspend p then None else Some (tt, set_svc (upd_chanSuspend true p) s))
  | SRecvSuspend =>
      Some (if chanSuspend p then Some (tt, set_svc (upd_chanSuspend false p) s) else None)
  | SCloseClose => Some (Some (negb (chanClose p), set_svc (upd_chanClose p) s))
  | SRecvClose => Some (if chanClose p then Some (tt, s) else None)
  | SGetServerAddr => Some (Some (serverAddr p, s))
  | SSetServerAddr a => Some (Some (tt, set_svc (upd_serverAddr a p) s))
  | SGetDataRate => Some (Some (svcDataRate p, s))
  | SSetDataRate n => Some (Some (tt, set_svc (upd_svcRate n p) s))
  | SFwdrsLock =>
      Some (if muxFwdrs p then None else Some (tt, set_svc (upd_muxFwdrs true p) s))
  | SFwdrsUnlock => Some (Some (muxFwdrs p, set_svc (upd_muxFwdrs false p) s))
  | SPushBack f =>
      Some (Some (nextElem p,
        set_svc (upd_fwdrs (fwdrs p ++ [(nextElem p, f)]) (S (nextElem p)) p) s))
  | SRemove e =>
      Some (Some (tt, set_svc
        (upd_fwdrs (filter (λ ef, ef.1 ≠ e) (fwdrs p)) (nextElem p) p) s))
  | SFront => Some (Some (list.head (fwdrs p), s))
  | SNext e => Some (Some (next_of e (fwdrs p), s))
  | _ => None
  end.

(** The rest of the world: a new connection is not open yet, closing an open one closes it
    and anything else fails, and all other answers are free. *)
Definition net_do (s : fmem) (o : obs fwdE) (s' : fmem) : Prop :=
  match o with
  | @Obs _ X e x =>
      match e in fwdE Y return Y → Prop with
      | NDialTCP _ _ _ | NAcceptTCP _ => λ r,
          match r with
          | Ok c => c ∉ opens s ∧ s' = set_opens (c :: opens s) s
          | Err _ => s' = s
          end
      | NClose c => λ r,
          (c ∈ opens s ∧ ∃ rest, opens s ≡ₚ c :: rest ∧ s' = set_opens rest s) ∨
          (c ∉ opens s ∧ r ≠ None ∧ s' = s)
      | _ => λ _, s' = s
      end x
  end.

Definition fwd_sem (s : fmem) (o : obs fwdE) (s' : fmem) : Prop :=
  match o with
  | @Obs _ X e x =>
      match mem_do s e with
      | Some r => r = Some (x, s')
      | None => net_do s o s'
      end
  end.

(** * A machine *)

(** A machine that keeps to [fwd_sem]: the connections it opens are numbered, an accept waits
    unless [script] lets one in, and the rest of the world does as [script] says and has
    nothing to tell otherwise. *)
Definition fresh_conn (s : fmem) : conn := S (foldr max 0 (opens s)).

Fixpoint remove1 (c : conn) (l : list conn) : list conn :=
  match l with [] => [] | c' :: l => if decide (c = c') then l else c' :: remove1 c l end.

Definition net_answer {X : Type} (script : fmem → ∀ X, fwdE X → option X) (s : fmem)
  (e : fwdE X) : option (X * fmem) :=
  match e in fwdE Y return option Y → option (Y * fmem) with
  | NDialTCP _ _ _ => λ a,
      match a with
      | Some (Err err) => Some (Err err, s)
      | _ => Some (Ok (fresh_conn s), set_opens (fresh_conn s :: opens s) s)
      end
  | NAcceptTCP _ => λ a,
      match a with
      | Some (Err err) => Some (Err err, s)
      | Some (Ok _) => Some (Ok (fresh_conn s), set_opens (fresh_conn s :: opens s) s)
      | None => None
      end
  | NClose c => λ a,
      if decide (c ∈ opens s)
      then Some (default None a, set_opens (remove1 c (opens s)) s)
      else Some (Some (EText "use of closed network connection"), s)
  | FLog _ _ => λ _, Some (tt, s)
  | NResolveTCPAddr _ addr => λ a, Some (default (Ok (mkTCPAddr addr 0)) a, s)
  | NRead _ _ => λ a, Some (default ([], Some EOF) a, s)
  | NWrite _ b => λ a, Some (default (Z.of_nat (length b), None) a, s)
  | NCloseRead _ => λ a, Some (default None a, s)
  | NSetLinger _ _ => λ _, Some (tt, s)
  | NLnSetDeadline _ _ => λ a, Some (default None a, s)
  | NLnClose _ => λ a, Some (default None a, s)
  | TNow => λ a, Some (default 0%Z a, s)
  | TSleep _ => λ _, Some (tt, s)
  | _ => λ _, None
  end (script s X e).

Definition fwd_machine (script : fmem → ∀ X, fwdE X → option X) (s : fmem) (X : Type)
  (e : fwdE X) : option (X * fmem) :=
  match mem_do s e with Some r => r | None => net_answer script s e end.

(** io.Reader and io.Writer: at most [cap] bytes are read; between 0 and all are written,
    and an error is returned when not all are. *)
Definition fwd_sane (o : obs fwdE) : Prop :=
  match o with
  | @Obs _ X e x =>
      match e in fwdE Y return Y → Prop with
      | NRead _ cap => λ r, (Z.of_nat (length r.1) ≤ cap)%Z
      | NWrite _ b => λ r,
          (0 ≤ r.1 ≤ Z.of_nat (length b))%Z ∧
          ((r.1 < Z.of_nat (length b))%Z → r.2 ≠ None)
      | _ => λ _, True
      end x
  end.

(** * Lemmas *)

Lemma fresh_conn_not_in s : fresh_conn s ∉ opens s.
Proof.
  unfold fresh_conn. intros Hin.
  assert (Hb : ∀ l c, c ∈ l → c ≤ foldr max 0 l).
  { intros l c Hc. induction Hc; simpl; lia. }
  apply Hb in Hin. lia.
Qed.

Lemma remove1_Permutation c l : c ∈ l → l ≡ₚ c :: remove1 c l.
Proof.
  induction l as [|c' l IH]; [by intros ?%not_elem_of_nil|]. intros Hin. simpl.
  case_decide as Hd; [by subst|]. apply elem_of_cons in Hin as [?|Hin]; [done|].
  rewrite (IH Hin) at 1. constructor.
Qed.

(** The machine is one of the environments [fwd_sem] describes. *)
Lemma fwd_machine_sem script s X (e : fwdE X) x s' :
  fwd_machine script s X e = Some (x, s') → fwd_sem s (Obs e x) s'.
Proof.
  unfold fwd_machine, fwd_sem. destruct (mem_do s e) as [r|] eqn:Hm; [done|].
  unfold net_answer. generalize (script s X e). intros a.
  destruct e; simpl in *; try discriminate Hm; destruct a as [a|]; simpl; intros Heq; repeat case_match; simplify_eq;
    try done; try (split; [apply fresh_conn_not_in|done]);
    first [ left; split; [done|]; eexists; split; [by apply remove1_Permutation|done]
          | by right ].
Qed.
