(* ===== verification/Fwd.v ===== *)
(** One forwarded connection: src/server/fwd.go. *)
From Stdlib Require Import SpecFloat.
From S2P Require Import Prelude Go Errors Sys FwdSys.
#[local] Open Scope go_scope.

Definition Fwdr_BufferSize : Z := 32 * 1024 * 1024.

(** * Common sequences *)

Definition fLogErrorE (e : error) : prog fwdE unit := call (FLog LError (Error e)).
Definition fLogWarn (s : string) : prog fwdE unit := call (FLog LWarn s).
Definition fLogInfo (s : string) : prog fwdE unit := call (FLog LInfo s).

(** A method call through a connection pointer that may be nil. *)
Definition on_conn {A : Type} (p : option conn) (k : conn → prog fwdE A) : prog fwdE A :=
  match p with Some c => k c | None => Panic nil_dereference end.

(** An operation whose failure is a panic with [msg]. *)
Definition must (e : fwdE bool) (msg : string) : prog fwdE unit :=
  ok <- call e;; if ok : bool then Ret tt else Panic msg.

Definition mux_unlock (f : fref) (d : dir) : prog fwdE unit :=
  must (FMuxUnlock f d) "sync: unlock of unlocked mutex".
Definition wg_done (w : wgref) : prog fwdE unit :=
  must (WDone w) "sync: negative WaitGroup counter".

(** A close whose error is only logged. *)
Definition warned (p : prog fwdE (option error)) (what : string) : prog fwdE unit :=
  r <- p;; match r with Some err => fLogWarn (what +:+ Error err) | None => Ret tt end.

(** * The rate limit *)

(** float64 *)
Definition f64 (z : Z) : spec_float := binary_normalize 53 1024 z 0 false.
Definition fmul : spec_float → spec_float → spec_float := SFmul 53 1024.
Definition fdiv : spec_float → spec_float → spec_float := SFdiv 53 1024.
Definition fsub : spec_float → spec_float → spec_float := SFsub 53 1024.
Definition fadd : spec_float → spec_float → spec_float := SFadd 53 1024.

(** [int64(f)]: towards zero. *)
Definition ftrunc (f : spec_float) : Z :=
  match f with
  | S754_finite s m e =>
      let n := (if (0 <=? e)%Z then Z.pos m * 2 ^ e else Z.pos m / 2 ^ (- e))%Z in
      if s then (- n)%Z else n
  | _ => 0%Z
  end.

(** [Duration.Seconds()] *)
Definition Seconds (ns : Z) : spec_float :=
  fadd (f64 (Z.quot ns 1000000000)) (fdiv (f64 (Z.rem ns 1000000000)) (f64 1000000000)).

(** The pause after [nw] bytes were written in [timeWrite] nanoseconds, if there is one. *)
Definition timeToSleep (nw dataRate timeWrite : Z) : option Z :=
  let dataBytes := f64 nw in
  let rateBps := fmul (f64 dataRate) (f64 125000) in
  let timeToSleep := fsub (fdiv dataBytes rateBps) (Seconds timeWrite) in
  if SFltb (f64 0) timeToSleep then Some (ftrunc (fmul timeToSleep (f64 1000000000)))
  else None.

(** A full buffer takes 2.68 seconds at 100 Mbit/s. *)
Example timeToSleep_full : timeToSleep Fwdr_BufferSize 100 0 = Some 2684354560%Z.
Proof. vm_compute. reflexivity. Qed.

(** * The forwarder *)

Definition NewForwarder : prog fwdE fref := call FNew.

Definition SetDataRate (p : fref) (dataRate : Z) : prog fwdE unit :=
  call (FSetDataRate p dataRate);;
  rate <- call (FGetDataRate p);;
  if (rate >? 0)%Z then
    clientConn <- call (FGetClientConn p);;
    match clientConn with
    | Some c => call (NSetLinger c 0)
    | None => Ret tt
    end
  else Ret tt.

Definition closeUpstream (p : fref) : prog fwdE unit :=
  call (FMuxLock p Up);;
  defer (mux_unlock p Up) (
    closed <- call (FGetIsClosed p Up);;
    if closed : bool then Ret tt
    else
      e <- call (FHasEmergency p);;
      (if e : bool then must (FCloseEmergency p) "close of closed channel" else Ret tt);;
      clientConn <- call (FGetClientConn p);;
      on_conn clientConn (λ c, warned (call (NCloseRead c)) "[Fwd] clientConn.CloseRead: ");;
      call (FSetIsClosed p Up)).

Definition closeDownstream (p : fref) : prog fwdE unit :=
  call (FMuxLock p Down);;
  defer (mux_unlock p Down) (
    closed <- call (FGetIsClosed p Down);;
    if closed : bool then Ret tt
    else
      serverConn <- call (FGetServerConn p);;
      on_conn serverConn (λ c, warned (call (NCloseRead c)) "[Fwd] serverConn.CloseRead: ");;
      call (FSetIsClosed p Down)).

Definition Close (p : fref) : prog fwdE unit :=
  closeUpstream p;;
  call (FRecvClosed p).

Section forwarder.
Context `{PkgErrors}.

Definition ErrShortWrite : error := EText "short write".

(** The messages of a failed write; [nr] is what was to be written, [nw] what was. *)
Definition writeFailed (msg : string) (err : error) (nr nw : Z) : prog fwdE unit :=
  (if IsClosedError err then fLogWarn msg else fLogErrorE (WithStack err));;
  if negb (nr =? nw)%Z then fLogErrorE (WithStack ErrShortWrite) else Ret tt.

(** The body of the loop of [upstream]; [inr] is its [return]. *)
Definition upstreamStep (p : fref) (clientIn serverOut : option conn)
  : prog fwdE (unit + unit) :=
  emergency <- call (FPollEmergency p);;
  if emergency : bool then Ret (inr tt)
  else
    r <- on_conn clientIn (λ c, call (NRead c Fwdr_BufferSize));;
    let '(b, cerr) := r in
    let nr := Z.of_nat (length b) in
    returned <-
      (if (nr >? 0)%Z then
         timeWriteStart <- call TNow;;
         w <- on_conn serverOut (λ c, call (NWrite c b));;
         let '(nw, serr) := w in
         rate <- call (FGetDataRate p);;
         (if (rate >? 0)%Z then
            now <- call TNow;;
            rate <- call (FGetDataRate p);;
            match timeToSleep nw rate (now - timeWriteStart) with
            | Some ns => call (TSleep ns)
            | None => Ret tt
            end
          else Ret tt);;
         match serr with
         | Some serr => writeFailed "[Fwd] Upstream: server is close" serr nr nw;; Ret true
         | None => Ret false
         end
       else Ret false);;
    if returned : bool then Ret (inr tt)
    else
      match cerr with
      | Some cerr =>
          if bool_decide (cerr = EOF) || IsClosedError cerr then Ret (inr tt)
          else fLogErrorE (WithStack cerr);; Ret (inr tt)
      | None => Ret (inl tt)
      end.

Definition upstream (p : fref) (clientIn serverOut : option conn) (wg : option wgref)
  : prog fwdE unit :=
  defer (closeDownstream p;;
         match wg with Some wg => wg_done wg | None => Ret tt end) (
    rate <- call (FGetDataRate p);;
    (if (rate >? 0)%Z then
       rate <- call (FGetDataRate p);;
       fLogInfo ("[Fwd] Upstream: data rate limited to " +:+ itoa rate +:+ " Mbps" +:+ newline)
     else Ret tt);;
    loop tt (λ _, upstreamStep p clientIn serverOut)).

(** The body of the loop of [downstream]. *)
Definition downstreamStep (serverIn clientOut : option conn) : prog fwdE (unit + unit) :=
  r <- on_conn serverIn (λ c, call (NRead c Fwdr_BufferSize));;
  let '(b, serr) := r in
  let nr := Z.of_nat (length b) in
  returned <-
    (if (nr >? 0)%Z then
       w <- on_conn clientOut (λ c, call (NWrite c b));;
       let '(nw, cerr) := w in
       match cerr with
       | Some cerr => writeFailed "[Fwd] Downstream: client is close" cerr nr nw;; Ret true
       | None => Ret false
       end
     else Ret false);;
  if returned : bool then Ret (inr tt)
  else
    match serr with
    | Some serr =>
        if bool_decide (serr = EOF) || IsClosedError serr then Ret (inr tt)
        else fLogErrorE serr;; Ret (inr tt)
    | None => Ret (inl tt)
    end.

Definition downstream (p : fref) (serverIn clientOut : option conn) (wg : option wgref)
  : prog fwdE unit :=
  defer (closeUpstream p;;
         match wg with Some wg => wg_done wg | None => Ret tt end) (
    loop tt (λ _, downstreamStep serverIn clientOut)).

(** [gatewayAddr] is [TheAPICore.GatewayAddr]. *)
Definition dialTCP (gatewayAddr network : string) (serverAddr : TCPAddr)
  : prog fwdE (result conn error) :=
  laddr <-
    (if bool_decide (gatewayAddr ≠ "") then
       r <- call (NResolveTCPAddr network (gatewayAddr +:+ ":0"));;
       match r with
       | Err err => fLogWarn ("[Fwd] ResolveTCPAddr: " +:+ Error err);; Ret None
       | Ok la => Ret (Some la)
       end
     else Ret None);;
  r <- call (NDialTCP network laddr serverAddr);;
  match r with
  | Err err => Ret (Err (WithStack err))
  | Ok conn => Ret (Ok conn)
  end.

Definition Accept (gatewayAddr : string) (p : fref) (network : string) (serverAddr : TCPAddr)
  (clientConn : conn) : prog fwdE unit :=
  defer (must (FCloseClosed p) "close of closed channel") (
    call (FSetClientConn p clientConn);;
    rate <- call (FGetDataRate p);;
    (if (rate >? 0)%Z then
       cc <- call (FGetClientConn p);;
       on_conn cc (λ c, call (NSetLinger c 0));;
       call (FMakeEmergency p)
     else Ret tt);;
    r <- dialTCP gatewayAddr network serverAddr;;
    match r with
    | Err err =>
        fLogErrorE err;;
        cc <- call (FGetClientConn p);;
        on_conn cc (λ c, warned (call (NClose c)) "[Fwd] clientConn.Close: ")
    | Ok serverConn =>
        call (FSetServerConn p serverConn);;
        wg <- call WNew;;
        call (WAdd wg 2);;
        cc <- call (FGetClientConn p);;
        sc <- call (FGetServerConn p);;
        go (upstream p cc sc (Some wg));;
        sc <- call (FGetServerConn p);;
        cc <- call (FGetClientConn p);;
        go (downstream p sc cc (Some wg));;
        call (WWait wg);;
        cc <- call (FGetClientConn p);;
        on_conn cc (λ c, warned (call (NClose c)) "[Fwd] clientConn.Close: ");;
        sc <- call (FGetServerConn p);;
        on_conn sc (λ c, warned (call (NClose c)) "[Fwd] serverConn.Close: ")
    end).

End forwarder.

Definition MinInt (a b : Z) : Z := if (a <? b)%Z then a else b.
