(* ===== verification/FwdCopy.v ===== *)
(** The two copy loops of a forwarder: which bytes go where, in every run. *)
From S2P Require Import Prelude Go Errors Sys Kube FwdSys Fwd.
#[local] Open Scope go_scope.

(** * What a copy loop does *)

Inductive io_ev :=
| IORead (c : conn) (b : list byte) (err : option error)
| IOWrite (c : conn) (b : list byte) (n : Z) (err : option error)
| IOEmergency.

Definition io_of (o : obs fwdE) : option io_ev :=
  match o with
  | @Obs _ X e x =>
      match e in fwdE Y return Y → option io_ev with
      | NRead c _ => λ r, Some (IORead c r.1 r.2)
      | NWrite c b => λ r, Some (IOWrite c b r.1 r.2)
      | FPollEmergency _ => λ closed, if closed : bool then Some IOEmergency else None
      | _ => λ _, None
      end x
  end.

(** The bytes read, and the bytes the destination took. *)
Definition received (l : list io_ev) : list byte :=
  concat (omap (λ e, match e with IORead _ b _ => Some b | _ => None end) l).
Definition sent (l : list io_ev) : list byte :=
  concat (omap (λ e, match e with IOWrite _ b n _ => Some (take (Z.to_nat n) b) | _ => None end) l).

Definition write_failed (e : io_ev) : bool :=
  match e with IOWrite _ _ _ (Some _) => true | _ => false end.
(** What ends a copy loop. *)
Definition stops (e : io_ev) : bool :=
  match e with
  | IORead _ _ (Some _) | IOWrite _ _ _ (Some _) | IOEmergency => true
  | _ => false
  end.
Definition between (src dst : conn) (e : io_ev) : Prop :=
  match e with IORead c _ _ => c = src | IOWrite c _ _ _ => c = dst | IOEmergency => True end.

(** A faithful copy from [src] to [dst]: only their data is touched; the bytes taken are the
    first of the bytes read, in order, and all of them unless a write failed, which is then
    the last thing that happens to the streams; and the loop has ended for a reason. *)
Definition faithful (src dst : conn) (l : list io_ev) : Prop :=
  Forall (between src dst) l ∧
  sent l `prefix_of` received l ∧
  (Forall (λ e, write_failed e = false) l → sent l = received l) ∧
  (∀ l1 e l2, l = l1 ++ e :: l2 → write_failed e = true → l2 = []) ∧
  Exists (λ e, stops e = true) l.

(** The same while the loop goes on. *)
Definition flowing (src dst : conn) (l : list io_ev) : Prop :=
  Forall (between src dst) l ∧ sent l = received l ∧
  Forall (λ e, stops e = false) l.

(** * Lemmas *)

Lemma sent_app l1 l2 : sent (l1 ++ l2) = sent l1 ++ sent l2.
Proof. unfold sent. by rewrite omap_app, concat_app. Qed.

Lemma received_app l1 l2 : received (l1 ++ l2) = received l1 ++ received l2.
Proof. unfold received. by rewrite omap_app, concat_app. Qed.

Lemma flowing_unfailed src dst l :
  flowing src dst l → Forall (λ e, write_failed e = false) l.
Proof.
  intros (_ & _ & Hl). eapply Forall_impl; [exact Hl|]. by intros [|? ? ? []|].
Qed.

(** A last event after which the loop returns. *)
Lemma flowing_ends src dst l e :
  flowing src dst l → between src dst e → stops e = true → write_failed e = false →
  sent [e] = received [e] → faithful src dst (l ++ [e]).
Proof.
  intros Hl Hb Hs Hf He. pose proof (flowing_unfailed _ _ _ Hl) as Hw.
  destruct Hl as (Hc & Heq & Hn). split; [|split; [|split; [|split]]].
  - by apply Forall_snoc.
  - rewrite sent_app, received_app, Heq, He. done.
  - intros _. by rewrite sent_app, received_app, Heq, He.
  - intros l1 e' l2 Hl He'. exfalso.
    assert (Hin : e' ∈ l ++ [e]) by (rewrite Hl; apply elem_of_app; right; by left).
    apply elem_of_app in Hin as [Hin|Hin].
    + rewrite Forall_forall in Hw. rewrite (Hw _ Hin) in He'. done.
    + apply list_elem_of_singleton in Hin as ->. congruence.
  - apply Exists_app. right. by apply Exists_cons_hd.
Qed.

(** A chunk that is read without an error and written without one. *)
Lemma flowing_round src dst l b n :
  flowing src dst l → (Z.of_nat (length b) ≤ n)%Z →
  flowing src dst (l ++ [IORead src b None; IOWrite dst b n None]).
Proof.
  intros (Hc & Heq & Hn) Hlen. split; [|split].
  - apply Forall_app. by repeat constructor.
  - rewrite sent_app, received_app, Heq. unfold sent, received. simpl.
    rewrite !app_nil_r, take_ge by lia. done.
  - apply Forall_app. by repeat constructor.
Qed.

(** A read without data or error. *)
Lemma flowing_nothing src dst l :
  flowing src dst l → flowing src dst (l ++ [IORead src [] None]).
Proof.
  intros (Hc & Heq & Hn). split; [|split].
  - by apply Forall_snoc.
  - rewrite sent_app, received_app, Heq. done.
  - by apply Forall_snoc.
Qed.

(** A last chunk: the write fails, or the read came with an error. *)
Lemma flowing_last src dst l b rerr n werr :
  flowing src dst l → (werr = None → (Z.of_nat (length b) ≤ n)%Z) →
  rerr ≠ None ∨ werr ≠ None →
  faithful src dst (l ++ [IORead src b rerr; IOWrite dst b n werr]).
Proof.
  intros Hl Hn Hend. pose proof (flowing_unfailed _ _ _ Hl) as Hw.
  destruct Hl as (Hc & Heq & Hs). unfold faithful. rewrite sent_app, received_app, Heq.
  change (sent [IORead src b rerr; IOWrite dst b n werr])
    with (take (Z.to_nat n) b ++ []).
  change (received [IORead src b rerr; IOWrite dst b n werr]) with (b ++ []).
  rewrite !app_nil_r. split; [|split; [|split; [|split]]].
  - apply Forall_app. by repeat constructor.
  - apply prefix_app. exists (drop (Z.to_nat n) b). by rewrite take_drop.
  - intros Hall. apply Forall_app in Hall as [_ Hall]. destruct werr as [e|].
    + apply Forall_cons in Hall as [_ Hall]. by apply Forall_cons in Hall as [? _].
    + by rewrite take_ge by (specialize (Hn eq_refl); lia).
  - intros l1 e l2 Heq' He. symmetry in Heq'. 
    destruct l2 as [|e2 l2] using rev_ind; [done|]. exfalso. clear IHl2.
    assert (Hin : e ∈ l ++ [IORead src b rerr]).
    { rewrite app_comm_cons, app_assoc in Heq'.
      change [IORead src b rerr; IOWrite dst b n werr]
        with ([IORead src b rerr] ++ [IOWrite dst b n werr]) in Heq'.
      rewrite (app_assoc l) in Heq'. apply app_inj_tail in Heq' as [<- _].
      apply elem_of_app. right. by left. }
    apply elem_of_app in Hin as [Hin|Hin].
    + rewrite Forall_forall in Hw. by rewrite (Hw _ Hin) in He.
    + by apply list_elem_of_singleton in Hin as ->.
  - apply Exists_app. right. destruct rerr as [e|]; [by apply Exists_cons_hd|].
    apply Exists_cons_tl. destruct werr as [e|]; [by apply Exists_cons_hd|]. by destruct Hend.
Qed.

(** * The loops *)

Ltac frun :=
  repeat (
    unfold fLogErrorE, fLogWarn, fLogInfo, must, warned, mux_unlock, wg_done, on_conn, defer,
      defer_on, writeFailed;
    cbn [respects bind call go loop mon_step mon_legal mon_split mon_final mon_panic
         collector fst snd io_of];
    try run_step).

Section loops.
Context `{PkgErrors} (src dst : conn).

(** A return of the step keeps the copy going; its end is faithful. *)
Definition step_post (l : list io_ev) (r : unit + unit) : Prop :=
  match r with inl _ => flowing src dst l | inr _ => faithful src dst l end.

(** The cases of a step: nothing read, a chunk that is passed on, and the ends. *)
Ltac flow Hl :=
  unfold step_post; rewrite <- ?app_assoc; simpl in *;
  first
  [ apply flowing_round; [exact Hl|]; apply Z.nlt_ge; intros ?; naive_solver
  | apply flowing_last; [exact Hl| |naive_solver];
    intros ?; try discriminate; apply Z.nlt_ge; intros ?; naive_solver
  | match goal with
    | _ : (Z.of_nat (length ?b) >? 0)%Z = false |- _ =>
        destruct b; [|simpl in *; discriminate]
    end;
    first [apply flowing_nothing; exact Hl | by apply flowing_ends]
  | by apply flowing_ends ].

Lemma upstreamStep_flows p l :
  flowing src dst l →
  respects (collector io_of fwd_sane) (upstreamStep p (Some src) (Some dst)) l step_post.
Proof. intros Hl. unfold upstreamStep. frun; flow Hl. Qed.

Lemma downstreamStep_flows l :
  flowing src dst l →
  respects (collector io_of fwd_sane) (downstreamStep (Some src) (Some dst)) l step_post.
Proof. intros Hl. unfold downstreamStep. frun; flow Hl. Qed.

Lemma nothing_flows : flowing src dst [].
Proof. by repeat constructor. Qed.

Lemma upstream_faithful p wg :
  respects (collector io_of fwd_sane) (upstream p (Some src) (Some dst) wg) []
    (λ l _, faithful src dst l).
Proof.
  unfold upstream, closeDownstream. frun; apply respects_loop with (λ _, flowing src dst);
    try apply nothing_flows; intros [] l Hl;
    (eapply respects_mono; [by apply upstreamStep_flows|]); intros l' [[]|[]] Hp; try exact Hp;
    frun; exact Hp.
Qed.

Lemma downstream_faithful p wg :
  respects (collector io_of fwd_sane) (downstream p (Some src) (Some dst) wg) []
    (λ l _, faithful src dst l).
Proof.
  unfold downstream, closeUpstream. frun; apply respects_loop with (λ _, flowing src dst);
    try apply nothing_flows; intros [] l Hl;
    (eapply respects_mono; [by apply downstreamStep_flows|]); intros l' [[]|[]] Hp; try exact Hp;
    frun; exact Hp.
Qed.

End loops.

(** * Properties *)

(** C30.  Both copy loops of a forwarder, in every run that returns and for any answers of the
    network: the destination is given exactly the first of the bytes read from the source,
    in order and without gaps, and all of them unless one write failed, after which neither
    stream is touched; nothing is read from or written to another connection; and the loop
    ended because of a read error (the end of the stream included), a failed write, or, for
    [upstream], an emergency close. *)
Theorem streams_copied `{PkgErrors} (p : fref) (src dst : conn) (wg : option wgref)
    (tr : list (obs fwdE)) :
  Forall fwd_sane tr →
  runs (upstream p (Some src) (Some dst) wg) tr (Ret tt) ∨
  runs (downstream p (Some src) (Some dst) wg) tr (Ret tt) →
  faithful src dst (omap io_of tr).
Proof.
  intros Hs [Hr|Hr].
  - exact (collector_complete _ fwd_sane _ _ _ _ (upstream_faithful src dst p wg) Hr Hs).
  - exact (collector_complete _ fwd_sane _ _ _ _ (downstream_faithful src dst p wg) Hr Hs).
Qed.

(** A forwarder that is limited to 100 Mbit/s, and a client that sends two chunks. *)
Definition limited : fmem :=
  mkMem [mkForwarder (Some 1) (Some 2) false false false false false 100 (Some false)] [1] [1; 2]
    (newService (mkTCPAddr "10.0.0.2" 8888) 100).

(** The first read gets two bytes; the write makes the clock run; the second read gets the
    last byte with the end of the stream. *)
Definition two_chunks (n : nat) (X : Type) (e : fwdE X) : option X :=
  match n, e in fwdE Y return option Y with
  | 4, NRead _ _ => Some ([x61; x62], None)
  | 12, NRead _ _ => Some ([x63], Some EOF)
  | _, _ => None
  end.

Definition counting (script : nat → ∀ X, fwdE X → option X) (s : nat * fmem) (X : Type)
  (e : fwdE X) : option (X * (nat * fmem)) :=
  '(x, m) ← fwd_machine (λ _, script s.1) s.2 X e; Some (x, (S s.1, m)).

Definition ref_up : prog fwdE unit := @upstream ReferenceK8s.pkg 0 (Some 1) (Some 2) (Some 0).
Definition ref_up_trace : list (obs fwdE) :=
  (interp (counting two_chunks) 100 (0, limited) ref_up).1.1.

Lemma streams_copied_witness :
  sent (omap io_of ref_up_trace) = [x61; x62; x63] ∧ faithful 1 2 (omap io_of ref_up_trace).
Proof.
  split; [vm_compute; reflexivity|].
  apply (@streams_copied ReferenceK8s.pkg 0 1 2 (Some 0)).
  - vm_compute. repeat constructor; discriminate.
  - left. apply interp_runs_to. vm_compute. reflexivity.
Defined.
