(* ===== verification/Binary64.v ===== *)
(** Arithmetic in binary64: every operation of [SpecFloat] on positive numbers is exact up to a
    relative error, away from the ends of the range. *)
From Stdlib Require Import Reals Lra SpecFloat.
From S2P Require Import Prelude.
#[local] Open Scope Z_scope.
#[local] Open Scope R_scope.

(** * Powers of two *)

Definition bpow (e : Z) : R := powerRZ 2 e.
#[global] Arguments bpow : simpl never.

Lemma bpow_pos e : 0 < bpow e.
Proof. apply powerRZ_lt. lra. Qed.

Lemma bpow_add a b : bpow (a + b) = bpow a * bpow b.
Proof. apply powerRZ_add. lra. Qed.

Lemma bpow_sub a b : bpow (a - b) = bpow a / bpow b.
Proof.
  pose proof (bpow_pos b). replace (bpow a) with (bpow (a - b) * bpow b).
  - field. lra.
  - rewrite <-bpow_add. f_equal. lia.
Qed.

Lemma bpow_Z n : (0 ≤ n)%Z → bpow n = IZR (2 ^ n).
Proof.
  intros Hn. rewrite <-(Z2Nat.id n) by done. unfold bpow. rewrite <-pow_powerRZ.
  by rewrite pow_IZR.
Qed.

Lemma bpow_1 : bpow 1 = 2.
Proof. by rewrite bpow_Z. Qed.

Lemma bpow_lt a b : (a < b)%Z → bpow a < bpow b.
Proof.
  intros Hab. replace b with (a + (b - a))%Z by lia. rewrite bpow_add.
  assert (1 < bpow (b - a)) by (rewrite bpow_Z by lia; apply IZR_lt, Z.pow_gt_1; lia).
  pose proof (bpow_pos a). nra.
Qed.

Lemma bpow_le a b : (a ≤ b)%Z → bpow a <= bpow b.
Proof.
  intros [Hab| ->]%Z.le_lteq; [|lra]. left. by apply bpow_lt.
Qed.

Lemma bpow_lt_inv a b : bpow a < bpow b → (a < b)%Z.
Proof.
  intros Hab. apply Z.nle_gt. intros ?%bpow_le. lra.
Qed.

(** * Digits *)

Lemma digits_bounds p :
  (2 ^ (Zpos (digits2_pos p) - 1) ≤ Zpos p < 2 ^ Zpos (digits2_pos p))%Z.
Proof.
  induction p as [p IH|p IH|]; simpl; [| |done];
    rewrite Pos2Z.inj_succ;
    replace (Z.succ (Zpos (digits2_pos p)) - 1)%Z
      with (Z.succ (Zpos (digits2_pos p) - 1))%Z by lia;
    rewrite !Z.pow_succ_r by lia; lia.
Qed.

Lemma digits_value p e :
  bpow (Zpos (digits2_pos p) + e - 1) <= IZR (Zpos p) * bpow e < bpow (Zpos (digits2_pos p) + e).
Proof.
  destruct (digits_bounds p) as [Hl Hu]. pose proof (bpow_pos e).
  replace (Zpos (digits2_pos p) + e - 1)%Z with ((Zpos (digits2_pos p) - 1) + e)%Z by lia.
  rewrite !bpow_add, (bpow_Z (_ - 1)), (bpow_Z (Zpos _)) by lia.
  apply IZR_le in Hl. apply IZR_lt in Hu.
  split; [apply Rmult_le_compat_r|apply Rmult_lt_compat_r]; lra.
Qed.

(** * Shifting to the right *)

(** A record stands for the real numbers its mantissa is the integral part of; without the
    bits it is the mantissa. *)
Definition within (r : shr_record) (x : R) : Prop :=
  (0 ≤ shr_m r)%Z ∧ IZR (shr_m r) <= x < IZR (shr_m r) + 1 ∧
  (shr_r r = false → shr_s r = false → x = IZR (shr_m r)).

Lemma shr_1_within r x : within r x → within (shr_1 r) (x / 2).
Proof.
  destruct r as [m r s]. unfold within. simpl. intros (Hm & Hx & He).
  assert (Hdouble : ∀ p, IZR (Zpos (xO p)) = 2 * IZR (Zpos p) ∧
    IZR (Zpos (xI p)) = 2 * IZR (Zpos p) + 1).
  { intros p. rewrite (Pos2Z.inj_xO p), (Pos2Z.inj_xI p).
    by rewrite ?plus_IZR, ?mult_IZR. }
  destruct m as [|[p|p|]|p]; simpl; [| | | |lia]; (split; [lia|]).
  - split; [lra|]. intros _ [-> ->]%orb_false_elim. rewrite He by done. lra.
  - destruct (Hdouble p) as [_ Hp]. split; [lra|done].
  - destruct (Hdouble p) as [Hp _]. split; [lra|].
    intros _ [-> ->]%orb_false_elim. rewrite He by done. lra.
  - split; [lra|done].
Qed.

Lemma shr_iter_within p r x :
  within r x → within (SpecFloat.iter_pos shr_1 p r) (x / bpow (Zpos p)).
Proof.
  assert (Hdouble : ∀ (y : R) q, y / bpow (Zpos q) / bpow (Zpos q) = y / bpow (Zpos q~0)).
  { intros y q. replace (Zpos q~0) with (Zpos q + Zpos q)%Z by lia. rewrite bpow_add.
    pose proof (bpow_pos (Zpos q)). field. lra. }
  revert r x. induction p as [p IH|p IH|]; intros r x Hr; cbn [SpecFloat.iter_pos].
  - replace (x / bpow (Zpos p~1)) with (x / 2 / bpow (Zpos p) / bpow (Zpos p)).
    + apply IH, IH. by apply shr_1_within.
    + rewrite Hdouble. replace (Zpos p~1) with (1 + Zpos p~0)%Z by lia.
      rewrite bpow_add, bpow_1. pose proof (bpow_pos (Zpos p~0)). field. lra.
  - rewrite <-Hdouble. by apply IH, IH.
  - rewrite bpow_1. by apply shr_1_within.
Qed.

(** * Rounding *)

(** The relative error of an operation. *)
Definition eps : R := bpow (-52).

Lemma eps_value : eps = / IZR (2 ^ 52).
Proof.
  unfold eps. replace (-52)%Z with (0 - 52)%Z by lia. rewrite bpow_sub, !bpow_Z by lia. lra.
Qed.

Lemma round_within r x :
  within r x →
  let z := round_nearest_even (shr_m r) (loc_of_shr_record r) in
  (shr_m r <= z <= shr_m r + 1)%Z ∧ Rabs (IZR z - x) <= 1 ∧
  (shr_r r = false → shr_s r = false → IZR z = x).
Proof.
  destruct r as [m r s]. unfold within. simpl. intros (_ & Hx & He).
  assert (Hlow : Rabs (IZR m - x) <= 1) by (apply Rabs_le; lra).
  assert (Hhigh : Rabs (IZR (m + 1) - x) <= 1) by (rewrite plus_IZR; apply Rabs_le; lra).
  destruct r, s; simpl; [| |..].
  - split; [lia|]. by split.
  - destruct (Z.even m); (split; [lia|]); by split.
  - split; [lia|]. by split.
  - split; [lia|]. split; [done|]. intros _ _. by rewrite He.
Qed.

(** A mantissa of at most 53 bits, or the next power of two, is kept. *)
Lemma round_kept sx q e :
  (Zpos q <= 2 ^ 53)%Z → (-1053 <= e <= 901)%Z →
  ∃ m e',
    (let '(mrs, e') := shr_fexp 53 1024 (Zpos q) e loc_Exact in
     match shr_m mrs with
     | Z0 => S754_zero sx
     | Zpos m => if Z.leb e' (1024 - 53) then S754_finite sx m e' else S754_infinity sx
     | _ => S754_nan
     end) = S754_finite sx m e' ∧
    (Zpos m < 2 ^ 53)%Z ∧ IZR (Zpos m) * bpow e' = IZR (Zpos q) * bpow e.
Proof.
  intros Hq He. unfold shr_fexp, fexp, emin. destruct (Z.eq_dec (Zpos q) (2 ^ 53)%Z) as [Heq|Hne].
  - assert (q = 2 ^ 53)%positive as -> by lia. exists (2 ^ 52)%positive, (e + 1)%Z.
    change (Zdigits2 (Zpos (2 ^ 53))) with 54%Z.
    replace (_ - e)%Z with 1%Z by lia. cbn [shr SpecFloat.iter_pos].
    split; [cbn; by rewrite (proj2 (Z.leb_le _ _)) by lia|]. split; [done|].
    rewrite bpow_add, bpow_1. change (Zpos (2 ^ 53)) with (2 * Zpos (2 ^ 52))%Z.
    rewrite mult_IZR. ring.
  - exists q, e. assert (Hd : (Zpos (digits2_pos q) <= 53)%Z).
    { destruct (digits_bounds q) as [Hl _]. apply Z.nlt_ge. intros Hd.
      assert (2 ^ 53 <= 2 ^ (Zpos (digits2_pos q) - 1))%Z by (apply Z.pow_le_mono_r; lia). lia. }
    set (n := (Z.max _ _ - e)%Z). assert (n <= 0)%Z by (unfold n; cbn [Zdigits2]; lia).
    split; [|split; [lia|done]].
    assert (shr (shr_record_of_loc (Zpos q) loc_Exact) e n =
      ({| shr_m := Zpos q; shr_r := false; shr_s := false |}, e)) as -> by by destruct n.
    simpl. by rewrite (proj2 (Z.leb_le _ _)) by lia.
Qed.

Lemma within_bounds r x a b :
  within r x → IZR a <= x < IZR b → (a <= shr_m r < b)%Z.
Proof.
  intros (_ & [Hl Hu] & _) [Ha Hb]. split; [|apply lt_IZR; lra].
  apply Z.lt_succ_r, lt_IZR. rewrite succ_IZR. lra.
Qed.

Lemma within_mantissa p l x :
  within (shr_record_of_loc (Zpos p) l) x → IZR (Zpos p) <= x < IZR (Zpos p + 1).
Proof. intros (_ & Hx & _). rewrite plus_IZR. by destruct l as [|[]]. Qed.

(** The record after the first shift, for a number in the normal range: it has at most 53
    bits, and 53 of them if it is not exact. *)
Lemma shr_fexp_normal p e l x :
  within (shr_record_of_loc (Zpos p) l) x → l = loc_Exact ∨ (2 ^ 52 <= Zpos p)%Z →
  (-1000 <= Zpos (digits2_pos p) + e <= 901)%Z →
  ∃ r e' y,
    shr_fexp 53 1024 (Zpos p) e l = (r, e') ∧ (-1053 <= e' <= 900)%Z ∧
    within r y ∧ y * bpow e' = x * bpow e ∧ (0 < shr_m r < 2 ^ 53)%Z ∧
    ((shr_r r = false ∧ shr_s r = false) ∨ (2 ^ 52 <= shr_m r)%Z).
Proof.
  intros Hx Hl He. destruct (digits_bounds p) as [Hlow Hhigh].
  set (d := Zpos (digits2_pos p)) in *. assert (1 <= d)%Z by lia.
  unfold shr_fexp, fexp, emin. cbn [Zdigits2]. fold d.
  replace (Z.max _ _ - e)%Z with (d - 53)%Z by lia.
  destruct (d - 53)%Z as [|n|n] eqn:Hn; cbn [shr].
  1,3: exists (shr_record_of_loc (Zpos p) l), e, x; split; [done|]; split; [lia|];
    split; [done|]; split; [done|];
    assert (2 ^ d <= 2 ^ 53)%Z by (apply Z.pow_le_mono_r; lia);
    assert (shr_m (shr_record_of_loc (Zpos p) l) = Zpos p) as -> by (by destruct l as [|[]]);
    split; [lia|]; destruct Hl as [->|Hl]; [by left|by right].
  pose proof (shr_iter_within n _ _ Hx) as Hy. set (r := SpecFloat.iter_pos _ _ _) in *.
  exists r, (e + Zpos n)%Z, (x / bpow (Zpos n)). split; [done|]. split; [lia|]. split; [done|].
  pose proof (bpow_pos (Zpos n)). pose proof (bpow_pos e).
  split; [rewrite bpow_add; field; lra|]. cut (2 ^ 52 <= shr_m r < 2 ^ 53)%Z; [lia|].
  apply (within_bounds _ _ _ _ Hy). apply within_mantissa in Hx as [Hxl Hxu].
  assert (IZR (2 ^ (d - 1)) <= IZR (Zpos p)) by by apply IZR_le.
  assert (IZR (Zpos p + 1) <= IZR (2 ^ d)) by (apply IZR_le; lia).
  assert (IZR (2 ^ (d - 1)) = IZR (2 ^ 52) * bpow (Zpos n)) as Hd1.
  { rewrite <-!bpow_Z, <-bpow_add by lia. f_equal. lia. }
  assert (IZR (2 ^ d) = IZR (2 ^ 53) * bpow (Zpos n)) as Hd2.
  { rewrite <-!bpow_Z, <-bpow_add by lia. f_equal. lia. }
  assert (x / bpow (Zpos n) * bpow (Zpos n) = x) by (field; lra).
  split; [apply (Rmult_le_reg_r (bpow (Zpos n)))|apply (Rmult_lt_reg_r (bpow (Zpos n)))]; lra.
Qed.

Lemma rounding_error m z y :
  (0 <= m)%Z → IZR m <= y → z = y ∨ (2 ^ 52 <= m)%Z → Rabs (z - y) <= 1 →
  Rabs (z - y) <= eps * y.
Proof.
  intros Hm Hy Hor Herr. pose proof (IZR_le _ _ Hm). pose proof (bpow_pos (-52)).
  fold eps in *. destruct Hor as [->|Hbig].
  - rewrite Rminus_diag, Rabs_R0. apply Rmult_le_pos; lra.
  - apply IZR_le in Hbig. assert (eps * IZR (2 ^ 52) = 1) as Hone.
    { rewrite eps_value. apply Rinv_l. apply eq_IZR_contrapositive. lia. }
    assert (eps * IZR (2 ^ 52) <= eps * y) by (apply Rmult_le_compat_l; lra). lra.
Qed.

(** What is to be rounded is in the middle of the range. *)
Definition middle (x : R) : Prop := bpow (-900) <= x <= bpow 900.

Lemma round_aux sx p e l x :
  within (shr_record_of_loc (Zpos p) l) x → l = loc_Exact ∨ (2 ^ 52 <= Zpos p)%Z →
  middle (x * bpow e) →
  ∃ m e', binary_round_aux 53 1024 sx (Zpos p) e l = S754_finite sx m e' ∧
    (Zpos m < 2 ^ 53)%Z ∧
    Rabs (IZR (Zpos m) * bpow e' - x * bpow e) <= eps * (x * bpow e).
Proof.
  intros Hx Hl [Hlow Hhigh]. pose proof (within_mantissa _ _ _ Hx) as [Hxl Hxu].
  pose proof (bpow_pos e) as He. destruct (digits_value p e) as [Hdl Hdu].
  assert (Hd : (-1000 <= Zpos (digits2_pos p) + e <= 901)%Z).
  { assert (IZR (Zpos p + 1) <= 2 * IZR (Zpos p)) by (rewrite <-mult_IZR; apply IZR_le; lia).
    assert (Zpos (digits2_pos p) + e - 1 < 901)%Z.
    { apply bpow_lt_inv. pose proof (bpow_lt 900 901 eq_refl).
      assert (IZR (Zpos p) * bpow e <= x * bpow e) by (apply Rmult_le_compat_r; lra). lra. }
    assert (-900 < Zpos (digits2_pos p) + e + 1)%Z; [|lia].
    apply bpow_lt_inv. rewrite bpow_add, bpow_1.
    assert (x * bpow e < 2 * IZR (Zpos p) * bpow e) by (apply Rmult_lt_compat_r; lra). lra. }
  destruct (shr_fexp_normal p e l x Hx Hl Hd) as (r & e' & y & Hr & He' & Hy & Heq & Hm & Hb).
  unfold binary_round_aux. rewrite Hr. pose proof (round_within r y Hy) as Hz.
  cbv zeta in Hz. set (z := round_nearest_even _ _) in *. destruct Hz as (Hz & Herr & Hexact).
  assert (∃ q, z = Zpos q) as [q Hq] by (exists (Z.to_pos z); lia). rewrite Hq in *.
  destruct (round_kept sx q e') as (m & e1 & Hround & Hm1 & Hv); [lia..|].
  exists m, e1. split; [exact Hround|]. split; [done|]. rewrite Hv, <-Heq.
  pose proof (bpow_pos e') as He1.
  replace (IZR (Zpos q) * bpow e' - y * bpow e') with ((IZR (Zpos q) - y) * bpow e') by ring.
  rewrite Rabs_mult, (Rabs_right (bpow e')), <-Rmult_assoc by lra.
  apply Rmult_le_compat_r; [lra|]. apply (rounding_error (shr_m r)); [apply Hy..| |done].
  destruct Hb as [[? ?]|Hb]; [left; auto|by right].
Qed.

(** * Operations *)

(** A positive number and its value. *)
Definition represents (f : spec_float) (x : R) : Prop :=
  ∃ m e, f = S754_finite false m e ∧ (Zpos m < 2 ^ 53)%Z ∧ x = IZR (Zpos m) * bpow e.

(** The result of an operation whose exact result is [x]. *)
Definition rounds (f : spec_float) (x : R) : Prop :=
  ∃ y, represents f y ∧ Rabs (y - x) <= eps * x.

Lemma represents_pos f x : represents f x → 0 < x.
Proof.
  intros (m & e & _ & _ & ->). apply Rmult_lt_0_compat; [by apply IZR_lt|apply bpow_pos].
Qed.

Lemma within_exact p : within (shr_record_of_loc (Zpos p) loc_Exact) (IZR (Zpos p)).
Proof. split; [done|]. split; [simpl; lra|done]. Qed.

Lemma round_rounds p e l x y :
  within (shr_record_of_loc (Zpos p) l) x → l = loc_Exact ∨ (2 ^ 52 <= Zpos p)%Z →
  y = x * bpow e → middle y → rounds (binary_round_aux 53 1024 false (Zpos p) e l) y.
Proof.
  intros Hx Hl -> Hm. destruct (round_aux false p e l x Hx Hl Hm) as (m & e' & -> & Hm53 & Herr).
  eexists. split; [by exists m, e'|done].
Qed.

Lemma mul_rounds f g x y :
  represents f x → represents g y → middle (x * y) → rounds (SFmul 53 1024 f g) (x * y).
Proof.
  intros (mx & ex & -> & _ & ->) (my & ey & -> & _ & ->) Hm. simpl.
  apply (round_rounds _ _ _ _ _ (within_exact _)); [by left| |done].
  rewrite Pos2Z.inj_mul, mult_IZR, bpow_add. ring.
Qed.

(** ** Aligning *)

Lemma iter_xO m d : Zpos (Pos.iter xO m d) = (Zpos m * 2 ^ Zpos d)%Z.
Proof.
  induction d as [|d IH] using Pos.peano_ind; [simpl; lia|].
  rewrite Pos.iter_succ, Pos2Z.inj_xO, IH, Pos2Z.inj_succ, Z.pow_succ_r by lia. ring.
Qed.

Lemma shl_align_down m e e' :
  (e' <= e)%Z → ∃ m', shl_align m e e' = (m', e') ∧ Zpos m' = (Zpos m * 2 ^ (e - e'))%Z.
Proof.
  intros He. unfold shl_align. destruct (e' - e)%Z as [|d|d] eqn:Hd; [|lia|].
  - exists m. replace e with e' by lia. split; [done|]. rewrite Z.sub_diag. lia.
  - eexists. split; [done|]. rewrite iter_xO. f_equal. f_equal. lia.
Qed.

Lemma align_value m e e' m' :
  (e' <= e)%Z → Zpos m' = (Zpos m * 2 ^ (e - e'))%Z →
  IZR (Zpos m') * bpow e' = IZR (Zpos m) * bpow e.
Proof.
  intros He ->. rewrite mult_IZR, <-bpow_Z, Rmult_assoc, <-bpow_add by lia.
  do 2 f_equal. lia.
Qed.

Lemma binary_round_spec sx p e :
  middle (IZR (Zpos p) * bpow e) →
  ∃ m e', binary_round 53 1024 sx p e = S754_finite sx m e' ∧ (Zpos m < 2 ^ 53)%Z ∧
    Rabs (IZR (Zpos m) * bpow e' - IZR (Zpos p) * bpow e) <= eps * (IZR (Zpos p) * bpow e).
Proof.
  intros Hm. unfold binary_round. set (e1 := fexp _ _ _).
  destruct (Z.le_ge_cases e1 e) as [He|He].
  - destruct (shl_align_down p e e1 He) as (m' & -> & Hm').
    rewrite <-(align_value p e e1 m') in * by done.
    apply round_aux; [apply within_exact|by left|done].
  - assert (shl_align p e e1 = (p, e)) as ->.
    { unfold shl_align. by destruct (e1 - e)%Z eqn:?; [|done|lia]. }
    apply round_aux; [apply within_exact|by left|done].
Qed.

Lemma normalize_rounds p e x s :
  x = IZR (Zpos p) * bpow e → middle x → rounds (binary_normalize 53 1024 (Zpos p) e s) x.
Proof.
  intros -> Hm. destruct (binary_round_spec false p e Hm) as (m & e' & Heq & Hm53 & Herr).
  simpl. rewrite Heq. eexists. split; [by exists m, e'|done].
Qed.

(** Two numbers with a common exponent. *)
Lemma represents_align f g x y :
  represents f x → represents g y →
  ∃ mx ex my ey a b, f = S754_finite false mx ex ∧ g = S754_finite false my ey ∧
    (Zpos mx < 2 ^ 53)%Z ∧ (Zpos my < 2 ^ 53)%Z ∧
    (shl_align mx ex (Z.min ex ey)).1 = a ∧ (shl_align my ey (Z.min ex ey)).1 = b ∧
    x = IZR (Zpos mx) * bpow ex ∧ y = IZR (Zpos my) * bpow ey ∧
    x = IZR (Zpos a) * bpow (Z.min ex ey) ∧ y = IZR (Zpos b) * bpow (Z.min ex ey).
Proof.
  intros (mx & ex & -> & Hmx & Hx) (my & ey & -> & Hmy & Hy).
  destruct (shl_align_down mx ex (Z.min ex ey)) as (a & Ha & Hav); [lia|].
  destruct (shl_align_down my ey (Z.min ex ey)) as (b & Hb & Hbv); [lia|].
  exists mx, ex, my, ey, a, b. rewrite Ha, Hb.
  rewrite (align_value mx ex _ a), (align_value my ey _ b) by (done || lia). done.
Qed.

Lemma add_rounds f g x y :
  represents f x → represents g y → middle (x + y) → rounds (SFadd 53 1024 f g) (x + y).
Proof.
  intros Hf Hg Hm.
  destruct (represents_align f g x y Hf Hg)
    as (mx & ex & my & ey & a & b & -> & -> & _ & _ & Ha & Hb & _ & _ & Hx & Hy).
  cbn [SFadd cond_Zopp]. change fst with (λ p : positive * Z, p.1). cbv beta. rewrite Ha, Hb.
  apply normalize_rounds; [|done]. rewrite Hx, Hy, Pos2Z.inj_add, plus_IZR. ring.
Qed.

(** The difference has the right sign. *)
Lemma sub_spec f g x y :
  represents f x → represents g y →
  (x > y → middle (x - y) → rounds (SFsub 53 1024 f g) (x - y)) ∧
  (x = y → SFsub 53 1024 f g = S754_zero false) ∧
  (x < y → middle (y - x) → ∃ m e, SFsub 53 1024 f g = S754_finite true m e).
Proof.
  intros Hf Hg.
  destruct (represents_align f g x y Hf Hg)
    as (mx & ex & my & ey & a & b & -> & -> & _ & _ & Ha & Hb & _ & _ & Hx & Hy).
  cbn [SFsub cond_Zopp]. change fst with (λ p : positive * Z, p.1). cbv beta. rewrite Ha, Hb.
  pose proof (bpow_pos (Z.min ex ey)) as Hp. set (e := Z.min ex ey) in *.
  assert (Hxy : x - y = IZR (Zpos a - Zpos b) * bpow e) by (rewrite minus_IZR; lra).
  destruct (Zpos a - Zpos b)%Z as [|c|c] eqn:Hc.
  - split; [|split; [done|]]; rewrite Rmult_0_l in Hxy; lra.
  - assert (0 < IZR (Zpos c) * bpow e) by (apply Rmult_lt_0_compat; [by apply IZR_lt|done]).
    split; [|split; lra]. intros _ Hm. by apply normalize_rounds.
  - assert (0 < IZR (Zpos c) * bpow e) by (apply Rmult_lt_0_compat; [by apply IZR_lt|done]).
    rewrite <-Pos2Z.opp_pos, opp_IZR in Hxy. split; [lra|]. split; [lra|]. intros _ Hm.
    assert (y - x = IZR (Zpos c) * bpow e) as Heq by lra. rewrite Heq in Hm.
    destruct (binary_round_spec true c e Hm) as (m & e' & Hr & _). exists m, e'. exact Hr.
Qed.

(** A difference is not too small: the numbers have 53 bits. *)
Lemma sub_lower f g x y :
  represents f x → represents g y → bpow (-100) <= x → bpow (-100) <= y → x > y →
  bpow (-160) <= x - y.
Proof.
  intros Hf Hg Hxr Hyr Hxy.
  destruct (represents_align f g x y Hf Hg)
    as (mx & ex & my & ey & a & b & _ & _ & Hmx & Hmy & _ & _ & Hx1 & Hy1 & Hx & Hy).
  assert (Hexp : ∀ m e, (Zpos m < 2 ^ 53)%Z → bpow (-100) <= IZR (Zpos m) * bpow e → (-153 < e)%Z).
  { intros m e Hm He. cut (-100 < 53 + e)%Z; [lia|]. apply bpow_lt_inv.
    rewrite bpow_add, (bpow_Z 53) by lia. eapply Rle_lt_trans; [exact He|].
    apply Rmult_lt_compat_r; [apply bpow_pos|]. by apply IZR_lt. }
  assert (-153 < ex)%Z by (apply (Hexp mx); [done|lra]).
  assert (-153 < ey)%Z by (apply (Hexp my); [done|lra]).
  set (e := Z.min ex ey) in *. pose proof (bpow_pos e) as Hp.
  assert (Hlt : (Zpos b < Zpos a)%Z) by (apply lt_IZR, (Rmult_lt_reg_r (bpow e)); lra).
  assert (1 <= IZR (Zpos a - Zpos b)) as H1 by (apply IZR_le; lia).
  rewrite minus_IZR in H1.
  assert (bpow (-160) <= bpow e) by (apply bpow_le; lia).
  assert (1 * bpow e <= (IZR (Zpos a) - IZR (Zpos b)) * bpow e) by (apply Rmult_le_compat_r; lra).
  lra.
Qed.

(** ** Division *)

Lemma new_location_exact n k : new_location n k = loc_Exact ↔ k = 0%Z.
Proof.
  unfold new_location, new_location_even, new_location_odd.
  destruct (Z.even n), (Z.eqb_spec k 0); by split.
Qed.

Lemma quotient_within q r d l :
  (0 <= r < Zpos d)%Z → (l = loc_Exact ↔ r = 0%Z) →
  within (shr_record_of_loc (Zpos q) l) (IZR (Zpos d * Zpos q + r) / IZR (Zpos d)).
Proof.
  intros [Hr1 Hr2] Hl. pose proof (IZR_lt _ _ Hr2) as Hrd. pose proof (IZR_le _ _ Hr1) as Hr0.
  assert (0 < IZR (Zpos d)) by by apply IZR_lt.
  assert (Heq : IZR (Zpos d * Zpos q + r) / IZR (Zpos d) = IZR (Zpos q) + IZR r / IZR (Zpos d)).
  { rewrite plus_IZR, mult_IZR. field. lra. }
  assert (0 <= IZR r / IZR (Zpos d) < 1) as Hfrac.
  { split; [apply Rmult_le_pos; [done|left; by apply Rinv_0_lt_compat]|].
    apply (Rmult_lt_reg_r (IZR (Zpos d))); [done|].
    replace (IZR r / IZR (Zpos d) * IZR (Zpos d)) with (IZR r) by (field; lra). lra. }
  assert (shr_m (shr_record_of_loc (Zpos q) l) = Zpos q) as Hm by by destruct l as [|[]].
  split; [by rewrite Hm|]. rewrite Hm, Heq. split; [lra|]. intros H1 H2.
  assert (l = loc_Exact) as ->%Hl by by destruct l as [|[]]. unfold Rdiv. lra.
Qed.

(** The quotient of the mantissas, the first of which is shifted until it has 53 bits more. *)
Lemma quotient_spec m1 m2 s :
  (0 <= s)%Z → (53 - Zpos (digits2_pos m1) + Zpos (digits2_pos m2) <= s)%Z →
  ∃ q r,
    Z.div_eucl match s with Z0 => Zpos m1 | Zpos _ => Z.shiftl (Zpos m1) s | Zneg _ => 0 end
      (Zpos m2) = (Zpos q, r) ∧
    (Zpos m1 * 2 ^ s = Zpos m2 * Zpos q + r)%Z ∧ (0 <= r < Zpos m2)%Z ∧ (2 ^ 52 <= Zpos q)%Z.
Proof.
  intros Hs Hd. destruct (digits_bounds m1) as [Hl1 _], (digits_bounds m2) as [_ Hu2].
  set (d1 := Zpos (digits2_pos m1)) in *. set (d2 := Zpos (digits2_pos m2)) in *.
  assert (1 <= d1 ∧ 1 <= d2)%Z as [Hd1 Hd2] by lia.
  assert (Hshift : match s with
                   | Z0 => Zpos m1 | Zpos _ => Z.shiftl (Zpos m1) s | Zneg _ => 0%Z
                   end = (Zpos m1 * 2 ^ s)%Z).
  { destruct s; [lia| |lia]. by rewrite Z.shiftl_mul_pow2. }
  rewrite Hshift. clear Hshift. set (M := (Zpos m1 * 2 ^ s)%Z).
  assert (2 ^ 52 * Zpos m2 <= M)%Z as HM.
  { assert (2 ^ (52 + d2) <= 2 ^ (d1 - 1 + s))%Z as Hp by (apply Z.pow_le_mono_r; lia).
    rewrite !Z.pow_add_r in Hp by lia.
    assert (2 ^ (d1 - 1) * 2 ^ s <= M)%Z by (apply Z.mul_le_mono_nonneg_r; lia). lia. }
  pose proof (Z_div_mod M (Zpos m2)) as Hdm. destruct (Z.div_eucl M (Zpos m2)) as [q r].
  destruct Hdm as [HMq Hr]; [done|].
  assert (2 ^ 52 <= q)%Z as Hq by nia.
  exists (Z.to_pos q), r. rewrite Z2Pos.id by lia. done.
Qed.

Lemma div_rounds f g x y :
  represents f x → represents g y → middle (x / y) → rounds (SFdiv 53 1024 f g) (x / y).
Proof.
  intros Hf Hg Hm. pose proof (represents_pos _ _ Hf). pose proof (represents_pos _ _ Hg).
  destruct Hf as (m1 & e1 & -> & _ & Hx), Hg as (m2 & e2 & -> & _ & Hy). cbn [SFdiv xorb].
  unfold SFdiv_core_binary. cbn [Zdigits2].
  destruct (digits_value m1 e1) as [_ Hv1], (digits_value m2 e2) as [Hv2 _].
  rewrite <-Hx in Hv1. rewrite <-Hy in Hv2.
  set (d1 := Zpos (digits2_pos m1)) in *. set (d2 := Zpos (digits2_pos m2)) in *.
  assert (-900 < d1 + e1 - (d2 + e2 - 1))%Z as Hlow.
  { apply bpow_lt_inv. rewrite bpow_sub. eapply Rle_lt_trans; [apply Hm|].
    pose proof (bpow_pos (d2 + e2 - 1)).
    apply (Rmult_lt_reg_r (y * bpow (d2 + e2 - 1))); [by apply Rmult_lt_0_compat|].
    replace (x / y * (y * bpow (d2 + e2 - 1))) with (x * bpow (d2 + e2 - 1)) by (field; lra).
    replace (bpow (d1 + e1) / bpow (d2 + e2 - 1) * (y * bpow (d2 + e2 - 1)))
      with (bpow (d1 + e1) * y) by (field; lra).
    apply Rle_lt_trans with (x * y); [apply Rmult_le_compat_l; lra|].
    by apply Rmult_lt_compat_r. }
  set (e := Z.min _ _). assert (e = Z.min (d1 + e1 - (d2 + e2) - 53) (e1 - e2)) as He.
  { unfold e, fexp, emin. lia. }
  destruct (quotient_spec m1 m2 (e1 - e2 - e)) as (q & r & -> & HM & Hr & Hq); [lia..|].
  apply (round_rounds _ _ _ (IZR (Zpos m2 * Zpos q + r) / IZR (Zpos m2))); [|by right| |done].
  - apply quotient_within; [done|]. apply new_location_exact.
  - rewrite <-HM, Hx, Hy, mult_IZR, <-bpow_Z by lia. rewrite !bpow_sub.
    pose proof (bpow_pos e). pose proof (bpow_pos e2).
    assert (0 < IZR (Zpos m2)) by by apply IZR_lt. field. lra.
Qed.

(** ** Integers *)

Lemma integer_rounds z :
  (0 < z < 2 ^ 64)%Z → rounds (binary_normalize 53 1024 z 0 false) (IZR z).
Proof.
  intros [Hz1 Hz2]. destruct z as [|p|p]; [done| |done].
  apply normalize_rounds; [unfold bpow; simpl; lra|]. split.
  - apply Rle_trans with (bpow 0); [by apply bpow_le|]. apply IZR_le. lia.
  - apply Rle_trans with (bpow 64); [|by apply bpow_le]. rewrite bpow_Z by done.
    apply IZR_le. lia.
Qed.
