(* ===== verification/Pause.v ===== *)
(** How long a limited forwarder sleeps after a write: in spite of the rounding of its binary64
    arithmetic, the write and the pause take the time the bytes need at its rate, up to two
    nanoseconds. *)
From Stdlib Require Import Reals Lra SpecFloat.
From S2P Require Import Prelude Go Errors Sys Kube FwdSys Fwd Binary64.
#[local] Open Scope Z_scope.
#[local] Open Scope R_scope.

(** * Relative errors *)

(** [y] is [x] up to [k] rounding errors. *)
Definition near (k y x : R) : Prop := x * (1 - k * eps) <= y <= x * (1 + k * eps).

Lemma eps_small : 0 < eps <= / 1000000000000000.
Proof.
  split; [apply bpow_pos|]. rewrite eps_value. apply Rinv_le_contravar; [lra|].
  apply IZR_le. lia.
Qed.

Lemma rounds_near f x :
  rounds f x → 0 < x → ∃ y, represents f y ∧ near 1 y x.
Proof.
  intros (y & Hy & Herr) Hx. exists y. split; [done|]. unfold near.
  unfold Rabs in Herr. destruct (Rcase_abs (y - x)); lra.
Qed.

Lemma near_refl k y : 0 < y → 0 <= k → near k y y.
Proof.
  pose proof eps_small. unfold near. intros Hy Hk. assert (0 <= y * (k * eps)); [|lra].
  apply Rmult_le_pos; [lra|]. apply Rmult_le_pos; lra.
Qed.

Lemma eps_product p q : 0 <= p <= 20 * eps → 0 <= q <= 20 * eps → 0 <= p * q <= eps / 1000.
Proof.
  pose proof eps_small as [He1 He2]. intros Hp Hq. split; [apply Rmult_le_pos; lra|].
  apply Rle_trans with (20 * eps * (20 * eps)); [apply Rmult_le_compat; lra|].
  apply Rle_trans with (20 * eps * (20 * / 1000000000000000));
    [apply Rmult_le_compat_l; lra|lra].
Qed.

Section near.
Context (k l : R) (Hk : 0 <= k <= 19) (Hl : 0 <= l <= 19).

(** Products of two errors do not matter. *)
Lemma near_bound x a b :
  0 < x → (1 - k * eps) * (1 - l * eps) * x <= a → b <= (1 + k * eps) * (1 + l * eps) * x →
  x * (1 - (k + l + 1) * eps) <= a ∧ b <= x * (1 + (k + l + 1) * eps).
Proof.
  pose proof eps_small. intros Hx Ha Hb.
  assert (0 <= k * eps <= 20 * eps) as H1 by (split; nra).
  assert (0 <= l * eps <= 20 * eps) as H2 by (split; nra).
  pose proof (eps_product _ _ H1 H2) as H3.
  set (p := k * eps) in *. set (q := l * eps) in *.
  replace ((k + l + 1) * eps) with (p + q + eps) by (unfold p, q; ring).
  assert (0 <= x * (p * q) <= x * (eps / 1000)) by nra. split; nra.
Qed.

Lemma near_trans z y x : 0 < x → near k z y → near l y x → near (k + l + 1) z x.
Proof.
  pose proof eps_small. unfold near. intros Hx [Hz1 Hz2] [Hy1 Hy2].
  assert (0 < 1 - k * eps) by nra. assert (0 < 1 + k * eps) by nra.
  apply near_bound; [done|..].
  - apply Rle_trans with (y * (1 - k * eps)); [|done].
    replace ((1 - k * eps) * (1 - l * eps) * x) with (x * (1 - l * eps) * (1 - k * eps)) by ring.
    apply Rmult_le_compat_r; lra.
  - apply Rle_trans with (y * (1 + k * eps)); [done|].
    replace ((1 + k * eps) * (1 + l * eps) * x) with (x * (1 + l * eps) * (1 + k * eps)) by ring.
    apply Rmult_le_compat_r; lra.
Qed.

Lemma near_mul a b x y : 0 < x → 0 < y → near k a x → near l b y → near (k + l + 1) (a * b) (x * y).
Proof.
  pose proof eps_small. unfold near. intros Hx Hy Ha Hb.
  assert (0 < x * y) by nra. assert (0 < 1 - k * eps) by nra. assert (0 < 1 - l * eps) by nra.
  apply near_bound; [done|..].
  - replace ((1 - k * eps) * (1 - l * eps) * (x * y))
      with (x * (1 - k * eps) * (y * (1 - l * eps))) by ring.
    apply Rmult_le_compat; nra.
  - replace ((1 + k * eps) * (1 + l * eps) * (x * y))
      with (x * (1 + k * eps) * (y * (1 + l * eps))) by ring.
    apply Rmult_le_compat; nra.
Qed.

Lemma near_div a b x y : 0 < x → 0 < y → near k a x → near l b y → near (k + l + 1) (a / b) (x / y).
Proof.
  pose proof eps_small. unfold near. intros Hx Hy [Ha1 Ha2] [Hb1 Hb2].
  assert (0 <= k * eps <= 20 * eps) as Hp by (split; nra).
  assert (0 <= l * eps <= 20 * eps) as Hq by (split; nra).
  assert (0 <= eps <= 20 * eps) as He by lra.
  pose proof (eps_product _ _ Hp Hq) as Hpq. pose proof (eps_product _ _ Hq Hq) as Hqq.
  pose proof (eps_product _ _ Hq He) as Hqe.
  replace ((k + l + 1) * eps) with (k * eps + l * eps + eps) by ring.
  set (p := k * eps) in *. set (q := l * eps) in *.
  assert (0 < y * (1 - q)) by (apply Rmult_lt_0_compat; lra). assert (0 < b) by lra.
  assert (0 < x / y) as Hs by (by apply Rdiv_lt_0_compat).
  split; apply (Rmult_le_reg_r b); [done| |done|];
    (replace (a / b * b) with a by (field; lra)).
  - apply Rle_trans with (x / y * (1 - (p + q + eps)) * (y * (1 + q))).
    + apply Rmult_le_compat_l; [apply Rmult_le_pos; lra|done].
    + replace (x / y * (1 - (p + q + eps)) * (y * (1 + q)))
        with (x * (1 - p - (eps + p * q + q * q + q * eps))) by (field; lra).
      eapply Rle_trans; [|exact Ha1]. apply Rmult_le_compat_l; lra.
  - apply Rle_trans with (x / y * (1 + (p + q + eps)) * (y * (1 - q))).
    + replace (x / y * (1 + (p + q + eps)) * (y * (1 - q)))
        with (x * (1 + p + (eps - p * q - q * q - q * eps))) by (field; lra).
      eapply Rle_trans; [exact Ha2|]. apply Rmult_le_compat_l; lra.
    + apply Rmult_le_compat_l; [apply Rmult_le_pos; lra|done].
Qed.

Lemma near_add m a b x y :
  0 < x → 0 < y → k <= m → l <= m → near k a x → near l b y → near m (a + b) (x + y).
Proof.
  pose proof eps_small. unfold near. intros Hx Hy Hkm Hlm Ha Hb.
  assert (x * (k * eps) <= x * (m * eps)) by (apply Rmult_le_compat_l; nra).
  assert (y * (l * eps) <= y * (m * eps)) by (apply Rmult_le_compat_l; nra). nra.
Qed.
End near.

(** * The computation *)

(** A positive number that is [x] up to [k] rounding errors. *)
Definition approx (k : R) (f : spec_float) (x : R) : Prop := ∃ y, represents f y ∧ near k y x.

(** Far from the ends of the range. *)
Definition moderate (x : R) : Prop := bpow (-200) <= x <= bpow 200.

Lemma moderate_pos x : moderate x → 0 < x.
Proof. intros [Hx _]. pose proof (bpow_pos (-200)). lra. Qed.

Lemma near_twice k y x : 0 <= k <= 20 → 0 < x → near k y x → x / 2 <= y <= 2 * x.
Proof.
  pose proof eps_small. unfold near. intros Hk Hx [Hy1 Hy2].
  assert (0 <= k * eps <= / 2) by (split; nra).
  split; [apply Rle_trans with (x * (1 - k * eps))|apply Rle_trans with (x * (1 + k * eps))];
    try done; nra.
Qed.

Lemma near_middle k y x : 0 <= k <= 20 → moderate x → near k y x → middle y.
Proof.
  intros Hk Hm Hy. destruct (near_twice k y x) as [Hy1 Hy2]; [done|by apply moderate_pos|done|].
  destruct Hm as [Hm1 Hm2]. split.
  - apply Rle_trans with (bpow (-200 - 1)); [by apply bpow_le|]. rewrite bpow_sub, bpow_1. lra.
  - apply Rle_trans with (bpow (200 + 1)); [|by apply bpow_le]. rewrite bpow_add, bpow_1. lra.
Qed.

(** The error of an operation, on top of those of its arguments. *)
Lemma approx_rounds k f y x :
  0 <= k <= 18 → moderate x → near k y x → (middle y → rounds f y) → approx (k + 2) f x.
Proof.
  intros Hk Hm Hy Hf. pose proof (moderate_pos _ Hm) as Hx.
  destruct (near_twice k y x) as [Hy1 _]; [lra|done..|].
  destruct (rounds_near f y) as (z & Hz & Hn); [|lra|].
  { apply Hf. apply (near_middle k y x); [lra|done..]. }
  exists z. split; [done|]. replace (k + 2) with (1 + k + 1) by ring.
  apply (near_trans 1 k) with y; try done; lra.
Qed.

Lemma approx_int z : (0 < z < 2 ^ 64)%Z → approx 1 (f64 z) (IZR z).
Proof.
  intros Hz. destruct (rounds_near _ _ (integer_rounds z Hz)) as (y & Hy & Hn).
  - apply IZR_lt. lia.
  - by exists y.
Qed.

Lemma approx_mul k l f g x y :
  0 <= k → 0 <= l → k + l <= 17 → 0 < x → 0 < y → moderate (x * y) →
  approx k f x → approx l g y → approx (k + l + 3) (fmul f g) (x * y).
Proof.
  intros Hk Hl Hkl Hx Hy Hm (a & Ha & Hna) (b & Hb & Hnb).
  replace (k + l + 3) with (k + l + 1 + 2) by ring.
  apply (approx_rounds _ _ (a * b)); [lra|done|apply near_mul; try done; lra|].
  by apply mul_rounds.
Qed.

Lemma approx_div k l f g x y :
  0 <= k → 0 <= l → k + l <= 17 → 0 < x → 0 < y → moderate (x / y) →
  approx k f x → approx l g y → approx (k + l + 3) (fdiv f g) (x / y).
Proof.
  intros Hk Hl Hkl Hx Hy Hm (a & Ha & Hna) (b & Hb & Hnb).
  replace (k + l + 3) with (k + l + 1 + 2) by ring.
  apply (approx_rounds _ _ (a / b)); [lra|done|apply near_div; try done; lra|].
  by apply div_rounds.
Qed.

Lemma approx_add k l m f g x y :
  0 <= k <= m → 0 <= l <= m → m <= 18 → 0 < x → 0 < y → moderate (x + y) →
  approx k f x → approx l g y → approx (m + 2) (fadd f g) (x + y).
Proof.
  intros Hk Hl Hmk Hx Hy Hm (a & Ha & Hna) (b & Hb & Hnb).
  apply (approx_rounds _ _ (a + b)); [lra|done| |by apply add_rounds].
  apply (near_add k l); try done; lra.
Qed.

Lemma near_weaken k l y x : 0 < x → k <= l → near k y x → near l y x.
Proof.
  pose proof eps_small. unfold near. intros Hx Hkl.
  assert (x * (k * eps) <= x * (l * eps)) by (apply Rmult_le_compat_l; nra). lra.
Qed.

Lemma approx_weaken k l f x : 0 < x → k <= l → approx k f x → approx l f x.
Proof. intros Hx Hkl (y & Hy & Hn). exists y. split; [done|]. by apply (near_weaken k). Qed.

(** Quotients of integers are moderate. *)
Lemma moderate_ratio a b : (0 < a < 2 ^ 100)%Z → (0 < b < 2 ^ 100)%Z → moderate (IZR a / IZR b).
Proof.
  intros [Ha1 Ha2] [Hb1 Hb2].
  assert (0 < IZR b) as Hb by by apply IZR_lt. assert (1 <= IZR b) by (apply IZR_le; lia).
  assert (1 <= IZR a) by (apply IZR_le; lia).
  apply IZR_lt in Ha2, Hb2. rewrite <-bpow_Z in Ha2, Hb2 by lia.
  pose proof (bpow_lt 100 200 eq_refl).
  split; apply (Rmult_le_reg_r (IZR b)); try done; unfold Rdiv;
    rewrite ?Rmult_assoc, Rinv_l, Rmult_1_r by lra.
  - apply Rle_trans with (bpow (-200) * bpow 100).
    + apply Rmult_le_compat_l; [left; apply bpow_pos|lra].
    + rewrite <-bpow_add. apply Rle_trans with (bpow 0); [by apply bpow_le|].
      rewrite bpow_Z by lia. simpl. lra.
  - apply Rle_trans with (bpow 200 * 1); [lra|]. apply Rmult_le_compat_l; [|done].
    left. apply bpow_pos.
Qed.

(** [Duration.Seconds] of a positive duration. *)
Lemma Seconds_approx ns :
  (0 < ns < 2 ^ 63)%Z → approx 7 (Seconds ns) (IZR ns / IZR 1000000000).
Proof.
  intros Hns. unfold Seconds. rewrite Z.quot_div_nonneg, Z.rem_mod_nonneg by lia.
  pose proof (Z.div_mod ns 1000000000) as Hdm. pose proof (Z.mod_pos_bound ns 1000000000) as Hr.
  pose proof (Z.div_pos ns 1000000000) as Hq.
  set (q := (ns / 1000000000)%Z) in *. set (r := (ns mod 1000000000)%Z) in *.
  assert (IZR ns / IZR 1000000000 = IZR q + IZR r / IZR 1000000000) as Heq.
  { rewrite Hdm, plus_IZR, mult_IZR by lia. field. }
  pose proof (moderate_ratio ns 1000000000) as Hm.
  assert (Hfrac : (0 < r)%Z →
    approx 5 (fdiv (f64 r) (f64 1000000000)) (IZR r / IZR 1000000000)).
  { intros Hr0. replace 5 with (1 + 1 + 3) by ring.
    apply approx_div; try lra; try (apply approx_int; lia);
      [apply IZR_lt; lia|apply moderate_ratio; lia]. }
  destruct (Z.eq_dec r 0%Z) as [Hr0|Hr0].
  - rewrite Hr0 in *. assert (0 < q)%Z as Hq0 by lia.
    rewrite Heq. replace (IZR q + IZR 0 / IZR 1000000000) with (IZR q) by (simpl; field).
    destruct (approx_int q) as (y & Hy & Hn); [lia|]. exists y.
    destruct Hy as (m & e & Hf & Hy). rewrite Hf.
    split; [by exists m, e|]. apply (near_weaken 1); [apply IZR_lt; lia|lra|done].
  - destruct (Z.eq_dec q 0%Z) as [Hq0|Hq0].
    + rewrite Hq0 in *. rewrite Heq, Rplus_0_l.
      destruct (Hfrac ltac:(lia)) as (y & (m & e & Hf & Hy) & Hn). exists y.
      rewrite Hf. split; [by exists m, e|]. apply (near_weaken 5); [|lra|done].
      apply Rdiv_lt_0_compat; apply IZR_lt; lia.
    + rewrite Heq. replace 7 with (5 + 2) by ring.
      apply (approx_add 1 5); try lra; try (apply IZR_lt; lia).
      * apply Rdiv_lt_0_compat; apply IZR_lt; lia.
      * rewrite <-Heq. apply Hm; lia.
      * apply approx_int. lia.
      * apply Hfrac. lia.
Qed.

(** The seconds that [nw] bytes take at [rate] Mbit/s. *)
Lemma ideal_approx nw rate :
  (0 < nw < 2 ^ 63)%Z → (0 < rate < 2 ^ 63)%Z →
  approx 9 (fdiv (f64 nw) (fmul (f64 rate) (f64 125000))) (IZR nw / IZR (rate * 125000)).
Proof.
  intros Hn Hr. replace 9 with (1 + (1 + 1 + 3) + 3) by ring.
  apply approx_div; try lra; try (apply IZR_lt; lia).
  - apply moderate_ratio; lia.
  - apply approx_int. lia.
  - rewrite mult_IZR. apply approx_mul; try lra; try (apply IZR_lt; lia); try (apply approx_int; lia).
    rewrite <-mult_IZR. replace (IZR (rate * 125000)) with (IZR (rate * 125000) / IZR 1) by field.
    apply moderate_ratio; lia.
Qed.

(** ** The pause *)

Lemma ftrunc_floor f y :
  represents f y → (0 <= ftrunc f)%Z ∧ IZR (ftrunc f) <= y < IZR (ftrunc f) + 1.
Proof.
  intros (m & e & -> & _ & ->). unfold ftrunc. destruct (Z.leb_spec 0 e) as [He|He].
  - rewrite mult_IZR, <-bpow_Z by done. split; [apply Z.mul_nonneg_nonneg; lia|lra].
  - pose proof (Z.pow_pos_nonneg 2 (- e)) as Hp.
    pose proof (Z.div_mod (Zpos m) (2 ^ (- e))) as Hdm.
    pose proof (Z.mod_pos_bound (Zpos m) (2 ^ (- e))) as Hr.
    pose proof (bpow_pos (- e)) as Hb.
    assert (bpow e * bpow (- e) = 1) as Hone.
    { rewrite <-bpow_add, Z.add_opp_diag_r. by rewrite bpow_Z. }
    split; [apply Z.div_pos; lia|].
    assert (IZR (Zpos m) * bpow e * bpow (- e) = IZR (Zpos m)) as Hm by (rewrite Rmult_assoc, Hone; ring).
    split; [apply (Rmult_le_reg_r (bpow (- e)))|apply (Rmult_lt_reg_r (bpow (- e)))]; try done;
      rewrite Hm, bpow_Z by lia; rewrite <-?plus_IZR, <-mult_IZR;
      [apply IZR_le|apply IZR_lt]; lia.
Qed.

Definition billion : R := IZR 1000000000.

(** The pause for a difference that is [t] seconds up to one rounding error. *)
Lemma pause_near T t :
  approx 1 T t → moderate (t * billion) →
  let d := ftrunc (fmul T (f64 1000000000)) in
  (0 <= d)%Z ∧ IZR d <= t * billion * (1 + 5 * eps) ∧ t * billion * (1 - 5 * eps) < IZR d + 1.
Proof.
  intros HT Hm. destruct (approx_mul 1 1 T (f64 1000000000) t billion) as (y & Hy & Hn);
    try done; try lra; try (unfold billion; lra).
  - pose proof (moderate_pos _ Hm) as Hp. unfold billion in Hp. lra.
  - by apply approx_int.
  - destruct (ftrunc_floor _ _ Hy) as [Hd1 [Hd2 Hd3]]. split; [done|].
    unfold near in Hn. replace (1 + 1 + 3) with 5 in Hn by ring. lra.
Qed.

(** All rounding errors together. *)
Lemma pause_error A B a b d :
  near 9 A a → near 7 B b ∨ B = 0 ∧ b = 0 → 0 < a <= 300 → 0 <= b → B < A →
  IZR d <= (A - B) * billion * (1 + 5 * eps) → (A - B) * billion * (1 - 5 * eps) < IZR d + 1 →
  (a - b) * billion < IZR d + 2 ∧ IZR d < (a - b) * billion + 1.
Proof.
  unfold near, billion. intros [HA1 HA2] HB Ha Hb HBA Hd1 Hd2. pose proof eps_small.
  assert (HA : a - / 100000000000 <= A <= a + / 100000000000) by (split; nra).
  assert (HBb : b - / 100000000000 <= B <= b + / 100000000000).
  { destruct HB as [[HB1 HB2]|[-> ->]]; [|lra].
    assert (b <= 400) by nra. split; nra. }
  assert (0 <= (A - B) * eps <= 1000 * eps) as Herr.
  { split; [apply Rmult_le_pos; lra|]. apply Rmult_le_compat_r; lra. }
  lra.
Qed.

(** When there is no pause, the write took long enough. *)
Lemma no_pause_error A B a b :
  near 9 A a → near 7 B b → 0 < a <= 300 → 0 < b → A <= B → (a - b) * billion < 1.
Proof.
  unfold near, billion. intros [HA1 HA2] [HB1 HB2] Ha Hb HAB. pose proof eps_small.
  destruct (Rle_or_lt a b); [lra|].
  assert (HA : a - / 100000000000 <= A) by nra.
  assert (HBb : B <= b + / 100000000000) by nra. lra.
Qed.

(** The ideal seconds, as nanoseconds at the rate. *)
Lemma ideal_scaled nw rate :
  (0 < rate)%Z → IZR nw / IZR (rate * 125000) * billion * IZR rate = IZR (nw * 8000).
Proof.
  intros Hr%IZR_lt. unfold billion. rewrite !mult_IZR. field. lra.
Qed.

(** What a pause makes of the time of a write, in integers. *)
Definition paced (nw rate tw : Z) (pause : option Z) : Prop :=
  match pause with
  | Some d => (0 <= d)%Z ∧ (nw * 8000 < (tw + d + 2) * rate)%Z ∧
              ((tw + d) * rate < nw * 8000 + rate)%Z
  | None => (nw * 8000 < (tw + 1) * rate)%Z
  end.

Lemma paced_some nw rate tw d :
  (0 < rate)%Z → (0 <= d)%Z →
  (IZR nw / IZR (rate * 125000) - IZR tw / billion) * billion < IZR d + 2 →
  IZR d < (IZR nw / IZR (rate * 125000) - IZR tw / billion) * billion + 1 →
  paced nw rate tw (Some d).
Proof.
  intros Hr Hd H1 H2. pose proof (ideal_scaled nw rate Hr) as Heq.
  apply IZR_lt in Hr as Hr'. set (a := IZR nw / IZR (rate * 125000)) in *.
  replace ((a - IZR tw / billion) * billion) with (a * billion - IZR tw) in *
    by (unfold billion; field).
  split; [done|]. split; apply lt_IZR; rewrite ?plus_IZR, <-Heq, ?mult_IZR, ?plus_IZR.
  - apply Rmult_lt_compat_r; lra.
  - replace (a * billion * IZR rate + IZR rate) with ((a * billion + 1) * IZR rate) by ring.
    apply Rmult_lt_compat_r; lra.
Qed.

Lemma paced_none nw rate tw :
  (0 < rate)%Z → (IZR nw / IZR (rate * 125000) - IZR tw / billion) * billion < 1 →
  paced nw rate tw None.
Proof.
  intros Hr H1. pose proof (ideal_scaled nw rate Hr) as Heq.
  apply IZR_lt in Hr as Hr'. set (a := IZR nw / IZR (rate * 125000)) in *.
  replace ((a - IZR tw / billion) * billion) with (a * billion - IZR tw) in *
    by (unfold billion; field).
  apply lt_IZR. rewrite <-Heq, mult_IZR, plus_IZR. apply Rmult_lt_compat_r; lra.
Qed.

(** Nothing was written. *)
Lemma timeToSleep_nothing rate tw :
  (0 < rate < 2 ^ 63)%Z → (0 <= tw < 2 ^ 63)%Z → timeToSleep 0 rate tw = None.
Proof.
  intros Hr Ht. unfold timeToSleep.
  destruct (approx_mul 1 1 (f64 rate) (f64 125000) (IZR rate) (IZR 125000))
    as (y & (m & e & -> & _) & _); try lra; try (apply IZR_lt; lia); try (apply approx_int; lia).
  { rewrite <-mult_IZR. replace (IZR (rate * 125000)) with (IZR (rate * 125000) / IZR 1) by field.
    apply moderate_ratio; lia. }
  destruct (Z.eq_dec tw 0%Z) as [->|Ht0]; [done|].
  destruct (Seconds_approx tw) as (z & (m' & e' & -> & _) & _); [lia|]. done.
Qed.

Lemma pause_paced A B T nw rate tw :
  (0 < rate)%Z → 0 < IZR nw / IZR (rate * 125000) <= 300 → (0 <= tw)%Z →
  near 9 A (IZR nw / IZR (rate * 125000)) → near 7 B (IZR tw / billion) ∨ B = 0 ∧ tw = 0%Z →
  bpow (-160) <= A - B → approx 1 T (A - B) →
  paced nw rate tw (Some (ftrunc (fmul T (f64 1000000000)))).
Proof.
  intros Hr Ha Htw HA HB Hlow HT. set (a := IZR nw / IZR (rate * 125000)) in *.
  pose proof (bpow_pos (-160)) as Hp. apply IZR_le in Htw as Htw'.
  assert (0 <= IZR tw / billion) as Hb.
  { apply Rmult_le_pos; [done|]. left. apply Rinv_0_lt_compat. unfold billion. lra. }
  assert (HB0 : 0 <= B).
  { destruct HB as [HB|[-> _]]; [|lra]. pose proof eps_small. destruct HB as [HB _].
    eapply Rle_trans; [|exact HB]. apply Rmult_le_pos; lra. }
  assert (Hm : moderate ((A - B) * billion)).
  { destruct (near_twice 9 A a) as [_ HA2]; [lra|lra|done|]. unfold billion. split.
    - apply Rle_trans with (bpow (-160)); [by apply bpow_le|]. lra.
    - apply Rle_trans with (bpow 100); [|by apply bpow_le]. rewrite bpow_Z by lia.
      apply Rle_trans with (IZR 600000000000); [lra|]. apply IZR_le. lia. }
  destruct (pause_near T (A - B) HT Hm) as (Hd0 & Hd1 & Hd2).
  destruct (pause_error A B a (IZR tw / billion) (ftrunc (fmul T (f64 1000000000))))
    as [H1 H2]; try done; try lra.
  - destruct HB as [HB|[-> ->]]; [by left|right; split; [done|unfold billion; lra]].
  - by apply paced_some.
Qed.

(** The bytes of one write take a moderate time. *)
Lemma ideal_range nw rate :
  (0 < nw <= Fwdr_BufferSize)%Z → (0 < rate < 2 ^ 63)%Z →
  bpow (-90) <= IZR nw / IZR (rate * 125000) <= 300.
Proof.
  unfold Fwdr_BufferSize. intros Hn Hr.
  assert (0 < IZR (rate * 125000)) by (apply IZR_lt; lia).
  set (a := IZR nw / IZR (rate * 125000)).
  assert (a * IZR (rate * 125000) = IZR nw) as Ha by (unfold a; field; lra).
  split; apply (Rmult_le_reg_r (IZR (rate * 125000))); try done; rewrite Ha.
  - apply Rle_trans with (bpow (-90) * bpow 90).
    + apply Rmult_le_compat_l; [left; apply bpow_pos|]. rewrite bpow_Z by lia. apply IZR_le. lia.
    + rewrite <-bpow_add, bpow_Z by lia. apply IZR_le. lia.
  - rewrite <-mult_IZR. apply IZR_le. lia.
Qed.

(** A duration in seconds, and its rounding, are moderate. *)
Lemma Seconds_range tw B :
  (0 < tw < 2 ^ 63)%Z → near 7 B (IZR tw / billion) →
  0 < IZR tw / billion ∧ bpow (-100) <= B <= bpow 100.
Proof.
  intros Ht HB.
  assert (1 <= IZR tw <= bpow 63) by (rewrite bpow_Z by lia; split; apply IZR_le; lia).
  assert (0 < IZR tw / billion) as Hb.
  { apply Rdiv_lt_0_compat; [lra|unfold billion; lra]. }
  destruct (near_twice 7 B (IZR tw / billion)) as [HB1 HB2]; [lra|done|done|].
  pose proof (bpow_le 63 100 ltac:(lia)). pose proof (bpow_sub 0 32) as H32.
  rewrite (bpow_Z 0), (bpow_Z 32) in H32 by lia. simpl in H32. unfold billion in *.
  split; [done|]. split; [|lra]. apply Rle_trans with (bpow (0 - 32)); [by apply bpow_le|]. lra.
Qed.

Lemma ideal_rounded_range nw rate A :
  (0 < nw <= Fwdr_BufferSize)%Z → (0 < rate < 2 ^ 63)%Z →
  near 9 A (IZR nw / IZR (rate * 125000)) → bpow (-100) <= A <= bpow 100.
Proof.
  intros Hn Hr HA. destruct (ideal_range nw rate) as [Ha1 Ha2]; [done..|].
  pose proof (bpow_pos (-90)).
  destruct (near_twice 9 A (IZR nw / IZR (rate * 125000))) as [HA1 HA2]; [lra|lra|done|].
  split.
  - apply Rle_trans with (bpow (-90 - 1)); [by apply bpow_le|]. rewrite bpow_sub, bpow_1. lra.
  - rewrite bpow_Z by lia. apply Rle_trans with (IZR 600); [lra|]. apply IZR_le. lia.
Qed.

Lemma difference_middle f g x y :
  represents f x → represents g y → bpow (-100) <= x <= bpow 100 → bpow (-100) <= y <= bpow 100 →
  x > y → bpow (-160) <= x - y ∧ middle (x - y).
Proof.
  intros Hf Hg [Hx1 Hx2] [Hy1 Hy2] Hxy. pose proof (sub_lower f g x y Hf Hg Hx1 Hy1 Hxy) as Hlow.
  split; [done|]. pose proof (bpow_pos (-100)). split.
  - eapply Rle_trans; [|exact Hlow]. by apply bpow_le.
  - apply Rle_trans with (bpow 100); [lra|]. by apply bpow_le.
Qed.

Lemma timeToSleep_paced nw rate tw :
  (0 <= nw <= Fwdr_BufferSize)%Z → (0 < rate < 2 ^ 63)%Z → (0 <= tw < 2 ^ 63)%Z →
  paced nw rate tw (timeToSleep nw rate tw).
Proof.
  intros Hn Hr Ht. destruct (Z.eq_dec nw 0%Z) as [->|Hn0].
  { rewrite timeToSleep_nothing by done. simpl. lia. }
  pose proof (ideal_range nw rate) as [Ha1 Ha2]; [lia..|].
  pose proof (bpow_pos (-90)) as Hp90.
  destruct (ideal_approx nw rate) as (A & HA & HnA); [unfold Fwdr_BufferSize in *; lia|lia|].
  pose proof (ideal_rounded_range nw rate A) as HAr. specialize (HAr ltac:(lia) Hr HnA).
  unfold timeToSleep. set (fA := fdiv _ _) in *.
  destruct (Z.eq_dec tw 0%Z) as [->|Ht0].
  - assert (fsub fA (Seconds 0) = fA ∧ SFltb (f64 0) fA = true) as [-> ->].
    { destruct HA as (m & e & -> & _). done. }
    apply (pause_paced A 0); try done; try lra; try lia.
    + by right.
    + rewrite Rminus_0_r. apply Rle_trans with (bpow (-100)); [by apply bpow_le|lra].
    + rewrite Rminus_0_r. exists A. split; [done|]. apply near_refl; [|lra].
      by eapply represents_pos.
  - destruct (Seconds_approx tw) as (B & HB & HnB); [lia|]. fold billion in HnB.
    destruct (Seconds_range tw B) as [Hb HBr]; [lia|done|].
    destruct (sub_spec fA (Seconds tw) A B HA HB) as (Hgt & Heq & Hlt).
    change (SFsub 53 1024) with fsub in *.
    assert (Hnone : A <= B → paced nw rate tw None).
    { intros HAB. apply paced_none; [lia|]. apply (no_pause_error A B); try done; lra. }
    destruct (Rtotal_order A B) as [HAB|[HAB|HAB]].
    + destruct (difference_middle (Seconds tw) fA B A) as [_ Hm]; [done..|].
      destruct (Hlt HAB Hm) as (m & e & ->). apply Hnone. lra.
    + rewrite (Heq HAB). apply Hnone. lra.
    + destruct (difference_middle fA (Seconds tw) A B) as [Hlow Hm]; [done..|].
      specialize (Hgt HAB Hm). pose proof (rounds_near _ _ Hgt) as Hap.
      assert (SFltb (f64 0) (fsub fA (Seconds tw)) = true) as ->.
      { destruct Hgt as (y & (m & e & -> & _) & _). done. }
      apply (pause_paced A B); try done; try lra; try lia; [by left|]. apply Hap. lra.
Qed.
