(* ===== verification/Rate.v ===== *)
(** The rate limit of a forwarder: what the pauses of [upstream] make of the bytes it sends, in
    any stretch of any run. *)
From S2P Require Import Prelude Go Errors Sys Kube FwdSys Fwd FwdCopy Pause.
#[local] Open Scope go_scope.

(** * The clock of a run *)

(** What the clock shows, a pause, and the bytes that a write took. *)
Inductive tick := Clock (t : Z) | Pause (d : Z) | Wrote (n : Z).

Definition tick_of (o : obs fwdE) : option tick :=
  match o with
  | @Obs _ X e x =>
      match e in fwdE Y return Y → option tick with
      | TNow => λ t, Some (Clock t)
      | TSleep d => λ _, Some (Pause d)
      | NWrite _ _ => λ r, Some (Wrote r.1)
      | _ => λ _, None
      end x
  end.

(** The earliest time it can be after [l], when a pause lasts as long as it has to. *)
Definition tick_time (now : Z) (t : tick) : Z :=
  match t with Clock t => t | Pause d => now + d | Wrote _ => now end%Z.
Definition time_after : Z → list tick → Z := foldl tick_time.

(** The clock does not go back, is not early after a pause, and fits 64 bits. *)
Fixpoint on_time (now : Z) (l : list tick) : Prop :=
  match l with
  | [] => True
  | t :: l => match t with Clock t => (now <= t < 2 ^ 63)%Z | _ => True end ∧
              on_time (tick_time now t) l
  end.

Definition wrote (l : list tick) : Z :=
  foldr (λ t n, match t with Wrote m => m + n | _ => n end)%Z 0%Z l.
Definition writes (l : list tick) : Z :=
  foldr (λ t n, match t with Wrote _ => 1 + n | _ => n end)%Z 0%Z l.

(** The forwarder's rate is [rate] whenever it is read. *)
Definition rated (rate : Z) (o : obs fwdE) : Prop :=
  match o with
  | @Obs _ X e x =>
      match e in fwdE Y return Y → Prop with FGetDataRate _ => λ r, r = rate | _ => λ _, True end x
  end.

(** * The order of the ticks *)

(** A round of the loop: the clock, the write, the clock, and a pause if one is due. *)
Inductive phase := Idle | Started (s : Z) | Written (s n : Z) | Due (s n e d : Z).

Definition phase_step (rate : Z) (ph : phase) (t : tick) : option phase :=
  match ph, t with
  | Idle, Clock s => Some (Started s)
  | Started s, Wrote n =>
      if ((0 <=? n) && (n <=? Fwdr_BufferSize))%Z then Some (Written s n) else None
  | Written s n, Clock e =>
      Some match timeToSleep n rate (e - s) with Some d => Due s n e d | None => Idle end
  | Due _ _ _ d, Pause d' => if decide (d' = d) then Some Idle else None
  | _, _ => None
  end.

Definition pace_mon (rate : Z) : monitor fwdE phase := {|
  mon_step ph o := match tick_of o with Some t => phase_step rate ph t | None => Some ph end;
  mon_legal _ o := fwd_sane o ∧ rated rate o;
  mon_split _ _ _ := False;
  mon_final _ := True;
  mon_panic _ _ := True
|}.

Lemma chunk_fits n :
  (0 <= n <= Fwdr_BufferSize)%Z → ((0 <=? n) && (n <=? Fwdr_BufferSize))%Z = true.
Proof. intros Hn. apply andb_true_intro. rewrite !Z.leb_le. lia. Qed.

Ltac pacing :=
  repeat (
    unfold fLogErrorE, fLogWarn, fLogInfo, must, warned, mux_unlock, wg_done, on_conn, defer,
      defer_on, writeFailed;
    cbn [respects bind call go loop mon_step mon_legal mon_panic pace_mon fst snd tick_of
         fwd_sane rated phase_step];
    cbn [fst snd] in *;
    match goal with
    | |- True => exact I
    | |- Idle = Idle => reflexivity
    | |- ∀ _, _ → _ => intros ? [? ?]; simplify_eq
    | H : (?r >? 0)%Z = true |- context [(?r >? 0)%Z] => rewrite H
    | |- respects _ (bind (bind _ _) _) _ _ => rewrite bind_assoc
    | |- context [((0 <=? ?n) && (?n <=? Fwdr_BufferSize))%Z] => rewrite (chunk_fits n) by lia
    | |- context [decide (?d = ?d)] => rewrite (decide_True (P := d = d)) by reflexivity
    | |- respects _ (bind (match ?x with _ => _ end) _) _ _ => destruct x eqn:?
    | |- respects _ (match ?x with _ => _ end) _ _ => destruct x eqn:?
    | |- match (match ?x with _ => _ end) with _ => _ end => destruct x eqn:?
    end).

Section pace.
Context `{PkgErrors} (rate : Z) (Hrate : (0 < rate)%Z).

Lemma upstreamStep_paced p src dst :
  respects (pace_mon rate) (upstreamStep p (Some src) (Some dst)) Idle (λ ph _, ph = Idle).
Proof.
  pose proof (proj2 (Z.gtb_lt rate 0) Hrate). unfold upstreamStep. pacing.
Qed.

Lemma upstream_paced p src dst wg :
  respects (pace_mon rate) (upstream p (Some src) (Some dst) wg) Idle (λ _ _, True).
Proof.
  pose proof (proj2 (Z.gtb_lt rate 0) Hrate). unfold upstream, closeDownstream. pacing.
  exists (λ _ ph, ph = Idle). split; [done|]. intros [] ph ->.
  eapply respects_mono; [apply upstreamStep_paced|]. intros ph' [[]|[]] ->; [done|]. pacing.
Qed.

End pace.

Fixpoint phase_run (rate : Z) (ph : phase) (l : list tick) : option phase :=
  match l with
  | [] => Some ph
  | t :: l => ph' ← phase_step rate ph t; phase_run rate ph' l
  end.

Lemma phase_run_app rate ph l1 l2 :
  phase_run rate ph (l1 ++ l2) = (ph' ← phase_run rate ph l1; phase_run rate ph' l2).
Proof.
  revert ph. induction l1 as [|t l1 IH]; intros ph; [done|]. simpl.
  by destruct (phase_step rate ph t); simpl.
Qed.

Lemma pace_mon_run rate ph tr ph' :
  mon_run (pace_mon rate) ph tr = Some ph' → phase_run rate ph (omap tick_of tr) = Some ph'.
Proof.
  revert ph. induction tr as [|o tr IH]; intros ph; [done|]. simpl.
  destruct (tick_of o); simpl; [|by apply IH]. destruct (phase_step rate ph t); simpl; [apply IH|done].
Qed.

(** * Bytes against time *)

Section tally.
Context (rate : Z) (Hrate : (0 < rate < 2 ^ 63)%Z).
#[local] Open Scope Z_scope.

(** What is known in a phase at the time [T]. *)
Definition phase_ok (T : Z) (ph : phase) : Prop :=
  0 <= T ∧
  match ph with
  | Idle => True
  | Started s => T = s
  | Written s n => T = s ∧ 0 <= n <= Fwdr_BufferSize
  | Due s n e d => T = e ∧ s <= e ∧ 0 <= n <= Fwdr_BufferSize ∧ paced n rate (e - s) (Some d)
  end.

(** The bytes [W] that [k] writes took since [t0], but for the one that is not paid for yet. *)
Definition within_rate (t0 W k T : Z) (ph : phase) : Prop :=
  match ph with
  | Idle => W * 8000 <= rate * (T - t0 + 2 * k + 3)
  | Started s => W * 8000 <= rate * (s - t0 + 2 * k + 3)
  | Written s n => (W - n) * 8000 <= rate * (s - t0 + 2 * k + 1)
  | Due s n e d => (W - n) * 8000 <= rate * (s - t0 + 2 * k + 1)
  end.

Lemma within_rate_start T ph : phase_ok T ph → within_rate T 0 0 T ph.
Proof.
  intros [HT Hph]. destruct ph as [|s|s n|s n e d]; simpl in *; nia.
Qed.

Lemma within_rate_burst t0 W k T ph :
  phase_ok T ph → within_rate t0 W k T ph →
  W * 8000 <= rate * (T - t0 + 2 * k + 3) + Fwdr_BufferSize * 8000.
Proof.
  unfold Fwdr_BufferSize. intros [HT Hph] Hw. destruct ph as [|s|s n|s n e d]; simpl in *.
  - nia.
  - nia.
  - destruct Hph as [-> Hn]. unfold Fwdr_BufferSize in Hn. nia.
  - destruct Hph as (-> & Hse & Hn & _). unfold Fwdr_BufferSize in Hn. nia.
Qed.

Lemma phase_step_ok T ph t ph' :
  phase_ok T ph → on_time T [t] → phase_step rate ph t = Some ph' →
  phase_ok (tick_time T t) ph'.
Proof.
  intros [HT Hph] [Ht _] Hstep. unfold phase_ok.
  destruct ph as [|s|s n|s n e d], t as [c|d'|m]; simpl in *; try discriminate.
  - simplify_eq. lia.
  - destruct ((0 <=? m) && (m <=? Fwdr_BufferSize)) eqn:Hm; simplify_eq.
    apply andb_true_iff in Hm as [?%Z.leb_le ?%Z.leb_le]. done.
  - destruct Hph as [-> Hn]. pose proof (timeToSleep_paced n rate (c - s) Hn Hrate) as Hp.
    specialize (Hp ltac:(lia)). destruct (timeToSleep n rate (c - s)); simplify_eq; [|lia].
    repeat split; try apply Hp; lia.
  - case_decide; simplify_eq. destruct Hph as (_ & _ & _ & Hd & _). lia.
Qed.

(** A step keeps to the rate. *)
Lemma phase_step_rate t0 W k T ph t ph' :
  phase_ok T ph → within_rate t0 W k T ph → on_time T [t] → phase_step rate ph t = Some ph' →
  within_rate t0 (wrote [t] + W) (writes [t] + k) (tick_time T t) ph'.
Proof.
  intros [HT Hph] Hw [Ht _] Hstep.
  destruct ph as [|s|s n|s n e d], t as [c|d'|m]; simpl in *; try discriminate.
  - simplify_eq. simpl. nia.
  - destruct ((0 <=? m) && (m <=? Fwdr_BufferSize)) eqn:Hm; simplify_eq. simpl. lia.
  - destruct Hph as [-> Hn]. pose proof (timeToSleep_paced n rate (c - s) Hn Hrate) as Hp.
    specialize (Hp ltac:(lia)). destruct (timeToSleep n rate (c - s)); simplify_eq; simpl in *; nia.
  - case_decide; simplify_eq. destruct Hph as (-> & _ & _ & Hd & Hp & _). simpl. nia.
Qed.

Lemma phase_run_ok T ph l ph' :
  phase_ok T ph → on_time T l → phase_run rate ph l = Some ph' → phase_ok (time_after T l) ph'.
Proof.
  revert T ph. induction l as [|t l IH]; intros T ph Hok Ht Hrun; simpl in *; [by simplify_eq|].
  destruct Ht as [Ht Hl], (phase_step rate ph t) as [ph1|] eqn:Hs; [|done].
  eapply IH; [|done|exact Hrun]. by eapply phase_step_ok.
Qed.

Lemma phase_run_rate t0 W k T ph l ph' :
  phase_ok T ph → within_rate t0 W k T ph → on_time T l → phase_run rate ph l = Some ph' →
  within_rate t0 (wrote l + W) (writes l + k) (time_after T l) ph'.
Proof.
  revert W k T ph. induction l as [|t l IH]; intros W k T ph Hok Hw Ht Hrun;
    cbn [phase_run] in Hrun; [by simplify_eq|].
  destruct Ht as [Ht Hl], (phase_step rate ph t) as [ph1|] eqn:Hs; [|done].
  assert (on_time T [t]) as Ht1 by done.
  pose proof (phase_step_rate _ _ _ _ _ _ _ Hok Hw Ht1 Hs) as Hw1.
  apply IH in Hw1; [|by eapply phase_step_ok|done|done].
  replace (wrote (t :: l) + W) with (wrote l + (wrote [t] + W)) by (destruct t; simpl; lia).
  replace (writes (t :: l) + k) with (writes l + (writes [t] + k)) by (destruct t; simpl; lia).
  exact Hw1.
Qed.

End tally.

Lemma on_time_app T l1 l2 : on_time T (l1 ++ l2) → on_time T l1 ∧ on_time (time_after T l1) l2.
Proof.
  revert T. induction l1 as [|t l1 IH]; intros T; simpl; [done|]. intros [Ht Hl].
  apply IH in Hl as [? ?]. done.
Qed.

(** Every prefix of a run of [upstream] keeps the order of the ticks. *)
Lemma upstream_phases `{PkgErrors} rate p src dst wg tr q :
  (0 < rate)%Z → Forall fwd_sane tr → Forall (rated rate) tr →
  runs (upstream p (Some src) (Some dst) wg) tr q →
  ∃ ph, phase_run rate Idle (omap tick_of tr) = Some ph.
Proof.
  intros Hrate Hs Hrt Hr.
  assert (Hl : legal_run (pace_mon rate) Idle tr).
  { clear Hr. generalize Idle. induction tr as [|o tr IH]; intros ph; [done|].
    apply Forall_cons in Hs as [? ?], Hrt as [? ?]. split; [done|]. intros ph' _. by apply IH. }
  assert (Hu : unsplit (pace_mon rate)) by by intros ? ? ?.
  destruct (respects_runs _ _ _ _ _ _ Hu Hr Hl (upstream_paced rate Hrate p src dst wg))
    as (ph & Hph & _).
  exists ph. by apply pace_mon_run.
Qed.

(** C13.  The rate limit holds, in spite of the rounding of its binary64 arithmetic.  Take any
    run of [upstream] up to any point, with a forwarder whose data rate is [rate] Mbit/s, a
    clock that does not go back and pauses that are not cut short; and in it any stretch.  The
    bytes written in the stretch are at most those that the rate allows in its time, two
    nanoseconds more for each write and three once, and one buffer: a write of up to
    32 MiB is made at once and its time is slept off afterwards. *)
Theorem upstream_rate `{PkgErrors} (rate : Z) (p : fref) (src dst : conn) (wg : option wgref)
    (tr1 tr2 : list (obs fwdE)) (q : prog fwdE unit) (start : Z) :
  (0 < rate < 2 ^ 63)%Z → (0 <= start)%Z →
  Forall fwd_sane (tr1 ++ tr2) → Forall (rated rate) (tr1 ++ tr2) →
  runs (upstream p (Some src) (Some dst) wg) (tr1 ++ tr2) q →
  on_time start (omap tick_of (tr1 ++ tr2)) →
  let t := time_after start (omap tick_of tr1) in
  let l := omap tick_of tr2 in
  (wrote l * 8000 <=
   rate * (time_after t l - t + 2 * writes l + 3) + Fwdr_BufferSize * 8000)%Z.
Proof.
  intros Hrate Hstart Hs Hrt Hr Ht t l.
  destruct (upstream_phases rate p src dst wg (tr1 ++ tr2) q) as [ph Hph]; [lia|done..|].
  rewrite omap_app in *. apply on_time_app in Ht as [Ht1 Ht2].
  rewrite phase_run_app in Hph. destruct (phase_run rate Idle _) as [ph1|] eqn:Hph1; [|done].
  assert (phase_ok rate t ph1) as Hok.
  { eapply (phase_run_ok rate Hrate start Idle); [by split|done|exact Hph1]. }
  pose proof (phase_run_rate rate Hrate t 0 0 t ph1 l ph Hok) as Hw.
  specialize (Hw (within_rate_start rate Hrate t ph1 Hok) Ht2 Hph). rewrite !Z.add_0_r in Hw.
  apply (within_rate_burst rate Hrate _ _ _ _ ph); [|exact Hw].
  exact (phase_run_ok rate Hrate t ph1 l ph Hok Ht2 Hph).
Qed.

(** A clock, for the run that copies two chunks. *)
Definition ticking (n : nat) (X : Type) (e : fwdE X) : option X :=
  match e in fwdE Y return option Y with
  | TNow => Some (Z.of_nat n * (if (n <? 10)%nat then 10 else 100))%Z
  | e => two_chunks n _ e
  end.

Definition timed_trace : list (obs fwdE) := (interp (counting ticking) 100 (0, limited) ref_up).1.1.

Lemma upstream_rate_witness :
  omap tick_of timed_trace =
    [Clock 50; Wrote 2; Clock 80; Pause 130; Clock 1300; Wrote 1; Clock 1600] ∧
  (wrote (omap tick_of timed_trace) * 8000 <=
   100 * (time_after 50 (omap tick_of timed_trace) - 50 + 2 * 2 + 3) + Fwdr_BufferSize * 8000)%Z.
Proof.
  split; [vm_compute; reflexivity|].
  apply (@upstream_rate ReferenceK8s.pkg 100 0 1 2 (Some 0) [] timed_trace (Ret tt) 50).
  - lia.
  - lia.
  - vm_compute. repeat constructor; discriminate.
  - vm_compute. repeat constructor.
  - apply interp_runs_to. vm_compute. reflexivity.
  - vm_compute. repeat constructor; discriminate.
Defined.
