(* ===== verification/FwdSvc.v ===== *)
(** The forwarding service: src/server/fwdsvc.go. *)
From S2P Require Import Prelude Go Errors Sys FwdSys Fwd.
#[local] Open Scope go_scope.

(** [10 * time.Millisecond], in nanoseconds. *)
Definition FwdSvc_LnTimeoutDuration : Z := 10000000.

Definition cond_unlock : prog fwdE unit := must SCondUnlock "sync: unlock of unlocked mutex".
Definition fwdrs_unlock : prog fwdE unit := must SFwdrsUnlock "sync: unlock of unlocked mutex".

(** [p.condSuspend.Wait()] *)
Definition cond_wait : prog fwdE unit :=
  ticket <- call SCondAdd;;
  cond_unlock;;
  call (SCondWait ticket);;
  call SCondLock.

Definition CloseSvc : prog fwdE unit := must SCloseClose "close of closed channel".

Definition Suspend : prog fwdE unit :=
  call SCondLock;;
  call (SSetSuspended true);;
  call SCondBroadcast;;
  cond_unlock;;
  call SRecvSuspend.

Definition Resume : prog fwdE unit :=
  call SCondLock;;
  call (SSetSuspended false);;
  call SCondBroadcast;;
  cond_unlock.

Definition CloseAllForwarders : prog fwdE unit :=
  suspended <- call SGetSuspended;;
  if negb suspended then Panic "Must be suspended before CloseAllForwarders"
  else
    wg <- call WNew;;
    call SFwdrsLock;;
    e <- call SFront;;
    loop e (λ e,
      match e with
      | None => Ret (inr tt)
      | Some (e, fwdr) =>
          call (WAdd wg 1);;
          go (defer (wg_done wg) (Close fwdr));;
          e <- call (SNext e);;
          Ret (inl e)
      end);;
    fwdrs_unlock;;
    call (WWait wg).

Definition ChangeServerAddr (serverAddr : TCPAddr) : prog fwdE unit :=
  suspended <- call SGetSuspended;;
  if negb suspended then Panic "Must be suspended before ChangeServerAddr"
  else call (SSetServerAddr serverAddr).

Definition ChangeDataRate (dataRate : Z) : prog fwdE unit :=
  suspended <- call SGetSuspended;;
  if negb suspended then Panic "Must be suspended before ChangeDataRate"
  else call (SSetDataRate dataRate).

Section service.
Context `{PkgErrors} (gatewayAddr network : string) (ln : listener).

(** The goroutine of one client. *)
Definition serveClient (fwdr : fref) (elem : elem) (clientConn : conn) : prog fwdE unit :=
  serverAddr <- call SGetServerAddr;;
  Accept gatewayAddr fwdr network serverAddr clientConn;;
  call SFwdrsLock;;
  call (SRemove elem);;
  fwdrs_unlock.

(** The head of the loop of [listener]: a service that is suspended waits here. *)
Definition awaitResume : prog fwdE unit :=
  call SCondLock;;
  suspended <- call SGetSuspended;;
  (if suspended : bool then
     call SSendSuspend;;
     loop tt (λ _,
       suspended <- call SGetSuspended;;
       if suspended : bool then cond_wait;; Ret (inl tt) else Ret (inr tt))
   else Ret tt);;
  cond_unlock.

(** A new client: its forwarder is in the list before its goroutine runs. *)
Definition admitClient (clientConn : conn) : prog fwdE unit :=
  fwdr <- NewForwarder;;
  dataRate <- call SGetDataRate;;
  SetDataRate fwdr dataRate;;
  call SFwdrsLock;;
  elem <- call (SPushBack fwdr);;
  fwdrs_unlock;;
  go (serveClient fwdr elem clientConn).

Definition listen : prog fwdE unit :=
  loop tt (λ _,
    awaitResume;;
    warned (call (NLnSetDeadline ln FwdSvc_LnTimeoutDuration)) "[Fwdsvc] ln.SetDeadline: ";;
    r <- call (NAcceptTCP ln);;
    match r with
    | Err err =>
        if IsDeadlineExceeded (Some err) then Ret (inl tt)
        else if IsClosedError err then Ret (inr tt)
        else fLogErrorE (WithStack err);; Ret (inr tt)
    | Ok clientConn => admitClient clientConn;; Ret (inl tt)
    end).

(** The goroutine that ends the listener. *)
Definition closer : prog fwdE unit :=
  call SRecvClose;;
  warned (call (NLnClose ln)) "[Fwdsvc] ln.Close: ".

(** What [StartForwarderServiceDR] starts once it listens. *)
Definition serve : prog fwdE unit :=
  go closer;;
  go listen.

End service.

(** What a migration does to the service of its application ([LM_Restore.exec]). *)
Definition move (serverAddr : TCPAddr) : prog fwdE unit :=
  Suspend;;
  CloseAllForwarders;;
  ChangeServerAddr serverAddr;;
  ChangeDataRate 0;;
  Resume.
