(* ===== verification/FwdSvcProofs.v ===== *)
(** The forwarding service: executions that go wrong, and what a suspended service
    guarantees to a migration. *)
From S2P Require Import Prelude Go Errors Sys Kube FwdSys Fwd FwdSvc.
#[local] Open Scope go_scope.

(** * Executions that go wrong *)

(** Nobody can go on: every goroutine has ended or waits. *)
Definition waits (s : fmem) (p : prog fwdE unit) : bool :=
  match p with
  | Ret _ => true
  | Vis e _ => match mem_do s e with Some None => true | _ => false end
  | _ => false
  end.

Lemma waits_stuck ts s c : forallb (waits s) ts = true → ¬ pstep fwd_sem (ts, s) c.
Proof.
  intros Hw Hs. rewrite forallb_forall in Hw.
  assert (Hin : ∀ i p, ts !! i = Some p → waits s p = true).
  { intros i p Hi. apply Hw, list_elem_of_In. by eapply list_elem_of_lookup_2. }
  inversion Hs as [? ? i p p' Hi Hl|? ? s' i p o p' Hi Hl Hh|? ? i p c' p' Hi Hl]; subst;
    specialize (Hin _ _ Hi); destruct p as [a|X e k|T B body j k|c0 k|msg]; simpl in *;
    try done; try by destruct Hl as (? & [=] & _).
  destruct Hl as (x & [= ->] & ->). simpl in Hh. destruct (mem_do s e) as [[]|]; done.
Qed.

(** One client connects; after that, the listener's deadline expires every time. *)
Definition one_client (s : fmem) (X : Type) (e : fwdE X) : option X :=
  match e in fwdE Y return option Y with
  | NAcceptTCP _ =>
      Some (if decide (opens s = []) then Ok 0 else Err (ENet "i/o timeout" true true))
  | _ => None
  end.

Definition service_with (client : prog fwdE unit) : list (prog fwdE unit) * fmem :=
  ([@serve ReferenceK8s.pkg "" "tcp" 3; client], init_mem (mkTCPAddr "10.0.0.2" 8888) 0).

(** The client is admitted; the service is suspended before the client's goroutine runs. *)
Definition early_close : list (prog fwdE unit) * fmem :=
  pool_path (fwd_machine one_client)
    (replicate 2 0 ++ replicate 20 3 ++ replicate 6 1 ++ replicate 4 3 ++ replicate 20 1 ++
     replicate 10 5)
    (service_with (Suspend;; CloseAllForwarders)).

(** The service is suspended and resumed, and suspended again before its listener has
    noticed that it was resumed. *)
Definition quick_suspend : list (prog fwdE unit) * fmem :=
  pool_path (fwd_machine one_client)
    (replicate 2 0 ++ replicate 4 1 ++ replicate 8 3 ++ replicate 10 1 ++ replicate 10 3 ++
     replicate 10 1)
    (service_with (Suspend;; Resume;; Suspend)).

(** C33.  A forwarder is in the service's list before the goroutine that accepts its client has
    run.  [CloseAllForwarders] closes it then too, and [closeUpstream] calls a method of its
    client connection, which is still nil: a suspended service crashes the server. *)
Theorem CloseAll_nil_panic :
  rtc (pstep fwd_sem) (service_with (Suspend;; CloseAllForwarders)) early_close ∧
  early_close.1 !! 5 = Some (Panic nil_dereference).
Proof. split; [apply pool_path_steps, fwd_machine_sem|vm_compute; reflexivity]. Qed.

(** C34.  The handshake of [Suspend] can be lost: when the service is resumed and suspended
    again before the listener wakes up, the listener goes on waiting without answering, and
    the second [Suspend] waits for that answer forever; no goroutine can take a step. *)
Theorem Suspend_handshake_lost :
  rtc (pstep fwd_sem) (service_with (Suspend;; Resume;; Suspend)) quick_suspend ∧
  (∃ k, quick_suspend.1 !! 1 = Some (Vis SRecvSuspend k)) ∧
  ∀ c, ¬ pstep fwd_sem quick_suspend c.
Proof.
  split; [apply pool_path_steps, fwd_machine_sem|]. split.
  - eexists. vm_compute. reflexivity.
  - intros c. rewrite (surjective_pairing quick_suspend). apply waits_stuck.
    vm_compute. reflexivity.
Qed.
