(* ===== verification/FwdWindow.v ===== *)
(** The window of a migration: from the handshake of [Suspend] to [Resume], a forwarding
    service admits nobody, and once [CloseAllForwarders] is through, every forwarder it ever
    had is finished.  The proof follows what each goroutine knows and owns: its part in the
    protocol, the lock of the list, its debts to wait groups, and the forwarders it has seen
    closed. *)
From S2P Require Import Prelude Go Errors Sys Kube Ownership FwdSys Fwd FwdSvc.
#[local] Open Scope go_scope.

(** * What the invariant looks at *)

(** The part of the memory that matters: which forwarders are finished, the wait groups, and
    the list, the lock and the flags of the service. *)
Record view := View {
  v_closed : list bool;
  v_wgs : list nat;
  v_fwdrs : list (elem * fref);
  v_next : elem;
  v_mux : bool;
  v_chan : bool;
  v_sus : bool
}.

Definition view_of (s : fmem) : view :=
  View (chanClosed <$> heap s) (wgs s) (fwdrs (svc s)) (nextElem (svc s)) (muxFwdrs (svc s))
    (chanSuspend (svc s)) (isSuspended (svc s)).

Definition closed (v : view) (f : fref) : Prop := v_closed v !! f = Some true.

(** * What a goroutine knows *)

(** How far the migration is in closing the forwarders: the wait group, the entries of the
    list it has dealt with, and the one it looks at, before and after its [wg.Add]. *)
Inductive close_st :=
| CStart
| CWg (w : wgref)
| CCur (w : wgref) (seen : list (elem * fref)) (ef : elem * fref)
| CAdded (w : wgref) (seen : list (elem * fref)) (ef : elem * fref)
| CIter (w : wgref) (seen : list (elem * fref))
| CAll (w : wgref) (seen : list (elem * fref))
| CDone.

(** The part of a goroutine: what starts the service; the listener, running with at most one
    forwarder that is not in the list yet, or parked before and after its answer to
    [Suspend]; the migration, before it asks, after, inside the window, and when it has
    resumed; any other. *)
Inductive role :=
| RServe
| RRun (new : option fref)
| RPark0
| RPark1
| RIdle
| RSet
| RIn (c : close_st)
| RRes
| RTask.

#[export] Instance close_st_eq_dec : EqDecision close_st.
Proof. solve_decision. Defined.
#[export] Instance role_eq_dec : EqDecision role.
Proof. solve_decision. Defined.

(** A debt to a wait group, for the forwarder that is to be finished before it is paid. *)
Definition debt : Type := wgref * option fref.

Record gst := G {
  part : role;
  lk : bool;
  debts : list debt;
  known : list fref;
  pairs : list (elem * fref)
}.

#[export] Instance gst_eq_dec : EqDecision gst.
Proof. solve_decision. Defined.

Definition with_part (r : role) (m : gst) : gst := G r (lk m) (debts m) (known m) (pairs m).
Definition with_lk (b : bool) (m : gst) : gst := G (part m) b (debts m) (known m) (pairs m).
Definition with_debts (d : list debt) (m : gst) : gst := G (part m) (lk m) d (known m) (pairs m).
Definition knowing (f : fref) (m : gst) : gst :=
  G (part m) (lk m) (debts m) (f :: known m) (pairs m).

(** [debts] without one to [w] that may be paid. *)
Fixpoint pay (known : list fref) (w : wgref) (ds : list debt) : option (list debt) :=
  match ds with
  | [] => None
  | d :: ds =>
      if bool_decide (d.1 = w) && from_option (λ f, bool_decide (f ∈ known)) true d.2 then Some ds
      else cons d <$> pay known w ds
  end.

(** * The rules *)

Definition window_step (m : gst) (o : obs fwdE) : option gst :=
  match o with
  | @Obs _ X e x =>
      match e in fwdE Y return Y → option gst with
      | FNew => λ f,
          match part m with
          | RRun None => Some (with_part (RRun (Some f)) m)
          | _ => None
          end
      | SPushBack f => λ e,
          match part m with
          | RRun (Some f') =>
              if decide (f = f' ∧ lk m = true)
              then Some (G (RRun None) (lk m) (debts m) (known m) ((e, f) :: pairs m))
              else None
          | _ => None
          end
      | NAcceptTCP _ => λ _, match part m with RRun _ => Some m | _ => None end
      | FCloseClosed f => λ _, Some (knowing f m)
      | FRecvClosed f => λ _, Some (knowing f m)
      | SFwdrsLock => λ _, if lk m then None else Some (with_lk true m)
      | SFwdrsUnlock => λ _,
          if lk m then
            match part m with
            | RIn (CAll _ _) => Some (with_lk false m)
            | RIn _ => None
            | _ => Some (with_lk false m)
            end
          else None
      | SRemove e => λ _,
          if decide (lk m = true ∧ part m = RTask ∧
                     Exists (λ ef, ef.1 = e ∧ ef.2 ∈ known m) (pairs m))
          then Some m else None
      | SFront => λ r,
          match part m with
          | RIn (CWg w) =>
              if lk m
              then Some (with_part (RIn match r with
                                        | Some ef => CCur w [] ef
                                        | None => CAll w []
                                        end) m)
              else None
          | RIn _ => None
          | _ => Some m
          end
      | SNext e => λ r,
          match part m with
          | RIn (CIter w seen) =>
              if decide (fst <$> list.last seen = Some e)
              then Some (with_part (RIn match r with
                                        | Some ef => CCur w seen ef
                                        | None => CAll w seen
                                        end) m)
              else None
          | RIn _ => None
          | _ => Some m
          end
      | WNew => λ w,
          match part m with
          | RIn CStart => Some (with_part (RIn (CWg w)) m)
          | RIn _ => None
          | _ => Some m
          end
      | WAdd w n => λ _,
          match part m with
          | RIn (CCur w' seen ef) =>
              if decide (w = w' ∧ n = 1)
              then Some (with_part (RIn (CAdded w seen ef))
                           (with_debts ((w, Some ef.2) :: debts m) m))
              else None
          | RIn _ => None
          | _ => Some (with_debts (replicate n (w, None) ++ debts m) m)
          end
      | WDone w => λ _, ds ← pay (known m) w (debts m); Some (with_debts ds m)
      | WWait w => λ _,
          match part m with
          | RIn (CAll w' _) =>
              if decide (w = w' ∧ lk m = false) then Some (with_part (RIn CDone) m) else None
          | RIn _ => None
          | _ => Some m
          end
      | SGetSuspended => λ b,
          match part m with
          | RRun None => Some (if b : bool then with_part RPark0 m else m)
          | RPark1 => Some (if b : bool then m else with_part (RRun None) m)
          | RRun (Some _) | RPark0 => None
          | _ => Some m
          end
      | SSetSuspended b => λ _,
          match part m, b with
          | RIdle, true => Some (with_part RSet m)
          | RIn _, false => Some (with_part RRes m)
          | _, _ => None
          end
      | SSendSuspend => λ _,
          match part m with RPark0 => Some (with_part RPark1 m) | _ => None end
      | SRecvSuspend => λ _,
          match part m with RSet => Some (with_part (RIn CStart) m) | _ => None end
      | SSetServerAddr _ => λ _, match part m with RIn CDone => Some m | _ => None end
      | _ => λ _, Some m
      end x
  end.

(** Who a new goroutine is. *)
Inductive starts_as : role → role → role → Prop :=
| sa_task r : (∀ w seen ef, r ≠ RIn (CAdded w seen ef)) → starts_as r RTask r
| sa_listen : starts_as RServe (RRun None) RIdle
| sa_idle : starts_as RIdle RIdle RIdle
| sa_close w seen ef :
    starts_as (RIn (CAdded w seen ef)) RTask (RIn (CIter w (seen ++ [ef]))).

Definition window_split (m mc mk : gst) : Prop :=
  debts m ≡ₚ debts mc ++ debts mk ∧ lk mc = false ∧ lk mk = lk m ∧
  known mc ⊆ known m ∧ known mk ⊆ known m ∧ pairs mc ⊆ pairs m ∧ pairs mk ⊆ pairs m ∧
  starts_as (part m) (part mc) (part mk).

(** Inside the window the service is suspended. *)
Definition window_legal (m : gst) (o : obs fwdE) : Prop :=
  match o with
  | @Obs _ X e x =>
      match e in fwdE Y return Y → Prop with
      | SGetSuspended => λ b, match part m with RIn _ => b = true | _ => True end
      | _ => λ _, True
      end x
  end.

(** The panics of a method that only a suspended service has; [strict] forbids them. *)
Definition must_be_suspended (msg : string) : Prop :=
  msg ∈ ["Must be suspended before CloseAllForwarders";
         "Must be suspended before ChangeServerAddr";
         "Must be suspended before ChangeDataRate"].

Definition window_mon (strict : bool) : monitor fwdE gst := {|
  mon_step := window_step;
  mon_legal := window_legal;
  mon_split := window_split;
  mon_final _ := True;
  mon_panic _ msg := strict = true → ¬ must_be_suspended msg
|}.

(** * The invariant *)

(** The step of the log of a pool: outside a window, inside one, inside one whose server
    address has been changed, or broken: something happened inside that must not. *)
Inductive win := WOut | WIn | WMoved | WBroken.
#[export] Instance win_eq_dec : EqDecision win.
Proof. solve_decision. Defined.

Definition admission (o : obs fwdE) : bool :=
  match o with
  | @Obs _ X e x => match e with NAcceptTCP _ | FNew | SPushBack _ => true | _ => false end
  end.
Definition opens_window (o : obs fwdE) : bool :=
  match o with @Obs _ X e x => match e with SRecvSuspend => true | _ => false end end.
(** What must not happen inside a window: a client is admitted, another [Suspend] has its
    answer, or somebody finds the service running. *)
Definition intrudes (o : obs fwdE) : bool :=
  admission o || opens_window o ||
  match o with
  | @Obs _ X e x =>
      match e in fwdE Y return Y → bool with SGetSuspended => negb | _ => λ _, false end x
  end.
Definition ends_window (o : obs fwdE) : bool :=
  match o with @Obs _ X e x => match e with SSetSuspended b => negb b | _ => false end end.
Definition moves (o : obs fwdE) : bool :=
  match o with @Obs _ X e x => match e with SSetServerAddr _ => true | _ => false end end.

Definition win_step (w : win) (o : obs fwdE) : win :=
  match w with
  | WBroken => WBroken
  | WOut => if opens_window o then WIn else WOut
  | WIn | WMoved =>
      if intrudes o then WBroken
      else if ends_window o then WOut
      else if moves o then WMoved
      else w
  end.

Definition win_of (log : list (obs fwdE)) : win := foldl win_step WOut log.

(** ** The lock of the list: held by at most one goroutine *)

Definition lock_inv (v : view) (ms : list gst) : Prop :=
  (∀ i m, ms !! i = Some m → lk m = true → v_mux v = true) ∧
  (∀ i j mi mj, ms !! i = Some mi → ms !! j = Some mj →
     lk mi = true → lk mj = true → i = j).

(** ** The handshake *)

Inductive phase := PServe | PRun | PPark0 | PPark1 | PIn | PTask.

Definition phase_of (m : gst) : phase :=
  match part m with
  | RServe => PServe | RRun _ => PRun | RPark0 => PPark0 | RPark1 => PPark1
  | RIn _ => PIn | _ => PTask
  end.

Definition listening (p : phase) : bool :=
  match p with PServe | PRun | PPark0 | PPark1 => true | _ => false end.

(** What a phase says about the flags; what two goroutines' phases say about each other.  Of
    the migrations that have asked, or have resumed, nothing is known. *)
Definition phase_ok (chan sus : bool) (p : phase) : bool :=
  match p with
  | PIn | PPark0 => sus && negb chan
  | PServe | PRun => negb chan
  | PPark1 | PTask => true
  end.
Definition phases_ok (p q : phase) : bool :=
  negb (listening p && listening q) &&
  match p, q with
  | PIn, (PIn | PServe | PRun | PPark0) => false
  | _, _ => true
  end.

Definition phase_inv (v : view) (ps : list phase) : Prop :=
  (v_chan v = true → v_sus v = true) ∧
  (∀ i p, ps !! i = Some p → phase_ok (v_chan v) (v_sus v) p = true) ∧
  (∀ i j p q, i ≠ j → ps !! i = Some p → ps !! j = Some q → phases_ok p q = true).

(** ** The wait groups: a counter is the number of debts *)

Definition all_debts (ms : list gst) : list debt := concat (debts <$> ms).

Definition owed (w : wgref) (ds : list debt) : nat := length (filter (λ d, d.1 = w) ds).

Definition debt_inv (v : view) (ds : list debt) : Prop :=
  (∀ w n, v_wgs v !! w = Some n → n = owed w ds) ∧
  (∀ d, d ∈ ds → d.1 < length (v_wgs v)).

(** ** The list: an unfinished forwarder is in it, or about to be *)

Definition list_inv (v : view) (ms : list gst) : Prop :=
  (∀ i m f, ms !! i = Some m → f ∈ known m → closed v f) ∧
  (∀ i m e f, ms !! i = Some m → (e, f) ∈ pairs m →
     e < v_next v ∧ ∀ f', (e, f') ∈ v_fwdrs v → f' = f) ∧
  NoDup (v_fwdrs v).*1 ∧
  (∀ e f, (e, f) ∈ v_fwdrs v → e < v_next v) ∧
  (∀ f b, v_closed v !! f = Some b →
     b = true ∨ f ∈ (v_fwdrs v).*2 ∨ ∃ i m, ms !! i = Some m ∧ part m = RRun (Some f)).

(** ** The closing of the forwarders *)

Definition settled (v : view) (ds : list debt) (w : wgref) (seen : list (elem * fref)) : Prop :=
  ∀ f, f ∈ seen.*2 → closed v f ∨ (w, Some f) ∈ ds.

Definition closing (v : view) (ds : list debt) (held : bool) (c : close_st) : Prop :=
  match c with
  | CStart | CWg _ => True
  | CCur w seen ef =>
      held = true ∧ (∃ rest, v_fwdrs v = seen ++ ef :: rest) ∧ settled v ds w seen
  | CAdded w seen ef =>
      held = true ∧ (∃ rest, v_fwdrs v = seen ++ ef :: rest) ∧ settled v ds w (seen ++ [ef])
  | CIter w seen =>
      held = true ∧ (∃ rest, v_fwdrs v = seen ++ rest) ∧ settled v ds w seen
  | CAll w seen =>
      (∀ f b, v_closed v !! f = Some b → b = true ∨ f ∈ seen.*2) ∧ settled v ds w seen
  | CDone => ∀ f b, v_closed v !! f = Some b → b = true
  end.

Definition close_inv (v : view) (ms : list gst) : Prop :=
  ∀ i m c, ms !! i = Some m → part m = RIn c → closing v (all_debts ms) (lk m) c.

(** ** The log *)

Definition log_inv (ms : list gst) (log : list (obs fwdE)) : Prop :=
  match win_of log with
  | WOut => True
  | WIn => ∃ i m c, ms !! i = Some m ∧ part m = RIn c
  | WMoved => ∃ i m, ms !! i = Some m ∧ part m = RIn CDone
  | WBroken => False
  end.

Record window_inv (v : view) (log : list (obs fwdE)) (ms : list gst) : Prop := {
  wi_lock : lock_inv v ms;
  wi_phase : phase_inv v (phase_of <$> ms);
  wi_debt : debt_inv v (all_debts ms);
  wi_list : list_inv v ms;
  wi_close : close_inv v ms;
  wi_log : log_inv ms log
}.

(** * What a step does to the view *)

Definition set_closed (l : list bool) (v : view) : view :=
  View l (v_wgs v) (v_fwdrs v) (v_next v) (v_mux v) (v_chan v) (v_sus v).

(** The effects that change the view, and how; the others leave it alone. *)
Definition view_step (v : view) (o : obs fwdE) (v' : view) : Prop :=
  match o with
  | @Obs _ X e x =>
      match e in fwdE Y return Y → Prop with
      | FNew => λ f, f = length (v_closed v) ∧ v' = set_closed (v_closed v ++ [false]) v
      | FCloseClosed f => λ _,
          f < length (v_closed v) ∧ v' = set_closed (<[f := true]> (v_closed v)) v
      | FRecvClosed f => λ _, closed v f ∧ v' = v
      | WNew => λ w,
          w = length (v_wgs v) ∧
          v' = View (v_closed v) (v_wgs v ++ [0]) (v_fwdrs v) (v_next v) (v_mux v) (v_chan v)
                 (v_sus v)
      | WAdd w n => λ _, ∃ m, v_wgs v !! w = Some m ∧
          v' = View (v_closed v) (<[w := n + m]> (v_wgs v)) (v_fwdrs v) (v_next v) (v_mux v)
                 (v_chan v) (v_sus v)
      | WDone w => λ _, ∃ m, v_wgs v !! w = Some m ∧
          v' = View (v_closed v) (<[w := pred m]> (v_wgs v)) (v_fwdrs v) (v_next v) (v_mux v)
                 (v_chan v) (v_sus v)
      | WWait w => λ _, v_wgs v !! w = Some 0 ∧ v' = v
      | SGetSuspended => λ b, b = v_sus v ∧ v' = v
      | SSetSuspended b => λ _,
          v' = View (v_closed v) (v_wgs v) (v_fwdrs v) (v_next v) (v_mux v) (v_chan v) b
      | SSendSuspend => λ _, v_chan v = false ∧
          v' = View (v_closed v) (v_wgs v) (v_fwdrs v) (v_next v) (v_mux v) true (v_sus v)
      | SRecvSuspend => λ _, v_chan v = true ∧
          v' = View (v_closed v) (v_wgs v) (v_fwdrs v) (v_next v) (v_mux v) false (v_sus v)
      | SFwdrsLock => λ _, v_mux v = false ∧
          v' = View (v_closed v) (v_wgs v) (v_fwdrs v) (v_next v) true (v_chan v) (v_sus v)
      | SFwdrsUnlock => λ _,
          v' = View (v_closed v) (v_wgs v) (v_fwdrs v) (v_next v) false (v_chan v) (v_sus v)
      | SPushBack f => λ e, e = v_next v ∧
          v' = View (v_closed v) (v_wgs v) (v_fwdrs v ++ [(e, f)]) (S e) (v_mux v) (v_chan v)
                 (v_sus v)
      | SRemove e => λ _,
          v' = View (v_closed v) (v_wgs v) (filter (λ ef, ef.1 ≠ e) (v_fwdrs v)) (v_next v)
                 (v_mux v) (v_chan v) (v_sus v)
      | SFront => λ r, r = list.head (v_fwdrs v) ∧ v' = v
      | SNext e => λ r, r = next_of e (v_fwdrs v) ∧ v' = v
      | _ => λ _, v' = v
      end x
  end.

Lemma set_heap_same (h : list Forwarder) f (x y : Forwarder) :
  h !! f = Some x → chanClosed y = chanClosed x →
  chanClosed <$> <[f := y]> h = chanClosed <$> h.
Proof.
  intros Hf Hy. rewrite list_fmap_insert, Hy. apply list_insert_id.
  by rewrite list_lookup_fmap, Hf.
Qed.

(** Opens the reads and writes of a forwarder in a hypothesis about the memory. *)
Ltac open_heap H :=
  unfold peek, poke, await in H;
  repeat match type of H with
  | (?y ≫= _) = _ => let E := fresh "E" in destruct y eqn:E; simpl in H; [|discriminate H]
  | (if ?b then _ else _) = _ => let E := fresh "E" in destruct b eqn:E; try discriminate H
  end;
  simplify_eq; simpl.

Lemma fwd_sem_view s o s' : fwd_sem s o s' → view_step (view_of s) o (view_of s').
Proof.
  destruct o as [X e x]. unfold fwd_sem, view_of.
  destruct e; simpl; intros Hs; try (open_heap Hs);
    try (repeat case_match; simplify_eq; done);
    try (by rewrite (set_heap_same _ _ _ _ E)).
  - by rewrite length_fmap, fmap_app.
  - rewrite length_fmap, list_fmap_insert. split; [by eapply lookup_lt_Some|done].
  - rewrite (set_heap_same _ _ _ _ E) by done. split; [|done].
    unfold closed. simpl. rewrite list_lookup_fmap, E. simpl. by rewrite E0.
  - eauto.
  - eauto.
  - split; [|done]. by destruct n.
  - destruct x; [by destruct Hs as [_ ->]|by subst].
  - destruct x; [by destruct Hs as [_ ->]|by subst].
  - by destruct Hs as [(_ & rest & _ & ->)|(_ & _ & ->)].
Qed.

(** * Preservation, part by part *)

Lemma insert_cases {A} (l : list A) i x j y :
  <[i := x]> l !! j = Some y → (j = i ∧ y = x) ∨ (j ≠ i ∧ l !! j = Some y).
Proof. intros [(-> & -> & _)|[Hn Hj]]%list_lookup_insert_Some; auto. Qed.

(** Looks up in an updated list of goroutines. *)
Ltac at_insert H :=
  let Hn := fresh "Hne" in
  apply insert_cases in H as [[-> ->]|[Hn H]].

(** ** The lock *)

Lemma lock_same v v' ms i m m' :
  lock_inv v ms → ms !! i = Some m → lk m' = lk m → v_mux v' = v_mux v →
  lock_inv v' (<[i := m']> ms).
Proof.
  intros [Hh Hu] Hi Hl Hv. split.
  - intros j mj Hj Hlk. rewrite Hv. at_insert Hj; [|by eapply Hh].
    apply (Hh i m Hi). by rewrite <-Hl.
  - intros j k mj mk Hj Hk Hlj Hlk. at_insert Hj; at_insert Hk; [done| | |by eapply Hu].
    + apply (Hu i k m mk); [done..|by rewrite <-Hl|done].
    + apply (Hu j i mj m); [done..|by rewrite <-Hl].
Qed.

Lemma lock_take v v' ms i m m' :
  lock_inv v ms → ms !! i = Some m → v_mux v = false → v_mux v' = true →
  lock_inv v' (<[i := m']> ms).
Proof.
  intros [Hh Hu] Hi Hv Hv'. split; [done|].
  assert (Hno : ∀ j mj, ms !! j = Some mj → lk mj = true → False).
  { intros j mj Hj Hlj. rewrite (Hh j mj Hj Hlj) in Hv. done. }
  intros j k mj mk Hj Hk Hlj Hlk. at_insert Hj; at_insert Hk; [done|exfalso; eauto..].
Qed.

Lemma lock_drop v v' ms i m m' :
  lock_inv v ms → ms !! i = Some m → lk m = true → lk m' = false →
  lock_inv v' (<[i := m']> ms).
Proof.
  intros [Hh Hu] Hi Hl Hl'. split.
  - intros j mj Hj Hlk. at_insert Hj; [congruence|]. by destruct (Hu j i mj m).
  - intros j k mj mk Hj Hk Hlj Hlk. at_insert Hj; at_insert Hk; [congruence..|by eapply Hu].
Qed.

(** ** The handshake *)

Lemma phase_step v v' ps i p p' :
  phase_inv v ps → ps !! i = Some p →
  (v_chan v' = true → v_sus v' = true) →
  phase_ok (v_chan v') (v_sus v') p' = true →
  (∀ q, phase_ok (v_chan v) (v_sus v) q = true → phases_ok p q = true →
        phases_ok q p = true →
        phase_ok (v_chan v') (v_sus v') q = true ∧ phases_ok p' q = true ∧
        phases_ok q p' = true) →
  phase_inv v' (<[i := p']> ps).
Proof.
  intros (_ & Ho & Hp) Hi Hcs Hp' Hall. split; [done|]. split.
  - intros j q Hj. at_insert Hj; [done|].
    apply Hall; [by eapply Ho|eapply (Hp i j); eauto|eapply (Hp j i); eauto].
  - intros j k q r Hjk Hj Hk. at_insert Hj; at_insert Hk; [done| | |by eapply (Hp j k)].
    + apply Hall; [by eapply Ho|eapply (Hp i k); eauto|eapply (Hp k i); eauto].
    + apply Hall; [by eapply Ho|eapply (Hp i j); eauto|eapply (Hp j i); eauto].
Qed.

Lemma phase_same v v' ms i m m' :
  phase_inv v (phase_of <$> ms) → ms !! i = Some m → phase_of m' = phase_of m →
  v_chan v' = v_chan v → v_sus v' = v_sus v →
  phase_inv v' (phase_of <$> <[i := m']> ms).
Proof.
  intros Hp Hi Hm Hc Hs. rewrite list_fmap_insert, Hm.
  rewrite list_insert_id by (by rewrite list_lookup_fmap, Hi).
  unfold phase_inv in *. by rewrite Hc, Hs.
Qed.

(** ** The debts *)

Lemma owed_app w ds1 ds2 : owed w (ds1 ++ ds2) = owed w ds1 + owed w ds2.
Proof. unfold owed. by rewrite filter_app, length_app. Qed.

Lemma owed_perm w ds1 ds2 : ds1 ≡ₚ ds2 → owed w ds1 = owed w ds2.
Proof. intros H. unfold owed. by rewrite H. Qed.

Lemma owed_cons w d ds : owed w (d :: ds) = (if decide (d.1 = w) then 1 else 0) + owed w ds.
Proof. unfold owed. rewrite filter_cons. by case_decide. Qed.

Lemma owed_replicate w n d : owed w (replicate n d) = if decide (d.1 = w) then n else 0.
Proof.
  induction n as [|n IH]; simpl; [by case_decide|]. rewrite owed_cons, IH. by case_decide.
Qed.

Lemma owed_none w ds : (∀ d, d ∈ ds → d.1 ≠ w) → owed w ds = 0.
Proof.
  induction ds as [|d ds IH]; [done|]. intros Hn. rewrite owed_cons.
  rewrite decide_False by (apply Hn; by left). apply IH. intros d' Hd'. apply Hn. by right.
Qed.

Lemma owed_some w d ds : d ∈ ds → d.1 = w → 0 < owed w ds.
Proof.
  intros Hd Hw. apply elem_of_Permutation in Hd as [rest Hd].
  rewrite (owed_perm w _ _ Hd), owed_cons, decide_True by done. lia.
Qed.

Lemma debt_perm v ds ds' : ds ≡ₚ ds' → debt_inv v ds → debt_inv v ds'.
Proof.
  intros Hd [Hw Hb]. split.
  - intros w n Hn. rewrite (Hw w n Hn). by apply owed_perm.
  - intros d. rewrite <-Hd. apply Hb.
Qed.

Lemma debts_insert ms i m :
  ms !! i = Some m →
  ∃ rest, all_debts ms ≡ₚ debts m ++ rest ∧
          ∀ m', all_debts (<[i := m']> ms) ≡ₚ debts m' ++ rest.
Proof.
  intros Hi. destruct (concat_insert (debts <$> ms) i (debts m)) as (rest & Hr & Hrest).
  { by rewrite list_lookup_fmap, Hi. }
  exists rest. split; [done|]. intros m'. unfold all_debts. by rewrite list_fmap_insert.
Qed.

Lemma debt_new v ds :
  debt_inv v ds →
  debt_inv (View (v_closed v) (v_wgs v ++ [0]) (v_fwdrs v) (v_next v) (v_mux v) (v_chan v)
              (v_sus v)) ds.
Proof.
  intros [Hw Hb]. split; simpl.
  - intros w n Hn. apply lookup_app_Some in Hn as [Hn|[Hl Hn]]; [by apply Hw|].
    apply list_lookup_singleton_Some in Hn as [Hwl <-].
    assert (w = length (v_wgs v)) as -> by lia. symmetry. apply owed_none.
    intros d Hd%Hb. lia.
  - intros d Hd%Hb. rewrite length_app. simpl. lia.
Qed.

Lemma debt_add v ds w n m d :
  debt_inv v ds → v_wgs v !! w = Some m → d.1 = w →
  debt_inv (View (v_closed v) (<[w := n + m]> (v_wgs v)) (v_fwdrs v) (v_next v) (v_mux v)
              (v_chan v) (v_sus v)) (replicate n d ++ ds).
Proof.
  intros [Hw Hb] Hm Hd. pose proof (lookup_lt_Some _ _ _ Hm) as Hl. split; simpl.
  - intros w' k Hk. rewrite owed_app, owed_replicate. at_insert Hk.
    + rewrite decide_True by done. by rewrite (Hw _ _ Hm).
    + rewrite decide_False by congruence. by apply Hw.
  - intros d' [Hd'|Hd'%Hb]%elem_of_app; rewrite length_insert; [|done].
    apply elem_of_replicate in Hd' as [-> _]. by rewrite Hd.
Qed.

Lemma debt_paid v ds w m d :
  debt_inv v (d :: ds) → v_wgs v !! w = Some m → d.1 = w →
  debt_inv (View (v_closed v) (<[w := pred m]> (v_wgs v)) (v_fwdrs v) (v_next v) (v_mux v)
              (v_chan v) (v_sus v)) ds.
Proof.
  intros [Hw Hb] Hm Hd. split; simpl.
  - intros w' k Hk. at_insert Hk.
    + rewrite (Hw _ _ Hm), owed_cons, decide_True by done. done.
    + rewrite (Hw _ _ Hk), owed_cons, decide_False by congruence. done.
  - intros d' Hd'. rewrite length_insert. apply Hb. by right.
Qed.

Lemma pay_spec kn w ds ds' :
  pay kn w ds = Some ds' →
  ∃ x, ds ≡ₚ (w, x) :: ds' ∧ ∀ f, x = Some f → f ∈ kn.
Proof.
  revert ds'. induction ds as [|[w' x] ds IH]; intros ds'; simpl; [done|].
  destruct (bool_decide (w' = w) && _) eqn:E.
  - intros [= <-]. apply andb_true_iff in E as [->%bool_decide_eq_true Hx].
    exists x. split; [done|]. intros f ->. by apply bool_decide_eq_true in Hx.
  - destruct (pay kn w ds) as [ds1|] eqn:Hp; simpl; [|done]. intros [= <-].
    destruct (IH _ eq_refl) as (y & Hy & Hf). exists y. split; [|done].
    rewrite Hy. constructor.
Qed.

(** ** The list *)

(** The view shows the same forwarders, and what was finished stays finished. *)
Definition later (v v' : view) : Prop :=
  length (v_closed v') = length (v_closed v) ∧ ∀ f, closed v f → closed v' f.

Lemma later_refl v v' : v_closed v' = v_closed v → later v v'.
Proof. unfold later, closed. by intros ->. Qed.

Lemma later_lookup v v' f b :
  later v v' → v_closed v' !! f = Some b →
  ∃ b0, v_closed v !! f = Some b0 ∧ (b0 = true → b = true).
Proof.
  intros [Hl Hc] Hf. pose proof (lookup_lt_Some _ _ _ Hf) as Hlt. rewrite Hl in Hlt.
  apply lookup_lt_is_Some in Hlt as [b0 Hb]. exists b0. split; [done|]. intros ->.
  apply Hc in Hb. unfold closed in Hb. congruence.
Qed.

Lemma list_same v v' ms i m m' :
  list_inv v ms → ms !! i = Some m → later v v' →
  v_fwdrs v' = v_fwdrs v → v_next v' = v_next v →
  (∀ f, f ∈ known m' → f ∈ known m ∨ closed v' f) →
  pairs m' ⊆ pairs m →
  (∀ f, part m = RRun (Some f) → part m' = RRun (Some f)) →
  list_inv v' (<[i := m']> ms).
Proof.
  intros (Hk & Hp & Hnd & Hlt & Hc) Hi Hv Hf Hn Hkn Hpr Hnew. unfold list_inv.
  rewrite Hf, Hn. split; [|split; [|split; [done|split; [done|]]]].
  - intros j mj f Hj Hin. at_insert Hj; [destruct (Hkn _ Hin) as [Hin'|]; [|done]|];
      apply Hv; by eapply Hk.
  - intros j mj e f Hj Hin. at_insert Hj; [by apply (Hp i m), Hpr|by apply (Hp j mj)].
  - intros f b Hb. destruct (later_lookup _ _ _ _ Hv Hb) as (b0 & Hb0 & Himp).
    destruct (Hc f b0 Hb0) as [->|[Hin|(j & mj & Hj & Hpart)]]; [by auto|by auto|].
    right; right. destruct (decide (j = i)) as [->|Hne].
    + exists i, m'. split; [|apply Hnew; congruence].
      apply list_lookup_insert_eq. by eapply lookup_lt_Some.
    + exists j, mj. by rewrite list_lookup_insert_ne.
Qed.

(** ** The closing *)

Lemma settled_mono v v' ds ds' w seen :
  later v v' →
  (∀ w f, (w, Some f) ∈ ds → closed v' f ∨ (w, Some f) ∈ ds') →
  settled v ds w seen → settled v' ds' w seen.
Proof. intros [_ Hc] Hd Hs f Hf. destruct (Hs f Hf) as [?|?%Hd]; auto. Qed.

Lemma closing_mono v v' ds ds' held c :
  later v v' → (held = true → v_fwdrs v' = v_fwdrs v) →
  (∀ w f, (w, Some f) ∈ ds → closed v' f ∨ (w, Some f) ∈ ds') →
  closing v ds held c → closing v' ds' held c.
Proof.
  intros Hv Hf Hd. pose proof (λ w seen, settled_mono v v' ds ds' w seen Hv Hd) as Hs.
  destruct c; simpl; [done|done|..].
  - intros (-> & Hl & Hset). rewrite Hf by done. auto.
  - intros (-> & Hl & Hset). rewrite Hf by done. auto.
  - intros (-> & Hl & Hset). rewrite Hf by done. auto.
  - intros [Hc Hset]. split; [|auto]. intros f b Hb.
    destruct (later_lookup _ _ _ _ Hv Hb) as (b0 & Hb0 & Himp).
    destruct (Hc _ _ Hb0); auto.
  - intros Hc f b Hb. destruct (later_lookup _ _ _ _ Hv Hb) as (b0 & Hb0 & Himp).
    by apply Himp, (Hc f).
Qed.

(** A step of the goroutine [i] that is not the migration, or leaves it where it is. *)
Lemma close_same v v' ms i m m' :
  close_inv v ms → ms !! i = Some m → later v v' →
  (∀ j mj, ms !! j = Some mj → lk mj = true → j = i ∨ v_fwdrs v' = v_fwdrs v) →
  (∀ w f, (w, Some f) ∈ all_debts ms →
          closed v' f ∨ (w, Some f) ∈ all_debts (<[i := m']> ms)) →
  (∀ c, part m' = RIn c → closing v' (all_debts (<[i := m']> ms)) (lk m') c) →
  close_inv v' (<[i := m']> ms).
Proof.
  intros Hc Hi Hv Hf Hd Hm' j mj c Hj Hp. at_insert Hj; [by apply Hm'|].
  eapply closing_mono; [exact Hv| |exact Hd|by eapply Hc].
  intros Hlk. by destruct (Hf _ _ Hj Hlk).
Qed.

(** ** The log *)

Lemma win_snoc log o : win_of (log ++ [o]) = win_step (win_of log) o.
Proof. unfold win_of. by rewrite foldl_app. Qed.

(** What the log does not see. *)
Definition unseen (log : list (obs fwdE)) (o : obs fwdE) : Prop :=
  opens_window o = false ∧
  (win_of log ≠ WOut → intrudes o = false ∧ ends_window o = false ∧ moves o = false).

Lemma win_unseen log o : unseen log o → win_of (log ++ [o]) = win_of log.
Proof.
  intros [Ho Hu]. rewrite win_snoc. unfold win_step. rewrite Ho.
  destruct (win_of log); try done; destruct Hu as (-> & -> & ->); done.
Qed.

Lemma log_same ms log o i m m' :
  log_inv ms log → ms !! i = Some m →
  unseen log o →
  (∀ c, part m = RIn c → ∃ c', part m' = RIn c' ∧ (c = CDone → c' = CDone)) →
  log_inv (<[i := m']> ms) (log ++ [o]).
Proof.
  intros Hl Hi Ho Hp. pose proof (lookup_lt_Some _ _ _ Hi) as Hlen.
  unfold log_inv in *. rewrite win_unseen by done.
  destruct (win_of log); [done| | |done].
  - destruct Hl as (j & mj & c & Hj & Hc). destruct (decide (j = i)) as [->|Hn].
    + simplify_eq. destruct (Hp _ Hc) as (c' & Hc' & _). exists i, m', c'.
      by rewrite list_lookup_insert_eq.
    + exists j, mj, c. by rewrite list_lookup_insert_ne.
  - destruct Hl as (j & mj & Hj & Hc). destruct (decide (j = i)) as [->|Hn].
    + simplify_eq. destruct (Hp _ Hc) as (c' & Hc' & Hd). exists i, m'.
      rewrite list_lookup_insert_eq by done. by rewrite Hc', Hd.
    + exists j, mj. by rewrite list_lookup_insert_ne.
Qed.

(** * Preservation, effect by effect *)

(** How far a migration has come does not change, but for the closing. *)
Definition same_part (r r' : role) : Prop :=
  r' = r ∨ ∃ c c', r = RIn c ∧ r' = RIn c' ∧ (c = CDone → c' = CDone).

Lemma same_part_phase m m' : same_part (part m) (part m') → phase_of m' = phase_of m.
Proof. unfold phase_of. by intros [->|(c & c' & -> & -> & _)]. Qed.

(** A step of [i] that keeps its part, the flags and the list. *)
Lemma window_local v v' log ms i m m' o :
  window_inv v log ms → ms !! i = Some m →
  lock_inv v' (<[i := m']> ms) →
  debt_inv v' (all_debts (<[i := m']> ms)) →
  v_chan v' = v_chan v → v_sus v' = v_sus v → v_fwdrs v' = v_fwdrs v → v_next v' = v_next v →
  later v v' → same_part (part m) (part m') →
  (∀ f, f ∈ known m' → f ∈ known m ∨ closed v' f) → pairs m' = pairs m →
  (∀ w f, (w, Some f) ∈ debts m → closed v' f ∨ (w, Some f) ∈ debts m') →
  (∀ c, part m' = RIn c → closing v' (all_debts (<[i := m']> ms)) (lk m') c) →
  unseen log o →
  window_inv v' (log ++ [o]) (<[i := m']> ms).
Proof.
  intros [Hlk Hph Hdb Hls Hcl Hlg] Hi Hlk' Hdb' Hch Hsu Hfw Hnx Hlt Hp Hkn Hpr Hd Hc Ho.
  split; [done| |done| | |].
  - by apply (phase_same v v' ms i m m'); [..|apply same_part_phase| |].
  - eapply list_same; [done..| | ]; [by rewrite Hpr|].
    intros f Hf. destruct Hp as [->|(c & c' & Hc1 & _)]; congruence.
  - eapply close_same; [done..|by intros; right| |done].
    intros w f Hw. destruct (debts_insert ms i m Hi) as (rest & Hr & Hrest).
    rewrite Hr in Hw. rewrite Hrest.
    apply elem_of_app in Hw as [Hw|Hw]; [destruct (Hd _ _ Hw); [by left|]|];
      right; apply elem_of_app; auto.
  - eapply log_same; [done..|]. intros c Hcm. destruct Hp as [->|(c1 & c2 & Hc1 & Hc2 & Hd2)].
    + eauto.
    + rewrite Hc1 in Hcm. injection Hcm as ->. by exists c2.
Qed.

Lemma debt_same v v' ms i m m' :
  debt_inv v (all_debts ms) → ms !! i = Some m → v_wgs v' = v_wgs v → debts m' = debts m →
  debt_inv v' (all_debts (<[i := m']> ms)).
Proof.
  intros [Hw Hb] Hi Hv Hd. destruct (debts_insert ms i m Hi) as (rest & Hr & Hrest).
  apply (debt_perm _ (all_debts ms)); [by rewrite Hr, Hrest, Hd|].
  split; rewrite Hv; [apply Hw|apply Hb].
Qed.

(** The closing of a migration goes on after a step that concerns its list or debts. *)
Lemma closing_same v v' ms i m m' c :
  close_inv v ms → ms !! i = Some m → part m = RIn c → lk m' = lk m →
  later v v' → v_fwdrs v' = v_fwdrs v →
  (∀ w f, (w, Some f) ∈ debts m → closed v' f ∨ (w, Some f) ∈ debts m') →
  closing v' (all_debts (<[i := m']> ms)) (lk m') c.
Proof.
  intros Hc Hi Hp Hlk Hv Hf Hd. rewrite Hlk.
  eapply closing_mono; [exact Hv|done| |by eapply Hc]. intros w f Hw.
  destruct (debts_insert ms i m Hi) as (rest & Hr & Hrest). rewrite Hr in Hw. rewrite Hrest.
  apply elem_of_app in Hw as [Hw|Hw]; [destruct (Hd _ _ Hw); [by left|]|];
    right; apply elem_of_app; auto.
Qed.

(** Another goroutine than [i] has a part that goes with that of [i]. *)
Lemma parts_ok v ms i j mi mj :
  phase_inv v (phase_of <$> ms) → i ≠ j → ms !! i = Some mi → ms !! j = Some mj →
  phases_ok (phase_of mi) (phase_of mj) = true.
Proof.
  intros (_ & _ & Hp) Hn Hi Hj. apply (Hp i j); [done|..]; by rewrite list_lookup_fmap, ?Hi, ?Hj.
Qed.

Lemma part_ok v ms i m :
  phase_inv v (phase_of <$> ms) → ms !! i = Some m →
  phase_ok (v_chan v) (v_sus v) (phase_of m) = true.
Proof. intros (_ & Hp & _) Hi. apply (Hp i). by rewrite list_lookup_fmap, Hi. Qed.

(** While the listener runs nobody is inside the window. *)
Lemma running_alone v ms i m :
  phase_inv v (phase_of <$> ms) → ms !! i = Some m → phase_of m = PRun →
  ∀ j mj c, ms !! j = Some mj → part mj ≠ RIn c.
Proof.
  intros Hp Hi Hm j mj c Hj Hc. destruct (decide (j = i)) as [->|Hn].
  - simplify_eq. unfold phase_of in Hm. by rewrite Hc in Hm.
  - pose proof (parts_ok _ _ _ _ _ _ Hp Hn Hj Hi) as Hok. rewrite Hm in Hok.
    unfold phase_of in Hok. by rewrite Hc in Hok.
Qed.

(** Inside the window nobody has a forwarder that is not in the list. *)
Lemma window_closed v ms i m c :
  phase_inv v (phase_of <$> ms) → list_inv v ms → ms !! i = Some m → part m = RIn c →
  ∀ f b, v_closed v !! f = Some b → b = true ∨ f ∈ (v_fwdrs v).*2.
Proof.
  intros Hp (_ & _ & _ & _ & Hc) Hi Hm f b Hf.
  destruct (Hc f b Hf) as [?|[?|(j & mj & Hj & Hpart)]]; [by auto..|].
  exfalso. eapply (running_alone v ms j mj); [done..| |exact Hi|exact Hm].
  unfold phase_of. by rewrite Hpart.
Qed.

Section effects.
Context (v : view) (log : list (obs fwdE)) (ms : list gst) (i : nat) (m : gst).
Hypothesis Hinv : window_inv v log ms.
Hypothesis Hi : ms !! i = Some m.

Lemma on_idle o : unseen log o → window_inv v (log ++ [o]) (<[i := m]> ms).
Proof.
  intros Ho. rewrite list_insert_id by done.
  destruct Hinv as [? ? ? ? ? Hlg]. split; [done..|].
  rewrite <-(list_insert_id ms i m Hi). eapply log_same; [done..|]. eauto.
Qed.

(** A forwarder is finished, or has been seen to be. *)
Lemma on_closed v' f o :
  later v v' → closed v' f → v_wgs v' = v_wgs v → v_fwdrs v' = v_fwdrs v →
  v_next v' = v_next v → v_mux v' = v_mux v → v_chan v' = v_chan v → v_sus v' = v_sus v →
  unseen log o → window_inv v' (log ++ [o]) (<[i := knowing f m]> ms).
Proof.
  intros Hv Hf Hw Hl Hn Hx Hc Hs Ho. pose proof Hinv as [Hlk Hph Hdb Hls Hcl Hlg].
  eapply window_local; try done.
  - by eapply lock_same.
  - by eapply debt_same.
  - by left.
  - intros f' [->|?]%elem_of_cons; auto.
  - auto.
  - intros c Hp. eapply (closing_same v v' ms i m (knowing f m)); try done. auto.
Qed.

Lemma on_lock :
  lk m = false → v_mux v = false →
  window_inv (View (v_closed v) (v_wgs v) (v_fwdrs v) (v_next v) true (v_chan v) (v_sus v))
    (log ++ [Obs SFwdrsLock tt]) (<[i := with_lk true m]> ms).
Proof.
  intros Hm Hx. pose proof Hinv as [Hlk Hph Hdb Hls Hcl Hlg].
  eapply window_local; try done.
  - by eapply lock_take.
  - by eapply debt_same.
  - by left.
  - auto.
  - auto.
  - intros c Hp. simpl in *. pose proof (Hcl i m c Hi Hp) as Hc. rewrite Hm in Hc.
    eapply (closing_mono v _ (all_debts ms) _ true); [done|done| |].
    + intros w f Hw. right. destruct (debts_insert ms i m Hi) as (rest & Hr & Hrest).
      by rewrite Hrest, <-Hr.
    + destruct c; try done; by destruct Hc.
Qed.

Lemma on_unlock b m' :
  window_step m (Obs SFwdrsUnlock b) = Some m' →
  window_inv (View (v_closed v) (v_wgs v) (v_fwdrs v) (v_next v) false (v_chan v) (v_sus v))
    (log ++ [Obs SFwdrsUnlock b]) (<[i := m']> ms).
Proof.
  intros Hst. simpl in Hst. pose proof Hinv as [Hlk Hph Hdb Hls Hcl Hlg].
  destruct (lk m) eqn:Hm; [|done].
  assert (m' = with_lk false m ∧ ∀ c, part m = RIn c → ∃ w seen, c = CAll w seen) as [-> Hall].
  { destruct (part m) as [| | | | | |[]| |]; naive_solver. }
  eapply window_local; try done.
  - by eapply lock_drop.
  - by eapply debt_same.
  - by left.
  - auto.
  - auto.
  - intros c Hp. simpl in *. destruct (Hall c Hp) as (w & seen & ->).
    eapply (closing_mono v _ (all_debts ms) _ false); [done|done| |by apply (Hcl i m (CAll w seen))].
    intros w' f Hw. right. destruct (debts_insert ms i m Hi) as (rest & Hr & Hrest).
    by rewrite Hrest, <-Hr.
Qed.

(** ** The wait groups *)

Lemma on_wg_new w m' :
  window_step m (Obs WNew w) = Some m' → w = length (v_wgs v) →
  window_inv (View (v_closed v) (v_wgs v ++ [0]) (v_fwdrs v) (v_next v) (v_mux v) (v_chan v)
                (v_sus v)) (log ++ [Obs WNew w]) (<[i := m']> ms).
Proof.
  intros Hst Hw. simpl in Hst. pose proof Hinv as [Hlk Hph Hdb Hls Hcl Hlg].
  assert (lk m' = lk m ∧ debts m' = debts m ∧ known m' = known m ∧ pairs m' = pairs m ∧
          same_part (part m) (part m') ∧ (∀ c, part m' = RIn c → c = CWg w))
    as (Hl' & Hd' & Hk' & Hp' & Hpart & Hc').
  { unfold same_part. destruct (part m) as [| | | | | |[]| |] eqn:Hp; try done;
      injection Hst as <-; simpl; repeat split; try done; try (by left); try congruence.
    right. eexists _, _. repeat split. done. }
  eapply window_local; try done.
  - by eapply lock_same.
  - apply debt_new. by eapply (debt_same v v).
  - intros f. rewrite Hk'. auto.
  - intros w' f. rewrite Hd'. auto.
  - intros c Hc. by rewrite (Hc' c Hc).
Qed.

Lemma on_wg_done w n b m' :
  window_step m (Obs (WDone w) b) = Some m' → v_wgs v !! w = Some n →
  window_inv (View (v_closed v) (<[w := pred n]> (v_wgs v)) (v_fwdrs v) (v_next v) (v_mux v)
                (v_chan v) (v_sus v)) (log ++ [Obs (WDone w) b]) (<[i := m']> ms).
Proof.
  intros Hst Hn. simpl in Hst. pose proof Hinv as [Hlk Hph Hdb Hls Hcl Hlg].
  destruct (pay (known m) w (debts m)) as [ds|] eqn:Hpay; [|done].
  injection Hst as <-. destruct (pay_spec _ _ _ _ Hpay) as (x & Hx & Hkn).
  assert (Hd : ∀ w' f, (w', Some f) ∈ debts m → closed v f ∨ (w', Some f) ∈ ds).
  { intros w' f Hin. rewrite Hx in Hin. apply elem_of_cons in Hin as [[= -> <-]|Hin]; [|by right].
    left. destruct Hls as (Hk & _). eapply (Hk i m); [done|]. by apply Hkn. }
  eapply window_local; try done.
  - by eapply lock_same.
  - destruct (debts_insert ms i m Hi) as (rest & Hr & Hrest).
    apply (debt_perm _ (ds ++ rest)); [by rewrite Hrest|].
    apply (debt_paid v (ds ++ rest) w n (w, x)); [|done..].
    eapply debt_perm; [|exact Hdb]. by rewrite Hr, Hx.
  - by left.
  - auto.
  - intros c Hp. by eapply (closing_same v _ ms i m (with_debts ds m)).
Qed.

Lemma on_wg_add w n k m' :
  window_step m (Obs (WAdd w n) tt) = Some m' → v_wgs v !! w = Some k →
  window_inv (View (v_closed v) (<[w := n + k]> (v_wgs v)) (v_fwdrs v) (v_next v) (v_mux v)
                (v_chan v) (v_sus v)) (log ++ [Obs (WAdd w n) tt]) (<[i := m']> ms).
Proof.
  intros Hst Hk. simpl in Hst. pose proof Hinv as [Hlk Hph Hdb Hls Hcl Hlg].
  destruct (debts_insert ms i m Hi) as (rest & Hr & Hrest).
  assert (∃ x, m' = with_part (part m') (with_debts (replicate n (w, x) ++ debts m) m) ∧
               same_part (part m) (part m') ∧
               ∀ c, part m' = RIn c → ∃ seen ef, x = Some ef.2 ∧
                 part m = RIn (CCur w seen ef) ∧ c = CAdded w seen ef ∧ n = 1)
    as (x & Hm' & Hpart & Hc').
  { destruct (part m) as [| | | | | |[]| |] eqn:Hp; try done;
      try (injection Hst as <-; exists None;
           split; [done|]; simpl; rewrite Hp; split; [by left|congruence]).
    destruct (decide _) as [[-> ->]|]; [|done]. injection Hst as <-. exists (Some ef.2).
    split; [done|]. split; [right; eexists _, _; by repeat split|]. simpl.
    intros c [= <-]. by eexists _, _. }
  assert (Hd : debts m' = replicate n (w, x) ++ debts m) by by rewrite Hm'.
  eapply window_local; try done.
  - eapply lock_same; try done. by rewrite Hm'.
  - apply (debt_perm _ (replicate n (w, x) ++ all_debts ms)).
    + rewrite Hrest, Hr, Hd. by rewrite <-app_assoc.
    + by apply debt_add.
  - intros f. rewrite Hm'. auto.
  - by rewrite Hm'.
  - intros w' f Hw. right. rewrite Hd. apply elem_of_app. by right.
  - intros c Hc. destruct (Hc' c Hc) as (seen & ef & -> & Hp & -> & ->).
    destruct (Hcl i m _ Hi Hp) as (Hheld & Hrst & Hset). rewrite Hm'. split; [done|].
    split; [done|]. intros f Hf. rewrite fmap_app in Hf.
    assert (Hall : all_debts (<[i := m']> ms) ≡ₚ (w, Some ef.2) :: all_debts ms).
    { by rewrite Hrest, Hr, Hd. }
    apply elem_of_app in Hf as [Hf|Hf].
    + destruct (Hset f Hf); [by left|]. right. rewrite <-Hm', Hall. by right.
    + apply list_elem_of_singleton in Hf as ->. right. rewrite <-Hm', Hall. by left.
Qed.

Lemma on_wg_wait w m' :
  window_step m (Obs (WWait w) tt) = Some m' → v_wgs v !! w = Some 0 →
  window_inv v (log ++ [Obs (WWait w) tt]) (<[i := m']> ms).
Proof.
  intros Hst Hw. simpl in Hst. pose proof Hinv as [Hlk Hph Hdb Hls Hcl Hlg].
  destruct (decide (m' = m)) as [->|Hne]; [by apply on_idle|].
  destruct (part m) as [| | | | | |[]| |] eqn:Hp; try congruence.
  destruct (decide _) as [[<- Hl]|]; [|done]. injection Hst as <-.
  eapply window_local; try done.
  - by eapply lock_same.
  - by eapply debt_same.
  - right. eexists _, _. rewrite Hp. by repeat split.
  - auto.
  - auto.
  - simpl. intros c [= <-] f b Hf. destruct (Hcl i m _ Hi Hp) as [Hall Hset].
    destruct (Hall f b Hf) as [?|Hin]; [done|]. destruct (Hset f Hin) as [Hcf|Hin'].
    + unfold closed in Hcf. congruence.
    + destruct Hdb as [Hd _]. pose proof (Hd _ _ Hw) as H0.
      pose proof (owed_some w _ _ Hin' eq_refl). lia.
Qed.

(** ** The list *)

Lemma next_of_app (seen rest : list (elem * fref)) e :
  NoDup (seen ++ rest).*1 → fst <$> list.last seen = Some e →
  next_of e (seen ++ rest) = list.head rest.
Proof.
  induction seen as [|[e1 f1] seen IH]; [done|]. intros Hnd Hl.
  assert (Hnd' : e1 ∉ (seen ++ rest).*1 ∧ NoDup (seen ++ rest).*1) by by apply NoDup_cons.
  destruct Hnd' as [Hn Hnd']. clear Hnd. destruct seen as [|ef2 seen].
  - simpl in *. injection Hl as ->. by rewrite decide_True.
  - rewrite last_cons_cons in Hl. change (next_of e ((e1, f1) :: (ef2 :: seen) ++ rest) =
      list.head rest). cbn [next_of]. rewrite decide_False; [by apply IH|]. intros ->. apply Hn.
    rewrite fmap_app. apply elem_of_app. left.
    destruct (list.last (ef2 :: seen)) as [ef|] eqn:Hlast; [|done]. injection Hl as <-.
    apply list_elem_of_fmap_2. by apply last_Some_elem_of.
Qed.

Lemma on_list m' o :
  m' = with_part (part m') m → same_part (part m) (part m') →
  (∀ c, part m' = RIn c → closing v (all_debts ms) (lk m) c) → unseen log o →
  window_inv v (log ++ [o]) (<[i := m']> ms).
Proof.
  intros Hm Hp Hc Ho. pose proof Hinv as [Hlk Hph Hdb Hls Hcl Hlg].
  eapply window_local; try done.
  - eapply lock_same; try done. by rewrite Hm.
  - eapply debt_same; try done. by rewrite Hm.
  - rewrite Hm. auto.
  - by rewrite Hm.
  - rewrite Hm. auto.
  - intros c Hpc. replace (lk m') with (lk m) by by rewrite Hm.
    eapply (closing_mono v v (all_debts ms)); [done|done| |by apply Hc].
    intros w f Hw. right. destruct (debts_insert ms i m Hi) as (rest & Hr & Hrest).
    rewrite Hrest. rewrite Hr in Hw. by rewrite Hm.
Qed.

Lemma on_front m' :
  window_step m (Obs SFront (list.head (v_fwdrs v))) = Some m' →
  window_inv v (log ++ [Obs SFront (list.head (v_fwdrs v))]) (<[i := m']> ms).
Proof.
  intros Hst. simpl in Hst. pose proof Hinv as [Hlk Hph Hdb Hls Hcl Hlg].
  destruct (decide (m' = m)) as [->|Hne]; [by apply on_idle|].
  destruct (part m) as [| | | | | |[]| |] eqn:Hp; try congruence.
  destruct (lk m) eqn:Hl; [|done]. injection Hst as <-. apply on_list; try done.
  - right. rewrite Hp. eexists _, _. by repeat split.
  - simpl. intros c [= <-]. rewrite Hl. destruct (v_fwdrs v) as [|ef rest] eqn:Hf; simpl.
    + split; [|by intros f ?%not_elem_of_nil].
      intros f b Hb. by destruct (window_closed v ms i m _ Hph Hls Hi Hp f b Hb) as [?|Hin];
        [left|rewrite Hf in Hin; right].
    + split; [done|]. split; [by eexists|]. by intros f ?%not_elem_of_nil.
Qed.

Lemma on_next e m' :
  window_step m (Obs (SNext e) (next_of e (v_fwdrs v))) = Some m' →
  window_inv v (log ++ [Obs (SNext e) (next_of e (v_fwdrs v))]) (<[i := m']> ms).
Proof.
  intros Hst. simpl in Hst. pose proof Hinv as [Hlk Hph Hdb Hls Hcl Hlg].
  destruct (decide (m' = m)) as [->|Hne]; [by apply on_idle|].
  destruct (part m) as [| | | | | |[]| |] eqn:Hp; try congruence.
  destruct (decide _) as [Hlast|]; [|done]. injection Hst as <-.
  destruct (Hcl i m _ Hi Hp) as (Hl & (rest & Hrest) & Hset).
  apply on_list; try done.
  - right. rewrite Hp. eexists _, _. by repeat split.
  - simpl. intros c [= <-]. rewrite Hrest at 1. rewrite (next_of_app seen rest e);
      [|destruct Hls as (_ & _ & Hnd & _); by rewrite <-Hrest|done].
    destruct rest as [|ef rest]; simpl.
    + rewrite app_nil_r in Hrest. split; [|done].
      intros f b Hb. rewrite <-Hrest. by apply (window_closed v ms i m (CIter w seen)).
    + split; [done|]. split; [by eexists|done].
Qed.

(** Nobody else holds the lock of the list. *)
Lemma only_holder : lk m = true → ∀ j mj, ms !! j = Some mj → lk mj = true → j = i.
Proof. intros Hm j mj Hj Hlk. destruct Hinv as [[_ Hu] _ _ _ _ _]. by apply (Hu j i mj m). Qed.

Lemma on_remove e m' :
  window_step m (Obs (SRemove e) tt) = Some m' →
  window_inv (View (v_closed v) (v_wgs v) (filter (λ ef, ef.1 ≠ e) (v_fwdrs v)) (v_next v)
                (v_mux v) (v_chan v) (v_sus v))
    (log ++ [Obs (SRemove e) tt]) (<[i := m']> ms).
Proof.
  intros Hst. simpl in Hst. destruct (decide _) as [(Hl & Hp & Hex)|]; [|done].
  injection Hst as <-. pose proof Hinv as [Hlk Hph Hdb Hls Hcl Hlg].
  pose proof (only_holder Hl) as Hown. rewrite list_insert_id by done.
  destruct (on_idle (Obs (SRemove e) tt) ltac:(done)) as [_ _ _ _ _ Hlg'].
  rewrite list_insert_id in Hlg' by done.
  split; [by split; apply Hlk|done|done| | |done].
  - destruct Hls as (Hk & Hpr & Hnd & Hlt & Hc). split; [exact Hk|]. split; [|split; [|split]].
    + intros j mj e' f Hj Hin. destruct (Hpr _ _ _ _ Hj Hin) as [He Hf]. split; [done|].
      intros f' Hin'. simpl in Hin'. apply list_elem_of_filter in Hin' as [_ ?]. by apply Hf.
    + simpl. eapply sublist_NoDup; [exact Hnd|]. apply fmap_sublist, sublist_filter.
    + intros e' f Hin. simpl in Hin. apply list_elem_of_filter in Hin as [_ ?]. by eapply Hlt.
    + simpl. intros f b Hb. destruct (Hc f b Hb) as [?|[Hin|?]]; [by auto| |by auto].
      apply list_elem_of_fmap in Hin as ([e' f'] & -> & Hin). simpl in *.
      destruct (decide (e' = e)) as [->|Hne].
      * left. apply Exists_exists in Hex as ([e1 f1] & Hin1 & Heq & Hk1). simpl in *. subst e1.
        destruct (Hpr _ _ _ _ Hi Hin1) as [_ Hf]. rewrite (Hf _ Hin) in *.
        specialize (Hk _ _ _ Hi Hk1). unfold closed in Hk. congruence.
      * right; left. apply list_elem_of_fmap. exists (e', f'). split; [done|].
        by apply list_elem_of_filter.
  - intros j mj c Hj Hpj. eapply (closing_mono v); [done| |by right|by apply (Hcl j mj c)].
    intros Hlj. rewrite (Hown _ _ Hj Hlj) in Hj. congruence.
Qed.

(** ** The handshake *)

Lemma on_part v' r o :
  v_closed v' = v_closed v → v_wgs v' = v_wgs v → v_fwdrs v' = v_fwdrs v →
  v_next v' = v_next v → v_mux v' = v_mux v →
  phase_inv v' (phase_of <$> <[i := with_part r m]> ms) →
  (∀ f, part m = RRun (Some f) → r = RRun (Some f)) →
  (∀ c, r = RIn c → c = CStart) →
  log_inv (<[i := with_part r m]> ms) (log ++ [o]) →
  window_inv v' (log ++ [o]) (<[i := with_part r m]> ms).
Proof.
  intros Hv Hw Hf Hn Hx Hp Hnew Hr Hl. pose proof Hinv as [Hlk Hph Hdb Hls Hcl Hlg].
  split; [|done| | | |done].
  - by eapply lock_same.
  - by eapply debt_same.
  - eapply list_same; try done; [by apply later_refl|by left].
  - eapply close_same; try done; [by apply later_refl|by right| |].
    + intros w f Hin. right. destruct (debts_insert ms i m Hi) as (rest & Hr1 & Hrest).
      by rewrite Hrest, <-Hr1.
    + simpl. intros c Hc. by rewrite (Hr c Hc).
Qed.

(** The phases after a step of [i], when the flags become [chan] and [sus]. *)
Lemma on_phases v' r :
  (v_chan v' = true → v_sus v' = true) →
  phase_ok (v_chan v') (v_sus v') (phase_of (with_part r m)) = true →
  (∀ q, phase_ok (v_chan v) (v_sus v) q = true → phases_ok (phase_of m) q = true →
        phases_ok q (phase_of m) = true →
        phase_ok (v_chan v') (v_sus v') q = true ∧
        phases_ok (phase_of (with_part r m)) q = true ∧
        phases_ok q (phase_of (with_part r m)) = true) →
  phase_inv v' (phase_of <$> <[i := with_part r m]> ms).
Proof.
  intros Hc Hr Hq. destruct Hinv as [_ Hph _ _ _ _]. rewrite list_fmap_insert.
  eapply phase_step; [exact Hph| |done..]. by rewrite list_lookup_fmap, Hi.
Qed.

Lemma log_unseen r o :
  unseen log o → (∀ c, part m ≠ RIn c) →
  log_inv (<[i := with_part r m]> ms) (log ++ [o]).
Proof.
  intros Ho Hn. destruct Hinv as [_ _ _ _ _ Hlg].
  eapply log_same; try done. intros c Hc. by destruct (Hn c).
Qed.

(** While a window is open the service is suspended and its channel is empty. *)
Lemma open_flags : win_of log ≠ WOut → v_sus v = true ∧ v_chan v = false.
Proof.
  intros Hw. destruct Hinv as [_ Hph _ _ _ Hlg].
  assert (∃ j mj, ms !! j = Some mj ∧ phase_of mj = PIn) as (j & mj & Hj & Hp).
  { unfold log_inv in Hlg. destruct (win_of log); try done; unfold phase_of.
    - destruct Hlg as (j & mj & c & Hj & Hc). exists j, mj. by rewrite Hc.
    - destruct Hlg as (j & mj & Hj & Hc). exists j, mj. by rewrite Hc. }
  pose proof (part_ok _ _ _ _ Hph Hj) as Hok. rewrite Hp in Hok.
  by destruct (v_sus v), (v_chan v).
Qed.

Lemma looked : unseen log (Obs SGetSuspended (v_sus v)).
Proof. split; [done|]. intros Hw. unfold intrudes. simpl. by destruct (open_flags Hw) as [-> _]. Qed.

Lemma on_suspended m' :
  window_step m (Obs SGetSuspended (v_sus v)) = Some m' →
  window_inv v (log ++ [Obs SGetSuspended (v_sus v)]) (<[i := m']> ms).
Proof.
  intros Hst. simpl in Hst. pose proof Hinv as [Hlk Hph Hdb Hls Hcl Hlg].
  destruct (decide (m' = m)) as [->|Hne]; [apply on_idle, looked|].
  pose proof looked as Hlook. pose proof (part_ok _ _ _ _ Hph Hi) as Hok. destruct Hph as [Hcs _].
  destruct (part m) as [|[]| | | | | | |] eqn:Hp; try congruence;
    destruct (v_sus v) eqn:Hs; try congruence; injection Hst as <-; (apply on_part; try done);
    try (apply log_unseen; [exact Hlook|congruence]); try congruence;
    apply on_phases; try done; unfold phase_of in *; simpl; rewrite Hp in *; simpl in *;
    rewrite ?Hs in *; try intros []; destruct (v_chan v); naive_solver.
Qed.

Lemma on_send m' :
  window_step m (Obs SSendSuspend tt) = Some m' → v_chan v = false →
  window_inv (View (v_closed v) (v_wgs v) (v_fwdrs v) (v_next v) (v_mux v) true (v_sus v))
    (log ++ [Obs SSendSuspend tt]) (<[i := m']> ms).
Proof.
  intros Hst Hc. simpl in Hst. pose proof Hinv as [Hlk Hph Hdb Hls Hcl Hlg].
  pose proof (part_ok _ _ _ _ Hph Hi) as Hok.
  destruct (part m) eqn:Hp; try done. injection Hst as <-. apply on_part; try done.
  - apply on_phases; unfold phase_of in *; simpl; rewrite Hp in *; simpl in *; [|done|].
    + destruct (v_sus v); done.
    + rewrite Hc in *. destruct (v_sus v); [|done]. intros []; naive_solver.
  - congruence.
  - apply log_unseen; [done|congruence].
Qed.

Lemma on_recv m' :
  window_step m (Obs SRecvSuspend tt) = Some m' → v_chan v = true →
  window_inv (View (v_closed v) (v_wgs v) (v_fwdrs v) (v_next v) (v_mux v) false (v_sus v))
    (log ++ [Obs SRecvSuspend tt]) (<[i := m']> ms).
Proof.
  intros Hst Hc. simpl in Hst. pose proof Hinv as [Hlk Hph Hdb Hls Hcl Hlg].
  destruct Hph as [Hcs _]. specialize (Hcs Hc).
  destruct (part m) eqn:Hp; try done. injection Hst as <-. apply on_part; try done.
  - apply on_phases; unfold phase_of in *; simpl; rewrite ?Hp in *; simpl in *; [done| |].
    + by rewrite Hcs.
    + rewrite Hc, Hcs. intros []; naive_solver.
  - congruence.
  - congruence.
  - pose proof (lookup_lt_Some _ _ _ Hi) as Hlen. unfold log_inv in *. rewrite win_snoc.
    assert (Hin : ∃ j mj c, <[i := with_part (RIn CStart) m]> ms !! j = Some mj ∧
                            part mj = RIn c).
    { exists i, (with_part (RIn CStart) m), CStart. by rewrite list_lookup_insert_eq. }
    destruct (decide (win_of log = WOut)) as [->|Hw]; [done|].
    apply open_flags in Hw as [_ Hw]. congruence.
Qed.

Lemma on_set_suspended b m' :
  window_step m (Obs (SSetSuspended b) tt) = Some m' →
  window_inv (View (v_closed v) (v_wgs v) (v_fwdrs v) (v_next v) (v_mux v) (v_chan v) b)
    (log ++ [Obs (SSetSuspended b) tt]) (<[i := m']> ms).
Proof.
  intros Hst. simpl in Hst. pose proof Hinv as [Hlk Hph Hdb Hls Hcl Hlg].
  pose proof (part_ok _ _ _ _ Hph Hi) as Hok.
  destruct (part m) eqn:Hp; try done; destruct b; try done; injection Hst as <-;
    (apply on_part; try done); try congruence.
  - apply on_phases; unfold phase_of in *; simpl; rewrite Hp in *; simpl in *; try done.
    destruct (v_chan v), (v_sus v); try done; intros []; naive_solver.
  - apply log_unseen; [done|congruence].
  - apply on_phases; unfold phase_of in *; simpl; rewrite Hp in *; simpl in *;
      destruct (v_chan v), (v_sus v); try done; intros []; naive_solver.
  - unfold log_inv in *. rewrite win_snoc. by destruct (win_of log).
Qed.

(** ** What the log sees *)

Lemma on_moved a m' :
  window_step m (Obs (SSetServerAddr a) tt) = Some m' →
  window_inv v (log ++ [Obs (SSetServerAddr a) tt]) (<[i := m']> ms).
Proof.
  intros Hst. simpl in Hst. destruct (part m) as [| | | | | |[]| |] eqn:Hp; try done.
  injection Hst as <-. rewrite list_insert_id by done.
  destruct Hinv as [Hlk Hph Hdb Hls Hcl Hlg]. split; [done..|].
  unfold log_inv in *. rewrite win_snoc. destruct (win_of log); simpl; eauto.
Qed.

(** Nobody is admitted inside a window. *)
Lemma log_admission m' o :
  phase_of m = PRun → phase_of m' = PRun → opens_window o = false →
  log_inv (<[i := m']> ms) (log ++ [o]).
Proof.
  intros Hm Hm' Ho. destruct Hinv as [_ Hph _ _ _ Hlg].
  pose proof (running_alone v ms i m Hph Hi Hm) as Hno.
  unfold log_inv in *. rewrite win_snoc. destruct (win_of log); simpl.
  - by rewrite Ho.
  - destruct Hlg as (j & mj & c & Hj & Hc). by destruct (Hno j mj c).
  - destruct Hlg as (j & mj & Hj & Hc). by destruct (Hno j mj CDone).
  - done.
Qed.

Lemma on_accept ln r m' :
  window_step m (Obs (NAcceptTCP ln) r) = Some m' →
  window_inv v (log ++ [Obs (NAcceptTCP ln) r]) (<[i := m']> ms).
Proof.
  intros Hst. simpl in Hst. destruct (part m) eqn:Hp; try done. injection Hst as <-.
  assert (Hl : log_inv (<[i := m]> ms) (log ++ [Obs (NAcceptTCP ln) r])).
  { apply log_admission; try done; unfold phase_of; by rewrite Hp. }
  rewrite list_insert_id in * by done. by destruct Hinv.
Qed.

Lemma on_new m' :
  window_step m (Obs FNew (length (v_closed v))) = Some m' →
  window_inv (set_closed (v_closed v ++ [false]) v) (log ++ [Obs FNew (length (v_closed v))])
    (<[i := m']> ms).
Proof.
  intros Hst. simpl in Hst. destruct (part m) as [|[]| | | | | | |] eqn:Hp; try done.
  injection Hst as <-. pose proof Hinv as [Hlk Hph Hdb Hls Hcl Hlg].
  assert (Hm : phase_of m = PRun) by (unfold phase_of; by rewrite Hp).
  split.
  - by eapply lock_same.
  - by eapply phase_same.
  - by eapply debt_same.
  - destruct Hls as (Hk & Hpr & Hnd & Hlt & Hc).
    assert (Hcm : ∀ f, closed v f → closed (set_closed (v_closed v ++ [false]) v) f).
    { intros f Hf. by apply lookup_app_l_Some. }
    split; [|split; [|split; [done|split; [done|]]]].
    + intros j mj f Hj Hin. apply Hcm. at_insert Hj; [by apply (Hk i m)|by apply (Hk j mj)].
    + intros j mj e f Hj Hin. at_insert Hj; [by apply (Hpr i m)|by apply (Hpr j mj)].
    + simpl. intros f b Hb. apply lookup_app_Some in Hb as [Hb|[Hl Hb]].
      * destruct (Hc f b Hb) as [?|[?|(j & mj & Hj & Hpj)]]; [by auto..|].
        exfalso. destruct (decide (j = i)) as [->|Hn]; [congruence|].
        pose proof (parts_ok _ _ _ _ _ _ Hph Hn Hj Hi) as Hok. unfold phase_of in Hok.
        by rewrite Hpj, Hp in Hok.
      * right; right. apply list_lookup_singleton_Some in Hb as [Hb _].
        eexists i, _. rewrite list_lookup_insert_eq by (by eapply lookup_lt_Some).
        split; [done|]. simpl. do 2 f_equal. lia.
  - intros j mj c Hj Hc. exfalso. at_insert Hj; [done|].
    by eapply (running_alone v ms i m).
  - by apply log_admission.
Qed.

Lemma on_push f m' :
  window_step m (Obs (SPushBack f) (v_next v)) = Some m' →
  window_inv (View (v_closed v) (v_wgs v) (v_fwdrs v ++ [(v_next v, f)]) (S (v_next v))
                (v_mux v) (v_chan v) (v_sus v))
    (log ++ [Obs (SPushBack f) (v_next v)]) (<[i := m']> ms).
Proof.
  intros Hst. simpl in Hst. destruct (part m) as [|[f'|]| | | | | | |] eqn:Hp; try done.
  destruct (decide _) as [[<- Hl]|]; [|done].
  injection Hst as <-. pose proof Hinv as [Hlk Hph Hdb Hls Hcl Hlg].
  assert (Hm : phase_of m = PRun) by (unfold phase_of; by rewrite Hp).
  split.
  - by eapply lock_same.
  - by eapply phase_same.
  - by eapply debt_same.
  - destruct Hls as (Hk & Hpr & Hnd & Hlt & Hc).
    assert (Hold : ∀ e g, e < v_next v ∧ (∀ g', (e, g') ∈ v_fwdrs v → g' = g) →
      e < S (v_next v) ∧ (∀ g', (e, g') ∈ v_fwdrs v ++ [(v_next v, f)] → g' = g)).
    { intros e g [He Hg]. split; [lia|]. intros g' [?|Hin]%elem_of_app; [by apply Hg|].
      apply list_elem_of_singleton in Hin as [= -> ->]. lia. }
    split; [|split; [|split; [|split]]]; simpl.
    + intros j mj g Hj Hin. at_insert Hj; [by apply (Hk i m)|by apply (Hk j mj)].
    + intros j mj e g Hj Hin. at_insert Hj; [|by apply Hold, (Hpr j mj)].
      simpl in Hin. apply elem_of_cons in Hin as [[= -> ->]|Hin]; [|by apply Hold, (Hpr i m)].
      split; [lia|]. intros g' [Hin|Hin]%elem_of_app; [by apply Hlt in Hin; lia|].
      by apply list_elem_of_singleton in Hin as [= ->].
    + rewrite fmap_app. apply NoDup_app. split; [done|]. split; [|apply NoDup_singleton].
      intros e He Hin. apply list_elem_of_singleton in Hin as ->.
      apply list_elem_of_fmap in He as ([e1 g1] & Heq & Hin1). apply Hlt in Hin1.
      simpl in *. lia.
    + intros e g [Hin|Hin]%elem_of_app; [by apply Hlt in Hin; lia|].
      apply list_elem_of_singleton in Hin as [= -> ->]. lia.
    + intros g b Hb. rewrite fmap_app. destruct (Hc g b Hb) as [?|[?|(j & mj & Hj & Hpj)]];
        [by auto|right; left; apply elem_of_app; by left|].
      destruct (decide (j = i)) as [->|Hn].
      * simplify_eq. rewrite Hp in Hpj. injection Hpj as <-. right; left.
        apply elem_of_app. right. by left.
      * exfalso. pose proof (parts_ok _ _ _ _ _ _ Hph Hn Hj Hi) as Hok. unfold phase_of in Hok.
        by rewrite Hpj, Hp in Hok.
  - intros j mj c Hj Hc. exfalso. at_insert Hj; [done|].
    by eapply (running_alone v ms i m).
  - by apply log_admission.
Qed.

End effects.

Lemma window_step_ok v v' log ms i m m' o :
  window_inv v log ms → ms !! i = Some m → view_step v o v' → window_step m o = Some m' →
  window_inv v' (log ++ [o]) (<[i := m']> ms).
Proof.
  intros Hinv Hi Hv Hst. destruct o as [X e x].
  destruct e; simpl in Hv;
    try (simpl in Hst; injection Hst as <-; subst v'; by apply on_idle).
  - destruct Hv as [-> ->]. by eapply on_new.
  - destruct Hv as [Hlt ->]. simpl in Hst. injection Hst as <-. eapply on_closed; try done.
    + split; simpl; [by rewrite length_insert|]. unfold closed. simpl. intros g Hg.
      destruct (decide (f = g)) as [->|Hn]; [by rewrite list_lookup_insert_eq|].
      by rewrite list_lookup_insert_ne.
    + unfold closed. simpl. by rewrite list_lookup_insert_eq.
  - destruct Hv as [Hcl ->]. simpl in Hst. injection Hst as <-. by eapply on_closed.
  - destruct Hv as [-> ->]. by eapply on_wg_new.
  - destruct Hv as (k & Hk & ->). destruct x. by eapply on_wg_add.
  - destruct Hv as (k & Hk & ->). by eapply on_wg_done.
  - destruct Hv as [Hw ->]. destruct x. by eapply on_wg_wait.
  - subst v'. by eapply on_accept.
  - destruct Hv as [-> ->]. by eapply on_suspended.
  - subst v'. destruct x. by eapply on_set_suspended.
  - destruct Hv as [Hc ->]. destruct x. by eapply on_send.
  - destruct Hv as [Hc ->]. destruct x. by eapply on_recv.
  - subst v'. destruct x. by eapply on_moved.
  - destruct Hv as [Hx ->]. destruct x. simpl in Hst. destruct (lk m) eqn:Hl; [done|].
    injection Hst as <-. by eapply on_lock.
  - subst v'. by eapply on_unlock.
  - destruct Hv as [-> ->]. by eapply on_push.
  - subst v'. destruct x. by eapply on_remove.
  - destruct Hv as [-> ->]. by eapply on_front.
  - destruct Hv as [-> ->]. by eapply on_next.
Qed.

(** What a goroutine may rely on. *)
Lemma window_legal_ok v v' log ms i m o :
  window_inv v log ms → ms !! i = Some m → view_step v o v' → window_legal m o.
Proof.
  intros [_ Hph _ _ _ _] Hi Hv. pose proof (part_ok _ _ _ _ Hph Hi) as Hok.
  destruct o as [X e x]. destruct e; simpl in *; try done. destruct Hv as [-> _].
  unfold phase_of in Hok. destruct (part m); simpl in Hok; try done.
  by apply andb_true_iff in Hok as [? _].
Qed.

(** ** The [go] statement: the new goroutine takes its share *)

Section split.
Context (v : view) (log : list (obs fwdE)) (ms : list gst) (i : nat) (m mc mk : gst).
Hypothesis Hinv : window_inv v log ms.
Hypothesis Hi : ms !! i = Some m.
Hypothesis Hsplit : window_split m mc mk.

Lemma split_cases j mj :
  (<[i := mk]> ms ++ [mc]) !! j = Some mj →
  (j = i ∧ mj = mk) ∨ (j = length ms ∧ mj = mc) ∨ (j ≠ i ∧ ms !! j = Some mj).
Proof.
  intros Hj. apply lookup_app_Some in Hj as [Hj|[Hl Hj]]; [at_insert Hj; auto|].
  rewrite length_insert in *. apply list_lookup_singleton_Some in Hj as [Hj <-].
  right; left. split; [lia|done].
Qed.

Lemma split_old j mj : j ≠ i → ms !! j = Some mj → (<[i := mk]> ms ++ [mc]) !! j = Some mj.
Proof. intros Hn Hj. apply lookup_app_l_Some. by rewrite list_lookup_insert_ne. Qed.

Lemma split_new : (<[i := mk]> ms ++ [mc]) !! i = Some mk.
Proof.
  apply lookup_app_l_Some, list_lookup_insert_eq. by eapply lookup_lt_Some.
Qed.

Lemma split_debts : all_debts (<[i := mk]> ms ++ [mc]) ≡ₚ all_debts ms.
Proof.
  destruct Hsplit as (Hd & _). destruct (debts_insert ms i m Hi) as (rest & Hr & Hrest).
  unfold all_debts in *. rewrite fmap_app, concat_app, Hrest, Hr, Hd. simpl.
  rewrite app_nil_r. solve_Permutation.
Qed.

Lemma split_lock : lock_inv v (<[i := mk]> ms ++ [mc]).
Proof.
  destruct Hinv as [[Hh Hu] _ _ _ _ _], Hsplit as (_ & Hlc & Hlk & _). split.
  - intros j mj [[-> ->]|[[-> ->]|[_ Hj]]]%split_cases Hl; [|congruence|by eapply Hh].
    apply (Hh i m); congruence.
  - intros j k mj mk' [[-> ->]|[[-> ->]|[Hnj Hj]]]%split_cases
      [[-> ->]|[[-> ->]|[Hnk Hk]]]%split_cases Hlj Hlk'; try congruence; try done.
    + apply (Hu i k m mk'); congruence.
    + apply (Hu j i mj m); congruence.
    + by apply (Hu j k mj mk').
Qed.

Lemma split_phase : phase_inv v (phase_of <$> (<[i := mk]> ms ++ [mc])).
Proof.
  pose proof Hinv as [_ Hph _ _ _ _]. destruct Hsplit as (_ & _ & _ & _ & _ & _ & _ & Hst).
  assert (Hparts : phase_of mc = PTask ∧ phase_of mk = phase_of m ∨
                   phase_of m = PServe ∧ phase_of mc = PRun ∧ phase_of mk = PTask).
  { unfold phase_of. by inversion Hst; auto. }
  pose proof (part_ok _ _ _ _ Hph Hi) as Hoki.
  assert (Hother : ∀ j mj, j ≠ i → ms !! j = Some mj →
    phase_ok (v_chan v) (v_sus v) (phase_of mj) = true ∧
    phases_ok (phase_of m) (phase_of mj) = true ∧ phases_ok (phase_of mj) (phase_of m) = true).
  { intros j mj Hn Hj. split; [by eapply part_ok|].
    split; [by apply (parts_ok v ms i j)|by apply (parts_ok v ms j i)]. }
  destruct Hph as [Hcs _]. split; [done|]. split.
  - intros j p Hj. rewrite list_lookup_fmap in Hj.
    destruct ((<[i := mk]> ms ++ [mc]) !! j) as [mj|] eqn:E; [|done]. injection Hj as <-.
    apply split_cases in E as [[-> ->]|[[-> ->]|[Hn Hj]]]; [..|by apply (Hother j)].
    + destruct Hparts as [[_ ->]|(_ & _ & ->)]; done.
    + destruct Hparts as [[-> _]|(Hm & -> & _)]; [done|]. by rewrite Hm in Hoki.
  - intros j k p q Hjk Hj Hk. rewrite list_lookup_fmap in Hj, Hk.
    destruct ((<[i := mk]> ms ++ [mc]) !! j) as [mj|] eqn:Ej; [|done]. injection Hj as <-.
    destruct ((<[i := mk]> ms ++ [mc]) !! k) as [mk'|] eqn:Ek; [|done]. injection Hk as <-.
    apply split_cases in Ej as [[-> ->]|[[-> ->]|[Hnj Hj]]];
      apply split_cases in Ek as [[-> ->]|[[-> ->]|[Hnk Hk]]]; try done;
      try (pose proof (Hother _ _ Hnj Hj)); try (pose proof (Hother _ _ Hnk Hk));
      try (apply (parts_ok v ms j k mj mk'); [apply Hinv|done..]);
      destruct Hparts as [[Hc1 Hk1]|(Hm1 & Hc1 & Hk1)]; rewrite ?Hc1, ?Hk1, ?Hm1 in *;
      inv_all; try done; try (by destruct (phase_of mj)); try (by destruct (phase_of mk')).
    by destruct (phase_of m).
Qed.

Lemma split_list : list_inv v (<[i := mk]> ms ++ [mc]).
Proof.
  destruct Hinv as [_ Hph _ (Hk & Hpr & Hnd & Hlt & Hc) _ _].
  destruct Hsplit as (_ & _ & _ & Hkc & Hkk & Hpc & Hpk & Hst).
  split; [|split; [|split; [done|split; [done|]]]].
  - intros j mj f [[-> ->]|[[-> ->]|[_ Hj]]]%split_cases Hin; [| |by eapply Hk];
      apply (Hk i m); auto.
  - intros j mj e f [[-> ->]|[[-> ->]|[_ Hj]]]%split_cases Hin; [| |by eapply Hpr];
      apply (Hpr i m); auto.
  - intros f b Hb. destruct (Hc f b Hb) as [?|[?|(j & mj & Hj & Hpj)]]; [by auto..|].
    right; right. destruct (decide (j = i)) as [->|Hn].
    + exists i, mk. split; [apply split_new|]. simplify_eq.
      inversion Hst; congruence.
    + exists j, mj. split; [by apply split_old|done].
Qed.

Lemma split_close : close_inv v (<[i := mk]> ms ++ [mc]).
Proof.
  destruct Hinv as [_ _ _ _ Hcl _]. destruct Hsplit as (_ & _ & Hlk & _ & _ & _ & _ & Hst).
  intros j mj c Hj Hp. eapply (closing_mono v v (all_debts ms)); [done|done| |].
  { intros w f Hw. right. by rewrite split_debts. }
  apply split_cases in Hj as [[-> ->]|[[-> ->]|[_ Hj]]]; [| |by eapply Hcl].
  - rewrite Hlk. inversion Hst as [r Hr Heq|Heq|Heq|w seen ef Heq]; [|congruence..|].
    + apply (Hcl i m); [done|]. congruence.
    + rewrite Hp in *. assert (c = CIter w (seen ++ [ef])) as -> by congruence.
      destruct (Hcl i m _ Hi (eq_sym Heq)) as (Hl & (rest & Hrest) & Hset).
      split; [done|]. split; [|done]. exists rest. by rewrite <-app_assoc.
  - exfalso. inversion Hst; congruence.
Qed.

Lemma split_log : log_inv (<[i := mk]> ms ++ [mc]) log.
Proof.
  destruct Hinv as [_ _ _ _ _ Hlg]. destruct Hsplit as (_ & _ & _ & _ & _ & _ & _ & Hst).
  assert (Hmk : ∀ c, part m = RIn c → ∃ c', part mk = RIn c' ∧ (c = CDone → c' = CDone)).
  { intros c Hc. inversion Hst as [r Hr Heq|Heq|Heq|w seen ef Heq]; try congruence.
    - exists c. split; [congruence|done].
    - eexists. split; [done|]. congruence. }
  unfold log_inv in *. destruct (win_of log); [done| | |done].
  - destruct Hlg as (j & mj & c & Hj & Hc). destruct (decide (j = i)) as [->|Hn].
    + simplify_eq. destruct (Hmk _ Hc) as (c' & Hc' & _). exists i, mk, c'.
      split; [apply split_new|done].
    + exists j, mj, c. split; [by apply split_old|done].
  - destruct Hlg as (j & mj & Hj & Hc). destruct (decide (j = i)) as [->|Hn].
    + simplify_eq. destruct (Hmk _ Hc) as (c' & Hc' & Hd). exists i, mk.
      split; [apply split_new|]. by rewrite Hc', Hd.
    + exists j, mj. split; [by apply split_old|done].
Qed.

Lemma window_split_ok : window_inv v log (<[i := mk]> ms ++ [mc]).
Proof.
  split; [apply split_lock|apply split_phase| |apply split_list|apply split_close|
          apply split_log].
  destruct Hinv. eapply debt_perm; [symmetry; apply split_debts|done].
Qed.

End split.
