(* ===== verification/FwdMove.v ===== *)
(** The goroutines of a forwarding service and of a migration keep to the rules of the
    window, and what follows from it. *)
From S2P Require Import Prelude Go Errors Sys Kube FwdSys Fwd FwdSvc FwdWindow.
#[local] Open Scope go_scope.

(** * Soundness for a pool *)

(** The shared memory, together with the effects of all goroutines in their order. *)
Definition logged (s : fmem * list (obs fwdE)) (o : obs fwdE)
    (s' : fmem * list (obs fwdE)) : Prop :=
  fwd_sem s.1 o s'.1 ∧ s'.2 = s.2 ++ [o].

Definition compat (s : fmem * list (obs fwdE)) (ms : list gst) : Prop :=
  window_inv (view_of s.1) s.2 ms.

Lemma compat_legal s ms i m o s' :
  compat s ms → ms !! i = Some m → logged s o s' → window_legal m o.
Proof. intros Hc Hi [Hs _]. eapply window_legal_ok; [done..|by apply fwd_sem_view]. Qed.

Lemma compat_step s ms i m o s' m' :
  compat s ms → ms !! i = Some m → logged s o s' → window_step m o = Some m' →
  compat s' (<[i := m']> ms).
Proof.
  intros Hc Hi [Hs Hl] Hst. unfold compat in *. rewrite Hl.
  eapply window_step_ok; [done..|by apply fwd_sem_view|done].
Qed.

(** * Programs *)

(** Effects the rules say nothing about. *)
Definition blind (o : obs fwdE) : Prop := ∀ m, window_step m o = Some m.

Definition bystander {A : Type} (p : prog fwdE A) : Prop :=
  everywhere blind (λ msg, ¬ must_be_suspended msg) p.

(** Decides that a message is none of those. *)
Ltac sober := unfold must_be_suspended; apply (bool_decide_unpack _); vm_compute; exact I.

Definition no_debt_open (m : gst) : Prop := ∀ w seen ef, part m ≠ RIn (CAdded w seen ef).

Lemma split_task m ds ds' :
  debts m ≡ₚ ds ++ ds' → no_debt_open m →
  window_split m (G RTask false ds [] []) (with_debts ds' m).
Proof. intros Hd Hn. repeat split; try done; try set_solver. by constructor. Qed.

Lemma respects_blind strict {A} (p : prog fwdE A) m (Q : gst → A → Prop) :
  bystander p → no_debt_open m → (∀ a, Q m a) → respects (window_mon strict) p m Q.
Proof.
  apply (respects_idle _ (G RTask false [] [] []) no_debt_open); try done.
  - intros [r l ds kn pr] Hn. by apply (split_task (G r l ds kn pr) []).
  - by intros m' msg Hmsg _.
Qed.

Create HintDb blind.

Ltac fwd_unfold :=
  unfold fLogErrorE, fLogWarn, fLogInfo, must, warned, mux_unlock, wg_done, on_conn, defer,
    defer_on, writeFailed, cond_unlock, fwdrs_unlock.

(** Proves [bystander p]. *)
Ltac solve_blind :=
  repeat (
    fwd_unfold;
    cbn [bystander everywhere bind call go loop fst snd];
    match goal with
    | |- True => exact I
    | |- ∀ _, _ => intro
    | |- ?A ∧ ?B => split
    | |- blind _ => intro; reflexivity
    | |- ¬ must_be_suspended _ => sober
    | |- bystander _ => solve [eauto with blind nocore]
    | |- everywhere _ _ ?p => change (bystander p)
    | |- bystander (bind _ _) => apply everywhere_bind
    | |- bystander (match ?x with _ => _ end) => destruct x
    end).

Section programs.
Context `{PkgErrors}.

Lemma blind_closeUpstream p : bystander (closeUpstream p).
Proof. unfold closeUpstream. solve_blind. Qed.

Lemma blind_closeDownstream p : bystander (closeDownstream p).
Proof. unfold closeDownstream. solve_blind. Qed.

Lemma blind_SetDataRate p n : bystander (SetDataRate p n).
Proof. unfold SetDataRate. solve_blind. Qed.

Lemma blind_upstreamStep p c1 c2 : bystander (upstreamStep p c1 c2).
Proof. unfold upstreamStep. solve_blind. Qed.

Lemma blind_downstreamStep c1 c2 : bystander (downstreamStep c1 c2).
Proof. unfold downstreamStep. solve_blind. Qed.

Lemma blind_dialTCP g n a : bystander (dialTCP g n a).
Proof. unfold dialTCP. solve_blind. Qed.

Lemma blind_closer ln : bystander (closer ln).
Proof. unfold closer. solve_blind. Qed.

Lemma blind_CloseSvc : bystander CloseSvc.
Proof. unfold CloseSvc. solve_blind. Qed.

Lemma blind_cond_wait : bystander cond_wait.
Proof. unfold cond_wait. solve_blind. Qed.

Lemma blind_deadline ln :
  bystander (warned (call (NLnSetDeadline ln FwdSvc_LnTimeoutDuration))
               "[Fwdsvc] ln.SetDeadline: ").
Proof. solve_blind. Qed.
End programs.

#[export] Hint Resolve blind_closeUpstream blind_closeDownstream blind_SetDataRate
  blind_upstreamStep blind_downstreamStep blind_dialTCP blind_closer blind_CloseSvc
  blind_cond_wait blind_deadline : blind.

(** One step under the rules, and as many as there are. *)
Ltac window_step1 :=
  match goal with
  | H : ?x = true |- _ => is_var x; subst x
  | |- True => exact I
  | |- _ → ¬ must_be_suspended _ => intros _; sober
  | |- ∀ _, _ => intro
  | |- no_debt_open _ => intros ? ? ?; discriminate
  | |- respects _ (bind _ _) _ _ =>
      apply respects_bind, respects_blind; [solve [eauto with blind nocore]| |]
  | |- respects _ (bind (bind _ _) _) _ _ => apply respects_bind
  | |- respects _ (bind (match ?x with _ => _ end) _) _ _ => destruct x eqn:?
  | |- respects _ (match ?x with _ => _ end) _ _ => destruct x eqn:?
  | |- context [bool_decide (?x = ?x)] => rewrite (bool_decide_eq_true_2 (x = x)) by reflexivity
  | |- context [decide (?x = ?x ∧ ?y = ?y)] =>
      rewrite (decide_True (P := x = x ∧ y = y)) by (split; reflexivity)
  | |- respects _ _ _ _ =>
      apply respects_blind; [solve [eauto with blind nocore]| |]
  end.

Ltac window :=
  repeat (
    fwd_unfold;
    cbn [respects bind call go loop mon_step mon_legal mon_split mon_final mon_panic window_mon
         window_step window_legal part lk debts known pairs with_part with_lk with_debts knowing fst snd
         negb andb pay from_option mbind option_bind];
    try window_step1).

(** A [go] statement of a goroutine that gives its first debt away. *)
Ltac window_go :=
  match goal with
  | |- ∃ mc mk, window_split ?m mc mk ∧ _ =>
      let ds := eval cbn in (debts m) in
      match ds with
      | ?d :: ?ds' =>
          exists (G RTask false [d] [] []), (with_debts ds' m);
          split; [apply split_task; [reflexivity|intros ? ? ?; discriminate]|split]
      end
  end.

Section members.
Context `{PkgErrors} (strict : bool).

Abbreviation mon := (window_mon strict).

Lemma window_upstream p c1 c2 w kn pr :
  respects mon (upstream p c1 c2 (Some w)) (G RTask false [(w, None)] kn pr)
    (λ _ _, True).
Proof.
  unfold upstream. window;
    (exists (λ _ m, m = G RTask false [(w, None)] kn pr); split; [done|]; intros [] m ->;
     apply respects_blind; [apply blind_upstreamStep|done|]; intros [[]|[]]; [done|by window]).
Qed.

Lemma window_downstream p c1 c2 w kn pr :
  respects mon (downstream p c1 c2 (Some w)) (G RTask false [(w, None)] kn pr)
    (λ _ _, True).
Proof.
  unfold downstream. window;
    (exists (λ _ m, m = G RTask false [(w, None)] kn pr); split; [done|]; intros [] m ->;
     apply respects_blind; [apply blind_downstreamStep|done|]; intros [[]|[]]; [done|by window]).
Qed.

Lemma window_Accept g f n a c kn pr :
  respects mon (Accept g f n a c) (G RTask false [] kn pr)
    (λ m _, m = G RTask false [] (f :: kn) pr).
Proof.
  unfold Accept. window; try done;
    (window_go; [apply window_upstream|]; window; window_go; [apply window_downstream|];
     window; done).
Qed.

Lemma window_serveClient g n f e c :
  respects mon (serveClient g n f e c) (G RTask false [] [] [(e, f)]) (λ _ _, True).
Proof.
  unfold serveClient. window. apply respects_bind.
  eapply respects_mono; [apply window_Accept|]. intros m' [] ->. window.
  rewrite decide_True; [by window|]. split; [done|]. split; [done|].
  apply Exists_cons_hd. split; [done|by left].
Qed.

Abbreviation at_accept := (G (RRun None) false [] [] []).

Lemma window_admitClient g n c :
  respects mon (admitClient g n c) at_accept (λ m _, m = at_accept).
Proof.
  unfold admitClient, NewForwarder. window.
  match goal with
  | |- context [G _ _ _ _ [?ef]] => exists (G RTask false [] [] [ef]), at_accept
  end.
  split; [|split; [apply window_serveClient|done]].
  repeat split; try done; try set_solver. by constructor.
Qed.

Lemma window_awaitResume : respects mon awaitResume at_accept (λ m _, m = at_accept).
Proof.
  unfold awaitResume. window; [|done].
  exists (λ _ m, m = G RPark1 false [] [] []). split; [done|]. intros [] m ->. by window.
Qed.

Lemma window_listen g n ln :
  respects mon (listen g n ln) at_accept (λ _ _, True).
Proof.
  unfold listen. exists (λ _ m, m = at_accept). split; [done|]. intros [] m ->.
  apply respects_bind. eapply respects_mono; [apply window_awaitResume|]. intros m [] ->.
  window; try done; apply respects_bind;
    (eapply respects_mono; [apply window_admitClient|]; by intros m' [] ->).
Qed.

Lemma window_serve g n ln :
  respects mon (serve g n ln) (G RServe false [] [] []) (λ m _, m = G RIdle false [] [] []).
Proof.
  unfold serve, go. cbn [bind respects]. exists (G RTask false [] [] []), (G RServe false [] [] []).
  split; [repeat split; try done; by constructor|]. split.
  - apply respects_blind; [apply blind_closer|done|done].
  - exists at_accept, (G RIdle false [] [] []).
    split; [repeat split; try done; by constructor|]. split; [apply window_listen|done].
Qed.

Lemma window_Close w f :
  respects mon (defer (wg_done w) (Close f)) (G RTask false [(w, Some f)] [] [])
    (λ _ _, True).
Proof.
  unfold Close. window. rewrite (bool_decide_eq_true_2 (f ∈ [f])) by (by left). by window.
Qed.

(** The loop of [CloseAllForwarders]: inside the lock, at an entry of the list or past it. *)
Definition closing_at (w : wgref) (e : option (elem * fref)) (m : gst) : Prop :=
  ∃ seen, m = G (RIn match e with Some ef => CCur w seen ef | None => CAll w seen end)
                true [] [] [].

Lemma window_CloseAll :
  respects mon CloseAllForwarders (G (RIn CStart) false [] [] [])
    (λ m _, m = G (RIn CDone) false [] [] []).
Proof.
  unfold CloseAllForwarders. window.
  match goal with w : wgref, e : option (elem * fref) |- _ =>
    exists (closing_at w); split; [exists []; by destruct e|] end.
  intros e m (seen & ->). destruct e as [[e f]|].
  - window. match goal with |- context [CAdded ?w _ _] =>
      exists (G RTask false [(w, Some f)] [] []),
        (G (RIn (CIter w (seen ++ [(e, f)]))) true [] [] []) end.
    split; [repeat split; try done; constructor|]. split; [apply window_Close|].
    window. rewrite last_snoc, decide_True by done. window.
    exists (seen ++ [(e, f)]).
    match goal with e : option (elem * fref) |- _ => by destruct e end.
  - window. done.
Qed.

Lemma window_Suspend :
  respects mon Suspend (G RIdle false [] [] [])
    (λ m _, m = G (RIn CStart) false [] [] []).
Proof. unfold Suspend. by window. Qed.

Lemma window_ChangeServerAddr a :
  respects mon (ChangeServerAddr a) (G (RIn CDone) false [] [] [])
    (λ m _, m = G (RIn CDone) false [] [] []).
Proof. unfold ChangeServerAddr. by window. Qed.

Lemma window_ChangeDataRate n :
  respects mon (ChangeDataRate n) (G (RIn CDone) false [] [] [])
    (λ m _, m = G (RIn CDone) false [] [] []).
Proof. unfold ChangeDataRate. by window. Qed.

Lemma window_Resume :
  respects mon Resume (G (RIn CDone) false [] [] []) (λ m _, m = G RRes false [] [] []).
Proof. unfold Resume. by window. Qed.

Lemma window_move a :
  respects mon (move a) (G RIdle false [] [] []) (λ _ _, True).
Proof.
  unfold move.
  do 4 (apply respects_bind; eapply respects_mono;
    [first [apply window_Suspend | apply window_CloseAll | apply window_ChangeServerAddr
           | apply window_ChangeDataRate]|intros m [] ->]).
  eapply respects_mono; [apply window_Resume|done].
Qed.

End members.

(** * The service and its migrations *)

(** The goroutines of a service that has just been started, of the [Close] that will end it,
    and of any number of migrations that move it. *)
Definition goroutines `{PkgErrors} (gatewayAddr network : string) (ln : listener)
  (migs : list TCPAddr) : list (prog fwdE unit) :=
  serve gatewayAddr network ln :: CloseSvc :: (move <$> migs).

(** What the goroutines know at the start: nothing, and they hold and owe nothing.  All but
    the first may become migrations. *)
Definition first_known (n : nat) : list gst :=
  G RServe false [] [] [] :: replicate n (G RIdle false [] [] []).

Lemma first_lookup n i m :
  first_known n !! i = Some m →
  m = G RServe false [] [] [] ∧ i = 0 ∨ m = G RIdle false [] [] [].
Proof.
  destruct i as [|i]; simpl; [by intros [= <-]; left|].
  intros [-> _]%lookup_replicate. by right.
Qed.

(** A goroutine that has nothing to do with a service. *)
Definition uninvolved (m : gst) : Prop :=
  m = G RIdle false [] [] [] ∨ m = G RTask false [] [] [].

(** The goroutines when one of them has just started a service. *)
Definition started_by (i : nat) (ms : list gst) : Prop :=
  ∀ j m, ms !! j = Some m → (j = i ∧ m = G RServe false [] [] []) ∨ uninvolved m.

Lemma started_nothing i ms j m :
  started_by i ms → ms !! j = Some m →
  lk m = false ∧ debts m = [] ∧ known m = [] ∧ pairs m = [] ∧ ∀ c, part m ≠ RIn c.
Proof. intros Hs Hj. by destruct (Hs j m Hj) as [[_ ->]|[->| ->]]. Qed.

Lemma started_phase i ms j p :
  started_by i ms → (phase_of <$> ms) !! j = Some p → (j = i ∧ p = PServe) ∨ p = PTask.
Proof.
  intros Hs (m & -> & Hj)%list_lookup_fmap_Some.
  destruct (Hs j m Hj) as [[-> ->]|[->| ->]]; auto.
Qed.

Lemma start_window a r i ms : started_by i ms → window_inv (view_of (init_mem a r)) [] ms.
Proof.
  intros Hs. pose proof (started_nothing i ms) as Hno. split; try done.
  - split; [intros j m Hj Hl|intros j k].
    + destruct (Hno j m Hs Hj) as [Hl' _]. congruence.
    + intros mi mj Hi Hj Hl. destruct (Hno j mi Hs Hi) as [Hl' _]. congruence.
  - split; [done|]. split.
    + by intros j p [[_ ->]| ->]%(started_phase i ms j p Hs).
    + intros j k p q Hn Hj%(started_phase i ms j p Hs) Hk%(started_phase i ms k q Hs).
      by destruct Hj as [[-> ->]| ->], Hk as [[-> ->]| ->].
  - assert (all_debts ms = []) as ->.
    { unfold all_debts. assert (Hall : Forall (λ m, debts m = []) ms).
      { apply Forall_lookup. intros j m Hj. by destruct (Hno j m Hs Hj) as (_ & ? & _). }
      clear Hs Hno. induction Hall as [|m l Hm _ IH]; [done|]. cbn. rewrite Hm. exact IH. }
    split; [done|]. by intros d ?%not_elem_of_nil.
  - split; [|split; [|split; [constructor|split; [|done]]]].
    + intros j m f Hj Hf. destruct (Hno j m Hs Hj) as (_ & _ & Hk & _). rewrite Hk in Hf.
      by apply not_elem_of_nil in Hf.
    + intros j m e f Hj Hf. destruct (Hno j m Hs Hj) as (_ & _ & _ & Hk & _). rewrite Hk in Hf.
      by apply not_elem_of_nil in Hf.
    + by intros e f ?%not_elem_of_nil.
  - intros j m c Hj Hp. destruct (Hno j m Hs Hj) as (_ & _ & _ & _ & Hc). by destruct (Hc c).
Qed.

Lemma first_started n : started_by 0 (first_known n).
Proof. intros j m [[-> ->]| ->]%first_lookup; [by left|by right; left]. Qed.

(** Every reachable state keeps the invariant, and every goroutine the rules. *)
Lemma window_reachable `{PkgErrors} g n ln migs sa r ts s log :
  rtc (pstep logged) (goroutines g n ln migs, (init_mem sa r, [])) (ts, (s, log)) →
  pool_inv (window_mon true) compat (ts, (s, log)).
Proof.
  intros Hr. eapply (pool_sound (window_mon true) logged compat); [| | | |exact Hr].
  - intros s' ms i m o s'' Hc Hi Hl. by eapply compat_legal.
  - intros s' ms i m o s'' m' Hc Hi Hl. by eapply compat_step.
  - intros s' ms i m mc mk Hc Hi Hs. by eapply window_split_ok.
  - exists (first_known (S (length migs))). split; [|apply (start_window _ _ 0), first_started].
    constructor; [by eapply respects_mono; [apply window_serve|]|].
    constructor; [by apply respects_blind; [apply blind_CloseSvc|intros ? ? ?|]|].
    clear Hr. induction migs as [|a migs IH]; [constructor|]. constructor; [apply window_move|exact IH].
Qed.

(** The log is a record only: every execution has one. *)
Lemma pool_logged ts s ts' s' log :
  rtc (pstep fwd_sem) (ts, s) (ts', s') →
  ∃ log', rtc (pstep logged) (ts, (s, log)) (ts', (s', log')).
Proof.
  remember (ts, s) as c eqn:Hc. remember (ts', s') as c' eqn:Hc'. intros Hr.
  revert ts s log Hc. induction Hr as [c|c c1 c2 Hs Hr IH]; intros ts s log Hc; subst.
  - simplify_eq. exists log. constructor.
  - destruct c1 as [ts1 s1].
    assert (∃ log1, pstep logged (ts, (s, log)) (ts1, (s1, log1))) as [log1 H1].
    { inversion Hs; subst; eexists; [by eapply pstep_tau| |by eapply pstep_spawn].
      eapply pstep_vis; [done..|]. by split. }
    destruct (IH eq_refl ts1 s1 log1 eq_refl) as [log2 H2]. exists log2.
    by eapply rtc_l.
Qed.

(** A method that needs a suspended service never finds it running. *)
Lemma never_unsuspended `{PkgErrors} g n ln migs sa r ts s msg :
  rtc (pstep fwd_sem) (goroutines g n ln migs, init_mem sa r) (ts, s) →
  Panic msg ∈ ts → ¬ must_be_suspended msg.
Proof.
  intros Hr [i Hi]%list_elem_of_lookup. destruct (pool_logged _ _ _ _ [] Hr) as [log Hl].
  destruct (window_reachable _ _ _ _ _ _ _ _ _ Hl) as (ms & Hms & _).
  destruct (Forall2_lookup_l _ _ _ _ _ Hms Hi) as (m & _ & Hm). by apply Hm.
Qed.

Lemma win_broken l : foldl win_step WBroken l = WBroken.
Proof. by induction l. Qed.

(** What the log says of a window that is still open. *)
Lemma win_open w l :
  w = WIn ∨ w = WMoved → Forall (λ o, ends_window o = false) l → foldl win_step w l ≠ WBroken →
  Forall (λ o, intrudes o = false) l ∧
  (w = WMoved ∨ Exists (λ o, moves o = true) l → foldl win_step w l = WMoved).
Proof.
  revert w. induction l as [|o l IH]; intros w Hw He Hb; simpl in *.
  { split; [done|]. by intros [?|?%Exists_nil]. }
  apply Forall_cons in He as [He Hl].
  assert (Hst : win_step w o = if intrudes o then WBroken else if moves o then WMoved else w).
  { destruct Hw as [-> | ->]; simpl; rewrite He; by destruct (moves o). }
  rewrite Hst in *. destruct (intrudes o) eqn:Ha; [by rewrite win_broken in Hb|].
  destruct (moves o) eqn:Hm.
  - destruct (IH WMoved) as [H1 H2]; [by right|done..|]. split; [by constructor|auto].
  - destruct (IH w) as [H1 H2]; [done..|]. split; [by constructor|].
    intros [Hx|[Hx|Hx]%Exists_cons]; [auto|congruence|auto].
Qed.

Lemma win_since log l1 l2 :
  log = l1 ++ Obs SRecvSuspend tt :: l2 → win_of log ≠ WBroken →
  win_of log = foldl win_step WIn l2.
Proof.
  intros -> Hb. unfold win_of in *. rewrite foldl_app in *. simpl in *.
  by destruct (foldl win_step WOut l1); simpl in *; rewrite ?win_broken in Hb.
Qed.

(** What a state that keeps the invariant shows of a window that is still open. *)
Lemma window_open s log ms l1 l2 :
  window_inv (view_of s) log ms →
  log = l1 ++ Obs SRecvSuspend tt :: l2 →
  Forall (λ o, ends_window o = false) l2 →
  Forall (λ o, intrudes o = false) l2 ∧
  (Exists (λ o, moves o = true) l2 → Forall (λ x, chanClosed x = true) (heap s)).
Proof.
  intros [? ? ? ? Hcl Hlg] Hlog He. assert (Heq : win_of log = foldl win_step WIn l2).
  { apply (win_since _ _ _ Hlog). intros Hb. unfold log_inv in Hlg. by rewrite Hb in Hlg. }
  destruct (win_open WIn l2 (or_introl eq_refl) He) as [Ha Hm].
  { intros Hb. unfold log_inv in Hlg. by rewrite Heq, Hb in Hlg. }
  split; [done|]. intros Hx. unfold log_inv in Hlg. rewrite Heq, Hm in Hlg by auto.
  destruct Hlg as (i & m & Hi & Hp). apply Forall_lookup_2. intros f x Hf.
  eapply (Hcl _ _ _ Hi Hp f). simpl. by rewrite list_lookup_fmap, Hf.
Qed.
