(* ===== verification/FwdSpec.v ===== *)
(** A forwarding service as its users see it, and the refinement: what the goroutines of a
    service do, with their mutexes, channels, wait groups and condition variable, is an
    execution of an atomic service that knows its backend, its clients and whether it has
    been stopped. *)
From S2P Require Import Prelude Go Progress Errors Sys Kube FwdSys Fwd FwdSvc FwdWindow FwdMove.
#[local] Open Scope go_scope.

(** * The atomic service *)

(** [clients]: those being served, and whether a connection to the backend was tried. *)
Record service := Service {
  backend : TCPAddr;
  clients : gmap fref bool;
  stopped : bool
}.

Inductive event :=
| Arrive
| Admission (f : fref)
| Dial (a : TCPAddr)
| Finish (f : fref)
| Stop
| Move (a : TCPAddr)
| Start.

Inductive serves : service → event → service → Prop :=
| serves_arrive a cs : serves (Service a cs false) Arrive (Service a cs false)
| serves_admission a cs f :
    cs !! f = None →
    serves (Service a cs false) (Admission f) (Service a (<[f := false]> cs) false)
| serves_dial a cs b f :
    cs !! f = Some false →
    serves (Service a cs b) (Dial a) (Service a (<[f := true]> cs) b)
| serves_finish a cs b f :
    is_Some (cs !! f) →
    serves (Service a cs b) (Finish f) (Service a (delete f cs) b)
| serves_stop a cs : serves (Service a cs false) Stop (Service a cs true)
| serves_move a a' : serves (Service a ∅ true) (Move a') (Service a' ∅ true)
| serves_start a cs : serves (Service a cs true) Start (Service a cs false).

Inductive history (p : service) : list event → service → Prop :=
| history_nil : history p [] p
| history_snoc l q e r : history p l q → serves q e r → history p (l ++ [e]) r.

Lemma history_app p l q o r :
  history p l q → match o with Some e => serves q e r | None => r = q end →
  history p (l ++ option_list o) r.
Proof.
  intros Hl. destruct o as [e|]; simpl.
  - intros He. by eapply history_snoc.
  - intros ->. by rewrite app_nil_r.
Qed.

(** ** Which effects of the goroutines the users see *)

Definition visible (o : obs fwdE) : option event :=
  match o with
  | @Obs _ X e x =>
      match e in fwdE Y return Y → option event with
      | NAcceptTCP _ => λ _, Some Arrive
      | FNew => λ f, Some (Admission f)
      | NDialTCP _ _ a => λ _, Some (Dial a)
      | FCloseClosed f => λ _, Some (Finish f)
      | SRecvSuspend => λ _, Some Stop
      | SSetServerAddr a => λ _, Some (Move a)
      | SSetSuspended false => λ _, Some Start
      | _ => λ _, None
      end x
  end.

Lemma visible_snoc log o :
  omap visible (log ++ [o]) = omap visible log ++ option_list (visible o).
Proof. rewrite omap_app. simpl. by destruct (visible o). Qed.

(** * What a goroutine does for a client *)

(** Nothing; or it serves one: before it has read the address of the backend, before it has
    dialled it, after. *)
Inductive task := TNone | TNew (f : fref) | TAddr (f : fref) (a : TCPAddr) | TDialled (f : fref).

(** The client, and whether its backend was dialled. *)
Definition served (t : task) : option (fref * bool) :=
  match t with
  | TNone => None
  | TNew f | TAddr f _ => Some (f, false)
  | TDialled f => Some (f, true)
  end.

Definition task_step (t : task) (o : obs fwdE) : option task :=
  match o with
  | @Obs _ X e x =>
      match e in fwdE Y return Y → option task with
      | FNew => λ f, match t with TNone => Some (TNew f) | _ => None end
      | SGetServerAddr => λ a, match t with TNew f => Some (TAddr f a) | _ => None end
      | NDialTCP _ _ a => λ _,
          match t with
          | TAddr f a' => if decide (a = a') then Some (TDialled f) else None
          | _ => None
          end
      | FCloseClosed f => λ _,
          if decide (fst <$> served t = Some f) then Some TNone else None
      | _ => λ _, Some t
      end x
  end.

Definition task_split (t tc tk : task) : Prop :=
  (tc = t ∧ tk = TNone) ∨ (tc = TNone ∧ tk = t).

Definition task_mon : monitor fwdE task := {|
  mon_step := task_step;
  mon_legal _ _ := True;
  mon_split := task_split;
  mon_final _ := True;
  mon_panic _ _ := True
|}.

(** * The invariant *)

(** The clients the goroutines serve are clients of the atomic service, each of one of them;
    an address that has been read is the one of the backend. *)
Record tasks_ok (p : service) (ts : list task) : Prop := {
  t_served i t f d : ts !! i = Some t → served t = Some (f, d) → clients p !! f = Some d;
  t_addr i f a : ts !! i = Some (TAddr f a) → a = backend p;
  t_alone i j ti tj f di dj :
    ts !! i = Some ti → ts !! j = Some tj →
    served ti = Some (f, di) → served tj = Some (f, dj) → i = j
}.

(** ** The tasks *)

Lemma tasks_insert p p' ts i t t' :
  tasks_ok p ts → ts !! i = Some t →
  (∀ j tj f d, j ≠ i → ts !! j = Some tj → served tj = Some (f, d) →
     clients p' !! f = Some d ∧ ∀ d', served t' ≠ Some (f, d')) →
  (∀ f d, served t' = Some (f, d) → clients p' !! f = Some d) →
  (∀ f a, t' = TAddr f a → a = backend p') →
  (∀ j f a, ts !! j = Some (TAddr f a) → j ≠ i → backend p' = backend p) →
  tasks_ok p' (<[i := t']> ts).
Proof.
  intros [Hs Ha Hu] Hi Hother Hserved Haddr Hback. split.
  - intros j tj f d Hj Hf. at_insert Hj; [by apply Hserved|]. by eapply Hother.
  - intros j f a [[-> Ht]|[Hn Hj]]%insert_cases; [by apply (Haddr f)|].
    rewrite (Hback j f a) by done. by eapply Ha.
  - intros j k tj tk f dj dk Hj Hk Hfj Hfk. at_insert Hj; at_insert Hk; [done| | |by eapply Hu].
    + destruct (Hother k tk f dk) as [_ []%(λ H, H dj)]; done.
    + destruct (Hother j tj f dj) as [_ []%(λ H, H dk)]; done.
Qed.

Lemma tasks_same p p' ts i t :
  tasks_ok p ts → ts !! i = Some t → clients p' = clients p → backend p' = backend p →
  tasks_ok p' (<[i := t]> ts).
Proof.
  intros [Hs Ha Hu] Hi Hc Hb. rewrite list_insert_id by done.
  split; rewrite ?Hc, ?Hb; eauto.
Qed.

(** A goroutine without a client gets one that is new. *)
Lemma tasks_new a cs st ts i f :
  tasks_ok (Service a cs st) ts → ts !! i = Some TNone → cs !! f = None →
  tasks_ok (Service a (<[f := false]> cs) st) (<[i := TNew f]> ts).
Proof.
  intros Ht Hi Hf. pose proof Ht as [Hs _ _].
  apply (tasks_insert _ _ _ _ _ _ Ht Hi); simpl; try done.
  - intros j tj f' d _ Hj Hd. pose proof (Hs j tj f' d Hj Hd) as Hc. simpl in Hc.
    split; [rewrite lookup_insert_ne; congruence|]. intros d' [= <- _]. congruence.
  - intros f' d [= <- <-]. apply lookup_insert_eq.
Qed.

(** A goroutine goes on serving its client, which may now be dialled. *)
Lemma tasks_go_on a cs st ts i t t' f d d' :
  tasks_ok (Service a cs st) ts → ts !! i = Some t →
  served t = Some (f, d) → served t' = Some (f, d') → (∀ b, t' = TAddr f b → b = a) →
  tasks_ok (Service a (<[f := d']> cs) st) (<[i := t']> ts).
Proof.
  intros Ht Hi Hf Hf' Ha. pose proof Ht as [Hs _ Hu].
  apply (tasks_insert _ _ _ _ _ _ Ht Hi); simpl; try done.
  - intros j tj f1 d1 Hn Hj Hd. assert (f ≠ f1) as Hne by (intros <-; by apply Hn, (Hu j i tj t f d1 d)).
    split; [rewrite lookup_insert_ne by done; by apply (Hs j tj)|]. congruence.
  - intros f1 d1 Hd. assert (f1 = f ∧ d1 = d') as [-> ->] by (split; congruence).
    apply lookup_insert_eq.
  - intros f1 b ->. apply Ha. simpl in Hf'. congruence.
Qed.

(** A goroutine is done with its client. *)
Lemma tasks_finish a cs st ts i t f d :
  tasks_ok (Service a cs st) ts → ts !! i = Some t → served t = Some (f, d) →
  tasks_ok (Service a (delete f cs) st) (<[i := TNone]> ts).
Proof.
  intros Ht Hi Hf. pose proof Ht as [Hs _ Hu].
  apply (tasks_insert _ _ _ _ _ _ Ht Hi); simpl; try done.
  intros j tj f1 d1 Hn Hj Hd. assert (f ≠ f1) as Hne by (intros <-; by apply Hn, (Hu j i tj t f d1 d)).
  split; [rewrite lookup_delete_ne by done; by apply (Hs j tj)|done].
Qed.

(** A backend nobody is served from may change. *)
Lemma tasks_nobody a b st ts i t :
  tasks_ok (Service a ∅ st) ts → ts !! i = Some t →
  tasks_ok (Service b ∅ st) (<[i := t]> ts).
Proof.
  intros Ht Hi. pose proof Ht as [Hs _ _]. apply (tasks_insert _ _ _ _ _ _ Ht Hi); simpl.
  - intros j tj f d _ Hj Hd. by specialize (Hs _ _ _ _ Hj Hd).
  - intros f d Hd. by specialize (Hs _ _ _ _ Hi Hd).
  - intros f a' ->. by specialize (Hs _ _ _ _ Hi eq_refl).
  - intros j f a' Hj. by specialize (Hs _ _ _ _ Hj eq_refl).
Qed.

(** ** The clients *)

(** The clients are the forwarders of [l] that have not finished. *)
Definition unfinished (l : list bool) (cs : gmap fref bool) : Prop :=
  ∀ f, is_Some (cs !! f) ↔ l !! f = Some false.

Lemma unfinished_new l cs :
  unfinished l cs →
  cs !! length l = None ∧ unfinished (l ++ [false]) (<[length l := false]> cs).
Proof.
  unfold unfinished. intros Hc. split.
  - apply eq_None_not_Some. intros Hf%Hc. by rewrite lookup_ge_None_2 in Hf.
  - intros f. rewrite lookup_snoc_Some. destruct (decide (f = length l)) as [->|Hn].
    + rewrite lookup_insert_eq. split; [by right|eauto].
    + rewrite lookup_insert_ne, Hc by done. split; [|intuition].
      intros Hf. left. split; [by eapply lookup_lt_Some|done].
Qed.

Lemma unfinished_set l cs f d d' :
  unfinished l cs → cs !! f = Some d → unfinished l (<[f := d']> cs).
Proof.
  unfold unfinished. intros Hc Hf f'. rewrite <-Hc. destruct (decide (f' = f)) as [->|Hn].
  - rewrite lookup_insert_eq, Hf. by split; eauto.
  - by rewrite lookup_insert_ne.
Qed.

Lemma unfinished_finish l cs f :
  unfinished l cs → unfinished (<[f := true]> l) (delete f cs).
Proof.
  unfold unfinished. intros Hc f'. destruct (decide (f' = f)) as [->|Hn].
  - rewrite lookup_delete_eq. split; [by intros []|].
    intros [(_ & ? & _)|[]]%list_lookup_insert_Some; done.
  - by rewrite lookup_delete_ne, list_lookup_insert_ne by done.
Qed.

Lemma unfinished_none l cs :
  unfinished l cs → (∀ f b, l !! f = Some b → b = true) → cs = ∅.
Proof.
  intros Hc Hl. apply map_empty. intros f. apply eq_None_not_Some.
  intros Hf%Hc. by apply Hl in Hf.
Qed.

(** ** The whole *)

(** The atomic service is the one in the memory: its clients are the forwarders that have not
    finished, and it is stopped inside a window. *)
Record agrees (p : service) (s : fmem) (log : list (obs fwdE)) (gs : list gst) : Prop := {
  a_backend : backend p = serverAddr (svc s);
  a_clients : unfinished (v_closed (view_of s)) (clients p);
  a_stopped : stopped p = true ↔ win_of log ≠ WOut;
  a_inside i g c : gs !! i = Some g → part g = RIn c → stopped p = true
}.

Definition spec_inv (sa : TCPAddr) (s : fmem) (log : list (obs fwdE)) (gs : list gst)
    (ts : list task) : Prop :=
  ∃ p, history (Service sa ∅ false) (omap visible log) p ∧ agrees p s log gs ∧ tasks_ok p ts.

(** ** The effects nobody sees *)

Lemma fwd_sem_addr s o s' :
  fwd_sem s o s' →
  serverAddr (svc s') =
    match visible o with Some (Move a) => a | _ => serverAddr (svc s) end.
Proof.
  destruct o as [X e x]. unfold fwd_sem. destruct e; simpl; intros Hs; try (open_heap Hs);
    try (repeat case_match; simplify_eq; done); try (by destruct x as [c|]; intuition subst).
  by destruct Hs as [(_ & rest & _ & ->)|(_ & _ & ->)].
Qed.

(** An effect that leaves the unfinished forwarders alone, or shows. *)
Lemma view_unseen v o v' :
  view_step v o v' → visible o = None → v_closed v' = v_closed v.
Proof.
  destruct o as [X e x]. destruct e; simpl; intros Hv Ho; try done; try (by subst v');
    try (by destruct Hv as [_ ->]).
  - by destruct Hv as (k & _ & ->).
  - by destruct Hv as (k & _ & ->).
Qed.

(** Who is inside a window was so before, or has just entered it. *)
Lemma window_step_in g o g' c :
  window_step g o = Some g' → part g' = RIn c →
  visible o = Some Stop ∨ (∃ c', part g = RIn c') ∧ visible o ≠ Some Start.
Proof.
  destruct o as [X e x]. destruct e; simpl; intros Hg Hc; auto; right;
    (split; [destruct (part g) eqn:Hp; eauto; exfalso|]);
    repeat case_match; simplify_eq/=; try congruence; try done;
    destruct (pay _ _ _); simplify_eq/=; congruence.
Qed.

Lemma win_out_step w o :
  w ≠ WBroken →
  win_step w o ≠ WOut ↔
  match visible o with Some Stop => True | Some Start => False | _ => w ≠ WOut end.
Proof.
  destruct o as [X e x]. intros Hw. destruct w; [..|done]; destruct e; try destruct b; simpl;
    try done; try tauto; by destruct x.
Qed.

Lemma log_unbroken log gs : log_inv gs log → win_of log ≠ WBroken.
Proof. unfold log_inv. intros Hl Hw. by rewrite Hw in Hl. Qed.

Lemma start_inside g o g' :
  window_step g o = Some g' → visible o = Some Start → ∃ c, part g = RIn c.
Proof.
  destruct o as [X e x]. destruct e; try done. simpl. destruct b; [done|].
  destruct (part g); try done. eauto.
Qed.

Lemma task_unseen t o t' :
  task_step t o = Some t' → visible o = None →
  t' = t ∨ ∃ f a, o = Obs SGetServerAddr a ∧ t = TNew f ∧ t' = TAddr f a.
Proof.
  destruct o as [X e x]. destruct e; simpl; intros Hs Ho; simplify_eq; try (by left).
  destruct t; simplify_eq. right. by eexists _, _.
Qed.

(** ** The steps *)

Section steps.
Context (sa : TCPAddr) (s s' : fmem) (log : list (obs fwdE)) (gs : list gst) (ts : list task).
Context (i : nat) (g g' : gst) (t t' : task) (o : obs fwdE).
Hypothesis Hwin : window_inv (view_of s) log gs.
Hypothesis Hg : gs !! i = Some g.
Hypothesis Ht : ts !! i = Some t.
Hypothesis Hsem : fwd_sem s o s'.
Hypothesis Hgo : window_step g o = Some g'.

(** The atomic service follows, once it is known how its clients and its flag change. *)
Lemma agrees_step p p' :
  agrees p s log gs →
  backend p' = match visible o with Some (Move a) => a | _ => backend p end →
  unfinished (v_closed (view_of s')) (clients p') →
  stopped p' = match visible o with
               | Some Stop => true | Some Start => false | _ => stopped p end →
  agrees p' s' (log ++ [o]) (<[i := g']> gs).
Proof.
  intros [Hb Hc Hs Hin] Hb' Hc' Hs'. pose proof (log_unbroken _ _ (wi_log _ _ _ Hwin)) as Hunb.
  split.
  - rewrite Hb', (fwd_sem_addr _ _ _ Hsem), Hb. done.
  - done.
  - rewrite win_snoc, win_out_step by done. rewrite Hs'. by repeat case_match.
  - intros j gj c Hj Hp. rewrite Hs'. destruct (decide (j = i)) as [->|Hn].
    + rewrite list_lookup_insert_eq in Hj by (by eapply lookup_lt_Some). injection Hj as <-.
      destruct (window_step_in _ _ _ _ Hgo Hp) as [->|[[c' Hgc] Ho]]; [done|].
      pose proof (Hin _ _ _ Hg Hgc) as ->. by case_match; repeat case_match.
    + rewrite list_lookup_insert_ne in Hj by done. pose proof (Hin _ _ _ Hj Hp) as ->.
      destruct (visible o) as [[]|] eqn:Ho; try done.
      destruct (start_inside _ _ _ Hgo Ho) as [c' Hgc].
      pose proof (parts_ok _ _ _ _ _ _ (wi_phase _ _ _ Hwin) Hn Hj Hg) as Hok.
      unfold phase_of in Hok. by rewrite Hp, Hgc in Hok.
Qed.

Lemma running_out : phase_of g = PRun → win_of log = WOut.
Proof.
  intros Hr. pose proof (running_alone _ _ _ _ (wi_phase _ _ _ Hwin) Hg Hr) as Hno.
  pose proof (wi_log _ _ _ Hwin) as Hl. unfold log_inv in Hl. destruct (win_of log); [done|..|done].
  - destruct Hl as (j & gj & c & Hj & Hc). by destruct (Hno j gj c).
  - destruct Hl as (j & gj & Hj & Hc). by destruct (Hno j gj CDone).
Qed.

Lemma out_running p : agrees p s log gs → win_of log = WOut → stopped p = false.
Proof.
  intros [_ _ Hs _] Hw. rewrite Hw in Hs. destruct (stopped p); [|done]. destruct Hs as [Hs _].
  by destruct (Hs eq_refl).
Qed.

(** The atomic service after [o] is [p']. *)
Lemma follow p p' :
  history (Service sa ∅ false) (omap visible log) p → agrees p s log gs → tasks_ok p ts →
  match visible o with Some e => serves p e p' | None => p' = p end →
  unfinished (v_closed (view_of s')) (clients p') →
  tasks_ok p' (<[i := t']> ts) →
  spec_inv sa s' (log ++ [o]) (<[i := g']> gs) (<[i := t']> ts).
Proof.
  intros Hh Ha Htk He Hc Ht'. exists p'. split; [|split; [|done]].
  - rewrite visible_snoc. by eapply history_app.
  - eapply agrees_step; [done| |done|]; destruct (visible o) as [e|]; try (by subst p');
      by inversion He.
Qed.

(** An effect nobody sees, the reading of the address among them. *)
Lemma step_unseen p :
  history (Service sa ∅ false) (omap visible log) p → agrees p s log gs → tasks_ok p ts →
  visible o = None → task_step t o = Some t' →
  spec_inv sa s' (log ++ [o]) (<[i := g']> gs) (<[i := t']> ts).
Proof.
  intros Hh Ha Htk Ho Hto. apply (follow p p); [done..|by rewrite Ho| |].
  - rewrite (view_unseen _ _ _ (fwd_sem_view _ _ _ Hsem) Ho). apply Ha.
  - destruct (task_unseen _ _ _ Hto Ho) as [->|(f & a & Ho' & Ht1 & ->)];
      [by apply (tasks_same p)|].
    rewrite Ht1 in Ht. assert (clients p !! f = Some false) as Hf.
    { by eapply (t_served _ _ Htk i (TNew f)). }
    pose proof (a_backend _ _ _ _ Ha) as Hb. destruct p as [b cs st]. simpl in Hb, Hf.
    rewrite <-(insert_id _ _ _ Hf).
    eapply (tasks_go_on _ _ _ _ _ (TNew f)); [done..|]. intros a' [= <-].
    rewrite Ho' in Hsem. unfold fwd_sem in Hsem. simpl in Hsem. congruence.
Qed.

Lemma spec_step_ok :
  spec_inv sa s log gs ts → task_step t o = Some t' →
  spec_inv sa s' (log ++ [o]) (<[i := g']> gs) (<[i := t']> ts).
Proof.
  intros (p & Hh & Ha & Htk) Hto. pose proof (fwd_sem_view _ _ _ Hsem) as Hv.
  destruct (visible o) as [ev|] eqn:Ho; [|by eapply step_unseen].
  pose proof (out_running _ Ha) as Hout. pose proof (λ c, a_inside _ _ _ _ Ha _ _ c Hg) as Hins.
  pose proof (λ p', follow _ p' Hh Ha Htk) as Hfol.
  destruct p as [b cs st], Ha as [_ Hc _ _]. simpl in Hc, Hout, Hins.
  destruct o as [X e x]; destruct e; try discriminate Ho; simpl in Hv, Hto, Hgo.
  - destruct Hv as [-> Hv%(f_equal v_closed)], (part g) as [|[]| | | | | | |] eqn:Hp, t; try done.
    injection Hto as <-. assert (st = false) as ->.
    { apply Hout, running_out. unfold phase_of. by rewrite Hp. }
    destruct (unfinished_new _ _ Hc) as [Hnew Hc'].
    eapply Hfol; [by apply serves_admission|by rewrite Hv|by apply tasks_new].
  - destruct Hv as [_ Hv%(f_equal v_closed)]. case_decide as Hd; [|done]. injection Hto as <-.
    destruct (served t) as [[f' d]|] eqn:Hf; [|done]. injection Hd as ->.
    eapply Hfol; [apply serves_finish| |].
    + exists d. by eapply (t_served _ _ Htk).
    + rewrite Hv. by apply unfinished_finish.
    + by eapply tasks_finish.
  - apply (f_equal v_closed) in Hv. destruct t as [| |f a|]; try done. case_decide as Hd; [|done]. simplify_eq.
    assert (a = b) as -> by by eapply (t_addr _ _ Htk).
    assert (cs !! f = Some false) as Hf by by eapply (t_served _ _ Htk _ (TAddr f b)).
    eapply Hfol; [by apply serves_dial| |].
    + rewrite Hv. by eapply unfinished_set.
    + by eapply tasks_go_on.
  - apply (f_equal v_closed) in Hv. simplify_eq. destruct (part g) eqn:Hp; try done. assert (st = false) as ->.
    { apply Hout, running_out. unfold phase_of. by rewrite Hp. }
    eapply Hfol; [apply serves_arrive|by rewrite Hv|by apply (tasks_same (Service b cs false))].
  - apply (f_equal v_closed) in Hv. simplify_eq. destruct b0; [done|]. destruct (part g) eqn:Hp; try done.
    pose proof (Hins _ eq_refl) as ->.
    eapply Hfol; [apply serves_start|by rewrite Hv|by apply (tasks_same (Service b cs true))].
  - simplify_eq. destruct Hv as [Hch Hv%(f_equal v_closed)]. assert (st = false) as ->.
    { apply Hout. destruct (decide (win_of log = WOut)) as [|Hw]; [done|].
      apply (open_flags _ _ _ Hwin) in Hw as [_ Hw]. simpl in Hw. congruence. }
    eapply Hfol; [apply serves_stop|by rewrite Hv|by apply (tasks_same (Service b cs false))].
  - apply (f_equal v_closed) in Hv. simplify_eq. destruct (part g) as [| | | | | |[]| |] eqn:Hp; try done.
    assert (cs = ∅) as ->.
    { eapply unfinished_none; [done|]. apply (wi_close _ _ _ Hwin _ _ _ Hg Hp). }
    pose proof (Hins _ eq_refl) as ->.
    eapply Hfol; [apply serves_move|by rewrite Hv|by eapply tasks_nobody].
Qed.

End steps.

(** ** A [go] statement *)

(** The tasks afterwards, by their place before. *)
Lemma split_place ts i t tc tk j tj :
  ts !! i = Some t → task_split t tc tk →
  (<[i := tk]> ts ++ [tc]) !! j = Some tj → served tj ≠ None →
  ts !! (if decide (j = length ts) then i else j) = Some tj ∧
  (j = i → tk = t) ∧ (j = length ts → tc = t).
Proof.
  intros Hi Hs Hj Hne. pose proof (lookup_lt_Some _ _ _ Hi) as Hlen.
  apply lookup_app_Some in Hj as [Hj|[Hle Hj]].
  - pose proof (lookup_lt_Some _ _ _ Hj) as Hlt. rewrite length_insert in Hlt.
    rewrite decide_False by lia. split; [|split; [|lia]].
    + at_insert Hj; [|done]. by destruct Hs as [[_ ->]|[_ ->]].
    + intros ->. rewrite list_lookup_insert_eq in Hj by done. injection Hj as ->.
      by destruct Hs as [[_ ->]|[_ ->]].
  - rewrite length_insert in *. apply list_lookup_singleton_Some in Hj as [Hk <-].
    rewrite decide_True by lia. destruct Hs as [[-> _]|[-> _]]; [|done].
    split; [done|]. split; [lia|done].
Qed.

Lemma tasks_split p ts i t tc tk :
  tasks_ok p ts → ts !! i = Some t → task_split t tc tk →
  tasks_ok p (<[i := tk]> ts ++ [tc]).
Proof.
  intros [Hs Ha Hu] Hi Hsp. pose proof (lookup_lt_Some _ _ _ Hi) as Hlen. split.
  - intros j tj f d Hj Hf. apply (split_place _ _ _ _ _ _ _ Hi Hsp) in Hj as [Hj _]; [|congruence].
    by eapply Hs.
  - intros j f a Hj. apply (split_place _ _ _ _ _ _ _ Hi Hsp) in Hj as [Hj _]; [|done].
    by eapply Ha.
  - intros j k tj tk' f dj dk Hj Hk Hfj Hfk.
    apply (split_place _ _ _ _ _ _ _ Hi Hsp) in Hj as (Hj & Hji & Hjl); [|congruence].
    apply (split_place _ _ _ _ _ _ _ Hi Hsp) in Hk as (Hk & Hki & Hkl); [|congruence].
    pose proof (Hu _ _ _ _ _ _ _ Hj Hk Hfj Hfk) as Heq.
    destruct (decide (j = length ts)) as [->|Hnj], (decide (k = length ts)) as [->|Hnk]; try lia.
    + subst k. rewrite Hjl, Hki in Hsp by done. by destruct Hsp as [[_ ?]|[? _]]; simplify_eq/=.
    + subst i. rewrite Hkl, Hji in Hsp by done. by destruct Hsp as [[_ ?]|[? _]]; simplify_eq/=.
Qed.

Lemma agrees_split p s log gs i g gc gk :
  agrees p s log gs → gs !! i = Some g → window_split g gc gk →
  agrees p s log (<[i := gk]> gs ++ [gc]).
Proof.
  intros [Hb Hc Hs Hin] Hi Hsp. split; [done..|].
  destruct Hsp as (_ & _ & _ & _ & _ & _ & _ & Hst).
  assert (Hparts : (∀ c, part gc ≠ RIn c) ∧ ∀ c, part gk = RIn c → ∃ c', part g = RIn c').
  { inversion Hst; split; try congruence; eauto. }
  intros j gj c Hj Hp. apply lookup_app_Some in Hj as [Hj|[_ Hj]].
  - at_insert Hj; [|by eapply Hin]. destruct Hparts as [_ Hk].
    destruct (Hk c Hp) as [c' Hg]. by eapply Hin.
  - apply list_lookup_singleton_Some in Hj as [_ <-]. by destruct (proj1 Hparts c).
Qed.

(** * The goroutines *)

(** Effects that have nothing to do with serving a client. *)
Definition clerical (o : obs fwdE) : Prop := ∀ t, task_step t o = Some t.

Definition aside {A : Type} (p : prog fwdE A) : Prop := everywhere clerical (λ _, True) p.

Lemma respects_aside {A} (p : prog fwdE A) t (Q : task → A → Prop) :
  aside p → (∀ a, Q t a) → respects task_mon p t Q.
Proof.
  intros Hp HQ. apply (respects_idle _ TNone (λ _, True) clerical (λ _, True)); try done.
  intros t' _. by right.
Qed.

Create HintDb aside.

Ltac solve_aside :=
  repeat (
    fwd_unfold;
    cbn [aside everywhere bind call go loop fst snd];
    match goal with
    | |- True => exact I
    | |- ∀ _, _ => intro
    | |- ?A ∧ ?B => split
    | |- clerical _ => intro; reflexivity
    | |- aside _ => solve [auto with aside nocore]
    | |- everywhere _ _ ?p => change (aside p)
    | |- aside (bind _ _) => apply everywhere_bind
    | |- aside (match ?x with _ => _ end) => destruct x
    end).

Section programs.
Context `{PkgErrors}.

Lemma aside_closeUpstream p : aside (closeUpstream p).
Proof. unfold closeUpstream. solve_aside. Qed.
Lemma aside_closeDownstream p : aside (closeDownstream p).
Proof. unfold closeDownstream. solve_aside. Qed.
Lemma aside_upstreamStep p c1 c2 : aside (upstreamStep p c1 c2).
Proof. unfold upstreamStep. solve_aside. Qed.
Lemma aside_downstreamStep c1 c2 : aside (downstreamStep c1 c2).
Proof. unfold downstreamStep. solve_aside. Qed.
#[local] Hint Resolve aside_closeUpstream aside_closeDownstream aside_upstreamStep
  aside_downstreamStep : aside.

Lemma aside_upstream p c1 c2 w : aside (upstream p c1 c2 w).
Proof. unfold upstream. solve_aside. Qed.
Lemma aside_downstream p c1 c2 w : aside (downstream p c1 c2 w).
Proof. unfold downstream. solve_aside. Qed.
Lemma aside_awaitResume : aside awaitResume.
Proof. unfold awaitResume, cond_wait. solve_aside. Qed.
Lemma aside_closer ln : aside (closer ln).
Proof. unfold closer. solve_aside. Qed.
Lemma aside_CloseSvc : aside CloseSvc.
Proof. unfold CloseSvc. solve_aside. Qed.
Lemma aside_Close p : aside (Close p).
Proof. unfold Close. solve_aside. Qed.
Lemma aside_SetDataRate p n : aside (SetDataRate p n).
Proof. unfold SetDataRate. solve_aside. Qed.
#[local] Hint Resolve aside_upstream aside_downstream aside_awaitResume aside_closer
  aside_CloseSvc aside_SetDataRate : aside.

(** One step of serving a client, and as many as there are. *)
Ltac serve_step1 :=
  match goal with
  | |- True => exact I
  | |- ∀ _, _ => intro
  | |- respects _ (bind (bind _ _) _) _ _ => apply respects_bind
  | |- respects _ (bind _ _) _ _ =>
      apply respects_bind, respects_aside; [solve [auto with aside nocore]|]
  | |- respects _ (bind (match ?x with _ => _ end) _) _ _ => destruct x eqn:?
  | |- respects _ (match ?x with _ => _ end) _ _ => destruct x eqn:?
  | |- context [decide (?x = ?x)] => rewrite (decide_True (P := x = x)) by reflexivity
  | |- ∃ mc mk, task_split ?t mc mk ∧ respects _ (upstream _ _ _ _) _ _ ∧ _ =>
      exists TNone, t; split; [by right|split]
  | |- ∃ mc mk, task_split ?t mc mk ∧ respects _ (downstream _ _ _ _) _ _ ∧ _ =>
      exists TNone, t; split; [by right|split]
  | |- respects _ _ _ _ => apply respects_aside; [solve [auto with aside nocore]|]
  end.

Ltac serving :=
  repeat (
    fwd_unfold;
    cbn [respects bind call go loop mon_step mon_legal mon_split mon_final mon_panic task_mon
         task_step served fst snd fmap option_fmap option_map];
    try serve_step1).

Lemma task_dialTCP g n f a :
  respects task_mon (dialTCP g n a) (TAddr f a) (λ t _, t = TDialled f).
Proof. unfold dialTCP. by serving. Qed.

Lemma task_Accept g f n a c :
  respects task_mon (Accept g f n a c) (TAddr f a) (λ t _, t = TNone).
Proof.
  unfold Accept. serving;
    (apply respects_bind; eapply respects_mono; [apply task_dialTCP|]; intros t1 r ->);
    serving; done.
Qed.

Lemma task_serveClient g n f e c :
  respects task_mon (serveClient g n f e c) (TNew f) (λ _ _, True).
Proof.
  unfold serveClient. serving. apply respects_bind.
  eapply respects_mono; [apply task_Accept|]. intros t [] ->. by serving.
Qed.

Lemma task_admitClient g n c :
  respects task_mon (admitClient g n c) TNone (λ t _, t = TNone).
Proof.
  unfold admitClient, NewForwarder. serving.
  match goal with |- context [TNew ?f] => exists (TNew f), TNone end.
  split; [by left|]. split; [apply task_serveClient|done].
Qed.

Lemma task_listen g n ln : respects task_mon (listen g n ln) TNone (λ _ _, True).
Proof.
  unfold listen. exists (λ _ t, t = TNone). split; [done|]. intros [] t ->.
  serving; try done; apply respects_bind;
    (eapply respects_mono; [apply task_admitClient|]; by intros t' [] ->).
Qed.

Lemma task_serve g n ln : respects task_mon (serve g n ln) TNone (λ t _, t = TNone).
Proof.
  unfold serve, go. cbn [bind respects]. exists TNone, TNone. split; [by left|].
  split; [by apply respects_aside; [apply aside_closer|]|].
  exists TNone, TNone. split; [by left|]. split; [apply task_listen|done].
Qed.

End programs.

#[export] Hint Resolve aside_Close : aside.

(** * Soundness for a pool *)

Definition spec_compat (sa : TCPAddr) (c : fmem * list (obs fwdE)) (ms : list (gst * task))
  : Prop := compat c ms.*1 ∧ spec_inv sa c.1 c.2 ms.*1 ms.*2.

Section soundness.
Context (sa : TCPAddr).

Lemma spec_compat_step c ms i g t o c' g' t' :
  spec_compat sa c ms → ms !! i = Some (g, t) → logged c o c' →
  window_step g o = Some g' → task_step t o = Some t' →
  spec_compat sa c' (<[i := (g', t')]> ms).
Proof.
  intros [Hc Hs] [Hi1 Hi2]%both_lookup Hl H1 H2. split; rewrite !list_fmap_insert.
  - by eapply compat_step.
  - destruct Hl as [Hsem ->]. by eapply spec_step_ok.
Qed.

Lemma spec_compat_split c ms i g t gc gk tc tk :
  spec_compat sa c ms → ms !! i = Some (g, t) → window_split g gc gk → task_split t tc tk →
  spec_compat sa c (<[i := (gk, tk)]> ms ++ [(gc, tc)]).
Proof.
  intros [Hc (p & Hh & Ha & Ht)] [Hi1 Hi2]%both_lookup H1 H2.
  split; rewrite !fmap_app, !list_fmap_insert.
  - by eapply window_split_ok.
  - exists p. split; [done|]. split; [by eapply agrees_split|by eapply tasks_split].
Qed.

(** Nobody serves anybody when the service has just been started. *)
Lemma start_spec r i ms :
  started_by i ms.*1 → Forall (λ t, t = TNone) ms.*2 → spec_compat sa (init_mem sa r, []) ms.
Proof.
  intros Hs Hno. rewrite Forall_lookup in Hno. split; [by apply (start_window _ _ i)|].
  eexists. split; [constructor|]. split; [split|split]; try done.
  - intros f. simpl. rewrite lookup_empty. by split; [intros []|].
  - intros j g c Hj Hp. destruct (started_nothing i _ j g Hs Hj) as (_ & _ & _ & _ & Hc).
    by destruct (Hc c).
  - by intros j t f d ->%Hno.
  - by intros j f a Hj%Hno.
  - by intros j k tj tk f dj dk ->%Hno.
Qed.

(** What a state that keeps the invariant shows of the atomic service. *)
Lemma spec_shows s log ms :
  spec_compat sa (s, log) ms →
  ∃ p, history (Service sa ∅ false) (omap visible log) p ∧
    backend p = serverAddr (svc s) ∧
    (stopped p = true → isSuspended (svc s) = true) ∧
    (∀ f, is_Some (clients p !! f) ↔ ∃ x, heap s !! f = Some x ∧ chanClosed x = false).
Proof.
  intros [Hc (p & Hh & Ha & _)]. exists p. split; [done|]. split; [by destruct Ha|]. split.
  - intros Hst%(a_stopped _ _ _ _ Ha). by apply (open_flags _ _ _ Hc) in Hst as [? _].
  - intros f. pose proof (a_clients _ _ _ _ Ha f) as Hf. rewrite Hf. simpl.
    rewrite list_lookup_fmap.
    destruct (heap s !! f) as [x|]; simpl; [|by split; [|intros (? & ? & _)]].
    split; [intros [= Hx]; eauto|intros (y & [= <-] & ->); done].
Qed.

End soundness.
