(* ===== verification/FwdOwn.v ===== *)
(** Who owns what in a forwarding service: the locks, the connections, the right to close a
    channel, to set a field or to remove a list entry, and the debts to wait groups.  Every
    goroutine holds some of these tokens; the memory and the tokens of all goroutines agree
    after every step. *)
From S2P Require Import Prelude Go Errors Sys Kube Ownership FwdSys Fwd FwdSvc FwdWindow.
#[local] Open Scope go_scope.

(** * Tokens *)

(** How far the holder of a mutex [muxs[0]] is in closing: it has found [isUpClosed] false,
    and it has closed [chanEmergencyClose] too. *)
Inductive hold := HFresh | HOpen | HClosing.

Inductive token :=
| TMux (f : fref) (d : dir) (h : hold)
| TClosed (f : fref)
| TClient (f : fref)
| TServer (f : fref)
| TConn (c : conn)
| TElem (e : elem)
| TFwdrs
| TCond
| TSvc.

(** What has been seen and does not change any more: the two connections of a forwarder, that
    [chanEmergencyClose] has been made, and that a forwarder or a wait group exists; [copying]
    wait groups count the two copying goroutines of a forwarder, the others those that close
    the forwarders. *)
Inductive fact :=
| KClient (f : fref) (c : conn)
| KServer (f : fref) (c : conn)
| KEm (f : fref)
| KRef (f : fref)
| KWg (w : wgref) (copying : bool).

#[export] Instance hold_eq_dec : EqDecision hold.
Proof. solve_decision. Defined.
#[export] Instance token_eq_dec : EqDecision token.
Proof. solve_decision. Defined.
#[export] Instance fact_eq_dec : EqDecision fact.
Proof. solve_decision. Defined.

Record tst := Tst { toks : list token; owes : list debt; facts : list fact }.

(** Gives [old] away, one by one, and takes [new]. *)
Fixpoint swap (old new : list token) (m : tst) : option tst :=
  match old with
  | [] => Some (Tst (new ++ toks m) (owes m) (facts m))
  | t :: old => ts ← take1 t (toks m); swap old new (Tst ts (owes m) (facts m))
  end.

Definition learn (k : fact) (m : tst) : tst := Tst (toks m) (owes m) (k :: facts m).

Fixpoint hold_of (f : fref) (d : dir) (ts : list token) : option hold :=
  match ts with
  | [] => None
  | TMux f' d' h :: ts => if decide (f = f' ∧ d = d') then Some h else hold_of f d ts
  | _ :: ts => hold_of f d ts
  end.

(** * Levels *)

(** Who holds a token or has a debt may only wait for what is done with duties of lower
    levels: the locks, the copying goroutines of a forwarder, the end of a forwarder, the
    closing of all of them, the end of the service. *)
Definition tok_level (t : token) : nat :=
  match t with
  | TMux _ _ _ | TFwdrs | TCond => 0
  | TClosed _ => 2
  | TSvc => 7
  | TClient _ | TServer _ | TConn _ | TElem _ => 8
  end.

Definition wg_level (fs : list fact) (w : wgref) : nat :=
  if decide (KWg w true ∈ fs) then 1 else if decide (KWg w false ∈ fs) then 3 else 0.

(** The level of the duty an effect may have to wait for; 5 and 6 are the handshake's. *)
Definition wait_level (fs : list fact) {X : Type} (e : fwdE X) : option nat :=
  match e with
  | FMuxLock _ _ | SCondLock | SFwdrsLock => Some 0
  | WWait w => Some (wg_level fs w)
  | FRecvClosed _ => Some 2
  | SRecvSuspend => Some 5
  | SCondWait _ => Some 6
  | SRecvClose => Some 7
  | _ => None
  end.

(** All duties of the goroutine have levels above [n]. *)
Definition free (n : nat) (m : tst) : bool :=
  forallb (λ t, n <? tok_level t) (toks m) &&
  forallb (λ d, n <? wg_level (facts m) d.1) (owes m).

(** What an effect works on is known to exist. *)
Definition known_ok (m : tst) {X : Type} (e : fwdE X) : bool :=
  match e with
  | FGetClientConn f | FSetClientConn f _ | FGetServerConn f | FSetServerConn f _
  | FGetDataRate f | FSetDataRate f _ | FGetIsClosed f _ | FSetIsClosed f _ | FMuxLock f _
  | FMuxUnlock f _ | FHasEmergency f | FMakeEmergency f | FCloseEmergency f
  | FPollEmergency f | FCloseClosed f | FRecvClosed f | SPushBack f =>
      bool_decide (KRef f ∈ facts m)
  | WAdd w _ | WWait w => bool_decide (KWg w true ∈ facts m) || bool_decide (KWg w false ∈ facts m)
  | WDone w => bool_decide (w ∈ (owes m).*1)
  | _ => true
  end.

Definition permitted (m : tst) {X : Type} (e : fwdE X) : bool :=
  known_ok m e && match wait_level (facts m) e with Some n => free n m | None => true end.

Definition has_closed (ts : list token) : bool :=
  existsb (λ t, match t with TClosed _ => true | _ => false end) ts.

Definition entry_fact (r : option (elem * fref)) (m : tst) : tst :=
  match r with Some (_, f) => learn (KRef f) m | None => m end.

(** * The rules *)

Definition tok_next (m : tst) (o : obs fwdE) : option tst :=
  match o with
  | @Obs _ X e x =>
      match e in fwdE Y return Y → option tst with
      | FNew => λ f, learn (KRef f) <$> swap [] [TClosed f; TClient f; TServer f] m
      | FSetClientConn f c => λ _, learn (KClient f c) <$> swap [TClient f] [] m
      | FSetServerConn f c => λ _, learn (KServer f c) <$> swap [TServer f] [] m
      | FMuxLock f d => λ _, swap [] [TMux f d HFresh] m
      | FMuxUnlock f d => λ _, swap [TMux f d HFresh] [] m
      | FGetIsClosed f Up => λ b,
          match b, hold_of f Up (toks m) with
          | false, Some HFresh => swap [TMux f Up HFresh] [TMux f Up HOpen] m
          | _, _ => Some m
          end
      | FSetIsClosed f Up => λ _,
          match hold_of f Up (toks m) with
          | Some h => swap [TMux f Up h] [TMux f Up HFresh] m
          | None => None
          end
      | FHasEmergency f => λ b, Some (if b : bool then learn (KEm f) m else m)
      | FCloseEmergency f => λ _,
          if decide (KEm f ∈ facts m) then swap [TMux f Up HOpen] [TMux f Up HClosing] m
          else None
      | FCloseClosed f => λ _, swap [TClosed f] [] m
      | WNew => λ w, Some (learn (KWg w (has_closed (toks m))) m)
      | SFront => λ r, Some (entry_fact r m)
      | SNext _ => λ r, Some (entry_fact r m)
      | WAdd w n => λ _, Some (Tst (toks m) (replicate n (w, None) ++ owes m) (facts m))
      | WDone w => λ _, ds ← pay [] w (owes m); Some (Tst (toks m) ds (facts m))
      | NDialTCP _ _ _ | NAcceptTCP _ => λ r,
          match r with Ok c => swap [] [TConn c] m | Err _ => Some m end
      | NClose c => λ _, swap [TConn c] [] m
      | SCondLock => λ _, swap [] [TCond] m
      | SCondUnlock => λ _, swap [TCond] [] m
      | SFwdrsLock => λ _, swap [] [TFwdrs] m
      | SFwdrsUnlock => λ _, swap [TFwdrs] [] m
      | SPushBack f => λ e, swap [] [TElem e] m
      | SRemove e => λ _, swap [TElem e] [] m
      | SCloseClose => λ _, swap [TSvc] [] m
      | _ => λ _, Some m
      end x
  end.

Definition tok_step (m : tst) (o : obs fwdE) : option tst :=
  match o with @Obs _ X e x => if permitted m e then tok_next m o else None end.

(** What a goroutine may rely on, for the tokens it holds and the facts it knows. *)
Definition tok_legal (m : tst) (o : obs fwdE) : Prop :=
  match o with
  | @Obs _ X e x =>
      match e in fwdE Y return Y → Prop with
      | FGetClientConn f => λ r, ∀ c, KClient f c ∈ facts m → r = Some c
      | FGetServerConn f => λ r, ∀ c, KServer f c ∈ facts m → r = Some c
      | FMuxUnlock f d => λ ok, TMux f d HFresh ∈ toks m → ok = true
      | FCloseEmergency f => λ ok, KEm f ∈ facts m → TMux f Up HOpen ∈ toks m → ok = true
      | FCloseClosed f => λ ok, TClosed f ∈ toks m → ok = true
      | WDone w => λ ok, (w, None) ∈ owes m → ok = true
      | SCondUnlock => λ ok, TCond ∈ toks m → ok = true
      | SFwdrsUnlock => λ ok, TFwdrs ∈ toks m → ok = true
      | SCloseClose => λ ok, TSvc ∈ toks m → ok = true
      | _ => λ _, True
      end x
  end.

(** What a goroutine may end with: rights that nobody needs any more. *)
Definition may_drop (t : token) : bool :=
  match t with TClient _ | TServer _ => true | _ => false end.

(** [risk]: whether there are migrations, and the panics they may come to are to be expected. *)
Definition tok_mon (risk : bool) : monitor fwdE tst := {|
  mon_step := tok_step;
  mon_legal := tok_legal;
  mon_split m mc mk :=
    toks m ≡ₚ toks mc ++ toks mk ∧ owes m ≡ₚ owes mc ++ owes mk ∧
    facts mc ⊆ facts m ∧ facts mk ⊆ facts m;
  mon_final m := forallb may_drop (toks m) = true ∧ owes m = [];
  mon_panic _ msg := risk = true ∧ (msg = nil_dereference ∨ must_be_suspended msg)
|}.

(** * The invariant *)

Definition about (t : token) : option fref :=
  match t with TMux f _ _ | TClosed f | TClient f | TServer f => Some f | _ => None end.
Definition kabout (k : fact) : option fref :=
  match k with KClient f _ | KServer f _ | KEm f | KRef f => Some f | KWg _ _ => None end.

Record fwd_ok (T : list token) (F : list fact) (f : fref) (x : Forwarder) : Prop := {
  ok_held d : mux d x = true → ∃ h, TMux f d h ∈ T;
  ok_mux d h : TMux f d h ∈ T → mux d x = true;
  ok_one d h h' : TMux f d h ∈ T → TMux f d h' ∈ T → h = h';
  ok_up h : TMux f Up h ∈ T → h ≠ HFresh → isUpClosed x = false;
  ok_em : chanEmergencyClose x = Some true → isUpClosed x = true ∨ TMux f Up HClosing ∈ T;
  ok_unclosed : chanClosed x = false → TClosed f ∈ T;
  ok_closed : TClosed f ∈ T → chanClosed x = false;
  ok_client : TClient f ∈ T → clientConn x = None;
  ok_server : TServer f ∈ T → serverConn x = None;
  ok_kclient c : KClient f c ∈ F → clientConn x = Some c;
  ok_kserver c : KServer f c ∈ F → serverConn x = Some c;
  ok_kem : KEm f ∈ F → chanEmergencyClose x ≠ None
}.

Record svc_ok (T : list token) (p : ForwarderService) : Prop := {
  ok_fwdrs_held : muxFwdrs p = true → TFwdrs ∈ T;
  ok_fwdrs : TFwdrs ∈ T → muxFwdrs p = true;
  ok_cond_held : condL p = true → TCond ∈ T;
  ok_cond : TCond ∈ T → condL p = true;
  ok_svc : TSvc ∈ T → chanClose p = false;
  ok_svc_open : chanClose p = false → TSvc ∈ T;
  ok_entry e : e ∈ (fwdrs p).*1 → TElem e ∈ T;
  ok_elem e : TElem e ∈ T → e ∈ (fwdrs p).*1;
  ok_next e : e ∈ (fwdrs p).*1 → e < nextElem p
}.

Record conns_ok (T : list token) (l : list conn) : Prop := {
  ok_nodup : NoDup l;
  ok_conn c : TConn c ∈ T ↔ c ∈ l
}.

Record good (s : fmem) (T : list token) (D : list debt) (F : list fact) : Prop := {
  g_nodup : NoDup T;
  g_fwd f x : heap s !! f = Some x → fwd_ok T F f x;
  g_range t f : t ∈ T → about t = Some f → f < length (heap s);
  g_krange k f : k ∈ F → kabout k = Some f → f < length (heap s);
  g_kwg w b : KWg w b ∈ F → w < length (wgs s) ∧ ∀ b', KWg w b' ∈ F → b' = b;
  g_listed e f : (e, f) ∈ fwdrs (svc s) → f < length (heap s);
  g_svc : svc_ok T (svc s);
  g_conns : conns_ok T (opens s);
  g_debts : debt_inv (view_of s) D
}.

(** * Lemmas *)

(** The tokens that concern neither a forwarder nor a connection are the service's. *)
Definition of_svc (t : token) : bool :=
  match t with TElem _ | TFwdrs | TCond | TSvc => true | _ => false end.

Lemma fwd_ok_frame T T' F F' f x :
  (∀ t, about t = Some f → t ∈ T' ↔ t ∈ T) → (∀ k, kabout k = Some f → k ∈ F' → k ∈ F) →
  fwd_ok T F f x → fwd_ok T' F' f x.
Proof.
  intros HT HF []. split; intros *; rewrite ?HT by done; eauto.
  intros [h Hh]%ok_held0. exists h. by apply HT.
Qed.

Lemma svc_ok_frame T T' p :
  (∀ t, of_svc t = true → t ∈ T' ↔ t ∈ T) → svc_ok T p → svc_ok T' p.
Proof. intros HT []. split; intros *; rewrite ?HT by done; eauto. Qed.

Lemma conns_ok_frame T T' l : (∀ c, TConn c ∈ T' ↔ TConn c ∈ T) → conns_ok T l → conns_ok T' l.
Proof. intros HT []. split; [done|]. intros c. by rewrite HT. Qed.

Lemma good_perm s T T' D D' F F' :
  T ≡ₚ T' → D ≡ₚ D' → F' ⊆ F → good s T D F → good s T' D' F'.
Proof.
  intros HT HD HF [Hn Hf Hr Hk Hw Hl Hs Hc Hd].
  assert (Hin : ∀ t, t ∈ T' ↔ t ∈ T) by (intros t; by rewrite HT).
  split; [by rewrite <-HT| | | | |done| | |].
  - intros f x Hx. eapply fwd_ok_frame; [| |by apply Hf]; [by intros; apply Hin|].
    intros k _ Hk'. by apply HF.
  - intros t f. rewrite Hin. apply Hr.
  - intros k f Hk'. by apply Hk, HF.
  - intros w b Hwb. destruct (Hw w b) as [Hlt Hu]; [by apply HF|]. split; [done|].
    intros b' Hb'. by apply Hu, HF.
  - by eapply svc_ok_frame; [intros; apply Hin|].
  - by eapply conns_ok_frame; [intros; apply Hin|].
  - by eapply debt_perm.
Qed.

(** What a change of one forwarder, of the service or of the connections needs. *)
Section changes.
Context (s : fmem) (old new R : list token) (D : list debt) (F : list fact).
Hypothesis Hgood : good s (old ++ R) D F.
Hypothesis Hnew : NoDup new.
Hypothesis Hfresh : ∀ t, t ∈ new → t ∉ R.

Lemma changed_nodup : NoDup (new ++ R).
Proof.
  apply NoDup_app. split; [done|]. split; [done|].
  by destruct (proj1 (NoDup_app _ _) (g_nodup _ _ _ _ Hgood)) as (_ & _ & ?).
Qed.

Lemma good_poke f x y F' :
  heap s !! f = Some x →
  (∀ t, t ∈ old ++ new → about t = Some f) →
  (∀ k, k ∈ F' → k ∈ F ∨ kabout k = Some f) →
  fwd_ok (new ++ R) F' f y →
  good (set_heap (<[f := y]> (heap s)) s) (new ++ R) D F'.
Proof.
  intros Hf Hab HF Hy. destruct Hgood as [Hn Hfwd Hr Hk Hw Hlst Hs Hc Hd].
  assert (Hin : ∀ t, about t ≠ Some f → t ∈ new ++ R ↔ t ∈ old ++ R).
  { intros t Ht. rewrite !elem_of_app. split; intros [Hx|Hx]; auto; exfalso;
      apply Ht, Hab, elem_of_app; auto. }
  pose proof (lookup_lt_Some _ _ _ Hf) as Hlt.
  split; [apply changed_nodup| | | | | | | |done]; simpl.
  - intros g z Hg. at_insert Hg; [done|].
    eapply fwd_ok_frame; [| |by apply Hfwd].
    + intros t Ht. apply Hin. congruence.
    + intros k Hkg Hk'. destruct (HF k Hk') as [?|?]; [done|congruence].
  - intros t g Ht Hg. rewrite length_insert.
    destruct (decide (g = f)) as [->|Hne]; [done|].
    apply (Hr t); [|done]. apply Hin; [congruence|done].
  - intros k g Hk' Hg. rewrite length_insert.
    destruct (HF k Hk') as [?|Hkf]; [by apply (Hk k)|by simplify_eq].
  - intros w b [Hwb|?]%HF; [|done]. destruct (Hw w b Hwb) as [Hlen Hu]. split; [done|].
    intros b' [Hb'|?]%HF; [by apply Hu|done].
  - intros e g. rewrite length_insert. apply Hlst.
  - eapply svc_ok_frame; [|exact Hs]. intros t Ht. apply Hin. by destruct t.
  - eapply conns_ok_frame; [|exact Hc]. intros c. by apply Hin.
Qed.

Lemma good_svc p :
  (∀ t, t ∈ old ++ new → of_svc t = true) → svc_ok (new ++ R) p →
  (∀ e f, (e, f) ∈ fwdrs p → (e, f) ∈ fwdrs (svc s) ∨ KRef f ∈ F) →
  good (set_svc p s) (new ++ R) D F.
Proof.
  intros Hab Hp Hls. destruct Hgood as [Hn Hfwd Hr Hk Hw Hlst Hs Hc Hd].
  assert (Hin : ∀ t, of_svc t = false → t ∈ new ++ R ↔ t ∈ old ++ R).
  { intros t Ht. rewrite !elem_of_app. split; intros [Hx|Hx]; auto; exfalso;
      (rewrite Hab in Ht; [discriminate|]); apply elem_of_app; auto. }
  split; [apply changed_nodup| | |done|done| |done| |done]; simpl.
  - intros f x Hx. eapply fwd_ok_frame; [| |by apply Hfwd]; [|by intros].
    intros t Ht. apply Hin. by destruct t.
  - intros t f Ht Hf. apply (Hr t); [|done]. apply Hin; [by destruct t|done].
  - intros e f [?|Hkf]%Hls; [by eapply Hlst|by apply (Hk (KRef f))].
  - eapply conns_ok_frame; [|exact Hc]. intros c. by apply Hin.
Qed.

Lemma good_conns l :
  (∀ t, t ∈ old ++ new → ∃ c, t = TConn c) → conns_ok (new ++ R) l →
  good (set_opens l s) (new ++ R) D F.
Proof.
  intros Hab Hl. destruct Hgood as [Hn Hfwd Hr Hk Hw Hlst Hs Hc Hd].
  assert (Hin : ∀ t, (∀ c, t ≠ TConn c) → t ∈ new ++ R ↔ t ∈ old ++ R).
  { intros t Ht. rewrite !elem_of_app. split; intros [Hx|Hx]; auto; exfalso;
      destruct (Hab t) as [c Hcc]; (try by apply elem_of_app; auto); by apply (Ht c). }
  split; [apply changed_nodup| | |done|done|done| |done|done]; simpl.
  - intros f x Hx. eapply fwd_ok_frame; [| |by apply Hfwd]; [|by intros].
    intros t Ht. apply Hin. intros c ->. done.
  - intros t f Ht Hf. apply (Hr t); [|done]. apply Hin; [by intros c ->|done].
  - eapply svc_ok_frame; [|exact Hs]. intros t Ht. apply Hin. by intros c ->.
Qed.

End changes.

(** ** One forwarder, change by change *)

Lemma mux_upd d d' b x : mux d' (upd_mux d b x) = if decide (d = d') then b else mux d' x.
Proof. by destruct d, d'. Qed.

(** Membership in explicit lists. *)
Ltac mem :=
  repeat match goal with
  | H : _ ∈ [] |- _ => by apply not_elem_of_nil in H
  | H : _ ∈ _ :: _ |- _ => apply elem_of_cons in H as [H|H]; [try discriminate H; simplify_eq|]
  | H : _ ∈ _ ++ _ |- _ => apply elem_of_app in H as [H|H]
  end.

(** The clauses that say that a token is held. *)
Ltac fwd_rest :=
  match goal with
  | E : ∀ d, _ = true → ∃ h, _ |- ∃ h, TMux _ ?d h ∈ _ =>
      let h := fresh "h" in let Hh := fresh "Hh" in
      destruct (E d) as [h Hh]; [assumption|]; mem;
      eauto using list_elem_of_here, list_elem_of_further
  | E : _ = Some true → _ ∨ _ |- _ ∨ _ =>
      let Hh := fresh "Hh" in
      destruct E as [?|Hh]; [assumption|by left|mem;
        auto using list_elem_of_here, list_elem_of_further]
  | E : _ = false → TClosed _ ∈ _ |- TClosed _ ∈ _ =>
      let Hh := fresh "Hh" in
      pose proof (E ltac:(assumption)) as Hh; mem;
      auto using list_elem_of_here, list_elem_of_further
  | E : TClient ?f ∈ _ :: _ → _, E' : ∀ c, KClient ?f c ∈ _ → _, H : KClient ?f _ ∈ _ |- _ =>
      apply E' in H; rewrite E in H by (by left); discriminate H
  | E : TServer ?f ∈ _ :: _ → _, E' : ∀ c, KServer ?f c ∈ _ → _, H : KServer ?f _ ∈ _ |- _ =>
      apply E' in H; rewrite E in H by (by left); discriminate H
  end.

Ltac fwd_clauses H :=
  destruct H;
  split; cbn [mux isClosed mux0 mux1 isUpClosed isDownClosed chanClosed clientConn serverConn
              chanEmergencyClose upd_client upd_server upd_mux upd_isClosed upd_closed upd_rate
              upd_emergency app] in *;
  intros *; intros; mem; eauto using list_elem_of_further; try congruence; try fwd_rest.

Section forwarders.
Context (R : list token) (F : list fact) (f : fref) (x : Forwarder).

Lemma ok_new T :
  (∀ t, t ∈ T → about t ≠ Some f) → (∀ k, k ∈ F → kabout k ≠ Some f) →
  fwd_ok ([TClosed f; TClient f; TServer f] ++ T) (KRef f :: F) f mkNewForwarder.
Proof.
  intros HT HF. split; cbn; intros *; intros; mem; try done;
    try (by destruct d); try (by left); exfalso;
    first [eapply HT; [eassumption|reflexivity] | eapply HF; [eassumption|reflexivity]].
Qed.

Lemma ok_set_client c :
  NoDup (TClient f :: R) → fwd_ok ([TClient f] ++ R) F f x →
  fwd_ok ([] ++ R) (KClient f c :: F) f (upd_client c x).
Proof. intros [Hn _]%NoDup_cons Hx. fwd_clauses Hx. Qed.

Lemma ok_set_server c :
  NoDup (TServer f :: R) → fwd_ok ([TServer f] ++ R) F f x →
  fwd_ok ([] ++ R) (KServer f c :: F) f (upd_server c x).
Proof. intros [Hn _]%NoDup_cons Hx. fwd_clauses Hx. Qed.

Lemma ok_rate n : fwd_ok R F f x → fwd_ok R F f (upd_rate n x).
Proof. intros Hx. fwd_clauses Hx. Qed.

Lemma ok_lock d :
  mux d x = false → fwd_ok R F f x → fwd_ok ([TMux f d HFresh] ++ R) F f (upd_mux d true x).
Proof.
  intros Hd Hx. fwd_clauses Hx; rewrite ?mux_upd in *; repeat case_decide; simplify_eq; eauto;
    try (eexists; by left); try fwd_rest;
    match goal with H : TMux _ _ _ ∈ R |- _ => apply ok_mux0 in H; congruence end.
Qed.

Lemma ok_unlock d :
  NoDup (TMux f d HFresh :: R) → fwd_ok ([TMux f d HFresh] ++ R) F f x →
  fwd_ok ([] ++ R) F f (upd_mux d false x).
Proof.
  intros [Hn _]%NoDup_cons Hx. fwd_clauses Hx; rewrite ?mux_upd in *; repeat case_decide;
    simplify_eq; eauto using list_elem_of_further; try fwd_rest.
  assert (h = HFresh) as -> by (eapply ok_one0; [by right|by left]). done.
Qed.

(** A mutex has one holder, who changes his mind. *)
Ltac one_holder Hn :=
  match goal with
  | E : ∀ d h h', TMux _ d h ∈ TMux _ _ ?h0 :: _ → _, H : TMux _ ?d ?h ∈ R |- _ =>
      exfalso; apply Hn;
      rewrite <-(E d h h0 (list_elem_of_further _ _ _ H) (list_elem_of_here _ _)); exact H
  | E : ∀ d h, TMux _ d h ∈ TMux _ _ ?h0 :: _ → _ |- mux _ _ = true =>
      exact (E _ h0 (list_elem_of_here _ _))
  end.

Lemma ok_found_open :
  NoDup (TMux f Up HFresh :: R) → isUpClosed x = false → fwd_ok ([TMux f Up HFresh] ++ R) F f x →
  fwd_ok ([TMux f Up HOpen] ++ R) F f x.
Proof. intros [Hn _]%NoDup_cons Hu Hx. fwd_clauses Hx; one_holder Hn. Qed.

Lemma ok_set_up h :
  NoDup (TMux f Up h :: R) → fwd_ok ([TMux f Up h] ++ R) F f x → fwd_ok ([TMux f Up HFresh] ++ R) F f (upd_isClosed Up x).
Proof. intros [Hn _]%NoDup_cons Hx. fwd_clauses Hx; one_holder Hn. Qed.

Lemma ok_set_down : fwd_ok R F f x → fwd_ok R F f (upd_isClosed Down x).
Proof. intros Hx. fwd_clauses Hx. Qed.

Lemma ok_has_emergency :
  is_Some (chanEmergencyClose x) → fwd_ok R F f x → fwd_ok R (KEm f :: F) f x.
Proof. intros [b Hb] Hx. fwd_clauses Hx. Qed.

Lemma ok_make_emergency : fwd_ok R F f x → fwd_ok R F f (upd_emergency (Some false) x).
Proof. intros Hx. fwd_clauses Hx. Qed.

Lemma ok_close_emergency :
  NoDup (TMux f Up HOpen :: R) → fwd_ok ([TMux f Up HOpen] ++ R) F f x →
  fwd_ok ([TMux f Up HClosing] ++ R) F f (upd_emergency (const true <$> chanEmergencyClose x) x).
Proof.
  intros [Hn _]%NoDup_cons Hx. fwd_clauses Hx; try one_holder Hn.
  - by apply (ok_up0 HOpen); [left|].
  - right. by left.
  - by destruct (chanEmergencyClose x); [|by apply ok_kem0].
Qed.

Lemma ok_close_closed :
  NoDup (TClosed f :: R) → fwd_ok ([TClosed f] ++ R) F f x → fwd_ok ([] ++ R) F f (upd_closed x).
Proof. intros [Hn _]%NoDup_cons Hx. fwd_clauses Hx. Qed.

End forwarders.

(** ** The service, change by change *)

Ltac svc_clauses H :=
  destruct H;
  split; cbn [serverAddr muxFwdrs fwdrs nextElem condL waiting nextTicket chanSuspend isSuspended
              chanClose svcDataRate upd_serverAddr upd_svcRate upd_muxFwdrs upd_fwdrs upd_cond
              upd_chanSuspend upd_isSuspended upd_chanClose app] in *;
  intros *; intros; mem;
  eauto using list_elem_of_here, list_elem_of_further; try congruence;
  try match goal with
  | E : ?b = ?v → ?t ∈ _ :: _, H : ?b = ?v |- ?t ∈ _ => apply E in H; mem;
      auto using list_elem_of_further
  | E : ∀ e, e ∈ _ → TElem e ∈ _ :: _, H : ?e ∈ _ |- TElem ?e ∈ _ => apply E in H; mem;
      auto using list_elem_of_further
  end.

Section services.
Context (R : list token) (p : ForwarderService).

Lemma ok_addr a : svc_ok R p → svc_ok R (upd_serverAddr a p).
Proof. intros Hp. svc_clauses Hp. Qed.
Lemma ok_svcRate n : svc_ok R p → svc_ok R (upd_svcRate n p).
Proof. intros Hp. svc_clauses Hp. Qed.
Lemma ok_chanSuspend b : svc_ok R p → svc_ok R (upd_chanSuspend b p).
Proof. intros Hp. svc_clauses Hp. Qed.
Lemma ok_suspended b : svc_ok R p → svc_ok R (upd_isSuspended b p).
Proof. intros Hp. svc_clauses Hp. Qed.
Lemma ok_waiting w n : svc_ok R p → svc_ok R (upd_cond (condL p) w n p).
Proof. intros Hp. svc_clauses Hp. Qed.

Lemma ok_fwdrs_lock : svc_ok R p → svc_ok ([TFwdrs] ++ R) (upd_muxFwdrs true p).
Proof. intros Hp. svc_clauses Hp. Qed.
Lemma ok_fwdrs_unlock :
  NoDup (TFwdrs :: R) → svc_ok ([TFwdrs] ++ R) p → svc_ok ([] ++ R) (upd_muxFwdrs false p).
Proof. intros [Hn _]%NoDup_cons Hp. svc_clauses Hp. Qed.
Lemma ok_cond_lock w n : svc_ok R p → svc_ok ([TCond] ++ R) (upd_cond true w n p).
Proof. intros Hp. svc_clauses Hp. Qed.
Lemma ok_cond_unlock w n :
  NoDup (TCond :: R) → svc_ok ([TCond] ++ R) p → svc_ok ([] ++ R) (upd_cond false w n p).
Proof. intros [Hn _]%NoDup_cons Hp. svc_clauses Hp. Qed.
Lemma ok_svc_close :
  NoDup (TSvc :: R) → svc_ok ([TSvc] ++ R) p → svc_ok ([] ++ R) (upd_chanClose p).
Proof. intros [Hn _]%NoDup_cons Hp. svc_clauses Hp. Qed.
Lemma ok_push f :
  svc_ok R p →
  svc_ok ([TElem (nextElem p)] ++ R) (upd_fwdrs (fwdrs p ++ [(nextElem p, f)]) (S (nextElem p)) p).
Proof.
  intros Hp. svc_clauses Hp; rewrite fmap_app in *; mem; simpl in *; mem; rewrite ?elem_of_app;
    try (by left); auto using list_elem_of_further.
  - right. by left.
  - pose proof (ok_next0 e H). lia.
Qed.
Lemma ok_remove e :
  NoDup (TElem e :: R) → svc_ok ([TElem e] ++ R) p →
  svc_ok ([] ++ R) (upd_fwdrs (filter (λ ef, ef.1 ≠ e) (fwdrs p)) (nextElem p) p).
Proof.
  intros [Hn _]%NoDup_cons Hp.
  assert (Hin : ∀ e', e' ∈ (filter (λ ef, ef.1 ≠ e) (fwdrs p)).*1 ↔ e' ≠ e ∧ e' ∈ (fwdrs p).*1).
  { intros e'. rewrite !list_elem_of_fmap. split.
    - intros (ef & -> & [Hne Hef]%list_elem_of_filter). eauto.
    - intros (Hne & ef & -> & Hef). exists ef. split; [done|]. by apply list_elem_of_filter. }
  svc_clauses Hp; rewrite ?Hin in *.
  - destruct H as [Hne H]. apply ok_entry0 in H. by mem.
  - split; [by intros ->|]. apply ok_elem0. by right.
  - by apply ok_next0, H.
Qed.

End services.

(** ** The connections *)

Lemma ok_open R l c : c ∉ l → conns_ok R l → conns_ok ([TConn c] ++ R) (c :: l).
Proof.
  intros Hc []. split; [by apply NoDup_cons|]. intros c'. simpl. rewrite !elem_of_cons, ok_conn0.
  naive_solver.
Qed.

Lemma ok_close R l l' c :
  NoDup (TConn c :: R) → l ≡ₚ c :: l' → conns_ok ([TConn c] ++ R) l → conns_ok ([] ++ R) l'.
Proof.
  intros [Hn _]%NoDup_cons Hl []. rewrite Hl in ok_nodup0. apply NoDup_cons in ok_nodup0 as [Hc Hd].
  split; [done|]. intros c'. specialize (ok_conn0 c'). rewrite Hl in ok_conn0. simpl in *.
  rewrite !elem_of_cons in ok_conn0. split; intros Hin.
  - destruct (proj1 ok_conn0) as [->|?]; [by right|done|done].
  - destruct (proj2 ok_conn0) as [[= ->]|?]; [by right|done|done].
Qed.

(** ** A step of one goroutine *)

Lemma swap_spec old new m m' :
  swap old new m = Some m' →
  ∃ rest, toks m ≡ₚ old ++ rest ∧ toks m' = new ++ rest ∧ owes m' = owes m ∧ facts m' = facts m.
Proof.
  revert m. induction old as [|t old IH]; intros m; simpl; [intros [= <-]; by exists (toks m)|].
  destruct (take1 t (toks m)) as [ts|] eqn:Ht; simpl; [|done]. intros Hs.
  apply take1_Permutation in Ht. destruct (IH _ Hs) as (rest & Hr & Hm). simpl in *.
  exists rest. split; [by rewrite Ht, Hr|done].
Qed.

#[global] Arguments swap : simpl never.

Lemma hold_of_elem f d ts h : hold_of f d ts = Some h → TMux f d h ∈ ts.
Proof.
  induction ts as [|t ts IH]; simpl; [done|].
  destruct t; try (intros Hh; right; by apply IH).
  case_decide as Hd; [|intros Hh; right; by apply IH].
  destruct Hd as [-> ->]. intros [= ->]. by left.
Qed.

(** The tokens of a goroutine, with those of the others, before and after a swap. *)
Lemma good_swap s D F m m' old new R :
  swap old new m = Some m' → good s (toks m ++ R) D F →
  ∃ R', good s (old ++ R') D F ∧ toks m' ++ R ≡ₚ new ++ R' ∧ owes m' = owes m ∧
        facts m' = facts m.
Proof.
  intros (rest & Hm & Hm' & Ho & Hf)%swap_spec Hg. exists (rest ++ R).
  split; [|by rewrite Hm', app_assoc].
  eapply good_perm; [|done..|exact Hg]. by rewrite Hm, app_assoc.
Qed.

(** Changes by a goroutine [m] that swaps [old] for [new]. *)
Section swaps.
Context (s : fmem) (old new : list token) (m m1 : tst) (R : list token) (D : list debt).
Context (F : list fact).
Hypothesis Hg : good s (toks m ++ R) D F.
Hypothesis Hsw : swap old new m = Some m1.
Hypothesis Hnew : NoDup new.

Lemma swap_poke F' f x y :
  heap s !! f = Some x →
  (∀ t, t ∈ old ++ new → about t = Some f) →
  (∀ k, k ∈ F' → k ∈ F ∨ kabout k = Some f) →
  (∀ R', NoDup (old ++ R') → fwd_ok (old ++ R') F f x →
     (∀ t, t ∈ new → t ∉ R') ∧ fwd_ok (new ++ R') F' f y) →
  good (set_heap (<[f := y]> (heap s)) s) (toks m1 ++ R) D F'.
Proof.
  intros Hf Hab HF Hy. destruct (good_swap _ _ _ _ _ _ _ _ Hsw Hg) as (R' & Hg' & HR & _).
  destruct (Hy R') as [Hfr Hok]; [by apply Hg'|by apply Hg'|].
  eapply good_perm; [symmetry; exact HR|done..|]. by eapply good_poke.
Qed.

Lemma swap_same_poke F' f x :
  heap s !! f = Some x →
  (∀ t, t ∈ old ++ new → about t = Some f) →
  (∀ k, k ∈ F' → k ∈ F ∨ kabout k = Some f) →
  (∀ R', NoDup (old ++ R') → fwd_ok (old ++ R') F f x →
     (∀ t, t ∈ new → t ∉ R') ∧ fwd_ok (new ++ R') F' f x) →
  good s (toks m1 ++ R) D F'.
Proof.
  intros Hf Hab HF Hy. replace s with (set_heap (<[f := x]> (heap s)) s) by
    (unfold set_heap; rewrite list_insert_id by done; by destruct s).
  by eapply swap_poke.
Qed.

Lemma swap_svc p :
  (∀ t, t ∈ old ++ new → of_svc t = true) →
  (∀ R', NoDup (old ++ R') → svc_ok (old ++ R') (svc s) →
     (∀ t, t ∈ new → t ∉ R') ∧ svc_ok (new ++ R') p) →
  (∀ e f, (e, f) ∈ fwdrs p → (e, f) ∈ fwdrs (svc s) ∨ KRef f ∈ F) →
  good (set_svc p s) (toks m1 ++ R) D F.
Proof.
  intros Hab Hy Hls. destruct (good_swap _ _ _ _ _ _ _ _ Hsw Hg) as (R' & Hg' & HR & _).
  destruct (Hy R') as [Hfr Hok]; [by apply Hg'|by apply Hg'|].
  eapply good_perm; [symmetry; exact HR|done..|]. by eapply good_svc.
Qed.

Lemma swap_conns l :
  (∀ t, t ∈ old ++ new → ∃ c, t = TConn c) →
  (∀ R', NoDup (old ++ R') → conns_ok (old ++ R') (opens s) →
     (∀ t, t ∈ new → t ∉ R') ∧ conns_ok (new ++ R') l) →
  good (set_opens l s) (toks m1 ++ R) D F.
Proof.
  intros Hab Hy. destruct (good_swap _ _ _ _ _ _ _ _ Hsw Hg) as (R' & Hg' & HR & _).
  destruct (Hy R') as [Hfr Hok]; [by apply Hg'|by apply Hg'|].
  eapply good_perm; [symmetry; exact HR|done..|]. by eapply good_conns.
Qed.

End swaps.

Lemma swap_nothing m : swap [] [] m = Some m.
Proof. by destruct m. Qed.

(** What exists may be known. *)
Lemma fwd_ok_exists T F f x k :
  (∀ g c, k ≠ KClient g c) → (∀ g c, k ≠ KServer g c) → (∀ g, k ≠ KEm g) →
  fwd_ok T F f x → fwd_ok T (k :: F) f x.
Proof.
  intros H1 H2 H3 []. split; try done; intros *; intros Hin; apply elem_of_cons in Hin as [<-|Hin];
    eauto; exfalso; [by eapply H1|by eapply H2|by eapply H3].
Qed.

Lemma good_ref s T D F f : f < length (heap s) → good s T D F → good s T D (KRef f :: F).
Proof.
  intros Hf [Hn Hfwd Hr Hk Hw Hlst Hs Hc Hd]. split; try done.
  - intros g x Hx. apply fwd_ok_exists; [done..|by apply Hfwd].
  - intros k g [->|Hin]%elem_of_cons Hg; [by simplify_eq/=|by apply (Hk k)].
  - intros w b Hin. mem. destruct (Hw w b) as [? Hu]; [done|]. split; [done|].
    intros b' Hb'. mem. by apply Hu.
Qed.

(** A new forwarder. *)
Lemma good_new s T D F :
  good s T D F →
  good (set_heap (heap s ++ [mkNewForwarder]) s)
    ([TClosed (length (heap s)); TClient (length (heap s)); TServer (length (heap s))] ++ T) D
    (KRef (length (heap s)) :: F).
Proof.
  intros [Hn Hfwd Hr Hk Hw Hlst Hs Hc Hd]. set (f := length (heap s)).
  assert (HT : ∀ t, t ∈ T → about t ≠ Some f).
  { intros t Ht Ha. specialize (Hr t f Ht Ha). unfold f in Hr. lia. }
  assert (HF : ∀ k, k ∈ F → kabout k ≠ Some f).
  { intros k Hkk Ha. specialize (Hk k f Hkk Ha). unfold f in Hk. lia. }
  assert (Hin : ∀ t, about t ≠ Some f →
            t ∈ [TClosed f; TClient f; TServer f] ++ T ↔ t ∈ T).
  { intros t Ht. simpl. rewrite !elem_of_cons. naive_solver. }
  split; simpl; [|intros g x Hg|intros t g Ht Ha; rewrite length_app; simpl
                 |intros k g Hkk Hg; rewrite length_app; simpl| | | | |done].
  - repeat apply NoDup_cons_2; try done; intros Hx; mem; by apply HT in Hx.
  - apply lookup_app_Some in Hg as [Hg|[Hl Hg]].
    + pose proof (lookup_lt_Some _ _ _ Hg). apply fwd_ok_exists; [done..|].
      eapply fwd_ok_frame; [| |by apply Hfwd]; [|done].
      intros t Ht. apply Hin. rewrite Ht. unfold f. intros [= Hx]. lia.
    + apply list_lookup_singleton_Some in Hg as [Hg <-].
      assert (g = f) as -> by (unfold f; lia). by apply ok_new.
  - destruct (decide (g = f)) as [->|Hne]; [unfold f; lia|].
    apply Hin in Ht; [|congruence]. specialize (Hr t g Ht Ha). lia.
  - apply elem_of_cons in Hkk as [->|Hkk]; [simplify_eq/=; lia|].
    specialize (Hk k g Hkk Hg). lia.
  - intros w b Hwb. mem. destruct (Hw w b) as [? Hu]; [done|]. split; [done|].
    intros b' Hb'. mem. by apply Hu.
  - intros e g Hg%Hlst. rewrite length_app. lia.
  - eapply svc_ok_frame; [|exact Hs]. intros t Ht. apply Hin. by destruct t.
  - eapply conns_ok_frame; [|exact Hc]. intros c. by apply Hin.
Qed.

Ltac about_one :=
  let t := fresh in let Ht := fresh in
  intros t Ht; simpl in Ht; mem; first [reflexivity | eauto].

(** The invariant after a step of [m] to [m'] that leaves the debts alone. *)
Definition stepped (s' : fmem) (m m' : tst) (R : list token) (D : list debt) (F : list fact)
  : Prop :=
  owes m' = owes m ∧
  ∃ F', good s' (toks m' ++ R) D F' ∧ facts m' ⊆ F' ∧ F ⊆ F'.

Lemma stepped_swap s' m m1 m' k old new R D F :
  swap old new m = Some m1 → facts m ⊆ F →
  good s' (toks m1 ++ R) D (k ++ F) →
  m' = Tst (toks m1) (owes m1) (k ++ facts m1) →
  stepped s' m m' R D F.
Proof.
  intros (_ & _ & _ & Ho & Hf)%swap_spec HF Hg ->. split; [done|]. exists (k ++ F).
  split; [done|]. simpl. rewrite Hf. set_solver.
Qed.

Ltac swap_fin := eassumption || apply swap_nothing.

(** A step of [m] to [m1] by [Hst] that changes the forwarder of [E]; [k] is learned. *)
Ltac poked lem k Hst :=
  match goal with
  | Hg : good _ _ _ _, E : heap _ !! _ = Some _ |- _ =>
      eapply (stepped_swap _ _ _ _ k); [exact Hst|done| |];
      [ eapply (lem _ _ _ _ _ _ _ _ Hg Hst);
        [repeat constructor; set_solver|exact E|about_one|simpl; set_solver|
         intros R' Hn Hok; split; [intros ? ?; mem|]]
      | try done; by match goal with |- ?m = _ => destruct m end ]
  end.

Lemma sound_fwd s m m' R D F X (e : fwdE X) x s' r :
  good s (toks m ++ R) D F → facts m ⊆ F →
  match e with
  | FNew | FGetClientConn _ | FSetClientConn _ _ | FGetServerConn _ | FSetServerConn _ _
  | FGetDataRate _ | FSetDataRate _ _ | FGetIsClosed _ _ | FSetIsClosed _ _ | FMuxLock _ _
  | FMuxUnlock _ _ | FHasEmergency _ | FMakeEmergency _ | FCloseEmergency _
  | FPollEmergency _ | FCloseClosed _ | FRecvClosed _ => True
  | _ => False
  end →
  mem_do s e = Some r → r = Some (x, s') → tok_next m (Obs e x) = Some m' →
  stepped s' m m' R D F.
Proof.
  intros Hg HF He Hr -> Hst.
  assert (Hstay : ∀ s, good s (toks m ++ R) D F → stepped s m m R D F).
  { intros s1 Hs1. split; [done|]. by exists F. }
  destruct e; try done; simpl in Hr, Hst; clear He;
    injection Hr as Hr; try (open_heap Hr); try (simplify_eq; by apply Hstay).
  - split; [done|]. exists (KRef (length (heap s)) :: F).
    split; [by apply good_new|simpl; set_solver].
  - destruct (swap [TClient f] [] m) as [m1|] eqn:Hsw; simplify_eq/=.
    poked swap_poke [KClient f c] Hsw. by apply ok_set_client.
  - destruct (swap [TServer f] [] m) as [m1|] eqn:Hsw; simplify_eq/=.
    poked swap_poke [KServer f c] Hsw. by apply ok_set_server.
  - poked swap_poke ([] : list fact) (swap_nothing m'). by apply ok_rate.
  - destruct d; simpl in Hst; [|simplify_eq; by apply Hstay].
    destruct (isUpClosed f0) eqn:Hu; [simplify_eq; by apply Hstay|].
    destruct (hold_of f Up (toks m)) as [[]|] eqn:Hh; try (simplify_eq; by apply Hstay).
    poked swap_same_poke ([] : list fact) Hst; [|by apply ok_found_open].
    intros Hx. by pose proof (ok_one _ _ _ _ Hok Up HFresh HOpen
      (list_elem_of_here _ _) (list_elem_of_further _ _ _ Hx)).
  - destruct d; simpl in Hst.
    + destruct (hold_of f Up (toks m)) as [h|] eqn:Hh; [|done].
      poked swap_poke ([] : list fact) Hst; [|by eapply ok_set_up].
      intros Hx. pose proof (ok_one _ _ _ _ Hok Up h HFresh
        (list_elem_of_here _ _) (list_elem_of_further _ _ _ Hx)) as ->.
      by apply NoDup_cons in Hn as [Hn _].
    + simplify_eq. poked swap_poke ([] : list fact) (swap_nothing m'). by apply ok_set_down.
  - apply negb_true_iff in E0. poked swap_poke ([] : list fact) Hst; [|by apply ok_lock].
    intros Hx. apply (ok_mux _ _ _ _ Hok) in Hx. congruence.
  - poked swap_poke ([] : list fact) Hst. by apply ok_unlock.
  - case_bool_decide as He; [|by apply Hstay].
    poked swap_same_poke [KEm f] (swap_nothing m). by apply ok_has_emergency.
  - poked swap_poke ([] : list fact) (swap_nothing m'). by apply ok_make_emergency.
  - case_decide as Hk; [|done]. poked swap_poke ([] : list fact) Hst.
    + intros Hx. by pose proof (ok_one _ _ _ _ Hok Up HOpen HClosing
        (list_elem_of_here _ _) (list_elem_of_further _ _ _ Hx)).
    + apply ok_close_emergency; [done|done].
  - poked swap_poke ([] : list fact) Hst. by apply ok_close_closed.
  - poked swap_poke ([] : list fact) (swap_nothing m'). done.
Qed.

(** A step of [m] to [m1] by [Hst] that changes the service, or the connections. *)
Ltac served lem Hst :=
  match goal with
  | Hg : good _ _ _ _ |- _ =>
      eapply (stepped_swap _ _ _ _ ([] : list fact)); [exact Hst|done| |];
      [ eapply (lem _ _ _ _ _ _ _ _ Hg Hst);
        [repeat constructor; set_solver|about_one|
         intros R' Hn Hok; split; [intros ? ?; mem|]|try (by intros; left)..]
      | try done; by match goal with |- ?m = _ => destruct m end ]
  end.

(** Looking at an entry of the list. *)
Lemma head_elem_of (l : list (elem * fref)) r : list.head l = Some r → r ∈ l.
Proof. destruct l; simpl; [done|]. intros [= ->]. by left. Qed.

Lemma next_of_elem e l r : next_of e l = Some r → r ∈ l.
Proof.
  induction l as [|[e' f] l IH]; simpl; [done|]. case_decide.
  - intros Hr%head_elem_of. by right.
  - intros Hr%IH. by right.
Qed.

Lemma entry_stepped s m R D F r :
  good s (toks m ++ R) D F → facts m ⊆ F → (∀ ef, r = Some ef → ef ∈ fwdrs (svc s)) →
  stepped s m (entry_fact r m) R D F.
Proof.
  intros Hg HF Hr. destruct r as [[e f]|]; [|by split; [|exists F]].
  split; [done|]. exists (KRef f :: F). split; [|simpl; set_solver].
  apply good_ref; [|done]. by apply (g_listed _ _ _ _ Hg e), Hr.
Qed.

Lemma sound_svc s m m' R D F X (e : fwdE X) x s' r :
  good s (toks m ++ R) D F → facts m ⊆ F → known_ok m e = true →
  match e with
  | SCondLock | SCondUnlock | SCondAdd | SCondWait _ | SCondBroadcast | SGetSuspended
  | SSetSuspended _ | SSendSuspend | SRecvSuspend | SCloseClose | SRecvClose | SGetServerAddr
  | SSetServerAddr _ | SGetDataRate | SSetDataRate _ | SFwdrsLock | SFwdrsUnlock | SPushBack _
  | SRemove _ | SFront | SNext _ => True
  | _ => False
  end →
  mem_do s e = Some r → r = Some (x, s') → tok_next m (Obs e x) = Some m' →
  stepped s' m m' R D F.
Proof.
  intros Hg HF Hkn He Hr -> Hst.
  assert (Hstay : ∀ s, good s (toks m ++ R) D F → stepped s m m R D F).
  { intros s1 Hs1. split; [done|]. by exists F. }
  destruct e; try done; simpl in Hr, Hst; clear He;
    injection Hr as Hr; repeat case_match; try discriminate Hr;
    try (simplify_eq; by apply Hstay); simplify_eq.
  - served swap_svc Hst; [|by apply ok_cond_lock]. intros Hx%(ok_cond _ _ Hok). congruence.
  - served swap_svc Hst. by apply ok_cond_unlock.
  - served swap_svc (swap_nothing m'). by apply ok_waiting.
  - served swap_svc (swap_nothing m'). by apply ok_waiting.
  - served swap_svc (swap_nothing m'). by apply ok_suspended.
  - served swap_svc (swap_nothing m'). by apply ok_chanSuspend.
  - served swap_svc (swap_nothing m'). by apply ok_chanSuspend.
  - served swap_svc Hst. by apply ok_svc_close.
  - served swap_svc (swap_nothing m'). by apply ok_addr.
  - served swap_svc (swap_nothing m'). by apply ok_svcRate.
  - served swap_svc Hst; [|by apply ok_fwdrs_lock]. intros Hx%(ok_fwdrs _ _ Hok). congruence.
  - served swap_svc Hst. by apply ok_fwdrs_unlock.
  - served swap_svc Hst; [|by apply ok_push|].
    + intros Hx%(ok_elem _ _ Hok)%(ok_next _ _ Hok). lia.
    + intros e g Hin. simpl in Hin. mem; [by left|]. right.
      simpl in Hkn. apply bool_decide_eq_true in Hkn. by apply HF.
  - served swap_svc Hst; [by apply ok_remove|].
    intros e' g Hin. simpl in Hin. apply list_elem_of_filter in Hin as [_ ?]. by left.
  - apply entry_stepped; [done..|]. intros ef. apply head_elem_of.
  - apply entry_stepped; [done..|]. intros ef. apply next_of_elem.
Qed.

(** What the network and the rest do. *)
Lemma sound_net s m m' R D F X (e : fwdE X) x s' :
  good s (toks m ++ R) D F → facts m ⊆ F →
  mem_do s e = None → net_do s (Obs e x) s' → tok_next m (Obs e x) = Some m' →
  stepped s' m m' R D F.
Proof.
  intros Hg HF He Hr Hst.
  assert (Hstay : ∀ s, good s (toks m ++ R) D F → stepped s m m R D F).
  { intros s1 Hs1. split; [done|]. by exists F. }
  destruct e; try discriminate He; clear He; simpl in Hr, Hst;
    repeat case_match; inv_all; simplify_eq; try (by apply Hstay).
  - served swap_conns Hst; [|by apply ok_open]. by intros Hx%(ok_conn _ _ Hok).
  - served swap_conns Hst; [|by apply ok_open]. by intros Hx%(ok_conn _ _ Hok).
  - destruct Hr as [(Hc & rest & Hp & ->)|(Hc & _)].
    + served swap_conns Hst. by eapply ok_close.
    + destruct (good_swap _ _ _ _ _ _ _ _ Hst Hg) as (R' & Hg' & _). exfalso.
      apply Hc, (ok_conn _ _ (g_conns _ _ _ _ Hg')). by left.
Qed.

Lemma good_wgs s T D F w D' :
  good s T D F → length (wgs s) ≤ length w → debt_inv (view_of (set_wgs w s)) D' →
  good (set_wgs w s) T D' F.
Proof.
  intros [] Hlen Hd. split; try done. intros v b Hv. destruct (g_kwg0 v b Hv) as [Hlt Hu].
  split; [simpl; lia|done].
Qed.

(** A new wait group. *)
Lemma good_wg_new s T D F b :
  good s T D F →
  good (set_wgs (wgs s ++ [0]) s) T D (KWg (length (wgs s)) b :: F).
Proof.
  intros Hg. pose proof (debt_new _ _ (g_debts _ _ _ _ Hg)) as Hd.
  destruct Hg as [Hn Hfwd Hr Hk Hw Hlst Hs Hc _]. split; try done.
  - intros g x Hx. apply fwd_ok_exists; [done..|by apply Hfwd].
  - intros k g [->|Hin]%elem_of_cons Hg; [done|by apply (Hk k)].
  - assert (Hold : ∀ w b', KWg w b' ∈ F → w ≠ length (wgs s)).
    { intros w b' [Hlt _]%Hw. lia. }
    intros w b' Hin. simpl. rewrite length_app. simpl.
    apply elem_of_cons in Hin as [[= -> ->]|Hin].
    + split; [lia|]. intros b'' Hb''. mem; [done|]. by apply Hold in Hb''.
    + destruct (Hw w b' Hin) as [? Hu]. split; [lia|]. intros b'' Hb''.
      apply elem_of_cons in Hb'' as [[= -> ->]|Hb'']; [by apply Hold in Hin|by apply Hu].
Qed.

(** Every step keeps the invariant. *)
Lemma tok_sound s s' o m m' R DR F :
  good s (toks m ++ R) (owes m ++ DR) F → facts m ⊆ F → fwd_sem s o s' →
  tok_step m o = Some m' → ∃ F', good s' (toks m' ++ R) (owes m' ++ DR) F' ∧ facts m' ⊆ F' ∧ F ⊆ F'.
Proof.
  intros Hg HF Hs Hst. destruct o as [X e x]. unfold tok_step in Hst.
  destruct (permitted m e) eqn:Hperm; [|done].
  apply andb_true_iff in Hperm as [Hkn _].
  assert (Hdone : stepped s' m m' R (owes m ++ DR) F →
    ∃ F', good s' (toks m' ++ R) (owes m' ++ DR) F' ∧ facts m' ⊆ F' ∧ F ⊆ F').
  { by intros [-> HF']. }
  unfold fwd_sem in Hs. destruct (mem_do s e) as [r|] eqn:He.
  2: { apply Hdone. by eapply sound_net. }
  pose proof (sound_fwd s m m' R (owes m ++ DR) F X e x s' r Hg HF) as Hf.
  pose proof (sound_svc s m m' R (owes m ++ DR) F X e x s' r Hg HF Hkn) as Hv.
  destruct e; first [discriminate He | by apply Hdone, Hf | by apply Hdone, Hv | idtac];
    clear Hdone Hf Hv; simpl in He, Hst; injection He as <-.
  - simplify_eq. exists (KWg (length (wgs s)) (has_closed (toks m)) :: F).
    split; [by apply good_wg_new|]. simpl. set_solver.
  - destruct (wgs s !! w) as [k|] eqn:Hw; simplify_eq/=. exists F. split; [|done].
    eapply good_wgs; [done|by rewrite length_insert|]. rewrite <-app_assoc.
    exact (debt_add _ _ _ n _ (w, None) (g_debts _ _ _ _ Hg) Hw eq_refl).
  - destruct (wgs s !! w) as [k|] eqn:Hw; simplify_eq/=.
    destruct (pay [] w (owes m)) as [ds|] eqn:Hp; simplify_eq/=. exists F. split; [|done].
    apply pay_spec in Hp as (y & Hp & _).
    eapply good_wgs; [done|by rewrite length_insert|]. refine (debt_paid (view_of s) _ _ _ (w, y) _ Hw eq_refl).
    eapply debt_perm; [|apply Hg]. by rewrite Hp.
  - destruct (wgs s !! w) as [[]|]; simplify_eq/=. by exists F.
Qed.

(** What a goroutine may rely on holds. *)
Lemma tok_legal_ok s s' o m R DR F :
  good s (toks m ++ R) (owes m ++ DR) F → facts m ⊆ F → fwd_sem s o s' → tok_legal m o.
Proof.
  intros Hg HF Hs. destruct o as [X e x]. unfold fwd_sem in Hs.
  assert (HT : ∀ t, t ∈ toks m → t ∈ toks m ++ R) by (intros; apply elem_of_app; auto).
  destruct e; simpl in Hs; try exact I; unfold tok_legal; try (open_heap Hs);
    try match goal with
    | E : heap _ !! ?f = Some _ |- _ => pose proof (g_fwd _ _ _ _ Hg _ _ E) as Hok
    end; pose proof (g_svc _ _ _ _ Hg) as Hsv.
  - intros c Hc. by apply Hok, HF.
  - intros c Hc. by apply Hok, HF.
  - intros Ht%HT. by apply Hok in Ht.
  - intros Hk%HF Ht%HT. apply bool_decide_eq_true.
    pose proof (ok_up _ _ _ _ Hok HOpen Ht ltac:(discriminate)) as Hu.
    destruct (chanEmergencyClose f0) as [[]|] eqn:Hem; [exfalso|done|exfalso].
    + destruct (ok_em _ _ _ _ Hok Hem) as [Hx|Hx]; [congruence|].
      by pose proof (ok_one _ _ _ _ Hok _ _ _ Ht Hx).
    + by apply (ok_kem _ _ _ _ Hok).
  - intros Ht%HT. by rewrite (ok_closed _ _ _ _ Hok Ht).
  - intros Hw. apply Nat.ltb_lt. destruct (g_debts _ _ _ _ Hg) as [Hd _].
    rewrite (Hd w n E). eapply owed_some; [apply elem_of_app; by left|done].
  - intros Ht%HT. by apply Hsv.
  - intros Ht%HT. by rewrite (ok_svc _ _ Hsv Ht).
  - intros Ht%HT. by apply Hsv.
Qed.
