(* ===== verification/FwdSafe.v ===== *)
(** The goroutines of a forwarding service keep to the rules of ownership: what a service
    cannot do wrong, and what it has given back when it has ended. *)
From S2P Require Import Prelude Go Errors Sys Kube Ownership FwdSys Fwd FwdSvc FwdWindow.
From S2P Require Import FwdMove FwdOwn.
#[local] Open Scope go_scope.

(** * Soundness for a pool *)

Definition pool_good (s : fmem) (ms : list tst) : Prop :=
  good s (concat (toks <$> ms)) (concat (owes <$> ms)) (concat (facts <$> ms)).

(** The tokens, debts and facts of a pool, seen from one of its goroutines. *)
Lemma pool_split (ms : list tst) i m :
  ms !! i = Some m →
  ∃ R DR, concat (toks <$> ms) ≡ₚ toks m ++ R ∧ concat (owes <$> ms) ≡ₚ owes m ++ DR ∧
    facts m ⊆ concat (facts <$> ms) ∧
    ∀ m', concat (toks <$> <[i := m']> ms) ≡ₚ toks m' ++ R ∧
          concat (owes <$> <[i := m']> ms) ≡ₚ owes m' ++ DR ∧
          concat (facts <$> <[i := m']> ms) ⊆ facts m' ++ concat (facts <$> ms).
Proof.
  intros Hi.
  destruct (concat_insert (toks <$> ms) i (toks m)) as (R & HR & HR').
  { by rewrite list_lookup_fmap, Hi. }
  destruct (concat_insert (owes <$> ms) i (owes m)) as (DR & HD & HD').
  { by rewrite list_lookup_fmap, Hi. }
  destruct (concat_insert (facts <$> ms) i (facts m)) as (FR & HF & HF').
  { by rewrite list_lookup_fmap, Hi. }
  exists R, DR. split; [done|]. split; [done|]. split.
  { intros k Hk. rewrite HF. apply elem_of_app. by left. }
  intros m'. rewrite !list_fmap_insert. split; [done|]. split; [done|].
  intros k. rewrite HF', HF, !elem_of_app. tauto.
Qed.

Section pool.
Context (risk : bool).

Lemma tok_compat_legal s ms i m o s' :
  pool_good s ms → ms !! i = Some m → fwd_sem s o s' → mon_legal (tok_mon risk) m o.
Proof.
  intros Hg Hi Hs. destruct (pool_split ms i m Hi) as (R & DR & HR & HD & HF & _).
  eapply (tok_legal_ok _ _ _ _ R DR); [|exact HF|exact Hs].
  by eapply good_perm; [exact HR|exact HD| |exact Hg].
Qed.

Lemma tok_compat_step s ms i m o s' m' :
  pool_good s ms → ms !! i = Some m → fwd_sem s o s' → mon_step (tok_mon risk) m o = Some m' →
  pool_good s' (<[i := m']> ms).
Proof.
  intros Hg Hi Hs Hst. destruct (pool_split ms i m Hi) as (R & DR & HR & HD & HF & Hins).
  destruct (Hins m') as (HR' & HD' & HF').
  destruct (tok_sound s s' o m m' R DR (concat (facts <$> ms))) as (F' & Hg' & HF1 & HF2);
    [by eapply good_perm; [exact HR|exact HD| |exact Hg]|done..|].
  eapply good_perm; [symmetry; exact HR'|symmetry; exact HD'| |exact Hg'].
  intros k [Hk|Hk]%HF'%elem_of_app; auto.
Qed.

Lemma tok_compat_split s ms i m mc mk :
  pool_good s ms → ms !! i = Some m → mon_split (tok_mon risk) m mc mk →
  pool_good s (<[i := mk]> ms ++ [mc]).
Proof.
  intros Hg Hi (Ht & Ho & Hfc & Hfk).
  destruct (pool_split ms i m Hi) as (R & DR & HR & HD & HF & Hins).
  destruct (Hins mk) as (HR' & HD' & HF').
  unfold pool_good. rewrite !fmap_app, !concat_app. simpl. rewrite !app_nil_r.
  eapply good_perm; [| | |exact Hg].
  - rewrite HR, HR', Ht. solve_Permutation.
  - rewrite HD, HD', Ho. solve_Permutation.
  - intros k [[Hk|Hk]%HF'%elem_of_app|Hk]%elem_of_app; auto.
Qed.

End pool.

(** * Programs *)

(** No token, debt or fact changes, for a goroutine that knows the forwarder [f]. *)
Definition plain (f : fref) (o : obs fwdE) : Prop :=
  ∀ m, KRef f ∈ facts m → tok_step m o = Some m.

Definition harmless (f : fref) {A : Type} (p : prog fwdE A) : Prop :=
  everywhere (plain f) (λ _, False) p.

Section members.
Context (risk : bool).

Abbreviation mon := (tok_mon risk).

Lemma respects_harmless f {A} (p : prog fwdE A) m (Q : tst → A → Prop) :
  harmless f p → KRef f ∈ facts m → (∀ a, Q m a) → respects mon p m Q.
Proof.
  apply (respects_idle _ (Tst [] [] [KRef f]) (λ m, KRef f ∈ facts m)); try done.
  - by left.
  - intros m' Hm. repeat split; [by destruct m'..| |done]. intros k Hk. simpl in Hk. by mem.
  - intros m' o Hm Ho. by apply Ho.
Qed.

Lemma swap_get new m : swap [] new m = Some (Tst (new ++ toks m) (owes m) (facts m)).
Proof. done. Qed.
Lemma swap_one t new m :
  swap [t] new m = ts ← take1 t (toks m); Some (Tst (new ++ ts) (owes m) (facts m)).
Proof. done. Qed.
Lemma take1_here (t : token) l : take1 t (t :: l) = Some l.
Proof. simpl. by rewrite decide_True. Qed.
Lemma take1_there (t t' : token) l : t ≠ t' → take1 t (t' :: l) = cons t' <$> take1 t l.
Proof. intros Hn. simpl. by rewrite decide_False. Qed.

Lemma take1_last (t : token) l :
  forallb may_drop l = true → may_drop t = false → take1 t (l ++ [t]) = Some l.
Proof.
  intros Hl Ht. induction l as [|t' l IH]; simpl; [by rewrite decide_True|].
  apply andb_true_iff in Hl as [Ht' Hl]. rewrite decide_False by congruence. by rewrite IH.
Qed.

End members.

Create HintDb harmless.

Ltac own_unfold :=
  unfold fLogErrorE, fLogWarn, fLogInfo, must, warned, mux_unlock, wg_done, on_conn, defer,
    defer_on, writeFailed, cond_unlock, fwdrs_unlock.

(** Proves [harmless p]. *)
Ltac solve_plain :=
  let m := fresh in let Hm := fresh in
  intros m Hm; cbn [tok_step]; unfold permitted; cbn [known_ok wait_level];
  rewrite ?(bool_decide_eq_true_2 _ Hm); reflexivity.

Ltac solve_harmless :=
  repeat (
    own_unfold;
    cbn [harmless everywhere bind call go loop fst snd];
    match goal with
    | |- True => exact I
    | |- plain _ _ => solve_plain
    | |- ∀ _, _ => intro
    | |- ?A ∧ ?B => split
    | |- harmless _ _ => solve [auto with harmless nocore]
    | |- everywhere (plain ?f) _ ?p => change (harmless f p)
    | |- harmless _ (bind _ _) => apply everywhere_bind
    | |- harmless _ (match ?x with _ => _ end) => destruct x
    end).

(** One step under the rules, and as many as there are. *)
Ltac tok_in := first [assumption | apply list_elem_of_here | apply list_elem_of_further; tok_in].

(** The levels allow the effect. *)
Ltac wg_level1 :=
  match goal with
  | |- context [decide (?k ∈ ?l)] =>
      first [ rewrite (decide_True (P := k ∈ l)) by tok_in
            | rewrite (decide_False (P := k ∈ l)) by (first [assumption | intros ?; mem]) ]
  end.
Ltac solve_permitted :=
  unfold permitted; cbn [known_ok wait_level learn toks owes facts fmap list_fmap fst snd];
  repeat match goal with
  | |- context [bool_decide (?k ∈ ?l)] => rewrite (bool_decide_eq_true_2 (k ∈ l)) by tok_in
  end;
  cbn [orb andb]; rewrite ?orb_true_r;
  try match goal with H : free ?n ?m = true |- context [free ?n ?m] => rewrite H; reflexivity end;
  unfold free, wg_level; cbn [forallb learn tok_level toks owes facts fst];
  repeat wg_level1; rewrite ?andb_true_r;
  try match goal with H : forallb _ ?ts = true |- context [forallb _ ?ts] => rewrite H end;
  reflexivity.

Ltac tok_step1 :=
  match goal with
  | |- context [permitted ?m ?e] =>
      let H := fresh in assert (permitted m e = true) as H by solve_permitted; rewrite H; clear H
  | H : _ ∈ _ → ?x = true |- _ => specialize (H ltac:(tok_in)); subst x
  | H : _ ∈ _ → _ ∈ _ → ?x = true |- _ => specialize (H ltac:(tok_in) ltac:(tok_in)); subst x
  | H : ∀ c, KClient ?f c ∈ _ → ?x = Some c, Hk : KClient ?f _ ∈ _ |- _ =>
      specialize (H _ Hk); subst x
  | H : ∀ c, KServer ?f c ∈ _ → ?x = Some c, Hk : KServer ?f _ ∈ _ |- _ =>
      specialize (H _ Hk); subst x
  | H : ∀ c, KClient ?f c ∈ ?l → ?x = Some c |- _ =>
      match l with context [KClient f ?c] => specialize (H c ltac:(tok_in)); subst x end
  | H : ∀ c, KServer ?f c ∈ ?l → ?x = Some c |- _ =>
      match l with context [KServer f ?c] => specialize (H c ltac:(tok_in)); subst x end
  | |- True => exact I
  | |- true = true ∧ (nil_dereference = nil_dereference ∨ _) => by split; [|left]
  | |- true = true ∧ _ => split; [reflexivity|right; apply (bool_decide_unpack _); exact I]
  | |- ∀ _, _ → _ => intros ? ?
  | |- ∀ _, _ => intro
  | |- context [decide (?k ∈ ?l)] => rewrite (decide_True (P := k ∈ l)) by tok_in
  | |- context [swap [] _ _] => rewrite swap_get
  | |- context [swap [_] _ _] => rewrite swap_one
  | |- context [take1 ?t (?t :: _)] => rewrite take1_here
  | |- context [take1 ?t (?t' :: _)] => rewrite (take1_there t t') by discriminate
  | |- respects _ (bind (bind _ _) _) _ _ => apply respects_bind
  | |- respects _ (bind (match ?x with _ => _ end) _) _ _ => destruct x eqn:?
  | |- respects _ (match ?x with _ => _ end) _ _ => destruct x eqn:?
  | H : ?b = true |- context [if ?b then _ else _] => rewrite H
  | |- context [decide (?x = ?x ∧ ?y = ?y)] =>
      rewrite (decide_True (P := x = x ∧ y = y)) by (split; reflexivity)
  | |- context [bool_decide (?x = ?x)] => rewrite (bool_decide_eq_true_2 (x = x)) by reflexivity
  | |- context [take1 ?t (?t' :: _)] =>
      let E := fresh "E" in
      destruct (decide (t = t')) as [E|E];
      [injection E as E; subst; rewrite take1_here|rewrite (take1_there t t') by exact E]
  | |- match (if ?x then _ else _) with _ => _ end => destruct x eqn:?
  | |- match (match ?x with _ => _ end) with _ => _ end => destruct x eqn:?
  end.

Ltac tok :=
  repeat (
    own_unfold;
    cbn [respects bind call go loop mon_step mon_legal mon_split mon_final mon_panic tok_mon
         tok_step tok_next has_closed existsb orb entry_fact tok_legal pay from_option andb may_drop forallb toks owes facts learn hold_of app fmap option_fmap option_map
         fst snd mbind option_bind negb];
    try tok_step1).

Ltac solve_free :=
  unfold free, wg_level; cbn [forallb learn tok_level toks owes facts fst];
  repeat wg_level1; reflexivity.

(** A goroutine takes the first debt, and all facts. *)
Ltac tok_go :=
  match goal with
  | |- ∃ mc mk, (?ts ≡ₚ _ ∧ ?ds ≡ₚ _ ∧ _ ⊆ ?fs ∧ _) ∧ _ =>
      let ds := eval cbn in ds in
      match ds with
      | ?d :: ?ds' => exists (Tst [] [d] fs), (Tst ts ds' fs); split; [by repeat split|split]
      end
  end.

Section programs.
Context (risk : bool).

Abbreviation mon := (tok_mon risk).

Lemma tok_closeDownstream p c m :
  KServer p c ∈ facts m → KRef p ∈ facts m → free 0 m = true →
  respects mon (closeDownstream p) m (λ m' _, m' = m).
Proof.
  intros Hk Hr Hf. unfold closeDownstream. tok; by destruct m.
Qed.

(** The same, and perhaps that [chanEmergencyClose] has been made. *)
Definition knows_em (p : fref) (m m' : tst) : Prop :=
  m' = m ∨ m' = learn (KEm p) m.

(** The client connection must be there, or a nil dereference is to be expected. *)
Lemma tok_closeUpstream p m :
  (risk = false → ∃ c, KClient p c ∈ facts m) → KRef p ∈ facts m → free 0 m = true →
  respects mon (closeUpstream p) m (λ m' _, knows_em p m m').
Proof.
  intros Hk Hr Hf. unfold closeUpstream.
  assert (Hlast : knows_em p m (Tst (toks m) (owes m) (facts m)) ∧
                  knows_em p m (Tst (toks m) (owes m) (KEm p :: facts m))).
  { split; [left; by destruct m|by right]. }
  assert (Hr' : KRef p ∈ KEm p :: facts m) by by right.
  destruct Hlast. destruct risk.
  - tok; done.
  - destruct Hk as [c Hc]; [done|].
    assert (Hc' : KClient p c ∈ KEm p :: facts m) by by right.
    tok; done.
Qed.

Lemma harmless_SetDataRate p n : harmless p (SetDataRate p n).
Proof. unfold SetDataRate. solve_harmless. Qed.

Lemma harmless_upstreamStep `{PkgErrors} p c1 c2 :
  harmless p (upstreamStep p (Some c1) (Some c2)).
Proof. unfold upstreamStep. solve_harmless. Qed.

Lemma harmless_downstreamStep `{PkgErrors} p c1 c2 :
  harmless p (downstreamStep (Some c1) (Some c2)).
Proof. unfold downstreamStep. solve_harmless. Qed.

(** What the copying goroutines of a forwarder [p] with the wait group [w] know. *)
Definition copies (p : fref) (w : wgref) (fs : list fact) : Prop :=
  KRef p ∈ fs ∧ KWg w true ∈ fs.

Lemma tok_upstream `{PkgErrors} p c1 c2 w fs :
  copies p w fs → KServer p c2 ∈ fs →
  respects mon (upstream p (Some c1) (Some c2) (Some w)) (Tst [] [(w, None)] fs)
    (λ m' _, mon_final mon m').
Proof.
  intros [Hr Hw] Hk. unfold upstream.
  tok; (exists (λ _ m', m' = Tst [] [(w, None)] fs); split; [done|]; intros [] m1 ->;
        eapply respects_harmless; [apply harmless_upstreamStep|done|];
        intros [[]|[]]; [done|];
        tok; apply respects_bind; eapply respects_mono;
        [by eapply tok_closeDownstream; [..|solve_free]|];
        intros ? [] ->; by tok).
Qed.

Lemma tok_downstream `{PkgErrors} p c1 c2 w fs :
  copies p w fs → KClient p c1 ∈ fs →
  respects mon (downstream p (Some c2) (Some c1) (Some w)) (Tst [] [(w, None)] fs)
    (λ m' _, mon_final mon m').
Proof.
  intros [Hr Hw] Hk. unfold downstream. tok.
  exists (λ _ m', m' = Tst [] [(w, None)] fs). split; [done|]. intros [] m1 ->.
  apply (respects_harmless _ p); [apply harmless_downstreamStep|done|].
  intros [[]|[]]; [done|].
  tok. apply respects_bind. eapply respects_mono; [apply tok_closeUpstream; [by eauto|done|solve_free]|].
  intros m' [] [-> | ->]; by tok.
Qed.

Lemma tok_Accept `{PkgErrors} g f n a c ts :
  forallb (λ t, 1 <? tok_level t) ts = true →
  respects mon (Accept g f n a c)
    (Tst (TClosed f :: TClient f :: TServer f :: TConn c :: ts) [] [KRef f])
    (λ m' _, (∃ l, toks m' = l ++ ts ∧ forallb may_drop l = true) ∧ owes m' = []).
Proof.
  intros Hts. unfold Accept, dialTCP.
  tok; try (split; [by exists [TServer f]|done]);
    (tok_go; [apply tok_upstream; [split|]; tok_in|]; tok;
     tok_go; [apply tok_downstream; [split|]; tok_in|]; tok;
     (split; [by exists []|done])).
Qed.

Lemma tok_serveClient `{PkgErrors} g n f e c :
  respects mon (serveClient g n f e c)
    (Tst [TClosed f; TClient f; TServer f; TConn c; TElem e] [] [KRef f])
    (λ m' _, mon_final mon m').
Proof.
  unfold serveClient. tok. apply respects_bind. eapply respects_mono; [by apply tok_Accept|].
  intros [ts ow fs] [] [(l & Hl & Hd) Ho]. simpl in Hl, Ho. subst.
  assert (Hf : free 0 (Tst (l ++ [TElem e]) [] fs) = true).
  { apply andb_true_iff. split; [|done]. apply forallb_forall.
    intros t [Ht|[<-|[]]]%in_app_iff; [|done].
    rewrite forallb_forall in Hd. apply Hd in Ht. by destruct t. }
  tok. rewrite take1_last by done. by tok.
Qed.

(** Between two clients: nothing but facts. *)
Definition bare (m : tst) : Prop := ∃ fs, m = Tst [] [] fs.

Lemma tok_admitClient `{PkgErrors} g n c fs :
  respects mon (admitClient g n c) (Tst [TConn c] [] fs) (λ m' _, bare m').
Proof.
  unfold admitClient, NewForwarder. tok. apply respects_bind.
  eapply respects_harmless; [apply harmless_SetDataRate|tok_in|]. intros _. tok.
  match goal with |- context [[TElem ?e; TClosed ?f; TClient ?f; TServer ?f; TConn c]] =>
    exists (Tst [TClosed f; TClient f; TServer f; TConn c; TElem e] [] [KRef f]),
      (Tst [] [] []) end.
  split; [|split; [apply tok_serveClient|by eexists]].
  repeat split; try done; [simpl; solve_Permutation|set_solver..].
Qed.

Lemma tok_awaitResume fs :
  respects mon awaitResume (Tst [] [] fs) (λ m' _, m' = Tst [] [] fs).
Proof.
  unfold awaitResume, cond_wait. tok; [|done].
  exists (λ _ m', m' = Tst [TCond] [] fs). split; [done|]. intros [] m1 ->. by tok.
Qed.

Lemma tok_listen `{PkgErrors} g n ln :
  respects mon (listen g n ln) (Tst [] [] []) (λ m' _, mon_final mon m').
Proof.
  unfold listen. exists (λ _, bare). split; [by eexists|]. intros [] m1 [fs ->].
  apply respects_bind. eapply respects_mono; [apply tok_awaitResume|]. intros ? [] ->.
  tok; try (by eexists); try done; apply respects_bind;
    (eapply respects_mono; [apply tok_admitClient|]); by intros ? [].
Qed.

Lemma tok_closer `{PkgErrors} ln :
  respects mon (closer ln) (Tst [] [] []) (λ m' _, mon_final mon m').
Proof. unfold closer. by tok. Qed.

Lemma tok_serve `{PkgErrors} g n ln :
  respects mon (serve g n ln) (Tst [] [] []) (λ m' _, mon_final mon m').
Proof.
  unfold serve, go. cbn [bind respects].
  exists (Tst [] [] []), (Tst [] [] []). split; [by repeat split|].
  split; [apply tok_closer|].
  exists (Tst [] [] []), (Tst [] [] []). split; [by repeat split|].
  split; [apply tok_listen|done].
Qed.

Lemma tok_CloseSvc : respects mon CloseSvc (Tst [TSvc] [] []) (λ m' _, mon_final mon m').
Proof. unfold CloseSvc. by tok. Qed.

End programs.

(** What a migration does: here a nil dereference must be expected. *)
Section moving.

Abbreviation mon := (tok_mon true).

Lemma tok_Close w f :
  respects mon (defer (wg_done w) (Close f)) (Tst [] [(w, None)] [KRef f; KWg w false])
    (λ m' _, mon_final mon m').
Proof.
  unfold Close. tok. apply respects_bind.
  eapply respects_mono; [apply tok_closeUpstream; [done|tok_in|solve_free]|].
  intros m' [] [-> | ->]; by tok.
Qed.

(** Inside the loop of [CloseAllForwarders], at [r]. *)
Definition closing_list (w : wgref) (r : option (elem * fref)) (m : tst) : Prop :=
  ∃ fs, m = Tst [TFwdrs] [] fs ∧ KWg w false ∈ fs ∧ KWg w true ∉ fs ∧
        ∀ e f, r = Some (e, f) → KRef f ∈ fs.

Lemma closing_entry w r fs :
  KWg w false ∈ fs → KWg w true ∉ fs →
  closing_list w r (entry_fact r (Tst [TFwdrs] [] fs)).
Proof.
  intros Hw Hn. destruct r as [[e f]|]; [|by exists fs]. exists (KRef f :: fs).
  split; [done|]. split; [by right|]. split; [intros ?; by mem|].
  intros e' f' [= <- <-]. by left.
Qed.

Lemma tok_CloseAll :
  respects mon CloseAllForwarders (Tst [] [] []) (λ m' _, bare m').
Proof.
  unfold CloseAllForwarders. tok.
  match goal with w : wgref |- _ => exists (closing_list w) end. split.
  { apply (closing_entry _ _ [_]); [by left|intros ?; by mem]. }
  intros [[e f]|] m1 (fs & -> & Hw & Hn & Hr).
  - specialize (Hr e f eq_refl). tok.
    match goal with |- context [(?w, None)] =>
      exists (Tst [] [(w, None)] [KRef f; KWg w false]), (Tst [TFwdrs] [] fs) end.
    split; [split; [done|split; [done|split; [|done]]]; intros k Hk; simpl in Hk; by mem|]. split; [apply tok_Close|]. tok.
    by apply closing_entry.
  - tok. by eexists.
Qed.

Lemma tok_move a : respects mon (move a) (Tst [] [] []) (λ m' _, mon_final mon m').
Proof.
  unfold move, Suspend, ChangeServerAddr, ChangeDataRate, Resume. tok.
  apply respects_bind. eapply respects_mono; [apply tok_CloseAll|]. intros ? [] [fs ->].
  by tok.
Qed.

End moving.

(** * The service *)

(** The one right a goroutine has at the start: [Close] may close [chanClose]. *)
Definition first_tokens (n : nat) : list tst :=
  Tst [] [] [] :: Tst [TSvc] [] [] :: replicate n (Tst [] [] []).

Lemma concat_nils {A} n : concat (replicate n (@nil A)) = [].
Proof. by induction n. Qed.

Lemma first_good n sa r : pool_good (init_mem sa r) (first_tokens n).
Proof.
  assert (Ht : concat (toks <$> first_tokens n) = [TSvc])
    by (unfold first_tokens; rewrite !fmap_cons, fmap_replicate; cbn [concat app toks owes facts]; by rewrite concat_nils).
  assert (Ho : concat (owes <$> first_tokens n) = [])
    by (unfold first_tokens; rewrite !fmap_cons, fmap_replicate; cbn [concat app toks owes facts]; by rewrite concat_nils).
  assert (Hf : concat (facts <$> first_tokens n) = [])
    by (unfold first_tokens; rewrite !fmap_cons, fmap_replicate; cbn [concat app toks owes facts]; by rewrite concat_nils).
  unfold pool_good. rewrite Ht, Ho, Hf.
  split; simpl; try done.
  - apply NoDup_singleton.
  - intros t f Hin. by mem.
  - by intros k f ?%not_elem_of_nil.
  - by intros w b ?%not_elem_of_nil.
  - by intros e f ?%not_elem_of_nil.
  - split; simpl; try done; intros *; intros; first [by left|by mem].
  - split; [constructor|]. intros c. split; [intros; by mem|by intros ?%not_elem_of_nil].
  - split; [done|]. by intros d ?%not_elem_of_nil.
Qed.

Lemma tokens_reachable `{PkgErrors} g n ln migs sa r ts s :
  rtc (pstep fwd_sem) (goroutines g n ln migs, init_mem sa r) (ts, s) →
  pool_inv (tok_mon (bool_decide (migs ≠ []))) pool_good (ts, s).
Proof.
  intros Hr. eapply (pool_sound (tok_mon _) fwd_sem pool_good); [..|exact Hr].
  - intros. by eapply tok_compat_legal.
  - intros. by eapply tok_compat_step.
  - intros. by eapply tok_compat_split.
  - exists (first_tokens (length migs)). split; [|apply first_good]. simpl.
    constructor; [apply tok_serve|]. constructor; [apply tok_CloseSvc|].
    destruct migs as [|a migs]; [constructor|]. rewrite bool_decide_eq_true_2 by done.
    clear Hr. induction (a :: migs) as [|b l IH]; constructor; [apply tok_move|exact IH].
Qed.

(** A pool of goroutines that have ended. *)
Lemma ended_tokens risk ts ms :
  Forall2 (λ p m, respects (tok_mon risk) p m (λ m' _, mon_final (tok_mon risk) m')) ts ms →
  Forall (λ t, t = Ret tt) ts →
  (∀ t, t ∈ concat (toks <$> ms) → may_drop t = true) ∧ concat (owes <$> ms) = [].
Proof.
  intros H. induction H as [|p m ts ms Hp _ IH]; intros Ht.
  { split; [by intros t ?%not_elem_of_nil|done]. }
  rewrite !fmap_cons. cbn [concat].
  apply Forall_cons in Ht as [-> Ht]. destruct Hp as [Hd Ho]. destruct (IH Ht) as [Hds Hos].
  rewrite Ho, Hos. split; [|done]. intros t [Hin|Hin]%elem_of_app; [|by apply Hds].
  rewrite forallb_forall in Hd. apply Hd. by apply list_elem_of_In.
Qed.

(** What the memory looks like when only rights that nobody needs are left. *)
Lemma all_given_back s T F :
  good s T [] F → (∀ t, t ∈ T → may_drop t = true) →
  opens s = [] ∧ fwdrs (svc s) = [] ∧
  Forall (λ x, chanClosed x = true ∧ mux0 x = false ∧ mux1 x = false) (heap s) ∧
  Forall (λ n, n = 0) (wgs s) ∧ muxFwdrs (svc s) = false ∧ condL (svc s) = false.
Proof.
  intros [_ Hfwd _ _ _ _ Hsv Hc [Hw _]] Hd. split; [|split; [|split; [|split; [|split]]]].
  - destruct (opens s) as [|c l] eqn:Ho; [done|].
    by specialize (Hd (TConn c) (proj2 (ok_conn _ _ Hc c) (list_elem_of_here _ _))).
  - destruct (fwdrs (svc s)) as [|[e f] l] eqn:Ho; [done|]. exfalso.
    assert (TElem e ∈ T) as He by (apply (ok_entry _ _ Hsv); rewrite Ho; by left).
    by apply Hd in He.
  - apply Forall_lookup_2. intros f x Hx%Hfwd. split; [|split].
    + destruct (chanClosed x) eqn:Hcl; [done|]. by apply (ok_unclosed _ _ _ _ Hx), Hd in Hcl.
    + destruct (mux0 x) eqn:Hm; [|done].
      by destruct (ok_held _ _ _ _ Hx Up Hm) as [h Hh%Hd].
    + destruct (mux1 x) eqn:Hm; [|done].
      by destruct (ok_held _ _ _ _ Hx Down Hm) as [h Hh%Hd].
  - apply Forall_lookup_2. intros w k Hk. by apply Hw in Hk.
  - destruct (muxFwdrs (svc s)) eqn:Hm; [|done]. by apply (ok_fwdrs_held _ _ Hsv), Hd in Hm.
  - destruct (condL (svc s)) eqn:Hm; [|done]. by apply (ok_cond_held _ _ Hsv), Hd in Hm.
Qed.

(** C4.  A forwarding service, its clients, its [Close] and any number of migrations, under
    any interleaving and any answers of the network.  The only run-time panic is the
    dereference of a nil connection, and only when there is a migration: no mutex is unlocked
    by a goroutine that does not hold it, no channel is closed twice, no wait group goes below
    zero, and nothing is moved while the service runs.  When every goroutine has returned,
    every connection that was accepted or dialled is closed, the list of forwarders is empty,
    every forwarder has finished, and every mutex is free. *)
Theorem service_releases `{PkgErrors} (gatewayAddr network : string) (ln : listener)
    (migs : list TCPAddr) (serverAddr : TCPAddr) (rate : Z) ts s :
  rtc (pstep fwd_sem)
    (goroutines gatewayAddr network ln migs, init_mem serverAddr rate) (ts, s) →
  (∀ msg, Panic msg ∈ ts → msg = nil_dereference ∧ migs ≠ []) ∧
  (Forall (λ t, t = Ret tt) ts →
   opens s = [] ∧ fwdrs (svc s) = [] ∧
   Forall (λ x, chanClosed x = true ∧ mux0 x = false ∧ mux1 x = false) (heap s) ∧
   Forall (λ n, n = 0) (wgs s) ∧ muxFwdrs (svc s) = false ∧ condL (svc s) = false).
Proof.
  intros Hr. destruct (tokens_reachable _ _ _ _ _ _ _ _ Hr) as (ms & Hms & Hg). simpl in *.
  split.
  - intros msg Hmsg. pose proof (never_unsuspended _ _ _ _ _ _ _ _ _ Hr Hmsg) as Hno.
    apply list_elem_of_lookup in Hmsg as [i Hi].
    destruct (Forall2_lookup_l _ _ _ _ _ Hms Hi) as (m & _ & Hrisk & [->|?]); [|done].
    by apply bool_decide_eq_true in Hrisk.
  - intros Hall. destruct (ended_tokens _ _ _ Hms Hall) as [Hd Ho].
    unfold pool_good in Hg. rewrite Ho in Hg. apply all_given_back in Hg; done.
Qed.

(** One client, which sends until its connection is shut for reading. *)
Definition one_visit (s : fmem) (X : Type) (e : fwdE X) : option X :=
  match e in fwdE Y return option Y with
  | NAcceptTCP _ =>
      Some (if chanClose (svc s) then Err (EText "use of closed network connection")
            else if length (heap s) =? 0 then Ok 0 else Err (ENet "i/o timeout" true true))
  | NRead _ _ =>
      Some (if existsb isUpClosed (heap s) then ([], Some EOF) else ([Byte.x41], None))
  | _ => None
  end.

Definition two_moves : list TCPAddr := [mkTCPAddr "10.0.0.3" 8888; mkTCPAddr "10.0.0.4" 8888].

(** The rate-limited client is being served when a migration closes its forwarder; then
    another migration moves the service, and it is closed. *)
Definition visited : list (prog fwdE unit) * fmem :=
  pool_path (fwd_machine one_visit)
    (replicate 2 0 ++ replicate 17 5 ++ replicate 25 6 ++
     concat (replicate 60 [2; 4; 5; 6; 7; 8; 9]) ++ replicate 60 3 ++
     concat (replicate 60 [3; 5; 10; 11; 4]) ++ concat (replicate 25 [1; 4; 5]))
    (@goroutines ReferenceK8s.pkg "" "tcp" 3 two_moves,
     init_mem (mkTCPAddr "10.0.0.2" 8888) 100).

Lemma visited_reached :
  rtc (pstep fwd_sem)
    (@goroutines ReferenceK8s.pkg "" "tcp" 3 two_moves,
     init_mem (mkTCPAddr "10.0.0.2" 8888) 100) visited.
Proof. apply pool_path_steps, fwd_machine_sem. Qed.

Lemma all_returned (ts : list (prog fwdE unit)) :
  forallb (λ p, match p with Ret tt => true | _ => false end) ts = true →
  Forall (λ t, t = Ret tt) ts.
Proof.
  intros Ht. rewrite forallb_forall in Ht. apply Forall_forall. intros t Hin%list_elem_of_In.
  apply Ht in Hin. by destruct t as [[]| | | |].
Qed.

Lemma service_releases_witness :
  Forall (λ t, t = Ret tt) visited.1 ∧ opens visited.2 = [] ∧ fwdrs (svc visited.2) = [] ∧
  length (heap visited.2) = 1.
Proof.
  destruct (@service_releases ReferenceK8s.pkg "" "tcp" 3 two_moves
              (mkTCPAddr "10.0.0.2" 8888) 100 visited.1 visited.2) as [_ Hend].
  - exact (eq_ind_r (rtc (pstep fwd_sem) _) visited_reached (eq_sym (surjective_pairing visited))).
  - assert (Hall : Forall (λ t, t = Ret tt) visited.1) by (apply all_returned; vm_compute; reflexivity).
    destruct (Hend Hall) as (Ho & Hf & _).
    split; [exact Hall|]. split; [exact Ho|]. split; [exact Hf|]. vm_compute. reflexivity.
Defined.
