(* ===== verification/FwdLive.v ===== *)
(** Nobody waits forever in a forwarding service by the fault of its goroutines: whoever cannot
    move waits, through others, for a goroutine that can.  The duties that ownership brings
    (FwdOwn.v) and those of the handshake between the listener and a migration have levels, and
    nobody waits for a duty above one of his own. *)
From S2P Require Import Prelude Go Progress Errors Sys Kube Ownership FwdSys Fwd FwdSvc FwdWindow.
From S2P Require Import FwdMove FwdOwn FwdSafe.
#[local] Open Scope go_scope.

(** * The handshake *)

(** The listener, before it is started, running, before and after its answer to [Suspend]
    ([saw]: it has just found the service suspended), and the migration: before it asks, until
    it has the answer, inside the window, before and after it wakes the listener up. *)
Inductive hrole :=
| HServe
| HRun
| HPark0
| HPark1 (saw : bool)
| HIdle
| HSet
| HIn
| HPend
| HRes
| HOther.

(** [hcond]: whether the goroutine holds the lock of the condition variable. *)
Record hst := H { hpart : hrole; hcond : bool }.

#[export] Instance hrole_eq_dec : EqDecision hrole.
Proof. solve_decision. Defined.
#[export] Instance hst_eq_dec : EqDecision hst.
Proof. solve_decision. Defined.

Definition with_hpart (r : hrole) (m : hst) : hst := H r (hcond m).
Definition with_hcond (b : bool) (m : hst) : hst := H (hpart m) b.

Definition hand_step (m : hst) (o : obs fwdE) : option hst :=
  match o with
  | @Obs _ X e x =>
      match e in fwdE Y return Y → option hst with
      | SCondLock => λ _, if hcond m then None else Some (with_hcond true m)
      | SCondUnlock => λ _,
          if hcond m then
            match hpart m with
            | HPark0 | HPend => None
            | HPark1 _ => Some (H (HPark1 false) false)
            | _ => Some (with_hcond false m)
            end
          else None
      | SCondAdd => λ _, match hpart m with HPark1 true => Some m | _ => None end
      | SCondWait _ => λ _, match hpart m with HPark1 _ => Some m | _ => None end
      | SCondBroadcast => λ _,
          match hpart m with
          | HSet => Some m
          | HPend => Some (with_hpart HRes m)
          | _ => None
          end
      | SGetSuspended => λ b,
          match hpart m with
          | HRun =>
              if hcond m then Some (if b : bool then with_hpart HPark0 m else m) else None
          | HPark1 _ =>
              if hcond m then Some (with_hpart (if b : bool then HPark1 true else HRun) m)
              else None
          | HServe | HPark0 => None
          | _ => Some m
          end
      | SSetSuspended b => λ _,
          match hpart m, b, hcond m with
          | HIdle, true, true => Some (with_hpart HSet m)
          | HIn, false, true => Some (with_hpart HPend m)
          | _, _, _ => None
          end
      | SSendSuspend => λ _,
          match hpart m with HPark0 => Some (with_hpart (HPark1 false) m) | _ => None end
      | SRecvSuspend => λ _,
          match hpart m with HSet => Some (with_hpart HIn m) | _ => None end
      | SRecvClose => λ _, match hpart m with HOther => Some m | _ => None end
      | _ => λ _, Some m
      end x
  end.

(** The listener takes its part over from what starts the service; other goroutines that are
    started have no part. *)
Definition hand_split (m mc mk : hst) : Prop :=
  mc = H HOther false ∧ mk = m ∨
  hpart m = HServe ∧ mc = H HRun false ∧ mk = H HOther (hcond m).

Definition hand_mon : monitor fwdE hst := {|
  mon_step := hand_step;
  mon_legal _ _ := True;
  mon_split := hand_split;
  mon_final m :=
    match hpart m with HRun | HIdle | HRes | HOther => True | _ => False end;
  mon_panic _ _ := True
|}.

(** ** The invariant *)

(** What the parts [l] of the listener and [g] of the migration say about each other, the two
    flags, and whether nobody waits for the condition. *)
Definition hand_tab (l g : hrole) (sus chan nobody : bool) : bool :=
  match g with
  | HIdle =>
      negb sus && negb chan && nobody && match l with HServe | HRun => true | _ => false end
  | HSet =>
      sus && match l with
             | HPark1 _ => chan
             | HServe | HRun | HPark0 => negb chan
             | _ => false
             end
  | HIn => sus && negb chan && match l with HPark1 _ => true | _ => false end
  | HPend => negb sus && negb chan && match l with HPark1 false => true | _ => false end
  | HRes =>
      negb sus && negb chan && nobody &&
      match l with HPark1 false | HRun => true | _ => false end
  | _ => false
  end.

Definition hand_table (l g : hrole) (p : ForwarderService) : Prop :=
  hand_tab l g (isSuspended p) (chanSuspend p) (bool_decide (waiting p = [])) = true.

(** Who has such a part holds the lock. *)
Definition hand_locked (m : hst) : Prop :=
  match hpart m with HPark0 | HPark1 true | HPend => hcond m = true | _ => True end.

Record hand_inv (p : ForwarderService) (hs : list hst) : Prop := {
  hi_cond k m : hs !! k = Some m → hcond m = true → condL p = true;
  hi_one k k' m m' : hs !! k = Some m → hs !! k' = Some m' → hcond m = true →
    hcond m' = true → k = k';
  hi_locked k m : hs !! k = Some m → hand_locked m;
  hi_parts : ∃ kl kg l g, kl ≠ kg ∧ hs !! kl = Some l ∧ hs !! kg = Some g ∧
    (∀ k m, hs !! k = Some m → k ≠ kl → k ≠ kg → hpart m = HOther) ∧
    hand_table (hpart l) (hpart g) p
}.

Definition hand_compat (s : fmem) (hs : list hst) : Prop := hand_inv (svc s) hs.

(** ** Preservation *)

(** The fields the handshake is about. *)
Definition hand_same (p p' : ForwarderService) : Prop :=
  condL p' = condL p ∧ waiting p' = waiting p ∧ chanSuspend p' = chanSuspend p ∧
  isSuspended p' = isSuspended p.

Lemma hand_table_same l g p p' : hand_same p p' → hand_table l g p → hand_table l g p'.
Proof. intros (_ & Hw & Hc & Hs). unfold hand_table. by rewrite Hw, Hc, Hs. Qed.

Lemma hand_inv_same p p' hs : hand_same p p' → hand_inv p hs → hand_inv p' hs.
Proof.
  intros Hp [Hc Ho Hl (kl & kg & l & g & ? & ? & ? & ? & Ht)]. split; [|done..|].
  - intros k m Hk. destruct Hp as [-> _]. by apply (Hc k).
  - exists kl, kg, l, g. repeat (split; [done|]). by eapply hand_table_same.
Qed.

(** The effects on those fields. *)
Definition handed {X : Type} (e : fwdE X) : bool :=
  match e with
  | SCondLock | SCondUnlock | SCondAdd | SCondBroadcast | SSetSuspended _ | SSendSuspend
  | SRecvSuspend => true
  | _ => false
  end.

Lemma unhanded_same s X (e : fwdE X) x s' :
  handed e = false → fwd_sem s (Obs e x) s' → hand_same (svc s) (svc s').
Proof.
  unfold fwd_sem. intros He Hs.
  destruct e; simpl in *; try discriminate He; try (open_heap Hs); simplify_eq;
    try done; try (repeat case_match; simplify_eq; done);
    try (destruct x; inv_all; simplify_eq; done).
  by destruct Hs as [(_ & rest & _ & ->)|(_ & _ & ->)].
Qed.

Section change.
Context (p p' : ForwarderService) (hs : list hst) (i : nat) (m m' : hst).
Hypothesis Hinv : hand_inv p hs.
Hypothesis Hi : hs !! i = Some m.

Definition cond_part (p : ForwarderService) (hs : list hst) : Prop :=
  (∀ k m, hs !! k = Some m → hcond m = true → condL p = true) ∧
  (∀ k k' m m', hs !! k = Some m → hs !! k' = Some m' → hcond m = true →
     hcond m' = true → k = k').

(** The lock is taken, given back, or left alone. *)
Lemma cond_change :
  (hcond m' = true → condL p' = true ∧ (hcond m = true ∨ condL p = false)) →
  (condL p' = condL p ∨ condL p' = true ∨ hcond m = true) →
  cond_part p' (<[i := m']> hs).
Proof.
  intros H1 H2. destruct Hinv as [Hc Ho _ _].
  assert (Hno : ∀ k n, k ≠ i → hs !! k = Some n → hcond n = true → hcond m' = true → False).
  { intros k n Hk Hn Hcn Hcm. destruct (H1 Hcm) as [_ [Hcm'|Hp]].
    - apply Hk. by eapply (Ho k i).
    - rewrite (Hc k n Hn Hcn) in Hp. done. }
  split.
  - intros k n Hk Hn. at_insert Hk; [by apply H1|]. destruct H2 as [->|[?|Hcm]]; [by eapply Hc|done|].
    destruct Hne. by eapply (Ho k i).
  - intros k k' n n' Hk Hk' Hn Hn'. at_insert Hk; at_insert Hk'; [done|..|by eapply Ho];
      exfalso; eauto.
Qed.

(** The parts of the listener and of the migration after a step of [i]. *)
Lemma parts_change :
  (∀ k g, k ≠ i → hs !! k = Some g → hand_table (hpart m) (hpart g) p →
     hand_table (hpart m') (hpart g) p') →
  (∀ k l, k ≠ i → hs !! k = Some l → hand_table (hpart l) (hpart m) p →
     hand_table (hpart l) (hpart m') p') →
  (hpart m = HOther → hpart m' = HOther ∧ ∀ l g, hand_table l g p → hand_table l g p') →
  ∃ kl kg l g, kl ≠ kg ∧ <[i := m']> hs !! kl = Some l ∧ <[i := m']> hs !! kg = Some g ∧
    (∀ k n, <[i := m']> hs !! k = Some n → k ≠ kl → k ≠ kg → hpart n = HOther) ∧
    hand_table (hpart l) (hpart g) p'.
Proof.
  intros Hl Hg Ho. destruct Hinv as [_ _ _ (kl & kg & l & g & Hne & Hkl & Hkg & Hrest & Ht)].
  pose proof (lookup_lt_Some _ _ _ Hi) as Hlen.
  assert (Hothers : ∀ n, kl = i ∨ kg = i ∨ n = HOther → n = hpart m' →
    ∀ k n, <[i := m']> hs !! k = Some n → k ≠ kl → k ≠ kg → hpart n = HOther).
  { intros n Hn -> k n' Hk H1 H2. at_insert Hk; [|by apply (Hrest k)].
    destruct Hn as [?|[?|?]]; congruence. }
  destruct (decide (kl = i)) as [->|Hnl]; [|destruct (decide (kg = i)) as [->|Hng]].
  - exists i, kg, m', g. rewrite list_lookup_insert_eq, list_lookup_insert_ne by done.
    simplify_eq. repeat (split; [done|]). split; [eauto|]. by eapply (Hl kg).
  - exists kl, i, l, m'. rewrite list_lookup_insert_eq, list_lookup_insert_ne by done.
    simplify_eq. repeat (split; [done|]). split; [eauto|]. by eapply (Hg kl).
  - destruct Ho as [Hm' Htab]; [by apply (Hrest i)|].
    exists kl, kg, l, g. rewrite !list_lookup_insert_ne by done.
    repeat (split; [done|]). split; [eauto|]. by apply Htab.
Qed.

Lemma hand_change :
  cond_part p' (<[i := m']> hs) → hand_locked m' →
  (∃ kl kg l g, kl ≠ kg ∧ <[i := m']> hs !! kl = Some l ∧ <[i := m']> hs !! kg = Some g ∧
    (∀ k n, <[i := m']> hs !! k = Some n → k ≠ kl → k ≠ kg → hpart n = HOther) ∧
    hand_table (hpart l) (hpart g) p') →
  hand_inv p' (<[i := m']> hs).
Proof.
  intros [Hc Ho] Hl Hp. split; [done|done| |done].
  intros k n Hk. at_insert Hk; [done|]. by eapply hi_locked.
Qed.

(** While [i] holds the lock nobody else is at a point that needs it. *)
Lemma locked_out k n :
  hcond m = true → k ≠ i → hs !! k = Some n →
  hpart n ≠ HPark0 ∧ hpart n ≠ HPark1 true ∧ hpart n ≠ HPend.
Proof.
  intros Hm Hk Hn. pose proof (hi_locked _ _ Hinv k n Hn) as Hl. unfold hand_locked in Hl.
  assert (hcond n ≠ true) as Hcn.
  { intros Hcn. apply Hk. by eapply (hi_one _ _ Hinv k i). }
  by split; [|split]; intros Heq; rewrite Heq in Hl.
Qed.

End change.

(** Compares the tables before and after a step, for all parts of the other goroutine [n]. *)
Ltac table n Ht Hn :=
  unfold hand_table in *; simpl in *;
  destruct (hpart n) as [| | |[]| | | | | |]; simpl in *; try done;
  try (by destruct Hn as (? & ? & ?));
  revert Ht;
  repeat match goal with
  | |- context [chanSuspend ?p] => destruct (chanSuspend p)
  | |- context [isSuspended ?p] => destruct (isSuspended p)
  | |- context [bool_decide ?P] => destruct (bool_decide P)
  end; try done.

Lemma hand_get_ok p hs i m m' :
  hand_inv p hs → hs !! i = Some m → hand_step m (Obs SGetSuspended (isSuspended p)) = Some m' →
  hand_inv p (<[i := m']> hs).
Proof.
  intros Hinv Hi Hst. destruct (decide (m' = m)) as [->|Hne]; [by rewrite list_insert_id|].
  simpl in Hst. destruct (hcond m) eqn:Hc; [|destruct (hpart m); congruence].
  pose proof (λ k n, locked_out p hs i m Hinv Hi k n Hc) as Hout.
  apply (hand_change p p hs i m' Hinv).
  - apply (cond_change p p hs i m m' Hinv Hi); [|by left]. intros _.
    split; [by eapply hi_cond|by left].
  - unfold hand_locked. destruct (hpart m) eqn:Hp; try congruence;
      destruct (isSuspended p); simplify_eq; done.
  - apply (parts_change p p hs i m m' Hinv Hi).
    + intros k g Hk Hg Ht. specialize (Hout k g Hk Hg). unfold hand_table in *.
      destruct (hpart m) eqn:Hp; try congruence; destruct (isSuspended p) eqn:Hs; simplify_eq;
        table g Ht Hout.
    + intros k g Hk Hg Ht. specialize (Hout k g Hk Hg). unfold hand_table in *.
      destruct (hpart m) eqn:Hp; try congruence; destruct (isSuspended p) eqn:Hs; simplify_eq;
        table g Ht Hout.
    + intros Hp. rewrite Hp in Hst. congruence.
Qed.

(** The tables of a step of [m], whose part is known, when it keeps the parts of others. *)
Ltac parts Hinv Hi :=
  apply (parts_change _ _ _ _ _ _ Hinv Hi); simpl;
  [ let k := fresh "k" in let g := fresh "g" in let Ht := fresh "Ht" in let Hn := fresh "Hn" in
    intros k g _ _ Ht; pose proof I as Hn; table g Ht Hn
  | let k := fresh "k" in let l := fresh "l" in let Ht := fresh "Ht" in let Hn := fresh "Hn" in
    intros k l _ _ Ht; pose proof I as Hn; table l Ht Hn
  | try discriminate; try done ].

Lemma hand_do_ok s hs i r c X (e : fwdE X) x s' m' :
  handed e = true →
  hand_inv (svc s) hs → hs !! i = Some (H r c) → fwd_sem s (Obs e x) s' →
  hand_step (H r c) (Obs e x) = Some m' → hand_inv (svc s') (<[i := m']> hs).
Proof.
  intros He Hinv Hi Hs Hst. unfold fwd_sem in Hs.
  pose proof (hi_locked _ _ Hinv i _ Hi) as Hl. unfold hand_locked in Hl.
  pose proof (λ k n, locked_out (svc s) hs i _ Hinv Hi k n) as Hout. simpl in Hout.
  pose proof (hi_cond _ _ Hinv i _ Hi) as Hc. simpl in Hc.
  destruct e; try discriminate He; simpl in Hs, Hst; clear He.
  - destruct (condL (svc s)) eqn:Hcl; [done|]. destruct c; [done|].
    simplify_eq. simpl. apply (hand_change (svc s)); [done|..].
    + apply (cond_change (svc s) _ _ _ _ _ Hinv Hi); simpl; auto.
    + by destruct r as [| | |[]| | | | | |].
    + by apply (parts_change (svc s) _ _ _ _ _ Hinv Hi).
  - destruct c; [|done]. simplify_eq. simpl. apply (hand_change (svc s)); [done|..].
    + apply (cond_change (svc s) _ _ _ _ _ Hinv Hi); simpl; auto; by destruct r; simplify_eq.
    + by destruct r; simplify_eq.
    + destruct r; simplify_eq/=; parts Hinv Hi.
  - destruct r as [| | |[]| | | | | |]; simplify_eq. apply (hand_change (svc s)); [done|..].
    + apply (cond_change (svc s) _ _ _ _ _ Hinv Hi); simpl; auto.
    + done.
    + parts Hinv Hi.
  - destruct r as [| | |[]| | | | | |]; simplify_eq; (apply (hand_change (svc s)); [done|..]);
      try done; try (apply (cond_change (svc s) _ _ _ _ _ Hinv Hi); simpl; auto).
    + parts Hinv Hi.
    + parts Hinv Hi.
  - destruct r, b, c; simplify_eq; (apply (hand_change (svc s)); [done|..]);
      try done; try (apply (cond_change (svc s) _ _ _ _ _ Hinv Hi); simpl; auto).
    + parts Hinv Hi.
    + apply (parts_change _ _ _ _ _ _ Hinv Hi); [|intros k l Hk Hg Ht|done].
      * intros k g _ _ Ht. pose proof I as Hn. table g Ht Hn.
      * specialize (Hout k l eq_refl Hk Hg). table l Ht Hout.
  - destruct r; simplify_eq. destruct (chanSuspend (svc s)) eqn:Hch; simplify_eq.
    apply (hand_change (svc s)); [done|..|].
    + apply (cond_change (svc s) _ _ _ _ _ Hinv Hi); simpl; auto.
    + done.
    + parts Hinv Hi.
  - destruct r; simplify_eq. destruct (chanSuspend (svc s)) eqn:Hch; simplify_eq.
    apply (hand_change (svc s)); [done|..|].
    + apply (cond_change (svc s) _ _ _ _ _ Hinv Hi); simpl; auto.
    + done.
    + parts Hinv Hi.
Qed.

(** An effect that is not the handshake's leaves a goroutine's part alone. *)
Lemma unhanded_stays m X (e : fwdE X) x m' :
  handed e = false → hand_step m (Obs e x) = Some m' →
  match e with SGetSuspended => True | _ => m' = m end.
Proof.
  intros He Hst. destruct e; try done; simpl in Hst; repeat case_match; by simplify_eq.
Qed.

Lemma hand_compat_step s hs i m o s' m' :
  hand_compat s hs → hs !! i = Some m → fwd_sem s o s' → hand_step m o = Some m' →
  hand_compat s' (<[i := m']> hs).
Proof.
  unfold hand_compat. intros Hinv Hi Hs Hst. destruct o as [X e x].
  destruct (handed e) eqn:He; [destruct m; by eapply hand_do_ok|].
  pose proof (unhanded_stays _ _ _ _ _ He Hst) as Hm.
  pose proof (unhanded_same _ _ _ _ _ He Hs) as Hsame.
  destruct e; try discriminate He; clear He;
    try (subst m'; rewrite list_insert_id by done; by eapply hand_inv_same).
  unfold fwd_sem in Hs. simpl in Hs. simplify_eq. by apply (hand_get_ok _ _ _ m).
Qed.

Lemma hand_compat_split s hs i m mc mk :
  hand_compat s hs → hs !! i = Some m → hand_split m mc mk →
  hand_compat s (<[i := mk]> hs ++ [mc]).
Proof.
  intros [Hc Ho Hl Hp] Hi Hsp.
  assert (Hmk : hcond mk = hcond m ∧ hcond mc = false ∧ hand_locked mk ∧ hand_locked mc).
  { destruct Hsp as [[-> ->]|(Hm & -> & ->)]; [by split; [|split; [|split; [by eapply Hl|]]]|done]. }
  destruct Hmk as (Hmk & Hmc & Hlk & Hlc).
  assert (Hcase : ∀ k n, (<[i := mk]> hs ++ [mc]) !! k = Some n →
    k = i ∧ n = mk ∨ k = length hs ∧ n = mc ∨ k ≠ i ∧ hs !! k = Some n).
  { intros k n Hk. apply lookup_app_Some in Hk as [Hk|[Hlen Hk]]; [at_insert Hk; auto|].
    rewrite length_insert in *. apply list_lookup_singleton_Some in Hk as [Hk <-].
    right; left. split; [lia|done]. }
  split.
  - intros k n [[-> ->]|[[-> ->]|[_ Hk]]]%Hcase Hn; [|congruence|by eapply Hc].
    apply (Hc i m); congruence.
  - intros k k' n n' [[-> ->]|[[-> ->]|[_ Hk]]]%Hcase [[-> ->]|[[-> ->]|[_ Hk']]]%Hcase Hn Hn';
      try congruence; try done.
    + apply (Ho i k' m n'); congruence.
    + apply (Ho k i n m); congruence.
    + by apply (Ho k k' n n').
  - intros k n [[-> ->]|[[-> ->]|[_ Hk]]]%Hcase; [done|done|by eapply Hl].
  - destruct Hp as (kl & kg & l & g & Hne & Hkl & Hkg & Hrest & Ht).
    pose proof (lookup_lt_Some _ _ _ Hi) as Hlen.
    assert (Hold : ∀ k n, k ≠ i → hs !! k = Some n → (<[i := mk]> hs ++ [mc]) !! k = Some n).
    { intros k n Hn Hk. apply lookup_app_l_Some. by rewrite list_lookup_insert_ne. }
    assert (Hnew : (<[i := mk]> hs ++ [mc]) !! i = Some mk).
    { apply lookup_app_l_Some. by rewrite list_lookup_insert_eq. }
    destruct Hsp as [[-> ->]|(Hm & -> & ->)].
    + exists kl, kg, l, g. rewrite list_insert_id by done.
      split; [done|]. do 2 (split; [by apply lookup_app_l_Some|]).
      split; [|done]. rewrite list_insert_id in Hcase by done.
      intros k n [[-> ->]|[[-> ->]|[_ Hk]]]%Hcase H1 H2; [|done|]; by eapply Hrest.
    + assert (kl = i) as ->.
      { destruct (decide (kg = i)) as [->|Hng].
        - simplify_eq. unfold hand_table in Ht. by rewrite Hm in Ht.
        - destruct (decide (kl = i)) as [|Hnl]; [done|]. exfalso.
          rewrite (Hrest i m) in Hm by auto. done. }
      simplify_eq. pose proof (lookup_lt_Some _ _ _ Hkg) as Hgl.
      exists (length hs), kg, (H HRun false), g. split; [lia|].
      split; [by rewrite lookup_app_r, length_insert, Nat.sub_diag by (rewrite length_insert; lia)|].
      split; [by apply Hold|]. split.
      * intros k n [[-> ->]|[[-> ->]|[Hki Hk]]]%Hcase H1 H2; [done|done|]. by eapply Hrest.
      * rewrite Hm in Ht. pose proof I as Hn. simpl. table g Ht Hn.
Qed.

(** ** The goroutines *)

Definition deaf (o : obs fwdE) : Prop := ∀ m, hand_step m o = Some m.

(** What has no part in the handshake. *)
Definition outside {A : Type} (p : prog fwdE A) : Prop := everywhere deaf (λ _, True) p.

Lemma respects_outside {A} (p : prog fwdE A) m (Q : hst → A → Prop) :
  outside p → (∀ a, Q m a) → respects hand_mon p m Q.
Proof.
  intros Hp HQ.
  apply (respects_idle _ (H HOther false) (λ _, True) deaf (λ _, True)); try done.
  intros m' _. by left.
Qed.

Create HintDb outside.

Ltac solve_outside :=
  repeat (
    fwd_unfold;
    cbn [outside everywhere bind call go loop fst snd];
    match goal with
    | |- True => exact I
    | |- ∀ _, _ => intro
    | |- ?A ∧ ?B => split
    | |- deaf _ => intro; reflexivity
    | |- outside _ => solve [auto with outside nocore]
    | |- everywhere _ _ ?p => change (outside p)
    | |- outside (bind _ _) => apply everywhere_bind
    | |- outside (match ?x with _ => _ end) => destruct x
    end).

Section programs.
Context `{PkgErrors}.

Lemma outside_closeUpstream p : outside (closeUpstream p).
Proof. unfold closeUpstream. solve_outside. Qed.
Lemma outside_closeDownstream p : outside (closeDownstream p).
Proof. unfold closeDownstream. solve_outside. Qed.
Lemma outside_upstreamStep p c1 c2 : outside (upstreamStep p c1 c2).
Proof. unfold upstreamStep. solve_outside. Qed.
Lemma outside_downstreamStep c1 c2 : outside (downstreamStep c1 c2).
Proof. unfold downstreamStep. solve_outside. Qed.
Lemma outside_dialTCP g n a : outside (dialTCP g n a).
Proof. unfold dialTCP. solve_outside. Qed.
#[local] Hint Resolve outside_closeUpstream outside_closeDownstream outside_upstreamStep
  outside_downstreamStep outside_dialTCP : outside.

Lemma outside_upstream p c1 c2 w : outside (upstream p c1 c2 w).
Proof. unfold upstream. solve_outside. Qed.
Lemma outside_downstream p c1 c2 w : outside (downstream p c1 c2 w).
Proof. unfold downstream. solve_outside. Qed.
#[local] Hint Resolve outside_upstream outside_downstream : outside.

Lemma outside_Accept g f n a c : outside (Accept g f n a c).
Proof. unfold Accept. solve_outside. Qed.
#[local] Hint Resolve outside_Accept : outside.

Lemma outside_serveClient g n f e c : outside (serveClient g n f e c).
Proof. unfold serveClient. solve_outside. Qed.
#[local] Hint Resolve outside_serveClient : outside.

Lemma outside_admitClient g n c : outside (admitClient g n c).
Proof. unfold admitClient, NewForwarder, SetDataRate. solve_outside. Qed.

Lemma outside_CloseSvc : outside CloseSvc.
Proof. unfold CloseSvc. solve_outside. Qed.

Lemma outside_Close w f : outside (defer (wg_done w) (Close f)).
Proof. unfold Close. solve_outside. Qed.

(** One step of the handshake, and as many as there are. *)
Ltac hand_step1 :=
  match goal with
  | |- True => exact I
  | |- ∀ _, _ → _ => intros ? ?
  | |- ∀ _, _ => intro
  | |- respects _ (bind (bind _ _) _) _ _ => apply respects_bind
  | |- respects _ (bind (match ?x with _ => _ end) _) _ _ => destruct x eqn:?
  | |- respects _ (match ?x with _ => _ end) _ _ => destruct x eqn:?
  end.

Ltac hand :=
  repeat (
    fwd_unfold;
    cbn [respects bind call go loop mon_step mon_legal mon_split mon_final mon_panic hand_mon
         hand_step hpart hcond with_hpart with_hcond fst snd negb];
    try hand_step1).

Lemma hand_closer ln :
  respects hand_mon (closer ln) (H HOther false) (λ m' _, mon_final hand_mon m').
Proof. unfold closer. by hand. Qed.

Abbreviation at_run := (H HRun false).

Lemma hand_awaitResume : respects hand_mon awaitResume at_run (λ m _, m = at_run).
Proof.
  unfold awaitResume, cond_wait. hand; [|done].
  exists (λ _ m, ∃ b, m = H (HPark1 b) true). split; [by exists false|]. intros [] m [b ->].
  hand; [by exists false|done].
Qed.

Lemma hand_listen g n ln :
  respects hand_mon (listen g n ln) at_run (λ m _, mon_final hand_mon m).
Proof.
  unfold listen. exists (λ _ m, m = at_run). split; [done|]. intros [] m ->.
  apply respects_bind. eapply respects_mono; [apply hand_awaitResume|]. intros ? [] ->.
  hand; try done; by apply respects_bind, respects_outside; [apply outside_admitClient|].
Qed.

Lemma hand_serve g n ln :
  respects hand_mon (serve g n ln) (H HServe false) (λ m _, mon_final hand_mon m).
Proof.
  unfold serve, go. cbn [bind respects]. exists (H HOther false), (H HServe false).
  split; [by left|]. split; [apply hand_closer|]. exists at_run, (H HOther false).
  split; [by right|]. split; [apply hand_listen|done].
Qed.

Lemma hand_CloseAll :
  respects hand_mon CloseAllForwarders (H HIn false) (λ m _, m = H HIn false).
Proof.
  unfold CloseAllForwarders. hand. exists (λ _ m, m = H HIn false). split; [done|].
  intros [[e f]|] m ->; [|by hand]. hand.
  exists (H HOther false), (H HIn false). split; [by left|].
  split; [by apply respects_outside; [apply outside_Close|]|]. by hand.
Qed.

Lemma hand_move a : respects hand_mon (move a) (H HIdle false) (λ m _, mon_final hand_mon m).
Proof.
  unfold move, Suspend, ChangeServerAddr, ChangeDataRate, Resume. hand.
  apply respects_bind. eapply respects_mono; [apply hand_CloseAll|]. intros ? [] ->.
  by hand.
Qed.

End programs.

(** * Duties *)

(** Who still has to answer a [Suspend], and who still has to wake the listener up. *)
Definition answers (r : hrole) : Prop := r = HServe ∨ r = HRun ∨ r = HPark0.
Definition resumes (r : hrole) : Prop := r = HSet ∨ r = HIn ∨ r = HPend.

(** The duty, of level [n], of a goroutine, on which [e] waits. *)
Definition duty (m : tst * hst) (X : Type) (e : fwdE X) (n : nat) : Prop :=
  match e with
  | FMuxLock f d => n = 0 ∧ ∃ h, TMux f d h ∈ toks m.1
  | SCondLock => n = 0 ∧ TCond ∈ toks m.1
  | SFwdrsLock => n = 0 ∧ TFwdrs ∈ toks m.1
  | FRecvClosed f => n = 2 ∧ TClosed f ∈ toks m.1
  | WWait w =>
      (∃ x, (w, x) ∈ owes m.1) ∧ (wg_level (facts m.1) w = n ∨ wg_level (facts m.1) w = 0)
  | SRecvSuspend => n = 5 ∧ answers (hpart m.2)
  | SCondWait _ => n = 6 ∧ resumes (hpart m.2)
  | SRecvClose => n = 7 ∧ TSvc ∈ toks m.1
  | _ => False
  end.

Definition asks (m : tst * hst) (X : Type) (e : fwdE X) (n : nat) : Prop :=
  wait_level (facts m.1) e = Some n.

(** Only the answer to [Suspend] may never come: its listener may have ended. *)
Definition unanswered (X : Type) (e : fwdE X) : Prop :=
  match e with SRecvSuspend => True | _ => False end.

Section duties.
Context (risk : bool).

Abbreviation mon := (mon_both (tok_mon risk) hand_mon).
Abbreviation compat := (compat_both pool_good hand_compat).

(** What the monitor lets a goroutine ask for. *)
Lemma allowed_both m X (e : fwdE X) x :
  allowed mon m e → tok_legal m.1 (Obs e x) →
  permitted m.1 e = true ∧ hand_step m.2 (Obs e x) ≠ None.
Proof.
  intros Ha Hl. specialize (Ha x (conj Hl I)).
  cbn [mon_step mon_both tok_mon hand_mon tok_step] in Ha.
  destruct (permitted m.1 e); [|done]. split; [done|]. intros Hh. apply Ha.
  rewrite Hh. by destruct (tok_next m.1 (Obs e x)).
Qed.

Lemma free_tok n m t : free n m = true → t ∈ toks m → n < tok_level t.
Proof.
  intros [Hf _]%andb_true_iff Ht. rewrite forallb_forall in Hf.
  by apply Nat.ltb_lt, Hf, list_elem_of_In.
Qed.

Lemma free_debt n m d : free n m = true → d ∈ owes m → n < wg_level (facts m) d.1.
Proof.
  intros [_ Hf]%andb_true_iff Hd. rewrite forallb_forall in Hf.
  by apply Nat.ltb_lt, (Hf d), list_elem_of_In.
Qed.

Lemma wg_level_le fs w : wg_level fs w ≤ 3.
Proof. unfold wg_level. repeat case_decide; lia. Qed.

Lemma duty_order m X (e : fwdE X) n X' (e' : fwdE X') n' :
  duty m X e n → asks m X' e' n' → allowed mon m e' → n' < n.
Proof.
  intros Hd Hask Ha. unfold asks in Hask.
  assert (Hok : free n' m.1 = true ∧ (answers (hpart m.2) → n' < 5) ∧ (resumes (hpart m.2) → n' < 6)).
  { unfold answers, resumes. pose proof (wg_level_le (facts m.1)) as Hle.
    destruct e'; simplify_eq/=;
      destruct (allowed_both _ _ _ tt Ha I) as [[_ Hf]%andb_true_iff Hh]; simpl in Hf;
      (split; [done|]); simpl in Hh; split; intros Hr; try lia;
      try (specialize (Hle w); lia); destruct (hpart m.2) as [| | |[]| | | | | |]; try done;
      destruct Hr as [|[|]]; done. }
  destruct Hok as (Hf & Hans & Hres). destruct e; try done; simpl in Hd.
  - destruct Hd as (-> & h & Hh). by apply (free_tok _ _ _ Hf) in Hh.
  - destruct Hd as (-> & Hh). by apply (free_tok _ _ _ Hf) in Hh.
  - destruct Hd as ((x & Hx) & Hl). apply (free_debt _ _ _ Hf) in Hx. simpl in Hx.
    destruct Hl as [<-|Hl]; [done|lia].
  - destruct Hd as (-> & Hh). by apply (free_tok _ _ _ Hf) in Hh.
  - destruct Hd as (-> & Hh). by apply Hres.
  - destruct Hd as (-> & Hh). by apply Hans.
  - destruct Hd as (-> & Hh). by apply (free_tok _ _ _ Hf) in Hh.
  - destruct Hd as (-> & Hh). by apply (free_tok _ _ _ Hf) in Hh.
Qed.

Lemma duty_final m X (e : fwdE X) n : mon_final mon m → duty m X e n → unanswered X e.
Proof.
  intros [[Ht Ho] Hh] Hd. rewrite forallb_forall in Ht.
  assert (Hno : ∀ t, t ∈ toks m.1 → may_drop t = true) by (by intros t ?%list_elem_of_In%Ht).
  destruct e; simpl in Hd |- *; try done.
  - destruct Hd as (_ & h & Hx%Hno). done.
  - destruct Hd as (_ & Hx%Hno). done.
  - destruct Hd as ((x & Hx) & _). rewrite Ho in Hx. by apply not_elem_of_nil in Hx.
  - destruct Hd as (_ & Hx%Hno). done.
  - destruct Hd as (_ & Hr). simpl in Hh. destruct Hr as [Hr|[Hr|Hr]]; by rewrite Hr in Hh.
  - destruct Hd as (_ & Hx%Hno). done.
  - destruct Hd as (_ & Hx%Hno). done.
Qed.

(** ** What the pool's tokens, debts and facts are *)

Lemma in_pool {A} (f : tst → list A) (ms : list (tst * hst)) i m x :
  ms !! i = Some m → x ∈ f m.1 → x ∈ concat (f <$> ms.*1).
Proof.
  intros Hi Hx. apply list_elem_of_In, in_concat. exists (f m.1).
  split; apply list_elem_of_In; [|done]. apply list_elem_of_fmap. exists m.1. split; [done|].
  apply list_elem_of_fmap. exists m. split; [done|]. by eapply list_elem_of_lookup_2.
Qed.

Lemma of_pool {A} (f : tst → list A) (ms : list (tst * hst)) x :
  x ∈ concat (f <$> ms.*1) → ∃ i m, ms !! i = Some m ∧ x ∈ f m.1.
Proof.
  intros (l & Hl & Hx)%list_elem_of_In%in_concat.
  apply list_elem_of_In, list_elem_of_fmap in Hl as (m1 & -> & Hm1).
  apply list_elem_of_fmap in Hm1 as (m & -> & [i Hi]%list_elem_of_lookup).
  exists i, m. split; [done|]. by apply list_elem_of_In.
Qed.

(** ** The parts of the handshake *)

Section parts.
Context (p : ForwarderService) (hs : list hst).
Hypothesis Hinv : hand_inv p hs.

Lemma answers_silent j m : hs !! j = Some m → answers (hpart m) → chanSuspend p = false.
Proof.
  intros Hj Ha. destruct (hi_parts _ _ Hinv) as (kl & kg & l & g & Hne & Hl & Hg & Hrest & Ht).
  assert (j ≠ kg) as Hjg.
  { intros ->. simplify_eq. unfold hand_table, hand_tab in Ht.
    by destruct Ha as [Hm|[Hm|Hm]]; rewrite Hm in Ht. }
  destruct (decide (j = kl)) as [->|Hjl].
  - simplify_eq. unfold hand_table, hand_tab in Ht.
    destruct Ha as [Hm|[Hm|Hm]]; rewrite Hm in Ht; destruct (hpart g), (chanSuspend p);
      simpl in Ht; rewrite ?andb_false_r in Ht; done.
  - apply (Hrest j m Hj Hjl) in Hjg. by destruct Ha as [Hm|[Hm|Hm]]; rewrite Hm in Hjg.
Qed.

Lemma set_answerer i m :
  hs !! i = Some m → hpart m = HSet → chanSuspend p = false →
  ∃ j n, hs !! j = Some n ∧ answers (hpart n).
Proof.
  intros Hi Hm Hc. destruct (hi_parts _ _ Hinv) as (kl & kg & l & g & Hne & Hl & Hg & Hrest & Ht).
  exists kl, l. split; [done|]. unfold answers.
  destruct (decide (i = kg)) as [->|Hig].
  - simplify_eq. unfold hand_table, hand_tab in Ht. rewrite Hm, Hc in Ht.
    destruct (hpart l); auto; rewrite ?andb_false_r in Ht; done.
  - exfalso. destruct (decide (i = kl)) as [->|Hil].
    + simplify_eq. unfold hand_table, hand_tab in Ht. rewrite Hm in Ht.
      destruct (hpart g); rewrite ?andb_false_r in Ht; done.
    + by rewrite (Hrest i m) in Hm.
Qed.

(** The goroutine that resumes is the only one that may wake others up. *)
Lemma resumes_alone i j m n :
  hs !! i = Some m → hs !! j = Some n → resumes (hpart n) → hpart m = HSet ∨ hpart m = HPend →
  i = j.
Proof.
  intros Hi Hj Hn Hm. destruct (hi_parts _ _ Hinv) as (kl & kg & l & g & Hne & Hl & Hg & Hrest & Ht).
  assert (Hkg : ∀ k r, hs !! k = Some r → resumes (hpart r) → k = kg).
  { intros k r Hk Hr. destruct (decide (k = kg)) as [|Hkg]; [done|]. exfalso.
    destruct (decide (k = kl)) as [->|Hkl].
    - simplify_eq. unfold hand_table, hand_tab in Ht.
      destruct Hr as [Hr|[Hr|Hr]]; rewrite Hr in Ht; destruct (hpart g);
        rewrite ?andb_false_r in Ht; done.
    - rewrite (Hrest k r) in Hr by done. by destruct Hr as [Hr|[Hr|Hr]]. }
  rewrite (Hkg i m), (Hkg j n); try done. destruct Hm as [-> | ->]; unfold resumes; auto.
Qed.

Lemma waiting_resumer :
  waiting p ≠ [] → ∃ j n, hs !! j = Some n ∧ resumes (hpart n).
Proof.
  intros Hw. destruct (hi_parts _ _ Hinv) as (kl & kg & l & g & Hne & Hl & Hg & Hrest & Ht).
  exists kg, g. split; [done|]. unfold hand_table, hand_tab in Ht.
  rewrite (bool_decide_eq_false_2 (waiting p = []) Hw) in Ht. unfold resumes.
  destruct (hpart g); auto; rewrite ?andb_false_r in Ht; done.
Qed.

Lemma park0_silent j m : hs !! j = Some m → hpart m = HPark0 → chanSuspend p = false.
Proof. intros Hj Hm. eapply answers_silent; [exact Hj|]. unfold answers. auto. Qed.

End parts.

(** ** A duty blocks what waits on it *)

Definition on_ticket {X : Type} (e : fwdE X) : bool :=
  match e with SCondWait _ => true | _ => false end.

Lemma duty_blocks s ms j m X (e : fwdE X) n :
  compat s ms → ms !! j = Some m → duty m X e n → on_ticket e = false → blocked fwd_sem s e.
Proof.
  intros [Hg Hh] Hj Hd Hno x s' Hs. unfold fwd_sem in Hs.
  pose proof (λ t, in_pool toks ms j m t Hj) as Ht.
  destruct (both_lookup ms j m Hj) as [_ Hj2].
  pose proof (g_svc _ _ _ _ Hg) as Hsv.
  destruct e; try discriminate Hno; simpl in Hs, Hd; try done.
  - destruct Hd as (_ & h & Hx%Ht). open_heap Hs.
    apply (ok_mux _ _ _ _ (g_fwd _ _ _ _ Hg _ _ E)) in Hx. by rewrite Hx in E0.
  - destruct Hd as (_ & Hx%Ht). open_heap Hs.
    apply (ok_closed _ _ _ _ (g_fwd _ _ _ _ Hg _ _ E)) in Hx. congruence.
  - destruct Hd as ((y & Hy) & _). pose proof (in_pool owes ms j m _ Hj Hy) as Hin.
    destruct (g_debts _ _ _ _ Hg) as [Hd _].
    destruct (wgs s !! w) as [k|] eqn:Hk; [|done].
    pose proof (owed_some w _ _ Hin eq_refl) as Hpos. rewrite <-(Hd w k Hk) in Hpos.
    simpl in Hs. destruct (Nat.ltb_spec 0 k); [done|lia].
  - destruct Hd as (_ & Hx%Ht). by rewrite (ok_cond _ _ Hsv Hx) in Hs.
  - destruct Hd as (_ & Ha). by rewrite (answers_silent _ _ Hh _ _ Hj2 Ha) in Hs.
  - destruct Hd as (_ & Hx%Ht). by rewrite (ok_svc _ _ Hsv Hx) in Hs.
  - destruct Hd as (_ & Hx%Ht). by rewrite (ok_fwdrs _ _ Hsv Hx) in Hs.
Qed.

(** Who has entered the waiting list of the condition stays there until the migration wakes
    everybody up. *)
Lemma waiting_stays s ms i j m mj o s' m' t :
  compat s ms → ms !! i = Some m → ms !! j = Some mj → i ≠ j → fwd_sem s o s' →
  hand_step m.2 o = Some m' → resumes (hpart mj.2) → t ∈ waiting (svc s) → t ∈ waiting (svc s').
Proof.
  intros [_ Hh] Hi Hj Hn Hs Hst Hr Ht. destruct o as [X e x].
  destruct (both_lookup ms i m Hi) as [_ Hi2], (both_lookup ms j mj Hj) as [_ Hj2].
  destruct (handed e) eqn:He.
  - unfold fwd_sem in Hs. destruct e; try discriminate He; simpl in Hs, Hst; clear He;
      repeat case_match; simplify_eq/=; try done; try by right.
    all: destruct Hn; eapply (resumes_alone _ _ Hh i j); eauto.
  - by destruct (unhanded_same _ _ _ _ _ He Hs) as (_ & -> & _).
Qed.

Lemma duty_stable s ms i j m mj o s' m' X (e : fwdE X) n :
  compat s ms → ms !! i = Some m → ms !! j = Some mj → i ≠ j → fwd_sem s o s' →
  mon_step mon m o = Some m' → duty mj X e n → blocked fwd_sem s e → blocked fwd_sem s' e.
Proof.
  intros Hc Hi Hj Hn Hs Hst Hd Hb. destruct (on_ticket e) eqn:Ht.
  - destruct e; try discriminate Ht. simpl in Hd. intros x s2 Hs2.
    unfold fwd_sem in Hs2. simpl in Hs2. case_decide as Hin; [done|]. apply Hin.
    apply both_step in Hst as [_ Hst].
    eapply (waiting_stays s ms i j); try done; [by apply Hd|].
    destruct (decide (ticket ∈ waiting (svc s))) as [|Hno]; [done|].
    exfalso. apply (Hb tt s). unfold fwd_sem. simpl. by rewrite decide_False.
  - eapply (duty_blocks s' (<[i := m']> ms) j); [|by rewrite list_lookup_insert_ne|done..].
    eapply (both_compat_step (tok_mon risk) hand_mon fwd_sem); [| |exact Hc|done..].
    + intros. by eapply tok_compat_step.
    + intros. by eapply hand_compat_step.
Qed.

(** ** What is asked for is given, or somebody has the duty *)

Lemma net_enabled s X (e : fwdE X) :
  mem_do s e = None → ∃ x s', net_do s (Obs e x) s'.
Proof.
  intros He. destruct e; try discriminate He; clear He.
  - by exists tt, s.
  - by exists (Ok (mkTCPAddr "" 0)), s.
  - by exists (Err (EText "")), s.
  - by exists (Err (EText "")), s.
  - by exists ([], None), s.
  - by exists (0%Z, None), s.
  - destruct (decide (c ∈ opens s)) as [Hc|Hc].
    + apply elem_of_Permutation in Hc as [rest Hr]. exists None, (set_opens rest s).
      left. split; [rewrite Hr; by left|]. by exists rest.
    + exists (Some (EText "")), s. by right.
  - by exists None, s.
  - by exists tt, s.
  - by exists None, s.
  - by exists None, s.
  - by exists 0%Z, s.
  - by exists tt, s.
Qed.

Section progress.
Context (s : fmem) (ms : list (tst * hst)) (i : nat) (m : tst * hst).
Hypothesis Hc : compat s ms.
Hypothesis Hi : ms !! i = Some m.

Lemma known_exists k f : k ∈ facts m.1 → kabout k = Some f → heap s !! f ≠ None.
Proof.
  intros Hk Hf Hno. destruct Hc as [Hg _].
  apply (g_krange _ _ _ _ Hg k f) in Hf; [|by eapply in_pool].
  apply lookup_lt_is_Some in Hf as [x Hx]. congruence.
Qed.

(** An effect on a forwarder the goroutine knows. *)
Lemma ref_exists X (e : fwdE X) x f :
  allowed mon m e → (heap s !! f = None → tok_legal m.1 (Obs e x)) →
  known_ok m.1 e = bool_decide (KRef f ∈ facts m.1) → is_Some (heap s !! f).
Proof.
  intros Ha Hl Hk. destruct (heap s !! f) as [y|] eqn:Hf; [by eexists|]. exfalso.
  destruct (allowed_both _ _ _ _ Ha (Hl eq_refl)) as [[Hkn _]%andb_true_iff _].
  rewrite Hk in Hkn. apply bool_decide_eq_true in Hkn. by eapply known_exists.
Qed.

Lemma wg_exists w b : KWg w b ∈ facts m.1 → is_Some (wgs s !! w).
Proof.
  intros Hk. destruct Hc as [Hg _]. apply lookup_lt_is_Some.
  by apply (g_kwg _ _ _ _ Hg w b); eapply in_pool.
Qed.

Lemma owed_exists w ds : 0 < owed w ds → ∃ d, d ∈ ds ∧ d.1 = w.
Proof.
  induction ds as [|d ds IH]; [unfold owed; simpl; lia|]. rewrite owed_cons.
  destruct (decide (d.1 = w)) as [Hd|Hd]; [exists d; split; [by left|done]|].
  intros (d' & Hd' & Hw)%IH. exists d'. split; [by right|done].
Qed.

(** Everybody who knows a wait group knows the same of it. *)
Lemma levels_agree w j mj :
  ms !! j = Some mj → KWg w true ∈ facts m.1 ∨ KWg w false ∈ facts m.1 →
  wg_level (facts mj.1) w = wg_level (facts m.1) w ∨ wg_level (facts mj.1) w = 0.
Proof.
  intros Hj Hk. destruct Hc as [Hg _].
  assert (Hag : ∀ b b', KWg w b ∈ facts m.1 → KWg w b' ∈ facts mj.1 ∨ KWg w b' ∈ facts m.1 → b' = b).
  { intros b b' Hb Hb'. destruct (g_kwg _ _ _ _ Hg w b) as [_ Hu]; [exact (in_pool facts ms i m _ Hi Hb)|].
    apply Hu. destruct Hb' as [Hb'|Hb'];
      [exact (in_pool facts ms j mj _ Hj Hb')|exact (in_pool facts ms i m _ Hi Hb')]. }
  unfold wg_level. destruct Hk as [Hk|Hk].
  - rewrite (decide_True (P := KWg w true ∈ facts m.1)) by done.
    case_decide; [by left|]. case_decide as Hf; [|by right].
    by specialize (Hag true false Hk (or_introl Hf)).
  - rewrite (decide_False (P := KWg w true ∈ facts m.1))
      by (intros Ht; by specialize (Hag false true Hk (or_intror Ht))).
    rewrite (decide_True (P := KWg w false ∈ facts m.1)) by done.
    case_decide as Ht; [by specialize (Hag false true Hk (or_introl Ht))|].
    case_decide; auto.
Qed.

Lemma tok_holder t X (e : fwdE X) n :
  t ∈ concat (toks <$> ms.*1) → (∀ mj, t ∈ toks mj.1 → duty mj X e n) →
  wait_level (facts m.1) e = Some n → on_ticket e = false →
  blocked fwd_sem s e ∧ ∃ j mj n, ms !! j = Some mj ∧ duty mj X e n ∧ asks m X e n.
Proof.
  intros (j & mj & Hj & Ht)%of_pool Hd Hw Hno. split.
  - by eapply (duty_blocks s ms j); [..|apply Hd|].
  - exists j, mj, n. eauto.
Qed.

(** An effect on the forwarder [f] that does not wait; [x] is an answer it may have. *)
Ltac on_fwd f x :=
  left; match goal with Ha : allowed _ _ ?e |- _ =>
    let y := fresh "y" in let Hy := fresh "Hy" in
    destruct (ref_exists _ e x f Ha) as [y Hy]; [|reflexivity|
      do 2 eexists; unfold fwd_sem; simpl; unfold peek, poke; rewrite Hy; simpl; reflexivity]
  end; simpl; try done.

Lemma duty_progress X (e : fwdE X) :
  allowed mon m e →
  (∃ x s', fwd_sem s (Obs e x) s') ∨
  blocked fwd_sem s e ∧ ∃ j mj n, ms !! j = Some mj ∧ duty mj X e n ∧ asks m X e n.
Proof.
  intros Ha. destruct (mem_do s e) as [r|] eqn:Hm.
  2: { left. destruct (net_enabled s X e Hm) as (x & s' & Hn). exists x, s'.
       unfold fwd_sem. by rewrite Hm. }
  pose proof Hc as [Hg Hh]. destruct (both_lookup ms i m Hi) as [Hi1 Hi2].
  pose proof (g_svc _ _ _ _ Hg) as Hsv.
  destruct e; try discriminate Hm; clear Hm;
    try (left; do 2 eexists; unfold fwd_sem; simpl; reflexivity).
  - on_fwd f (None : option conn). intros Hno c Hk. by destruct (known_exists _ f Hk eq_refl).
  - on_fwd f tt.
  - on_fwd f (None : option conn). intros Hno c Hk. by destruct (known_exists _ f Hk eq_refl).
  - on_fwd f tt.
  - on_fwd f 0%Z.
  - on_fwd f tt.
  - on_fwd f true.
  - on_fwd f tt.
  - destruct (ref_exists _ _ tt f Ha) as [y Hy]; [done..|].
    destruct (mux d y) eqn:Hb.
    + right. destruct (ok_held _ _ _ _ (g_fwd _ _ _ _ Hg f y Hy) d Hb) as [h Hin].
      apply (tok_holder (TMux f d h) _ _ 0); try done. intros mj Hmj. split; [done|]. by exists h.
    + left. do 2 eexists. unfold fwd_sem. simpl. unfold await. rewrite Hy. simpl. by rewrite Hb.
  - on_fwd f true.
  - on_fwd f true.
  - on_fwd f tt.
  - on_fwd f true.
  - on_fwd f true.
  - on_fwd f true.
  - destruct (ref_exists _ _ tt f Ha) as [y Hy]; [done..|].
    destruct (chanClosed y) eqn:Hb.
    + left. do 2 eexists. unfold fwd_sem. simpl. unfold await. rewrite Hy. simpl. by rewrite Hb.
    + right. pose proof (ok_unclosed _ _ _ _ (g_fwd _ _ _ _ Hg f y Hy) Hb) as Hin.
      apply (tok_holder (TClosed f) _ _ 2); try done.
  - destruct (allowed_both _ _ _ tt Ha I) as [[Hk _]%andb_true_iff _]. simpl in Hk.
    left. assert (is_Some (wgs s !! w)) as [k Hw].
    { apply orb_true_iff in Hk as [Hk|Hk]; apply bool_decide_eq_true in Hk; by eapply wg_exists. }
    do 2 eexists. unfold fwd_sem. simpl. by rewrite Hw.
  - destruct (allowed_both _ _ _ true Ha ltac:(done)) as [[Hk _]%andb_true_iff _]. simpl in Hk.
    apply bool_decide_eq_true, list_elem_of_fmap in Hk as (d & -> & Hd). left.
    assert (is_Some (wgs s !! d.1)) as [k Hw].
    { apply lookup_lt_is_Some. destruct (g_debts _ _ _ _ Hg) as [_ Hb]. apply (Hb d).
      by eapply (in_pool owes). }
    do 2 eexists. unfold fwd_sem. simpl. by rewrite Hw.
  - destruct (allowed_both _ _ _ tt Ha I) as [[Hk _]%andb_true_iff _]. simpl in Hk.
    assert (KWg w true ∈ facts m.1 ∨ KWg w false ∈ facts m.1) as Hkw.
    { apply orb_true_iff in Hk as [Hk|Hk]; apply bool_decide_eq_true in Hk; auto. }
    assert (is_Some (wgs s !! w)) as [k Hw] by (destruct Hkw; by eapply wg_exists).
    destruct (g_debts _ _ _ _ Hg) as [Hd _]. pose proof (Hd w k Hw) as Hk'.
    destruct k as [|k]; [left; do 2 eexists; unfold fwd_sem; simpl; by rewrite Hw|].
    right. destruct (owed_exists w (concat (owes <$> ms.*1))) as ([w' x] & Hx & Hxw); [lia|].
    simpl in Hxw. subst w'. apply of_pool in Hx as (j & mj & Hj & Hx).
    assert (duty mj () (WWait w) (wg_level (facts m.1) w)) as Hdu.
    { split; [by exists x|by eapply levels_agree]. }
    split; [by eapply (duty_blocks s ms j)|]. by exists j, mj, (wg_level (facts m.1) w).
  - destruct (condL (svc s)) eqn:Hb; [right|left; do 2 eexists; unfold fwd_sem; simpl; by rewrite Hb].
    apply (tok_holder TCond _ _ 0); try done. by apply (ok_cond_held _ _ Hsv).
  - destruct (decide (ticket ∈ waiting (svc s))) as [Hb|Hb];
      [right|left; do 2 eexists; unfold fwd_sem; simpl; by rewrite decide_False].
    destruct (waiting_resumer _ _ Hh) as (j & n & Hj & Hn).
    { intros Hw. rewrite Hw in Hb. by apply not_elem_of_nil in Hb. }
    apply list_lookup_fmap_Some in Hj as (mj & -> & Hj).
    split; [|by exists j, mj, 6]. intros x s' Hs. unfold fwd_sem in Hs. simpl in Hs.
    by rewrite decide_True in Hs.
  - destruct (allowed_both _ _ _ tt Ha I) as [_ Hk]. simpl in Hk.
    destruct (hpart m.2) eqn:Hp; try done.
    left. do 2 eexists. unfold fwd_sem. simpl. by rewrite (park0_silent _ _ Hh _ _ Hi2 Hp).
  - destruct (allowed_both _ _ _ tt Ha I) as [_ Hk]. simpl in Hk.
    destruct (hpart m.2) eqn:Hp; try done.
    destruct (chanSuspend (svc s)) eqn:Hb; [left; do 2 eexists; unfold fwd_sem; simpl; by rewrite Hb|].
    right. destruct (set_answerer _ _ Hh _ _ Hi2 Hp Hb) as (j & n & Hj & Hn).
    apply list_lookup_fmap_Some in Hj as (mj & -> & Hj).
    split; [|by exists j, mj, 5]. intros x s' Hs. unfold fwd_sem in Hs. simpl in Hs.
    by rewrite Hb in Hs.
  - destruct (chanClose (svc s)) eqn:Hb; [left; do 2 eexists; unfold fwd_sem; simpl; by rewrite Hb|].
    right. apply (tok_holder TSvc _ _ 7); try done. by apply (ok_svc_open _ _ Hsv).
  - destruct (muxFwdrs (svc s)) eqn:Hb; [right|left; do 2 eexists; unfold fwd_sem; simpl; by rewrite Hb].
    apply (tok_holder TFwdrs _ _ 0); try done. by apply (ok_fwdrs_held _ _ Hsv).
Qed.

End progress.

End duties.

(** * The service *)

(** The parts at the start: what starts the service, and at most one migration; without one,
    [Close] stands for a migration that never asks. *)
Definition first_parts (n : nat) : list hst :=
  match n with
  | 0 => [H HServe false; H HIdle false]
  | _ => [H HServe false; H HOther false; H HIdle false]
  end.

Lemma first_hand n sa r : hand_compat (init_mem sa r) (first_parts n).
Proof.
  assert (Hall : ∀ k m, first_parts n !! k = Some m →
    hcond m = false ∧ hand_locked m ∧
    (k ≠ 0 → k ≠ match n with 0 => 1 | _ => 2 end → hpart m = HOther)).
  { intros k m Hk. destruct n, k as [|[|[|k]]]; simplify_eq/=; done. }
  split.
  - intros k m [Hm _]%Hall. congruence.
  - intros k k' m m' [Hm _]%Hall. congruence.
  - by intros k m (_ & ? & _)%Hall.
  - exists 0, (match n with 0 => 1 | _ => 2 end), (H HServe false), (H HIdle false).
    split; [by destruct n|]. split; [by destruct n|]. split; [by destruct n|].
    split; [|done]. by intros k m (_ & _ & ?)%Hall.
Qed.

(** Every reachable state keeps both invariants. *)
Lemma live_reachable `{PkgErrors} g n ln migs sa r ts s :
  length migs ≤ 1 →
  rtc (pstep fwd_sem) (goroutines g n ln migs, init_mem sa r) (ts, s) →
  pool_inv (mon_both (tok_mon true) hand_mon) (compat_both pool_good hand_compat) (ts, s).
Proof.
  intros Hlen Hr. eapply (pool_sound (mon_both _ _) fwd_sem (compat_both _ _)); [..|exact Hr].
  - apply both_compat_legal; [intros; by eapply tok_compat_legal|done].
  - apply both_compat_step; [intros; by eapply tok_compat_step|intros; by eapply hand_compat_step].
  - apply both_compat_split;
      [intros; by eapply tok_compat_split|intros; by eapply hand_compat_split].
  - exists (zip (first_tokens (length migs)) (first_parts (length migs))).
    assert (Hz : ∀ p m1 m2, respects (tok_mon true) p m1 (λ m _, mon_final (tok_mon true) m) →
      respects hand_mon p m2 (λ m _, mon_final hand_mon m) →
      respects (mon_both (tok_mon true) hand_mon) p (m1, m2)
        (λ m (_ : unit), mon_final (mon_both (tok_mon true) hand_mon) m)).
    { intros p m1 m2 H1 H2. by eapply respects_both. }
    assert (Hclose : ∀ r, mon_final hand_mon (H r false) →
      respects hand_mon CloseSvc (H r false) (λ m _, mon_final hand_mon m)).
    { intros r' Hr'. by apply respects_outside; [apply outside_CloseSvc|]. }
    split.
    + destruct migs as [|a [|b migs]]; [| |simpl in Hlen; lia];
        cbn [goroutines fmap list_fmap length first_tokens first_parts replicate zip zip_with fst];
        repeat apply Forall2_cons_2; try apply Forall2_nil_2;
        (apply Hz; [first [apply tok_serve|apply tok_CloseSvc|apply tok_move]
                   |first [apply hand_serve|by apply Hclose|apply hand_move]]).
    + assert (length (first_tokens (length migs)) = length (first_parts (length migs))) as Hl.
      { destruct migs as [|a [|b migs]]; simpl in *; [done..|lia]. }
      split; rewrite ?fst_zip, ?snd_zip by lia; [apply first_good|apply first_hand].
Qed.

(** C6.  Nobody waits forever by the fault of the service's own goroutines.  A forwarding
    service, its clients, its [Close] and at most one migration run under any interleaving and
    any answers of the network, and none of them has panicked.  Whoever has not returned can
    move, or cannot move before another one has, and so on up to one that can move: no circle
    of goroutines waits for one another's mutexes, channels, wait groups and condition
    variable.  The one exception is a migration whose [Suspend] waits for the answer of a
    listener that has ended. *)
Theorem nobody_waits_forever `{PkgErrors} (gatewayAddr network : string) (ln : listener)
    (migs : list TCPAddr) (serverAddr : TCPAddr) (rate : Z) ts s i p :
  length migs ≤ 1 →
  rtc (pstep fwd_sem)
    (goroutines gatewayAddr network ln migs, init_mem serverAddr rate) (ts, s) →
  (∀ msg, Panic msg ∉ ts) →
  ts !! i = Some p → p ≠ Ret tt →
  ∃ j, rtc (waits_for fwd_sem (ts, s)) i j ∧
    (can_move fwd_sem (ts, s) j ∨
     ∃ k l, ts !! j = Some (Vis SRecvSuspend k) ∧ waits_for fwd_sem (ts, s) j l ∧
       ts !! l = Some (Ret tt)).
Proof.
  intros Hlen Hr Hp Hi Hn. destruct (live_reachable _ _ _ _ _ _ _ _ Hlen Hr) as (ms & Hms).
  destruct (nobody_stuck (mon_both (tok_mon true) hand_mon) fwd_sem
              (compat_both pool_good hand_compat) duty asks unanswered) with (c := (ts, s))
    (ms := ms) (i := i) (p := p) as (j & Hj & Hm); try done.
  - apply both_compat_legal; [intros; by eapply tok_compat_legal|done].
  - apply both_compat_step; [intros; by eapply tok_compat_step|intros; by eapply hand_compat_step].
  - apply both_compat_split;
      [intros; by eapply tok_compat_split|intros; by eapply hand_compat_split].
  - intros s' ms' i' m' X e Hc Hi' Ha. by eapply duty_progress.
  - intros m' X e n' X' e' k. by eapply duty_order.
  - intros s1 ms1 i1 j1 m1 mj o s1' m1' X e n'. by eapply duty_stable.
  - intros m' X e n'. by eapply duty_final.
  - exists j. split; [done|]. destruct Hm as [Hm|(X & e & k & l & He & Hu & Hw & Hl)]; [by left|].
    right. destruct e; try done. by exists k, l.
Qed.

Lemma no_panic (ts : list (prog fwdE unit)) :
  forallb (λ p, match p with Panic _ => false | _ => true end) ts = true →
  ∀ msg, Panic msg ∉ ts.
Proof. intros Ht msg Hin%list_elem_of_In. rewrite forallb_forall in Ht. by apply Ht in Hin. Qed.

(** A client is being served when a migration suspends the service: the migration waits for
    the goroutine that closes the client's forwarder, that one for the client's goroutine, and
    it for the two copying ones, which have not noticed yet. *)
Definition held_up : list (prog fwdE unit) * fmem :=
  pool_path (fwd_machine one_visit)
    (replicate 2 0 ++ replicate 17 4 ++ replicate 25 5 ++ concat (replicate 30 [2; 4]) ++
     replicate 20 8)
    (@goroutines ReferenceK8s.pkg "" "tcp" 3 [mkTCPAddr "10.0.0.3" 8888],
     init_mem (mkTCPAddr "10.0.0.2" 8888) 100).

Lemma held_up_reached :
  rtc (pstep fwd_sem)
    (@goroutines ReferenceK8s.pkg "" "tcp" 3 [mkTCPAddr "10.0.0.3" 8888],
     init_mem (mkTCPAddr "10.0.0.2" 8888) 100) held_up.
Proof. apply pool_path_steps, fwd_machine_sem. Qed.

(** The migration cannot move; it waits, in the end, for one that can. *)
Lemma nobody_waits_forever_witness :
  (∃ k, held_up.1 !! 2 = Some (Vis (WWait 1) k)) ∧ wgs held_up.2 !! 1 = Some 1 ∧
  ∃ j, rtc (waits_for fwd_sem (held_up.1, held_up.2)) 2 j ∧
    (can_move fwd_sem (held_up.1, held_up.2) j ∨
     ∃ k l, held_up.1 !! j = Some (Vis SRecvSuspend k) ∧
       waits_for fwd_sem (held_up.1, held_up.2) j l ∧ held_up.1 !! l = Some (Ret tt)).
Proof.
  assert (Hk : ∃ k, held_up.1 !! 2 = Some (Vis (WWait 1) k)).
  { eexists. vm_compute. reflexivity. }
  split; [exact Hk|]. split; [vm_compute; reflexivity|]. destruct Hk as [k Hk].
  apply (@nobody_waits_forever ReferenceK8s.pkg "" "tcp" 3 [mkTCPAddr "10.0.0.3" 8888]
           (mkTCPAddr "10.0.0.2" 8888) 100 held_up.1 held_up.2 2 (Vis (WWait 1) k)).
  - simpl. lia.
  - exact (eq_ind_r (rtc (pstep fwd_sem) _) held_up_reached (eq_sym (surjective_pairing held_up))).
  - apply no_panic. vm_compute. reflexivity.
  - exact Hk.
  - discriminate.
Defined.
