(* ===== verification/FwdLink.v ===== *)
(** The server and the forwarding services its requests start, linked: where a request starts a
    service, the service's goroutines start, and the calls on a service run the methods of
    src/server/fwdsvc.go, all in one pool, with a memory for each service. *)
From Stdlib Require Import FunctionalExtensionality.
From S2P Require Import Prelude Go Progress Errors Types Sys LineIO Kube KubeExec LiveMigration.
From S2P Require Import Ownership ApiCore ApiServer ApiProofs Isolation.
From S2P Require Import FwdSys Fwd FwdSvc FwdWindow FwdMove FwdSpec.
Import Restore.
#[local] Open Scope go_scope.

(** * Linking *)

(** The effects of the server's other parts, and those of each service. *)
Inductive linkE : Type → Type :=
| LSys {X : Type} (e : sysE X) : linkE X
| LFwd (s : svcref) {X : Type} (e : fwdE X) : linkE X.

Definition embed {A : Type} (s : svcref) (p : prog fwdE A) : prog linkE A :=
  hoist (@LFwd s) p.

(** The method that a call on a service runs. *)
Definition fwd_call {X : Type} (e : sysE X) : option (svcref * prog fwdE X) :=
  match e in sysE Y return option (svcref * prog fwdE Y) with
  | EFwdClose s => Some (s, call SCloseClose)
  | EFwdSuspend s => Some (s, Suspend)
  | EFwdResume s => Some (s, Resume)
  | EFwdCloseAll s => Some (s, CloseAllForwarders)
  | EFwdChangeServerAddr s a => Some (s, ChangeServerAddr a)
  | EFwdChangeDataRate s n => Some (s, ChangeDataRate n)
  | _ => None
  end.

Section link.
Context `{PkgErrors} (gatewayAddr : string).

(** What a service that has been started starts. *)
Definition started {X : Type} (e : sysE X) : X → prog linkE unit :=
  match e in sysE Y return Y → prog linkE unit with
  | EFwdStart network ln _ _ _ _ => λ s, embed s (serve gatewayAddr network ln)
  | _ => λ _, Ret tt
  end.

Fixpoint link {A : Type} (p : prog sysE A) : prog linkE A :=
  match p with
  | Ret a => Ret a
  | Vis e k =>
      match fwd_call e with
      | Some (s, q) => bind (embed s q) (λ x, link (k x))
      | None => Vis (LSys e) (λ x, bind (started e x) (λ _, link (k x)))
      end
  | Iter body i k => Iter (λ i, link (body i)) i (λ b, link (k b))
  | Go c k => Go (link c) (link k)
  | Panic msg => Panic msg
  end.

Lemma link_bind {A B} (p : prog sysE A) (f : A → prog sysE B) :
  link (bind p f) = bind (link p) (λ a, link (f a)).
Proof.
  induction p as [A a|A X e k IH|A S C body IHb i k IHk|A c IHc k IHk|A msg]; simpl.
  - done.
  - destruct (fwd_call e) as [[s q]|].
    + rewrite bind_assoc. f_equal. apply functional_extensionality. auto.
    + simpl. f_equal. apply functional_extensionality. intros x. rewrite bind_assoc.
      f_equal. apply functional_extensionality. auto.
  - f_equal. apply functional_extensionality. auto.
  - f_equal. auto.
  - done.
Qed.

End link.

(** ** The memory *)

(** A service: the address it was started with, its memory, and its effects so far. *)
Record inst := Inst { started_at : TCPAddr; mem_of : fmem; log_of : list (obs fwdE) }.

Abbreviation world := (gmap svcref inst).

(** A service that is started is a new one; everything else answers as it likes. *)
Definition linked (w : world) (o : obs linkE) (w' : world) : Prop :=
  match o with
  | @Obs _ X e x =>
      match e in linkE Y return Y → Prop with
      | LFwd s e => λ x, ∃ i m',
          w !! s = Some i ∧ fwd_sem (mem_of i) (Obs e x) m' ∧
          w' = <[s := Inst (started_at i) m' (log_of i ++ [Obs e x])]> w
      | LSys e =>
          match e in sysE Y return Y → Prop with
          | EFwdStart _ _ _ a _ rate => λ s,
              w !! s = None ∧ w' = <[s := Inst a (init_mem a rate) []]> w
          | _ => λ _, w' = w
          end
      end x
  end.

(** * The rules of one service *)

(** What happens to the service [s]: an effect of its own, or its start. *)
Definition about (s : svcref) (o : obs linkE) : option (option (obs fwdE)) :=
  match o with
  | @Obs _ X e x =>
      match e in linkE Y return Y → option (option (obs fwdE)) with
      | LFwd s' e => λ x, if decide (s' = s) then Some (Some (Obs e x)) else None
      | LSys e =>
          match e in sysE Y return Y → option (option (obs fwdE)) with
          | EFwdStart _ _ _ _ _ _ => λ s', if decide (s' = s) then Some None else None
          | _ => λ _, None
          end
      end x
  end.

(** A goroutine that has nothing to do with the service, and may turn to it. *)
Abbreviation idle := (G RIdle false [] [] []).
Abbreviation opening := (G RServe false [] [] []).

(** Who starts the service has nothing to do with it before. *)
Definition window_rules (s : svcref) : monitor linkE gst := {|
  mon_step m o :=
    match about s o with
    | Some (Some o) => window_step m o
    | Some None => if decide (m = idle) then Some opening else None
    | None => Some m
    end;
  mon_legal m o := match about s o with Some (Some o) => window_legal m o | _ => True end;
  mon_split := window_split;
  mon_final _ := True;
  mon_panic _ _ := True
|}.

Definition task_rules (s : svcref) : monitor linkE task := {|
  mon_step t o := match about s o with Some (Some o) => task_step t o | _ => Some t end;
  mon_legal _ _ := True;
  mon_split := task_split;
  mon_final _ := True;
  mon_panic _ _ := True
|}.

(** ** Programs of a service *)

Section rules.
Context (s : svcref).

Lemma about_own {X} (e : fwdE X) x : about s (Obs (LFwd s e) x) = Some (Some (Obs e x)).
Proof. simpl. by rewrite decide_True. Qed.

(** The programs of [s] itself keep the rules as they did alone. *)
Lemma window_embed {A} (p : prog fwdE A) m Q :
  respects (window_mon false) p m Q → respects (window_rules s) (embed s p) m Q.
Proof.
  apply respects_hoist; try done; intros X e x m'; cbn [mon_step mon_legal window_rules];
    by rewrite about_own.
Qed.

Lemma task_embed {A} (p : prog fwdE A) t Q :
  respects task_mon p t Q → respects (task_rules s) (embed s p) t Q.
Proof.
  apply respects_hoist; try done. intros X e x t'. cbn [mon_step task_rules].
  by rewrite about_own.
Qed.

Lemma everywhere_hoist {E F : Type → Type} (f : ∀ X, E X → F X) (P : obs F → Prop) {A}
    (p : prog E A) :
  (∀ X (e : E X) x, P (Obs (f X e) x)) → everywhere P (λ _, True) (hoist f p).
Proof. intros Hf. induction p; simpl; auto. Qed.

(** Those of another one do not matter. *)
Lemma window_other {A} s' (p : prog fwdE A) m (Q : gst → A → Prop) :
  s' ≠ s → no_debt_open m → (∀ a, Q m a) → respects (window_rules s) (embed s' p) m Q.
Proof.
  intros Hs Hm HQ. apply (respects_idle _ (G RTask false [] [] []) no_debt_open
    (λ o, about s o = None) (λ _, True)); try done.
  - intros [r l ds kn pr] Hn. by apply (split_task (G r l ds kn pr) []).
  - intros m' o _ Ho. simpl. by rewrite Ho.
  - apply everywhere_hoist. intros X e x. simpl. by rewrite decide_False.
Qed.

Lemma task_other {A} s' (p : prog fwdE A) t (Q : task → A → Prop) :
  s' ≠ s → (∀ a, Q t a) → respects (task_rules s) (embed s' p) t Q.
Proof.
  intros Hs HQ. apply (respects_idle _ TNone (λ _, True) (λ o, about s o = None) (λ _, True));
    try done.
  - intros t' _. by right.
  - intros t' o _ Ho. simpl. by rewrite Ho.
  - apply everywhere_hoist. intros X e x. simpl. by rewrite decide_False.
Qed.

(** Its start. *)
Lemma window_started `{PkgErrors} gw {X A} (e : sysE X) x m (k : prog linkE A) Q :
  fwd_call e = None → (starts_service (Obs e x) = true → m = idle) → no_debt_open m →
  respects (window_rules s) k m Q →
  match mon_step (window_rules s) m (Obs (LSys e) x) with
  | Some m' => respects (window_rules s) (bind (started gw e x) (λ _, k)) m' Q
  | None => False
  end.
Proof.
  intros Hc Hs Hm Hk. cbn [mon_step window_rules].
  destruct e; simpl in Hc; try discriminate Hc; try exact Hk.
  cbn [about started starts_service] in *. rewrite (Hs eq_refl) in *.
  destruct (decide (x = s)) as [->|Hx].
  - rewrite decide_True by done. apply respects_bind, window_embed.
    eapply respects_mono; [apply window_serve|]. by intros m' [] ->.
  - by apply respects_bind, window_other.
Qed.

Lemma task_started `{PkgErrors} gw {X A} (e : sysE X) x (k : prog linkE A) Q :
  respects (task_rules s) k TNone Q →
  respects (task_rules s) (bind (started gw e x) (λ _, k)) TNone Q.
Proof.
  intros Hk. destruct e; try exact Hk. cbn [started]. apply respects_bind.
  destruct (decide (x = s)) as [->|Hx]; [|by apply task_other].
  apply task_embed. eapply respects_mono; [apply task_serve|]. by intros t [] ->.
Qed.

End rules.

(** * Requests *)

Section requests.
Context `{PkgErrors} (gw : string) (s : svcref).

(** A goroutine's share in a new one that has nothing to do with the service. *)
Lemma split_bystander m :
  no_debt_open m →
  window_split m (if decide (m = idle) then idle else G RTask false [] [] []) m.
Proof.
  intros Hm. destruct (decide (m = idle)) as [->|_].
  - repeat split; try done. constructor.
  - destruct m as [r l ds kn pr]. by apply (split_task (G r l ds kn pr) []).
Qed.

(** What moves no service but others than [s], and starts one only when it has nothing to do
    with [s], keeps the rules: the one method of [s] that it may call is [Close]. *)
Lemma window_spared {A} (P : obs sysE → bool) (p : prog sysE A) m
    (R : unit → A → Prop) (Q : gst → A → Prop) :
  (∀ o, P o = true → moved_service o ≠ Some s ∧ (starts_service o = true → m = idle)) →
  respects (guard P) p tt R → no_debt_open m → (∀ a, R tt a → Q m a) →
  respects (window_rules s) (link gw p) m Q.
Proof.
  intros HP. revert m R Q HP.
  induction p as [A a|A X e k IH|A T B body IHb i k IHk|A c IHc k IHk|A msg];
    intros m R Q HP Hp Hm HQ; [by apply HQ| | | |done].
  - assert (Hk : ∀ x, moved_service (Obs e x) ≠ Some s ∧
        (starts_service (Obs e x) = true → m = idle) ∧ respects (guard P) (k x) tt R).
    { intros x. specialize (Hp x I). simpl in Hp. destruct (P (Obs e x)) eqn:HPx; [|done].
      destruct (HP _ HPx). done. }
    cbn [link]. destruct (fwd_call e) as [[s' q]|] eqn:Hq.
    + apply respects_bind. assert (Hnext : ∀ x, respects (window_rules s) (link gw (k x)) m Q).
      { intros x. destruct (Hk x) as (_ & _ & Hr). by apply (IH x m R). }
      destruct (decide (s' = s)) as [->|Hs]; [|by apply window_other].
      apply window_embed. destruct e; simpl in Hq; simplify_eq;
        try (by destruct (Hk tt) as [[] _]). intros x _. apply Hnext.
    + intros x _. destruct (Hk x) as (_ & Hs & Hr).
      apply (window_started s gw e x m); [done..|]. by apply (IH x m R).
  - destruct Hp as (J & HJ & Hb). exists (λ i' m', J i' tt ∧ m' = m). split; [done|].
    intros i1 m1 [H1 ->]. eapply IHb; [done|by apply Hb|done|].
    intros [i2|b]; [done|]. intros Hr. by apply (IHk b m R).
  - destruct Hp as ([] & [] & _ & Hc & Hk). do 2 eexists. split; [by apply split_bystander|].
    split; [|by apply (IHk m R)]. eapply (IHc _ (λ _ _, True)); [|exact Hc| |done].
    + intros o Ho. destruct (HP o Ho) as [? Hs]. split; [done|]. intros ->%Hs.
      by rewrite decide_True.
    + by case_decide.
Qed.

(** No request serves a client. *)
Lemma link_aside {A} (p : prog sysE A) (Q : task → A → Prop) :
  (∀ a, Q TNone a) → respects (task_rules s) (link gw p) TNone Q.
Proof.
  revert Q. induction p as [A a|A X e k IH|A T B body IHb i k IHk|A c IHc k IHk|A msg];
    intros Q HQ; [by apply HQ| | | |done].
  - cbn [link]. destruct (fwd_call e) as [[s' q]|] eqn:Hq.
    + apply respects_bind. destruct (decide (s' = s)) as [->|Hs];
        [|by apply task_other; [|intros a; apply IH]].
      apply task_embed, respects_aside; [|by intros a; apply IH].
      destruct e; simpl in Hq; simplify_eq;
        unfold Suspend, Resume, CloseAllForwarders, ChangeServerAddr, ChangeDataRate; solve_aside.
    + intros x _. assert (Hstep : mon_step (task_rules s) TNone (Obs (LSys e) x) = Some TNone).
      { destruct e; try done. simpl. by case_decide. }
      rewrite Hstep. by apply task_started, IH.
  - exists (λ _ t, t = TNone). split; [done|]. intros i' t ->. apply IHb.
    intros [i2|b]; [done|]. by apply IHk.
  - exists TNone, TNone. split; [by left|]. split; [by apply IHc|by apply IHk].
Qed.

End requests.

Section window.
Context `{PkgErrors, K8sLib, JsonLib} `{K8sOk : !K8sLibOk}.
Context (gw : string) (name : string) (port : Z) (s : svcref).

Abbreviation rules := (window_rules s).

(** The services other than [s]. *)
Definition others_than (s' : svcref) : bool := negb (bool_decide (s' = s)).

Lemma others_allowed start o :
  allowed name port start others_than o = true →
  moved_service o ≠ Some s ∧ (starts_service o = true → start = true).
Proof.
  unfold allowed. intros [[_ Ho]%andb_prop Hs]%andb_prop. split.
  - intros Hm. rewrite Hm in Ho. simpl in Ho. unfold others_than in Ho.
    by rewrite bool_decide_eq_true_2 in Ho.
  - intros Hst. rewrite Hst in Hs. by destruct start.
Qed.

Lemma window_ours {A} (p : prog sysE A) m (Q : gst → A → Prop) :
  guarded (allowed name port false others_than) p → no_debt_open m → (∀ a, Q m a) →
  respects rules (link gw p) m Q.
Proof.
  intros Hp Hm HQ. eapply window_spared; [|exact Hp|done|by intros].
  intros o [? Ho]%others_allowed. split; [done|]. intros Hs%Ho. done.
Qed.

Lemma window_idle {A} (p : prog sysE A) (Q : gst → A → Prop) :
  guarded (allowed name port true others_than) p → (∀ a, Q idle a) →
  respects rules (link gw p) idle Q.
Proof.
  intros Hp HQ. eapply window_spared; [|exact Hp|done|by intros].
  intros o [? _]%others_allowed. done.
Qed.

(** A call on the service, by the lemma of its method. *)
Ltac linked_call lem :=
  apply respects_bind, window_embed; eapply respects_mono; [apply lem|]; intros ? [] ->.

Ltac link_step1 :=
  match goal with
  | |- True => exact I
  | |- idle = idle => reflexivity
  | |- ∀ _, _ → _ => intros ? ?
  | |- ∀ _, _ => intro
  | |- no_debt_open _ => intros ? ? ?; discriminate
  | |- respects _ (bind (embed _ Suspend) _) _ _ => linked_call window_Suspend
  | |- respects _ (bind (embed _ CloseAllForwarders) _) _ _ => linked_call window_CloseAll
  | |- respects _ (bind (embed _ (ChangeServerAddr _)) _) _ _ =>
      linked_call window_ChangeServerAddr
  | |- respects _ (bind (embed _ (ChangeDataRate _)) _) _ _ => linked_call window_ChangeDataRate
  | |- respects _ (bind (embed _ Resume) _) _ _ => linked_call window_Resume
  | |- respects _ (link _ (bind _ _)) _ _ => rewrite link_bind; apply respects_bind
  | |- respects _ (link _ (match ?x with _ => _ end)) _ _ => destruct x eqn:?
  | |- respects _ (link _ _) _ _ =>
      first [apply window_idle; [solve [eauto with guarded nocore]|]
            |apply window_ours; [solve [auto with guarded nocore]| |]]
  | |- ∃ mc mk, window_split (G RIdle _ _ _ _) mc mk ∧ _ =>
      exists idle, idle; split; [repeat split; try done; constructor|split]
  | |- ∃ mc mk, window_split ?m mc mk ∧ _ =>
      exists (G RTask false [] [] []), m;
      split; [apply (split_task m [] (debts m)); [reflexivity|intros ? ? ?; discriminate]|split]
  end.

Ltac linking :=
  repeat (
    unfold LogErrorE, LogError, LogWarn, LogInfo, stacked, stacked_err, ln_close,
      conn_close, chan_close, defer, defer_on, on_ptr;
    cbn [respects bind call go loop link fwd_call started about mon_step mon_legal mon_split
         mon_final mon_panic window_rules];
    try link_step1).

Lemma window_finalPhase p c rc :
  restores_here name p → Fwdsvc p = Some s →
  respects rules (link gw (finalPhase p c rc true)) (G (RIn CDone) false [] [] [])
    (λ m _, m = G (RIn CDone) false [] [] []).
Proof.
  intros (Hns & Hpod & Hc) Hs. unfold finalPhase, on_ptr. rewrite Hs, Hns, Hpod, Hc.
  by linking.
Qed.

(** A migration that has the service [s], another one, or none. *)
Lemma window_exec p :
  restores_here name p →
  respects rules (link gw (ExecFwdLM p)) idle (λ _ _, True).
Proof.
  intros Hp. destruct (decide (Fwdsvc p = Some s)) as [Hs|Hs].
  - pose proof Hp as (Hns & Hpod & Hc). unfold ExecFwdLM, exec, on_ptr.
    rewrite Hs, Hns, Hpod, Hc. linking.
    eapply respects_mono; [by apply window_finalPhase|]. intros ? r ->. linking.
  - apply window_ours; [|by intros ? ? ?|done]. apply ours_exec; [done|].
    intros _ s' Hs'. unfold others_than. rewrite bool_decide_eq_false_2; [done|congruence].
Qed.

(** A request for a migration, from the lock of its resource to the end of its goroutine. *)
Lemma window_DeployFwdLM core req :
  name = Deploy_Name (Deploy_ req) →
  port = int32 (PortIn (FwdLM_Port (Deploy_FwdLM (Deploy_ req)))) →
  respects rules (link gw (DeployFwdLM core req)) idle (λ m _, m = idle).
Proof.
  intros Hname Hport. unfold DeployFwdLM, with_res. rewrite <-Hname. linking.
  unfold deployFwdLM_migrate. rewrite <-Hname, <-Hport. linking.
  eapply respects_mono; [by apply window_exec|]. intros m [] _; by linking.
Qed.

(** The server, when its requests keep the rules. *)
Section server.
Context (core : APICore).
Hypothesis window_requests : ∀ req,
  respects rules (link gw (dispatch core req)) idle (λ m _, m = idle).

Lemma window_respond c r :
  respects rules (link gw (respond core c r)) idle (λ m _, m = idle).
Proof.
  unfold respond. linking. eapply respects_mono; [apply window_requests|]. intros m resp ->.
  linking.
Qed.

Lemma window_handleConnection c :
  respects rules (link gw (handleConnection core c)) idle (λ _ _, True).
Proof.
  unfold handleConnection. linking. by eapply respects_mono; [apply window_respond|].
Qed.

Lemma window_server addr c :
  respects rules (link gw (StartAPIServer core addr c)) idle (λ _ _, True).
Proof.
  unfold StartAPIServer. linking. exists (λ _ m, m = idle). split; [done|]. intros [] m ->.
  linking. apply window_handleConnection.
Qed.

End server.

End window.

(** ** The server *)

Section server.
Context `{PkgErrors, K8sLib, JsonLib} `{K8sOk : !K8sLibOk} (gw : string) (s : svcref).

(** A request may turn out to be a migration, and may start the service. *)
Lemma window_dispatch core req :
  respects (window_rules s) (link gw (dispatch core req)) idle (λ m _, m = idle).
Proof.
  destruct (migrates req) eqn:Hm.
  - apply bool_decide_eq_true in Hm as [Hm Ht]. unfold dispatch, doDeployReq, Deploy.
    rewrite (decide_True (P := Method req = "deploy")), Ht by done.
    rewrite !decide_False, decide_True, !link_bind by done. apply respects_bind.
    eapply respects_mono; [by eapply window_DeployFwdLM|]. done.
  - apply (window_idle gw (subject req) (inner_port req)); [|done].
    apply ours_dispatch. by rewrite Hm.
Qed.

End server.

(** * The pool *)

Abbreviation both_rules s := (mon_both (window_rules s) (task_rules s)).

(** A goroutine that has nothing to do with the service. *)
Definition apart (m : gst * task) : Prop := uninvolved m.1 ∧ m.2 = TNone.

(** The service keeps its invariant from its start on; before, nobody has to do with it. *)
Definition tended (s : svcref) (w : world) (ms : list (gst * task)) : Prop :=
  match w !! s with
  | Some i => spec_compat (started_at i) (mem_of i, log_of i) ms
  | None => Forall apart ms
  end.

Lemma apart_start a rate ms i t :
  Forall apart ms → ms !! i = Some (idle, t) →
  spec_compat a (init_mem a rate, []) (<[i := (opening, t)]> ms).
Proof.
  intros Ha Hi. rewrite Forall_lookup in Ha. destruct (Ha _ _ Hi) as [_ Ht]. simpl in Ht. subst t.
  apply (start_spec a rate i); rewrite list_fmap_insert.
  - intros j m Hj. at_insert Hj; [by left|]. right.
    apply list_lookup_fmap_Some in Hj as (x & -> & Hj). by destruct (Ha _ _ Hj).
  - simpl. apply Forall_insert; [|done]. apply Forall_fmap, Forall_lookup.
    intros j x Hj. by destruct (Ha _ _ Hj).
Qed.

Lemma apart_split g gc gk t tc tk :
  apart (g, t) → window_split g gc gk → task_split t tc tk → apart (gc, tc) ∧ apart (gk, tk).
Proof.
  intros [Hg Ht] Hs Hts. simpl in Hg, Ht. subst t.
  assert (tc = TNone ∧ tk = TNone) as [-> ->] by by destruct Hts as [[-> ->]|[-> ->]].
  destruct gc as [rc lc dc kc pc], gk as [rk lk' dk kk pk].
  destruct Hs as (Hd & Hlc & Hlk & Hkc & Hkk & Hpc & Hpk & Hst). simpl in *.
  assert (lk g = false ∧ debts g = [] ∧ known g = [] ∧ pairs g = []) as (Hl & Hd' & Hk' & Hp').
  { by destruct Hg as [->| ->]. }
  rewrite Hd', Hk', Hp' in *. symmetry in Hd. apply Permutation_nil_r, app_nil in Hd as [-> ->].
  apply list_nil_subseteq in Hkc as ->, Hkk as ->, Hpc as ->, Hpk as ->.
  rewrite Hl in *. subst lc lk'.
  assert (∀ r, r = RIdle ∨ r = RTask → apart (G r false [] [] [], TNone)) as Hok.
  { intros r [->| ->]; (split; [|done]); [by left|by right]. }
  destruct Hg as [->| ->]; inversion Hst; subst; split; apply Hok; auto.
Qed.

Lemma about_linked s w o w' :
  linked w o w' →
  match about s o with
  | Some (Some o) => ∃ i m', w !! s = Some i ∧ fwd_sem (mem_of i) o m' ∧
      w' !! s = Some (Inst (started_at i) m' (log_of i ++ [o]))
  | Some None => ∃ a rate, w !! s = None ∧ w' !! s = Some (Inst a (init_mem a rate) [])
  | None => w' !! s = w !! s
  end.
Proof.
  destruct o as [X e x]. destruct e as [X e|s' X e]; simpl.
  - destruct e; try (by intros ->). simpl. intros [Hw ->]. case_decide as Hs.
    + subst x. exists serverAddr, dataRate. split; [done|]. apply lookup_insert_eq.
    + by rewrite lookup_insert_ne.
  - intros (i & m' & Hw & Hs & ->). case_decide as Hd.
    + subst s'. exists i, m'. split; [done|]. split; [done|]. apply lookup_insert_eq.
    + by rewrite lookup_insert_ne.
Qed.

Lemma tended_legal s w ms i m o w' :
  tended s w ms → ms !! i = Some m → linked w o w' → mon_legal (both_rules s) m o.
Proof.
  intros Ht [Hi _]%both_lookup Hl%(about_linked s). split; [|done]. simpl.
  destruct (about s o) as [[o'|]|]; [|done..]. destruct Hl as (k & m' & Hk & Hsem & _).
  unfold tended in Ht. rewrite Hk in Ht. destruct Ht as [Hc _].
  eapply window_legal_ok; [done..|by apply fwd_sem_view].
Qed.

Lemma tended_step s w ms i m o w' m' :
  tended s w ms → ms !! i = Some m → linked w o w' →
  mon_step (both_rules s) m o = Some m' → tended s w' (<[i := m']> ms).
Proof.
  intros Ht Hi Hl%(about_linked s) [H1 H2]%both_step. destruct m as [g t], m' as [g' t'].
  simpl in H1, H2. unfold tended in *. destruct (about s o) as [[o'|]|].
  - destruct Hl as (k & m1 & Hk & Hsem & ->). rewrite Hk in Ht. simpl.
    eapply spec_compat_step; [exact Ht|exact Hi|by split|done..].
  - destruct Hl as (a & rate & Hk & ->). rewrite Hk in Ht. simpl.
    case_decide as Hd; [|done]. simplify_eq. by eapply apart_start.
  - rewrite Hl. simplify_eq. by rewrite list_insert_id.
Qed.

Lemma tended_split s w ms i m mc mk :
  tended s w ms → ms !! i = Some m → mon_split (both_rules s) m mc mk →
  tended s w (<[i := mk]> ms ++ [mc]).
Proof.
  destruct m as [g t], mc as [gc tc], mk as [gk tk]. unfold tended.
  intros Ht Hi [Hg Htk]. destruct (w !! s) as [k|]; [by eapply spec_compat_split|].
  rewrite Forall_lookup in Ht. pose proof (Ht _ _ Hi) as [Hm Hn].
  destruct (apart_split g gc gk t tc tk) as [Hc Hk]; [done..|].
  apply Forall_app. split; [|by constructor].
  apply Forall_insert; [by apply Forall_lookup|done].
Qed.

(** The server, listening at [addr] until [c] is closed. *)
Definition edge `{PkgErrors, K8sLib, JsonLib} (core : APICore) (addr : string) (c : chan)
  : prog linkE unit := link (GatewayAddr core) (StartAPIServer core addr c).

Lemma edge_reachable `{PkgErrors, K8sLib, JsonLib} `{K8sOk : !K8sLibOk} core addr c s ts w :
  rtc (pstep linked) ([edge core addr c], ∅) (ts, w) →
  pool_inv (both_rules s) (tended s) (ts, w).
Proof.
  intros Hr. eapply (pool_sound (both_rules s) linked (tended s)); [| | | |exact Hr].
  - intros *. apply tended_legal.
  - intros *. apply tended_step.
  - intros *. apply tended_split.
  - exists [(idle, TNone)]. split.
    + constructor; [|constructor]. eapply (respects_both _ _ _ _ _ (λ _ _, True) (λ _ _, True));
        [|by apply link_aside|done].
      apply (window_server _ "" 0). apply window_dispatch.
    + unfold tended. cbn [snd]. rewrite lookup_empty. apply Forall_singleton.
      by split; [left|].
Qed.

(** C7.  The window of a migration, in the server.  The server accepts any requests, each of
    which may start the forwarding service of an application, migrate it ([DeployFwdLM] up to
    the end of [LM_Restore.exec]) or remove it, for any number of applications; a service that
    is started gets goroutines and a memory of its own, and the calls on it run its methods.
    Under any interleaving and any answers, and for each of the services, from the moment one [Suspend] has its answer until [Resume] clears the
    flag, no client is accepted, no forwarder made and none put into the list, no other
    [Suspend] has an answer, and whoever looks finds the service suspended; and once the
    migration has changed the server address, every forwarder the service ever made has
    finished. *)
Theorem migration_window `{PkgErrors, K8sLib, JsonLib} (core : APICore) (addr : string) (c : chan)
  ts (w : world) (s : svcref) (i : inst) l1 l2 :
  K8sLibOk →
  rtc (pstep linked) ([edge core addr c], ∅) (ts, w) →
  w !! s = Some i →
  log_of i = l1 ++ Obs SRecvSuspend tt :: l2 →
  Forall (λ o, ends_window o = false) l2 →
  Forall (λ o, intrudes o = false) l2 ∧
  (Exists (λ o, moves o = true) l2 → Forall (λ x, chanClosed x = true) (heap (mem_of i))).
Proof.
  intros HK Hr Hs. destruct (edge_reachable _ _ _ s _ _ Hr) as (ms & _ & Hms).
  unfold tended in Hms. cbn [snd] in Hms. rewrite Hs in Hms. destruct Hms as [Hc _].
  by apply (window_open _ _ ms.*1).
Qed.

(** C5.  The service is atomic to its users, in the server.  The server accepts any requests,
    each of which may start the forwarding service of an application, migrate it or remove it,
    under any interleaving and any answers.  What the users of each of the services see of it from its start on (a client arrives and is admitted, the
    backend is dialled, a client's forwarder is finished, the service stops, moves to another
    backend, starts) is a history of the atomic service: clients arrive and are admitted only while it is not stopped, it moves only
    while it is stopped and without clients, every client's backend is dialled at most once,
    before the client is finished, and at the address that is the service's at that moment,
    and it stops and starts in turns.  The atomic service has the address that is in the
    memory, where it is suspended when it is stopped, and its clients are the forwarders that
    are not finished. *)
Theorem service_refines `{PkgErrors, K8sLib, JsonLib} (core : APICore) (addr : string) (c : chan)
  ts (w : world) (s : svcref) (i : inst) :
  K8sLibOk →
  rtc (pstep linked) ([edge core addr c], ∅) (ts, w) →
  w !! s = Some i →
  ∃ p, history (Service (started_at i) ∅ false) (omap visible (log_of i)) p ∧
    backend p = serverAddr (svc (mem_of i)) ∧
    (stopped p = true → isSuspended (svc (mem_of i)) = true) ∧
    (∀ f, is_Some (clients p !! f) ↔
       ∃ x, heap (mem_of i) !! f = Some x ∧ chanClosed x = false).
Proof.
  intros HK Hr Hs. destruct (edge_reachable _ _ _ s _ _ Hr) as (ms & _ & Hms).
  unfold tended in Hms. cbn [snd] in Hms. rewrite Hs in Hms. by eapply spec_shows.
Qed.

(** * Executions *)

(** One client, which sends until its connection is shut for reading. *)
Definition busy_client (s : fmem) (X : Type) (e : fwdE X) : option X :=
  match e in fwdE Y return option Y with
  | NAcceptTCP _ =>
      Some (if decide (opens s = []) then Ok 0 else Err (ENet "i/o timeout" true true))
  | NRead _ _ =>
      Some (if existsb isUpClosed (heap s) then ([], Some EOF) else ([Byte.x41], None))
  | _ => None
  end.

(** The rest of the world: every call succeeds, the other end of a migration answers that
    all is well, and a resource has the service 0 as soon as it has been started. *)
Definition willing (w : world) {X : Type} (e : sysE X) : X :=
  match e in sysE Y return Y with
  | EResGetFwdsvc _ => match w !! 0 with Some _ => Some 0 | None => None end
  | EConnRead _ cap => (if (cap =? 1)%Z then [LM_MsgRespOk] else [x01; LF], None)
  | e => quiet e
  end.

Definition edge_machine (script : fmem → ∀ X, fwdE X → option X) (w : world) (X : Type)
  (e : linkE X) : option (X * world) :=
  match e in linkE Y return option (Y * world) with
  | LSys e =>
      match e in sysE Y return option (Y * world) with
      | EFwdStart _ _ _ a _ rate =>
          match w !! 0 with
          | None => Some (0, <[0 := Inst a (init_mem a rate) []]> w)
          | Some _ => None
          end
      | e => Some (willing w e, w)
      end
  | LFwd s e =>
      match w !! s with
      | Some i =>
          '(x, m) ← fwd_machine script (mem_of i) _ e;
          Some (x, <[s := Inst (started_at i) m (log_of i ++ [Obs e x])]> w)
      | None => None
      end
  end.

Lemma edge_machine_linked script w X (e : linkE X) x w' :
  edge_machine script w X e = Some (x, w') → linked w (Obs e x) w'.
Proof.
  destruct e as [X e|s X e]; simpl.
  - destruct e; simpl; try (by intros [= _ <-]).
    destruct (w !! 0) eqn:Hw; [done|]. by intros [= <- <-].
  - destruct (w !! s) as [i|] eqn:Hw; [|done].
    destruct (fwd_machine script (mem_of i) X e) as [[y m]|] eqn:Hm; [|done].
    intros [= <- <-]. exists i, m. split; [done|]. split; [by eapply fwd_machine_sem|done].
Qed.

(** Every line is read as the request to migrate [app]. *)
Definition migrating : JsonLib := {|
  MarshalRequest := @MarshalRequest ReferenceJson.lib;
  UnmarshalRequest _ := Ok migrate_app;
  MarshalResponse := @MarshalResponse ReferenceJson.lib;
  UnmarshalResponse := @UnmarshalResponse ReferenceJson.lib
|}.

Definition ref_edge : prog linkE unit :=
  @edge ReferenceK8s.pkg ReferenceK8s.lib migrating Isolation.ref_core ":9999" 77.

Definition run_edge (schedule : list nat) : list (prog linkE unit) * world :=
  pool_path (edge_machine busy_client) schedule ([ref_edge], ∅).

Lemma run_edge_reached schedule : rtc (pstep linked) ([ref_edge], ∅) (run_edge schedule).
Proof. apply pool_path_steps, edge_machine_linked. Qed.

(** A request starts the service of an application and migrates it; a client is served when
    others migrate it too. *)
Definition first_turns (n : nat) : list nat :=
  replicate 9 0 ++ replicate 60 2 ++ replicate 17 4 ++ replicate 25 6 ++ replicate 300 5 ++
  replicate 6 0 ++ replicate 60 11 ++ replicate 300 12 ++ replicate 20 4 ++
  concat (replicate n (seq 4 20)).

(** The service, after these turns. *)
Definition first_service (n : nat) : inst :=
  default (Inst (mkTCPAddr "" 0) (init_mem (mkTCPAddr "" 0) 0) [])
    ((run_edge (first_turns n)).2 !! 0).

Lemma first_service_reached n :
  rtc (pstep linked) ([ref_edge], ∅) ((run_edge (first_turns n)).1, (run_edge (first_turns n)).2).
Proof. rewrite <-surjective_pairing. apply run_edge_reached. Qed.

Lemma migration_window_witness :
  Forall (λ o, intrudes o = false) (drop 60 (log_of (first_service 54))) ∧
  Forall (λ x, chanClosed x = true) (heap (mem_of (first_service 54))) ∧
  length (heap (mem_of (first_service 54))) = 1.
Proof.
  destruct (@migration_window ReferenceK8s.pkg ReferenceK8s.lib migrating Isolation.ref_core
              ":9999" 77 _ _ 0 (first_service 54) (take 59 (log_of (first_service 54)))
              (drop 60 (log_of (first_service 54))) ReferenceK8s.lib_ok
              (first_service_reached 54)) as [Ha Hc].
  - vm_compute. reflexivity.
  - vm_compute. reflexivity.
  - apply (bool_decide_unpack _). vm_compute. exact I.
  - split; [exact Ha|]. split; [|vm_compute; reflexivity].
    apply Hc. apply (bool_decide_unpack _). vm_compute. exact I.
Defined.

(** Where the migration has moved the service to. *)
Definition restored : TCPAddr := mkTCPAddr "10.0.0.1:8888" 0.

Lemma service_refines_witness :
  ∃ p, omap visible (log_of (first_service 130)) =
    [Arrive; Admission 0; Dial (mkTCPAddr "10.0.0.2:8888" 0)] ++ replicate 4 Arrive ++
    [Stop; Finish 0; Move restored; Start; Arrive; Admission 1; Dial restored] ++
    replicate 9 Arrive ∧
    history (Service (started_at (first_service 130)) ∅ false)
      (omap visible (log_of (first_service 130))) p ∧
    backend p = restored ∧ is_Some (clients p !! 1).
Proof.
  destruct (@service_refines ReferenceK8s.pkg ReferenceK8s.lib migrating Isolation.ref_core
              ":9999" 77 _ _ 0 (first_service 130) ReferenceK8s.lib_ok
              (first_service_reached 130)) as (p & Hh & Hb & _ & Hc).
  - vm_compute. reflexivity.
  - exists p. split; [vm_compute; reflexivity|]. split; [exact Hh|].
    split; [rewrite Hb; vm_compute; reflexivity|].
    apply Hc. eexists. split; vm_compute; reflexivity.
Defined.
