(* ===== verification/Logger.v ===== *)
(** The logger: src/server/logger.go.  What a call writes is a value here; package fmt turns
    it into bytes. *)
From S2P Require Import Prelude Go Errors Types Sys.
#[local] Open Scope go_scope.

Definition VerbosityInfo : Z := 0.
Definition VerbosityDebug : Z := 1.
Definition VerbosityTrace : Z := 2.

Record SLog := mkSLog { Verbosity : Z }.

Definition Logger : SLog := mkSLog VerbosityInfo.

Definition SetVerbosity (p : SLog) (verbosity : Z) : SLog := mkSLog verbosity.

(** The arguments of a format: values of [interface{}]. *)
Inductive arg := AStr (s : string) | AInt (z : Z) | ABytes (b : list byte) | AErr (e : error).

Inductive stream := Stdout | Stderr.

(** A call of [fmt.Fprintln], or of [fmt.Fprintf]. *)
Inductive output :=
| Println (to : stream) (s : string)
| Printf (to : stream) (format : string) (a : list arg).

Definition out_stream (o : output) : stream :=
  match o with Println to _ | Printf to _ _ => to end.

(** The text an output starts with whatever its arguments are. *)
Definition out_text (o : output) : string :=
  match o with Println _ s => s | Printf _ s _ => s end.

(** * Positions *)

(** [s] without its trailing slashes, and what follows its last slash. *)
Fixpoint strip_slashes (rev_s : list ascii) : list ascii :=
  match rev_s with
  | "/"%char :: s => strip_slashes s
  | s => s
  end.

Fixpoint upto_slash (rev_s : list ascii) : list ascii :=
  match rev_s with
  | [] => []
  | c :: s => if decide (c = "/"%char) then [] else c :: upto_slash s
  end.

(** [filepath.Base]. *)
Definition Base (path : string) : string :=
  if decide (path = "") then "."
  else match strip_slashes (rev (String.list_ascii_of_string path)) with
       | [] => "/"
       | s => String.string_of_list_ascii (rev (upto_slash s))
       end.

Definition ESC : string := String (ascii_of_nat 27) EmptyString.
Definition red : string := ESC +:+ "[31m".
Definition yellow : string := ESC +:+ "[33m".
Definition cyan : string := ESC +:+ "[36m".
Definition blue : string := ESC +:+ "[34m".
Definition plain : string := ESC +:+ "[0m".

(** The position [runtime.Caller(1)] answers, if any. *)
Definition position (colour : string) (caller : option (string * Z)) : string :=
  match caller with
  | Some (file, line) => Base file +:+ ":" +:+ itoa line +:+ colour +:+ "::" +:+ plain +:+ " "
  | None => ""
  end.

(** * The methods *)

Section methods.
Context (p : SLog) (caller : option (string * Z)).

Definition error_head : string := red +:+ "[ERROR]" +:+ plain +:+ " " +:+ position red caller.
Definition warn_head : string :=
  yellow +:+ "[WARN]" +:+ plain +:+ " " +:+ position yellow caller.
Definition info_head : string := cyan +:+ "[INFO]" +:+ plain +:+ " ".
Definition debug_head : string := blue +:+ "[DEBUG]" +:+ plain +:+ " ".
Definition trace_head : string := blue +:+ "[TRACE]" +:+ plain +:+ " ".

Definition LogError (s : string) : list output := [Println Stderr (error_head +:+ s)].
Definition ErrorF (format : string) (a : list arg) : list output :=
  [Printf Stderr (error_head +:+ format) a].
Definition ErrorE (e : error) : list output :=
  [Printf Stderr (error_head +:+ "%+v" +:+ newline) [AErr e]].
Definition Warn (s : string) : list output := [Println Stdout (warn_head +:+ s)].
Definition WarnF (format : string) (a : list arg) : list output :=
  [Printf Stdout (warn_head +:+ format) a].
Definition Info (s : string) : list output := [Println Stdout (info_head +:+ s)].
Definition InfoF (format : string) (a : list arg) : list output :=
  [Printf Stdout (info_head +:+ format) a].
Definition Debug (s : string) : list output :=
  if (Verbosity p >=? VerbosityDebug)%Z then [Println Stdout (debug_head +:+ s)] else [].
Definition DebugF (format : string) (a : list arg) : list output :=
  if (Verbosity p >=? VerbosityDebug)%Z then [Printf Stdout (debug_head +:+ format) a] else [].
Definition Trace (s : string) : list output :=
  if (Verbosity p >=? VerbosityTrace)%Z then [Println Stdout (trace_head +:+ s)] else [].
Definition TraceF (format : string) (a : list arg) : list output :=
  if (Verbosity p >=? VerbosityTrace)%Z then [Printf Stdout (trace_head +:+ format) a] else [].

End methods.

(** * The methods as one *)

(** A call of a method. *)
Inductive log_call :=
| CError (s : string) | CErrorF (f : string) (a : list arg) | CErrorE (e : error)
| CWarn (s : string) | CWarnF (f : string) (a : list arg)
| CInfo (s : string) | CInfoF (f : string) (a : list arg)
| CDebug (s : string) | CDebugF (f : string) (a : list arg)
| CTrace (s : string) | CTraceF (f : string) (a : list arg).

Definition log (p : SLog) (caller : option (string * Z)) (c : log_call) : list output :=
  match c with
  | CError s => LogError caller s
  | CErrorF f a => ErrorF caller f a
  | CErrorE e => ErrorE caller e
  | CWarn s => Warn caller s
  | CWarnF f a => WarnF caller f a
  | CInfo s => Info s
  | CInfoF f a => InfoF f a
  | CDebug s => Debug p s
  | CDebugF f a => DebugF p f a
  | CTrace s => Trace p s
  | CTraceF f a => TraceF p f a
  end.

(** The least verbosity at which a call is heard, the tag of its line and its colour. *)
Definition needs (c : log_call) : option Z :=
  match c with
  | CDebug _ | CDebugF _ _ => Some VerbosityDebug
  | CTrace _ | CTraceF _ _ => Some VerbosityTrace
  | _ => None
  end.
Definition tag (c : log_call) : string :=
  match c with
  | CError _ | CErrorF _ _ | CErrorE _ => red +:+ "[ERROR]"
  | CWarn _ | CWarnF _ _ => yellow +:+ "[WARN]"
  | CInfo _ | CInfoF _ _ => cyan +:+ "[INFO]"
  | CDebug _ | CDebugF _ _ => blue +:+ "[DEBUG]"
  | CTrace _ | CTraceF _ _ => blue +:+ "[TRACE]"
  end.
Definition is_error (c : log_call) : bool :=
  match c with CError _ | CErrorF _ _ | CErrorE _ => true | _ => false end.

Definition heard (p : SLog) (c : log_call) : bool :=
  from_option (λ v, (v <=? Verbosity p)%Z) true (needs c).

(** * Lemmas *)

(** Everything a logger with less verbosity writes, one with more writes too. *)
Lemma log_mono p p' caller c :
  (Verbosity p ≤ Verbosity p')%Z → log p caller c = [] ∨ log p' caller c = log p caller c.
Proof.
  intros Hp. destruct c; simpl; auto; unfold Debug, DebugF, Trace, TraceF;
    rewrite !Z.geb_leb; repeat case_match; auto; lia.
Qed.

(** * What a call writes *)

(** What the logger writes.  A call writes once or not at all: not at all exactly when it
    is a [Debug] or [Trace] call and the verbosity is too low.  The text starts with the
    coloured tag of its level and goes to the standard error stream for errors, to the
    standard output otherwise. *)
Theorem log_spec (p : SLog) (caller : option (string * Z)) (c : log_call) :
  if heard p c then
    ∃ o, log p caller c = [o] ∧ String.prefix (tag c) (out_text o) = true ∧
         out_stream o = (if is_error c then Stderr else Stdout)
  else log p caller c = [].
Proof.
  assert (Hhead : ∀ s1 s2 s3 s : string, String.prefix (s1 +:+ s2) ((s1 +:+ s2 +:+ s3) +:+ s) = true).
  { intros. rewrite !str_app_assoc, <-(str_app_assoc s1 s2). apply prefix_append. }
  unfold heard, needs, log, Debug, DebugF, Trace, TraceF. destruct c; cbn [from_option];
    rewrite ?Z.geb_leb; try (case_match; [|done]); eexists;
    (split; [reflexivity|split; [apply Hhead|reflexivity]]).
Qed.
