(* ===== verification/Proc.v ===== *)
(** The effects of the server's process around the server itself: its standard streams, its
    signals, the host's network interfaces, and the verbosity of its logger. *)
From S2P Require Import Prelude Go Errors Types Sys.
#[local] Open Scope go_scope.

(** [net.Interface], as far as the server looks at it; the index tells interfaces apart. *)
Record Interface := mkInterface { Index : Z; IfName : string }.

#[export] Instance Interface_eq_dec : EqDecision Interface.
Proof. solve_decision. Defined.

(** [net.IP]: nil, or a slice of bytes. *)
Definition ip : Type := option (list byte).

(** [net.Addr]: the two types the server knows, without the mask or the zone. *)
Inductive Addr :=
| IPNet (a : ip)
| IPAddr (a : ip)
| OtherAddr.

Inductive procE : Type → Type :=
(** an effect of the server *)
| PSys {X : Type} (e : sysE X) : procE X
(** [fmt.Print] and its variants, to the standard output and the standard error stream *)
| PStdout (text : string) : procE unit
| PStderr (text : string) : procE unit
(** [scan.Scan(); scan.Text()] on the standard input: nothing at its end *)
| PScan : procE (option string)
(** [Logger.SetVerbosity] *)
| PSetVerbosity (verbosity : Z) : procE unit
(** package net *)
| PInterfaces : procE (result (list Interface) error)
| PAddrs (i : Interface) : procE (result (list Addr) error)
(** package os/signal *)
| PSigMake : procE chan
| PSigNotify (c : chan) : procE unit
| PSigRecv (c : chan) : procE unit
| PSigReset : procE unit
(** [sync.WaitGroup] *)
| PWgMake : procE nat
| PWgAdd (w : nat) (n : nat) : procE unit
| PWgDone (w : nat) : procE unit
| PWgWait (w : nat) : procE unit.

(** A part of the server in the process. *)
Definition sys {A : Type} (p : prog sysE A) : prog procE A := hoist (@PSys) p.

Definition stdout (text : string) : prog procE unit := call (PStdout text).
Definition stderr (text : string) : prog procE unit := call (PStderr text).

(** What a trace wrote to the standard output, call by call. *)
Definition written (o : obs procE) : option string :=
  match o with @Obs _ X e x => match e with PStdout s => Some s | _ => None end end.
