(* ===== verification/IfAddr.v ===== *)
(** The addresses of the host's network interfaces: src/server/ifaceaddr.go, with the methods
    of [net.IP] that it uses. *)
From S2P Require Import Prelude Go Errors Types Sys LineIO Proc.
#[local] Open Scope go_scope.

(** * net.IP *)

Definition zb : byte := x00.
Definition fb : byte := xff.

Definition is_v4 (p : list byte) : bool := length p =? 4.

(** The 12 bytes before an IPv4 address in its 16-byte form. *)
Definition v4InV6Prefix : list byte := replicate 10 zb ++ [fb; fb].

Definition To4 (p : list byte) : option (list byte) :=
  if length p =? 4 then Some p
  else if (length p =? 16) && bool_decide (take 12 p = v4InV6Prefix) then Some (drop 12 p)
  else None.

Definition IPv6loopback : list byte := replicate 15 zb ++ [x01].

Definition IsLoopback (p : list byte) : bool :=
  match To4 p with
  | Some ip4 => bool_decide (head ip4 = Some x7f)
  | None => bool_decide (p = IPv6loopback)
  end.

Definition byte_Z (b : byte) : Z := Z.of_N (Byte.to_N b).

Definition hex_digit (n : Z) : string :=
  String (ascii_of_nat (Z.to_nat (if (n <? 10)%Z then 48 + n else 87 + n)%Z)) EmptyString.

(** The bytes in hexadecimal, two digits each. *)
Definition hexString (p : list byte) : string :=
  foldr (λ b s, hex_digit (byte_Z b / 16) +:+ hex_digit (byte_Z b mod 16) +:+ s) "" p.

(** A 16-bit group without leading zeros. *)
Definition hex16 (n : Z) : string :=
  (if (4096 <=? n)%Z then hex_digit (n / 4096) else "") +:+
  (if (256 <=? n)%Z then hex_digit (n / 256 mod 16) else "") +:+
  (if (16 <=? n)%Z then hex_digit (n / 16 mod 16) else "") +:+
  hex_digit (n mod 16).

Fixpoint groups (p : list byte) : list Z :=
  match p with
  | a :: b :: p => (byte_Z a * 256 + byte_Z b)%Z :: groups p
  | _ => []
  end.

Fixpoint zeros (l : list Z) : nat :=
  match l with
  | z :: l => if (z =? 0)%Z then S (zeros l) else 0
  | [] => 0
  end.

(** The first longest run of zero groups of [l], which starts at group [i]: where it starts
    and its length.  [best] is the longest so far.  The code skips the groups of a run it has
    taken; starting again inside of it finds nothing longer. *)
Fixpoint longest (i : nat) (l : list Z) (best : nat * nat) : nat * nat :=
  match l with
  | [] => best
  | _ :: l' => longest (S i) l' (if best.2 <? zeros l then (i, zeros l) else best)
  end.

Fixpoint joined (l : list Z) : string :=
  match l with
  | [] => ""
  | [z] => hex16 z
  | z :: l => hex16 z +:+ ":" +:+ joined l
  end.

Definition v6String (p : list byte) : string :=
  let l := groups p in
  let '(e0, n) := longest 0 l (0, 0) in
  if n <=? 1 then joined l
  else joined (take e0 l) +:+ "::" +:+ joined (drop (e0 + n) l).

Definition dotted (p : list byte) : string :=
  match p with
  | [a; b; c; d] =>
      itoa (byte_Z a) +:+ "." +:+ itoa (byte_Z b) +:+ "." +:+ itoa (byte_Z c) +:+ "." +:+
      itoa (byte_Z d)
  | _ => ""
  end.

Definition IPString (p : list byte) : string :=
  if length p =? 0 then "<nil>"
  else match To4 p with
       | Some p4 => dotted p4
       | None => if length p =? 16 then v6String p else "?" +:+ hexString p
       end.

(** * The functions *)

(** The type switch on an address. *)
Definition addr_ip (a : Addr) : ip :=
  match a with IPNet v | IPAddr v => v | OtherAddr => None end.

(** The text of an address that [GetInterfaceAddr] takes. *)
Definition usable (a : Addr) : option string :=
  match addr_ip a with
  | Some p =>
      match To4 p with
      | Some p4 => if negb (IsLoopback p) then Some (IPString p4) else None
      | None => None
      end
  | None => None
  end.

(** The loop over the addresses of one interface. *)
Fixpoint first_usable (addrs : list Addr) : option string :=
  match addrs with
  | [] => None
  | addr :: addrs =>
      match usable addr with Some s => Some s | None => first_usable addrs end
  end.

(** [fmt.Sprintf] of a text that is used as a format without arguments: package fmt's
    business where the text has a per cent sign. *)
Class FmtLib := { Sprintf : string → string }.

Section ifaceaddr.
Context `{PkgErrors, FmtLib}.

Definition no_addr (networkInterface : string) : error :=
  NewStackError (Sprintf ("No IPv4 addr for iface: " +:+ networkInterface)).

(** The loop over the interfaces. *)
Fixpoint find_iface (networkInterface : string) (ifaces : list Interface)
  : prog procE (result string error) :=
  match ifaces with
  | [] => Ret (Err (no_addr networkInterface))
  | iface :: ifaces =>
      if decide (IfName iface = networkInterface) then
        r <- call (PAddrs iface);;
        match r with
        | Err err => Ret (Err (WithStack err))
        | Ok addrs =>
            match first_usable addrs with
            | Some s => Ret (Ok s)
            | None => find_iface networkInterface ifaces
            end
        end
      else find_iface networkInterface ifaces
  end.

Definition GetInterfaceAddr (networkInterface : string) : prog procE (result string error) :=
  r <- call PInterfaces;;
  match r with
  | Err err => Ret (Err (WithStack err))
  | Ok ifaces => find_iface networkInterface ifaces
  end.

Definition tab : string := String (ascii_of_nat 9) EmptyString.

(** The line printed for an address. *)
Definition addr_line (prefix name : string) (p : list byte) : string :=
  prefix +:+ name +:+ tab +:+ "= " +:+ IPString p +:+ newline.

Fixpoint print_addrs (prefix : string) (iface : Interface) (addrs : list Addr)
  : prog procE unit :=
  match addrs with
  | [] => Ret tt
  | addr :: addrs =>
      match addr_ip addr with
      | Some p => if negb (IsLoopback p) then stdout (addr_line prefix (IfName iface) p)
                  else Ret tt
      | None => Ret tt
      end;;
      print_addrs prefix iface addrs
  end.

Fixpoint print_ifaces (prefix : string) (ifaces : list Interface)
  : prog procE (option error) :=
  match ifaces with
  | [] => Ret None
  | iface :: ifaces =>
      r <- call (PAddrs iface);;
      match r with
      | Err err => Ret (Some (WithStack err))
      | Ok addrs => print_addrs prefix iface addrs;; print_ifaces prefix ifaces
      end
  end.

Definition PrintInterfaceAddrs (prefix : string) : prog procE (option error) :=
  r <- call PInterfaces;;
  match r with
  | Err err => Ret (Some (WithStack err))
  | Ok ifaces => print_ifaces prefix ifaces
  end.

End ifaceaddr.

(** * What the host answers *)

(** The host's interfaces and their addresses, which do not change. *)
Definition host (ifaces : result (list Interface) error)
  (addrs : Interface → result (list Addr) error) (o : obs procE) : Prop :=
  match o with
  | @Obs _ X e x =>
      match e in procE Y return Y → Prop with
      | PInterfaces => λ r, r = ifaces
      | PAddrs i => λ r, r = addrs i
      | _ => λ _, True
      end x
  end.

(** The interface is not the one, or has no address that can be taken. *)
Definition passed_over (addrs : Interface → result (list Addr) error) (name : string)
  (i : Interface) : Prop :=
  IfName i = name → ∃ l, addrs i = Ok l ∧ first_usable l = None.

(** The lines for the addresses of an interface, in order. *)
Definition addr_lines (prefix : string) (iface : Interface) (l : list Addr) : list string :=
  omap (λ a, p ← addr_ip a;
             if IsLoopback p then None else Some (addr_line prefix (IfName iface) p)) l.

(** * Lemmas *)

Lemma length_To4 p p4 : To4 p = Some p4 → length p4 = 4.
Proof.
  unfold To4. destruct (length p =? 4) eqn:H4; [intros [= <-]; by apply Nat.eqb_eq|].
  destruct (length p =? 16) eqn:H16; [|done]. simpl. case_bool_decide; [|done].
  intros [= <-]. rewrite length_drop. apply Nat.eqb_eq in H16. lia.
Qed.

Lemma usable_spec a s :
  usable a = Some s ↔
  ∃ p b1 b2 b3 b4, addr_ip a = Some p ∧ To4 p = Some [b1; b2; b3; b4] ∧ b1 ≠ x7f ∧
    s = dotted [b1; b2; b3; b4].
Proof.
  unfold usable, IsLoopback. split.
  - destruct (addr_ip a) as [p|]; [|done]. destruct (To4 p) as [p4|] eqn:H4; [|done].
    pose proof (length_To4 _ _ H4) as Hl.
    destruct p4 as [|b1 [|b2 [|b3 [|b4 [|]]]]]; try discriminate Hl. simpl.
    case_bool_decide as Hb; [done|]. simpl. intros [= <-].
    exists p, b1, b2, b3, b4. repeat split; congruence.
  - intros (p & b1 & b2 & b3 & b4 & -> & -> & Hb & ->). simpl.
    by rewrite bool_decide_eq_false_2 by congruence.
Qed.

Lemma first_usable_Some l s :
  first_usable l = Some s →
  ∃ l1 a l2, l = l1 ++ a :: l2 ∧ Forall (λ a, usable a = None) l1 ∧ usable a = Some s.
Proof.
  induction l as [|a l IH]; simpl; [done|]. destruct (usable a) as [s'|] eqn:Ha.
  - intros [= ->]. by exists [], a, l.
  - intros (l1 & a' & l2 & -> & H1 & H2)%IH. exists (a :: l1), a', l2. auto.
Qed.

Section lemmas.
Context `{PkgErrors, FmtLib}.
Context (ifaces : result (list Interface) error) (addrs : Interface → result (list Addr) error).
Abbreviation watch := (collector written (host ifaces addrs)).

(** What [find_iface] answers, and that it writes nothing. *)
Definition found (name : string) (l : list Interface) (r : result string error) : Prop :=
  (∃ l1 i l2 la, l = l1 ++ i :: l2 ∧ Forall (passed_over addrs name) l1 ∧ IfName i = name ∧
     match r with
     | Ok s => addrs i = Ok la ∧ first_usable la = Some s
     | Err e => ∃ err, addrs i = Err err ∧ e = WithStack err
     end) ∨
  Forall (passed_over addrs name) l ∧ r = Err (no_addr name).

Lemma found_next name i l r : passed_over addrs name i → found name l r → found name (i :: l) r.
Proof.
  intros Hi [(l1 & j & l2 & la & -> & H1 & Hj)|[Hl Hr]]; [left|right; auto].
  exists (i :: l1), j, l2, la. auto.
Qed.

Lemma find_iface_found name l w :
  respects watch (find_iface name l) w (λ w' r, w' = w ∧ found name l r).
Proof.
  revert w. induction l as [|i l IH]; intros w; simpl; [split; [done|right; auto]|].
  case_decide as Hn.
  - intros r Hr. simpl in Hr |- *. subst r. destruct (addrs i) as [la|err] eqn:Hi.
    + destruct (first_usable la) as [s|] eqn:Hf; simpl.
      * split; [done|]. left. exists [], i, l, la. repeat split; auto.
      * eapply respects_mono; [apply IH|]. intros w' r [-> Hr]. split; [done|].
        apply found_next; [|done]. intros _. eauto.
    + simpl. split; [done|]. left. exists [], i, l, []. repeat split; eauto.
  - eapply respects_mono; [apply IH|]. intros w' r [-> Hr]. split; [done|].
    apply found_next; [by intros ?|done].
Qed.

Lemma print_addrs_lines prefix i l w :
  respects watch (print_addrs prefix i l) w (λ w' _, w' = w ++ addr_lines prefix i l).
Proof.
  revert w. induction l as [|a l IH]; intros w; simpl; [by rewrite app_nil_r|].
  unfold addr_lines. simpl. destruct (addr_ip a) as [p|]; simpl; [|apply IH].
  destruct (IsLoopback p); simpl; [apply IH|]. intros _ _.
  eapply respects_mono; [apply IH|]. intros w' _ ->. by rewrite <-app_assoc.
Qed.

Lemma print_ifaces_lines prefix l w :
  respects watch (print_ifaces prefix l) w (λ w' r,
    r = None →
    Forall (λ i, is_ok (addrs i) = true) l ∧
    w' = w ++ concat ((λ i, match addrs i with
                            | Ok la => addr_lines prefix i la
                            | Err _ => []
                            end) <$> l)).
Proof.
  revert w. induction l as [|i l IH]; intros w; simpl; [by rewrite app_nil_r|].
  intros r Hr. simpl in Hr |- *. subst r. destruct (addrs i) as [la|err] eqn:Hi; [|done].
  apply respects_bind. eapply respects_mono; [apply print_addrs_lines|].
  intros w' _ ->. eapply respects_mono; [apply IH|]. intros w' r Hr Hn.
  destruct (Hr Hn) as [Hl ->]. rewrite <-app_assoc.
  split; [by constructor; [rewrite Hi|]|done].
Qed.

End lemmas.

(** * Properties *)

(** C37.  The address [GetInterfaceAddr] returns is the dotted decimal text of an IPv4 address
    of an interface of that name, not a loopback one, and the first such address of the first
    such interface; nothing is printed.  Otherwise it returns the error of the call that
    failed, or, when every interface of that name has none, its own. *)
Theorem GetInterfaceAddr_spec `{PkgErrors, FmtLib} (name : string)
    (ifaces : list Interface) (addrs : Interface → result (list Addr) error)
    (tr : list (obs procE)) (r : result string error) :
  Forall (host (Ok ifaces) addrs) tr → runs (GetInterfaceAddr name) tr (Ret r) →
  omap written tr = [] ∧
  match r with
  | Ok s => ∃ l1 i l2 la1 a la2 p b1 b2 b3 b4,
      ifaces = l1 ++ i :: l2 ∧ Forall (passed_over addrs name) l1 ∧ IfName i = name ∧
      addrs i = Ok (la1 ++ a :: la2) ∧ Forall (λ a, usable a = None) la1 ∧
      addr_ip a = Some p ∧ To4 p = Some [b1; b2; b3; b4] ∧ b1 ≠ x7f ∧
      s = itoa (byte_Z b1) +:+ "." +:+ itoa (byte_Z b2) +:+ "." +:+ itoa (byte_Z b3) +:+ "."
            +:+ itoa (byte_Z b4)
  | Err e =>
      Forall (passed_over addrs name) ifaces ∧ e = no_addr name ∨
      ∃ i err, i ∈ ifaces ∧ IfName i = name ∧ addrs i = Err err ∧ e = WithStack err
  end.
Proof.
  intros Hh Hr.
  destruct (collector_complete written (host (Ok ifaces) addrs) (GetInterfaceAddr name) tr r
    (λ w r, w = [] ∧ found addrs name ifaces r)) as [Hw Hf]; [|done|done|].
  { intros x Hx. simpl in Hx |- *. subst x. apply find_iface_found. }
  split; [done|]. destruct Hf as [(l1 & i & l2 & la & -> & Hl1 & Hi & Hm)|[Hl ->]]; [|auto].
  destruct r as [s|e].
  - destruct Hm as (Hla & (la1 & a & la2 & -> & Hla1 & Ha)%first_usable_Some).
    apply usable_spec in Ha as (p & b1 & b2 & b3 & b4 & Hp & H4 & Hb & ->).
    exists l1, i, l2, la1, a, la2, p, b1, b2, b3, b4. auto 12.
  - destruct Hm as (err & Herr & ->). right. exists i, err.
    split; [|done]. apply elem_of_app. right. left.
Qed.

Definition docker0 : Interface := mkInterface 3 "docker0".

(** A host with a loopback interface and a bridge. *)
Definition ref_ifaces : list Interface := [mkInterface 1 "lo"; docker0].
Definition ref_addrs (i : Interface) : result (list Addr) error :=
  Ok (if decide (i = docker0)
      then [IPNet (Some IPv6loopback); IPNet (Some [xac; x11; x00; x01])]
      else [IPNet (Some [x7f; x00; x00; x01])]).

Definition ref_host (c : unit) (X : Type) (e : procE X) : option (X * unit) :=
  match e in procE Y return option (Y * unit) with
  | PInterfaces => Some (Ok ref_ifaces, c)
  | PAddrs i => Some (ref_addrs i, c)
  | PStdout _ => Some (tt, c)
  | _ => None
  end.

#[local] Instance ref_fmt : FmtLib := {| Sprintf s := s |}.

Lemma GetInterfaceAddr_spec_witness :
  ∃ tr, runs (@GetInterfaceAddr {| WithStack e := e; NewStackError := EText |} ref_fmt "docker0")
          tr (Ret (Ok "172.17.0.1")) ∧
    omap written tr = [].
Proof.
  set (pkg := {| WithStack e := e; NewStackError := EText |}).
  set (tr := [Obs PInterfaces (Ok ref_ifaces); Obs (PAddrs docker0) (ref_addrs docker0)]).
  assert (Hr : runs (@GetInterfaceAddr pkg ref_fmt "docker0") tr (Ret (Ok "172.17.0.1"))).
  { apply (interp_runs_to ref_host 5 tt). vm_compute. reflexivity. }
  exists tr. split; [exact Hr|].
  apply (@GetInterfaceAddr_spec pkg ref_fmt "docker0" ref_ifaces ref_addrs tr
           (Ok "172.17.0.1")); [|exact Hr].
  repeat constructor.
Defined.

(** C38.  The address the server takes for itself is among those it shows at its start: when
    both functions succeed on the same host, one of the printed lines is that of the returned
    address. *)
Theorem GetInterfaceAddr_listed `{PkgErrors, FmtLib} (name prefix s : string)
    (ifaces : list Interface) (addrs : Interface → result (list Addr) error)
    (tr tr' : list (obs procE)) :
  Forall (host (Ok ifaces) addrs) tr → Forall (host (Ok ifaces) addrs) tr' →
  runs (GetInterfaceAddr name) tr (Ret (Ok s)) →
  runs (PrintInterfaceAddrs prefix) tr' (Ret None) →
  (prefix +:+ name +:+ tab +:+ "= " +:+ s +:+ newline) ∈ omap written tr'.
Proof.
  intros Hh Hh' Hr Hr'.
  destruct (collector_complete written (host (Ok ifaces) addrs) (GetInterfaceAddr name) tr (Ok s)
    (λ w r, w = [] ∧ found addrs name ifaces r)) as [_ Hf]; [|done|done|].
  { intros x Hx. simpl in Hx |- *. subst x. apply find_iface_found. }
  destruct Hf as [(l1 & i & l2 & la & -> & _ & <- & Hla & Hs)|[_ Hn]]; [|done].
  apply first_usable_Some in Hs as (la1 & a & la2 & -> & _ & Ha).
  apply usable_spec in Ha as (p & b1 & b2 & b3 & b4 & Hp & H4 & Hb & ->).
  assert (Hw : omap written tr' = concat ((λ i, match addrs i with
      | Ok la => addr_lines prefix i la | Err _ => [] end) <$> (l1 ++ i :: l2))).
  { refine (collector_complete written (host (Ok (l1 ++ i :: l2)) addrs)
      (PrintInterfaceAddrs prefix) tr' None (λ w r, r = None → w = _) _ Hr' Hh' eq_refl).
    intros x Hx. simpl in Hx |- *. subst x.
    eapply respects_mono; [apply print_ifaces_lines|]. intros w r Hw Hn. by apply Hw. }
  rewrite Hw, fmap_app, concat_app. apply elem_of_app. right. simpl. apply elem_of_app. left.
  rewrite Hla. unfold addr_lines. rewrite omap_app. apply elem_of_app. right. simpl.
  rewrite Hp. simpl. unfold IsLoopback. rewrite H4. simpl.
  rewrite bool_decide_eq_false_2 by congruence. unfold addr_line, IPString.
  destruct p as [|b p]; [done|]. simpl length. rewrite H4. left.
Qed.

Lemma GetInterfaceAddr_listed_witness :
  ∃ tr' : list (obs procE), ("- " +:+ "docker0" +:+ tab +:+ "= " +:+ "172.17.0.1" +:+ newline) ∈ omap written tr'.
Proof.
  set (pkg := {| WithStack e := e; NewStackError := EText |}).
  exists (interp ref_host 9 tt (@PrintInterfaceAddrs pkg "- ")).1.1.
  apply (@GetInterfaceAddr_listed pkg ref_fmt "docker0" "- " "172.17.0.1" ref_ifaces ref_addrs
    (interp ref_host 9 tt (@GetInterfaceAddr pkg ref_fmt "docker0")).1.1).
  - vm_compute. repeat constructor.
  - vm_compute. repeat constructor.
  - apply (interp_runs_to ref_host 9 tt). vm_compute. reflexivity.
  - apply (interp_runs_to ref_host 9 tt). vm_compute. reflexivity.
Defined.
