(* ===== verification/Main.v ===== *)
(** The server's process: src/server/main.go.  Its arguments, its start, its command line and
    its end. *)
From S2P Require Import Prelude Go Errors Types Sys LineIO HostConf Kube LiveMigration.
From S2P Require Import ApiCore ApiServer Logger Proc IfAddr.
#[local] Open Scope go_scope.

Definition DefaultGatewayIf : string := "docker0".

(** * Package strings *)

(** The bytes of the white space character [s] starts with: 0 if it is none.  Beyond ASCII
    these are the UTF-8 encodings of the Unicode ones; none of them can start inside of
    another character. *)
Definition space_len (s : list ascii) : nat :=
  match nat_of_ascii <$> take 3 s with
  | 9 :: _ | 10 :: _ | 11 :: _ | 12 :: _ | 13 :: _ | 32 :: _ => 1
  | 194 :: 133 :: _ | 194 :: 160 :: _ => 2
  | [225; 154; 128] | [226; 129; 159] | [227; 128; 128] => 3
  | [226; 128; n] =>
      if bool_decide (128 ≤ n ≤ 138) || bool_decide (n ∈ [168; 169; 175]) then 3 else 0
  | _ => 0
  end.

(** The fields of [s], whose current one is [field] (reversed); [skip] bytes of a white space
    character are left. *)
Fixpoint fields_from (s : list ascii) (skip : nat) (field : list ascii) : list string :=
  let done := match field with
              | [] => []
              | _ => [String.string_of_list_ascii (rev field)]
              end in
  match s with
  | [] => done
  | c :: s' =>
      match skip with
      | S skip => fields_from s' skip field
      | 0 =>
          match space_len s with
          | 0 => fields_from s' 0 (c :: field)
          | S n => done ++ fields_from s' n []
          end
      end
  end.

(** [strings.Fields]. *)
Definition Fields (s : string) : list string :=
  fields_from (String.list_ascii_of_string s) 0 [].

(** [strings.SplitN(s, "=", 2)]: around the first "=", if there is one. *)
Fixpoint SplitN (s : string) : list string :=
  match s with
  | EmptyString => [""]
  | String "=" s => [""; s]
  | String c s =>
      match SplitN s with
      | a :: l => String c a :: l
      | [] => []
      end
  end.

(** * The functions *)

(** The loop of [argsToMap]; the warnings go to the standard error stream. *)
Fixpoint argsToMap_from (args : list string) (m : gmap string string)
  : prog procE (gmap string string) :=
  match args with
  | [] => Ret m
  | v :: args =>
      match SplitN v with
      | [k] => argsToMap_from args (<[k := ""]> m)
      | [k; x] => argsToMap_from args (<[k := x]> m)
      | _ => stderr ("Warning: ignored arg: " +:+ v);; argsToMap_from args m
      end
  end.

Definition argsToMap (args : list string) : prog procE (gmap string string) :=
  argsToMap_from args ∅.

(** The loop over [os.Args[1:]]. *)
Fixpoint readArgs (args : list string) (interactive : bool) : prog procE bool :=
  match args with
  | [] => Ret interactive
  | arg :: args =>
      if decide (arg = "-v") then call (PSetVerbosity VerbosityDebug);; readArgs args interactive
      else if decide (arg = "-vv") then
        call (PSetVerbosity VerbosityTrace);; readArgs args interactive
      else if decide (arg = "-i") then readArgs args true
      else sys (LogWarn ("Warning: ignored arg: " +:+ arg));; readArgs args interactive
  end.

Definition waitForSignal : prog procE unit :=
  wg <- call PWgMake;;
  sigs <- call PSigMake;;
  call (PSigNotify sigs);;
  call (PWgAdd wg 1);;
  go (call (PSigRecv sigs);; call (PWgDone wg));;
  call (PWgWait wg).

Definition doUnsupportedCmd (args : list string) : prog procE unit :=
  match args with
  | cmd :: _ => stdout ("Unsupported command: " +:+ cmd +:+ newline)
  | [] => Panic "index out of range"
  end.

Section main.
Context `{PkgErrors, YamlLib, FmtLib, K8sLib, JsonLib}.

(** [core] is [TheAPICore]. *)
Definition doTunnelCmd (core : APICore) (args : list string) : prog procE unit :=
  match args with
  | _ :: localAddr :: remoteAddr :: _ =>
      r <- sys (NewSSHClient (HostConf_ core));;
      match r with
      | Err err => stderr (Error err +:+ newline)
      | Ok sshClient =>
          chanClose <- sys (call EChanMake);;
          _ <- sys (OpenTunnel sshClient localAddr remoteAddr chanClose);;
          sigs <- call PSigMake;;
          call (PSigNotify sigs);;
          stdout ("Open SSH tunnel; Ctrl-C to abort" +:+ newline);;
          call (PSigRecv sigs);;
          call PSigReset;;
          sys (chan_close chanClose)
      end
  | cmd :: _ => stderr ("Usage: " +:+ cmd +:+ " <local-addr> <remote-addr>" +:+ newline)
  | [] => Panic "index out of range"
  end.

Definition startCommandLine (core : APICore) : prog procE unit :=
  loop tt (λ _,
    stdout "> ";;
    s <- call PScan;;
    let line := default "" s in
    match Fields line with
    | [] => Ret (inl tt)
    | cmd :: rest =>
        if decide (cmd = "/q") then Ret (inr tt)
        else if decide (cmd = "quit") then Ret (inr tt)
        else if decide (cmd = "tunnel") then doTunnelCmd core (cmd :: rest);; Ret (inl tt)
        else doUnsupportedCmd (cmd :: rest);; Ret (inl tt)
    end).

(** [if err != nil { panic(err) }] *)
Definition orPanic {A : Type} (p : prog procE (result A error)) : prog procE A :=
  r <- p;; match r with Ok a => Ret a | Err err => Panic (Error err) end.

(** From the start of the server to its end. *)
Definition serveUntil (core : APICore) (interactive : bool) : prog procE unit :=
  stdout ("Interface IP addresses:" +:+ newline);;
  err <- PrintInterfaceAddrs "- ";;
  match err with
  | Some err => Panic (Error err)
  | None =>
      let apiServerAddr := ":" +:+ itoa APIServerPort in
      chanClose <- sys (call EChanMake);;
      go (sys (StartAPIServer core apiServerAddr chanClose));;
      stdout ("API server is starting at: " +:+ apiServerAddr +:+ newline);;
      (if interactive : bool then startCommandLine core else waitForSignal);;
      sys (chan_close chanClose);;
      sys (call (ESleep 100));;
      stdout ("Bye" +:+ newline)
  end.

(** [main] after its arguments. *)
Definition start (interactive : bool) : prog procE unit :=
  hostConf <- orPanic (sys LoadHostConf);;
  hostAddr <- orPanic (GetInterfaceAddr (HostNetworkInterface hostConf));;
  stdout ("Host network address: " +:+ hostAddr +:+ " (" +:+ HostNetworkInterface hostConf +:+
          ")" +:+ newline);;
  let gatewayIf := DefaultGatewayIf in
  r <- GetInterfaceAddr gatewayIf;;
  let gatewayAddr := match r with Ok addr => addr | Err _ => "" end in
  (if decide (gatewayAddr ≠ "") then
     stdout ("Gateway address: " +:+ gatewayAddr +:+ " (" +:+ gatewayIf +:+ ")" +:+ newline)
   else Ret tt);;
  serveUntil (NewAPICore hostConf hostAddr gatewayAddr) interactive.

Definition main (args : list string) : prog procE unit :=
  interactive <- readArgs args false;;
  start interactive.

End main.

(** * Lemmas *)

(** What the standard input gave, scan by scan. *)
Definition scanned (o : obs procE) : option (option string) :=
  match o with
  | @Obs _ X e x =>
      match e in procE Y return Y → option (option string) with
      | PScan => λ s, Some s
      | _ => λ _, None
      end x
  end.

(** The line ends the command line. *)
Definition quits (s : option string) : Prop :=
  head (Fields (default "" s)) = Some "/q" ∨ head (Fields (default "" s)) = Some "quit".

#[export] Instance quits_dec s : Decision (quits s).
Proof. unfold quits. apply _. Defined.

(** The verbosity set by a call, and by an argument. *)
Definition verbosity_set (o : obs procE) : option Z :=
  match o with @Obs _ X e x => match e with PSetVerbosity v => Some v | _ => None end end.

Definition verbosity_of (arg : string) : option Z :=
  if decide (arg = "-v") then Some VerbosityDebug
  else if decide (arg = "-vv") then Some VerbosityTrace
  else None.

(** Neither a scan nor a setting of the verbosity. *)
Definition plain_effect (o : obs procE) : Prop := scanned o = None ∧ verbosity_set o = None.

Lemma uses_sys {A} (p : prog sysE A) : uses plain_effect (sys p).
Proof.
  induction p as [A a|A X e k IH|A S B body IHb s k IHk|A c IHc k IHk|A msg]; simpl; auto.
  intros x. split; [done|apply IH].
Qed.

Ltac plain_step :=
  match goal with
  | |- True => exact I
  | |- ∀ _, _ => intro
  | |- plain_effect _ => split; reflexivity
  | |- _ ∧ _ => split
  | |- uses _ (sys _) => apply uses_sys
  | |- uses _ (bind _ _) => apply uses_bind
  | |- uses _ (match ?x with _ => _ end) => destruct x
  end.

(** Proves [uses plain_effect p]. *)
Ltac solve_plain :=
  repeat (cbn [uses bind call go loop]; first [plain_step | progress unfold stdout, stderr]).

Section facts.
Context `{PkgErrors, YamlLib, FmtLib, K8sLib, JsonLib}.

Lemma plain_doTunnelCmd core args : uses plain_effect (doTunnelCmd core args).
Proof. unfold doTunnelCmd. solve_plain. Qed.

Lemma plain_doUnsupportedCmd args : uses plain_effect (doUnsupportedCmd args).
Proof. unfold doUnsupportedCmd. solve_plain. Qed.

Lemma plain_waitForSignal : uses plain_effect waitForSignal.
Proof. unfold waitForSignal. solve_plain. Qed.

Lemma plain_GetInterfaceAddr name : uses plain_effect (GetInterfaceAddr name).
Proof.
  unfold GetInterfaceAddr. solve_plain.
  match goal with |- uses _ (find_iface _ ?l) => induction l as [|i l IH] end; simpl; [done|].
  solve_plain; exact IH.
Qed.

Lemma plain_PrintInterfaceAddrs prefix : uses plain_effect (PrintInterfaceAddrs prefix).
Proof.
  unfold PrintInterfaceAddrs. solve_plain.
  match goal with |- uses _ (print_ifaces _ ?l) => induction l as [|i l IH] end; simpl; [done|].
  solve_plain; [|exact IH].
  match goal with |- uses _ (print_addrs _ _ ?l) => induction l as [|x l IHl] end;
    simpl; [done|]. apply uses_bind; [|intros _; exact IHl]. solve_plain.
Qed.

Lemma uses_quiet {A} (p : prog procE A) :
  uses plain_effect p → uses (λ o, verbosity_set o = None) p.
Proof. intros Hp. eapply uses_mono; [exact Hp|]. by intros o []. Qed.

(** The command line sets no verbosity. *)
Lemma uses_startCommandLine core :
  uses (λ o, verbosity_set o = None) (startCommandLine core).
Proof.
  unfold startCommandLine. cbn [uses bind call loop stdout].
  split; [|done]. intros ? ?. split; [done|]. intros s. split; [done|].
  destruct (Fields (default "" s)) as [|cmd rest]; [done|].
  repeat case_decide; try done; apply uses_bind; try done; apply uses_quiet;
    first [apply plain_doTunnelCmd|apply plain_doUnsupportedCmd].
Qed.

Lemma startCommandLine_scans core :
  respects (collector scanned anything) (startCommandLine core) []
    (λ l _, ∃ l1 s, l = l1 ++ [s] ∧ quits s ∧ Forall (λ s, ¬ quits s) l1).
Proof.
  apply (respects_loop _ (λ _ l, Forall (λ s, ¬ quits s) l)); [constructor|].
  intros [] l Hl.
  cbn [respects bind call stdout mon_step mon_legal collector scanned]. intros _ _ s _.
  assert (Hon : ¬ quits s → Forall (λ s, ¬ quits s) (l ++ [s])).
  { intros Hs. by apply Forall_snoc. }
  unfold quits in Hon at 1. destruct (Fields (default "" s)) as [|cmd rest] eqn:Hf; cbn [respects].
  { apply Hon. by intros [?|?]. }
  case_decide as Hq; [|case_decide as Hu]; cbn [respects].
  - exists l, s. split; [done|]. split; [left; rewrite Hf; by subst|done].
  - exists l, s. split; [done|]. split; [right; rewrite Hf; by subst|done].
  - assert (Forall (λ s, ¬ quits s) (l ++ [s])) by (apply Hon; intros [[= ?]|[= ?]]; congruence).
    case_decide; (apply respects_bind; eapply respects_mono;
      [apply (uses_silent scanned anything plain_effect);
         [first [apply plain_doTunnelCmd|apply plain_doUnsupportedCmd]|by intros o []]
      |by intros ? ? ->]).
Qed.

(** The arguments decide the verbosity and whether there is a command line. *)
Lemma readArgs_spec args i l :
  respects (collector verbosity_set anything) (readArgs args i) l (λ l' i',
    l' = l ++ omap verbosity_of args ∧ i' = i || bool_decide ("-i" ∈ args)).
Proof.
  revert i l. induction args as [|arg args IH]; intros i l.
  { simpl. rewrite app_nil_r, orb_false_r. done. }
  assert (Hin : bool_decide ("-i" ∈ arg :: args) = bool_decide (arg = "-i") ||
                                                   bool_decide ("-i" ∈ args)).
  { rewrite <-bool_decide_or. apply bool_decide_ext. rewrite elem_of_cons. split;
      (intros [?|?]; [left|right]; congruence || done). }
  cbn [readArgs]. change (omap verbosity_of (arg :: args))
    with (match verbosity_of arg with
          | Some v => v :: omap verbosity_of args | None => omap verbosity_of args end).
  rewrite Hin. clear Hin. unfold verbosity_of at 1.
  destruct (decide (arg = "-v")); [|destruct (decide (arg = "-vv"));
    [|destruct (decide (arg = "-i"))]].
  all: try (intros [] _; cbn [respects mon_step collector verbosity_set bind]).
  all: eapply respects_mono; [apply IH|]; intros l' i' [-> ->].
  - rewrite <-app_assoc. rewrite (bool_decide_eq_false_2 (arg = "-i")) by congruence. done.
  - rewrite <-app_assoc. rewrite (bool_decide_eq_false_2 (arg = "-i")) by congruence. done.
  - rewrite (bool_decide_eq_true_2 (arg = "-i")) by done. by rewrite orb_true_r.
  - by rewrite (bool_decide_eq_false_2 (arg = "-i")) by done.
Qed.

Lemma plain_orPanic {A} (p : prog procE (result A error)) :
  uses plain_effect p → uses plain_effect (orPanic p).
Proof. intros Hp. apply uses_bind; [done|]. by intros []. Qed.

(** After its arguments, [main] leaves the verbosity alone. *)
Lemma quiet_main i : uses (λ o, verbosity_set o = None) (start i).
Proof.
  unfold start.
  apply uses_bind; [apply uses_quiet, plain_orPanic, uses_sys|intros hc].
  apply uses_bind; [apply uses_quiet, plain_orPanic, plain_GetInterfaceAddr|intros addr].
  intros ?. split; [done|]. cbn [bind].
  apply uses_bind; [apply uses_quiet, plain_GetInterfaceAddr|intros r].
  apply uses_bind; [by case_decide; [intros ?|]|intros ?].
  unfold serveUntil. intros ?. split; [done|]. cbn [bind].
  apply uses_bind; [apply uses_quiet, plain_PrintInterfaceAddrs|intros [err|]]; [done|].
  intros c. split; [done|]. intros ?. split; [done|]. cbn [bind].
  apply uses_bind; [destruct i; [apply uses_startCommandLine|]|intros _].
  { apply uses_quiet, plain_waitForSignal. }
  apply uses_bind; [apply uses_quiet, uses_sys|]. intros ? ?. split; [done|]. cbn [bind].
  intros ?. by split.
Qed.

Lemma runs_orPanic {A} (p : prog procE (result A error)) tr a :
  runs (orPanic p) tr (Ret a) → runs p tr (Ret (Ok a)).
Proof.
  intros Hr. apply runs_bind_inv in Hr as ([b|err] & tr1 & tr2 & -> & Hp & Hr).
  - apply runs_ret_inv in Hr as [-> ->]. by rewrite app_nil_r.
  - by apply runs_panic_inv in Hr.
Qed.

Lemma runs_serveUntil core interactive tr :
  runs (serveUntil core interactive) tr (Ret tt) →
  ∃ c tr0 tr1,
    runs (if interactive : bool then startCommandLine core else waitForSignal) tr1 (Ret tt) ∧
    tr = tr0 ++
      Obs (PSys EChanMake) c ::
      Obs (PStdout ("API server is starting at: " +:+ ":9999" +:+ newline)) tt :: tr1 ++
      [Obs (PSys (EChanClose c)) true; Obs (PSys (ESleep 100)) tt;
       Obs (PStdout ("Bye" +:+ newline)) tt].
Proof.
  intros Hr. unfold serveUntil in Hr. apply runs_vis_inv in Hr as ([] & tr1 & -> & Hr).
  cbn [bind] in Hr. apply runs_bind_inv in Hr as ([err|] & tr2 & tr3 & -> & _ & Hr).
  { by apply runs_panic_inv in Hr. }
  apply runs_vis_inv in Hr as (c & tr4 & -> & Hr). cbn [bind hoist call sys] in Hr.
  apply runs_go_inv in Hr.
  apply runs_vis_inv in Hr as ([] & tr5 & -> & Hr). cbn [bind] in Hr.
  apply runs_bind_inv in Hr as ([] & tr6 & tr7 & -> & Hcmd & Hr).
  apply runs_vis_inv in Hr as ([] & tr8 & -> & Hr); [|by apply runs_panic_inv in Hr].
  apply runs_vis_inv in Hr as ([] & tr9 & -> & Hr).
  apply runs_vis_inv in Hr as ([] & tr10 & -> & Hr).
  apply runs_ret_inv in Hr as [-> _].
  exists c, (Obs (PStdout ("Interface IP addresses:" +:+ newline)) tt :: tr2), tr6.
  split; [exact Hcmd|]. done.
Qed.

End facts.

(** The standard input at its end, and a terminal to write to. *)
Definition at_end (c : unit) (X : Type) (e : procE X) : option (X * unit) :=
  match e in procE Y return option (Y * unit) with
  | PScan => Some (None, c)
  | PStdout _ => Some (tt, c)
  | _ => None
  end.

(** One turn of the command line at the end of the standard input. *)
Lemma eof_round `{PkgErrors} core n :
  (interp at_end (S (S (S n))) tt (startCommandLine core)).1.1 =
  Obs (PStdout "> ") tt :: Obs PScan None :: (interp at_end n tt (startCommandLine core)).1.1.
Proof.
  assert (Hi : interp at_end (S (S (S n))) tt (startCommandLine core) =
    let '(tr, c, q) :=
      let '(tr, c, q) := interp at_end n tt (startCommandLine core) in
      (Obs PScan None :: tr, c, q) in
    (Obs (PStdout "> ") tt :: tr, c, q)) by reflexivity.
  rewrite Hi. by destruct (interp at_end n tt (startCommandLine core)) as [[tr c] q].
Qed.

(** ** Arguments *)

(** An argument with a key, and perhaps a value. *)
Definition arg_text (kv : string * option string) : string :=
  match kv.2 with Some v => kv.1 +:+ "=" +:+ v | None => kv.1 end.

(** The key has no equals sign. *)
Definition plain_key (k : string) : Prop := "="%char ∉ String.list_ascii_of_string k.

Lemma SplitN_char (c : ascii) s :
  c ≠ "="%char →
  SplitN (String c s) = match SplitN s with a :: l => String c a :: l | [] => [] end.
Proof. intros Hc. by destruct c as [[] [] [] [] [] [] [] []]. Qed.

Lemma SplitN_key k v : plain_key k → SplitN (k +:+ "=" +:+ v) = [k; v] ∧ SplitN k = [k].
Proof.
  induction k as [|c k IH]; intros Hk; [done|].
  apply not_elem_of_cons in Hk as [Hc Hk]. destruct (IH Hk) as [H1 H2].
  change ((String c k) +:+ "=" +:+ v) with (String c (k +:+ "=" +:+ v)).
  by rewrite !SplitN_char, H1, H2 by congruence.
Qed.

Lemma SplitN_length s : length (SplitN s) = 1 ∨ length (SplitN s) = 2.
Proof.
  induction s as [|c s IH]; [by left|]. destruct (decide (c = "="%char)) as [->|Hc]; [by right|].
  rewrite SplitN_char by done. by destruct (SplitN s).
Qed.

(** * Properties *)


(** C39.  Reading arguments back.  [argsToMap] of [key=value] texts and of bare keys is the map
    of these bindings, a bare key bound to the empty text, where later bindings win; values
    may contain equals signs.  Nothing is printed, whatever the arguments: the branch for
    other numbers of parts is never taken. *)
Theorem argsToMap_roundtrip (l : list (string * option string)) (args : list string) :
  Forall (λ kv, plain_key kv.1) l →
  argsToMap (arg_text <$> l) =
    Ret (list_to_map (reverse ((λ kv, (kv.1, default "" kv.2)) <$> l))) ∧
  ∃ m, argsToMap args = Ret m.
Proof.
  unfold argsToMap. intros Hl. split.
  - assert (H : ∀ m : gmap string string, argsToMap_from (arg_text <$> l) m =
      Ret (list_to_map (reverse ((λ kv, (kv.1, default "" kv.2)) <$> l)) ∪ m)).
    { induction Hl as [|[k v] l Hk Hl IH]; intros m.
      { exact (f_equal Ret (eq_sym (left_id_L ∅ (∪) m))). }
      rewrite !fmap_cons, reverse_cons, list_to_map_app, <-(assoc_L (∪)).
      change (list_to_map [_]) with ({[k := default "" v]} : gmap string string).
      rewrite <-(insert_union_singleton_l m).
      destruct v as [v|]; cbn [arg_text snd fst default argsToMap_from];
        rewrite ?(proj1 (SplitN_key k _ Hk)), ?(proj2 (SplitN_key k "" Hk)); apply IH. }
    by rewrite H, (right_id_L ∅ (∪)).
  - generalize (∅ : gmap string string). induction args as [|v args IH]; intros m; simpl; [eauto|].
    destruct (SplitN_length v) as [Hv|Hv];
      destruct (SplitN v) as [|k [|x [|]]]; try discriminate Hv; apply IH.
Qed.

Lemma argsToMap_roundtrip_witness :
  argsToMap ["a=1"; "flag"; "a=x=y"] = Ret {["a" := "x=y"; "flag" := ""]}.
Proof.
  destruct (argsToMap_roundtrip [("a", Some "1"); ("flag", None); ("a", Some "x=y")] [])
    as [H _].
  - apply (bool_decide_unpack _). vm_compute. exact I.
  - etrans; [exact H|]. apply (f_equal Ret). apply (bool_decide_unpack _). vm_compute. exact I.
Defined.

(** C40.  A tunnel asked for on the command line.  A call with two addresses that returns
    either could not make an SSH client, and then it wrote the error and did nothing else, or
    it made one channel, tried to open the tunnel, and, whether that succeeded or failed,
    announced the tunnel, waited for a signal, gave the signals back and closed the channel,
    in this order and once. *)
Theorem doTunnelCmd_spec `{PkgErrors} (core : APICore)
    (cmd localAddr remoteAddr : string) (rest : list string) (tr : list (obs procE)) :
  runs (doTunnelCmd core (cmd :: localAddr :: remoteAddr :: rest)) tr (Ret tt) →
  ∃ tr0,
    (∃ err, tr = tr0 ++ [Obs (PStderr (Error err +:+ newline)) tt] ∧
       runs (sys (NewSSHClient (HostConf_ core))) tr0 (Ret (Err err))) ∨
    (∃ client c sigs tr1 r,
       runs (sys (NewSSHClient (HostConf_ core))) tr0 (Ret (Ok client)) ∧
       runs (sys (OpenTunnel client localAddr remoteAddr c)) tr1 (Ret r) ∧
       tr = tr0 ++ Obs (PSys EChanMake) c :: tr1 ++
         [Obs PSigMake sigs; Obs (PSigNotify sigs) tt;
          Obs (PStdout ("Open SSH tunnel; Ctrl-C to abort" +:+ newline)) tt;
          Obs (PSigRecv sigs) tt; Obs PSigReset tt; Obs (PSys (EChanClose c)) true]).
Proof.
  intros Hr. unfold doTunnelCmd in Hr.
  apply runs_bind_inv in Hr as (r & tr0 & tr1 & -> & Hssh & Hr). exists tr0.
  destruct r as [client|err].
  - right. apply runs_vis_inv in Hr as (c & tr2 & -> & Hr). cbn [bind] in Hr.
    apply runs_bind_inv in Hr as (r & tr3 & tr4 & -> & Htun & Hr).
    apply runs_vis_inv in Hr as (sigs & tr5 & -> & Hr).
    apply runs_vis_inv in Hr as ([] & tr6 & -> & Hr).
    apply runs_vis_inv in Hr as ([] & tr7 & -> & Hr).
    apply runs_vis_inv in Hr as ([] & tr8 & -> & Hr).
    apply runs_vis_inv in Hr as ([] & tr9 & -> & Hr).
    apply runs_vis_inv in Hr as ([] & tr10 & -> & Hr).
    + apply runs_ret_inv in Hr as [-> _]. by exists client, c, sigs, tr3, r.
    + by apply runs_panic_inv in Hr.
  - left. exists err. apply runs_vis_inv in Hr as ([] & tr2 & -> & Hr).
    by apply runs_ret_inv in Hr as [-> _].
Qed.


(** A host on which every call succeeds, with a terminal where the user quits at once. *)
Definition terminal (c : unit) (X : Type) (e : procE X) : option (X * unit) :=
  match e in procE Y return option (Y * unit) with
  | PSys e => Some (quiet e, c)
  | PStdout _ | PStderr _ | PSetVerbosity _ | PSigNotify _ | PSigReset | PSigRecv _
  | PWgAdd _ _ | PWgDone _ | PWgWait _ => Some (tt, c)
  | PScan => Some (Some " quit now", c)
  | PInterfaces => Some (Ok ref_ifaces, c)
  | PAddrs i => Some (ref_addrs i, c)
  | PSigMake | PWgMake => Some (0, c)
  end.

Definition ref_yaml : YamlLib :=
  {| UnmarshalHostConf _ := Ok (mkHostConf "docker0" "127.0.0.1:22" "root" "id") |}.
Definition ref_format : FmtLib := {| Sprintf s := s |}.

Definition ref_main : prog procE unit :=
  @main ReferenceK8s.pkg ref_yaml ref_format ReferenceK8s.lib ReferenceJson.lib
    ["-i"; "-x"; "-v"].


Definition ref_tunnel : prog procE unit :=
  @doTunnelCmd ReferenceK8s.pkg
    (NewAPICore (mkHostConf "docker0" "127.0.0.1:22" "root" "id") "172.17.0.1" "")
    ["tunnel"; ":8080"; "10.0.0.2:80"].

Lemma doTunnelCmd_spec_witness :
  ∃ tr tr0 c sigs tr1, runs ref_tunnel tr (Ret tt) ∧
    tr = tr0 ++ Obs (PSys EChanMake) c :: tr1 ++
      [Obs PSigMake sigs; Obs (PSigNotify sigs) tt;
       Obs (PStdout ("Open SSH tunnel; Ctrl-C to abort" +:+ newline)) tt;
       Obs (PSigRecv sigs) tt; Obs PSigReset tt; Obs (PSys (EChanClose c)) true].
Proof.
  assert (Hr : runs ref_tunnel (interp terminal 60 tt ref_tunnel).1.1 (Ret tt)).
  { apply (interp_runs_to terminal 60 tt). vm_compute. reflexivity. }
  destruct (@doTunnelCmd_spec ReferenceK8s.pkg
    (NewAPICore (mkHostConf "docker0" "127.0.0.1:22" "root" "id") "172.17.0.1" "")
    "tunnel" ":8080" "10.0.0.2:80" [] _ Hr) as (tr0 & [(err & Heq & _)|Hok]).
  - exfalso. assert (Hl : list.last (interp terminal 60 tt ref_tunnel).1.1 =
                          Some (Obs (PSys (EChanClose 0)) true)) by (vm_compute; reflexivity).
    rewrite Heq, last_snoc in Hl. discriminate Hl.
  - destruct Hok as (client & c & sigs & tr1 & r & _ & _ & Heq).
    exists (interp terminal 60 tt ref_tunnel).1.1, tr0, c, sigs, tr1. split; [exact Hr|exact Heq].
Defined.
