(* ===== verification/Process.v ===== *)
(** The whole process: [main], its command line with its tunnels, the server, and every
    goroutine they start, in one pool. *)
From S2P Require Import Prelude Go Errors Types Sys LineIO HostConf Kube LiveMigration.
From S2P Require Import Ownership DumpProofs ApiCore ApiServer ApiProofs Logger Proc IfAddr Main.
#[local] Open Scope go_scope.

(** * The pool *)

(** The server's effects in the process. *)
Definition sys_part (o : obs procE) : option (obs sysE) :=
  match o with
  | @Obs _ X e x =>
      match e in procE Y return Y → option (obs sysE) with
      | PSys e => λ x, Some (Obs e x)
      | _ => λ _, None
      end x
  end.

(** The texts of the errors with which the host can refuse to let the process start. *)
Definition start_errors (errs : string → Prop) (o : obs procE) : Prop :=
  let refusal {A : Type} (r : result A error) :=
    match r with Err err => errs (Error err) | Ok _ => True end in
  match o with
  | @Obs _ X e x =>
      match e in procE Y return Y → Prop with
      | @PSys Z e =>
          match e in sysE W return W → Prop with
          | EReadFile _ => refusal
          | EListen _ _ => refusal
          | _ => λ _, True
          end
      | PInterfaces => refusal
      | PAddrs _ => refusal
      | _ => λ _, True
      end x
  end.

(** The memory is the server's; the process's own effects answer as they like. *)
Definition proc_sem (errs : string → Prop) : shared_mem → obs procE → shared_mem → Prop :=
  lift_sem sys_part (start_errors errs) own_sem.

(** * Who closes what *)

Section process.
Context `{PkgErrors, PkgOk : !PkgErrorsOk, YamlLib, FmtLib, K8sLib, JsonLib}.
Context `{K8sOk : !K8sLibOk} (errs : string → Prop).
Hypothesis yaml_errors : ∀ b err, UnmarshalHostConf b = Err err → errs (Error err).
Hypothesis no_addr_errors : ∀ name, errs (Sprintf ("No IPv4 addr for iface: " +:+ name)).

(** The panics: of the server, and of a process that cannot start. *)
Definition fatal (msg : string) : Prop := msg = nil_dereference ∨ errs msg.

Abbreviation server := (owner conns_leak fatal).
Abbreviation mon := (lift_mon sys_part (start_errors errs) server).

#[local] Arguments sys : simpl never.

Lemma sys_owns {A} (p : prog sysE A) m (Q : ostate → A → Prop) :
  respects server p m Q → respects mon (sys p) m Q.
Proof. by apply lift_hoist. Qed.

Lemma sys_calm {A} (p : prog sysE A) m (Q : ostate → A → Prop) :
  calm p → slot_locked m → (∀ a, Q m a) → respects mon (sys p) m Q.
Proof. intros Hp Hm HQ. by apply sys_owns, own_calm. Qed.

(** An effect of the process's own. *)
Lemma own_effect {A X} (e : procE X) (k : X → prog procE A) m Q :
  (∀ x, sys_part (Obs e x) = None) →
  (∀ x, start_errors errs (Obs e x) → respects mon (k x) m Q) →
  respects mon (Vis e k) m Q.
Proof. intros He Hk x [Hp _]. cbn [mon_step lift_mon]. rewrite He. by apply Hk. Qed.

Lemma own_chan_make {A} (k : chan → prog procE A) hs sl Q :
  (∀ c, respects mon (k c) (HChan c :: hs, sl) Q) →
  respects mon (bind (sys (call EChanMake)) k) (hs, sl) Q.
Proof. intros Hk c _. apply Hk. Qed.

(** ** Starting *)

Definition may_refuse {A : Type} (m0 m : ostate) (r : result A error) : Prop :=
  m = m0 ∧ ∀ err, r = Err err → errs (Error err).

Lemma orPanic_owns {A} (p : prog procE (result A error)) m (Q : ostate → A → Prop) :
  respects mon p m (may_refuse m) → (∀ a, Q m a) → respects mon (orPanic p) m Q.
Proof.
  intros Hp HQ. apply respects_bind. eapply respects_mono; [exact Hp|].
  intros m' [a|err] [-> Herr]; [apply HQ|]. right. by apply Herr.
Qed.

Lemma LoadHostConf_owns m :
  respects mon (sys LoadHostConf) m (may_refuse m).
Proof.
  unfold sys. destruct m as [hs sl]. intros x [Hx _]. simpl in Hx |- *.
  destruct x as [b|err]; simpl.
  - destruct (UnmarshalHostConf b) as [hc|err] eqn:Hy; simpl; split; try done.
    intros e [= <-]. rewrite WithStack_text. by eapply yaml_errors.
  - split; [done|]. intros e [= <-]. by rewrite WithStack_text.
Qed.

Lemma find_iface_owns name l m : respects mon (find_iface name l) m (may_refuse m).
Proof.
  induction l as [|i l IH]; simpl.
  - split; [done|]. intros e [= <-]. unfold no_addr. by rewrite NewStackError_text.
  - case_decide; [|done]. apply own_effect; [done|]. intros [la|err] Hr; simpl.
    + by destruct (first_usable la).
    + split; [done|]. intros e [= <-]. by rewrite WithStack_text.
Qed.

Lemma GetInterfaceAddr_owns name m : respects mon (GetInterfaceAddr name) m (may_refuse m).
Proof.
  apply own_effect; [done|]. intros [l|err] Hr; [apply find_iface_owns|].
  split; [done|]. intros e [= <-]. by rewrite WithStack_text.
Qed.

Lemma print_addrs_owns prefix i l m : respects mon (print_addrs prefix i l) m (λ m' _, m' = m).
Proof.
  induction l as [|a l IH]; [done|]. cbn [print_addrs].
  destruct (addr_ip a) as [p|]; [|exact IH]. destruct (IsLoopback p); [exact IH|].
  apply own_effect; [done|]. intros _ _. exact IH.
Qed.

Lemma print_ifaces_owns prefix l m :
  respects mon (print_ifaces prefix l) m
    (λ m' r, m' = m ∧ ∀ err, r = Some err → errs (Error err)).
Proof.
  induction l as [|i l IH]; [done|]. apply own_effect; [done|].
  intros [la|err] Hr; simpl.
  - apply respects_bind. eapply respects_mono; [apply print_addrs_owns|]. by intros m' _ ->.
  - split; [done|]. intros e [= <-]. by rewrite WithStack_text.
Qed.

Lemma PrintInterfaceAddrs_owns prefix m :
  respects mon (PrintInterfaceAddrs prefix) m
    (λ m' r, m' = m ∧ ∀ err, r = Some err → errs (Error err)).
Proof.
  apply own_effect; [done|]. intros [l|err] Hr; [apply print_ifaces_owns|].
  split; [done|]. intros e [= <-]. by rewrite WithStack_text.
Qed.

Lemma StartAPIServer_owns core addr c :
  respects mon (sys (StartAPIServer core addr c)) ([], None) (λ m _, mon_final mon m).
Proof.
  unfold sys. intros [ln|err] [Hr Hl].
  - apply sys_owns, serving_owns. by left.
  - by right.
Qed.

(** ** The command line *)

(** The server's channel is the process's own until the end. *)
Definition holds (c : chan) : ostate := ([HChan c], None).

Lemma doTunnelCmd_owns core cmd rest c :
  respects mon (doTunnelCmd core (cmd :: rest)) (holds c) (λ m _, m = holds c).
Proof.
  unfold doTunnelCmd. destruct rest as [|la [|ra rest]]; [by apply own_effect..|].
  apply respects_bind, sys_calm; [apply calm_NewSSHClient|done|].
  intros [client|err]; [|by apply own_effect].
  apply own_chan_make. intros c'. apply respects_bind, sys_owns.
  apply OpenTunnel_owns; [done|]. intros r.
  apply own_effect; [done|]. intros sigs _. do 4 (apply own_effect; [done|]; intros ? _).
  apply sys_owns. eapply own_chan_close; [|done]. simpl. by rewrite decide_True.
Qed.

Lemma startCommandLine_owns core c :
  respects mon (startCommandLine core) (holds c) (λ m _, m = holds c).
Proof.
  apply (respects_loop _ (λ _ m, m = holds c)); [done|]. intros [] m ->.
  apply own_effect; [done|]. intros _ _. apply own_effect; [done|]. intros s _.
  cbn [bind]. destruct (Fields (default "" s)) as [|cmd rest]; [done|].
  repeat case_decide; try done.
  apply respects_bind. eapply respects_mono; [apply doTunnelCmd_owns|]. by intros m _ ->.
Qed.

Lemma waitForSignal_owns c :
  respects mon waitForSignal (holds c) (λ m _, m = holds c).
Proof.
  do 4 (apply own_effect; [done|]; intros ? _). exists ([], None), (holds c).
  split; [done|]. split; [|by apply own_effect].
  do 2 (apply own_effect; [done|]; intros ? _). done.
Qed.

(** ** The process *)

Lemma readArgs_owns args i m : respects mon (readArgs args i) m (λ m' _, m' = m).
Proof.
  revert i. induction args as [|arg args IH]; intros i; [done|]. cbn [readArgs].
  repeat case_decide; [| |apply IH|].
  - apply own_effect; [done|]. intros _ _. apply IH.
  - apply own_effect; [done|]. intros _ _. apply IH.
  - apply respects_bind, sys_owns. destruct m as [hs sl]. intros [] _. apply IH.
Qed.

Lemma serveUntil_owns core interactive :
  respects mon (serveUntil core interactive) ([], None) (λ m _, mon_final mon m).
Proof.
  apply own_effect; [done|]. intros _ _. apply respects_bind.
  eapply respects_mono; [apply PrintInterfaceAddrs_owns|].
  intros m [err|] [-> Herr]; [right; by apply Herr|].
  apply own_chan_make. intros c. exists ([], None), (holds c). split; [done|].
  split; [apply StartAPIServer_owns|]. apply own_effect; [done|]. intros _ _.
  apply respects_bind. apply (respects_mono _ _ _ (λ m _, m = holds c)).
  { destruct interactive; [apply startCommandLine_owns|apply waitForSignal_owns]. }
  intros m _ ->. apply respects_bind, sys_owns.
  eapply own_chan_close; [simpl; by rewrite decide_True|].
  apply respects_bind, sys_owns. intros [] _. simpl. by intros _ _.
Qed.

Lemma main_owns args :
  respects mon (main args) ([], None) (λ m _, mon_final mon m).
Proof.
  apply respects_bind. eapply respects_mono; [apply readArgs_owns|]. intros m i ->.
  apply respects_bind, orPanic_owns; [apply LoadHostConf_owns|intros hc].
  apply respects_bind, orPanic_owns; [apply GetInterfaceAddr_owns|intros addr].
  apply own_effect; [done|]. intros _ _.
  apply respects_bind. eapply respects_mono; [apply GetInterfaceAddr_owns|]. intros m r [-> _].
  apply respects_bind. apply (respects_mono _ _ _ (λ m _, m = ([], None))).
  { case_decide; [by apply own_effect|done]. }
  intros m _ ->. apply serveUntil_owns.
Qed.

(** Every reachable state of the process keeps the invariant, and its goroutines the
    discipline. *)
Lemma process_owned args ts mem :
  rtc (pstep (proc_sem errs)) ([main args], ([], ∅)) (ts, mem) → pool_inv mon owned (ts, mem).
Proof.
  intros Hr. eapply (pool_sound mon (proc_sem errs) owned); [| | | |exact Hr].
  - apply lift_legal, owned_legal.
  - apply lift_step, owned_step.
  - apply owned_split.
  - exists [([], None)]. split; [|apply owned_first, NoDup_nil_2].
    constructor; [by apply main_owns|constructor].
Qed.

End process.

(** * Properties *)


(** A user who opens a tunnel and quits while it is there, on a host where every call
    succeeds; the server is told to stop while it is idle. *)
Definition proc_machine (s : shared_mem) (X : Type) (e : procE X) : option (X * shared_mem) :=
  match e in procE Y return option (Y * shared_mem) → option (Y * shared_mem) with
  | PSys e => λ _, own_machine stopping s _ e
  | PScan => λ _,
      Some (Some (if existsb (λ h, match h with HSSH _ => true | _ => false end) s.1
                  then "quit" else "tunnel :8080 10.0.0.2:80"), s)
  | _ => λ r, r
  end (prod_map id (λ _, s) <$> terminal tt X e).

Definition unaddressed (msg : string) : Prop :=
  String.prefix "No IPv4 addr for iface: " msg = true.

Lemma proc_machine_sem s X (e : procE X) x s' :
  proc_machine s X e = Some (x, s') → proc_sem unaddressed s (Obs e x) s'.
Proof.
  intros Hm. split.
  - destruct e as [X e| | | | | | | | | | | | | |]; simpl in *; try done;
      [|by simplify_eq|by simplify_eq].
    destruct e; try done; unfold own_machine in Hm; simpl in Hm; by simplify_eq.
  - destruct e; simpl in *; try (by simplify_eq). by eapply own_machine_sem.
Qed.

Definition ref_process : list (prog procE unit) * shared_mem :=
  pool_path proc_machine (replicate 100 0 ++ concat (replicate 12 (seq 0 10)))
    ([ref_main], ([], ∅)).

