(* ===== verification/ProcLive.v ===== *)
(** Nobody deadlocks: a goroutine of the process that waits for a mutex of a resource or for a
    channel to be closed waits for another goroutine, and that one does not wait. *)
From S2P Require Import Prelude Go Progress Errors Types Sys LineIO HostConf Kube LiveMigration.
From S2P Require Import Ownership DumpProofs ApiCore ApiServer ApiProofs Logger Proc IfAddr Main.
From S2P Require Import Process.
#[local] Open Scope go_scope.

(** * Duties *)

(** What the effect waits for, when it is there. *)
Definition awaited {X : Type} (e : sysE X) : option handle :=
  match e with
  | EResLock name => Some (HLock name)
  | EChanRecv c => Some (HChan c)
  | _ => None
  end.

Definition proc_awaited {X : Type} (e : procE X) : option handle :=
  match e with PSys e => awaited e | _ => None end.

(** A goroutine that owns a mutex or a channel has the duty to give it up; all duties have
    the same level, since nobody with one waits. *)
Definition has_duty (m : ostate) (X : Type) (e : procE X) (n : nat) : Prop :=
  n = 0 ∧ ∃ h, proc_awaited e = Some h ∧ h ∈ m.1.

Definition waits_on (m : ostate) (X : Type) (e : procE X) (n : nat) : Prop :=
  n = 0 ∧ is_Some (proc_awaited e).

Definition never (X : Type) (e : procE X) : Prop := False.

Lemma awaited_duty {X} (e : sysE X) h : awaited e = Some h → duty h = true.
Proof. destruct e; simpl; intros [= <-]; done. Qed.

Lemma awaited_waits {X} (e : sysE X) x : is_Some (awaited e) → waits (Obs e x) = true.
Proof. destruct e; simpl; try done; by intros []. Qed.

(** An effect that waits has no answer while what it waits for is there. *)
Lemma awaited_blocked s {X} (e : sysE X) h x s' :
  awaited e = Some h → h ∈ s.1 → ¬ own_sem s (Obs e x) s'.
Proof.
  destruct e; simpl; intros [= <-] Hin (Hf & _ & _ & _ & Hr); simpl in *; [done|].
  by apply Forall_cons in Hf as [? _].
Qed.

(** Every other effect has one, on a host where calls succeed. *)
Lemma own_answers s X (e : sysE X) :
  (∃ h, awaited e = Some h ∧ h ∈ s.1) ∨
  ∃ x, own_answer (λ X e, None) s X e = Some x.
Proof.
  destruct e; simpl; try (right; eauto; done).
  - case_decide; [left; eauto|right; eauto].
  - case_decide; [left; eauto|right; eauto].
Qed.

(** What is awaited belongs to a goroutine: the fields of the resources have only services. *)
Lemma awaited_owner s ms h :
  owned s ms → duty h = true → h ∈ s.1 → ∃ j m, ms !! j = Some m ∧ h ∈ m.1.
Proof.
  intros (F & [_ Hs _ _ _]) Hd Hh. rewrite Hs in Hh. apply elem_of_app in Hh as [Hh|Hh].
  - apply list_elem_of_In, in_concat in Hh as (l & Hl & Hh%list_elem_of_In).
    apply list_elem_of_In, list_elem_of_fmap in Hl as (m & -> & Hm).
    apply list_elem_of_lookup in Hm as [j Hj]. eauto.
  - unfold in_slots in Hh. apply list_elem_of_fmap in Hh as (v & -> & _). done.
Qed.

Section live.
Context (errs : string → Prop).

Abbreviation mon := (lift_mon sys_part (start_errors errs) (owner conns_leak (fatal errs))).

Lemma proc_blocked s X (e : procE X) h :
  proc_awaited e = Some h → h ∈ s.1 → blocked (proc_sem errs) s e.
Proof.
  destruct e as [X e| | | | | | | | | | | | | |]; try done. simpl.
  intros He Hh x s' [_ Hs]. exact (awaited_blocked s e h x s' He Hh Hs).
Qed.

Lemma proc_progress s ms i m X (e : procE X) :
  owned s ms → ms !! i = Some m →
  (∃ x s', proc_sem errs s (Obs e x) s') ∨
  blocked (proc_sem errs) s e ∧
    ∃ j mj n, ms !! j = Some mj ∧ has_duty mj X e n ∧ waits_on m X e n.
Proof.
  intros Ho Hi. destruct e as [X e| | | | | | | | | | | | | |].
  2-15: left; first [exists tt|exists None|exists 0|exists (Ok [])]; by exists s.
  destruct (own_answers s X e) as [(h & He & Hh)|[x Hx]].
  - right. split; [by eapply proc_blocked|].
    destruct (awaited_owner s ms h Ho (awaited_duty _ _ He) Hh) as (j & mj & Hj & Hin).
    exists j, mj, 0. split; [done|]. split; [by split; [|exists h]|]. split; [done|]. by exists h.
  - left. destruct (own_machine (λ X e, None) s X e) as [[y s']|] eqn:Hm.
    + exists y, s'. split; [|by eapply own_machine_sem].
      unfold own_machine in Hm. rewrite Hx in Hm. simpl in Hm. simplify_eq.
      destruct e; simpl in *; try done; by simplify_eq.
    + unfold own_machine in Hm. by rewrite Hx in Hm.
Qed.

(** Nobody with a duty asks for anything that waits. *)
Lemma duty_first m X (e : procE X) n X' (e' : procE X') n' :
  has_duty m X e n → waits_on m X' e' n' → Progress.allowed mon m e' → n' < n.
Proof.
  intros [_ (h & He & Hh)] [_ Hw] Ha. exfalso.
  destruct e as [X e| | | | | | | | | | | | | |]; try done.
  destruct e' as [X' e'| | | | | | | | | | | | | |]; try (by destruct Hw).
  assert (Hd : existsb duty m.1 = true).
  { apply existsb_exists. exists h. split; [by apply list_elem_of_In|by eapply awaited_duty]. }
  assert (Hno : ∀ x, own_legal m (Obs e' x) → start_errors errs (Obs (PSys e') x) → False).
  { intros x Hl Hp. apply (Ha x); [by split|]. simpl. unfold own_step_of.
    by rewrite (awaited_waits e' x Hw), Hd. }
  destruct e'; simpl in Hw; try (by destruct Hw); by apply (Hno tt).
Qed.


Lemma duty_stays s ms i j m mj o s' m' X (e : procE X) n :
  owned s ms → ms !! i = Some m → ms !! j = Some mj → i ≠ j → proc_sem errs s o s' →
  mon_step mon m o = Some m' → has_duty mj X e n → blocked (proc_sem errs) s e →
  blocked (proc_sem errs) s' e.
Proof.
  intros Ho Hi Hj Hn Hs Hst (_ & h & He & Hh) _. apply (proc_blocked s' X e h He).
  apply (owned_elem s' (<[i := m']> ms) j mj); [|by rewrite list_lookup_insert_ne|done].
  by eapply lift_step; [apply owned_step|..].
Qed.

Lemma duty_done m X (e : procE X) n : mon_final mon m → has_duty m X e n → never X e.
Proof.
  intros [_ Hl] (_ & h & He & Hh). rewrite forallb_forall in Hl.
  apply list_elem_of_In, Hl in Hh.
  destruct e as [X e| | | | | | | | | | | | | |]; try done.
  destruct e; simpl in He; try done; by simplify_eq.
Qed.

End live.

(** * Property *)


(** The server's goroutine that ends it waits for its channel to be closed, while the user has
    opened nothing yet. *)
Definition waiting : list (prog procE unit) * shared_mem :=
  pool_path proc_machine (replicate 20 0 ++ replicate 10 1) ([ref_main], ([], ∅)).

Lemma waiting_reached :
  rtc (pstep (proc_sem unaddressed)) ([ref_main], ([], ∅)) waiting.
Proof. apply pool_path_steps, proc_machine_sem. Qed.

